(* ===== verification/_CoqProject ===== *)
-Q . S2P
Prelude.v
Cpp.v
Hash.v
Chunk.v
DB.v
MerkleSpec.v
MerkleTree.v
SqlMerkle.v
MPTNode.v
Trie.v
TrieSpec.v
TrieProof.v
TrieMap.v
Config.v
VRLog.v
VRReplica.v
VRSafety.v
VRApp.v
VRCluster.v
TimeServer.v
Txn.v
Reply.v
OCCStore.v
OCCSpec.v
StoreCommon.v
Server.v
LedgerTypes.v
SkipList.v
SkipSpec.v
LedgerDB.v
LedgerFrame.v
LedgerVersions.v
LedgerSpec.v
LedgerAudit.v
VersionStore.v
ShardClient.v
BufferClient.v
StrongClient.v
ClientSpec.v
Workload.v
SmallBank.v
VRClient.v
Transport.v
TransportSpec.v
BTreeNode.v
BTree.v
BTreeSpec.v
BTreeReads.v
BTreeMap.v
QLNode.v
QLDB.v
QLMerkle.v
QLDBSpec.v
TxnLog.v
SQLLedger.v
SQLSpec.v
SQLStore.v
SQLStoreSpec.v
SQLAudit.v
QLStore.v
QLStoreSpec.v
