(* ===== verification/Prelude.v ===== *)
(** * LedgerDatabase: a verification development

    LedgerDatabase is a distributed, transactional key-value store whose shards
    keep their data in a verifiable ledger.  A client runs optimistic transactions
    over several shards with two-phase commit; each shard is a group of
    replicas driven by viewstamped replication; a replica serves a transaction
    store over a versioned store over one of three ledgers, and clients check
    Merkle proofs of what they read.  This development models that code file by
    file and proves what its parts promise each other.

    ** Conventions

    A [std::string] or a memory block is a list of bytes.  Machine integers are
    [N] or [Z] with their wrap-around written out ([u64], [int32], ...).  Code that
    can throw, fail an assertion, run into undefined behaviour or wait for ever
    is in the [outcome] monad of this file.  State is passed explicitly; a
    hash table whose order matters is iterated in the order an interface gives.
    Code that is not in the repository is a type class with its documented
    laws: BLAKE2b and SHA-1, RocksDB, TBB's hash maps, the protocol buffer
    codec, the application above the replication library.  Loops whose
    recursion is not structural take fuel; their theorems say which amount is enough:
    the height of a tree, the number of entries of a skip list, the length of
    the longest key of a trie.

    ** Parts, from the ledger up

    - [Prelude], [Cpp]: byte strings, outcomes, integers; the C++ library.
    - [Hash] ([ledger/common/hash.*]), [Chunk] ([chunk.*]), [DB] ([db.h]): digests
      and their base-32 text, self-describing blocks, the store and its two caches.
      [base32_codec_bijective], [m_cache_transparent]; the digest cache cannot be
      seen by a user that follows stored digests only ([cache_transparent]).
    - [MerkleSpec]: the reference Merkle tree.  [MerkleTree]
      ([ledgerdb/merkletree.*]): the journal's tree, extended commit by commit, and its
      proofs: [update_correct], [getProof_verifies], [Verify_sound].
      [SqlMerkle] ([sqlledger/sqlldg_mt.*]): the trees of SQL Ledger, built at once:
      [Build_correct], [GetProof_verifies], [sql_Verify_sound].
    - [MPTNode] ([ledgerdb/mpt/mpt_node.*]), [Trie] ([trie.*], [mpt_delta.h]): the Merkle
      Patricia trie on chunks.  [TrieSpec] is the abstract tree and its map laws,
      [TrieProof] the simulation between the two, [TrieMap] the properties:
      [Set_get], [Remove_get], [Trie_proof_verifies], [VerifyProof_truncated],
      [Set_numElements].  Trees are stored by digest, so each of them assumes that the
      finitely many nodes in play have distinct digests.
    - [LedgerTypes] ([common/utils.*], [ledgerdb/types.h]): the records as text.
      [SkipList] ([ledgerdb/skiplist]): the versions of a key, refined in [SkipSpec] to a
      list of versions: [skiplist_versions].
    - [LedgerDB] ([ledgerdb/ledgerdb.*]): writing, the thread that builds the trees,
      reads, proofs and audits.  [LedgerFrame] says what each part of it leaves
      alone in the shared store; [LedgerVersions] that reads return the last
      writes ([ledger_values], [GetRange_GetValues]); [LedgerSpec] what is committed and
      that it can be proved ([ledger_invariant], [Set_is_provable]); [LedgerAudit] what
      an audit decides.
    - [Txn], [Reply]: timestamps, transactions and the messages.  [OCCStore]
      ([strongstore/occstore.*]) over an interface to the versioned store;
      [OCCSpec] refines it to a machine of prepared transactions ([occ_refines],
      [prepared_isolated], [prepared_conflict_free]), for every versioned store: with
      the pairs put so far as ghost state each has the map the machine speaks
      of, and a run with and without them is the same ([run_ops_erase]).  [VersionStore]
      ([backend/versionstore.*]) implements the interface with [LedgerDB].
    - [StoreCommon]: the clock, the stack store, promises, sharding.  [Server]
      ([exes/strong-server.cc], [strongstore/server.h]): the upcalls and the loading of
      the workloads ([server_refines]).
    - [Config] ([lib/configuration.*]), [VRLog] ([replication/common]), [VRReplica]
      ([replication/vr/replica.*]): a replica, method by method, in a monad of state,
      output and failure.  [VRSafety] proves by a weakest-precondition calculus what
      every event keeps ([replica_invariant]) and that requests are executed once
      ([request_exactly_once]); [VRCluster] runs replicas over a lossy network as a
      step relation and proves what a cluster replicates ([never_replicated]).
      [VRApp] shows for every application that a preorder its upcalls respect
      holds along any events.
    - [TimeServer] ([timeserver/timeserver.h], [exes/timeserver.cc]): the counter that gives
      the times of commits, as an application of the replicas.  The times of one
      leader increase ([times_increase]); an execution of a cluster, run by an
      executable schedule of its steps, shows that two leaders give the same time
      ([times_repeat]).
    - [ShardClient], [BufferClient], [StrongClient] ([strongstore/shardclient.*],
      [frontend/bufferclient.*], [strongstore/client.*]): the client side, each over an
      interface to the next.  [ClientSpec] proves two-phase commit atomic against
      the interface ([atomic_commit]).
    - [Workload] ([exes/verifyClient.cc], [exes/rangeClient.cc]): the two threads of a
      benchmark around the map of keys to be verified.  A turn of the verifying
      thread accounts for every key, given what the other thread adds meanwhile
      ([verify_round_accounts]); [key_lost] is how a key escapes.
    - [SmallBank] ([exes/smallbankClient.cc]): six transactions over the client; which
      writes reach the commit ([run_op_writes]) and what becomes of the money
      ([payment_conserves], [Amalgamate_money], [payment_to_self], [check_fee]).
    - [VRClient] ([replication/vr/client.*]): the client of a replica group, with its
      retries, composed with the leader ([client_calls_once], [resent_request_once]).

    - [Transport] ([lib/tcptransport.*], [transportcommon.h], [transport.*]): registration,
      connections (whose memory the allocator may use again), frames, broadcasts,
      timers and [Timeout] objects.  [TransportSpec]
      proves that a connection is a reliable stream ([tcp_fifo]), that timeouts
      implement the set of timers of [VRReplica] ([timeouts_refine]), and when a
      broadcast leaves the sender out ([broadcast_returns]); [VRCluster] lets the
      address a replica is known by be any.

    ** The second ledger

    - [BTreeNode] ([qldb/ql_btree_node.*]): leaves and inner nodes as chunks.  [BTree]
      ([qldb/ql_btree.*], [ql_delta.*]): search, insertion with splits, the buffer of changed
      nodes and its commit.  [BTreeSpec] relates a stored tree to the sorted list
      of its entries, [BTreeReads] shows that the tree is a finite map
      ([btree_refines]).  The two fan-outs are parameters; a theorem asks for entries
      of at most [B] bytes, so small that a node of them fits in 32 bits of
      length, and for as much fuel as keys were ever set.
    - [QLNode] ([qldb/qlnode.*]): documents and blocks as chunks.  [QLDB] ([qldb/qldb.*]):
      the ledger over two B+ trees, its digests, its writes, reads and proofs.  [QLMerkle]
      proves both of its digest trees equal to the reference tree of [MerkleSpec];
      [BTreeMap] states for a named tree in a shared store that it is a map, with what
      frames it; [QLDBSpec] shows that a run of the ledger keeps every version of every
      key ([qldb_history]) and that each document it returns has a proof its digest
      accepts ([qldb_provable]).  The loops over the levels of a tree have fuel 64,
      the width of the numbers they halve.  [ledger_limits] collects the bounds.

    ** The third ledger

    - [TxnLog] ([ledger/common/logger.*]): the log of transactions as chunks in a file, with
      an index of what each block holds: what was logged is read back
      ([log_roundtrip]).
    - [SQLLedger] ([sqlledger/sqlledger.*]): a write in the three steps its locks
      make of it, an iteration of the thread that builds blocks, reads, proofs and
      audits, over the B+ tree, the trees of [SqlMerkle] and the log.  [SQLSpec] shows
      that in a run of writes and iterations the index and the history return the
      documents written ([sql_refines]), that the digest leads to every
      block and every block to the transactions it was built from
      ([sql_blocks_provable]), and that the proof of a document is refused as the
      code reads it ([detail_refused]).  The bounds are [tree_limits], with documents
      of at most [B] bytes ([op_ok]) and fuel for as many keys as were set.

    ** The other two builds

    The versioned store and the shard client are compiled for one of the three
    ledgers.  [VersionStore] and [ShardClient] are the build with LedgerDB.
    - [QLStore]: the build with QLDB, on the interface of [OCCStore].  [QLStoreSpec]: the
      replies of a shard after any writes carry proofs that the client
      accepts ([qldb_reads_verified]), but not the reply to a commit that reads and
      writes ([qldb_commit_checked]); the map of a shard is what its reads answer
      ([qldb_map_read]).
    - [SQLStore]: the build with SQL Ledger.  [SQLStoreSpec]: a client reads the last
      values ([sql_store_reads]) and refuses all proofs of keys
      ([sql_proofs_refused]).  [SQLAudit]: what the log of a run holds, and what the
      verdict of an audit is ([sql_audit_verdict]).
    The bounds are those of the ledgers; writes read a clock that is a parameter.

    ** Correspondence

    A definition has the name of the method it models, with a prefix where the
    name is taken ([sc_], [bc_], [cl_] for the three clients, [store_] for the versioned
    store, [sql_] and [sq_] for SQL Ledger, [sl_] for the skip list, [bt_] for the B+ tree,
    [ql_] for QLDB, [qs_], [qc_] and [ss_] for the stores and the client of the
    other two builds).  The fields of a record are the members of the class, those without effect on the results excepted.  What a loop of the
    code does is a fixpoint named after it.

    ** Not modelled

    Sockets, the event loop and the resolver behind [Transport]; log lines ([lib/message]),
    tracing and the timing calls; the random choices, command lines and latency output of
    the benchmarks, the scripts ([exps]), and of the benchmarks TPC-C, which computes with
    floating-point numbers in decimal, and the loop around [Audit]; the threads of a benchmark
    share one client, whose calls are taken one after the other here; the unused base
    class of the stores ([txnstore]) and the chunk store of QLDB ([qldb_store]), which nothing calls;
    generated protocol buffer code; tests. *)

From stdpp Require Export base list gmap strings numbers option sorting.
From Stdlib Require Export NArith ZArith Lia ZifyBool Ascii.

Set Default Proof Using "Type".

(** ** Byte strings

A [std::string] and a raw memory block are both finite sequences of bytes. *)

Abbreviation bytes := (list ascii).

Definition str (s : string) : bytes := String.list_ascii_of_string s.

Declare Scope ledger_scope.
Delimit Scope ledger_scope with ledger.
Open Scope ledger_scope.

(** [#"abc"] is the C++ string literal ["abc"]. *)
Notation "# s" := (str s%string) (at level 1, format "# s") : ledger_scope.

(** ** Outcomes

A C++ expression either yields a value, throws a standard exception, fails an
[ASSERT]/[Panic], or runs into undefined behaviour.  [OutOfFuel] is no
behaviour of the code: it marks a model evaluated with too little fuel, and the
termination theorems show that the fuel given is enough.  [Blocked] is a wait for
something that never comes. *)

Inductive exn := invalid_argument | out_of_range | length_error.

Inductive failure :=
  | Throw (e : exn)
  | Panicked
  | Undefined
  | Blocked
  | OutOfFuel.

Inductive outcome (A : Type) : Type :=
  | Done (a : A)
  | Stop (f : failure).
Arguments Done {A} a.
Arguments Stop {A} f.

Global Instance outcome_ret : MRet outcome := @Done.
Global Instance outcome_bind : MBind outcome := λ A B k m,
  match m with Done a => k a | Stop f => Stop f end.
Global Instance outcome_fmap : FMap outcome := λ A B f m,
  match m with Done a => Done (f a) | Stop e => Stop e end.

Lemma bind_Done {A B} (x : A) (f : A → outcome B) : Done x ≫= f = f x.
Proof. done. Qed.
Lemma bind_Done_inv {A B} (m : outcome A) (f : A → outcome B) b :
  m ≫= f = Done b → ∃ a, m = Done a ∧ f a = Done b.
Proof. destruct m as [a|]; [by exists a|done]. Qed.
Lemma Done_inj {A} (a b : A) : Done a = Done b → a = b.
Proof. congruence. Qed.

(** A run that ends well, for evaluating it without its result. *)
Definition is_done {A} (m : outcome A) : bool := match m with Done _ => true | Stop _ => false end.
Lemma is_done_Done {A} (m : outcome A) : is_done m = true → ∃ a, m = Done a.
Proof. destruct m; [eauto|done]. Qed.

(** [ASSERT(b)] of [distributed/lib/assert.h]. *)
Definition ASSERT (b : bool) : outcome unit :=
  if b then Done tt else Stop Panicked.

Lemma ASSERT_bind {B} b (k : unit → outcome B) : b = true → ASSERT b ≫= k = k tt.
Proof. by intros ->. Qed.

Global Instance exn_eq_dec : EqDecision exn.
Proof. solve_decision. Defined.
Global Instance failure_eq_dec : EqDecision failure.
Proof. solve_decision. Defined.
Global Instance outcome_eq_dec `{EqDecision A} : EqDecision (outcome A).
Proof. solve_decision. Defined.

(** ** Unsigned machine integers *)

Definition u8  (n : N) : N := (n mod 2 ^ 8)%N.
Definition u32 (n : N) : N := (n mod 2 ^ 32)%N.
Definition u64 (n : N) : N := (n mod 2 ^ 64)%N.

Lemma u8_small n : (n < 2 ^ 8)%N → u8 n = n.
Proof. apply N.mod_small. Qed.
Lemma u32_small n : (n < 2 ^ 32)%N → u32 n = n.
Proof. apply N.mod_small. Qed.
Lemma u64_small n : (n < 2 ^ 64)%N → u64 n = n.
Proof. apply N.mod_small. Qed.

(** ** Bytes as numbers *)

Definition byte_of_N (n : N) : ascii := ascii_of_N (n mod 256).

Lemma N_of_byte_of_N n : N_of_ascii (byte_of_N n) = (n mod 256)%N.
Proof. apply N_ascii_embedding, N.mod_lt. done. Qed.

Lemma byte_of_N_of_ascii a : byte_of_N (N_of_ascii a) = a.
Proof.
  unfold byte_of_N. rewrite N.mod_small by apply N_ascii_bounded.
  apply ascii_N_embedding.
Qed.

Lemma byte_of_N_of_bytes (bs : bytes) : byte_of_N <$> (N_of_ascii <$> bs) = bs.
Proof. induction bs as [|b bs IH]; [done|]. cbn. by rewrite byte_of_N_of_ascii, IH. Qed.

Global Instance N_of_ascii_inj : Inj (=) (=) N_of_ascii.
Proof.
  intros a b H. by rewrite <-(ascii_N_embedding a), <-(ascii_N_embedding b), H.
Qed.

(** Little-endian layout, as [memcpy] from an integer of [k] bytes lays it out
on the x86-64 targets the sources are written for. *)
Fixpoint le_encode (k : nat) (n : N) : bytes :=
  match k with
  | O => []
  | S k => byte_of_N n :: le_encode k (n / 256)
  end.

Fixpoint le_decode (bs : bytes) : N :=
  match bs with
  | [] => 0
  | b :: bs => N_of_ascii b + 256 * le_decode bs
  end%N.

Lemma length_le_encode k n : length (le_encode k n) = k.
Proof. revert n. induction k; intros n; simpl; [done|by f_equal]. Qed.

Lemma le_decode_encode k n :
  le_decode (le_encode k n) = (n mod 256 ^ N.of_nat k)%N.
Proof.
  revert n. induction k as [|k IH]; intros n; simpl le_encode; simpl le_decode.
  { by rewrite N.mod_1_r. }
  rewrite N_of_byte_of_N, IH, Nat2N.inj_succ, N.pow_succ_r'.
  by rewrite N.Div0.mod_mul_r.
Qed.

Lemma le_encode_mod k n : le_encode k (n mod 256 ^ N.of_nat k) = le_encode k n.
Proof.
  revert n. induction k as [|k IH]; intros n; [done|]. simpl le_encode.
  rewrite Nat2N.inj_succ, N.pow_succ_r'. f_equal.
  - unfold byte_of_N. f_equal. rewrite N.Div0.mod_mul_r, N.mul_comm.
    by rewrite N.Div0.mod_add, N.Div0.mod_mod.
  - rewrite N.Div0.mod_mul_r, N.add_comm, N.mul_comm, N.div_add_l by done.
    rewrite (N.div_small (n mod 256)), N.add_0_r by (by apply N.mod_lt). apply IH.
Qed.

Lemma le_decode_encode_small k n :
  (n < 256 ^ N.of_nat k)%N → le_decode (le_encode k n) = n.
Proof. intros ?. by rewrite le_decode_encode, N.mod_small. Qed.

Lemma le_decode_bound bs : (le_decode bs < 256 ^ N.of_nat (length bs))%N.
Proof.
  induction bs as [|b bs IH]; [done|]. cbn [le_decode length].
  rewrite Nat2N.inj_succ, N.pow_succ_r'.
  pose proof (N_ascii_bounded b). lia.
Qed.

(** ** Lists *)

(** [List.map] is what the guard condition sees through. *)
Lemma lookup_map {A B} (f : A → B) (l : list A) (i : nat) : List.map f l !! i = f <$> l !! i.
Proof. exact (list_lookup_fmap f l i). Qed.

Lemma filter_all {A} (P : A → Prop) `{∀ x, Decision (P x)} (l : list A) : (∀ x, x ∈ l → P x) → filter P l = l.
Proof.
  induction l as [|x l IH]; intros Hl; [done|].
  rewrite filter_cons_True by (apply Hl; by left). rewrite IH; [done|]. intros y Hy. apply Hl. by right.
Qed.
Lemma filter_no {A} (P : A → Prop) `{∀ x, Decision (P x)} (l : list A) : (∀ x, x ∈ l → ¬ P x) → filter P l = [].
Proof.
  induction l as [|x l IH]; intros Hl; [done|].
  rewrite filter_cons_False by (apply Hl; by left). apply IH. intros y Hy. apply Hl. by right.
Qed.

Lemma mjoin_cons {A} (x : list A) l : mjoin (x :: l) = x ++ mjoin l.
Proof. done. Qed.

Lemma join_snoc {A} (l : list (list A)) x : mjoin (l ++ [x]) = mjoin l ++ x.
Proof. induction l as [|y l IH]; [exact (app_nil_r x)|]. cbn [app]. by rewrite !mjoin_cons, IH, app_assoc. Qed.
Lemma join_app {A} (l1 l2 : list (list A)) : mjoin (l1 ++ l2) = mjoin l1 ++ mjoin l2.
Proof. induction l1 as [|y l1 IH]; [done|]. cbn [app]. by rewrite !mjoin_cons, IH, app_assoc. Qed.

Lemma zip_fmaps {A B C} (f : A → B) (g : A → C) (l : list A) : zip (f <$> l) (g <$> l) = (λ x, (f x, g x)) <$> l.
Proof. induction l as [|x l IH]; [done|]. cbn. by rewrite IH. Qed.

Lemma foldl_list_fmap {A B C} (f : C → B → C) (g : A → B) (l : list A) (c : C) :
  foldl f c (g <$> l) = foldl (λ c x, f c (g x)) c l.
Proof. revert c. induction l as [|x l IH]; intros c; [done|]. apply IH. Qed.

(** ** Case analysis and rewriting automation *)

Ltac done_inv :=
  repeat match goal with
  | H : Done _ = Done _ |- _ => injection H as H; try subst
  | H : Stop _ = Done _ |- _ => discriminate H
  | H : Done _ = Stop _ |- _ => discriminate H
  | H : Some _ = Some _ |- _ => injection H as H; try subst
  | H : None = Some _ |- _ => discriminate H
  | H : Some _ = None |- _ => discriminate H
  end.

(** Split the boolean tests and matches the goal or a hypothesis is stuck on. *)
Ltac split_match :=
  repeat (case_match; simplify_eq/=; try done).

Create HintDb ledger discriminated.
Create Rewrite HintDb ledger.
#[export] Hint Rewrite length_le_encode : ledger.
#[export] Hint Rewrite @length_app @length_take @length_drop : ledger.

Ltac len := autorewrite with ledger in *; simpl in *; try lia.

(** Arithmetic on variables is left folded by [simpl]. *)
#[global] Arguments N.shiftl : simpl never.
#[global] Arguments N.shiftr : simpl never.
#[global] Arguments N.land : simpl never.
#[global] Arguments N.pow : simpl never.
#[global] Arguments N.mul : simpl never.
#[global] Arguments N.add : simpl never.
#[global] Arguments N.sub : simpl never.
#[global] Arguments N.div : simpl never.
#[global] Arguments N.modulo : simpl never.
#[global] Arguments N.of_nat : simpl never.
#[global] Arguments N.to_nat : simpl never.
#[global] Arguments Nat.div : simpl never.
#[global] Arguments Nat.modulo : simpl never.
