(* ===== verification/Cpp.v ===== *)
(** * The C++ standard library the sources use

    [std::to_string], [std::stoul]/[stol]/[stoi], [std::string::find],
    [substr], [operator<] and [std::getline], as the C++ standard specifies
    them on byte strings, with the facts the components share: decimal round
    trips, injectivity of separated keys and the order on strings. *)

From S2P Require Import Prelude.
From Stdlib Require DecimalN DecimalFacts.

Open Scope N_scope.

(** ** Decimal printing *)

Fixpoint bytes_of_uint (u : Decimal.uint) : bytes :=
  match u with
  | Decimal.Nil => []
  | Decimal.D0 u => "0"%char :: bytes_of_uint u
  | Decimal.D1 u => "1"%char :: bytes_of_uint u
  | Decimal.D2 u => "2"%char :: bytes_of_uint u
  | Decimal.D3 u => "3"%char :: bytes_of_uint u
  | Decimal.D4 u => "4"%char :: bytes_of_uint u
  | Decimal.D5 u => "5"%char :: bytes_of_uint u
  | Decimal.D6 u => "6"%char :: bytes_of_uint u
  | Decimal.D7 u => "7"%char :: bytes_of_uint u
  | Decimal.D8 u => "8"%char :: bytes_of_uint u
  | Decimal.D9 u => "9"%char :: bytes_of_uint u
  end.

(** [std::to_string] on an unsigned integer. *)
Definition to_string (n : N) : bytes := bytes_of_uint (N.to_uint n).

(** [std::to_string] on a signed integer. *)
Definition to_string_z (z : Z) : bytes :=
  if (z <? 0)%Z then "-"%char :: to_string (Z.abs_N z) else to_string (Z.to_N z).

(** ** Decimal parsing *)

Definition digit_cons (a : ascii) : option (Decimal.uint → Decimal.uint) :=
  match N_of_ascii a with
  | 48 => Some Decimal.D0 | 49 => Some Decimal.D1 | 50 => Some Decimal.D2 | 51 => Some Decimal.D3
  | 52 => Some Decimal.D4 | 53 => Some Decimal.D5 | 54 => Some Decimal.D6 | 55 => Some Decimal.D7
  | 56 => Some Decimal.D8 | 57 => Some Decimal.D9 | _ => None
  end.

Definition is_digit (a : ascii) : bool :=
  (48 <=? N_of_ascii a) && (N_of_ascii a <=? 57).

(** The longest prefix of digits. *)
Fixpoint scan_uint (s : bytes) : Decimal.uint :=
  match s with
  | [] => Decimal.Nil
  | a :: s => match digit_cons a with Some d => d (scan_uint s) | None => Decimal.Nil end
  end.

Definition is_space (a : ascii) : bool :=
  let n := N_of_ascii a in ((9 <=? n) && (n <=? 13)) || (n =? 32).

Fixpoint skip_spaces (s : bytes) : bytes :=
  match s with
  | a :: s' => if is_space a then skip_spaces s' else s
  | [] => []
  end.

(** An optional sign: true when the number is negated. *)
Definition scan_sign (s : bytes) : bool * bytes :=
  match s with
  | a :: s' =>
      if N_of_ascii a =? 45 then (true, s')
      else if N_of_ascii a =? 43 then (false, s') else (false, s)
  | [] => (false, [])
  end.

(** [std::stoul], base 10: [strtoul] negates a negative number modulo 2^64. *)
Definition stoul (s : bytes) : outcome N :=
  let '(neg, ds) := scan_sign (skip_spaces s) in
  match scan_uint ds with
  | Decimal.Nil => Stop (Throw invalid_argument)
  | u =>
      let v := N.of_uint u in
      if 2 ^ 64 <=? v then Stop (Throw out_of_range)
      else Done (if neg then u64 (2 ^ 64 - v) else v)
  end.

(** [std::stol] and [std::stoi] differ in the range they accept. *)
Definition sto_signed (bits : Z) (s : bytes) : outcome Z :=
  let '(neg, ds) := scan_sign (skip_spaces s) in
  match scan_uint ds with
  | Decimal.Nil => Stop (Throw invalid_argument)
  | u =>
      let v := (if neg then - Z.of_N (N.of_uint u) else Z.of_N (N.of_uint u))%Z in
      if ((v <? - 2 ^ (bits - 1)) || (2 ^ (bits - 1) <=? v))%Z
      then Stop (Throw out_of_range) else Done v
  end.
Definition stol (s : bytes) : outcome Z := sto_signed 64 s.
Definition stoi (s : bytes) : outcome Z := sto_signed 32 s.

(** ** Searching and slicing *)

(** [s.find(c)]; [None] is [std::string::npos]. *)
Fixpoint find_char (c : ascii) (s : bytes) : option nat :=
  match s with
  | [] => None
  | a :: s => if decide (a = c) then Some O else S <$> find_char c s
  end.

(** [s.substr(pos, len)], [len = None] being the default [npos]. *)
Definition substr (s : bytes) (pos : nat) (len : option nat) : outcome bytes :=
  if (length s <? pos)%nat then Stop (Throw out_of_range)
  else Done (match len with Some n => take n (drop pos s) | None => drop pos s end).

(** [s[i]] on a [std::string]: position [size()] holds the terminator, and a
read past it is undefined behaviour, here the byte [junk i] that follows the
string in memory. *)
Definition char_at (junk : nat → ascii) (s : bytes) (i : nat) : ascii :=
  match s !! i with
  | Some a => a
  | None => if (i =? length s)%nat then "000"%char else junk i
  end.

(** ** The order on strings ([std::string::compare], [memcmp]) *)

Fixpoint bytes_compare (a b : bytes) : comparison :=
  match a, b with
  | [], [] => Eq
  | [], _ :: _ => Lt
  | _ :: _, [] => Gt
  | x :: a, y :: b =>
      match N_of_ascii x ?= N_of_ascii y with
      | Eq => bytes_compare a b
      | c => c
      end
  end.
Definition bytes_ltb (a b : bytes) : bool :=
  match bytes_compare a b with Lt => true | _ => false end.
Definition bytes_lt (a b : bytes) : Prop := bytes_compare a b = Lt.

(** ** Facts about numbers in strings *)

Lemma digit_cons_spec a d : digit_cons a = Some d → is_digit a = true.
Proof. destruct a as [[][][][][][][][]]; by vm_compute. Qed.

Lemma scan_bytes_of_uint u s :
  (∀ a s', s = a :: s' → is_digit a = false) →
  scan_uint (bytes_of_uint u ++ s) = u.
Proof.
  intros Hs. induction u; simpl; rewrite ?IHu; try done.
  destruct s as [|a s]; [done|]. simpl.
  destruct (digit_cons a) eqn:Ha; [|done].
  apply digit_cons_spec in Ha. by rewrite (Hs a s) in Ha.
Qed.

Lemma bytes_of_uint_digits u : Forall (λ a, is_digit a = true) (bytes_of_uint u).
Proof. induction u; simpl; constructor; done. Qed.

Lemma to_string_digits n : Forall (λ a, is_digit a = true) (to_string n).
Proof. apply bytes_of_uint_digits. Qed.

Lemma to_string_cons n : ∃ a s, to_string n = a :: s ∧ is_digit a = true.
Proof.
  pose proof (to_string_digits n) as HF. unfold to_string in *.
  destruct (N.to_uint n) eqn:Hu; simpl in *;
    try (eexists _, _; split; [done|by inversion HF]).
  exfalso. pose proof (DecimalN.Unsigned.of_to n) as H. rewrite Hu in H.
  simpl in H. subst n. discriminate Hu.
Qed.

Lemma to_string_nonnil n : to_string n ≠ [].
Proof. destruct (to_string_cons n) as (a & s & -> & _). done. Qed.

Lemma skip_spaces_digit a s :
  is_digit a = true → skip_spaces (a :: s) = a :: s.
Proof.
  intros Ha. simpl. replace (is_space a) with false; [done|].
  unfold is_digit, is_space in *. lia.
Qed.

Lemma scan_sign_digit a s :
  is_digit a = true → scan_sign (a :: s) = (false, a :: s).
Proof.
  unfold is_digit. intros Ha. simpl.
  by rewrite !(proj2 (N.eqb_neq _ _)) by lia.
Qed.

Lemma scan_to_string n s :
  (∀ a s', s = a :: s' → is_digit a = false) →
  scan_sign (skip_spaces (to_string n ++ s)) = (false, to_string n ++ s)
  ∧ scan_uint (to_string n ++ s) = N.to_uint n.
Proof.
  intros Hs. split; [|by apply scan_bytes_of_uint].
  destruct (to_string_cons n) as (a & s' & -> & Ha). rewrite <-app_comm_cons.
  by rewrite skip_spaces_digit, scan_sign_digit.
Qed.

Lemma to_uint_nonnil n : N.to_uint n ≠ Decimal.Nil.
Proof.
  pose proof (to_string_nonnil n) as H. unfold to_string in H.
  intros E. by rewrite E in H.
Qed.

(** A number written by [to_string] and followed by a non-digit is read back. *)
Lemma stoul_to_string_app n s :
  n < 2 ^ 64 → (∀ a s', s = a :: s' → is_digit a = false) →
  stoul (to_string n ++ s) = Done n.
Proof.
  intros Hn Hs. unfold stoul.
  destruct (scan_to_string n s Hs) as [-> ->].
  pose proof (to_uint_nonnil n).
  destruct (N.to_uint n) eqn:Hu; [done|..]; rewrite <-Hu, DecimalN.Unsigned.of_to;
    (rewrite (proj2 (N.leb_gt _ _)) by lia); done.
Qed.

Lemma stoul_to_string n : n < 2 ^ 64 → stoul (to_string n) = Done n.
Proof.
  intros Hn. rewrite <-(app_nil_r (to_string n)).
  by apply stoul_to_string_app.
Qed.

Lemma sto_signed_to_string bits n s :
  (Z.of_N n < 2 ^ (bits - 1))%Z → (∀ a s', s = a :: s' → is_digit a = false) →
  sto_signed bits (to_string n ++ s) = Done (Z.of_N n).
Proof.
  intros Hn Hs. unfold sto_signed.
  destruct (scan_to_string n s Hs) as [-> ->].
  pose proof (to_uint_nonnil n).
  destruct (N.to_uint n) eqn:Hu; [done|..]; rewrite <-Hu, DecimalN.Unsigned.of_to;
    (rewrite (proj2 (Z.ltb_ge _ _)), (proj2 (Z.leb_gt _ _)) by lia); done.
Qed.

Lemma to_string_inj n m : to_string n = to_string m → n = m.
Proof.
  intros H. apply (f_equal scan_uint) in H. unfold to_string in H.
  rewrite <-(app_nil_r (bytes_of_uint (N.to_uint n))) in H.
  rewrite <-(app_nil_r (bytes_of_uint (N.to_uint m))) in H.
  rewrite !scan_bytes_of_uint in H by done.
  by apply DecimalN.Unsigned.to_uint_inj.
Qed.
Global Instance to_string_Inj : Inj (=) (=) to_string := to_string_inj.

(** ** Separated keys *)

Lemma app_sep_inj (c : ascii) (a b x y : bytes) :
  c ∉ a → c ∉ b → a ++ c :: x = b ++ c :: y → a = b ∧ x = y.
Proof.
  revert b. induction a as [|u a IH]; intros [|v b] Ha Hb H; simplify_eq/=; try done.
  - by apply not_elem_of_cons in Hb as [? _].
  - by apply not_elem_of_cons in Ha as [? _].
  - apply not_elem_of_cons in Ha as [_ Ha]. apply not_elem_of_cons in Hb as [_ Hb].
    destruct (IH b Ha Hb) as [-> ->]; done.
Qed.

Lemma app_sep_end (c : ascii) (a b y : bytes) :
  c ∉ a → a = b ++ c :: y → False.
Proof. intros Ha ->. apply Ha. apply elem_of_app. right. by left. Qed.

Lemma to_string_no c n : is_digit c = false → c ∉ to_string n.
Proof.
  intros Hc Hin. pose proof (to_string_digits n) as HF.
  rewrite Forall_forall in HF. specialize (HF c Hin). simpl in HF. congruence.
Qed.
#[export] Hint Extern 1 (_ ∉ to_string _) => (apply to_string_no; reflexivity) : ledger.

Lemma find_char_app c a x : c ∉ a → find_char c (a ++ c :: x) = Some (length a).
Proof.
  induction a as [|b a IH]; simpl; intros Hc; [by case_decide|].
  apply not_elem_of_cons in Hc as [Hne Hc].
  rewrite decide_False by done. by rewrite IH.
Qed.

Lemma find_char_None c a : c ∉ a → find_char c a = None.
Proof.
  induction a as [|b a IH]; simpl; intros Hc; [done|].
  apply not_elem_of_cons in Hc as [Hne Hc].
  rewrite decide_False by done. by rewrite IH.
Qed.

(** ** The order on strings is a total order *)

Lemma bytes_compare_eq a b : bytes_compare a b = Eq ↔ a = b.
Proof.
  revert b. induction a as [|x a IH]; intros [|y b]; simpl; try done.
  destruct (N.compare_spec (N_of_ascii x) (N_of_ascii y)) as [E|E|E].
  - apply (inj N_of_ascii) in E. subst y. rewrite IH. naive_solver.
  - split; [done|]. intros [= -> _]. lia.
  - split; [done|]. intros [= -> _]. lia.
Qed.

Lemma bytes_compare_antisym a b : bytes_compare b a = CompOpp (bytes_compare a b).
Proof.
  revert b. induction a as [|x a IH]; intros [|y b]; simpl; try done.
  rewrite N.compare_antisym.
  destruct (N_of_ascii x ?= N_of_ascii y); simpl; auto.
Qed.

Lemma bytes_lt_trans a b c : bytes_lt a b → bytes_lt b c → bytes_lt a c.
Proof.
  unfold bytes_lt. revert b c.
  induction a as [|x a IH]; intros [|y b] [|z c]; simpl; try done.
  destruct (N.compare_spec (N_of_ascii x) (N_of_ascii y)) as [E1|E1|E1],
    (N.compare_spec (N_of_ascii y) (N_of_ascii z)) as [E2|E2|E2]; try done;
    destruct (N.compare_spec (N_of_ascii x) (N_of_ascii z)) as [E3|E3|E3];
    try done; try lia; eauto.
Qed.

Lemma bytes_lt_irrefl a : ¬ bytes_lt a a.
Proof. unfold bytes_lt. by rewrite (proj2 (bytes_compare_eq a a)). Qed.

Lemma bytes_ltb_lt a b : bytes_ltb a b = true ↔ bytes_lt a b.
Proof. unfold bytes_ltb, bytes_lt. by destruct (bytes_compare a b). Qed.

Lemma bytes_lt_total a b : bytes_lt a b ∨ a = b ∨ bytes_lt b a.
Proof.
  unfold bytes_lt. rewrite (bytes_compare_antisym a b).
  destruct (bytes_compare a b) eqn:E; eauto.
  apply bytes_compare_eq in E. eauto.
Qed.

Global Instance bytes_lt_strict : StrictOrder bytes_lt.
Proof. split; [exact bytes_lt_irrefl|exact bytes_lt_trans]. Qed.

(** ** Positions as [size_t] and [unsigned int] *)

Definition npos : N := 2 ^ 64 - 1.

Fixpoint find_if (P : ascii → bool) (s : bytes) : option nat :=
  match s with
  | [] => None
  | c :: s => if P c then Some O else S <$> find_if P s
  end.

Definition mem (cs : bytes) (c : ascii) : bool := existsb (Ascii.eqb c) cs.
#[global] Arguments mem : simpl never.

(** [s.find_first_of(cs, pos)] and [s.find_first_not_of(cs, pos)]. *)
Definition find_from (P : ascii → bool) (s : bytes) (pos : N) : N :=
  if N.of_nat (length s) <=? pos then npos
  else match find_if P (drop (N.to_nat pos) s) with
       | Some k => pos + N.of_nat k
       | None => npos
       end.
Definition find_first_of (cs s : bytes) (pos : N) : N := find_from (mem cs) s pos.
Definition find_first_not_of (cs s : bytes) (pos : N) : N :=
  find_from (λ c, negb (mem cs c)) s pos.

(** [s.substr(pos, len)] with positions as they are passed; [len = None] is
[npos]. *)
Definition substr_n (s : bytes) (pos : N) (len : option N) : outcome bytes :=
  let size := N.of_nat (length s) in
  if size <? pos then Stop (Throw out_of_range)
  else
    let rest := drop (N.to_nat pos) s in
    Done match len with
         | Some len => take (N.to_nat (N.min len (size - pos))) rest
         | None => rest
         end.

(** [tolower] in the C locale and [strcasecmp(a, b) == 0]. *)
Definition tolower (c : ascii) : ascii :=
  let n := N_of_ascii c in
  if (65 <=? n) && (n <=? 90) then ascii_of_N (n + 32) else c.
Definition strcasecmp_eq (a b : bytes) : bool :=
  bool_decide (tolower <$> a = tolower <$> b).

(** The strings [getline] gives until the end of the stream is reached. *)
Fixpoint getlines (sep : ascii) (s acc : bytes) : list bytes :=
  match s with
  | [] => [rev acc]
  | c :: s => if Ascii.eqb c sep then rev acc :: getlines sep s [] else getlines sep s (c :: acc)
  end.

Lemma find_if_app P a c s :
  (∀ x, x ∈ a → P x = false) → P c = true → find_if P (a ++ c :: s) = Some (length a).
Proof.
  induction a as [|x a IH]; intros Ha Hc; simpl; [by rewrite Hc|].
  rewrite (Ha x) by (by left). rewrite IH; [done| |done]. intros y Hy. apply Ha. by right.
Qed.

Lemma find_if_none P a : (∀ x, x ∈ a → P x = false) → find_if P a = None.
Proof.
  induction a as [|x a IH]; intros Ha; simpl; [done|].
  rewrite (Ha x) by (by left). rewrite IH; [done|]. intros y Hy. apply Ha. by right.
Qed.

Lemma getlines_app sep a acc s :
  sep ∉ a → getlines sep (a ++ sep :: s) acc = (rev acc ++ a) :: getlines sep s [].
Proof.
  revert acc. induction a as [|x a IH]; intros acc Ha; simpl.
  - by rewrite Ascii.eqb_refl, app_nil_r.
  - apply not_elem_of_cons in Ha as [Hne Ha].
    rewrite (proj2 (Ascii.eqb_neq _ _)) by congruence.
    rewrite IH by done. simpl. by rewrite <-app_assoc.
Qed.

(** ** [std::map] with string keys

An iteration goes through the entries in the order of their keys. *)

Definition bytes_le (a b : bytes) : Prop := bytes_compare a b ≠ Gt.

#[global] Instance bytes_le_dec a b : Decision (bytes_le a b).
Proof. unfold bytes_le. apply _. Defined.
#[global] Instance bytes_lt_dec a b : Decision (bytes_lt a b).
Proof. unfold bytes_lt. apply _. Defined.

Definition entry_le {A} (a b : bytes * A) : Prop := bytes_le a.1 b.1.
#[global] Instance entry_le_dec {A} (a b : bytes * A) : Decision (entry_le a b).
Proof. unfold entry_le. apply _. Defined.

Definition map_entries {A} (m : gmap bytes A) : list (bytes * A) :=
  merge_sort entry_le (map_to_list m).

(** A [std::map] with integer keys, in the order of an iteration. *)
Definition nentry_le {A} (a b : N * A) : Prop := a.1 <= b.1.
#[export] Instance nentry_le_dec {A} (a b : N * A) : Decision (nentry_le a b).
Proof. unfold nentry_le. apply _. Defined.
Definition nmap_entries {A} (m : gmap N A) : list (N * A) := merge_sort nentry_le (map_to_list m).

Lemma map_entries_perm {A} (m : gmap bytes A) : map_entries m ≡ₚ map_to_list m.
Proof. apply merge_sort_Permutation. Qed.

Lemma elem_of_map_entries {A} (m : gmap bytes A) k x : (k, x) ∈ map_entries m ↔ m !! k = Some x.
Proof. by rewrite map_entries_perm, elem_of_map_to_list. Qed.

Lemma map_entries_NoDup {A} (m : gmap bytes A) : NoDup (map_entries m).*1.
Proof. rewrite map_entries_perm. apply NoDup_fst_map_to_list. Qed.

Lemma nmap_entries_perm {A} (m : gmap N A) : nmap_entries m ≡ₚ map_to_list m.
Proof. apply merge_sort_Permutation. Qed.

Lemma elem_of_nmap_entries {A} (m : gmap N A) k x : (k, x) ∈ nmap_entries m ↔ m !! k = Some x.
Proof. by rewrite nmap_entries_perm, elem_of_map_to_list. Qed.

Lemma nmap_entries_singleton {A} k (x : A) : nmap_entries {[k := x]} = [(k, x)].
Proof. apply Permutation_singleton_r. by rewrite nmap_entries_perm, map_to_list_singleton. Qed.

Lemma nmap_entries_NoDup {A} (m : gmap N A) : NoDup (nmap_entries m).*1.
Proof. rewrite nmap_entries_perm. apply NoDup_fst_map_to_list. Qed.

(** [std::map::emplace] of every element: the first value of a key stays. *)
Lemma emplace_lookup {A} (key val : A → bytes) (f : bytes → option bytes) (l : list A) m k :
  (∀ a, a ∈ l → f (key a) = Some (val a)) →
  foldl (λ (m : gmap bytes bytes) a, match m !! key a with Some _ => m | None => <[key a := val a]> m end) m l !! k
  = match m !! k with Some v => Some v | None => if decide (k ∈ key <$> l) then f k else None end.
Proof.
  revert m. induction l as [|a l IH]; intros m Hf; [cbn; by destruct (m !! k)|].
  cbn [foldl fmap list_fmap]. rewrite IH by (intros b Hb; apply Hf; by right). specialize (Hf a ltac:(by left)).
  destruct (m !! key a) as [v|] eqn:Ea.
  - destruct (m !! k) as [w|] eqn:Ek; [done|]. repeat case_decide; try done; set_solver.
  - destruct (decide (k = key a)) as [->|Hne].
    + rewrite lookup_insert_eq, Ea, decide_True by (by left). done.
    + rewrite lookup_insert_ne by done. destruct (m !! k) as [w|] eqn:Ek; [done|]. repeat case_decide; try done; set_solver.
Qed.

(** ** The length of a printed number *)

Lemma length_bytes_of_uint u : length (bytes_of_uint u) = Decimal.nb_digits u.
Proof. by induction u; cbn; f_equal. Qed.

Lemma little_double_digits d :
  (Decimal.nb_digits (Decimal.Little.double d) <= S (Decimal.nb_digits d))%nat ∧
  (Decimal.nb_digits (Decimal.Little.succ_double d) <= S (Decimal.nb_digits d))%nat.
Proof. induction d as [|d []|d []|d []|d []|d []|d []|d []|d []|d []|d []]; cbn; lia. Qed.

Lemma length_to_string n : 0 < n → (length (to_string n) <= N.to_nat (N.size n))%nat.
Proof.
  intros Hn. unfold to_string. rewrite length_bytes_of_uint. destruct n as [|p]; [lia|].
  cbn [N.to_uint]. unfold Pos.to_uint. rewrite DecimalFacts.nb_digits_rev. cbn [N.size]. clear Hn.
  induction p as [p IH|p IH|]; [| |done].
  - cbn [Pos.to_little_uint Pos.size]. pose proof (proj2 (little_double_digits (Pos.to_little_uint p))). lia.
  - cbn [Pos.to_little_uint Pos.size]. pose proof (proj1 (little_double_digits (Pos.to_little_uint p))). lia.
Qed.

Lemma length_to_string_32 n : n < 2 ^ 32 → (length (to_string n) <= 32)%nat.
Proof.
  intros Hn. destruct (decide (n = 0)) as [->|Hne]; [cbv; lia|].
  pose proof (length_to_string n ltac:(lia)). pose proof (N.size_le n).
  assert (N.size n <= 32); [|lia]. rewrite N.size_log2 by done.
  pose proof (proj1 (N.log2_lt_pow2 n 32 ltac:(lia)) Hn). lia.
Qed.

(** ** Reading memory

    [rest] is the memory from the current offset on; a read past its end is
    undefined. *)
Definition read_bytes (n : N) (rest : bytes) : outcome (bytes * bytes) :=
  if n <=? N.of_nat (length rest) then Done (take (N.to_nat n) rest, drop (N.to_nat n) rest)
  else Stop Undefined.
Definition read_int (w : nat) (rest : bytes) : outcome (N * bytes) :=
  '(b, rest) ← read_bytes (N.of_nat w) rest; Done (le_decode b, rest).

Lemma read_bytes_app b rest : read_bytes (N.of_nat (length b)) (b ++ rest) = Done (b, rest).
Proof.
  unfold read_bytes. rewrite length_app, (proj2 (N.leb_le _ _)) by lia.
  by rewrite Nat2N.id, take_app_length, drop_app_length.
Qed.

Lemma read_int_encode w n rest : n < 256 ^ N.of_nat w → read_int w (le_encode w n ++ rest) = Done (n, rest).
Proof.
  intros Hn. unfold read_int. rewrite <-(length_le_encode w n) at 1.
  by rewrite read_bytes_app, bind_Done, le_decode_encode_small.
Qed.

(** A piece with its 32-bit length in front. *)
Lemma read_sized (b rest : bytes) : N.of_nat (length b) < 2 ^ 32 →
  read_int 4 (le_encode 4 (N.of_nat (length b)) ++ rest) = Done (N.of_nat (length b), rest).
Proof. intros Hb. by apply read_int_encode. Qed.

(** Entries in the order of their keys are unique, and a key above all others comes
last. *)
#[export] Instance nentry_le_total {A} : Total (nentry_le (A := A)).
Proof. intros a b. unfold nentry_le. lia. Qed.
#[export] Instance nentry_le_trans {A} : Transitive (nentry_le (A := A)).
Proof. intros a b c. unfold nentry_le. lia. Qed.

Lemma nmap_entries_snoc {A} (m : gmap N A) i x : (∀ k, is_Some (m !! k) → k < i) →
  nmap_entries (<[i := x]> m) = nmap_entries m ++ [(i, x)].
Proof.
  intros Hm. assert (m !! i = None) as Hi by (apply eq_None_not_Some; intros Hs; specialize (Hm i Hs); lia).
  assert (nmap_entries (<[i := x]> m) ≡ₚ nmap_entries m ++ [(i, x)]) as Hp.
  { rewrite !nmap_entries_perm, map_to_list_insert by done. by rewrite <-Permutation_cons_append. }
  apply (StronglySorted_unique_strong nentry_le); [|apply StronglySorted_merge_sort; apply _| |exact Hp].
  - intros [k1 y1] [k2 y2] H1 H2 Hle1 Hle2. unfold nentry_le in *. cbn in *. assert (k1 = k2) as -> by lia.
    f_equal. rewrite <-Hp in H2. apply elem_of_nmap_entries in H1, H2. congruence.
  - apply StronglySorted_app_2; [|apply StronglySorted_merge_sort; apply _|by repeat constructor].
    intros [k y] [k' y'] Hk ->%list_elem_of_singleton. apply elem_of_nmap_entries in Hk.
    specialize (Hm k ltac:(by eexists)). unfold nentry_le. cbn. lia.
Qed.
