(* ===== verification/Hash.v ===== *)
(** * [ledger/common/hash.h] and [hash.cc]: digests and their base-32 text

    A [Hash] is a pointer to 20 bytes, or null.  The digest function itself is
    CryptoPP's BLAKE2b, a parameter of the development. *)

From S2P Require Import Prelude Cpp.

Open Scope N_scope.

(** ** The digest function

[CryptoPP::BLAKE2b::CalculateDigest] with its default digest size. *)
Class Blake2b := {
  blake2b : bytes → bytes;
  blake2b_length : ∀ s, length (blake2b s) = 64%nat;
}.

Definition kByteLength : nat := 20.
Definition kBase32Length : nat := 32.
Definition base32alphabet : bytes := #"ABCDEFGHIJKLMNOPQRSTUVWXYZ234567".

(** [Hash::ComputeFrom]: the first 20 bytes of the BLAKE2b digest. *)
Definition ComputeFrom `{Blake2b} (data : bytes) : bytes :=
  take kByteLength (blake2b data).

(** ** [Hash::FromBase32] *)

(** [test.find(base32[i+j])]; [npos] is [2^64 - 1]. *)
Definition base32_index (c : ascii) : N :=
  match find_char c base32alphabet with
  | Some k => N.of_nat k
  | None => 2 ^ 64 - 1
  end.

(** The inner loop [for (j = 0; j < 8; ++j)]: [n] iterations left, reading
from position [i] on. *)
Fixpoint gather_symbols (junk : nat → ascii) (s : bytes) (i n : nat) (tmp : N) : N :=
  match n with
  | O => tmp
  | S n =>
      let tmp := u64 (N.shiftl tmp 5) in
      let tmp := u64 (tmp + base32_index (char_at junk s i)) in
      gather_symbols junk s (S i) n tmp
  end.

(** The loop writing [own_[dest + 4 - j]] from the last byte to the first. *)
Fixpoint scatter_bytes (n : nat) (tmp : N) (acc : bytes) : bytes :=
  match n with
  | O => acc
  | S n => scatter_bytes n (N.shiftr tmp 8) (byte_of_N (N.land tmp 255) :: acc)
  end.

Definition decode_group (junk : nat → ascii) (s : bytes) (i : nat) : bytes :=
  scatter_bytes 5 (gather_symbols junk s i 8 0) [].

Definition FromBase32 (junk : nat → ascii) (s : bytes) : bytes :=
  mjoin (decode_group junk s <$> [0%nat; 8%nat; 16%nat; 24%nat]).

(** ** [Hash::ToBase32] *)

Fixpoint gather_bytes (bs : bytes) (tmp : N) : N :=
  match bs with
  | [] => tmp
  | b :: bs => gather_bytes bs (u64 (u64 (N.shiftl tmp 8) + N_of_ascii b))
  end.

(** [base32alphabet[size_t(uint8_t(tmp >> 5 * (7 - j)))]], [k] being [7 - j]. *)
Definition base32_symbol (tmp : N) (k : N) : ascii :=
  default "000"%char (base32alphabet !! N.to_nat (u8 (N.shiftr tmp (5 * k)))).

Fixpoint scatter_symbols (n : nat) (tmp : N) : bytes :=
  match n with
  | O => []
  | S n =>
      let k := N.of_nat n in
      base32_symbol tmp k
        :: scatter_symbols n (N.land tmp (u64 (N.shiftl 1 (5 * k)) - 1))
  end.

Definition encode_group (h : bytes) (i : nat) : bytes :=
  scatter_symbols 8 (gather_bytes (take 5 (drop i h)) 0).

Definition ToBase32_value (h : bytes) : bytes :=
  mjoin (encode_group h <$> [0%nat; 5%nat; 10%nat; 15%nat]).

(** ** The class [Hash]: null or a pointer to the bytes *)

Definition hash : Type := option bytes.

Definition hash_empty (h : hash) : bool :=
  match h with None => true | Some _ => false end.

Definition ToBase32 (h : hash) : bytes :=
  match h with None => [] | Some v => ToBase32_value v end.

Definition Clone (h : hash) : hash :=
  match h with None => None | Some v => Some (take kByteLength v) end.

(** [operator==]: null only equals null, otherwise [memcmp] on 20 bytes. *)
Definition hash_eqb (lhs rhs : hash) : bool :=
  match lhs, rhs with
  | Some a, Some b => bool_decide (take kByteLength a = take kByteLength b)
  | None, None => true
  | _, _ => false
  end.

Definition hash_neqb (lhs rhs : hash) : bool := negb (hash_eqb lhs rhs).

(** ** Digit strings in a base *)

Fixpoint be_val (base : N) (ds : list N) : N :=
  match ds with
  | [] => 0
  | d :: ds => d * base ^ N.of_nat (length ds) + be_val base ds
  end.

Fixpoint digits (base : N) (k : nat) (v : N) : list N :=
  match k with
  | O => []
  | S k => v / base ^ N.of_nat k :: digits base k (v mod base ^ N.of_nat k)
  end.

Section Digits.
Context (base : N) (Hbase : 1 < base).

Local Lemma pow_pos k : 0 < base ^ k.
Proof using Hbase. apply N.neq_0_lt_0, N.pow_nonzero. lia. Qed.

Lemma length_digits k v : length (digits base k v) = k.
Proof. revert v. induction k; intros v; simpl; auto. Qed.

Lemma be_val_digits k v :
v < base ^ N.of_nat k → be_val base (digits base k v) = v.
Proof using Hbase.
revert v. induction k as [|k IH]; intros v Hv; simpl.
{ simpl in Hv. lia. }
pose proof (pow_pos (N.of_nat k)).
rewrite length_digits, IH by (apply N.mod_lt; lia).
pose proof (N.Div0.div_mod v (base ^ N.of_nat k)). lia.
Qed.

Lemma be_val_bound ds :
Forall (λ d, d < base) ds → be_val base ds < base ^ N.of_nat (length ds).
Proof using Hbase.
induction 1 as [|d ds Hd _ IH]; [done|]. cbn [be_val length].
rewrite Nat2N.inj_succ, N.pow_succ_r'.
pose proof (pow_pos (N.of_nat (length ds))). nia.
Qed.

Lemma digits_be_val ds :
Forall (λ d, d < base) ds → digits base (length ds) (be_val base ds) = ds.
Proof using Hbase.
induction 1 as [|d ds Hd Hds IH]; [done|]. cbn [be_val length digits].
pose proof (be_val_bound _ Hds). pose proof (pow_pos (N.of_nat (length ds))).
rewrite N.div_add_l, N.div_small, N.add_0_r by lia.
rewrite N.add_comm, N.Div0.mod_add, N.mod_small by lia.
by rewrite IH.
Qed.

Lemma digits_bound k v :
v < base ^ N.of_nat k → Forall (λ d, d < base) (digits base k v).
Proof using Hbase.
revert v. induction k as [|k IH]; intros v Hv; simpl; constructor.
- apply N.Div0.div_lt_upper_bound.
  by rewrite Nat2N.inj_succ, N.pow_succ_r', N.mul_comm in Hv.
- apply IH, N.mod_lt. pose proof (pow_pos (N.of_nat k)). lia.
Qed.

Lemma be_val_snoc ds d : be_val base (ds ++ [d]) = be_val base ds * base + d.
Proof.
induction ds as [|e ds IH]; simpl; [lia|].
rewrite IH, length_app, Nat.add_1_r, Nat2N.inj_succ, N.pow_succ_r'. lia.
Qed.

Lemma digits_snoc k v :
v < base ^ N.of_nat (S k) →
digits base (S k) v = digits base k (v / base) ++ [v mod base].
Proof using Hbase.
rewrite Nat2N.inj_succ, N.pow_succ_r'. intros Hv.
assert (v / base < base ^ N.of_nat k) by (apply N.Div0.div_lt_upper_bound; lia).
assert (v mod base < base) by (apply N.mod_lt; lia).
rewrite <-(digits_be_val (digits base k (v / base) ++ [v mod base])).
- rewrite length_app, length_digits, be_val_snoc, be_val_digits by done.
  simpl length. rewrite Nat.add_1_r. f_equal.
  pose proof (N.Div0.div_mod v base). lia.
- apply Forall_app. split; [by apply digits_bound|by constructor].
Qed.
End Digits.

(** ** The loops of the codec are digit conversions *)

Lemma shift_mask_u64 k : k < 64 → u64 (N.shiftl 1 k) - 1 = N.ones k.
Proof.
  intros Hk. rewrite N.shiftl_1_l, N.ones_equiv, u64_small, N.sub_1_r; [done|].
  by apply N.pow_lt_mono_r.
Qed.

Lemma pow256_32 : 256 ^ 5 = 32 ^ 8.
Proof. done. Qed.

Lemma gather_bytes_val bs tmp n :
  tmp < 256 ^ N.of_nat n → (n + length bs ≤ 7)%nat →
  gather_bytes bs tmp
  = tmp * 256 ^ N.of_nat (length bs) + be_val 256 (N_of_ascii <$> bs).
Proof.
  revert tmp n. induction bs as [|b bs IH]; intros tmp n Htmp Hn; cbn; [lia|].
  pose proof (N_ascii_bounded b). simpl in Hn.
  assert (256 ^ N.of_nat n ≤ 281474976710656)
    by (change 281474976710656 with (256 ^ 6); apply N.pow_le_mono_r; lia).
  rewrite N.shiftl_mul_pow2. change (2 ^ 8) with 256.
  rewrite (u64_small (tmp * 256)), u64_small
    by (change (2 ^ 64) with 18446744073709551616; lia).
  rewrite (IH _ (S n)), length_fmap.
  - rewrite Nat2N.inj_succ, N.pow_succ_r'. lia.
  - rewrite Nat2N.inj_succ, N.pow_succ_r'. lia.
  - lia.
Qed.

Lemma scatter_symbols_digits n tmp :
  (n ≤ 8)%nat → tmp < 32 ^ N.of_nat n →
  scatter_symbols n tmp
  = (λ d, default "000"%char (base32alphabet !! N.to_nat d)) <$> digits 32 n tmp.
Proof.
  revert tmp. induction n as [|n IH]; intros tmp Hn Htmp; [done|].
  cbn [scatter_symbols digits fmap list_fmap].
  assert (2 ^ (5 * N.of_nat n) = 32 ^ N.of_nat n) as E.
  { by rewrite N.pow_mul_r. }
  rewrite Nat2N.inj_succ, N.pow_succ_r' in Htmp.
  f_equal.
  - unfold base32_symbol. rewrite N.shiftr_div_pow2, E, u8_small; [done|].
    apply N.lt_trans with 32; [|done]. by apply N.Div0.div_lt_upper_bound; lia.
  - rewrite shift_mask_u64, N.land_ones, E by lia. apply IH; [lia|].
    apply N.mod_lt, N.pow_nonzero. done.
Qed.

Lemma scatter_bytes_digits n tmp acc :
  scatter_bytes n tmp acc
  = (byte_of_N <$> digits 256 n (tmp mod 256 ^ N.of_nat n)) ++ acc.
Proof.
  revert tmp acc. induction n as [|n IH]; intros tmp acc; [done|].
  cbn [scatter_bytes]. rewrite IH, N.shiftr_div_pow2. change (2 ^ 8) with 256.
  rewrite digits_snoc by (done || (apply N.mod_lt, N.pow_nonzero; done)).
  rewrite fmap_app, <-app_assoc. simpl app.
  assert (256 ^ N.of_nat n ≠ 0) by (by apply N.pow_nonzero).
  rewrite Nat2N.inj_succ, N.pow_succ_r'.
  rewrite N.Div0.mod_mul_r.
  f_equal; [do 2 f_equal|f_equal].
  - rewrite N.add_comm, N.mul_comm, N.div_add_l by done.
    rewrite (N.div_small (tmp mod 256)) by (by apply N.mod_lt). lia.
  - change 255 with (N.ones 8). rewrite N.land_ones. change (2 ^ 8) with 256.
    rewrite N.mul_comm, N.Div0.mod_add, N.Div0.mod_mod. done.
Qed.

(** ** The alphabet *)

Definition symbol (d : N) : ascii := default "000"%char (base32alphabet !! N.to_nat d).

(** A well-formed base-32 text of a digest. *)
Definition is_base32 (s : bytes) : bool :=
  (length s =? kBase32Length)%nat && forallb (λ c, bool_decide (c ∈ base32alphabet)) s.

Lemma base32_index_symbol d : d < 32 → base32_index (symbol d) = d.
Proof.
  intros Hd. rewrite <-(N2Nat.id d) in *. set (k := N.to_nat d) in *. clearbody k.
  assert (k < 32)%nat as Hk by lia. clear Hd d.
  do 32 (destruct k as [|k]; [by vm_compute|]). lia.
Qed.

Lemma symbol_base32_index c :
  c ∈ base32alphabet → base32_index c < 32 ∧ symbol (base32_index c) = c.
Proof.
  intros Hc. apply list_elem_of_lookup in Hc as [k Hk].
  pose proof (lookup_lt_Some _ _ _ Hk) as Hlt. simpl in Hlt.
  do 32 (destruct k as [|k]; [injection Hk as <-; by vm_compute|]). lia.
Qed.

Lemma char_at_middle junk (a g b : bytes) j c :
  g !! j = Some c → char_at junk (a ++ g ++ b) (length a + j) = c.
Proof.
  intros Hg. unfold char_at.
  rewrite lookup_app_r by lia. replace (length a + j - length a)%nat with j by lia.
  by rewrite lookup_app_l, Hg by (by eapply lookup_lt_Some).
Qed.

Lemma gather_symbols_val junk s i ds tmp m :
  (∀ j d, ds !! j = Some d → char_at junk s (i + j) = symbol d) →
  Forall (λ d, d < 32) ds → tmp < 32 ^ N.of_nat m → (m + length ds ≤ 12)%nat →
  gather_symbols junk s i (length ds) tmp
  = tmp * 32 ^ N.of_nat (length ds) + be_val 32 ds.
Proof.
  revert i tmp m. induction ds as [|d ds IH]; intros i tmp m Hs HF Htmp Hm; cbn; [lia|].
  cbn in Hm. apply Forall_cons in HF as [Hd HF].
  assert (32 ^ N.of_nat m ≤ 36028797018963968)
    by (change 36028797018963968 with (32 ^ 11); apply N.pow_le_mono_r; lia).
  pose proof (Hs 0%nat d eq_refl) as H0. rewrite Nat.add_0_r in H0.
  rewrite H0, base32_index_symbol by done.
  rewrite N.shiftl_mul_pow2. change (2 ^ 5) with 32.
  rewrite (u64_small (tmp * 32)), u64_small
    by (change (2 ^ 64) with 18446744073709551616; lia).
  rewrite (IH _ _ (S m)); [..|done| |lia].
  - rewrite Nat2N.inj_succ, N.pow_succ_r'. lia.
  - intros j e Hj. rewrite Nat.add_succ_comm. by apply Hs.
  - rewrite Nat2N.inj_succ, N.pow_succ_r'. lia.
Qed.

Lemma encode_group_digits (a g b : bytes) :
  length g = 5%nat →
  encode_group (a ++ g ++ b) (length a)
  = symbol <$> digits 32 8 (be_val 256 (N_of_ascii <$> g)).
Proof.
  intros Hg. unfold encode_group.
  rewrite drop_app_length, take_app_length' by done.
  assert (Forall (λ d, d < 256) (N_of_ascii <$> g)) as HF.
  { apply Forall_fmap, Forall_true. intros. apply N_ascii_bounded. }
  pose proof (be_val_bound 256 ltac:(lia) _ HF) as HB.
  rewrite length_fmap, Hg in HB.
  rewrite (gather_bytes_val _ _ 0), N.mul_0_l, N.add_0_l by (done || lia).
  by apply scatter_symbols_digits.
Qed.

Lemma decode_group_digits junk (a b : bytes) ds :
  length ds = 8%nat → Forall (λ d, d < 32) ds →
  decode_group junk (a ++ (symbol <$> ds) ++ b) (length a)
  = byte_of_N <$> digits 256 5 (be_val 32 ds).
Proof.
  intros Hl HF. unfold decode_group. rewrite <-Hl at 1.
  pose proof (be_val_bound 32 ltac:(lia) _ HF) as HB. rewrite Hl in HB.
  rewrite (gather_symbols_val _ _ _ _ _ 0) by
    (done || lia || (intros; apply char_at_middle; rewrite list_lookup_fmap; by simplify_option_eq)).
  rewrite N.mul_0_l, N.add_0_l, scatter_bytes_digits, app_nil_r.
  by rewrite N.mod_small.
Qed.

Definition dgroup (g : bytes) : list N := digits 32 8 (be_val 256 (N_of_ascii <$> g)).

Lemma dgroup_ok g :
  length g = 5%nat →
  length (dgroup g) = 8%nat ∧ Forall (λ d, d < 32) (dgroup g)
  ∧ byte_of_N <$> digits 256 5 (be_val 32 (dgroup g)) = g.
Proof.
  intros Hg.
  assert (Forall (λ d, d < 256) (N_of_ascii <$> g)) as HF.
  { apply Forall_fmap, Forall_true. intros. apply N_ascii_bounded. }
  pose proof (be_val_bound 256 ltac:(lia) _ HF) as HB. rewrite length_fmap, Hg in HB.
  split_and!; [apply length_digits|by apply digits_bound|].
  unfold dgroup. rewrite be_val_digits by (lia || done).
  rewrite <-Hg, <-(length_fmap N_of_ascii g), digits_be_val by (lia || done).
  apply byte_of_N_of_bytes.
Qed.

(** Twenty bytes are four groups of five. *)
Lemma split_groups {A} (n : nat) (h : list A) :
  length h = (4 * n)%nat →
  ∃ a b c d, h = a ++ b ++ c ++ d
    ∧ length a = n ∧ length b = n ∧ length c = n ∧ length d = n.
Proof.
  intros Hh.
  exists (take n h), (take n (drop n h)), (take n (drop n (drop n h))),
    (drop n (drop n (drop n h))).
  rewrite !take_drop. split; [done|]. rewrite !length_take, !length_drop. lia.
Qed.

Lemma ToBase32_value_groups (a b c d : bytes) :
  length a = 5%nat → length b = 5%nat → length c = 5%nat → length d = 5%nat →
  ToBase32_value (a ++ b ++ c ++ d)
  = (symbol <$> dgroup a) ++ (symbol <$> dgroup b)
    ++ (symbol <$> dgroup c) ++ (symbol <$> dgroup d).
Proof.
  intros Ha Hb Hc Hd. unfold ToBase32_value, dgroup. cbn [fmap list_fmap mjoin list_join].
  rewrite app_nil_r. f_equal; [|f_equal; [|f_equal]].
  - by rewrite <-(encode_group_digits [] a (b ++ c ++ d)).
  - rewrite <-(encode_group_digits a b (c ++ d)) by done. by rewrite Ha.
  - rewrite <-(encode_group_digits (a ++ b) c d) by done.
    by rewrite length_app, Ha, Hb, <-app_assoc.
  - rewrite <-(encode_group_digits (a ++ b ++ c) d []) by done.
    by rewrite !length_app, Ha, Hb, Hc, app_nil_r, <-!app_assoc.
Qed.

Lemma FromBase32_groups junk (a b c d : list N) :
  length a = 8%nat → length b = 8%nat → length c = 8%nat → length d = 8%nat →
  Forall (λ d, d < 32) a → Forall (λ d, d < 32) b →
  Forall (λ d, d < 32) c → Forall (λ d, d < 32) d →
  FromBase32 junk ((symbol <$> a) ++ (symbol <$> b) ++ (symbol <$> c) ++ (symbol <$> d))
  = (byte_of_N <$> digits 256 5 (be_val 32 a)) ++ (byte_of_N <$> digits 256 5 (be_val 32 b))
    ++ (byte_of_N <$> digits 256 5 (be_val 32 c)) ++ (byte_of_N <$> digits 256 5 (be_val 32 d)).
Proof.
  intros Ha Hb Hc Hd Fa Fb Fc Fd. unfold FromBase32.
  cbn [fmap list_fmap mjoin list_join]. rewrite app_nil_r.
  set (fa := list_fmap N ascii symbol a). set (fb := list_fmap N ascii symbol b).
  set (fc := list_fmap N ascii symbol c). set (fd := list_fmap N ascii symbol d).
  assert (length fa = 8%nat) as La by (by unfold fa; rewrite length_fmap).
  assert (length fb = 8%nat) as Lb by (by unfold fb; rewrite length_fmap).
  assert (length fc = 8%nat) as Lc by (by unfold fc; rewrite length_fmap).
  f_equal; [|f_equal; [|f_equal]].
  - by rewrite <-(decode_group_digits junk [] (fb ++ fc ++ fd)).
  - rewrite <-(decode_group_digits junk fa (fc ++ fd)) by done. by rewrite La.
  - rewrite <-(decode_group_digits junk (fa ++ fb) fd) by done.
    by rewrite length_app, La, Lb, <-app_assoc.
  - rewrite <-(decode_group_digits junk (fa ++ fb ++ fc) []) by done.
    by rewrite !length_app, La, Lb, Lc, app_nil_r, <-!app_assoc.
Qed.

(** The text of a digest reads back as the digest, whatever follows it. *)
Lemma FromBase32_ToBase32 junk h :
  length h = kByteLength → FromBase32 junk (ToBase32_value h) = h.
Proof.
  intros Hh. destruct (split_groups 5 h Hh) as (a & b & c & d & -> & Ha & Hb & Hc & Hd).
  rewrite ToBase32_value_groups by done.
  destruct (dgroup_ok a Ha) as (?&?&Ea), (dgroup_ok b Hb) as (?&?&Eb),
    (dgroup_ok c Hc) as (?&?&Ec), (dgroup_ok d Hd) as (?&?&Ed).
  rewrite FromBase32_groups by done. by rewrite Ea, Eb, Ec, Ed.
Qed.

Lemma length_ToBase32_value h :
  length h = kByteLength → length (ToBase32_value h) = kBase32Length.
Proof.
  intros Hh. destruct (split_groups 5 h Hh) as (a & b & c & d & -> & Ha & Hb & Hc & Hd).
  rewrite ToBase32_value_groups by done. unfold dgroup.
  by rewrite !length_app, !length_fmap, !length_digits.
Qed.

Lemma ToBase32_value_inj a b :
  length a = kByteLength → length b = kByteLength →
  ToBase32_value a = ToBase32_value b → a = b.
Proof.
  intros Ha Hb E. set (junk := λ _ : nat, "000"%char).
  by rewrite <-(FromBase32_ToBase32 junk a), <-(FromBase32_ToBase32 junk b), E.
Qed.

Lemma length_ComputeFrom `{Blake2b} s : length (ComputeFrom s) = kByteLength.
Proof. unfold ComputeFrom. rewrite length_take, blake2b_length. done. Qed.

Lemma length_FromBase32 junk s : length (FromBase32 junk s) = kByteLength.
Proof.
  assert (∀ i, length (decode_group junk s i) = 5%nat) as Hg.
  { intros i. unfold decode_group. rewrite scatter_bytes_digits.
    by rewrite app_nil_r, length_fmap, length_digits. }
  unfold FromBase32. cbn [fmap list_fmap mjoin list_join].
  by rewrite !length_app, !Hg.
Qed.

Lemma is_base32_indices s :
  is_base32 s = true →
  ∃ ds, s = symbol <$> ds ∧ length ds = kBase32Length ∧ Forall (λ d, d < 32) ds.
Proof.
  unfold is_base32. intros [Hl Hf]%andb_true_iff.
  exists (base32_index <$> s). rewrite length_fmap.
  split_and!; [|by apply Nat.eqb_eq in Hl|].
  - clear Hl. induction s as [|c s IH]; [done|]. simpl in Hf.
    apply andb_true_iff in Hf as [Hc%bool_decide_eq_true Hf].
    cbn. rewrite <-IH by done. by rewrite (proj2 (symbol_base32_index c Hc)).
  - clear Hl. induction s as [|c s IH]; [done|]. simpl in Hf.
    apply andb_true_iff in Hf as [Hc%bool_decide_eq_true Hf].
    cbn. constructor; [|by apply IH]. by apply symbol_base32_index.
Qed.

Lemma dgroup_bytes ds :
  length ds = 8%nat → Forall (λ d, d < 32) ds →
  dgroup (byte_of_N <$> digits 256 5 (be_val 32 ds)) = ds.
Proof.
  intros Hl HF. unfold dgroup.
  pose proof (be_val_bound 32 ltac:(lia) _ HF) as HB. rewrite Hl in HB.
  assert (N_of_ascii <$> (byte_of_N <$> digits 256 5 (be_val 32 ds))
          = digits 256 5 (be_val 32 ds)) as ->.
  { pose proof (digits_bound 256 ltac:(lia) 5 (be_val 32 ds) HB) as HD.
    revert HD. generalize (digits 256 5 (be_val 32 ds)).
    induction 1 as [|d l Hd _ IH]; [done|]. cbn. rewrite IH.
    by rewrite N_of_byte_of_N, N.mod_small. }
  rewrite be_val_digits by (lia || done). rewrite <-Hl. by apply digits_be_val; [lia|].
Qed.

(** A well-formed text is the text of the digest it decodes to. *)
Lemma ToBase32_FromBase32 junk s :
  is_base32 s = true → ToBase32_value (FromBase32 junk s) = s.
Proof.
  intros (ds & -> & Hl & HF)%is_base32_indices.
  destruct (split_groups 8 ds Hl) as (a & b & c & d & -> & Ha & Hb & Hc & Hd).
  rewrite !Forall_app in HF. destruct HF as (Fa & Fb & Fc & Fd).
  rewrite !fmap_app, FromBase32_groups by done.
  rewrite ToBase32_value_groups by (rewrite length_fmap; apply length_digits).
  by rewrite !dgroup_bytes by done.
Qed.

Lemma is_base32_ToBase32 h :
  length h = kByteLength → is_base32 (ToBase32_value h) = true.
Proof.
  intros Hh. unfold is_base32. rewrite length_ToBase32_value by done.
  rewrite Nat.eqb_refl. cbn [andb]. apply forallb_forall. intros c Hc%list_elem_of_In.
  apply bool_decide_eq_true.
  destruct (split_groups 5 h Hh) as (x & y & z & w & -> & Ha & Hb & Hc' & Hd).
  rewrite ToBase32_value_groups in Hc by done.
  assert (∀ g, length g = 5%nat → c ∈ symbol <$> dgroup g → c ∈ base32alphabet) as HG.
  { intros g Hg (d & -> & Hin)%list_elem_of_fmap.
    destruct (dgroup_ok g Hg) as (_ & HF & _). rewrite Forall_forall in HF.
    specialize (HF d Hin). unfold symbol.
    destruct (base32alphabet !! N.to_nat d) as [e|] eqn:E.
    - simpl. by eapply list_elem_of_lookup_2.
    - apply lookup_ge_None in E. simpl in E. lia. }
  rewrite !elem_of_app in Hc. naive_solver.
Qed.

#[global] Arguments ComputeFrom : simpl never.
#[global] Arguments FromBase32 : simpl never.
#[global] Arguments ToBase32_value : simpl never.

(** ** A concrete digest function

A polynomial checksum with 64 bytes of output, which stands for BLAKE2b when
a definition is evaluated on a concrete input. *)
Definition checksum (s : bytes) : N :=
  foldl (λ acc b, (acc * 257 + N_of_ascii b + 1) mod 1048573) 7 s.
Program Definition toy_blake2b : Blake2b :=
  {| blake2b s := le_encode 64 (checksum s) |}.
Next Obligation. intros s. apply length_le_encode. Qed.

(** ** Properties *)

(** C34. The base-32 codec of digests is a bijection between 20-byte digests
and 32-symbol texts over the alphabet: [ToBase32] writes a well-formed text,
[FromBase32] reads back the digest it was written from, and writing a decoded
well-formed text gives the text again; none of it depends on the memory after
the string. *)
Theorem base32_codec_bijective (junk : nat → ascii) :
  (∀ h, length h = kByteLength →
     is_base32 (ToBase32 (Some h)) = true ∧ FromBase32 junk (ToBase32 (Some h)) = h)
  ∧ (∀ s, is_base32 s = true →
     length (FromBase32 junk s) = kByteLength ∧ ToBase32 (Some (FromBase32 junk s)) = s).
Proof.
  split.
  - intros h Hh. split; [by apply is_base32_ToBase32|by apply FromBase32_ToBase32].
  - intros s Hs. split; [apply length_FromBase32|by apply ToBase32_FromBase32].
Qed.

Lemma base32_codec_bijective_witness :
  let h := take 20 (le_encode 64 (checksum #"ledger")) in
  length h = kByteLength ∧ FromBase32 (λ _, "x"%char) (ToBase32 (Some h)) = h.
Proof.
  intros h. split; [vm_compute; reflexivity|].
  apply (proj1 (base32_codec_bijective (λ _, "x"%char)) h). vm_compute. reflexivity.
Defined.
