(* ===== verification/Chunk.v ===== *)
(** * [ledger/common/chunk.h] and [chunk.cc]: self-describing blocks of bytes

    A chunk is a pointer to memory laid out as
    [| uint32_t num_bytes | ChunkType type | data |].  It is null or the bytes
    from the pointer on; [numBytes()] bytes of them belong to the chunk. *)

From S2P Require Import Prelude Cpp Hash.

Open Scope N_scope.

Inductive ChunkType :=
  | kMPTFull | kMPTShort | kMPTHash | kMPTValue | kMPTNil
  | kMeta | kMap | kList
  | kDocument | kQLBlock
  | kBlock | kValue
  | kTxnLog
  | kInvalid.

(** The value of the enumerator in its underlying type [unsigned char]. *)
Definition ChunkType_byte (t : ChunkType) : N :=
  match t with
  | kMPTFull => 0 | kMPTShort => 1 | kMPTHash => 2 | kMPTValue => 3 | kMPTNil => 4
  | kMeta => 5 | kMap => 6 | kList => 7
  | kDocument => 8 | kQLBlock => 9
  | kBlock => 10 | kValue => 11
  | kTxnLog => 12
  | kInvalid => 99
  end.

Definition ChunkType_of_byte (n : N) : option ChunkType :=
  match n with
  | 0 => Some kMPTFull | 1 => Some kMPTShort | 2 => Some kMPTHash
  | 3 => Some kMPTValue | 4 => Some kMPTNil | 5 => Some kMeta | 6 => Some kMap
  | 7 => Some kList | 8 => Some kDocument | 9 => Some kQLBlock
  | 10 => Some kBlock | 11 => Some kValue | 12 => Some kTxnLog
  | 99 => Some kInvalid
  | _ => None
  end.

Global Instance ChunkType_eq_dec : EqDecision ChunkType.
Proof. solve_decision. Defined.

(** A chunk: null, or the memory its [head_] points to. *)
Definition chunk : Type := option bytes.

Definition kNumBytesOffset : nat := 0.
Definition kChunkTypeOffset : nat := kNumBytesOffset + 4.
Definition kMetaLength : nat := kChunkTypeOffset + 1.

(** [Chunk(type, capacity)] followed by the [memcpy]s that fill its
[capacity] bytes with [data]. *)
Definition make_chunk (type : ChunkType) (data : bytes) : bytes :=
  le_encode 4 (N.of_nat (kMetaLength + length data))
    ++ [byte_of_N (ChunkType_byte type)] ++ data.

Definition chunk_empty (c : chunk) : bool :=
  match c with None => true | Some _ => false end.

(** Accessors of the memory [m] the chunk points to. *)
Definition numBytes (m : bytes) : N := le_decode (take 4 (drop kNumBytesOffset m)).

Definition type (m : bytes) : option ChunkType :=
  match m !! kChunkTypeOffset with
  | Some b => ChunkType_of_byte (N_of_ascii b)
  | None => None
  end.

Definition capacity (m : bytes) : N := u32 (numBytes m + 2 ^ 32 - N.of_nat kMetaLength).

Definition data (m : bytes) : bytes := drop kMetaLength m.

(** The bytes that belong to the chunk: what [rocksdb::Slice(head(), numBytes())]
and [Hash::ComputeFrom(head_, numBytes())] see. *)
Definition contents (m : bytes) : bytes := take (N.to_nat (numBytes m)) m.

Definition chunk_hash `{Blake2b} (m : bytes) : bytes := ComputeFrom (contents m).

(** ** Facts *)

Lemma ChunkType_of_to_byte t : ChunkType_of_byte (ChunkType_byte t) = Some t.
Proof. by destruct t. Qed.

Lemma ChunkType_byte_bound t : ChunkType_byte t < 256.
Proof. by destruct t. Qed.

Section Facts.
Context (t : ChunkType) (d rest : bytes).

Lemma length_make_chunk : length (make_chunk t d) = (kMetaLength + length d)%nat.
Proof. unfold make_chunk. rewrite !length_app, length_le_encode. simpl. lia. Qed.

Lemma numBytes_make_chunk :
N.of_nat (kMetaLength + length d) < 2 ^ 32 →
numBytes (make_chunk t d ++ rest) = N.of_nat (kMetaLength + length d).
Proof.
intros Hlen. unfold numBytes, make_chunk. rewrite drop_0, <-!app_assoc.
rewrite take_app_length' by (by rewrite length_le_encode).
by apply le_decode_encode_small.
Qed.

Lemma type_make_chunk : type (make_chunk t d ++ rest) = Some t.
Proof.
unfold type, make_chunk. rewrite <-!app_assoc.
rewrite lookup_app_r, length_le_encode by (by rewrite length_le_encode).
simpl. rewrite N_of_byte_of_N, N.mod_small by apply ChunkType_byte_bound.
apply ChunkType_of_to_byte.
Qed.

Lemma data_make_chunk : data (make_chunk t d ++ rest) = d ++ rest.
Proof.
unfold data, make_chunk. rewrite <-!app_assoc, app_assoc.
apply drop_app_length'. by rewrite length_app, length_le_encode.
Qed.

Lemma contents_make_chunk :
N.of_nat (kMetaLength + length d) < 2 ^ 32 →
contents (make_chunk t d ++ rest) = make_chunk t d.
Proof.
intros Hlen. unfold contents. rewrite numBytes_make_chunk, Nat2N.id by done.
apply take_app_length'. by rewrite length_make_chunk.
Qed.
End Facts.
