(* ===== verification/DB.v ===== *)
(** * [ledger/common/db.h]: the store under the ledgers

    [ledgebase::DB] wraps a RocksDB instance and two TBB hash maps that cache
    chunks: [m_cache_] for chunks under string keys, [cache_] for chunks under
    their digest.  RocksDB and TBB are interfaces with the laws their
    documentation states; [gmap] implements both. *)

From S2P Require Import Prelude Cpp Hash Chunk.

(** ** Interfaces *)

(** [rocksdb::DB::Get] and [Put]; the calls succeed (no I/O error). *)
Class RocksDB (R : Type) := {
  rocks_get : R → bytes → option bytes;
  rocks_put : R → bytes → bytes → R;
}.
Class RocksDBLaws (R : Type) `{RocksDB R} : Prop := {
  rocks_get_put r k v : rocks_get (rocks_put r k v) k = Some v;
  rocks_get_put_ne r k k' v : k ≠ k' → rocks_get (rocks_put r k v) k' = rocks_get r k';
}.

(** [tbb::concurrent_hash_map<std::string, Chunk>]: [insert] keeps the entry
that is already there. *)
Class TbbMap (C : Type) := {
  tbb_find : C → bytes → option chunk;
  tbb_insert : C → bytes → chunk → C;
  tbb_erase : C → bytes → C;
}.
Class TbbMapLaws (C : Type) `{TbbMap C} : Prop := {
  tbb_insert_absent c k v : tbb_find c k = None → tbb_find (tbb_insert c k v) k = Some v;
  tbb_insert_present c k v v' :
    tbb_find c k = Some v' → tbb_find (tbb_insert c k v) k = Some v';
  tbb_insert_ne c k k' v : k ≠ k' → tbb_find (tbb_insert c k v) k' = tbb_find c k';
  tbb_erase_eq c k : tbb_find (tbb_erase c k) k = None;
  tbb_erase_ne c k k' : k ≠ k' → tbb_find (tbb_erase c k) k' = tbb_find c k';
}.

(** What the ledgers use of the store through string keys: [Get] into a fresh
[std::string], which stays empty when the key is absent, and [Put]. *)
Class StringStore (D : Type) := {
  ss_get : D → bytes → bytes;
  ss_put : D → bytes → bytes → D;
}.
Class StringStoreLaws (D : Type) `{StringStore D} : Prop := {
  ss_get_put d k v : ss_get (ss_put d k v) k = v;
  ss_get_put_ne d k k' v : k ≠ k' → ss_get (ss_put d k v) k' = ss_get d k';
}.

(** A sequence of [Put]s, in order. *)
Definition ss_puts `{StringStore D} (d : D) (kvs : list (bytes * bytes)) : D :=
  foldl (λ d kv, ss_put d kv.1 kv.2) d kvs.

Section StringStoreFacts.
Context `{StringStoreLaws D}.

Lemma ss_puts_app (d : D) l1 l2 : ss_puts d (l1 ++ l2) = ss_puts (ss_puts d l1) l2.
Proof. apply foldl_app. Qed.

Lemma ss_get_puts_notin (d : D) kvs k : k ∉ kvs.*1 → ss_get (ss_puts d kvs) k = ss_get d k.
Proof.
revert d. induction kvs as [|[k' v] kvs IH]; intros d Hk; [done|].
apply not_elem_of_cons in Hk as [Hne Hk]. cbn. unfold ss_puts in IH.
rewrite IH by done. by apply ss_get_put_ne.
Qed.

Lemma ss_get_puts_in (d : D) kvs k v :
NoDup kvs.*1 → (k, v) ∈ kvs → ss_get (ss_puts d kvs) k = v.
Proof.
revert d. induction kvs as [|[k' v'] kvs IH]; intros d Hnd Hin.
{ by apply not_elem_of_nil in Hin. }
apply NoDup_cons in Hnd as [Hni Hnd].
apply elem_of_cons in Hin as [[= -> ->]|Hin]; [|by apply IH].
change (ss_get (ss_puts (ss_put d k' v') kvs) k' = v').
rewrite ss_get_puts_notin by done. apply ss_get_put.
Qed.

(** The writes to one key agree on the value. *)
Lemma ss_get_puts_fun (d : D) kvs k v :
k ∈ kvs.*1 → (∀ v', (k, v') ∈ kvs → v' = v) → ss_get (ss_puts d kvs) k = v.
Proof.
revert d. induction kvs as [|[k' w] kvs IH]; intros d Hin Hv.
{ by apply not_elem_of_nil in Hin. }
change (ss_get (ss_puts (ss_put d k' w) kvs) k = v).
destruct (decide (k ∈ kvs.*1)) as [Hk|Hk].
{ apply IH; [done|]. intros v' Hv'. apply Hv. by right. }
rewrite ss_get_puts_notin by done.
apply elem_of_cons in Hin as [->|Hin]; [|done]. cbn.
rewrite ss_get_put. apply Hv. by left.
Qed.
End StringStoreFacts.

(** ** The class [DB] *)

Record DB (R C : Type) := mkDB {
  db_ : R;
  cache_ : C;
  m_cache_ : C;
}.
Arguments mkDB {R C} _ _ _.
Arguments db_ {R C} _.
Arguments cache_ {R C} _.
Arguments m_cache_ {R C} _.

Section DB.
Context `{Blake2b, RocksDB R, TbbMap C}.
Implicit Types d : DB R C.

(** [CreateCache(id, chunk)] *)
Definition CreateCache d (id : bytes) (c : chunk) : DB R C :=
mkDB (db_ d) (cache_ d) (tbb_insert (m_cache_ d) id c).

(** [Get(const std::string&, std::string &value)]: found, and the value. *)
Definition Get_string d (key : bytes) : option bytes := rocks_get (db_ d) key.

(** [Get(const std::string&)]: through [m_cache_], filling it. *)
Definition Get_key d (key : bytes) : chunk * DB R C :=
match tbb_find (m_cache_ d) key with
| Some c => (c, d)
| None =>
    let c := match rocks_get (db_ d) key with
             | Some value => Some value
             | None => None
             end in
    (c, mkDB (db_ d) (cache_ d) (tbb_insert (m_cache_ d) key c))
end.

(** [GetChunk(hash)]: the raw digest is the key. *)
Definition GetChunk d (h : bytes) : chunk :=
match rocks_get (db_ d) (take kByteLength h) with
| Some value => Some value
| None => None
end.

(** [Get(const Hash&)]: through [cache_] under the base-32 text. *)
Definition Get_hash d (key : bytes) : chunk * DB R C :=
match tbb_find (cache_ d) (ToBase32 (Some key)) with
| Some c => (c, d)
| None =>
    let c := GetChunk d key in
    (c, mkDB (db_ d) (tbb_insert (cache_ d) (ToBase32 (Some key)) c) (m_cache_ d))
end.

(** [Put(const Hash&, const Chunk&)] *)
Definition Put_hash d (key : bytes) (m : bytes) : DB R C :=
mkDB (rocks_put (db_ d) (take kByteLength key) (contents m)) (cache_ d) (m_cache_ d).

(** [Put(const std::string&, const Chunk&)] *)
Definition Put_chunk d (key : bytes) (m : bytes) : DB R C :=
mkDB (rocks_put (db_ d) key (contents m)) (cache_ d) (tbb_erase (m_cache_ d) key).

(** [Put(const std::string&, const std::string&)] *)
Definition Put_string d (key val : bytes) : DB R C :=
mkDB (rocks_put (db_ d) key val) (cache_ d) (m_cache_ d).

(** The string interface of the store. *)
#[global] Instance DB_StringStore : StringStore (DB R C) := {|
ss_get d k := default [] (Get_string d k);
ss_put := Put_string;
|}.

#[global] Instance DB_StringStoreLaws `{!RocksDBLaws R} : StringStoreLaws (DB R C).
Proof.
split.
- intros d k v. cbn. unfold Get_string. cbn. by rewrite rocks_get_put.
- intros d k k' v Hne. cbn. unfold Get_string. cbn. by rewrite rocks_get_put_ne.
Qed.

(** ** Coherence of the caches

A cached entry is what RocksDB holds.  [m_cache_] is kept coherent by every
operation but [Put_string]; [cache_] is kept coherent by every operation but
a [Put_hash] that changes what a cached digest maps to. *)
Definition m_coherent d : Prop :=
∀ k c, tbb_find (m_cache_ d) k = Some c → c = rocks_get (db_ d) k.

Definition coherent d : Prop :=
∀ h c, length h = kByteLength →
  tbb_find (cache_ d) (ToBase32 (Some h)) = Some c → c = rocks_get (db_ d) h.

Lemma Get_key_spec d key :
m_coherent d → (Get_key d key).1 = rocks_get (db_ d) key.
Proof.
intros Hc. unfold Get_key. destruct (tbb_find _ _) eqn:E; [by apply Hc|].
cbn. by destruct (rocks_get _ _).
Qed.

Lemma Get_hash_cached d h c :
tbb_find (cache_ d) (ToBase32 (Some h)) = Some c → (Get_hash d h).1 = c.
Proof. unfold Get_hash. by intros ->. Qed.

Lemma GetChunk_stored d h v :
rocks_get (db_ d) (take kByteLength h) = Some v → GetChunk d h = Some v.
Proof. unfold GetChunk. by intros ->. Qed.

Lemma Get_key_db d key : db_ (Get_key d key).2 = db_ d.
Proof. unfold Get_key. by destruct (tbb_find _ _). Qed.

Lemma Get_key_coherent `{!TbbMapLaws C} d key :
m_coherent d → m_coherent (Get_key d key).2.
Proof.
intros Hc. unfold Get_key. destruct (tbb_find _ _) eqn:E; [done|].
intros k c. cbn. destruct (decide (key = k)) as [->|Hne].
- rewrite tbb_insert_absent by done. intros [= <-]. by destruct (rocks_get _ _).
- rewrite tbb_insert_ne by done. apply Hc.
Qed.

Lemma Put_chunk_coherent `{!RocksDBLaws R, !TbbMapLaws C} d key m :
m_coherent d → m_coherent (Put_chunk d key m).
Proof.
intros Hc k c. cbn. destruct (decide (key = k)) as [->|Hne].
- by rewrite tbb_erase_eq.
- rewrite tbb_erase_ne, rocks_get_put_ne by done. apply Hc.
Qed.

Lemma Get_hash_spec d h :
coherent d → length h = kByteLength → (Get_hash d h).1 = rocks_get (db_ d) h.
Proof.
intros Hc Hh. unfold Get_hash. destruct (tbb_find _ _) eqn:E; [by apply Hc|].
cbn. unfold GetChunk. rewrite take_ge by (by rewrite Hh).
by destruct (rocks_get _ _).
Qed.

Lemma Get_hash_db d h : db_ (Get_hash d h).2 = db_ d.
Proof. unfold Get_hash. by destruct (tbb_find _ _). Qed.

Lemma Get_hash_coherent `{!TbbMapLaws C} d h :
coherent d → length h = kByteLength → coherent (Get_hash d h).2.
Proof.
intros Hc Hh. unfold Get_hash. destruct (tbb_find _ _) eqn:E; [done|].
intros k c Hk. cbn [snd cache_ db_].
destruct (decide (ToBase32 (Some h) = ToBase32 (Some k))) as [He|Hne].
- assert (h = k) as -> by (by apply ToBase32_value_inj).
  rewrite tbb_insert_absent by done. intros [= <-].
  unfold GetChunk. rewrite take_ge by (by rewrite Hk). by destruct (rocks_get _ _).
- rewrite tbb_insert_ne by done. by apply Hc.
Qed.

Lemma Put_hash_coherent `{!RocksDBLaws R} d h m :
coherent d → length h = kByteLength →
tbb_find (cache_ d) (ToBase32 (Some h)) = None
∨ rocks_get (db_ d) h = Some (contents m) →
coherent (Put_hash d h m).
Proof.
intros Hc Hh Hor k c Hk Hf. cbn in *. rewrite take_ge by (by rewrite Hh).
destruct (decide (h = k)) as [->|Hne].
- destruct Hor as [Hno|Hsame]; [congruence|].
  rewrite rocks_get_put. rewrite (Hc k c Hk Hf). done.
- rewrite rocks_get_put_ne by done. by apply Hc.
Qed.
End DB.

(** ** The interfaces are inhabited by [gmap] *)

#[export] Instance gmap_RocksDB : RocksDB (gmap bytes bytes) := {|
  rocks_get r k := r !! k;
  rocks_put r k v := <[k := v]> r;
|}.
#[export] Instance gmap_RocksDBLaws : RocksDBLaws (gmap bytes bytes).
Proof.
  split; intros; cbn; [apply lookup_insert_eq|by apply lookup_insert_ne].
Qed.

#[export] Instance gmap_TbbMap : TbbMap (gmap bytes chunk) := {|
  tbb_find c k := c !! k;
  tbb_insert c k v := match c !! k with Some _ => c | None => <[k := v]> c end;
  tbb_erase c k := delete k c;
|}.
#[export] Instance gmap_TbbMapLaws : TbbMapLaws (gmap bytes chunk).
Proof.
  split; intros; cbn.
  - cbn in H. rewrite H. apply lookup_insert_eq.
  - cbn in H. by rewrite H.
  - destruct (c !! k); [done|]. by apply lookup_insert_ne.
  - apply lookup_delete_eq.
  - by apply lookup_delete_ne.
Qed.

(** A store that can be evaluated. *)
Abbreviation MapDB := (DB (gmap bytes bytes) (gmap bytes chunk)).
Definition empty_db : MapDB := mkDB ∅ ∅ ∅.

(** ** The chunk interface through string keys *)

Inductive chunk_op :=
  | OpGet (key : bytes)
  | OpPut (key m : bytes).

Section ChunkOps.
Context `{Blake2b, RocksDBLaws R, TbbMapLaws C}.

(** The results of the [Get]s of a sequence of calls on a [DB]. *)
Fixpoint run_db (d : DB R C) (ops : list chunk_op) : list chunk :=
match ops with
| [] => []
| OpGet k :: ops => let '(c, d) := Get_key d k in c :: run_db d ops
| OpPut k m :: ops => run_db (Put_chunk d k m) ops
end.

(** The same calls on a store without a cache. *)
Fixpoint run_store (r : R) (ops : list chunk_op) : list chunk :=
match ops with
| [] => []
| OpGet k :: ops => rocks_get r k :: run_store r ops
| OpPut k m :: ops => run_store (rocks_put r k (contents m)) ops
end.

(** The cache of chunks under string keys is transparent: from a coherent
  state, every sequence of [Get]s and [Put]s of chunks returns what the
  store alone would return. *)
Theorem m_cache_transparent (d : DB R C) (ops : list chunk_op) :
m_coherent d → run_db d ops = run_store (db_ d) ops.
Proof.
revert d. induction ops as [|[k|k m] ops IH]; intros d Hc; [done|..]; simpl.
- pose proof (Get_key_spec d k Hc) as Hs. pose proof (Get_key_db d k) as Hd.
  pose proof (Get_key_coherent d k Hc) as Hc'.
  destruct (Get_key d k) as [c d']. simpl in *. by rewrite IH, Hs, Hd.
- by rewrite IH by by apply Put_chunk_coherent.
Qed.
End ChunkOps.

Lemma m_cache_transparent_witness :
  m_coherent empty_db ∧
  run_db empty_db [OpGet #"k"; OpPut #"k" (make_chunk kValue #"v"); OpGet #"k"]
    = [None; Some (make_chunk kValue #"v")].
Proof.
  assert (m_coherent empty_db) as Hc by (intros k c Hk; discriminate Hk).
  split; [exact Hc|].
  rewrite (@m_cache_transparent _ _ _ _ _ _ empty_db _ Hc). vm_compute. reflexivity.
Defined.

(** ** The chunk interface through digests *)

Inductive hash_op :=
  | HashGet (h : bytes)
  | HashPut (h m : bytes).

Section HashOps.
Context `{Blake2b, RocksDBLaws R, TbbMapLaws C}.
Implicit Types d : DB R C.

(** The results of the [Get]s of a sequence of calls on a [DB]. *)
Fixpoint run_hashes d (ops : list hash_op) : list chunk :=
match ops with
| [] => []
| HashGet h :: ops => let '(c, d) := Get_hash d h in c :: run_hashes d ops
| HashPut h m :: ops => run_hashes (Put_hash d h m) ops
end.

(** The same calls on a store without a cache. *)
Fixpoint run_chunks (r : R) (ops : list hash_op) : list chunk :=
match ops with
| [] => []
| HashGet h :: ops => rocks_get r h :: run_chunks r ops
| HashPut h m :: ops => run_chunks (rocks_put r h (contents m)) ops
end.

(** The calls of a user that follows digests it has stored: a lookup finds a chunk,
and a digest stands for one content. *)
Fixpoint follows (r : R) (ops : list hash_op) : Prop :=
match ops with
| [] => True
| HashGet h :: ops => length h = kByteLength ∧ is_Some (rocks_get r h) ∧ follows r ops
| HashPut h m :: ops =>
    length h = kByteLength ∧ (rocks_get r h = None ∨ rocks_get r h = Some (contents m)) ∧
    follows (rocks_put r h (contents m)) ops
end.

(** No miss is cached. *)
Definition hits_cached d : Prop :=
∀ h c, length h = kByteLength → tbb_find (cache_ d) (ToBase32 (Some h)) = Some c → is_Some c.

Lemma Get_hash_hits d h :
coherent d → hits_cached d → length h = kByteLength → is_Some (rocks_get (db_ d) h) →
hits_cached (Get_hash d h).2.
Proof.
intros Hc Hh Hl Hs k c Hk Hf. unfold Get_hash in Hf.
destruct (tbb_find (cache_ d) (ToBase32 (Some h))) eqn:E; [by eapply Hh|].
cbn in Hf. destruct (decide (ToBase32 (Some h) = ToBase32 (Some k))) as [He|Hne].
- assert (h = k) as <- by (by apply ToBase32_value_inj). rewrite tbb_insert_absent in Hf by done. injection Hf as <-.
  unfold GetChunk. rewrite take_ge by (by rewrite Hl). by destruct Hs as [v ->].
- rewrite tbb_insert_ne in Hf by done. by eapply Hh.
Qed.

(** For such a user the cache of chunks under digests is transparent too: every
  sequence of calls returns what the store alone would return. *)
Theorem cache_transparent d (ops : list hash_op) :
coherent d → hits_cached d → follows (db_ d) ops → run_hashes d ops = run_chunks (db_ d) ops.
Proof.
revert d. induction ops as [|[h|h m] ops IH]; intros d Hc Hh Hf; [done|..]; cbn [run_hashes run_chunks follows] in *.
- destruct Hf as (Hl & Hs & Hf).
  pose proof (Get_hash_spec d h Hc Hl) as Hv. pose proof (Get_hash_db d h) as Hd.
  pose proof (Get_hash_coherent d h Hc Hl) as Hc'. pose proof (Get_hash_hits d h Hc Hh Hl Hs) as Hh'.
  destruct (Get_hash d h) as [c d']. cbn in *. by rewrite IH, Hv, Hd by (by rewrite ?Hd).
- destruct Hf as (Hl & Hm & Hf).
  assert (db_ (Put_hash d h m) = rocks_put (db_ d) h (contents m)) as Hd by (cbn; by rewrite take_ge by (by rewrite Hl)).
  rewrite <-Hd. apply IH; [| |by rewrite Hd].
  + apply Put_hash_coherent; [done|done|]. destruct Hm as [Hm|Hm]; [left|by right].
    destruct (tbb_find (cache_ d) (ToBase32 (Some h))) as [c|] eqn:E; [|done].
    destruct (Hh h c Hl E) as [v ->]. by rewrite <-(Hc h _ Hl E) in Hm.
  + exact Hh.
Qed.
End HashOps.

Lemma cache_transparent_witness `{Blake2b} (h : bytes) :
  length h = kByteLength →
  run_hashes empty_db [HashPut h (make_chunk kValue #"v"); HashGet h; HashGet h]
    = [Some (make_chunk kValue #"v"); Some (make_chunk kValue #"v")].
Proof.
  intros Hl. rewrite cache_transparent.
  - cbn. by rewrite lookup_insert_eq.
  - intros k c _ Hk. discriminate Hk.
  - intros k c _ Hk. discriminate Hk.
  - cbn. rewrite lookup_insert_eq. split; [done|]. split; [by left|]. by eauto.
Qed.

(** For other users the cache is not transparent: a digest looked up
    before its chunk is stored stays absent, because [Put(const Hash&, ...)]
    does not touch the cached negative answer. *)
Theorem hash_cache_keeps_absence `{Blake2b} (h m : bytes) :
  let d1 := (Get_hash empty_db h).2 in
  let d2 := Put_hash d1 h m in
  (Get_hash d2 h).1 = None ∧ GetChunk d2 h = Some (contents m).
Proof.
  assert (Get_hash empty_db h = (None, mkDB ∅ {[ToBase32 (Some h) := None]} ∅)) as E.
  { unfold Get_hash, GetChunk. cbn. rewrite lookup_empty. by rewrite !lookup_empty. }
  intros d1 d2. unfold d2, d1. rewrite E. split.
  - apply Get_hash_cached. apply lookup_singleton_eq.
  - apply GetChunk_stored. apply lookup_insert_eq.
Qed.
