(* ===== verification/MerkleSpec.v ===== *)
(** * The reference Merkle tree

    Both ledgers hash a list of leaves level by level: neighbours in pairs, a
    last node without a neighbour on its own.  This file is the specification
    their Merkle code is proved against, together with the verification of a
    path of siblings, which the two [Proof::Verify] share. *)

From S2P Require Import Prelude Cpp Hash.

Section MerkleSpec.
Context `{Blake2b}.

(** The digest of an inner node, from [memcpy]s of [kByteLength] bytes. *)
Definition hash_pair (a b : bytes) : bytes :=
ComputeFrom (take kByteLength a ++ take kByteLength b).
Definition hash_single (a : bytes) : bytes := ComputeFrom (take kByteLength a).

Fixpoint parents (hs : list bytes) : list bytes :=
match hs with
| a :: b :: rest => hash_pair a b :: parents rest
| [a] => [hash_single a]
| [] => []
end.

(** The nodes of level [l] over the leaves [L]. *)
Fixpoint level (L : list bytes) (l : nat) : list bytes :=
match l with
| O => L
| S l => parents (level L l)
end.

Lemma parents_ind (P : list bytes → Prop) :
P [] → (∀ a, P [a]) → (∀ a b r, P r → P (a :: b :: r)) → ∀ l, P l.
Proof.
intros H0 H1 H2 l. cut (P l ∧ ∀ a, P (a :: l)); [tauto|].
induction l as [|b l [IH1 IH2]]; split; eauto.
Qed.

Lemma lookup_parents hs i :
parents hs !! i
= match hs !! (2 * i)%nat with
  | None => None
  | Some a =>
      Some match hs !! S (2 * i) with
           | Some b => hash_pair a b
           | None => hash_single a
           end
  end.
Proof.
revert i. induction hs as [|a|a b r IH] using parents_ind; intros i.
- done.
- by destruct i.
- destruct i as [|i]; [done|]. cbn [parents]. simpl lookup.
  rewrite IH. replace (i + S (i + 0))%nat with (S (2 * i)) by lia. done.
Qed.

Lemma length_parents hs : length (parents hs) = (S (length hs) / 2)%nat.
Proof.
induction hs as [|a|a b r IH] using parents_ind; [done..|].
cbn [parents length]. rewrite IH.
replace (S (S (S (length r)))) with (S (length r) + 1 * 2)%nat by lia.
rewrite Nat.div_add by done. lia.
Qed.

(** Dropping an even number of nodes drops their parents. *)
Lemma parents_drop k hs : parents (drop (2 * k) hs) = drop k (parents hs).
Proof.
apply list_eq. intros i. rewrite lookup_parents, !lookup_drop, lookup_parents.
replace (2 * k + S (2 * i))%nat with (S (2 * (k + i))) by lia.
by replace (2 * k + 2 * i)%nat with (2 * (k + i))%nat by lia.
Qed.

Lemma length_level L l :
L ≠ [] → length (level L l) = S ((length L - 1) / 2 ^ l).
Proof.
intros HL. assert (0 < length L)%nat by (destruct L; [done|simpl; lia]).
induction l as [|l IH]; simpl level.
{ rewrite Nat.pow_0_r, Nat.div_1_r. lia. }
rewrite length_parents, IH, Nat.pow_succ_r', Nat.mul_comm.
rewrite <-Nat.Div0.div_div.
generalize ((length L - 1) / 2 ^ l)%nat. intros x.
change (S (S x)) with (2 + x)%nat.
replace (2 + x)%nat with (x + 1 * 2)%nat by lia.
rewrite Nat.div_add by done. lia.
Qed.

Lemma level_Forall_length L l :
Forall (λ h, length h = kByteLength) L →
Forall (λ h, length h = kByteLength) (level L l).
Proof.
intros HL. induction l as [|l IH]; [done|]. simpl.
clear. induction (level L l) as [|a|a b r IH] using parents_ind; simpl;
  repeat constructor; try apply length_ComputeFrom; done.
Qed.

(** A node over leaves that are all present does not change when leaves are
appended. *)
Lemma level_app L M l i :
(S i * 2 ^ l ≤ length L)%nat → level (L ++ M) l !! i = level L l !! i.
Proof.
revert i. induction l as [|l IH]; intros i Hi; simpl.
{ apply lookup_app_l. simpl in Hi. lia. }
rewrite Nat.pow_succ_r' in Hi.
rewrite !lookup_parents, !IH by nia. done.
Qed.

(** ** Paths of siblings *)

(** One step of a path: [None] for a node without a neighbour, otherwise on
which side the sibling is. *)
Inductive side := SiblingLeft (h : bytes) | SiblingRight (h : bytes) | NoSibling.

Definition step_preimage (c : bytes) (s : side) : bytes :=
match s with
| SiblingLeft h => take kByteLength h ++ take kByteLength c
| SiblingRight h => take kByteLength c ++ take kByteLength h
| NoSibling => take kByteLength c
end.

Definition climb (c : bytes) (path : list side) : bytes :=
foldl (λ c s, ComputeFrom (step_preimage c s)) c path.

Lemma length_climb c path : length c = kByteLength → length (climb c path) = kByteLength.
Proof.
revert c. induction path as [|s path IH]; intros c Hc; [done|].
apply IH, length_ComputeFrom.
Qed.

(** The sides of two paths agree. *)
Definition same_side (s t : side) : bool :=
match s, t with
| SiblingLeft _, SiblingLeft _ => true
| SiblingRight _, SiblingRight _ | SiblingRight _, NoSibling
| NoSibling, SiblingRight _ | NoSibling, NoSibling => true
| _, _ => false
end.

(** Two preimages with the same digest, searched along two paths. *)
Fixpoint find_collision (c1 c2 : bytes) (p1 p2 : list side) : option (bytes * bytes) :=
match p1, p2 with
| s1 :: p1, s2 :: p2 =>
    let x1 := step_preimage c1 s1 in
    let x2 := step_preimage c2 s2 in
    if decide (x1 ≠ x2 ∧ ComputeFrom x1 = ComputeFrom x2) then Some (x1, x2)
    else find_collision (ComputeFrom x1) (ComputeFrom x2) p1 p2
| _, _ => None
end.

Lemma find_collision_sound c1 c2 p1 p2 x y :
find_collision c1 c2 p1 p2 = Some (x, y) → x ≠ y ∧ ComputeFrom x = ComputeFrom y.
Proof.
revert c1 c2 p2. induction p1 as [|s1 p1 IH]; intros c1 c2 [|s2 p2]; simpl;
  try done. case_decide as Hd; [|apply IH]. intros [= <- <-]. done.
Qed.

Lemma step_preimage_inj c1 c2 s1 s2 :
length c1 = kByteLength → length c2 = kByteLength → same_side s1 s2 = true →
(∀ h, s1 = SiblingLeft h ∨ s1 = SiblingRight h → length h = kByteLength) →
(∀ h, s2 = SiblingLeft h ∨ s2 = SiblingRight h → length h = kByteLength) →
step_preimage c1 s1 = step_preimage c2 s2 → c1 = c2.
Proof.
intros L1 L2 Hs B1 B2 E.
destruct s1 as [h1|h1|], s2 as [h2|h2|]; simpl in *; try done;
  rewrite ?(take_ge c1), ?(take_ge c2) in E by lia;
  try (assert (length h1 = kByteLength) by (apply B1; tauto));
  try (assert (length h2 = kByteLength) by (apply B2; tauto));
  rewrite ?(take_ge h1), ?(take_ge h2) in E by lia.
- by apply app_inj_1 in E as [_ ->]; [|congruence].
- by apply app_inj_1 in E as [-> _]; [|congruence].
- apply (f_equal length) in E. rewrite length_app in E. unfold kByteLength in *. lia.
- apply (f_equal length) in E. rewrite length_app in E. unfold kByteLength in *. lia.
- done.
Qed.

Definition side_ok (s : side) : Prop :=
∀ h, s = SiblingLeft h ∨ s = SiblingRight h → length h = kByteLength.

(** Two paths with the same sides that lead different nodes to the same root
contain a collision of the digest function, and [find_collision] finds it. *)
Lemma climb_binding c1 c2 p1 p2 :
length c1 = kByteLength → length c2 = kByteLength →
Forall2 (λ s t, same_side s t = true) p1 p2 →
Forall side_ok p1 → Forall side_ok p2 →
c1 ≠ c2 → climb c1 p1 = climb c2 p2 →
∃ x y, find_collision c1 c2 p1 p2 = Some (x, y) ∧ x ≠ y ∧ ComputeFrom x = ComputeFrom y.
Proof.
intros L1 L2 HS B1 B2 Hne E. cut (is_Some (find_collision c1 c2 p1 p2)).
{ intros [[x y] Hf]. exists x, y. split; [done|]. by eapply find_collision_sound. }
revert c1 c2 L1 L2 Hne E. induction HS as [|s1 s2 p1 p2 Hs _ IH];
  intros c1 c2 L1 L2 Hne E; [done|]. simpl.
apply Forall_cons in B1 as [Bs1 B1]. apply Forall_cons in B2 as [Bs2 B2].
case_decide as Hd; [by eexists|].
apply IH; try done; try apply length_ComputeFrom.
intros Eh. apply Hd. split; [|done]. intros Ex. apply Hne.
by eapply step_preimage_inj.
Qed.

(** The siblings of node [i] of level [l], up to the root, [n] levels. *)
Fixpoint siblings (L : list bytes) (l i n : nat) : list side :=
match n with
| O => []
| S n =>
    (if Nat.even i
     then match level L l !! S i with
          | Some h => SiblingRight h
          | None => NoSibling
          end
     else match level L l !! (i - 1)%nat with
          | Some h => SiblingLeft h
          | None => NoSibling
          end) :: siblings L (S l) (i / 2) n
end.

(** Climbing from a node along its siblings reaches the ancestor. *)
Lemma climb_siblings L l i n h :
level L l !! i = Some h →
level L (n + l) !! (i / 2 ^ n)%nat = Some (climb h (siblings L l i n)).
Proof.
revert l i h. induction n as [|n IH]; intros l i h Hh; simpl siblings; simpl climb.
{ by rewrite Nat.div_1_r. }
rewrite Nat.pow_succ_r', <-Nat.Div0.div_div.
replace (S n + l)%nat with (n + S l)%nat by lia.
apply IH. simpl level. rewrite lookup_parents.
destruct (Nat.even i) eqn:He.
- apply Nat.even_spec in He as [k ->].
  replace (2 * k / 2)%nat with k by (rewrite Nat.mul_comm, Nat.div_mul; done).
  rewrite Hh. by destruct (level L l !! S (2 * k)).
- assert (Nat.odd i = true) as Ho by (by rewrite <-Nat.negb_even, He).
  apply Nat.odd_spec in Ho as [k ->].
  replace ((2 * k + 1) / 2)%nat with k.
  2:{ rewrite Nat.add_comm, Nat.mul_comm, Nat.div_add by done. done. }
  replace (2 * k + 1 - 1)%nat with (2 * k)%nat by lia.
  assert (is_Some (level L l !! (2 * k)%nat)) as [a Ha].
  { apply lookup_lt_is_Some. apply lookup_lt_Some in Hh. lia. }
  rewrite Ha. replace (S (2 * k)) with (2 * k + 1)%nat by lia. by rewrite Hh.
Qed.
End MerkleSpec.
