(* ===== verification/MerkleTree.v ===== *)
(** * [ledger/ledgerdb/merkletree.cc]: the journal's Merkle tree

    Every commit appends leaves and rewrites the right edge of the tree.  A
    node over a full block of leaves is stored under ["mt<level>-<index>"] and
    never changes again; the node on the right edge that is not full is stored
    under the same key followed by ["-<commit>"], so that the trees of earlier
    commits stay readable. *)

From S2P Require Import Prelude Cpp Hash DB MerkleSpec.

Open Scope N_scope.

(** ** Definitions *)

Definition mt_key (level i : N) : bytes :=
  #"mt" ++ to_string level ++ #"-" ++ to_string i.

Definition suffix (b : bool) (commit_seq : bytes) : bytes :=
  if b then #"-" ++ commit_seq else [].

(** [struct Proof] *)
Record Proof := mkProof {
  digest : bytes;
  value : bytes;
  proof : list bytes;
  pos : list N;
}.

Section MerkleTree.
Context `{Blake2b, StringStore D} (junk : nat → ascii).

(** The loop that commits the leaf hashes. *)
Fixpoint put_leaves (d : D) (starting_block_seq i : N) (leaves : list bytes) : D :=
match leaves with
| [] => d
| h :: leaves =>
    put_leaves (ss_put d (mt_key 0 (u64 (starting_block_seq + i))) h)
      starting_block_seq (i + 1) leaves
end.

(** The loop over the pairs of a level; [hs] are the hashes from index [i] on
and [size] is the length of the level. *)
Fixpoint put_parents (d : D) (level level_starting_seq : N) (commit_seq : bytes)
  (size i : N) (complete : bool) (hs : list bytes) : D * bool * list bytes :=
let parent_key := mt_key (level + 1) (u64 (level_starting_seq + i) / 2) in
match hs with
| [] => (d, complete, [])
| a :: b :: rest =>
    let parent := hash_pair a b in
    let key := parent_key
      ++ suffix ((i + 1 =? size - 1) && negb complete) commit_seq in
    let '(d', complete', ps) :=
      put_parents (ss_put d key (ToBase32 (Some parent)))
        level level_starting_seq commit_seq size (i + 2) complete rest in
    (d', complete', parent :: ps)
| [a] =>
    let parent := hash_single a in
    (ss_put d (parent_key ++ suffix true commit_seq) (ToBase32 (Some parent)),
     false, [parent])
end.

(** The variables of [update] that the [while] loop changes. *)
Record mt_state := mkMtState {
mt_db : D;
mt_level : N;
mt_start : N;
mt_prev_complete : bool;
mt_complete : bool;
mt_hashes : list bytes;
}.

Definition prev_complete_of (level_starting_seq : N) : bool :=
if 1 <? level_starting_seq then (level_starting_seq - 1) mod 2 =? 1 else true.

(** "load previous hash when needed" *)
Definition load_prev (prev_commit_seq : bytes) (st : mt_state) : N * bool * list bytes :=
if mt_start st mod 2 =? 1 then
  let prev_key := mt_key (mt_level st) (mt_start st - 1)
    ++ suffix ((0 <? mt_level st) && negb (mt_prev_complete st)) prev_commit_seq in
  (mt_start st - 1, prev_complete_of (mt_start st - 1),
   FromBase32 junk (ss_get (mt_db st) prev_key) :: mt_hashes st)
else (mt_start st, mt_prev_complete st, mt_hashes st).

(** One iteration of the [while] loop. *)
Definition update_level (prev_commit_seq commit_seq : bytes) (st : mt_state) : mt_state :=
let '(start, prev_complete, hs) := load_prev prev_commit_seq st in
let '(d, complete, parent_hashes) :=
  put_parents (mt_db st) (mt_level st) start commit_seq
    (N.of_nat (length hs)) 0 (mt_complete st) hs in
mkMtState d (mt_level st + 1) (start / 2) prev_complete complete parent_hashes.

Fixpoint update_loop (fuel : nat) (prev_commit_seq commit_seq : bytes)
  (st : mt_state) : outcome mt_state :=
if (1 <? length (mt_hashes st))%nat || (0 <? mt_start st) then
  match fuel with
  | O => Stop OutOfFuel
  | S fuel =>
      update_loop fuel prev_commit_seq commit_seq
        (update_level prev_commit_seq commit_seq st)
  end
else Done st.

(** [MerkleTree::update]: the new store, [*root_key] and [*root_hash]. *)
Definition update_fuel : nat := 66.

Definition update (d : D) (starting_block_seq : N) (leaf_block_hashes : list bytes)
  (prev_commit_seq : bytes) : outcome (D * bytes * bytes) :=
let d := put_leaves d starting_block_seq 0 leaf_block_hashes in
commit_seq ← match prev_commit_seq with
             | [] => Done #"0"
             | _ => n ← stoul prev_commit_seq; Done (to_string (u64 (n + 1)))
             end;
st ← update_loop update_fuel prev_commit_seq commit_seq
       (mkMtState d 0 starting_block_seq (prev_complete_of starting_block_seq)
          true (FromBase32 junk <$> leaf_block_hashes));
match mt_hashes st with
| [] => Stop Undefined
| root :: _ =>
    Done (mt_db st,
          #"mt" ++ to_string (mt_level st) ++ #"-0"
            ++ suffix (negb (mt_complete st)) commit_seq,
          ToBase32 (Some root))
end.

(** The loop of [getProof] from level [i], [n] levels from the root. *)
Fixpoint proof_loop (d : D) (commit_seq : bytes) (n : nat) (i ptr last : N)
  (complete : bool) : list bytes * list N :=
match n with
| O => ([], [])
| S n =>
    let '(res, p) :=
      if ptr mod 2 =? 0 then
        (if ptr =? last then []
         else ss_get d (mt_key i (u64 (ptr + 1))
                ++ suffix ((u64 (ptr + 1) =? last) && (0 <? i) && negb complete) commit_seq),
         1)
      else (ss_get d (mt_key i (ptr - 1)), 0) in
    let '(rs, ps) :=
      proof_loop d commit_seq n (i + 1) (ptr / 2) (last / 2)
        (complete && ((last / 2) mod 2 =? 1)) in
    (res :: rs, p :: ps)
end.

(** The level printed in the root key: [root_key.substr(2, delim - 2)]. *)
Definition root_level (root_key : bytes) : outcome Z :=
let len := match find_char "-" root_key with
           | Some delim => if (delim <? 2)%nat then None else Some (delim - 2)%nat
           | None => None
           end in
s ← substr root_key 2 len; stoi s.

(** [MerkleTree::getProof] *)
Definition getProof (d : D) (commit_seq root_key : bytes) (tip seq : N) : outcome Proof :=
let dg := ss_get d root_key in
let v := ss_get d (mt_key 0 seq) in
level ← root_level root_key;
let '(rs, ps) :=
  proof_loop d commit_seq (Z.to_nat level) 0 seq tip (tip mod 2 =? 1) in
Done (mkProof dg v rs ps).

(** The loop of [Proof::Verify]. *)
Fixpoint verify_loop (calc_hash : bytes) (prf : list bytes) (ps : list N) : outcome bytes :=
match prf, ps with
| [], _ => Done calc_hash
| _ :: _, [] => Stop Undefined
| s :: prf, p :: ps =>
    let proof_hash := FromBase32 junk s in
    verify_loop
      (if p =? 0 then hash_pair proof_hash calc_hash
       else if (0 <? length s)%nat then hash_pair calc_hash proof_hash
       else hash_single calc_hash) prf ps
end.

(** [Proof::Verify] *)
Definition Verify (p : Proof) : outcome bool :=
calc_hash ← verify_loop (FromBase32 junk (value p)) (proof p) (pos p);
Done (hash_eqb (Some calc_hash) (Some (FromBase32 junk (digest p)))).
End MerkleTree.
Arguments mkMtState {D} _ _ _ _ _ _.
Arguments mt_db {D} _.
Arguments mt_level {D} _.
Arguments mt_start {D} _.
Arguments mt_prev_complete {D} _.
Arguments mt_complete {D} _.
Arguments mt_hashes {D} _.

(** ** Keys *)

(** Is node [i] of level [l] over a full block of leaves? *)
Definition node_full (n l i : nat) : bool := (S i * 2 ^ l <=? n)%nat.

(** The key the tree with [n] leaves of commit [c] stores node [i] of level
[l] under. *)
Definition node_key (n : nat) (c : bytes) (l i : nat) : bytes :=
  mt_key (N.of_nat l) (N.of_nat i) ++ suffix (negb (node_full n l i)) c.

Definition height (n : nat) : nat := Nat.log2_up n.

Lemma mt_key_app_inj l i l' i' b b' c c' :
  mt_key l i ++ suffix b c = mt_key l' i' ++ suffix b' c' →
  l = l' ∧ i = i' ∧ suffix b c = suffix b' c'.
Proof.
  unfold mt_key. rewrite <-!app_assoc. intros [= E].
  apply app_sep_inj in E as [->%to_string_inj E]; eauto with ledger.
  assert (∀ b b' c c' i i', to_string i ++ suffix b c = to_string i' ++ suffix b' c' →
    i = i' ∧ suffix b c = suffix b' c') as Hi.
  { clear. intros [] [] c c' i i' E; simpl in *.
    - apply app_sep_inj in E as [->%to_string_inj ->]; eauto with ledger.
    - rewrite app_nil_r in E. symmetry in E. apply app_sep_end in E as []; eauto with ledger.
    - rewrite app_nil_r in E. apply app_sep_end in E as []; eauto with ledger.
    - rewrite !app_nil_r in E. by apply to_string_inj in E as ->. }
  by apply Hi in E as [-> ->].
Qed.

Lemma node_key_inj n n' c c' l l' i i' :
  node_key n c l i = node_key n' c' l' i' →
  l = l' ∧ i = i' ∧
  suffix (negb (node_full n l i)) c = suffix (negb (node_full n' l' i')) c'.
Proof.
  intros (? & ? & ?)%mt_key_app_inj. split_and!; [lia..|done].
Qed.

(** A full node has the same key whatever the tree and the commit. *)
Lemma node_key_full n c l i :
  (S i * 2 ^ l ≤ n)%nat → node_key n c l i = mt_key (N.of_nat l) (N.of_nat i).
Proof.
  intros Hf. unfold node_key, node_full.
  rewrite (proj2 (Nat.leb_le _ _) Hf). apply app_nil_r.
Qed.

(** ** What [update] writes *)

Section Update.
Context `{Blake2b, StringStoreLaws D} (junk : nat → ascii).
Local Open Scope nat_scope.

(** The writes of level [l] of a tree over [L] whose first [s] leaves were
there before: the nodes from the ancestor of leaf [s] on. *)
Definition level_writes (L : list bytes) (c : bytes) (s l : nat) : list (bytes * bytes) :=
imap (λ i h, (node_key (length L) c l (s / 2 ^ l + i), ToBase32_value h))
  (drop (s / 2 ^ l) (level L l)).

(** The writes of the first [n] levels. *)
Definition writes (L : list bytes) (c : bytes) (s n : nat) : list (bytes * bytes) :=
mjoin (level_writes L c s <$> seq 0 n).

Lemma writes_S L c s n : writes L c s (S n) = writes L c s n ++ level_writes L c s n.
Proof.
unfold writes. rewrite seq_S, fmap_app, join_app. simpl. by rewrite app_nil_r.
Qed.

Lemma elem_of_writes L c s n k v :
(k, v) ∈ writes L c s n ↔
∃ l i h, l < n ∧ s / 2 ^ l ≤ i ∧ level L l !! i = Some h ∧
  k = node_key (length L) c l i ∧ v = ToBase32_value h.
Proof.
unfold writes. rewrite list_elem_of_join. split.
- intros (ws & Hkv & Hws). apply list_elem_of_fmap in Hws as (l & -> & Hl).
  apply elem_of_seq in Hl. unfold level_writes in Hkv.
  apply elem_of_lookup_imap in Hkv as (i & h & Heq & Hi). simplify_eq.
  rewrite lookup_drop in Hi. exists l, (s / 2 ^ l + i), h. split_and!; auto; lia.
- intros (l & i & h & Hl & Hi & Hh & -> & ->). exists (level_writes L c s l). split.
  + unfold level_writes. apply elem_of_lookup_imap.
    exists (i - s / 2 ^ l), h. rewrite lookup_drop.
    replace (s / 2 ^ l + (i - s / 2 ^ l)) with i by lia. done.
  + apply list_elem_of_fmap. exists l. split; [done|]. apply elem_of_seq. lia.
Qed.

Lemma get_written d L c s n l i h :
l < n → s / 2 ^ l ≤ i → level L l !! i = Some h →
ss_get (ss_puts d (writes L c s n)) (node_key (length L) c l i) = ToBase32_value h.
Proof.
intros Hl Hi Hh. apply ss_get_puts_fun.
- apply list_elem_of_fmap. eexists (_, _). split; [reflexivity|].
  apply elem_of_writes. eauto 10.
- intros v' (l' & i' & h' & _ & _ & Hh' & Hk & ->)%elem_of_writes.
  apply node_key_inj in Hk as (-> & -> & _). congruence.
Qed.

(** A key is not written unless it is the key of a written node. *)
Lemma get_not_written d L c s n k :
(∀ l i, l < n → s / 2 ^ l ≤ i → i < length (level L l) → k ≠ node_key (length L) c l i) →
ss_get (ss_puts d (writes L c s n)) k = ss_get d k.
Proof.
intros Hk. apply ss_get_puts_notin. intros ([k' v] & -> & Hin)%list_elem_of_fmap.
apply elem_of_writes in Hin as (l & i & h & Hl & Hi & Hh & Heq & _).
eapply Hk; eauto using lookup_lt_Some.
Qed.

Lemma pow2_pos l : 0 < 2 ^ l.
Proof. apply Nat.neq_0_lt_0, Nat.pow_nonzero. done. Qed.

(** The last node of a level is full exactly when the leaves divide evenly. *)
Lemma ceil_spec n q :
0 < n → 0 < q →
let m := S ((n - 1) / q) in
n ≤ m * q ∧ (m - 1) * q < n ∧ (n mod q = 0 ↔ n = m * q).
Proof.
intros Hn Hq m. unfold m.
pose proof (Nat.div_mod_eq (n - 1) q). pose proof (Nat.mod_upper_bound (n - 1) q).
generalize dependent ((n - 1) / q). intros x m Hx.
split_and!; [nia|nia|]. split.
- intros Hm. apply Nat.Div0.mod_divides in Hm as [y Hy].
  assert (y = S x) by nia. nia.
- intros ->. apply Nat.Div0.mod_mul.
Qed.

Lemma put_parents_spec d L c l k i hs :
L ≠ [] → (N.of_nat (length L) < 2 ^ 64)%N →
hs = drop (2 * (k + i)) (level L l) →
put_parents d (N.of_nat l) (N.of_nat (2 * k)) c
  (N.of_nat (length (level L l) - 2 * k)) (N.of_nat (2 * i))
  (length L mod 2 ^ l =? 0) hs
= (ss_puts d (imap (λ j h, (node_key (length L) c (S l) (k + i + j), ToBase32_value h))
                (parents hs)),
   if Nat.even (length hs) then length L mod 2 ^ l =? 0 else false,
   parents hs).
Proof.
intros HL Hn64 Hhs. remember (length L) as n eqn:Hn.
assert (0 < n) as Hpos by (subst; destruct L; [done|simpl; lia]).
pose proof (length_level L l HL) as Hlen. rewrite <-Hn in Hlen.
destruct (ceil_spec n (2 ^ l) Hpos (pow2_pos l)) as (Hc1 & Hc2 & Hc3).
rewrite <-Hlen in Hc1, Hc2, Hc3. pose proof (pow2_pos l) as Hq.
assert (length (level L l) ≤ n) as Hmn.
{ rewrite Hlen. pose proof (Nat.Div0.div_le_upper_bound (n - 1) (2 ^ l) (n - 1)).
  nia. }
clear Hlen. remember (length (level L l)) as m eqn:Hm.
assert (length hs = m - 2 * (k + i)) as Hlh by (subst; by rewrite length_drop).
assert (∀ kk, kk < m → u64 (N.of_nat (2 * k) + N.of_nat kk) = N.of_nat (2 * k + kk) ∨ m ≤ 2 * k + kk) as Hu64.
{ intros kk Hkk. destruct (decide (2 * k + kk < m)); [left|right; lia].
  rewrite u64_small; lia. }
revert i d Hhs Hlh. induction hs as [|a|a b rest IH] using parents_ind; intros i d Hhs Hlh.
- done.
- cbn [length] in Hlh. cbn [put_parents parents imap].
  destruct (Hu64 (2 * i)) as [Hu|]; [lia| |lia]. rewrite Hu.
  cbn [ss_puts foldl fst snd imap]. do 3 f_equal.
  unfold node_key. replace (N.of_nat l + 1)%N with (N.of_nat (S l)) by lia.
  replace (N.of_nat (2 * k + 2 * i) / 2)%N with (N.of_nat (k + i + 0)).
  2:{ replace (2 * k + 2 * i) with ((k + i) * 2) by lia.
      rewrite Nat2N.inj_mul, N.div_mul by done. f_equal; lia. }
  assert (node_full n (S l) (k + i + 0) = false) as ->; [|done].
  apply Nat.leb_gt. rewrite Nat.pow_succ_r'. nia.
- cbn [length] in Hlh. cbn [put_parents parents imap].
  destruct (Hu64 (2 * i)) as [Hu|]; [lia| |lia]. rewrite Hu.
  replace (N.of_nat (2 * i) + 2)%N with (N.of_nat (2 * (i + 1))) by lia.
  assert (rest = drop (2 * (k + (i + 1))) (level L l)) as Hrest.
  { replace (2 * (k + (i + 1))) with (2 * (k + i) + 2) by lia.
    by rewrite <-drop_drop, <-Hhs. }
  rewrite (IH (i + 1)) by (try done; lia).
  cbn [Nat.even length]. f_equal.
  cbn [imap]. unfold ss_puts. cbn [foldl fst snd].
  assert ((mt_key (N.of_nat l + 1) (N.of_nat (2 * k + 2 * i) / 2)
    ++ suffix ((N.of_nat (2 * i) + 1 =? N.of_nat (m - 2 * k) - 1)%N
               && negb (n mod 2 ^ l =? 0)) c) = node_key n c (S l) (k + i + 0)) as ->.
  { unfold node_key. replace (N.of_nat l + 1)%N with (N.of_nat (S l)) by lia.
    replace (N.of_nat (2 * k + 2 * i) / 2)%N with (N.of_nat (k + i + 0)).
    2:{ replace (2 * k + 2 * i) with ((k + i) * 2) by lia.
        rewrite Nat2N.inj_mul, N.div_mul by done. f_equal; lia. }
    do 2 f_equal. unfold node_full. rewrite Nat.pow_succ_r'.
    destruct (n mod 2 ^ l =? 0) eqn:Emod.
    - apply Nat.eqb_eq in Emod. rewrite andb_false_r. symmetry. apply negb_false_iff.
      apply Nat.leb_le. apply Hc3 in Emod. nia.
    - apply Nat.eqb_neq in Emod. rewrite andb_true_r.
      destruct (N.of_nat (2 * i) + 1 =? N.of_nat (m - 2 * k) - 1)%N eqn:E.
      + symmetry. apply negb_true_iff, Nat.leb_gt. nia.
      + symmetry. apply negb_false_iff, Nat.leb_le. nia. }
  apply (f_equal (λ x, (x, _))). refine (f_equal (foldl _ _) _). apply imap_ext. intros j x _. simpl. by replace (k + (i + 1) + j) with (k + i + S j) by lia.
Qed.

(** The state of the [while] loop when it reaches level [l]. *)
Definition loop_inv (d : D) (L : list bytes) (c : bytes) (s l : nat) (st : mt_state) : Prop :=
mt_db st = ss_puts d (writes L c s (S l)) ∧
mt_level st = N.of_nat l ∧
mt_start st = N.of_nat (s / 2 ^ l) ∧
mt_complete st = (length L mod 2 ^ l =? 0) ∧
mt_hashes st = drop (s / 2 ^ l) (level L l) ∧
(mt_prev_complete st = true ∨ (l = 0 ∧ Nat.odd s = true)).

(** The trees of [L]'s first [n] leaves read back from the store. *)
Definition mt_commit (d : D) (L : list bytes) (c : bytes) : Prop :=
∀ l i h, l ≤ height (length L) → level L l !! i = Some h →
  ss_get d (node_key (length L) c l i) = ToBase32_value h.

Lemma drop_cons_pred {A} (xs : list A) k a :
xs !! (k - 1) = Some a → 0 < k → a :: drop k xs = drop (k - 1) xs.
Proof.
intros Ha Hk. rewrite (drop_S xs a (k - 1)) by done.
by replace (S (k - 1)) with k by lia.
Qed.

Lemma height_spec n l : 0 < n → height n ≤ l ↔ n ≤ 2 ^ l.
Proof. intros Hn. symmetry. by apply Nat.log2_up_le_pow2. Qed.

(** A full node of a prefix is there before the update. *)
Lemma mt_commit_full d L0 M c l i h :
mt_commit d L0 c → (S i * 2 ^ l ≤ length L0) → level (L0 ++ M) l !! i = Some h →
ss_get d (mt_key (N.of_nat l) (N.of_nat i)) = ToBase32_value h.
Proof.
intros Hc Hf Hh. rewrite level_app in Hh by done.
rewrite <-(node_key_full (length L0) c) by done. apply Hc; [|done].
assert (0 < length L0) by (pose proof (pow2_pos l); nia).
destruct (decide (l ≤ height (length L0))) as [|Hgt]; [done|exfalso].
(* a level above the root has one node, over more leaves than there are *)
assert (2 ^ height (length L0) < 2 ^ l) by (apply Nat.pow_lt_mono_r; lia).
pose proof (proj1 (height_spec (length L0) _ ltac:(done)) (le_n _)). nia.
Qed.

Lemma even_complete n m q :
n ≤ m * q → (m - 1) * q < n → (n mod q = 0 ↔ n = m * q) → 0 < q →
(if Nat.even m then n mod q =? 0 else false) = (n mod (2 * q) =? 0).
Proof.
intros H1' H2' H3' Hq. destruct (Nat.even m) eqn:He.
- apply Nat.even_spec in He as [k ->]. apply Bool.eq_iff_eq_true.
  rewrite !Nat.eqb_eq. rewrite H3'. split.
  + intros ->. replace (2 * k * q) with (k * (2 * q)) by lia. apply Nat.Div0.mod_mul.
  + intros Hm. apply Nat.Div0.mod_divides in Hm as [y Hy].
    apply H3'. rewrite Hy. replace (2 * q * y) with (2 * y * q) by lia.
    apply Nat.Div0.mod_mul.
- symmetry. apply Nat.eqb_neq. intros Hm. apply Nat.Div0.mod_divides in Hm as [y Hy].
  assert (n = m * q) as Hn.
  { apply H3'. rewrite Hy. replace (2 * q * y) with (2 * y * q) by lia.
    apply Nat.Div0.mod_mul. }
  assert (m = 2 * y) as -> by nia. by rewrite Nat.even_mul in He.
Qed.

Lemma prev_complete_of_even s : Nat.even s = true → prev_complete_of (N.of_nat s) = true.
Proof.
intros [k ->]%Nat.even_spec. unfold prev_complete_of. case_match; [|done].
apply N.eqb_eq. replace (N.of_nat (2 * k) - 1)%N with (1 + (N.of_nat k - 1) * 2)%N by lia.
by rewrite N.Div0.mod_add.
Qed.

Lemma odd_of_nat_mod s : (N.of_nat s mod 2 =? 1)%N = Nat.odd s.
Proof.
change 2%N with (N.of_nat 2). change 1%N with (N.of_nat 1).
rewrite <-Nat2N.inj_mod. pose proof (Nat.div_mod_eq s 2) as Hs.
pose proof (Nat.mod_upper_bound s 2 ltac:(done)).
destruct (Nat.odd s) eqn:Ho.
- apply Nat.odd_spec in Ho as [k Hk]. apply N.eqb_eq. f_equal. lia.
- apply N.eqb_neq. rewrite <-Nat.negb_even in Ho. apply negb_false_iff in Ho.
  apply Nat.even_spec in Ho as [k Hk]. lia.
Qed.

(** The node left of the new ones is full, so it is read without a suffix. *)
Lemma load_prev_spec d L0 M c0 c l st :
let L := L0 ++ M in
let s := length L0 in
let k := s / 2 ^ l / 2 in
(L0 = [] ∨ mt_commit d L0 c0) → M ≠ [] →
Forall (λ h, length h = kByteLength) L →
loop_inv d L c s l st →
load_prev junk c0 st = (N.of_nat (2 * k), true, drop (2 * k) (level L l)).
Proof.
intros L s k Hpre HM HF (Hdb & Hlv & Hst & _ & Hhs & Hpc).
assert (L ≠ []) as HLn by (unfold L; destruct L0, M; done).
unfold load_prev. rewrite Hst, odd_of_nat_mod. destruct (Nat.odd (s / 2 ^ l)) eqn:Hodd.
- assert (s / 2 ^ l = 2 * k + 1) as Hk'.
  { apply Nat.odd_spec in Hodd as [k' Hk']. assert (k = k'); [|lia].
    unfold k. rewrite Hk', Nat.add_comm, Nat.mul_comm, Nat.div_add; done. }
  replace (N.of_nat (s / 2 ^ l) - 1)%N with (N.of_nat (2 * k)) by lia.
  rewrite prev_complete_of_even by (by rewrite Nat.even_mul).
  f_equal. rewrite Hhs, Hlv, Hdb.
  assert (suffix ((0 <? N.of_nat l)%N && negb (mt_prev_complete st)) c0 = []) as ->.
  { destruct Hpc as [->|[-> _]]; [|done]. by rewrite andb_false_r. }
  rewrite app_nil_r.
  pose proof (Nat.Div0.mul_div_le s (2 ^ l)) as Hle. pose proof (pow2_pos l).
  assert (S (2 * k) * 2 ^ l ≤ length L0) as Hfull by (fold s; nia).
  destruct (lookup_lt_is_Some_2 (level L l) (2 * k)) as [h Hh].
  { rewrite length_level by done. apply (Nat.lt_le_trans _ (S (2 * k))); [lia|].
    apply le_n_S. unfold L. rewrite length_app.
    apply Nat.div_le_lower_bound; [lia|]. destruct M; [done|]. cbn [length]. nia. }
  rewrite get_not_written.
  2:{ intros l' i Hl' Hi _ Hk. unfold node_key in Hk.
      rewrite <-(app_nil_r (mt_key _ _)) in Hk.
      change [] with (suffix false c) in Hk.
      apply mt_key_app_inj in Hk as (? & ? & _).
      assert (l' = l) as -> by lia. lia. }
  assert (mt_commit d L0 c0) as Hc0.
  { destruct Hpre as [E|]; [|done]. rewrite E in Hfull. cbn [length] in Hfull. nia. }
  rewrite (mt_commit_full d L0 M c0 l (2 * k) h) by done.
  replace (2 * k) with (s / 2 ^ l - 1) in Hh |- * by lia.
  rewrite <-(drop_cons_pred _ (s / 2 ^ l) h) by (done || lia). f_equal.
  apply FromBase32_ToBase32.
  apply (Forall_lookup_1 _ _ _ _ (level_Forall_length _ l HF) Hh).
- assert (s / 2 ^ l = 2 * k) as Hk'.
  { rewrite <-Nat.negb_even in Hodd. apply negb_false_iff, Nat.even_spec in Hodd as [k' Hk'].
    assert (k = k'); [|lia]. unfold k. rewrite Hk', Nat.mul_comm, Nat.div_mul; done. }
  rewrite Hhs, Hk'. destruct Hpc as [->|[-> Ho]]; [done|].
  rewrite Nat.pow_0_r, Nat.div_1_r in Hk'. by rewrite Hk', Nat.odd_mul in Ho.
Qed.

Lemma update_level_inv d L0 M c0 c l st :
let L := L0 ++ M in
let s := length L0 in
(L0 = [] ∨ mt_commit d L0 c0) → M ≠ [] → (N.of_nat (length L) < 2 ^ 64)%N →
Forall (λ h, length h = kByteLength) L →
loop_inv d L c s l st → loop_inv d L c s (S l) (update_level junk c0 c st).
Proof.
intros L s Hpre HM Hn64 HF Hinv.
assert (L ≠ []) as HLn by (unfold L; destruct L0, M; done).
unfold update_level. rewrite (load_prev_spec d L0 M c0 c l st) by done. fold L s.
set (k := s / 2 ^ l / 2). destruct Hinv as (Hdb & Hlv & Hst & Hcomp & Hhs & Hpc).
rewrite Hdb, Hlv, Hcomp, length_drop.
pose proof (put_parents_spec (ss_puts d (writes L c s (S l))) L c l k 0
  (drop (2 * k) (level L l)) HLn Hn64) as Hpp.
rewrite Nat.add_0_r in Hpp. specialize (Hpp eq_refl).
change (N.of_nat (2 * 0)) with 0%N in Hpp. rewrite Hpp. clear Hpp.
assert (s / 2 ^ S l = k) as Hk.
{ unfold k. by rewrite Nat.Div0.div_div, Nat.pow_succ_r', Nat.mul_comm. }
destruct (ceil_spec (length L) (2 ^ l)) as (C1 & C2 & C3);
  [destruct L; [done|simpl; lia]|apply pow2_pos|].
rewrite <-length_level in C1, C2, C3 by done.
split_and!; cbn [mt_db mt_level mt_start mt_complete mt_hashes mt_prev_complete].
- rewrite (writes_S _ _ _ (S l)), ss_puts_app. f_equal.
  unfold level_writes. rewrite Hk. cbn [level]. rewrite parents_drop. done.
- lia.
- rewrite Hk. replace (2 * k) with (k * 2) by lia.
  rewrite Nat2N.inj_mul. by apply N.div_mul.
- rewrite length_drop, Nat.pow_succ_r'.
  rewrite <-(even_complete _ (length (level L l))) by (done || apply pow2_pos).
  assert (2 * k ≤ length (level L l)) as Hle.
  { pose proof (Nat.Div0.mul_div_le (s / 2 ^ l) 2) as H2k. fold k in H2k.
    rewrite length_level by done. apply Nat.le_le_succ_r.
    apply (Nat.le_trans _ (s / 2 ^ l)); [lia|].
    apply Nat.Div0.div_le_mono. unfold L. rewrite length_app. destruct M; [done|].
    cbn [length]. fold s. lia. }
  rewrite Nat.even_sub by done. by rewrite Nat.even_mul; destruct (Nat.even _).
- rewrite Hk. cbn [level]. by rewrite parents_drop.
- by left.
Qed.

(** Enough fuel for what is left of the climb gives the final state. *)
Lemma update_loop_inv d L0 M c0 c fuel l st :
let L := L0 ++ M in
let s := length L0 in
(L0 = [] ∨ mt_commit d L0 c0) → M ≠ [] → (N.of_nat (length L) < 2 ^ 64)%N →
Forall (λ h, length h = kByteLength) L →
l ≤ height (length L) → height (length L) ≤ l + fuel →
loop_inv d L c s l st →
∃ st', update_loop junk fuel c0 c st = Done st' ∧
  loop_inv d L c s (height (length L)) st'.
Proof.
intros L s Hpre HM Hn64 HF. revert l st.
assert (L ≠ []) as HLn by (unfold L; destruct L0, M; done).
assert (s < length L) as Hs.
{ unfold L. rewrite length_app. destruct M; [done|cbn; fold s; lia]. }
assert (∀ l st, loop_inv d L c s l st →
  (1 <? length (mt_hashes st)) || (0 <? mt_start st)%N
  = negb (height (length L) <=? l)) as Hcond.
{ intros l st (_ & _ & Hst & _ & Hhs & _). rewrite Hst, Hhs, length_drop, length_level by done.
  pose proof (pow2_pos l). pose proof (height_spec (length L) l ltac:(lia)) as Hh.
  pose proof (Nat.Div0.div_le_mono s (length L - 1) (2 ^ l) ltac:(lia)).
  destruct (decide (length L - 1 < 2 ^ l)).
  - assert ((length L - 1) / 2 ^ l = 0) as E by (by apply Nat.div_small).
    assert (height (length L) ≤ l) by (apply Hh; lia).
    generalize dependent ((length L - 1) / 2 ^ l). generalize (s / 2 ^ l). lia.
  - assert (1 ≤ (length L - 1) / 2 ^ l) as E by (apply Nat.div_le_lower_bound; lia).
    assert (¬ height (length L) ≤ l) by (rewrite Hh; lia).
    generalize dependent ((length L - 1) / 2 ^ l). generalize (s / 2 ^ l). lia. }
induction fuel as [|fuel IH]; intros l st Hl Hfuel Hinv; simpl;
  rewrite (Hcond _ _ Hinv); destruct (Nat.leb_spec (height (length L)) l); simpl.
- exists st. split; [done|]. by replace (height (length L)) with l by lia.
- lia.
- exists st. split; [done|]. by replace (height (length L)) with l by lia.
- apply (IH (S l)); [lia|lia|]. by apply update_level_inv.
Qed.

Lemma put_leaves_spec d L0 M c :
(N.of_nat (length (L0 ++ M)) < 2 ^ 64)%N →
put_leaves d (N.of_nat (length L0)) 0 (ToBase32_value <$> M)
= ss_puts d (writes (L0 ++ M) c (length L0) 1).
Proof.
intros Hn. unfold writes. simpl. rewrite app_nil_r. unfold level_writes.
simpl. rewrite Nat.div_1_r, drop_app_length.
set (s := length L0) in *. set (n := length (L0 ++ M)) in *.
assert (s + length M ≤ n) as Hle by (subst s n; rewrite length_app; lia).
change 0%N with (N.of_nat 0).
assert (∀ i, i + s + length M ≤ n →
  put_leaves d (N.of_nat s) (N.of_nat i) (ToBase32_value <$> M)
  = ss_puts d (imap (λ j h, (node_key n c 0 (s + (i + j)), ToBase32_value h)) M)) as Hgen.
{ clear Hle. clearbody n. revert d. induction M as [|h M' IH]; intros d i Hi; [done|].
  cbn [fmap list_fmap put_leaves]. cbn [length] in Hi.
  replace (N.of_nat i + 1)%N with (N.of_nat (S i)) by lia.
  rewrite IH by lia. cbn [imap]. unfold ss_puts. cbn [foldl fst snd].
  rewrite node_key_full by (rewrite Nat.pow_0_r; lia).
  rewrite u64_small by lia. rewrite Nat.add_0_r.
  replace (N.of_nat (s + i)) with (N.of_nat s + N.of_nat i)%N by lia.
  refine (f_equal (foldl _ _) _). apply imap_ext. intros j x _. simpl.
  by replace (s + S (i + j)) with (s + (i + S j)) by lia. }
rewrite Hgen by lia. done.
Qed.

Lemma mt_commit_writes d L0 M c :
let L := L0 ++ M in
(L0 = [] ∨ ∃ c0, mt_commit d L0 c0) → M ≠ [] →
mt_commit (ss_puts d (writes L c (length L0) (S (height (length L))))) L c.
Proof.
intros L Hpre HM l i h Hl Hh.
destruct (decide (length L0 / 2 ^ l ≤ i)) as [Hi|Hi].
{ apply get_written; [lia|done..]. }
assert (S i * 2 ^ l ≤ length L0) as Hfull.
{ pose proof (Nat.Div0.mul_div_le (length L0) (2 ^ l)). nia. }
rewrite get_not_written.
2:{ intros l' i' _ Hi' _ (-> & -> & _)%node_key_inj. lia. }
rewrite node_key_full by (unfold L; rewrite length_app; lia).
destruct Hpre as [E|[c0 Hc0]]; [|by eapply mt_commit_full].
rewrite E in Hfull. cbn [length] in Hfull. pose proof (pow2_pos l). nia.
Qed.

(** The trees of earlier commits are not touched. *)
Lemma mt_commit_frame d L1 M1 M c1 c n :
let L0 := L1 ++ M1 in
mt_commit d L1 c1 → c1 ≠ c →
mt_commit (ss_puts d (writes (L0 ++ M) c (length L0) n)) L1 c1.
Proof.
intros L0 Hc Hne l i h Hl Hh. rewrite get_not_written; [by apply Hc|].
intros l' i' _ Hi' _ (<- & <- & Hs)%node_key_inj.
destruct (node_full (length L1) l i) eqn:Hf; simpl in Hs.
- apply Nat.leb_le in Hf. assert (S i ≤ length L0 / 2 ^ l); [|lia].
  pose proof (pow2_pos l). apply Nat.div_le_lower_bound; [lia|].
  unfold L0. rewrite length_app. lia.
- destruct (negb _); simplify_eq/=.
Qed.

Lemma height_64 n : 0 < n → (N.of_nat n < 2 ^ 64)%N → height n ≤ 64.
Proof.
intros Hn Hn64. apply height_spec; [done|].
assert (N.of_nat n ≤ N.of_nat (2 ^ 64))%N; [|lia].
rewrite Nat2N.inj_pow. lia.
Qed.

Lemma level_root L :
L ≠ [] → ∃ root, level L (height (length L)) = [root].
Proof.
intros HL. assert (0 < length L) by (destruct L; [done|simpl; lia]).
assert (length (level L (height (length L))) = 1) as Hlen.
{ rewrite length_level by done. rewrite Nat.div_small; [done|].
  pose proof (proj1 (height_spec (length L) _ ltac:(done)) (le_n _)). lia. }
destruct (level L _) as [|r [|]]; simplify_eq/=. by eexists.
Qed.

Lemma root_full n : 0 < n → node_full n (height n) 0 = (n mod 2 ^ height n =? 0).
Proof.
intros Hn. pose proof (proj1 (height_spec n _ Hn) (le_n _)).
unfold node_full. destruct (decide (n = 2 ^ height n)) as [E|E].
- rewrite <-E at 2. rewrite Nat.Div0.mod_same. apply Nat.leb_le. lia.
- rewrite Nat.mod_small by lia. lia.
Qed.
End Update.

(** The commit sequence as it is passed in [prev_commit_seq]. *)
Definition show_commit (c : option N) : bytes :=
  match c with None => [] | Some p => to_string p end.
Definition next_commit (c : option N) : N :=
  match c with None => 0 | Some p => p + 1 end.
Definition path_pos (seq : N) (n : nat) : list N :=
  (λ k, if N.testbit seq (N.of_nat k) then 0 else 1) <$> List.seq 0 n.


Lemma commit_seq_spec (pc : option N) :
  next_commit pc < 2 ^ 64 →
  (match show_commit pc with
   | [] => Done #"0"
   | _ => n ← stoul (show_commit pc); Done (to_string (u64 (n + 1)))
   end) = Done (to_string (next_commit pc)).
Proof.
  intros Hc64. destruct pc as [p|]; [|done]. simpl show_commit. simpl in Hc64.
  destruct (to_string p) eqn:E; [by apply to_string_nonnil in E|].
  rewrite <-E, stoul_to_string by lia. cbn [mbind outcome_bind]. by rewrite u64_small by lia.
Qed.

(** The state in which [update] enters the [while] loop. *)
Lemma leaf_state_inv `{Blake2b, StringStoreLaws D} junk (d : D) L0 M c :
  Forall (λ h, length h = kByteLength) M →
  loop_inv d (L0 ++ M) c (length L0) 0
    (mkMtState (ss_puts d (writes (L0 ++ M) c (length L0) 1)) 0 (N.of_nat (length L0))
       (prev_complete_of (N.of_nat (length L0))) true
       (FromBase32 junk <$> (ToBase32_value <$> M))).
Proof.
  intros HF.
  split_and!; cbn [mt_db mt_level mt_start mt_complete mt_hashes mt_prev_complete]; try done.
  - by rewrite Nat.div_1_r.
  - simpl. rewrite Nat.div_1_r, drop_app_length, <-list_fmap_compose.
    clear -HF. induction HF as [|h M Hh _ IH]; [done|].
    cbn [fmap list_fmap]. f_equal; [|done]. by apply FromBase32_ToBase32.
  - destruct (Nat.even (length L0)) eqn:He.
    + left. by apply prev_complete_of_even.
    + right. split; [done|]. by rewrite <-Nat.negb_even, He.
Qed.

(** ** Proofs *)

Section ProofFacts.
Context `{Blake2b, StringStoreLaws D} (junk : nat → ascii).
Local Open Scope nat_scope.

(** What [getProof] puts into the proof for a sibling. *)
Definition render (s : side) : bytes * N :=
match s with
| SiblingLeft h => (ToBase32_value h, 0%N)
| SiblingRight h => (ToBase32_value h, 1%N)
| NoSibling => ([], 1%N)
end.

(** What [Verify] makes of an entry of the proof. *)
Definition side_of (s : bytes) (p : N) : side :=
if (p =? 0)%N then SiblingLeft (FromBase32 junk s)
else if 0 <? length s then SiblingRight (FromBase32 junk s)
else NoSibling.

Lemma verify_loop_climb c prf ps :
length prf ≤ length ps →
verify_loop junk c prf ps = Done (climb c (zip_with side_of prf ps)).
Proof.
revert c ps. induction prf as [|s prf IH]; intros c [|p ps] Hl; cbn [length] in Hl;
  [done|done|lia|].
cbn [verify_loop]. rewrite IH by lia.
change (climb c (zip_with side_of (s :: prf) (p :: ps)))
  with (climb (ComputeFrom (step_preimage c (side_of s p))) (zip_with side_of prf ps)).
do 2 f_equal. unfold side_of. destruct (p =? 0)%N, (0 <? length s); reflexivity.
Qed.

Lemma side_of_render s : side_ok s → side_of (render s).1 (render s).2 = s.
Proof.
intros Hs. destruct s as [h|h|]; unfold side_of; cbn [render fst snd N.eqb]; [| |done];
  rewrite FromBase32_ToBase32 by (apply Hs; tauto); [done|].
by rewrite length_ToBase32_value by (apply Hs; tauto).
Qed.

Lemma side_of_ok s p : side_ok (side_of s p).
Proof.
unfold side_of, side_ok. intros h.
destruct (p =? 0)%N; [|destruct (0 <? length s)]; intros [|]; simplify_eq;
  apply length_FromBase32.
Qed.

Lemma siblings_ok L l i n :
Forall (λ h, length h = kByteLength) L → Forall side_ok (siblings L l i n).
Proof.
intros HF. revert l i. induction n as [|n IH]; intros l i; [constructor|].
constructor; [|apply IH]. intros h.
destruct (Nat.even i), (level L l !! _) eqn:E; intros [|]; simplify_eq;
  exact (Forall_lookup_1 _ _ _ _ (level_Forall_length _ l HF) E).
Qed.

Lemma siblings_render L l i n :
Forall (λ h, length h = kByteLength) L →
zip_with side_of (render <$> siblings L l i n).*1 (render <$> siblings L l i n).*2
= siblings L l i n.
Proof.
intros HF%(siblings_ok _ l i n). induction HF as [|s ss Hs _ IH]; [done|].
cbn [fmap list_fmap zip_with]. by rewrite side_of_render, IH.
Qed.

Lemma even_of_nat_mod s : (N.of_nat s mod 2 =? 0)%N = Nat.even s.
Proof.
rewrite <-Nat.negb_odd, <-odd_of_nat_mod.
pose proof (N.mod_lt (N.of_nat s) 2 ltac:(done)) as Hlt. revert Hlt.
generalize (N.of_nat s mod 2)%N. lia.
Qed.

Lemma of_nat_half s : (N.of_nat s / 2)%N = N.of_nat (s / 2).
Proof. by rewrite Nat2N.inj_div. Qed.

(** The key [getProof] reads a right sibling from is its key in the tree. *)
Lemma sibling_key n c l i :
0 < n → 2 * i + 1 ≤ (n - 1) / 2 ^ l →
mt_key (N.of_nat l) (N.of_nat (2 * i + 1))
  ++ suffix ((N.of_nat (2 * i + 1) =? N.of_nat ((n - 1) / 2 ^ l))%N
             && (0 <? N.of_nat l)%N && negb (n mod 2 ^ S l =? 0)) c
= node_key n c l (2 * i + 1).
Proof.
intros Hn Hi. unfold node_key. do 2 f_equal. pose proof (pow2_pos l) as Hq.
destruct (ceil_spec n (2 ^ l) Hn Hq) as (C1 & C2 & C3).
destruct (decide (2 * i + 1 = (n - 1) / 2 ^ l)) as [E|E].
- rewrite E, N.eqb_refl. cbn [andb]. rewrite Nat.pow_succ_r'.
  rewrite <-(even_complete n _ (2 ^ l) C1 C2 C3 Hq).
  rewrite <-E at 1. replace (S (2 * i + 1)) with (2 * (i + 1)) by lia.
  rewrite Nat.even_mul. cbn [Nat.even orb]. unfold node_full.
  assert ((S ((n - 1) / 2 ^ l) * 2 ^ l <=? n) = (n mod 2 ^ l =? 0)) as ->.
  { destruct (n mod 2 ^ l =? 0) eqn:Em.
    - apply Nat.eqb_eq, C3 in Em. lia.
    - apply Nat.eqb_neq in Em. apply Nat.leb_gt. rewrite C3 in Em. lia. }
  destruct l as [|l]; [cbn [Nat.pow]; by rewrite Nat.mod_1_r|done].
- rewrite (proj2 (N.eqb_neq _ _)) by lia. cbn [andb]. unfold node_full.
  rewrite (proj2 (Nat.leb_le _ _)); [done|]. nia.
Qed.

Lemma proof_loop_spec d L c m l i :
L ≠ [] → (N.of_nat (length L) < 2 ^ 64)%N →
mt_commit d L c → l + m ≤ height (length L) → i ≤ (length L - 1) / 2 ^ l →
proof_loop d c m (N.of_nat l) (N.of_nat i) (N.of_nat ((length L - 1) / 2 ^ l))
  (length L mod 2 ^ S l =? 0)
= ((render <$> siblings L l i m).*1, (render <$> siblings L l i m).*2).
Proof.
intros HL Hn64 Hc. revert l i. induction m as [|m IH]; intros l i Hl Hi; [done|].
assert (0 < length L) as Hpos by (destruct L; [done|simpl; lia]).
cbn [proof_loop]. rewrite !of_nat_half, even_of_nat_mod.
rewrite Nat.Div0.div_div, (Nat.mul_comm (2 ^ l)), <-Nat.pow_succ_r'.
replace (N.of_nat l + 1)%N with (N.of_nat (S l)) by lia.
assert (((length L mod 2 ^ S l =? 0)
  && (N.of_nat ((length L - 1) / 2 ^ S l) mod 2 =? 1)%N)
  = (length L mod 2 ^ S (S l) =? 0)) as ->.
{ destruct (ceil_spec (length L) (2 ^ S l) Hpos (pow2_pos _)) as (C1 & C2 & C3).
  rewrite (Nat.pow_succ_r' _ (S l)), <-(even_complete _ _ (2 ^ S l) C1 C2 C3) by apply pow2_pos.
  rewrite odd_of_nat_mod, Nat.even_succ. by destruct (Nat.odd _); rewrite ?andb_true_r, ?andb_false_r. }
rewrite IH; [|lia|].
2:{ rewrite Nat.pow_succ_r', Nat.mul_comm, <-Nat.Div0.div_div. by apply Nat.Div0.div_le_mono. }
assert ((if Nat.even i
  then (if (N.of_nat i =? N.of_nat ((length L - 1) / 2 ^ l))%N then []
        else ss_get d (mt_key (N.of_nat l) (u64 (N.of_nat i + 1))
          ++ suffix ((u64 (N.of_nat i + 1) =? N.of_nat ((length L - 1) / 2 ^ l))%N
                     && (0 <? N.of_nat l)%N && negb (length L mod 2 ^ S l =? 0)) c), 1%N)
  else (ss_get d (mt_key (N.of_nat l) (N.of_nat i - 1)), 0%N))
  = render (if Nat.even i
     then match level L l !! S i with Some h => SiblingRight h | None => NoSibling end
     else match level L l !! (i - 1) with Some h => SiblingLeft h | None => NoSibling end))
  as ->.
{ pose proof (length_level L l HL) as Hlen. destruct (Nat.even i) eqn:He.
  - destruct (N.eqb_spec (N.of_nat i) (N.of_nat ((length L - 1) / 2 ^ l))) as [E|E].
    { apply Nat2N.inj in E. rewrite lookup_ge_None_2; [done|]. lia. }
    apply Nat.even_spec in He as [k ->].
    rewrite u64_small by (assert ((length L - 1) / 2 ^ l ≤ length L - 1) by
      (apply Nat.Div0.div_le_upper_bound; pose proof (pow2_pos l); nia); lia).
    replace (N.of_nat (2 * k) + 1)%N with (N.of_nat (2 * k + 1)) by lia.
    rewrite sibling_key by lia.
    replace (S (2 * k)) with (2 * k + 1) by lia.
    destruct (lookup_lt_is_Some_2 (level L l) (2 * k + 1)) as [h Hh]; [lia|].
    rewrite Hh. simpl render. f_equal. apply Hc; [lia|done].
  - destruct (lookup_lt_is_Some_2 (level L l) (i - 1)) as [h Hh]; [lia|].
    rewrite Hh. simpl render. f_equal.
    assert (0 < i) by (destruct i; [done|lia]).
    replace (N.of_nat i - 1)%N with (N.of_nat (i - 1)) by lia.
    rewrite <-(node_key_full (length L) c).
    + apply Hc; [lia|done].
    + replace (S (i - 1)) with i by lia.
      pose proof (Nat.Div0.mul_div_le (length L - 1) (2 ^ l)). nia. }
cbn [siblings fmap list_fmap]. by destruct (render _).
Qed.

Lemma root_level_node_key n c l :
(N.of_nat l < 2 ^ 31)%N → root_level (node_key n c l 0) = Done (Z.of_nat l).
Proof.
intros Hl. unfold root_level, node_key, mt_key.
rewrite <-!app_assoc.
change (#"-" ++ to_string (N.of_nat 0) ++ suffix (negb (node_full n l 0)) c)
  with ("-"%char :: to_string (N.of_nat 0) ++ suffix (negb (node_full n l 0)) c).
rewrite app_assoc, find_char_app.
2:{ simpl. rewrite !not_elem_of_cons. split_and!; [done|done|]. by apply to_string_no. }
rewrite length_app. change (length #"mt") with 2.
rewrite (proj2 (Nat.ltb_ge _ _)) by lia.
unfold substr. rewrite !length_app. change (length #"mt") with 2.
rewrite (proj2 (Nat.ltb_ge _ _)) by lia. cbn [mbind outcome_bind].
change (drop 2 ((#"mt" ++ to_string (N.of_nat l))
  ++ "-"%char :: to_string (N.of_nat 0) ++ suffix (negb (node_full n l 0)) c))
  with (to_string (N.of_nat l)
    ++ "-"%char :: to_string (N.of_nat 0) ++ suffix (negb (node_full n l 0)) c).
replace (2 + length (to_string (N.of_nat l)) - 2) with (length (to_string (N.of_nat l))) by lia.
rewrite take_app_length. unfold stoi.
rewrite <-(app_nil_r (to_string (N.of_nat l))), sto_signed_to_string; [f_equal; lia|lia|done].
Qed.

Lemma siblings_pos L l i n :
(∀ k, k < n → i / 2 ^ k < length (level L (k + l))) →
(render <$> siblings L l i n).*2 = path_pos (N.of_nat i) n.
Proof.
revert l i. induction n as [|n IH]; intros l i Hlt; [done|].
cbn [siblings fmap list_fmap]. unfold path_pos. cbn [List.seq fmap list_fmap].
rewrite IH.
2:{ intros k Hk. specialize (Hlt (S k)). rewrite Nat.Div0.div_div, <-Nat.pow_succ_r'.
    replace (k + S l) with (S k + l) by lia. apply Hlt. lia. }
f_equal.
- change (N.of_nat 0) with 0%N. rewrite N.bit0_odd, <-N.negb_even.
  assert (Nat.even i = N.even (N.of_nat i)) as Hev.
  { rewrite <-even_of_nat_mod. destruct (N.even (N.of_nat i)) eqn:E.
    - apply N.even_spec in E as [k ->]. rewrite N.mul_comm, N.Div0.mod_mul. done.
    - rewrite <-N.negb_odd in E. apply negb_false_iff, N.odd_spec in E as [k ->].
      rewrite N.add_comm, N.mul_comm, N.Div0.mod_add. done. }
  rewrite Hev. destruct (N.even (N.of_nat i)) eqn:E; [by destruct (level L l !! S i)|].
  specialize (Hlt 0). rewrite Nat.pow_0_r, Nat.div_1_r in Hlt.
  destruct (lookup_lt_is_Some_2 (level L l) (i - 1)) as [h ->]; [|done]. simpl in Hlt. lia.
- unfold path_pos. rewrite <-(fmap_S_seq 0 n), <-list_fmap_compose.
  apply list_fmap_ext. intros k x _. simpl.
  rewrite <-of_nat_half, Nat2N.inj_succ. rewrite <-N.div2_div, N.div2_spec.
  rewrite N.shiftr_spec by lia. by rewrite N.add_1_r.
Qed.

Lemma render_same_side prf ss :
length prf = length ss →
Forall2 (λ s t, same_side s t = true) (zip_with side_of prf (render <$> ss).*2) ss.
Proof.
revert ss. induction prf as [|x prf IH]; intros [|s ss] Hl; cbn [length] in Hl;
  [constructor|lia|lia|]. cbn [fmap list_fmap zip_with]. constructor; [|apply IH; lia].
unfold side_of. destruct s; cbn [render snd N.eqb]; [done|..]; by case_match.
Qed.

Lemma length_siblings L l i n : length (siblings L l i n) = n.
Proof. revert l i. induction n as [|n IH]; intros l i; simpl; [done|by rewrite IH]. Qed.

(** The path of a leaf stays inside the tree. *)
Lemma path_inside L i k :
i < length L → i / 2 ^ k < length (level L (k + 0)).
Proof.
intros Hi. rewrite Nat.add_0_r, length_level by (destruct L; [simpl in Hi; lia|done]).
apply le_n_S, Nat.Div0.div_le_mono. lia.
Qed.

Lemma climb_to_root L i h root :
L !! i = Some h → level L (height (length L)) = [root] →
climb h (siblings L 0 i (height (length L))) = root.
Proof.
intros Hh Hr. pose proof (climb_siblings L 0 i (height (length L)) h Hh) as Hc.
rewrite Nat.add_0_r, Hr in Hc. rewrite Nat.div_small in Hc; [by injection Hc|].
apply lookup_lt_Some in Hh.
pose proof (proj1 (height_spec (length L) _ ltac:(lia)) (le_n _)). lia.
Qed.
(** A path that the loop of [Verify] accepts for a node [c] other than the leaf
contains, next to the leaf's own path, a collision. *)
Lemma verify_loop_binding L i h root c prf ps :
Forall (λ h, length h = kByteLength) L → L !! i = Some h →
level L (height (length L)) = [root] → length c = kByteLength →
length prf = height (length L) → ps = path_pos (N.of_nat i) (height (length L)) →
(calc ← verify_loop junk c prf ps;
 Done (hash_eqb (Some calc) (Some (FromBase32 junk (ToBase32_value root))))) = Done true →
c ≠ h →
∃ x y, find_collision c h (zip_with side_of prf ps) (siblings L 0 i (height (length L)))
         = Some (x, y) ∧
  x ≠ y ∧ ComputeFrom x = ComputeFrom y.
Proof.
intros HF Hh Hroot Hlc Hlen Hpos HV Hne. pose proof (lookup_lt_Some _ _ _ Hh) as Hi.
assert (ps = (render <$> siblings L 0 i (height (length L))).*2) as Hpos'.
{ rewrite Hpos. symmetry. apply siblings_pos. intros k _. by apply path_inside. }
rewrite verify_loop_climb in HV by (by rewrite Hpos', Hlen, !length_fmap, length_siblings).
cbn [mbind outcome_bind] in HV. apply Done_inj in HV.
unfold hash_eqb in HV. apply bool_decide_eq_true in HV.
assert (length root = kByteLength) as Hlr.
{ pose proof (level_Forall_length L (height (length L)) HF) as Hf. rewrite Hroot in Hf.
  by apply Forall_cons in Hf as [? _]. }
rewrite FromBase32_ToBase32, (take_ge root) in HV by (rewrite ?Hlr; done).
apply climb_binding; [done|exact (Forall_lookup_1 _ _ _ _ HF Hh)|..|done|].
- rewrite Hpos'. apply render_same_side. by rewrite length_siblings.
- clear. revert ps. induction prf as [|s prf IH]; intros [|q ps]; constructor;
    [apply side_of_ok|apply IH].
- by apply siblings_ok.
- rewrite (climb_to_root L i h root Hh Hroot). rewrite take_ge in HV; [done|].
  by rewrite length_climb by done.
Qed.
End ProofFacts.

(** [update] writes the levels from the first new leaf on and nothing else. *)
Lemma update_spec `{Blake2b, StringStoreLaws D} (junk : nat → ascii)
    (d : D) (L0 M : list bytes) (pc : option N) (root : bytes) :
  let L := L0 ++ M in
  let c := to_string (next_commit pc) in
  M ≠ [] → N.of_nat (length L) < 2 ^ 64 → next_commit pc < 2 ^ 64 →
  Forall (λ h, length h = kByteLength) L →
  match pc with None => L0 = [] | Some p => mt_commit d L0 (to_string p) end →
  level L (height (length L)) = [root] →
  update junk d (N.of_nat (length L0)) (ToBase32_value <$> M) (show_commit pc)
  = Done (ss_puts d (writes L c (length L0) (S (height (length L)))),
          node_key (length L) c (height (length L)) 0, ToBase32_value root).
Proof.
  intros L c HM Hn64 Hc64 HF Hpre Hroot.
  assert (L0 = [] ∨ mt_commit d L0 (show_commit pc)) as Hpre' by (destruct pc; auto).
  assert (0 < length L)%nat as Hpos by (unfold L; rewrite length_app; destruct M; [done|simpl; lia]).
  unfold update. rewrite (put_leaves_spec d L0 M c) by done.
  rewrite commit_seq_spec by done. fold c.
  cbn [mbind outcome_bind]. fold L. pose proof (height_64 (length L) Hpos Hn64).
  destruct (update_loop_inv junk d L0 M (show_commit pc) c update_fuel 0
    (mkMtState (ss_puts d (writes L c (length L0) 1)) 0 (N.of_nat (length L0))
      (prev_complete_of (N.of_nat (length L0))) true
      (FromBase32 junk <$> (ToBase32_value <$> M))))
    as (st & -> & Hdb & Hlv & Hst & Hcomp & Hhs & _);
    [done..|lia|unfold update_fuel; fold L; lia| |].
  { apply leaf_state_inv. by apply Forall_app in HF as [_ HF]. }
  cbn [mbind outcome_bind]. rewrite Hhs. fold L. rewrite Hroot.
  assert (length L0 / 2 ^ height (length L) = 0)%nat as ->.
  { apply Nat.div_small. pose proof (proj1 (height_spec (length L) _ Hpos) (le_n _)).
    unfold L in *. rewrite length_app in *. destruct M; [done|simpl in *; lia]. }
  simpl drop. rewrite Hdb, Hlv, Hcomp. unfold node_key. rewrite root_full by done.
  fold L. unfold mt_key. rewrite <-!app_assoc. done.
Qed.

(** C1.  [MerkleTree::update] on a store that holds the tree of the leaves
    [L0] (or on an empty tree) returns, without running out of fuel, the root
    of the reference tree over [L0] followed by the new leaves and the key it
    is stored under; afterwards every node of the new tree reads back, the
    trees of all earlier commits still read back, and no other key changed. *)
Theorem update_correct `{Blake2b, StringStoreLaws D} (junk : nat → ascii)
    (d : D) (L0 M : list bytes) (pc : option N) :
  let L := L0 ++ M in
  let c := to_string (next_commit pc) in
  M ≠ [] → N.of_nat (length L) < 2 ^ 64 → next_commit pc < 2 ^ 64 →
  Forall (λ h, length h = kByteLength) L →
  match pc with None => L0 = [] | Some p => mt_commit d L0 (to_string p) end →
  ∃ d' root,
    update junk d (N.of_nat (length L0)) (ToBase32_value <$> M) (show_commit pc)
      = Done (d', node_key (length L) c (height (length L)) 0, ToBase32_value root) ∧
    level L (height (length L)) = [root] ∧
    mt_commit d' L c ∧
    (∀ L1 M1 c1, L0 = L1 ++ M1 → c1 ≠ c → mt_commit d L1 c1 → mt_commit d' L1 c1) ∧
    (∀ k, (∀ l i, k ≠ node_key (length L) c l i) → ss_get d' k = ss_get d k).
Proof.
  intros L c HM Hn64 Hc64 HF Hpre.
  assert (L ≠ []) as HL by (unfold L; destruct L0, M; done).
  destruct (level_root L HL) as [root Hroot].
  exists (ss_puts d (writes L c (length L0) (S (height (length L))))), root.
  split; [by apply update_spec|]. split; [done|]. split; [|split].
  - apply mt_commit_writes; [destruct pc; eauto|done].
  - intros L1 M1 c1 E Hc1 HLc. unfold L. rewrite E. by apply mt_commit_frame.
  - intros k Hk. apply get_not_written. intros l i _ _ _. apply Hk.
Qed.

Lemma update_correct_witness :
  let _ := toy_blake2b in
  let hs := ComputeFrom <$> [ #"a"; #"b"; #"c" ] in
  ∃ (d' : MapDB) root,
    update (λ _, "x"%char) empty_db 0 (ToBase32_value <$> hs) [] =
      Done (d', #"mt2-0-0", ToBase32_value root) ∧
    level hs 2 = [root] ∧ mt_commit d' hs #"0".
Proof.
  intros B hs.
  destruct (@update_correct B MapDB _ _ (λ _, "x"%char) empty_db [] hs None)
    as (d' & root & Hu & Hroot & Hc & _).
  - discriminate.
  - vm_compute. reflexivity.
  - vm_compute. reflexivity.
  - repeat constructor.
  - reflexivity.
  - exists d', root. split; [exact Hu|]. split; [exact Hroot|exact Hc].
Defined.

(** The proof of leaf [i]: its siblings up to the root. *)
Definition leaf_proof `{Blake2b} (L : list bytes) (i : nat) (h root : bytes) : Proof :=
  let ss := siblings L 0 i (height (length L)) in
  mkProof (ToBase32_value root) (ToBase32_value h) (render <$> ss).*1 (render <$> ss).*2.

Lemma getProof_spec `{Blake2b, StringStoreLaws D}
    (d : D) (L : list bytes) (c : bytes) (i : nat) (h root : bytes) :
  let n := length L in
  N.of_nat n < 2 ^ 64 →
  mt_commit d L c → L !! i = Some h → level L (height n) = [root] →
  getProof d c (node_key n c (height n) 0) (N.of_nat (n - 1)) (N.of_nat i)
  = Done (leaf_proof L i h root).
Proof.
  intros n Hn64 Hc Hh Hroot. pose proof (lookup_lt_Some _ _ _ Hh) as Hi.
  assert (L ≠ []) as HL by (by intros ->).
  pose proof (height_64 n ltac:(unfold n; lia) Hn64) as Hh64.
  unfold getProof. rewrite root_level_node_key by lia. cbn [mbind outcome_bind].
  pose proof (proof_loop_spec d L c (height n) 0 i HL Hn64 Hc) as Hl.
  rewrite Nat.pow_0_r, Nat.div_1_r, Nat.pow_1_r in Hl. fold n in Hl.
  change (N.of_nat 0) with 0 in Hl.
  rewrite Nat2Z.id.
  assert ((N.of_nat (n - 1) mod 2 =? 1) = (n mod 2 =? 0)%nat) as ->.
  { destruct (ceil_spec n 1 ltac:(unfold n; lia) ltac:(lia)) as (C1 & C2 & C3).
    rewrite odd_of_nat_mod. rewrite Nat.div_1_r in *.
    change (n mod 2)%nat with (n mod (2 * 1))%nat. rewrite <-(even_complete n _ 1 C1 C2 C3), Nat.mod_1_r, Nat.even_succ by lia.
    by destruct (Nat.odd _). }
  rewrite Hl by (unfold n; lia).
  change (mt_key 0 (N.of_nat i)) with (mt_key (N.of_nat 0) (N.of_nat i)).
  rewrite <-(node_key_full n c) by (rewrite Nat.pow_0_r; unfold n; lia).
  unfold mt_commit in Hc. fold n in Hc.
  by rewrite (Hc 0%nat i h), (Hc (height n) 0%nat root) by (done || lia || by rewrite Hroot).
Qed.

Lemma Verify_leaf_proof `{Blake2b} junk (L : list bytes) (i : nat) (h root : bytes) :
  Forall (λ h, length h = kByteLength) L →
  L !! i = Some h → level L (height (length L)) = [root] →
  Verify junk (leaf_proof L i h root) = Done true.
Proof.
  intros HF Hh Hroot. unfold Verify, leaf_proof. cbn [value digest proof pos].
  rewrite verify_loop_climb by (by rewrite !length_fmap).
  rewrite siblings_render by done. cbn [mbind outcome_bind].
  assert (length h = kByteLength) by exact (Forall_lookup_1 _ _ _ _ HF Hh).
  assert (length root = kByteLength).
  { pose proof (level_Forall_length L (height (length L)) HF) as Hf. rewrite Hroot in Hf.
    by apply Forall_cons in Hf as [? _]. }
  rewrite !FromBase32_ToBase32 by done. rewrite (climb_to_root L i h root) by done.
  unfold hash_eqb. by rewrite bool_decide_true.
Qed.

(** C2.  [MerkleTree::getProof] for any leaf of any commit whose tree is in
    the store gives the leaf, the root digest and the positions of the leaf,
    and [Proof::Verify] accepts it. *)
Theorem getProof_verifies `{Blake2b, StringStoreLaws D} (junk : nat → ascii)
    (d : D) (L : list bytes) (c : bytes) (i : nat) (h root : bytes) :
  let n := length L in
  N.of_nat n < 2 ^ 64 → Forall (λ h, length h = kByteLength) L →
  mt_commit d L c → L !! i = Some h → level L (height n) = [root] →
  ∃ p, getProof d c (node_key n c (height n) 0) (N.of_nat (n - 1)) (N.of_nat i) = Done p ∧
    value p = ToBase32_value h ∧ digest p = ToBase32_value root ∧
    length (proof p) = height n ∧ pos p = path_pos (N.of_nat i) (height n) ∧
    Verify junk p = Done true.
Proof.
  intros n Hn64 HF Hc Hh Hroot. pose proof (lookup_lt_Some _ _ _ Hh) as Hi.
  exists (leaf_proof L i h root). split; [by apply getProof_spec|].
  split_and!; [done|done|by cbn; rewrite !length_fmap, length_siblings| |by apply Verify_leaf_proof].
  apply siblings_pos. intros k _. by apply path_inside.
Qed.

Lemma getProof_verifies_witness :
  let _ := toy_blake2b in
  let hs := ComputeFrom <$> [ #"a"; #"b"; #"c" ] in
  let d : MapDB := ss_puts empty_db (writes hs #"0" 0 3) in
  ∃ p, getProof d #"0" #"mt2-0-0" 2 1 = Done p ∧
    value p = ToBase32_value (ComputeFrom #"b") ∧ Verify (λ _, "x"%char) p = Done true.
Proof.
  intros B hs d.
  destruct (@getProof_verifies B MapDB _ _ (λ _, "x"%char) d hs #"0" 1
    (ComputeFrom #"b") (default [] (level hs 2 !! 0%nat))) as (p & Hp & Hv & _ & _ & _ & HV).
  - vm_compute. reflexivity.
  - repeat constructor.
  - apply (mt_commit_writes empty_db [] hs #"0"); [by left|discriminate].
  - reflexivity.
  - vm_compute. reflexivity.
  - exists p. split; [exact Hp|]. split; [exact Hv|exact HV].
Defined.

(** C27.  A proof that [Proof::Verify] accepts against the root of a tree, with
    the positions and the length that belong to leaf [i], carries leaf [i], or
    the path it carries contains, next to the true path, two different
    preimages of one digest, which [find_collision] computes. *)
Theorem Verify_sound `{Blake2b} (junk : nat → ascii) (L : list bytes) (i : nat)
    (h root : bytes) (p : Proof) :
  let n := length L in
  Forall (λ h, length h = kByteLength) L →
  L !! i = Some h → level L (height n) = [root] →
  digest p = ToBase32_value root →
  length (proof p) = height n → pos p = path_pos (N.of_nat i) (height n) →
  Verify junk p = Done true →
  FromBase32 junk (value p) = h ∨
  ∃ x y, find_collision (FromBase32 junk (value p)) h
           (zip_with (side_of junk) (proof p) (pos p)) (siblings L 0 i (height n)) = Some (x, y) ∧
    x ≠ y ∧ ComputeFrom x = ComputeFrom y.
Proof.
  intros n HF Hh Hroot Hd Hlen Hpos HV.
  destruct (decide (FromBase32 junk (value p) = h)) as [|Hne]; [by left|right].
  unfold Verify in HV. rewrite Hd in HV.
  by eapply verify_loop_binding; try apply length_FromBase32.
Qed.

Lemma Verify_sound_witness :
  let _ := toy_blake2b in
  let hs := ComputeFrom <$> [ #"a"; #"b"; #"c" ] in
  let node l i := default [] (level hs l !! i) in
  let p := mkProof (ToBase32_value (node 2 0)%nat) (ToBase32_value (node 0 1)%nat)
             [ToBase32_value (node 0 0)%nat; ToBase32_value (node 1 1)%nat] [0; 1] in
  Verify (λ _, "x"%char) p = Done true ∧
  (FromBase32 (λ _, "x"%char) (value p) = ComputeFrom #"b" ∨
   ∃ x y, x ≠ y ∧ ComputeFrom x = ComputeFrom y).
Proof.
  intros B hs node p. assert (Verify (λ _, "x"%char) p = Done true) as HV
    by (vm_compute; reflexivity).
  split; [exact HV|].
  destruct (@Verify_sound B (λ _, "x"%char) hs 1 (ComputeFrom #"b") (node 2 0)%nat p)
    as [He|(x & y & _ & Hxy)].
  - repeat constructor.
  - reflexivity.
  - vm_compute. reflexivity.
  - reflexivity.
  - reflexivity.
  - vm_compute. reflexivity.
  - exact HV.
  - left. exact He.
  - right. exists x, y. exact Hxy.
Defined.
