(* ===== verification/SqlMerkle.v ===== *)
(** * [ledger/sqlledger/sqlldg_mt.cc]: the Merkle trees of SQL Ledger

    A tree is built once over a list of values and stored under
    ["<tree>|<level>|<index>"].  Its nodes are those of the reference tree of
    [MerkleSpec] over the digests of the values; proofs are checked by the loop
    the journal's trees use. *)

From S2P Require Import Prelude Cpp Hash DB MerkleSpec MerkleTree.

Open Scope N_scope.

(** ** Definitions *)

Definition sql_key (mtid : bytes) (level : Z) (i : N) : bytes :=
  mtid ++ #"|" ++ to_string_z level ++ #"|" ++ to_string i.

(** [struct Proof] *)
Record SqlProof := mkSqlProof {
  sp_digest : bytes;
  sp_value : bytes;
  sp_proof : list bytes;
  sp_pos : list N;
}.

Section SqlMerkle.
Context `{Blake2b, StringStore D} (junk : nat → ascii).

(** The loop that commits the leaf hashes. *)
Fixpoint sql_put_leaves (d : D) (mtid : bytes) (i : N) (leaves : list bytes) : D * list bytes :=
match leaves with
| [] => (d, [])
| leaf :: leaves =>
    let leaf_hash := ComputeFrom leaf in
    let '(d, hs) :=
      sql_put_leaves (ss_put d (mtid ++ #"|0|" ++ to_string i) (ToBase32 (Some leaf_hash)))
        mtid (i + 1) leaves in
    (d, leaf_hash :: hs)
end.

(** The [for] loop over a level from index [i]. *)
Fixpoint sql_put_parents (d : D) (mtid : bytes) (level : Z) (i : N) (hs : list bytes)
  : D * list bytes :=
let parent_key := sql_key mtid (level + 1) (i / 2) in
match hs with
| [] => (d, [])
| a :: b :: rest =>
    let parent := hash_pair a b in
    let '(d, ps) :=
      sql_put_parents (ss_put d parent_key (ToBase32 (Some parent))) mtid level (i + 2) rest in
    (d, parent :: ps)
| [a] =>
    let parent := hash_single a in
    (ss_put d parent_key (ToBase32 (Some parent)), [parent])
end.

(** The [while] loop. *)
Fixpoint build_loop (fuel : nat) (d : D) (mtid : bytes) (level : Z) (level_hashes : list bytes)
  : outcome (D * Z * list bytes) :=
if (1 <? length level_hashes)%nat then
  match fuel with
  | O => Stop OutOfFuel
  | S fuel =>
      let '(d, parent_hashes) := sql_put_parents d mtid level 0 level_hashes in
      build_loop fuel d mtid (level + 1) parent_hashes
  end
else Done (d, level, level_hashes).

(** [MerkleTree::Build]; the outputs are not written when there is no leaf. *)
Definition Build (d : D) (mtid : bytes) (leaves : list bytes)
  : outcome (D * option (bytes * bytes)) :=
match leaves with
| [] => Done (d, None)
| _ =>
    let '(d, level_hashes) := sql_put_leaves d mtid 0 leaves in
    '(d, level, level_hashes) ← build_loop (length level_hashes) d mtid 0 level_hashes;
    match level_hashes with
    | [] => Stop Undefined
    | root :: _ => Done (d, Some (to_string_z level, ToBase32 (Some root)))
    end
end.

(** The loop of [GetProof] from level [i], [n] levels from the root. *)
Fixpoint sql_proof_loop (d : D) (mtid : bytes) (n : nat) (i : Z) (ptr : N)
  : list bytes * list N :=
match n with
| O => ([], [])
| S n =>
    let '(res, p) :=
      if ptr mod 2 =? 0 then (ss_get d (sql_key mtid i (u64 (ptr + 1))), 1)
      else (ss_get d (sql_key mtid i (ptr - 1)), 0) in
    let '(rs, ps) := sql_proof_loop d mtid n (i + 1) (ptr / 2) in
    (res :: rs, p :: ps)
end.

(** [MerkleTree::GetProof]; the caller fills in the value. *)
Definition GetProof (d : D) (mtid : bytes) (level : Z) (seq : N) : SqlProof :=
let '(rs, ps) := sql_proof_loop d mtid (Z.to_nat level) 0 seq in
mkSqlProof (ss_get d (mtid ++ #"|" ++ to_string_z level ++ #"|0")) [] rs ps.

(** The loop of [Proof::Verify]. *)
Fixpoint sql_verify_loop (calc_hash : bytes) (prf : list bytes) (ps : list N) : outcome bytes :=
match prf, ps with
| [], _ => Done calc_hash
| _ :: _, [] => Stop Undefined
| s :: prf, p :: ps =>
    let proof_hash := FromBase32 junk s in
    sql_verify_loop
      (if p =? 0 then hash_pair proof_hash calc_hash
       else if (0 <? length s)%nat then hash_pair calc_hash proof_hash
       else hash_single calc_hash) prf ps
end.

(** [Proof::Verify] *)
Definition sql_Verify (p : SqlProof) : outcome bool :=
calc_hash ← sql_verify_loop (ComputeFrom (sp_value p)) (sp_proof p) (sp_pos p);
Done (hash_eqb (Some calc_hash) (Some (FromBase32 junk (sp_digest p)))).
End SqlMerkle.

(** ** The store holds the reference tree *)

Section Built.
Context `{Blake2b, StringStoreLaws D} (junk : nat → ascii).
Local Open Scope nat_scope.

Definition leaf_hashes (leaves : list bytes) : list bytes := ComputeFrom <$> leaves.

Lemma leaf_hashes_ok leaves : Forall (λ h, length h = kByteLength) (leaf_hashes leaves).
Proof.
apply Forall_fmap, Forall_true. intros x. apply length_ComputeFrom.
Qed.

Definition sql_node (mtid : bytes) (l i : nat) : bytes := sql_key mtid (Z.of_nat l) (N.of_nat i).

Lemma to_string_z_nat l : to_string_z (Z.of_nat l) = to_string (N.of_nat l).
Proof. unfold to_string_z. case_match; [lia|]. f_equal. lia. Qed.

Lemma sql_node_inj mtid l i l' i' :
sql_node mtid l i = sql_node mtid l' i' → l = l' ∧ i = i'.
Proof.
unfold sql_node, sql_key. rewrite !to_string_z_nat. intros E%app_inv_head.
apply (app_inv_head [_]) in E. cbn in E.
apply app_sep_inj in E as [E1 E2]; [|by apply to_string_no..].
apply to_string_inj in E1, E2. lia.
Qed.

(** The writes of level [l]. *)
Definition sql_writes (mtid : bytes) (l i : nat) (hs : list bytes) : list (bytes * bytes) :=
imap (λ k h, (sql_node mtid l (i + k), ToBase32_value h)) hs.

Lemma elem_of_sql_writes mtid l i hs k v :
(k, v) ∈ sql_writes mtid l i hs ↔
∃ j h, hs !! j = Some h ∧ k = sql_node mtid l (i + j) ∧ v = ToBase32_value h.
Proof.
unfold sql_writes. rewrite elem_of_lookup_imap. split.
- intros (j & h & [= -> ->] & Hj). by exists j, h.
- intros (j & h & Hj & -> & ->). by exists j, h.
Qed.

Lemma ss_puts_cons (d : D) k v kvs : ss_puts d ((k, v) :: kvs) = ss_puts (ss_put d k v) kvs.
Proof. done. Qed.

Lemma sql_writes_cons mtid l i h hs :
sql_writes mtid l i (h :: hs) = (sql_node mtid l i, ToBase32_value h) :: sql_writes mtid l (S i) hs.
Proof.
unfold sql_writes. cbn [imap]. rewrite Nat.add_0_r. f_equal.
apply imap_ext. intros k x _. cbn. by rewrite Nat.add_succ_r.
Qed.

Lemma sql_put_leaves_spec (d : D) mtid i leaves :
sql_put_leaves d mtid (N.of_nat i) leaves
= (ss_puts d (sql_writes mtid 0 i (leaf_hashes leaves)), leaf_hashes leaves).
Proof.
revert d i. induction leaves as [|leaf leaves IH]; intros d i; [done|].
cbn [sql_put_leaves]. replace (N.of_nat i + 1)%N with (N.of_nat (S i)) by lia. rewrite IH.
unfold leaf_hashes. cbn [fmap list_fmap]. rewrite sql_writes_cons, ss_puts_cons. done.
Qed.

Lemma sql_put_parents_spec (d : D) mtid l k hs :
sql_put_parents d mtid (Z.of_nat l) (N.of_nat (2 * k)) hs
= (ss_puts d (sql_writes mtid (S l) k (parents hs)), parents hs).
Proof.
assert (∀ k, sql_key mtid (Z.of_nat l + 1) (N.of_nat (2 * k) / 2) = sql_node mtid (S l) k) as Hkey.
{ intros j. unfold sql_node. f_equal; [lia|].
  by rewrite Nat2N.inj_mul, N.mul_comm, N.div_mul. }
revert d k. induction hs as [|a|a b r IH] using parents_ind; intros d k; [done|..].
- cbn [sql_put_parents parents]. by rewrite Hkey, sql_writes_cons, ss_puts_cons.
- cbn [sql_put_parents parents]. rewrite Hkey.
  replace (N.of_nat (2 * k) + 2)%N with (N.of_nat (2 * S k)) by lia. rewrite IH.
  by rewrite sql_writes_cons, ss_puts_cons.
Qed.

(** The levels [l] to [l + n - 1]. *)
Definition tree_writes (mtid : bytes) (L : list bytes) (l n : nat) : list (bytes * bytes) :=
seq l n ≫= λ l, sql_writes mtid l 0 (level L l).

Lemma level_above L l : L ≠ [] → (1 <? length (level L l)) = negb (height (length L) <=? l).
Proof.
intros HL. assert (0 < length L) by (destruct L; [done|simpl; lia]).
rewrite length_level by done. apply eq_true_iff_eq.
rewrite negb_true_iff, Nat.leb_gt, Nat.ltb_lt.
pose proof (height_spec (length L) l ltac:(done)). pose proof (pow2_pos l).
pose proof (Nat.div_small_iff (length L - 1) (2 ^ l) ltac:(lia)). lia.
Qed.

Lemma build_loop_spec fuel (d : D) mtid L l :
L ≠ [] → l ≤ height (length L) → height (length L) - l ≤ fuel →
build_loop fuel d mtid (Z.of_nat l) (level L l)
= Done (ss_puts d (tree_writes mtid L (S l) (height (length L) - l)),
        Z.of_nat (height (length L)), level L (height (length L))).
Proof.
intros HL. revert d l. induction fuel as [|fuel IH]; intros d l Hl Hf; cbn [build_loop];
  rewrite level_above by done; destruct (height (length L) <=? l) eqn:E; cbn [negb].
1,3: apply Nat.leb_le in E; replace l with (height (length L)) by lia;
  by rewrite Nat.sub_diag.
- apply Nat.leb_gt in E. lia.
- apply Nat.leb_gt in E. rewrite (sql_put_parents_spec d mtid l 0).
  change (parents (level L l)) with (level L (S l)).
  replace (Z.of_nat l + 1)%Z with (Z.of_nat (S l)) by lia.
  rewrite IH, <-ss_puts_app by lia.
  replace (height (length L) - l) with (S (height (length L) - S l)) by lia. done.
Qed.

Lemma height_le n : height n ≤ n.
Proof. destruct n; [done|]. apply height_spec; [lia|]. apply Nat.lt_le_incl, Nat.pow_gt_lin_r. lia. Qed.

Lemma Build_writes (d : D) mtid leaves :
leaves ≠ [] →
let L := leaf_hashes leaves in
∃ root, level L (height (length L)) = [root] ∧
  Build d mtid leaves
  = Done (ss_puts d (tree_writes mtid L 0 (S (height (length L)))),
          Some (to_string (N.of_nat (height (length L))), ToBase32_value root)).
Proof.
intros Hne L. assert (L ≠ []) as HL by (by destruct leaves).
destruct (level_root L HL) as [root Hroot]. exists root. split; [done|].
destruct leaves as [|x xs]; [done|]. unfold Build. rewrite (sql_put_leaves_spec d mtid 0).
fold L. rewrite (build_loop_spec (length L) _ mtid L 0), Nat.sub_0_r by
  (pose proof (height_le (length L)); done || lia).
cbn [mbind outcome_bind]. rewrite Hroot, to_string_z_nat, <-ss_puts_app. done.
Qed.

(** All nodes of the tree over [L] read back; the places of its levels where
there is no node are empty. *)
Definition sql_built (d : D) (mtid : bytes) (L : list bytes) : Prop :=
∀ l i, l ≤ height (length L) →
  ss_get d (sql_node mtid l i)
  = match level L l !! i with Some h => ToBase32_value h | None => [] end.

Lemma elem_of_tree_writes mtid L n k v :
(k, v) ∈ tree_writes mtid L 0 n ↔
∃ l i h, l < n ∧ level L l !! i = Some h ∧ k = sql_node mtid l i ∧ v = ToBase32_value h.
Proof.
unfold tree_writes. rewrite list_elem_of_bind. setoid_rewrite elem_of_sql_writes.
setoid_rewrite elem_of_seq. split.
- intros (l & (i & h & Hh & -> & ->) & Hl). exists l, i, h. split_and!; try done; lia.
- intros (l & i & h & Hl & Hh & -> & ->). exists l. split; [|lia]. by exists i, h.
Qed.

Lemma tree_writes_get (d : D) mtid L n l i h :
l < n → level L l !! i = Some h →
ss_get (ss_puts d (tree_writes mtid L 0 n)) (sql_node mtid l i) = ToBase32_value h.
Proof.
intros Hl Hh. apply ss_get_puts_fun.
- apply list_elem_of_fmap. exists (sql_node mtid l i, ToBase32_value h). split; [done|].
  apply elem_of_tree_writes. by exists l, i, h.
- intros v (l' & i' & h' & _ & Hh' & [-> ->]%sql_node_inj & ->)%elem_of_tree_writes. congruence.
Qed.

Lemma tree_writes_frame (d : D) mtid L n k :
(∀ l i, l < n → i < length (level L l) → k ≠ sql_node mtid l i) →
ss_get (ss_puts d (tree_writes mtid L 0 n)) k = ss_get d k.
Proof.
intros Hk. apply ss_get_puts_notin. intros ([k' v] & -> & Hin)%list_elem_of_fmap.
apply elem_of_tree_writes in Hin as (l & i & h & Hl & Hh & -> & _).
apply (Hk l i); [done|by eapply lookup_lt_Some|done].
Qed.

Lemma length_level_le L l : length (level L l) ≤ length L.
Proof.
induction l as [|l IH]; [done|]. cbn [level]. rewrite length_parents.
etrans; [|exact IH]. destruct (length (level L l)) as [|k]; [done|].
apply Nat.Div0.div_le_upper_bound. lia.
Qed.

Lemma sql_proof_loop_spec (d : D) mtid L m l i :
sql_built d mtid L → (N.of_nat (length L) < 2 ^ 64)%N → l + m ≤ height (length L) →
i < length (level L l) →
sql_proof_loop d mtid m (Z.of_nat l) (N.of_nat i)
= ((render <$> siblings L l i m).*1, (render <$> siblings L l i m).*2).
Proof.
intros Hb H64. revert l i. induction m as [|m IH]; intros l i Hlm Hi; [done|].
cbn [sql_proof_loop siblings fmap list_fmap]. rewrite even_of_nat_mod, of_nat_half.
replace (Z.of_nat l + 1)%Z with (Z.of_nat (S l)) by lia. rewrite IH; [|lia|].
2: { cbn [level]. rewrite length_parents. clear -Hi.
  pose proof (Nat.div_mod_eq i 2). pose proof (Nat.mod_upper_bound i 2 ltac:(lia)).
  apply Nat.div_le_lower_bound; lia. }
pose proof (length_level_le L l). destruct (Nat.even i) eqn:He.
- rewrite u64_small by lia. replace (N.of_nat i + 1)%N with (N.of_nat (S i)) by lia.
  fold (sql_node mtid l (S i)). rewrite Hb by lia.
  by destruct (level L l !! S i).
- assert (i ≠ 0) by (by intros ->).
  replace (N.of_nat i - 1)%N with (N.of_nat (i - 1)) by lia.
  fold (sql_node mtid l (i - 1)). rewrite Hb by lia.
  destruct (lookup_lt_is_Some_2 (level L l) (i - 1)) as [h ->]; [lia|done].
Qed.

Lemma sql_verify_loop_same c prf ps : sql_verify_loop junk c prf ps = verify_loop junk c prf ps.
Proof. reflexivity. Qed.

(** What [GetProof] returns for a leaf of a stored tree. *)
Lemma GetProof_spec (d : D) mtid L i root :
L ≠ [] → sql_built d mtid L → (N.of_nat (length L) < 2 ^ 64)%N → i < length L →
level L (height (length L)) = [root] →
GetProof d mtid (Z.of_nat (height (length L))) (N.of_nat i)
= mkSqlProof (ToBase32_value root) [] (render <$> siblings L 0 i (height (length L))).*1
    (render <$> siblings L 0 i (height (length L))).*2.
Proof.
intros HL Hb H64 Hi Hroot. unfold GetProof. rewrite Nat2Z.id.
change 0%Z with (Z.of_nat 0). rewrite (sql_proof_loop_spec d mtid L) by done. f_equal.
change (mtid ++ #"|" ++ to_string_z (Z.of_nat (height (length L))) ++ #"|0")
  with (sql_node mtid (height (length L)) 0).
by rewrite Hb, Hroot by lia.
Qed.

Lemma level_root_length L root :
Forall (λ h, length h = kByteLength) L → level L (height (length L)) = [root] →
length root = kByteLength.
Proof.
intros HF Hroot. pose proof (level_Forall_length L (height (length L)) HF) as Hf.
rewrite Hroot in Hf. by apply Forall_cons in Hf as [? _].
Qed.

(** [Build] under an unused name. *)
Lemma Build_built (d : D) mtid leaves : leaves ≠ [] → (∀ l i, ss_get d (sql_node mtid l i) = []) →
let L := leaf_hashes leaves in
∃ d' root, Build d mtid leaves = Done (d', Some (to_string (N.of_nat (height (length L))), ToBase32_value root)) ∧
  level L (height (length L)) = [root] ∧ sql_built d' mtid L ∧
  ∀ k, (∀ l i, k ≠ sql_node mtid l i) → ss_get d' k = ss_get d k.
Proof.
intros Hne Hfresh L. destruct (Build_writes d mtid leaves Hne) as (root & Hroot & HB). fold L in Hroot, HB.
eexists _, root. split; [exact HB|]. split; [exact Hroot|]. split.
- intros l j Hl. destruct (level L l !! j) as [h|] eqn:E; [apply tree_writes_get; [fold L in Hl |- *; lia|done]|].
  rewrite tree_writes_frame; [apply Hfresh|].
  intros l' j' _ Hj' [-> ->]%sql_node_inj. apply lookup_ge_None in E. lia.
- intros k Hk. by apply tree_writes_frame.
Qed.

(** The proof of a leaf of a stored tree. *)
Lemma built_verifies (d : D) mtid leaves i leaf root :
let L := leaf_hashes leaves in
(N.of_nat (length leaves) < 2 ^ 64)%N → leaves !! i = Some leaf → sql_built d mtid L →
level L (height (length L)) = [root] →
let p := GetProof d mtid (Z.of_nat (height (length L))) (N.of_nat i) in
sp_digest p = ToBase32_value root ∧
sql_Verify junk (mkSqlProof (sp_digest p) leaf (sp_proof p) (sp_pos p)) = Done true.
Proof.
intros L H64 Hi Hb Hroot. assert (L !! i = Some (ComputeFrom leaf)) as Hh
  by (unfold L, leaf_hashes; by rewrite list_lookup_fmap, Hi).
assert (L ≠ []) as HL by (by intros E; rewrite E in Hh).
rewrite (GetProof_spec d mtid L i root); [|done|done| |by eapply lookup_lt_Some|done].
2: { unfold L, leaf_hashes. by rewrite length_fmap. }
cbv zeta. cbn [sp_digest sp_proof sp_pos]. split; [done|].
unfold sql_Verify. cbn [sp_value sp_digest sp_proof sp_pos].
rewrite sql_verify_loop_same, verify_loop_climb by (by rewrite !length_fmap).
rewrite siblings_render by apply leaf_hashes_ok. cbn [mbind outcome_bind].
rewrite (climb_to_root L i _ root) by done.
rewrite FromBase32_ToBase32 by (eapply level_root_length; [apply leaf_hashes_ok|done]).
unfold hash_eqb. by rewrite bool_decide_true.
Qed.
End Built.

(** C33.  [MerkleTree::Build] terminates within its fuel on one or more leaves, returns
    the height and the root of the reference tree over their digests, stores
    every node of that tree under its key and changes no other key. *)
Theorem Build_correct `{Blake2b, StringStoreLaws D} (d : D) mtid leaves :
  leaves ≠ [] →
  let L := leaf_hashes leaves in
  let n := height (length L) in
  ∃ d' root, Build d mtid leaves = Done (d', Some (to_string (N.of_nat n), ToBase32_value root)) ∧
    level L n = [root] ∧
    (∀ l i h, (l <= n)%nat → level L l !! i = Some h →
       ss_get d' (sql_node mtid l i) = ToBase32_value h) ∧
    (∀ k, (∀ l i, (l <= n)%nat → (i < length (level L l))%nat → k ≠ sql_node mtid l i) →
       ss_get d' k = ss_get d k).
Proof.
  intros Hne L n. destruct (Build_writes d mtid leaves Hne) as (root & Hroot & HB).
  eexists _, root. split; [exact HB|]. split_and!; [done|..].
  - intros l i h Hl Hh. apply tree_writes_get; [by apply Nat.lt_succ_r|done].
  - intros k Hk. apply tree_writes_frame. intros l i Hl. apply Hk. by apply Nat.lt_succ_r.
Qed.

Lemma Build_correct_witness :
  let _ := toy_blake2b in
  ∃ (d' : MapDB) root, Build empty_db #"t" [ #"a"; #"b"; #"c" ] = Done (d', Some (#"2", root)) ∧
    ss_get d' #"t|2|0" = root.
Proof.
  intros B.
  destruct (@Build_correct B MapDB _ _ empty_db #"t" [ #"a"; #"b"; #"c" ])
    as (d' & root & HB & Hroot & Hget & _); [discriminate|].
  exists d', (ToBase32_value root). split; [exact HB|].
  apply (Hget 2%nat 0%nat root); [vm_compute; lia|].
  exact (f_equal (λ l, l !! 0%nat) Hroot).
Defined.

(** In a tree that [Build] stored under an unused name, [GetProof] of
    any leaf, completed with that leaf, passes [Proof::Verify]. *)
Theorem GetProof_verifies `{Blake2b, StringStoreLaws D} (junk : nat → ascii)
    (d : D) mtid leaves i leaf :
  N.of_nat (length leaves) < 2 ^ 64 → leaves !! i = Some leaf →
  (∀ l i, ss_get d (sql_node mtid l i) = []) →
  ∃ d' level root, Build d mtid leaves = Done (d', Some (to_string_z level, root)) ∧
    let p := GetProof d' mtid level (N.of_nat i) in
    sp_digest p = root ∧
    sql_Verify junk (mkSqlProof (sp_digest p) leaf (sp_proof p) (sp_pos p)) = Done true.
Proof.
  intros H64 Hi Hfresh. destruct (Build_built d mtid leaves ltac:(by intros ->) Hfresh) as (d' & root & HB & Hroot & Hb & _).
  eexists d', _, (ToBase32_value root). rewrite to_string_z_nat. split; [exact HB|]. by apply built_verifies.
Qed.

Lemma GetProof_verifies_witness :
  let _ := toy_blake2b in
  let junk := λ _ : nat, "x"%char in
  ∃ (d' : MapDB) level root,
    Build empty_db #"t" [ #"a"; #"b"; #"c" ] = Done (d', Some (to_string_z level, root)) ∧
    let p := GetProof d' #"t" level 2 in
    sql_Verify junk (mkSqlProof root #"c" (sp_proof p) (sp_pos p)) = Done true.
Proof.
  intros B junk.
  destruct (@GetProof_verifies B MapDB _ _ junk empty_db #"t" [ #"a"; #"b"; #"c" ] 2 #"c")
    as (d' & level & root & HB & <- & HV); [vm_compute; reflexivity|reflexivity|reflexivity|].
  eexists d', level, _. split; [exact HB|exact HV].
Defined.

(** A proof with the shape of leaf [i] that [Proof::Verify] accepts
    against the root carries the value of that leaf, or two different
    preimages of one digest are found along the two paths. *)
Theorem sql_Verify_sound `{Blake2b} (junk : nat → ascii) leaves i leaf root (p : SqlProof) :
  let L := leaf_hashes leaves in
  let n := height (length L) in
  leaves !! i = Some leaf → level L n = [root] →
  sp_digest p = ToBase32_value root → length (sp_proof p) = n →
  sp_pos p = path_pos (N.of_nat i) n → sql_Verify junk p = Done true →
  sp_value p = leaf ∨
  (sp_value p ≠ leaf ∧ ComputeFrom (sp_value p) = ComputeFrom leaf) ∨
  ∃ x y, find_collision (ComputeFrom (sp_value p)) (ComputeFrom leaf)
           (zip_with (side_of junk) (sp_proof p) (sp_pos p)) (siblings L 0 i n) = Some (x, y) ∧
    x ≠ y ∧ ComputeFrom x = ComputeFrom y.
Proof.
  intros L n Hi Hroot Hd Hlen Hpos HV.
  destruct (decide (sp_value p = leaf)) as [|Hne]; [by left|right].
  destruct (decide (ComputeFrom (sp_value p) = ComputeFrom leaf)) as [|Hneh]; [by left|right].
  unfold sql_Verify in HV. rewrite sql_verify_loop_same in HV.
  eapply verify_loop_binding; [by apply leaf_hashes_ok| |exact Hroot|..]; try done.
  - unfold L, leaf_hashes. by rewrite list_lookup_fmap, Hi.
  - apply length_ComputeFrom.
  - by rewrite Hd in HV.
Qed.

Lemma sql_Verify_sound_witness :
  let _ := toy_blake2b in
  let junk := λ _ : nat, "x"%char in
  let node l i := default [] (level (leaf_hashes [ #"a"; #"b"; #"c" ]) l !! i) in
  let p := mkSqlProof (ToBase32_value (node 2 0)%nat) #"b"
             [ToBase32_value (node 0 0)%nat; ToBase32_value (node 1 1)%nat] [0; 1] in
  sql_Verify junk p = Done true ∧
  (sp_value p = #"b" ∨ ∃ x y, x ≠ y ∧ ComputeFrom x = ComputeFrom y).
Proof.
  intros B junk node p. assert (sql_Verify junk p = Done true) as HV by (vm_compute; reflexivity).
  split; [exact HV|].
  destruct (@sql_Verify_sound B junk [ #"a"; #"b"; #"c" ] 1 #"b" (node 2 0)%nat p)
    as [He|[[Hne Hx]|(x & y & _ & Hxy)]]; [reflexivity|vm_compute; reflexivity|reflexivity..|exact HV| | |].
  - left. exact He.
  - right. exists (sp_value p), #"b". split; [exact Hne|exact Hx].
  - right. exists x, y. exact Hxy.
Defined.
