(* ===== verification/MPTNode.v ===== *)
(** * [ledger/ledgerdb/mpt/mpt_node.cc], [mpt_node.h], [mpt_config.h]

    The nodes of the Merkle Patricia trie are chunks.  A full node has sixteen
    children, one for every nibble of the key, and a value for the key that
    ends there; a short node carries a piece of key shared by everything below
    it.  Children are stored as the digest of their chunk, values in place.

    The second part gives the abstract tree a chunk stands for, its encoding,
    and shows that the accessors of the code read it back. *)

From S2P Require Import Prelude Cpp Hash Chunk.

Open Scope nat_scope.

(** ** Keys *)

(** A [char] read as an [int8_t], and an integer stored into a [char]. *)
Definition int8 (c : ascii) : Z :=
  if (N_of_ascii c <? 128)%N then Z.of_N (N_of_ascii c) else (Z.of_N (N_of_ascii c) - 256)%Z.
Definition char_of_Z (z : Z) : ascii := byte_of_N (Z.to_N (z mod 256)).

(** [MPTConfig::KeybytesToHex] *)
Definition KeybytesToHex (key : bytes) : bytes :=
  (key ≫= λ c, [char_of_Z (Z.quot (int8 c) 16); char_of_Z (Z.rem (int8 c) 16)])
    ++ [char_of_Z 16].

(** [MPTConfig::PrefixLen] *)
Fixpoint PrefixLen (key1 key2 : bytes) : nat :=
  match key1, key2 with
  | a :: key1, b :: key2 => if decide (a = b) then S (PrefixLen key1 key2) else 0
  | _, _ => 0
  end.

(** ** Nodes as chunks

A node is a view of the memory [m] its chunk points to; a child is the memory
from its first byte on, which reaches past the end of the child. *)

Definition kHashSize : nat := kMetaLength + kByteLength.

Section MPTNode.
Context `{Blake2b}.

(** [*reinterpret_cast<const uint64_t*>(data)] *)
Definition read64 (m : bytes) : N := le_decode (take 8 (data m)).

Definition is_type (t : ChunkType) (m : bytes) : bool := bool_decide (type m = Some t).

(** The elements a child contributes to the count of its parent. *)
Definition child_elements (m : bytes) : N :=
(if is_type kMPTNil m then 0 else if is_type kMPTValue m then 1 else read64 m)%N.

(** [MPTNode::numElements] *)
Definition numElements (m : bytes) : N :=
match type m with
| Some kMPTFull | Some kMPTShort => read64 m
| Some kMPTValue => 1
| _ => 0
end%N.

(** *** Full nodes *)

Definition child_offset (i : nat) : nat := 8 + kHashSize * i.

(** [MPTFullNode::PrecomputeOffset] *)
Definition children (m : bytes) : list bytes :=
(λ i, drop (child_offset i) (data m)) <$> seq 0 17.

(** [getChildAtIndex] on the vector of children. *)
Definition getChildAtIndex (m : bytes) (index : nat) : outcome bytes :=
match children m !! index with Some c => Done c | None => Stop Undefined end.

(** [MPTHashNode::Encode] *)
Definition encode_hash (child : bytes) : bytes := make_chunk kMPTHash (chunk_hash child).
(** [MPTHashNode::childHash] *)
Definition childHash (m : bytes) : bytes := take kByteLength (data m).

(** [MPTNilNode::Encode] *)
Definition nil_chunk : bytes := make_chunk kMPTNil [].

(** [MPTValueNode::Encode] and [getVal] *)
Definition encode_value (value : bytes) : bytes := make_chunk kMPTValue value.
Definition getVal (m : bytes) : bytes := take (N.to_nat (numBytes m) - kMetaLength) (data m).

(** The counting loop of [MPTFullNode::Encode]. *)
Fixpoint sum_elements (nodes : list bytes) (num_elem : N) : N :=
match nodes with
| [] => num_elem
| m :: nodes => sum_elements nodes (u64 (num_elem + child_elements m))
end.

(** [MPTFullNode::Encode] *)
Definition encode_full (nodes : list bytes) : chunk :=
if (length nodes =? 17)%nat then
  Some (make_chunk kMPTFull
    (le_encode 8 (sum_elements nodes 0)
     ++ mjoin (encode_hash <$> take 16 nodes)
     ++ contents (default [] (nodes !! 16))))
else None.

(** [MPTFullNode::setChildAtIndex]: the new chunk is filled from the old one
and the changed element. *)
Definition setChildAtIndex (m : bytes) (index : nat) (child o_child : bytes) : outcome bytes :=
old ← getChildAtIndex m index;
let num_elem := u64 (read64 m + child_elements child + (2 ^ 64 - child_elements o_child)) in
let value := if (index =? 16)%nat then child else encode_hash child in
let capacity :=
  u32 (numBytes m + (2 ^ 32 - N.of_nat kMetaLength) + numBytes value
       + (2 ^ 32 - numBytes old)) in
let offset := (8 + kHashSize * S index)%nat in
Done (make_chunk kMPTFull
  (le_encode 8 num_elem
   ++ take (kHashSize * index) (drop 8 (data m))
   ++ contents value
   ++ (if (index <? 16)%nat then take (N.to_nat capacity - offset) (drop offset (data m))
       else []))).

(** *** Short nodes *)

Definition key_len (m : bytes) : nat := N.to_nat (le_decode (take 4 (drop 8 (data m)))).
(** [MPTShortNode::getKey] *)
Definition getKey (m : bytes) : bytes := take (key_len m) (drop 12 (data m)).
(** [MPTShortNode::childNode] *)
Definition childNode (m : bytes) : bytes := drop (12 + key_len m) (data m).

(** [MPTShortNode::Encode] *)
Definition encode_short (key : bytes) (node : bytes) : bytes :=
let num_elem := (if is_type kMPTValue node then 1 else read64 node)%N in
make_chunk kMPTShort
  (le_encode 8 num_elem ++ le_encode 4 (N.of_nat (length key)) ++ key
   ++ (if is_type kMPTValue node then contents node else encode_hash node)).
End MPTNode.

(** ** The tree a chunk stands for *)

Inductive node :=
  | NNil
  | NValue (v : bytes)
  | NShort (k : bytes) (c : node)
  | NFull (cs : list node).

Fixpoint node_ind' (P : node → Prop) (Hn : P NNil) (Hv : ∀ v, P (NValue v))
    (Hs : ∀ k c, P c → P (NShort k c)) (Hf : ∀ cs, Forall P cs → P (NFull cs)) (t : node) : P t :=
  match t with
  | NNil => Hn
  | NValue v => Hv v
  | NShort k c => Hs k c (node_ind' P Hn Hv Hs Hf c)
  | NFull cs => Hf cs ((fix go cs := match cs return Forall P cs with
                         | [] => Forall_nil_2 P
                         | c :: cs => Forall_cons_2 P _ _ (node_ind' P Hn Hv Hs Hf c) (go cs)
                         end) cs)
  end.

(** The number of values in the tree. *)
Fixpoint count (t : node) : N :=
  match t with
  | NNil => 0
  | NValue _ => 1
  | NShort _ c => count c
  | NFull cs => foldr N.add 0 (List.map count cs)
  end%N.

Definition is_value (t : node) : bool := match t with NValue _ => true | _ => false end.
Definition is_nil (t : node) : bool := match t with NNil => true | _ => false end.

Section Encoding.
Context `{Blake2b}.

(** The chunk of a tree. *)
Fixpoint enc (t : node) : bytes :=
match t with
| NNil => nil_chunk
| NValue v => encode_value v
| NShort k c =>
    make_chunk kMPTShort
      (le_encode 8 (count c) ++ le_encode 4 (N.of_nat (length k)) ++ k
       ++ (if is_value c then enc c else encode_hash (enc c)))
| NFull cs =>
    make_chunk kMPTFull
      (le_encode 8 (count (NFull cs))
       ++ mjoin (encode_hash <$> take 16 (List.map enc cs))
       ++ default [] (List.map enc cs !! 16))
end.

(** The bytes a child is stored as. *)
Definition link (c : node) : bytes := if is_value c then enc c else encode_hash (enc c).

(** The memory [m] starts with the chunk of [t]. *)
Definition points_to (m : bytes) (t : node) : Prop := ∃ rest, m = enc t ++ rest.

(** The chunk of every part fits the 32-bit length of a chunk. *)
Definition small (t : node) : Prop := (N.of_nat (length (enc t)) < 2 ^ 32)%N.

(** *** Lengths *)

Lemma length_chunk_hash m : length (chunk_hash m) = kByteLength.
Proof. apply length_ComputeFrom. Qed.
Lemma length_encode_hash m : length (encode_hash m) = kHashSize.
Proof. unfold encode_hash. by rewrite length_make_chunk, length_chunk_hash. Qed.

Lemma length_join_links cs : length (mjoin (encode_hash <$> cs)) = kHashSize * length cs.
Proof.
induction cs as [|c cs IH]; [done|].
change (length (encode_hash c ++ mjoin (encode_hash <$> cs)) = kHashSize * S (length cs)).
rewrite length_app, length_encode_hash, IH. lia.
Qed.

(** *** Reading an encoding *)

Lemma enc_chunk t : ∃ ty d, enc t = make_chunk ty d.
Proof. destruct t; eexists _, _; reflexivity. Qed.

Lemma enc_eq_type t rest :
type (enc t ++ rest)
= Some (match t with NNil => kMPTNil | NValue _ => kMPTValue
                   | NShort _ _ => kMPTShort | NFull _ => kMPTFull end).
Proof. destruct t; apply type_make_chunk. Qed.

Lemma is_type_enc ty t rest :
is_type ty (enc t ++ rest)
= bool_decide (match t with NNil => kMPTNil | NValue _ => kMPTValue
                          | NShort _ _ => kMPTShort | NFull _ => kMPTFull end = ty).
Proof. unfold is_type. rewrite enc_eq_type. apply bool_decide_ext. naive_solver. Qed.

Lemma numBytes_enc t rest : small t → numBytes (enc t ++ rest) = N.of_nat (length (enc t)).
Proof.
unfold small. destruct (enc_chunk t) as (ty & d & ->). rewrite length_make_chunk.
apply numBytes_make_chunk.
Qed.

Lemma contents_enc t rest : small t → contents (enc t ++ rest) = enc t.
Proof.
unfold small. destruct (enc_chunk t) as (ty & d & ->). rewrite length_make_chunk.
apply contents_make_chunk.
Qed.

Lemma chunk_hash_enc t rest : small t → chunk_hash (enc t ++ rest) = chunk_hash (enc t).
Proof.
intros Hs. unfold chunk_hash. rewrite contents_enc by done.
by rewrite <-(app_nil_r (enc t)), contents_enc, app_nil_r.
Qed.

Lemma encode_hash_enc t rest : small t → encode_hash (enc t ++ rest) = encode_hash (enc t).
Proof. intros. unfold encode_hash. by rewrite chunk_hash_enc. Qed.

Lemma take_le_encode k n rest : take k (le_encode k n ++ rest) = le_encode k n.
Proof. apply take_app_length'. by rewrite length_le_encode. Qed.
Lemma drop_le_encode k n rest : drop k (le_encode k n ++ rest) = rest.
Proof. apply drop_app_length'. by rewrite length_le_encode. Qed.

Lemma read64_enc t rest :
is_value t = false → is_nil t = false → read64 (enc t ++ rest) = (count t mod 2 ^ 64)%N.
Proof.
intros Hv Hn. unfold read64. destruct t; try done; cbn [enc]; rewrite data_make_chunk;
  rewrite <-!app_assoc, take_le_encode, le_decode_encode; done.
Qed.

Lemma child_elements_enc t rest : child_elements (enc t ++ rest) = (count t mod 2 ^ 64)%N.
Proof.
unfold child_elements. rewrite !is_type_enc.
destruct t; try (by repeat case_bool_decide); rewrite !bool_decide_false by done;
  by apply read64_enc.
Qed.

Lemma getVal_enc v rest : small (NValue v) → getVal (enc (NValue v) ++ rest) = v.
Proof.
intros Hs. unfold getVal. rewrite numBytes_enc by done. cbn [enc]. unfold encode_value.
rewrite data_make_chunk, length_make_chunk. apply take_app_length'. lia.
Qed.

Lemma childHash_link m rest : childHash (encode_hash m ++ rest) = chunk_hash m.
Proof.
unfold childHash, encode_hash. rewrite data_make_chunk.
apply take_app_length'. by rewrite length_chunk_hash.
Qed.

Lemma type_link m rest : type (encode_hash m ++ rest) = Some kMPTHash.
Proof. apply type_make_chunk. Qed.

(** *** Short nodes *)

Lemma getKey_enc k c rest :
(N.of_nat (length k) < 2 ^ 32)%N → getKey (enc (NShort k c) ++ rest) = k.
Proof.
intros Hk. unfold getKey, key_len. cbn [enc]. rewrite data_make_chunk, <-!app_assoc.
rewrite drop_le_encode, take_le_encode, le_decode_encode_small by done.
change 12 with (8 + 4). rewrite <-drop_drop, drop_le_encode, drop_le_encode, Nat2N.id.
by apply take_app_length'.
Qed.

Lemma childNode_enc k c rest :
(N.of_nat (length k) < 2 ^ 32)%N → childNode (enc (NShort k c) ++ rest) = link c ++ rest.
Proof.
intros Hk. unfold childNode, key_len. cbn [enc]. rewrite data_make_chunk, <-!app_assoc.
rewrite drop_le_encode, take_le_encode, le_decode_encode_small by done.
change (12 + ?x) with (8 + (4 + x)). rewrite <-!drop_drop, !drop_le_encode, Nat2N.id.
by rewrite drop_app_length'.
Qed.

Lemma encode_short_enc k c rest :
small c → is_nil c = false → encode_short k (enc c ++ rest) = enc (NShort k c).
Proof.
intros Hs Hn. unfold encode_short. rewrite is_type_enc.
change (enc (NShort k c)) with (make_chunk kMPTShort
  (le_encode 8 (count c) ++ le_encode 4 (N.of_nat (length k)) ++ k
   ++ (if is_value c then enc c else encode_hash (enc c)))).
destruct (is_value c) eqn:Hv.
- destruct c; try done. rewrite bool_decide_true by done. by rewrite contents_enc.
- rewrite bool_decide_false by (by destruct c).
  rewrite read64_enc, encode_hash_enc by done. do 2 f_equal. apply (le_encode_mod 8).
Qed.

(** *** Full nodes *)

Lemma length_enc_full cs :
length cs = 17 → length (enc (NFull cs)) = kMetaLength + 8 + kHashSize * 16
  + length (default [] (List.map enc cs !! 16)).
Proof.
intros Hcs. cbn [enc]. rewrite length_make_chunk, !length_app, length_le_encode, length_join_links.
rewrite length_take, length_map, Hcs. unfold kMetaLength, kHashSize. simpl. lia.
Qed.

(** The data of a full node from child [i] on. *)
Lemma drop_links cs i rest :
i ≤ length cs →
drop (kHashSize * i) (mjoin (encode_hash <$> cs) ++ rest)
= mjoin (encode_hash <$> drop i cs) ++ rest.
Proof.
intros Hi. rewrite <-(take_drop i cs) at 1. rewrite fmap_app, join_app, <-app_assoc.
apply drop_app_length'. by rewrite length_join_links, length_take, Nat.min_l.
Qed.

Lemma take_links cs i rest :
i ≤ length cs →
take (kHashSize * i) (mjoin (encode_hash <$> cs) ++ rest) = mjoin (encode_hash <$> take i cs).
Proof.
intros Hi. rewrite <-(take_drop i cs) at 1. rewrite fmap_app, join_app, <-app_assoc.
apply take_app_length'. by rewrite length_join_links, length_take, Nat.min_l.
Qed.

Definition full_data (cs : list node) (rest : bytes) : bytes :=
le_encode 8 (count (NFull cs))
  ++ mjoin (encode_hash <$> take 16 (List.map enc cs))
  ++ default [] (List.map enc cs !! 16) ++ rest.

Lemma data_enc_full cs rest : data (enc (NFull cs) ++ rest) = full_data cs rest.
Proof. cbn [enc]. rewrite data_make_chunk. unfold full_data. by rewrite <-!app_assoc. Qed.

(** What is at the place of child [i]. *)
Definition child_link (cs : list node) (i : nat) : bytes :=
match cs !! i with
| Some c => if (i =? 16)%nat then enc c else encode_hash (enc c)
| None => []
end.

Lemma getChildAtIndex_enc cs i rest :
length cs = 17 → i < 17 →
∃ rest', getChildAtIndex (enc (NFull cs) ++ rest) i = Done (child_link cs i ++ rest').
Proof.
intros Hcs Hi. unfold getChildAtIndex, children. rewrite data_enc_full.
rewrite list_lookup_fmap, lookup_seq_lt by done. cbn [fmap option_fmap option_map plus].
unfold full_data, child_offset. rewrite <-drop_drop, drop_le_encode.
rewrite drop_links by (rewrite length_take, length_map, Hcs; lia).
unfold child_link. destruct (lookup_lt_is_Some_2 cs i) as [c Hc]; [lia|]. rewrite Hc.
destruct (i =? 16) eqn:E.
- apply Nat.eqb_eq in E as ->. rewrite drop_ge by (rewrite length_take, length_map; lia).
  cbn [fmap list_fmap]. change (mjoin []) with (@nil ascii). cbn [app].
  rewrite lookup_map, Hc. by eexists.
- apply Nat.eqb_neq in E.
  assert (take 16 (List.map enc cs) !! i = Some (enc c)) as Hl.
  { rewrite lookup_take_lt by lia. change (List.map enc cs) with (enc <$> cs).
    by rewrite list_lookup_fmap, Hc. }
  rewrite (drop_S _ _ _ Hl). cbn [fmap list_fmap].
  change (mjoin (?x :: ?xs)) with (x ++ mjoin xs). rewrite <-app_assoc. by eexists.
Qed.

(** *** Building full nodes *)

Lemma sum_elements_enc ms ts n :
Forall2 points_to ms ts →
(sum_elements ms n mod 2 ^ 64 = (n + foldr N.add 0 (List.map count ts)) mod 2 ^ 64)%N.
Proof.
intros HF. revert n. induction HF as [|m t ms ts [rest ->] _ IH]; intros n;
  cbn [sum_elements List.map foldr]; [by rewrite N.add_0_r|].
rewrite IH, child_elements_enc. unfold u64.
rewrite N.Div0.add_mod_idemp_l, N.add_assoc, <-(N.Div0.add_mod_idemp_l (n + _)).
by rewrite N.Div0.add_mod_idemp_r, N.Div0.add_mod_idemp_l.
Qed.

Lemma encode_links_enc ms ts :
Forall2 points_to ms ts → Forall small ts → encode_hash <$> ms = encode_hash <$> List.map enc ts.
Proof.
induction 1 as [|m t ms ts [rest ->] _ IH]; [done|]. intros [Ht Hts]%Forall_cons.
cbn [fmap list_fmap List.map]. by rewrite encode_hash_enc, <-IH.
Qed.

Lemma encode_full_enc ms ts :
length ts = 17 → Forall2 points_to ms ts → Forall small ts →
encode_full ms = Some (enc (NFull ts)).
Proof.
intros Hl HF Hs. unfold encode_full. pose proof (Forall2_length _ _ _ HF) as Hlen.
rewrite Hlen, Hl. cbn [Nat.eqb]. f_equal. cbn [enc]. f_equal. f_equal; [|f_equal].
- rewrite <-(le_encode_mod 8 (sum_elements _ _)). change (256 ^ N.of_nat 8)%N with (2 ^ 64)%N.
  rewrite (sum_elements_enc _ _ _ HF), N.add_0_l. apply (le_encode_mod 8).
- rewrite fmap_take, (encode_links_enc _ _ HF Hs), fmap_take. done.
- destruct (lookup_lt_is_Some_2 ms 16) as [m Hm]; [lia|].
  destruct (Forall2_lookup_l _ _ _ _ _ HF Hm) as (t & Ht & rest & ->).
  rewrite Hm. change (List.map enc ts) with (enc <$> ts). rewrite list_lookup_fmap, Ht.
  cbn [from_option id fmap option_fmap option_map]. apply contents_enc.
  exact (Forall_lookup_1 _ _ _ _ Hs Ht).
Qed.

Lemma count_insert cs i o c :
cs !! i = Some o →
(count (NFull (<[i := c]> cs)) + count o = count (NFull cs) + count c)%N.
Proof.
cbn [count]. revert i. induction cs as [|x cs IH]; intros [|i] Ho; try done; cbn [List.map foldr].
- injection Ho as ->. change (<[0 := c]> (o :: cs)) with (c :: cs). cbn [List.map foldr]. lia.
- change (<[S i := c]> (x :: cs)) with (x :: <[i := c]> cs). cbn [List.map foldr].
  specialize (IH i Ho). lia.
Qed.

Lemma count_update n c o n' :
(n' + o = n + c)%N →
le_encode 8 (u64 (n mod 2 ^ 64 + c mod 2 ^ 64 + (2 ^ 64 - o mod 2 ^ 64))) = le_encode 8 n'.
Proof.
intros E. unfold u64. change (2 ^ 64)%N with (256 ^ N.of_nat 8)%N. rewrite (le_encode_mod 8).
rewrite <-(le_encode_mod 8), <-(le_encode_mod 8 n'). f_equal.
change (256 ^ N.of_nat 8)%N with (2 ^ 64)%N.
pose proof (N.Div0.div_mod n (2 ^ 64)). pose proof (N.Div0.div_mod c (2 ^ 64)).
pose proof (N.Div0.div_mod o (2 ^ 64)). pose proof (N.mod_lt o (2 ^ 64) ltac:(done)).
set (x := (n mod 2 ^ 64 + c mod 2 ^ 64 + (2 ^ 64 - o mod 2 ^ 64))%N) in *.
assert (n' + 2 ^ 64 + 2 ^ 64 * (o / 2 ^ 64)
        = x + (n / 2 ^ 64) * 2 ^ 64 + (c / 2 ^ 64) * 2 ^ 64)%N as Hx by (subst x; lia).
rewrite <-(N.Div0.mod_add x (n / 2 ^ 64)), <-(N.Div0.mod_add _ (c / 2 ^ 64)), <-Hx.
replace (n' + 2 ^ 64 + 2 ^ 64 * (o / 2 ^ 64))%N with (n' + (1 + o / 2 ^ 64) * 2 ^ 64)%N by lia.
by rewrite N.Div0.mod_add.
Qed.

Lemma contents_encode_hash m rest : contents (encode_hash m ++ rest) = encode_hash m.
Proof. apply contents_make_chunk. rewrite length_chunk_hash. done. Qed.

Lemma numBytes_encode_hash m rest : numBytes (encode_hash m ++ rest) = N.of_nat kHashSize.
Proof. unfold encode_hash. rewrite numBytes_make_chunk; rewrite length_chunk_hash; done. Qed.

(** The capacity [setChildAtIndex] computes when a link replaces a link. *)
Lemma capacity_same k :
(N.of_nat (kMetaLength + 8 + kHashSize * 16 + k) < 2 ^ 32)%N →
N.to_nat (u32 (N.of_nat (kMetaLength + 8 + kHashSize * 16 + k) + (2 ^ 32 - N.of_nat kMetaLength)
  + N.of_nat kHashSize + (2 ^ 32 - N.of_nat kHashSize))) = 8 + kHashSize * 16 + k.
Proof.
intros Hk. unfold u32.
replace (_ + _ + _ + _)%N with (N.of_nat (8 + kHashSize * 16 + k) + 2 * 2 ^ 32)%N.
- rewrite N.Div0.mod_add, N.mod_small by lia. lia.
- unfold kHashSize, kMetaLength, kByteLength in *. simpl in *. lia.
Qed.

Lemma setChildAtIndex_enc cs i c o rest crest orest :
length cs = 17 → i < 17 → cs !! i = Some o → small (NFull cs) → small c →
setChildAtIndex (enc (NFull cs) ++ rest) i (enc c ++ crest) (enc o ++ orest)
= Done (enc (NFull (<[i := c]> cs))).
Proof.
intros Hcs Hi Ho Hsm Hc. unfold setChildAtIndex.
destruct (getChildAtIndex_enc cs i rest Hcs Hi) as [rest' ->]. cbn [mbind outcome_bind].
rewrite read64_enc, !child_elements_enc, numBytes_enc, data_enc_full by done.
rewrite length_enc_full by done. f_equal. cbn [enc]. f_equal.
f_equal; [by apply count_update, count_insert|]. unfold full_data. rewrite drop_le_encode.
assert (length (List.map enc cs) = 17) as Hm by (by rewrite length_map).
rewrite take_links by (rewrite length_take; lia). rewrite take_take, Nat.min_l by lia.
change (List.map enc (<[i := c]> cs)) with (enc <$> <[i := c]> cs).
rewrite list_fmap_insert. change (enc <$> cs) with (List.map enc cs).
set (es := List.map enc cs) in *. destruct (Nat.eqb_spec i 16) as [->|Hne].
- rewrite contents_enc by done. cbn [Nat.ltb Nat.leb app].
  rewrite take_insert, list_lookup_insert_eq, decide_False, app_nil_r by lia. done.
- assert (i < 16) as Hi' by lia. rewrite (proj2 (Nat.ltb_lt i 16)) by done.
  rewrite <-(app_nil_r (encode_hash (enc c ++ crest))), contents_encode_hash.
  rewrite encode_hash_enc by done.
  rewrite take_insert_lt, list_lookup_insert_ne by lia.
  rewrite list_fmap_insert, insert_take_drop by (rewrite length_fmap, length_take; lia).
  rewrite join_app. change (mjoin (?x :: ?xs)) with (x ++ mjoin xs).
  unfold child_link. rewrite Ho, (proj2 (Nat.eqb_neq i 16)) by done.
  rewrite !numBytes_encode_hash, capacity_same.
  2: { unfold small in Hsm. by rewrite length_enc_full in Hsm. }
  rewrite <-drop_drop, drop_le_encode, drop_links by (rewrite length_take; lia).
  rewrite (app_assoc (mjoin (encode_hash <$> drop (S i) _))), take_app_length'.
  2: { rewrite length_app, length_join_links, length_drop, length_take, Hm, Nat.min_l by lia.
    unfold kHashSize, kMetaLength, kByteLength. simpl. lia. }
  rewrite <-!app_assoc. f_equal; [|f_equal; f_equal].
  + by rewrite <-fmap_take, take_take, Nat.min_l by lia.
  + by rewrite fmap_drop.
Qed.
End Encoding.
