(* ===== verification/Trie.v ===== *)
(** * [ledger/ledgerdb/mpt/trie.cc], [trie.h], [mpt_delta.h]

    The Merkle Patricia trie: lookup, insertion, removal, the buffer of new
    chunks and its commit, and proofs.  The store of chunks is an interface,
    which the store under [DB] implements. *)

From S2P Require Import Prelude Cpp Hash Chunk DB MPTNode.

Open Scope nat_scope.

(** ** The store

[DB::Get(const Hash&)] and [DB::Put(const Hash&, const Chunk&)]. *)
Class ChunkStore (D : Type) := {
  cs_get : D → bytes → chunk;
  cs_put : D → bytes → bytes → D;
}.
Class ChunkStoreLaws (D : Type) `{ChunkStore D} : Prop := {
  cs_get_put d h m : cs_get (cs_put d h m) h = Some (contents m);
  cs_get_put_ne d h h' m : h ≠ h' → cs_get (cs_put d h m) h' = cs_get d h';
}.

#[export] Instance gmap_ChunkStore : ChunkStore (gmap bytes bytes) := {|
  cs_get d h := d !! h;
  cs_put d h m := <[h := contents m]> d;
|}.
#[export] Instance gmap_ChunkStoreLaws : ChunkStoreLaws (gmap bytes bytes).
Proof.
  split; intros; cbn; [apply lookup_insert_eq|by apply lookup_insert_ne].
Qed.

(** The store of a [DB] under its digest cache; for a user that follows digests it has
    stored, the cache is transparent ([DB.cache_transparent]).  It is no instance,
    since [gmap] is such a store as well. *)
Definition rocks_ChunkStore `{RocksDB R} : ChunkStore R := {|
  cs_get := rocks_get;
  cs_put r h m := rocks_put r h (contents m);
|}.
Lemma rocks_ChunkStoreLaws `{RocksDBLaws R} : @ChunkStoreLaws R rocks_ChunkStore.
Proof. split; intros; cbn; [apply rocks_get_put|by apply rocks_get_put_ne]. Qed.

(** ** The buffer of new chunks *)

(** [MPTDelta::dirty_] *)
Abbreviation delta := (gmap bytes bytes).

(** [MPTDelta::CreateChunk] *)
Definition CreateChunk (dirty : delta) (h c : bytes) : delta :=
  match dirty !! h with None => <[h := c]> dirty | Some _ => dirty end.

(** [MPTDelta::GetChunk] *)
Definition DeltaGetChunk (dirty : delta) (h : bytes) : chunk := dirty !! h.

(** Using a null chunk is undefined behaviour. *)
Definition deref (c : chunk) : outcome bytes :=
  match c with Some m => Done m | None => Stop Undefined end.

(** [(size_t) key[pos]], used to index the seventeen children. *)
Definition key_index (key : bytes) (pos : nat) : outcome nat :=
  match key !! pos with
  | Some c => if (N_of_ascii c <? 17)%N then Done (N.to_nat (N_of_ascii c)) else Stop Undefined
  | None => if (pos =? length key)%nat then Done 0 else Stop Undefined
  end.

Section Trie.
Context `{Blake2b, ChunkStore D}.

Definition nil_hash : bytes := chunk_hash nil_chunk.

(** [CreateChunk] followed by [GetChunk] of the same digest. *)
Definition keep (dirty : delta) (c : bytes) : chunk * delta :=
let h := chunk_hash c in
let dirty := CreateChunk dirty h c in
(DeltaGetChunk dirty h, dirty).

(** [Trie::GetHashNodeChild] *)
Definition GetHashNodeChild (d : D) (dirty : delta) (m : bytes) : bytes :=
if is_type kMPTHash m then
  match DeltaGetChunk dirty (childHash m) with
  | Some c => c
  | None => match cs_get d (childHash m) with Some c => c | None => nil_chunk end
  end
else nil_chunk.

(** The comparison of a short node's key with the key from [pos] on. *)
Definition short_match (node_key key : bytes) (pos : nat) : outcome bool :=
if (pos <=? length key)%nat && (length key - pos <? length node_key)%nat then Done false
else s ← substr key pos (Some (length node_key)); Done (bool_decide (node_key = s)).

(** [Trie::TryGet] *)
Fixpoint TryGet (fuel : nat) (d : D) (m key : bytes) (pos : nat) : outcome bytes :=
match fuel with
| O => Stop OutOfFuel
| S fuel =>
    match type m with
    | Some kMPTFull =>
        index ← key_index key pos;
        child ← getChildAtIndex m index;
        TryGet fuel d child key (pos + 1)
    | Some kMPTShort =>
        b ← short_match (getKey m) key pos;
        if b : bool then TryGet fuel d (childNode m) key (pos + length (getKey m))
        else Done []
    | Some kMPTHash =>
        match cs_get d (childHash m) with
        | Some c => TryGet fuel d c key pos
        | None => TryGet fuel d nil_chunk key pos
        end
    | Some kMPTValue => Done (getVal m)
    | _ => Done []
    end
end.

(** [Trie::Get] *)
Definition Get (fuel : nat) (d : D) (root key : bytes) : outcome bytes :=
TryGet fuel d root (KeybytesToHex key) 0.

(** The "Create branch" case of [Trie::Insert]; [ins] is [Insert]. *)
Definition create_branch (ins : delta → bytes → bytes → bytes → outcome (chunk * delta))
  (d : D) (dirty : delta) (m key value : bytes) : outcome (chunk * delta) :=
let ori_key := getKey m in
let match_len := PrefixLen key ori_key in
new_ori_key ← substr ori_key (match_len + 1) None;
new_key ← substr key (match_len + 1) None;
let child_chunk := if is_type kMPTHash (childNode m)
                   then GetHashNodeChild d dirty (childNode m) else childNode m in
'(c, dirty) ← ins dirty nil_chunk new_ori_key child_chunk;
index_o ← key_index ori_key match_len;
let branch_child := <[index_o := c]> (replicate 17 (Some nil_chunk)) in
'(c, dirty) ← ins dirty nil_chunk new_key value;
index_u ← key_index key match_len;
nodes ← mapM deref (<[index_u := c]> branch_child);
branch_node ← deref (encode_full nodes);
if (match_len =? 0)%nat then Done (keep dirty branch_node)
else
  let new_root := encode_short (take match_len key) branch_node in
  Done (keep (CreateChunk dirty (chunk_hash branch_node) branch_node) new_root).

(** [Trie::Insert] *)
Fixpoint Insert (fuel : nat) (d : D) (dirty : delta) (m key value : bytes)
  : outcome (chunk * delta) :=
match key with
| [] => Done (Some value, dirty)
| _ =>
    match fuel with
    | O => Stop OutOfFuel
    | S fuel =>
        match type m with
        | Some kMPTFull =>
            index ← key_index key 0;
            child ← getChildAtIndex m index;
            let ori_child := if (index =? 16)%nat then child
                             else GetHashNodeChild d dirty child in
            '(new_child, dirty) ← Insert fuel d dirty ori_child (drop 1 key) value;
            new_child ← deref new_child;
            new_root ← setChildAtIndex m index new_child ori_child;
            Done (keep dirty new_root)
        | Some kMPTShort =>
            let match_len := PrefixLen key (getKey m) in
            if (match_len =? length (getKey m))%nat then
              '(new_child, dirty) ← Insert fuel d dirty (childNode m) (drop match_len key) value;
              new_child ← deref new_child;
              Done (keep dirty (encode_short (getKey m) new_child))
            else create_branch (Insert fuel d) d dirty m key value
        | Some kMPTHash => Insert fuel d dirty (GetHashNodeChild d dirty m) key value
        | Some kMPTNil => Done (keep dirty (encode_short key value))
        | _ => Done (None, dirty)
        end
    end
end.

(** ** Commit *)

(** "commit current" *)
Definition commit_current (d : D) (dirty : delta) (m : bytes) : D :=
let h := chunk_hash m in
match DeltaGetChunk dirty h with
| Some c => if decide (h = nil_hash) then d else cs_put d h c
| None => d
end.

(** The loop over the children of a full node; [commit] is [Commit]. *)
Fixpoint commit_children (commit : D → bytes → outcome D) (d : D) (cs : list bytes) : outcome D :=
match cs with
| [] => Done d
| c :: cs =>
    d ← (if is_type kMPTHash c && negb (bool_decide (childHash c = nil_hash))
         then commit d c else Done d);
    commit_children commit d cs
end.

(** [MPTDelta::Commit] *)
Fixpoint Commit (fuel : nat) (dirty : delta) (d : D) (m : bytes) : outcome D :=
match fuel with
| O => Stop OutOfFuel
| S fuel =>
    match type m with
    | Some kMPTFull =>
        d ← commit_children (Commit fuel dirty) d (children m);
        Done (commit_current d dirty m)
    | Some kMPTShort =>
        d ← Commit fuel dirty d (childNode m);
        Done (commit_current d dirty m)
    | Some kMPTHash =>
        match DeltaGetChunk dirty (childHash m) with
        | Some c => Commit fuel dirty d c
        | None => Done d
        end
    | _ => Done d
    end
end.

(** [Trie::SetNodeForHash] *)
Definition SetNodeForHash (d : D) (root_hash : bytes) : bytes :=
if decide (root_hash = nil_hash) then nil_chunk
else match cs_get d root_hash with Some c => c | None => nil_chunk end.

(** [Trie::Set(key, val)]; the buffer is empty before and cleared afterwards. *)
Definition Set_one (fuel : nat) (d : D) (root key val : bytes) : outcome (D * bytes) :=
'(c, dirty) ← Insert fuel d ∅ root (KeybytesToHex key) (encode_value val);
new_root ← deref c;
d ← Commit fuel dirty d new_root;
Done (d, chunk_hash new_root).

(** The loop of [Trie::Set(keys, vals)]. *)
Fixpoint insert_all (fuel : nat) (d : D) (dirty : delta) (root : bytes) (kvs : list (bytes * bytes))
  : outcome (bytes * delta) :=
match kvs with
| [] => Done (root, dirty)
| (key, val) :: kvs =>
    '(c, dirty) ← Insert fuel d dirty root (KeybytesToHex key) (encode_value val);
    new_root ← deref c;
    insert_all fuel d dirty new_root kvs
end.

(** [Trie::Set(keys, vals)], the two vectors as one list of pairs. *)
Definition Set_all (fuel : nat) (d : D) (root : bytes) (kvs : list (bytes * bytes))
  : outcome (D * bytes) :=
match kvs with
| [] => Done (d, chunk_hash root)
| _ =>
    '(new_root, dirty) ← insert_all fuel d ∅ root kvs;
    d ← Commit fuel dirty d new_root;
    Done (d, chunk_hash new_root)
end.

(** [Trie::Trie(db, keys, vals)] *)
Definition new_trie (fuel : nat) (d : D) (kvs : list (bytes * bytes)) : outcome (D * bytes) :=
'(d, root_hash) ← Set_all fuel d nil_chunk kvs;
Done (d, SetNodeForHash d root_hash).

(** ** Removal *)

(** The loop that looks for a single child: [-1] before the first child that
is not nil, [-2] after the second. *)
Fixpoint single_child (cs : list bytes) (i : Z) (pos : Z) : Z :=
match cs with
| [] => pos
| c :: cs =>
    single_child cs (i + 1)
      (if is_type kMPTNil c then pos else if (pos =? -1)%Z then i else -2)%Z
end.

(** "change to short node if only one child left" *)
Definition collapse (d : D) (dirty : delta) (new_root : bytes) : outcome bytes :=
let pos := single_child (children new_root) 0 (-1) in
if (pos <? 0)%Z then Done new_root
else
  hash_node ← getChildAtIndex new_root (Z.to_nat pos);
  if (pos =? 16)%Z then Done (encode_short [char_of_Z 16] hash_node)
  else
    let child_node := GetHashNodeChild d dirty hash_node in
    if is_type kMPTShort child_node
    then Done (encode_short (char_of_Z pos :: getKey child_node) (childNode child_node))
    else Done (encode_short [] hash_node).

(** [Trie::TryRemove]; its parameter [prefix] is never read. *)
Fixpoint TryRemove (fuel : nat) (d : D) (dirty : delta) (m key : bytes) : outcome (chunk * delta) :=
match fuel with
| O => Stop OutOfFuel
| S fuel =>
    match type m with
    | Some kMPTFull =>
        index ← key_index key 0;
        child ← getChildAtIndex m index;
        let ori_child := if (index =? 16)%nat then child
                         else GetHashNodeChild d dirty child in
        key ← substr key 1 None;
        '(new_child, dirty) ← TryRemove fuel d dirty ori_child key;
        new_child ← deref new_child;
        new_root ← setChildAtIndex m index new_child ori_child;
        new_root ← collapse d dirty new_root;
        Done (keep dirty new_root)
    | Some kMPTShort =>
        let ori_key := getKey m in
        let match_len := PrefixLen key ori_key in
        if (match_len <? length ori_key)%nat then Done (Some m, dirty)
        else if (match_len =? length key)%nat then Done (Some nil_chunk, dirty)
        else
          '(new_child, dirty) ← TryRemove fuel d dirty (childNode m) (drop match_len key);
          new_child ← deref new_child;
          Done (keep dirty
            (if is_type kMPTShort new_child
             then encode_short (ori_key ++ getKey new_child) (childNode new_child)
             else encode_short ori_key new_child))
    | Some kMPTHash => TryRemove fuel d dirty (GetHashNodeChild d dirty m) key
    | _ => Done (Some nil_chunk, dirty)
    end
end.

(** [Trie::Remove] *)
Definition Remove (fuel : nat) (d : D) (root key : bytes) : outcome (D * bytes) :=
'(c, dirty) ← TryRemove fuel d ∅ root (KeybytesToHex key);
new_root ← deref c;
d ← Commit fuel dirty d new_root;
Done (d, chunk_hash new_root).

(** ** Proofs *)

(** [MPTProof] *)
Record MPTProof := mkMPTProof {
  proof_size : N;
  value_ : bytes;
  map_chunks : list bytes;
  map_pos : list nat;
}.
Definition empty_proof : MPTProof := mkMPTProof 0 [] [] [].

(** [MPTProof::AppendProof] *)
Definition AppendProof (p : MPTProof) (m : bytes) (pos : nat) : MPTProof :=
mkMPTProof (u64 (proof_size p + numBytes m)) (value_ p)
  (map_chunks p ++ [contents m]) (map_pos p ++ [pos]).
(** [MPTProof::SetValue] *)
Definition SetValue (p : MPTProof) (v : bytes) : MPTProof :=
mkMPTProof (proof_size p) v (map_chunks p) (map_pos p).

(** [Trie::TryGetProof] *)
Fixpoint TryGetProof (fuel : nat) (d : D) (m key : bytes) (pos : nat) (p : MPTProof)
  : outcome MPTProof :=
match fuel with
| O => Stop OutOfFuel
| S fuel =>
    match type m with
    | Some kMPTFull =>
        index ← key_index key pos;
        let p := AppendProof p m index in
        child ← getChildAtIndex m index;
        TryGetProof fuel d child key (pos + 1) p
    | Some kMPTShort =>
        let p := AppendProof p m 0 in
        b ← short_match (getKey m) key pos;
        if b : bool then TryGetProof fuel d (childNode m) key (pos + length (getKey m)) p
        else Done (SetValue p [])
    | Some kMPTHash =>
        match cs_get d (childHash m) with
        | Some c => TryGetProof fuel d c key pos p
        | None => TryGetProof fuel d nil_chunk key pos p
        end
    | Some kMPTValue => Done (SetValue p (getVal m))
    | _ => Done p
    end
end.

(** [Trie::GetProof] *)
Definition Trie_GetProof (fuel : nat) (d : D) (root key : bytes) : outcome MPTProof :=
TryGetProof fuel d root (KeybytesToHex key) 0 empty_proof.

(** The loop of [MPTProof::VerifyProof]; the pair is a chunk of the proof, with
the terminator of its string, and its position. *)
Fixpoint verify_chunks (value key target : bytes) (pos : nat) (cs : list (bytes * nat))
  : outcome bool :=
match cs with
| [] => Done true
| (nodestr, map_pos) :: cs =>
    let m := nodestr ++ ["000"%char] in
    if hash_neqb (Some target) (Some (chunk_hash m)) then Done false
    else if is_type kMPTFull m then
      hashchk ← getChildAtIndex m map_pos;
      if (map_pos =? 16)%nat then
        if decide (getVal hashchk ≠ value) then Done false
        else verify_chunks value key target (S pos) cs
      else verify_chunks value key (childHash hashchk) (S pos) cs
    else
      match value with
      | _ :: _ =>
          let child := childNode m in
          if is_type kMPTHash child
          then verify_chunks value key (childHash child) (pos + length (getKey m)) cs
          else if decide (getVal child ≠ value) then Done false
          else verify_chunks value key target (pos + length (getKey m)) cs
      | [] =>
          curr_key ← substr key pos None;
          if (PrefixLen curr_key (getKey m) =? length (getKey m))%nat
          then verify_chunks value key target pos cs
          else Done false
      end
end.

(** [MPTProof::VerifyProof]; the encoded key it computes is not used. *)
Definition VerifyProof (p : MPTProof) (digest key : bytes) : outcome bool :=
verify_chunks (value_ p) key digest 0 (zip (map_chunks p) (map_pos p)).
End Trie.
