(* ===== verification/TrieSpec.v ===== *)
(** * What the trie promises: a map from keys to values

    The abstract trees of [MPTNode] with lookup, insertion and removal, the
    shape every tree built by the code has, and the laws of a map.  Keys are
    sequences of nibbles closed by a terminator, so no key is a prefix of
    another. *)

From S2P Require Import Prelude Cpp Hash Chunk MPTNode.

Open Scope nat_scope.

(** ** Terminated keys *)

Definition nibble (c : ascii) : Prop := (N_of_ascii c < 16)%N.
Definition terminator : ascii := char_of_Z 16.
Definition idx (c : ascii) : nat := N.to_nat (N_of_ascii c).

Inductive tkey : bytes → Prop :=
  | tkey_end : tkey [terminator]
  | tkey_cons c k : nibble c → tkey k → tkey (c :: k).

Lemma idx_inj a b : idx a = idx b → a = b.
Proof. unfold idx. intros E%N2Nat.inj. by apply (inj N_of_ascii). Qed.
Lemma idx_nibble c : nibble c → idx c < 16.
Proof. unfold nibble, idx. lia. Qed.
Lemma idx_terminator : idx terminator = 16.
Proof. reflexivity. Qed.

Lemma tkey_nonnil k : tkey k → k ≠ [].
Proof. by intros []. Qed.

Lemma tkey_inv c k : tkey (c :: k) → (c = terminator ∧ k = []) ∨ (nibble c ∧ tkey k).
Proof. intros Hk. inversion Hk; subst; [left|right]; done. Qed.

Lemma terminator_not_nibble : ¬ nibble terminator.
Proof. unfold nibble. vm_compute. discriminate. Qed.

Lemma tkey_not_nibbles k : tkey k → ¬ Forall nibble k.
Proof.
  induction 1; intros [? ?]%Forall_cons; [by apply terminator_not_nibble|auto].
Qed.

Lemma tkey_app p k : tkey (p ++ k) → k ≠ [] → Forall nibble p ∧ tkey k.
Proof.
  induction p as [|c p IH]; cbn [app]; [done|]. intros [[_ E]|[Hc Hk]]%tkey_inv Hne.
  - by apply app_nil in E as [_ ?].
  - destruct (IH Hk Hne). split; [by constructor|done].
Qed.

(** What remains of a key below a piece of nibbles. *)
Lemma tkey_below p k : Forall nibble p → tkey (p ++ k) → tkey k.
Proof.
  intros Hp Hk. destruct k as [|c k]; [|by apply tkey_app in Hk as [_ ?]].
  rewrite app_nil_r in Hk. by apply tkey_not_nibbles in Hk.
Qed.

Lemma tkey_app_2 p k : Forall nibble p → tkey k → tkey (p ++ k).
Proof. induction 1; [done|]. intros. cbn. constructor; auto. Qed.

(** No key is a proper prefix of another. *)
Lemma tkey_prefix k r : tkey k → tkey (k ++ r) → r = [].
Proof.
  induction 1 as [|c k Hc Hk IH]; cbn [app]; intros [[E1 E2]|[Hc' Hk']]%tkey_inv; try done.
  - subst. by apply terminator_not_nibble in Hc.
  - auto.
Qed.

Lemma PrefixLen_spec k k' :
  ∃ p a b, k = p ++ a ∧ k' = p ++ b ∧ PrefixLen k k' = length p ∧
    (∀ x a' y b', a = x :: a' → b = y :: b' → x ≠ y).
Proof.
  revert k'. induction k as [|x k IH]; intros [|y k']; cbn [PrefixLen].
  1-3: eexists [], _, _; split_and!; [done..|by intros].
  destruct (decide (x = y)) as [->|Hne].
  - destruct (IH k') as (p & a & b & -> & -> & -> & Hd). by exists (y :: p), a, b.
  - eexists [], _, _. split_and!; [done..|]. by intros x' a' y' b' [= -> ->] [= -> ->].
Qed.

(** ** Lookup, insertion and removal on trees *)

Fixpoint nlookup (t : node) (k : bytes) : option bytes :=
  match t with
  | NNil => None
  | NValue v => match k with [] => Some v | _ => None end
  | NShort k' c =>
      if decide (take (length k') k = k') then nlookup c (drop (length k') k) else None
  | NFull cs =>
      match k with
      | [] => None
      | c :: k => default None (List.map (λ t, nlookup t k) cs !! idx c)
      end
  end.

(** A tree under a piece of key. *)
Definition hang (k : bytes) (c : node) : node :=
  match k with [] => c | _ => NShort k c end.

(** The node of two keys that differ in their first symbols [x] and [y]. *)
Definition branch (y : ascii) (o : node) (x : ascii) (u : node) : node :=
  NFull (<[idx x := u]> (<[idx y := o]> (replicate 17 NNil))).

Fixpoint ninsert (t : node) (k v : bytes) : node :=
  match k with
  | [] => NValue v
  | c0 :: k0 =>
      match t with
      | NNil | NValue _ => NShort k (NValue v)
      | NShort k' c =>
          let l := PrefixLen k k' in
          if (l =? length k')%nat then NShort k' (ninsert c (drop l k) v)
          else match drop l k, drop l k' with
               | x :: a, y :: b =>
                   hang (take l k) (branch y (hang b c) x (hang a (NValue v)))
               | _, _ => t
               end
      | NFull cs =>
          NFull (<[idx c0 := default NNil (List.map (λ t, ninsert t k0 v) cs !! idx c0)]> cs)
      end
  end.

Fixpoint nremove (t : node) (k : bytes) : node :=
  match t with
  | NNil | NValue _ => NNil
  | NShort k' c =>
      if decide (take (length k') k = k') then
        match drop (length k') k with
        | [] => NNil
        | k => NShort k' (nremove c k)
        end
      else t
  | NFull cs =>
      match k with
      | [] => t
      | c :: k => NFull (<[idx c := default NNil (List.map (λ t, nremove t k) cs !! idx c)]> cs)
      end
  end.

(** ** The shape of a tree *)

Definition value_ok (v : bytes) : Prop := (N.of_nat (length v) < 2 ^ 31)%N.
Definition key_ok (k : bytes) : Prop := (N.of_nat (length k) < 2 ^ 30)%N.

Inductive wf : node → Prop :=
  | wf_nil : wf NNil
  | wf_leaf k v : tkey k → key_ok k → value_ok v → wf (NShort k (NValue v))
  | wf_ext k cs : k ≠ [] → Forall nibble k → key_ok k → wf (NFull cs) → wf (NShort k (NFull cs))
  | wf_full cs :
      length cs = 17 → (∀ i c, i < 16 → cs !! i = Some c → wf c) →
      (∀ c, cs !! 16 = Some c → c = NNil ∨ ∃ v, c = NValue v ∧ value_ok v) → wf (NFull cs).

(** What a full node may have at index [i]. *)
Definition child_ok (i : nat) (c : node) : Prop :=
  if (i =? 16)%nat then c = NNil ∨ ∃ v, c = NValue v ∧ value_ok v else wf c.

Lemma wf_full_iff cs :
  wf (NFull cs) ↔ length cs = 17 ∧ ∀ i c, cs !! i = Some c → child_ok i c.
Proof.
  split.
  - intros Hw. inversion Hw as [| | |? Hl Hw1 Hw2]; subst. split; [done|]. intros i c Hc.
    pose proof (lookup_lt_Some _ _ _ Hc). unfold child_ok.
    destruct (Nat.eqb_spec i 16) as [->|]; [auto|]. apply (Hw1 i); [lia|done].
  - intros [Hl Hc]. constructor; [done|..].
    + intros i c Hi Hic. specialize (Hc i c Hic). unfold child_ok in Hc.
      by rewrite (proj2 (Nat.eqb_neq i 16)) in Hc by lia.
    + intros c Hic. exact (Hc 16 c Hic).
Qed.

Lemma wf_full_insert cs i c : wf (NFull cs) → child_ok i c → wf (NFull (<[i := c]> cs)).
Proof.
  rewrite !wf_full_iff, length_insert. intros [Hl Hc] Hi. split; [done|].
  intros j c' [(-> & -> & _)|[_ Hj]]%list_lookup_insert_Some; [done|by apply Hc].
Qed.

Lemma wf_branch x o y u :
  child_ok (idx x) u → child_ok (idx y) o → wf (branch y o x u).
Proof.
  intros. apply wf_full_insert; [|done]. apply wf_full_insert; [|done].
  apply wf_full_iff. rewrite length_replicate. split; [done|].
  intros i c [-> _]%lookup_replicate. unfold child_ok. case_match; [by left|constructor].
Qed.

Lemma key_ok_app p k : key_ok (p ++ k) → key_ok p ∧ key_ok k.
Proof. unfold key_ok. rewrite length_app. lia. Qed.
Lemma key_ok_cons c k : key_ok (c :: k) → key_ok k.
Proof. unfold key_ok. simpl. lia. Qed.

(** A leaf that lost its first symbol. *)
Lemma leaf_ok x k v :
  tkey (x :: k) → key_ok k → value_ok v → child_ok (idx x) (hang k (NValue v)).
Proof.
  intros [[-> ->]|[Hx Hk]]%tkey_inv Hok Hv; unfold child_ok.
  - rewrite idx_terminator. right. by exists v.
  - rewrite (proj2 (Nat.eqb_neq _ 16)) by (pose proof (idx_nibble x Hx); lia).
    pose proof (tkey_nonnil _ Hk). destruct k; [done|]. by constructor.
Qed.

Lemma ext_ok y k cs :
  nibble y → Forall nibble k → key_ok k → wf (NFull cs) → child_ok (idx y) (hang k (NFull cs)).
Proof.
  intros Hy Hk Hok Hw. unfold child_ok.
  rewrite (proj2 (Nat.eqb_neq _ 16)) by (pose proof (idx_nibble y Hy); lia).
  destruct k; [done|]. by constructor.
Qed.

Lemma hang_ok k cs :
  Forall nibble k → key_ok k → wf (NFull cs) → wf (hang k (NFull cs)).
Proof. intros. destruct k; [done|]. by constructor. Qed.

(** ** Insertion and removal, one equation per case *)

Lemma tkey_take_prefix k k' : tkey k' → tkey k → take (length k') k = k' → k = k'.
Proof.
  intros Hk' Hk E. rewrite <-(take_drop (length k') k), E in Hk |- *.
  by rewrite (tkey_prefix _ _ Hk' Hk), app_nil_r.
Qed.

Lemma ninsert_full cs c k v o :
  cs !! idx c = Some o →
  ninsert (NFull cs) (c :: k) v = NFull (<[idx c := ninsert o k v]> cs).
Proof.
  intros Ho. cbn [ninsert]. rewrite lookup_map.
  by rewrite Ho.
Qed.

Lemma nlookup_full cs c k o : cs !! idx c = Some o → nlookup (NFull cs) (c :: k) = nlookup o k.
Proof.
  intros Ho. cbn [nlookup]. rewrite lookup_map.
  by rewrite Ho.
Qed.

Lemma nlookup_hang k c k' : nlookup (hang k c) k' = nlookup (NShort k c) k'.
Proof. destruct k; [|done]. cbn [nlookup hang length]. by rewrite take_0, drop_0. Qed.

Lemma nlookup_short_app k c r : nlookup (NShort k c) (k ++ r) = nlookup c r.
Proof.
  cbn [nlookup]. rewrite take_app_length, drop_app_length. by rewrite decide_True by done.
Qed.

Lemma ninsert_short_same k' c k v :
  k' ++ k ≠ [] → ninsert (NShort k' c) (k' ++ k) v = NShort k' (ninsert c k v).
Proof.
  intros Hne. cbn [ninsert]. destruct (k' ++ k) eqn:E; [done|]. rewrite <-E.
  assert (PrefixLen (k' ++ k) k' = length k') as ->.
  { clear. induction k' as [|x k' IH]; [by destruct k|]. cbn [app PrefixLen length].
    by rewrite decide_True, IH. }
  by rewrite Nat.eqb_refl, drop_app_length.
Qed.

Lemma ninsert_short_branch p y b c x a v :
  x ≠ y →
  ninsert (NShort (p ++ y :: b) c) (p ++ x :: a) v
  = hang p (branch y (hang b c) x (hang a (NValue v))).
Proof.
  intros Hne. cbn [ninsert]. destruct (p ++ x :: a) eqn:E; [by destruct p|]. rewrite <-E.
  assert (PrefixLen (p ++ x :: a) (p ++ y :: b) = length p) as ->.
  { clear -Hne. induction p as [|z p IH]; cbn [app PrefixLen length].
    - by rewrite decide_False.
    - by rewrite decide_True, IH. }
  rewrite (proj2 (Nat.eqb_neq _ _)) by (rewrite length_app; simpl; lia).
  by rewrite take_app_length, !drop_app_length.
Qed.

(** The two cases of a short node. *)
Lemma short_cases k k' :
  tkey k → (tkey k' ∨ Forall nibble k') → k' ≠ [] →
  (∃ r, k = k' ++ r) ∨ (∃ p x a y b, k = p ++ x :: a ∧ k' = p ++ y :: b ∧ x ≠ y).
Proof.
  intros Hk Hk' Hne. destruct (PrefixLen_spec k k') as (p & a & b & -> & -> & _ & Hd).
  destruct b as [|y b]; [left; exists a; by rewrite app_nil_r|].
  destruct a as [|x a]; [|right; exists p, x, a, y, b; by eauto].
  rewrite app_nil_r in Hk. destruct Hk' as [Hk'|Hk'].
  - by apply (tkey_prefix p) in Hk'.
  - apply Forall_app in Hk' as [Hp _]. by apply tkey_not_nibbles in Hk.
Qed.

(** ** Insertion keeps the shape and is insertion into a map *)

Lemma child_lookup (cs : list node) c : length cs = 17 → idx c < 17 → ∃ o, cs !! idx c = Some o.
Proof. intros Hl Hi. apply lookup_lt_is_Some_2. lia. Qed.

Lemma tkey_idx c k : tkey (c :: k) → idx c < 17.
Proof.
  intros [[-> _]|[Hc _]]%tkey_inv; [rewrite idx_terminator; lia|].
  pose proof (idx_nibble c Hc). lia.
Qed.

Lemma wf_child cs c k o :
  wf (NFull cs) → tkey (c :: k) → cs !! idx c = Some o →
  (k = [] ∧ idx c = 16 ∧ (o = NNil ∨ ∃ v, o = NValue v ∧ value_ok v)) ∨
  (tkey k ∧ idx c < 16 ∧ wf o).
Proof.
  intros [_ Hok]%wf_full_iff Hk Ho. specialize (Hok _ _ Ho). unfold child_ok in Hok.
  apply tkey_inv in Hk as [[-> ->]|[Hc Hk]]; [left|right].
  - by rewrite idx_terminator in Hok.
  - pose proof (idx_nibble c Hc). rewrite (proj2 (Nat.eqb_neq _ 16)) in Hok by lia. done.
Qed.

Lemma branch_wf p y b c x a v :
  Forall nibble p → key_ok p → key_ok a → tkey (x :: a) → value_ok v → x ≠ y →
  child_ok (idx y) (hang b c) →
  wf (hang p (branch y (hang b c) x (hang a (NValue v)))).
Proof.
  intros. apply hang_ok; [done..|]. apply wf_branch; [by apply leaf_ok|done].
Qed.

Lemma ninsert_wf t k v :
  wf t → tkey k → key_ok k → value_ok v → wf (ninsert t k v).
Proof.
  intros Hw. revert k. induction Hw as [|k0 v0 Hk0 Hok0 Hv0|k0 cs Hne Hk0 Hok0 Hw IH|cs Hl Hc IH H16];
    intros k Hk Hok Hv.
  - destruct k; [by apply tkey_nonnil in Hk|]. by constructor.
  - destruct (short_cases k k0 Hk (or_introl Hk0) (tkey_nonnil _ Hk0))
      as [[r ->]|(p & x & a & y & b & -> & -> & Hxy)].
    + pose proof (tkey_prefix _ _ Hk0 Hk) as ->. pose proof (tkey_nonnil _ Hk0).
      rewrite ninsert_short_same by (by rewrite app_nil_r). by constructor.
    + rewrite ninsert_short_branch by done.
      apply tkey_app in Hk as [Hp Hx]; [|done]. apply tkey_app in Hk0 as [_ Hy]; [|done].
      apply key_ok_app in Hok as [Hokp Hoka%key_ok_cons].
      apply key_ok_app in Hok0 as [_ Hokb%key_ok_cons].
      apply branch_wf; try done. by apply leaf_ok.
  - destruct (short_cases k k0 Hk (or_intror Hk0) Hne)
      as [[r ->]|(p & x & a & y & b & -> & -> & Hxy)].
    + rewrite ninsert_short_same by (by destruct k0).
      apply tkey_below in Hk as Hr'; [|done]. apply key_ok_app in Hok as [_ Hokr].
      specialize (IH r Hr' Hokr Hv). destruct r as [|c r]; [by apply tkey_nonnil in Hr'|].
      cbn [ninsert] in IH |- *. by constructor.
    + rewrite ninsert_short_branch by done.
      apply tkey_app in Hk as [Hp Hx]; [|done]. apply Forall_app in Hk0 as [_ [Hy Hb]%Forall_cons].
      apply key_ok_app in Hok as [Hokp Hoka%key_ok_cons].
      apply key_ok_app in Hok0 as [_ Hokb%key_ok_cons].
      apply branch_wf; try done. by apply ext_ok.
  - assert (wf (NFull cs)) as Hwf by (by constructor).
    destruct k as [|c k]; [by apply tkey_nonnil in Hk|].
    destruct (child_lookup cs c Hl (tkey_idx _ _ Hk)) as [o Ho].
    rewrite (ninsert_full _ _ _ _ o) by done. apply wf_full_insert; [done|]. unfold child_ok.
    destruct (wf_child _ _ _ _ Hwf Hk Ho) as [(-> & -> & _)|(Hk' & Hi & _)].
    + cbn [Nat.eqb ninsert]. right. destruct o; by exists v.
    + rewrite (proj2 (Nat.eqb_neq _ 16)) by lia. apply (IH (idx c)); try done.
      by apply key_ok_cons in Hok.
Qed.

Lemma nlookup_nil_replicate k : nlookup (NFull (replicate 17 NNil)) k = None.
Proof.
  destruct k as [|c k]; [done|]. cbn [nlookup].
  rewrite lookup_map.
  by destruct (replicate 17 NNil !! idx c) as [t|] eqn:E; [apply lookup_replicate in E as [-> _]|].
Qed.

Lemma nlookup_full_ne cs c k :
  nlookup (NFull cs) (c :: k) = default None (match cs !! idx c with Some o => Some (nlookup o k) | None => None end).
Proof.
  cbn [nlookup]. rewrite lookup_map.
  by destruct (cs !! idx c).
Qed.

Lemma nlookup_branch y o x u z r :
  x ≠ y → idx x < 17 → idx y < 17 →
  nlookup (branch y o x u) (z :: r)
  = if decide (z = x) then nlookup u r else if decide (z = y) then nlookup o r else None.
Proof.
  intros Hxy Hx Hy. unfold branch.
  assert (idx x ≠ idx y) by (by intros ?%idx_inj).
  case_decide as Hzx; [subst; apply nlookup_full; by rewrite list_lookup_insert_eq
    by (by rewrite length_insert, length_replicate)|].
  assert (idx x ≠ idx z) by (by intros ?%idx_inj).
  case_decide as Hzy; [subst; apply nlookup_full; rewrite list_lookup_insert_ne by done;
    by rewrite list_lookup_insert_eq by (by rewrite length_replicate)|].
  assert (idx y ≠ idx z) by (by intros ?%idx_inj).
  rewrite nlookup_full_ne, !list_lookup_insert_ne by done.
  by destruct (replicate 17 NNil !! idx z) as [t|] eqn:E; [apply lookup_replicate in E as [-> _]|].
Qed.

(** The branch made of an old entry and a new one. *)
Lemma nlookup_split p y b c x a v k' :
  x ≠ y → tkey (p ++ x :: a) → idx y < 17 → tkey k' →
  nlookup (hang p (branch y (hang b c) x (hang a (NValue v)))) k'
  = if decide (k' = p ++ x :: a) then Some v else nlookup (NShort (p ++ y :: b) c) k'.
Proof.
  intros Hxy Hk Hy Hk'. rewrite nlookup_hang.
  pose proof (tkey_app _ _ Hk ltac:(done)) as [Hp Hxa]. pose proof (tkey_idx _ _ Hxa) as Hx.
  destruct (decide (take (length p) k' = p)) as [Hpre|Hpre].
  - rewrite <-(take_drop (length p) k'), Hpre in Hk' |- *.
    set (r := drop (length p) k') in *. rewrite nlookup_short_app.
    destruct r as [|z r].
    { exfalso. rewrite app_nil_r in Hk'. by apply (tkey_prefix p) in Hk. }
    rewrite nlookup_branch by done. rewrite !nlookup_hang.
    assert (nlookup (NShort (p ++ y :: b) c) (p ++ z :: r)
            = if decide (z = y) then nlookup (NShort b c) r else None) as ->.
    { cbn [nlookup]. rewrite length_app. cbn [length].
      rewrite take_app_add, drop_app_add. cbn [take drop].
      destruct (decide (z = y)) as [->|Hzy].
      - destruct (decide (take (length b) r = b)) as [E|E].
        + by rewrite E, decide_True.
        + rewrite decide_False; [done|]. by intros [= ?]%app_inv_head.
      - rewrite decide_False; [done|]. by intros [= ? _]%app_inv_head. }
    case_decide as Hzx.
    + subst z. rewrite (decide_False (P := x = y)) by done. cbn [nlookup].
      destruct (decide (p ++ x :: r = p ++ x :: a)) as [[= ->]%app_inv_head|Hne].
      * by rewrite take_ge, drop_ge, decide_True by done.
      * destruct (decide (take (length a) r = a)) as [E|E]; [|done]. exfalso. apply Hne.
        rewrite <-(take_drop (length a) r), E. rewrite <-(take_drop (length a) r), E in Hk'.
        rewrite (app_assoc p (x :: a) _ : p ++ x :: a ++ _ = _) in Hk'.
        by rewrite (tkey_prefix _ _ Hk Hk'), app_nil_r.
    + rewrite (decide_False (P := p ++ z :: r = _)); [done|]. by intros [= ? _]%app_inv_head.
  - cbn [nlookup]. rewrite decide_False by done. rewrite !decide_False; [done|..].
    + intros E. apply Hpre. apply (f_equal (take (length p))) in E.
      rewrite take_take, take_app_length in E. rewrite Nat.min_l in E; [done|].
      rewrite length_app. lia.
    + intros ->. by rewrite take_app_length in Hpre.
Qed.

(** Insertion at a leaf, below a piece of key, and below a full node. *)
Lemma nlookup_ninsert_leaf k0 v0 k v k' :
  tkey k0 → tkey k → tkey k' →
  nlookup (ninsert (NShort k0 (NValue v0)) k v) k'
  = if decide (k' = k) then Some v else nlookup (NShort k0 (NValue v0)) k'.
Proof.
  intros Hk0 Hk Hk'. destruct (short_cases k k0 Hk (or_introl Hk0) (tkey_nonnil _ Hk0))
    as [[r ->]|(p & x & a & y & b & -> & -> & Hxy)].
  - pose proof (tkey_prefix _ _ Hk0 Hk) as ->. pose proof (tkey_nonnil _ Hk0).
    rewrite ninsert_short_same by (by rewrite app_nil_r). rewrite app_nil_r. cbn [ninsert nlookup].
    destruct (decide (k' = k0)) as [->|Hn].
    + by rewrite take_ge, drop_ge, decide_True by done.
    + case_decide as E; [|done]. by apply (tkey_take_prefix k') in E.
  - rewrite ninsert_short_branch, nlookup_split; try done.
    apply tkey_app in Hk0 as [_ Hy]; [|done]. by eapply tkey_idx.
Qed.

Lemma nlookup_ninsert_ext k0 c k v k' :
  (∀ k k', tkey k → tkey k' →
     nlookup (ninsert c k v) k' = if decide (k' = k) then Some v else nlookup c k') →
  k0 ≠ [] → Forall nibble k0 → tkey k → tkey k' →
  nlookup (ninsert (NShort k0 c) k v) k'
  = if decide (k' = k) then Some v else nlookup (NShort k0 c) k'.
Proof.
  intros IH Hne Hk0 Hk Hk'. destruct (short_cases k k0 Hk (or_intror Hk0) Hne)
    as [[r ->]|(p & x & a & y & b & -> & -> & Hxy)].
  - rewrite ninsert_short_same by (by destruct k0).
    apply tkey_below in Hk as Hr'; [|done].
    destruct (decide (take (length k0) k' = k0)) as [E|E].
    + rewrite <-(take_drop (length k0) k'), E in Hk' |- *. rewrite !nlookup_short_app.
      set (r' := drop (length k0) k') in *. apply tkey_below in Hk'; [|done].
      rewrite (IH r r') by done. apply decide_ext. split; [by intros ->|by intros ?%app_inv_head].
    + cbn [nlookup]. rewrite !(decide_False (P := take _ _ = _)) by done.
      rewrite decide_False; [done|]. intros ->. by rewrite take_app_length in E.
  - rewrite ninsert_short_branch, nlookup_split; try done.
    apply Forall_app in Hk0 as [_ [Hy _]%Forall_cons]. pose proof (idx_nibble y Hy). lia.
Qed.

Lemma nlookup_ninsert_full cs k v k' :
  (∀ i c, i < 16 → cs !! i = Some c → ∀ k k', tkey k → tkey k' →
     nlookup (ninsert c k v) k' = if decide (k' = k) then Some v else nlookup c k') →
  wf (NFull cs) → tkey k → tkey k' →
  nlookup (ninsert (NFull cs) k v) k' = if decide (k' = k) then Some v else nlookup (NFull cs) k'.
Proof.
  intros IH Hwf Hk Hk'. pose proof (proj1 (wf_full_iff cs) Hwf) as [Hl _].
  destruct k as [|c k]; [by apply tkey_nonnil in Hk|].
  destruct k' as [|c' k']; [by apply tkey_nonnil in Hk'|].
  destruct (child_lookup cs c Hl (tkey_idx _ _ Hk)) as [o Ho].
  destruct (child_lookup cs c' Hl (tkey_idx _ _ Hk')) as [o' Ho'].
  rewrite (ninsert_full _ _ _ _ o), (nlookup_full cs c' k' o') by done.
  destruct (decide (c' = c)) as [->|Hcc].
  - rewrite Ho in Ho'. injection Ho' as <-.
    rewrite (nlookup_full _ c k' (ninsert o k v)) by (apply list_lookup_insert_eq; rewrite Hl; by eapply tkey_idx).
    destruct (wf_child _ _ _ _ Hwf Hk Ho) as [(-> & Hi & Ho16)|(Hk2 & Hi & Hwo)].
    + destruct (wf_child _ _ _ _ Hwf Hk' Ho) as [(-> & _)|(_ & ? & _)]; [|lia].
      rewrite decide_True by done. by destruct o.
    + destruct (wf_child _ _ _ _ Hwf Hk' Ho) as [(_ & ? & _)|(Hk2' & _)]; [lia|].
      rewrite (IH (idx c) o Hi Ho) by done. apply decide_ext. split; congruence.
  - rewrite (nlookup_full _ c' k' o').
    2: { rewrite list_lookup_insert_ne; [done|]. by intros ?%idx_inj. }
    rewrite decide_False by congruence. done.
Qed.

Lemma nlookup_ninsert t k v k' :
  wf t → tkey k → tkey k' →
  nlookup (ninsert t k v) k' = if decide (k' = k) then Some v else nlookup t k'.
Proof.
  intros Hw. revert k k'. induction Hw as [|k0 v0 Hk0 _ _|k0 cs Hne Hk0 _ Hw IH|cs Hl Hc IH H16];
    intros k k' Hk Hk'.
  - destruct k as [|c k]; [by apply tkey_nonnil in Hk|]. cbn [ninsert nlookup].
    destruct (decide (k' = c :: k)) as [->|Hn].
    + by rewrite take_ge, drop_ge, decide_True by done.
    + case_decide as E; [|done]. by apply (tkey_take_prefix k') in E.
  - by apply nlookup_ninsert_leaf.
  - by apply nlookup_ninsert_ext.
  - apply nlookup_ninsert_full; [|by constructor|done..]. intros. by eapply IH.
Qed.

(** ** Removal *)

Lemma nremove_full cs c k o :
  cs !! idx c = Some o → nremove (NFull cs) (c :: k) = NFull (<[idx c := nremove o k]> cs).
Proof. intros Ho. cbn [nremove]. rewrite lookup_map. by rewrite Ho. Qed.

Lemma nremove_short_same k' c k :
  nremove (NShort k' c) (k' ++ k)
  = match k with [] => NNil | _ => NShort k' (nremove c k) end.
Proof.
  cbn [nremove]. rewrite take_app_length, drop_app_length, decide_True by done. by destruct k.
Qed.

Lemma nremove_short_below k' c k :
  k ≠ [] → nremove (NShort k' c) (k' ++ k) = NShort k' (nremove c k).
Proof. intros Hk. rewrite nremove_short_same. by destruct k. Qed.

Lemma nremove_is_full cs k : ∃ cs', nremove (NFull cs) k = NFull cs'.
Proof. destruct k; by eexists. Qed.

Lemma nremove_wf t k : wf t → tkey k → wf (nremove t k).
Proof.
  intros Hw. revert k. induction Hw as [|k0 v0 Hk0 Hok0 Hv0|k0 cs Hne Hk0 Hok0 Hw IH|cs Hl Hc IH H16];
    intros k Hk.
  - constructor.
  - destruct (decide (take (length k0) k = k0)) as [E|E].
    + apply tkey_take_prefix in E as ->; [|done..].
      rewrite <-(app_nil_r k0) at 2. rewrite nremove_short_same. constructor.
    + cbn [nremove]. rewrite decide_False by done. by constructor.
  - destruct (decide (take (length k0) k = k0)) as [E|E].
    + rewrite <-(take_drop (length k0) k), E in Hk |- *. apply tkey_below in Hk; [|done].
      rewrite nremove_short_same. specialize (IH _ Hk).
      destruct (drop (length k0) k) as [|c r]; [by apply tkey_nonnil in Hk|].
      destruct (nremove_is_full cs (c :: r)) as [cs' Ecs]. rewrite Ecs in *. by constructor.
    + cbn [nremove]. rewrite decide_False by done. by constructor.
  - assert (wf (NFull cs)) as Hwf by (by constructor).
    destruct k as [|c k]; [by apply tkey_nonnil in Hk|].
    destruct (child_lookup cs c Hl (tkey_idx _ _ Hk)) as [o Ho].
    rewrite (nremove_full _ _ _ o) by done. apply wf_full_insert; [done|]. unfold child_ok.
    destruct (wf_child _ _ _ _ Hwf Hk Ho) as [(-> & -> & Ho')|(Hk' & Hi & _)].
    + left. destruct Ho' as [->|(v & -> & _)]; done.
    + rewrite (proj2 (Nat.eqb_neq _ 16)) by lia. by apply (IH (idx c)).
Qed.

Lemma nlookup_nremove t k k' :
  wf t → tkey k → tkey k' →
  nlookup (nremove t k) k' = if decide (k' = k) then None else nlookup t k'.
Proof.
  intros Hw. revert k k'. induction Hw as [|k0 v0 Hk0 _ _|k0 cs Hne Hk0 _ Hw IH|cs Hl Hc IH H16];
    intros k k' Hk Hk'.
  - by case_decide.
  - destruct (decide (take (length k0) k = k0)) as [E|E].
    + apply tkey_take_prefix in E as ->; [|done..].
      rewrite <-(app_nil_r k0) at 2. rewrite nremove_short_same. cbn [nlookup].
      case_decide as E1; [done|]. case_decide as E2; [|done]. by apply (tkey_take_prefix k') in E2.
    + cbn [nremove]. rewrite decide_False by done. case_decide as E1; [|done]. subst.
      cbn [nlookup]. by rewrite decide_False.
  - destruct (decide (take (length k0) k = k0)) as [E|E].
    + rewrite <-(take_drop (length k0) k), E in Hk |- *. apply tkey_below in Hk; [|done].
      rewrite nremove_short_same. set (r := drop (length k0) k) in *.
      assert (nlookup (match r with [] => NNil | _ => NShort k0 (nremove (NFull cs) r) end) k'
              = nlookup (NShort k0 (nremove (NFull cs) r)) k') as ->.
      { destruct r; [by apply tkey_nonnil in Hk|done]. }
      destruct (decide (take (length k0) k' = k0)) as [E'|E'].
      * rewrite <-(take_drop (length k0) k'), E' in Hk' |- *. rewrite !nlookup_short_app.
        apply tkey_below in Hk'; [|done]. rewrite IH by done.
        apply decide_ext. split; [by intros ->|by intros ?%app_inv_head].
      * cbn [nlookup]. rewrite !(decide_False (P := take _ _ = _)) by done. by case_decide.
    + cbn [nremove]. rewrite decide_False by done. case_decide as E1; [|done]. subst.
      cbn [nlookup]. by rewrite decide_False.
  - assert (wf (NFull cs)) as Hwf by (by constructor).
    destruct k as [|c k]; [by apply tkey_nonnil in Hk|].
    destruct k' as [|c' k']; [by apply tkey_nonnil in Hk'|].
    destruct (child_lookup cs c Hl (tkey_idx _ _ Hk)) as [o Ho].
    destruct (child_lookup cs c' Hl (tkey_idx _ _ Hk')) as [o' Ho'].
    rewrite (nremove_full _ _ _ o), (nlookup_full cs c' k' o') by done.
    destruct (decide (c' = c)) as [->|Hcc].
    + rewrite Ho in Ho'. injection Ho' as <-.
      rewrite (nlookup_full _ c k' (nremove o k))
        by (apply list_lookup_insert_eq; rewrite Hl; by eapply tkey_idx).
      destruct (wf_child _ _ _ _ Hwf Hk Ho) as [(-> & Hi & Ho16)|(Hk2 & Hi & Hwo)];
        destruct (wf_child _ _ _ _ Hwf Hk' Ho) as [(-> & ? & _)|(Hk2' & ? & _)]; try lia.
      * rewrite decide_True by done. by destruct Ho16 as [->|(v & -> & _)].
      * rewrite (IH (idx c) o Hi Ho) by done. apply decide_ext. split; congruence.
    + rewrite (nlookup_full _ c' k' o').
      2: { rewrite list_lookup_insert_ne; [done|]. by intros ?%idx_inj. }
      by rewrite decide_False by congruence.
Qed.

(** ** Sizes *)

Lemma value_small `{Blake2b} v : value_ok v → small (NValue v).
Proof.
  unfold value_ok, small. cbn [enc]. unfold encode_value. rewrite length_make_chunk.
  unfold kMetaLength, kChunkTypeOffset, kNumBytesOffset. lia.
Qed.

Lemma length_link `{Blake2b} c : length (link c) ≤ kHashSize + length (enc c).
Proof. unfold link. destruct (is_value c); [lia|]. rewrite length_encode_hash. lia. Qed.

Lemma wf_small `{Blake2b} t : wf t → small t.
Proof.
  intros Hw. assert (kHashSize = 25) as HK by reflexivity.
  assert (kMetaLength = 5) as HM by reflexivity. unfold small.
  destruct Hw as [|k v _ Hk Hv|k cs _ _ Hk _|cs Hl _ H16].
  - reflexivity.
  - unfold key_ok, value_ok in *. cbn [enc is_value]. unfold encode_value.
    rewrite length_make_chunk, !length_app, !length_le_encode, length_make_chunk. lia.
  - unfold key_ok in Hk. cbn [enc is_value].
    rewrite length_make_chunk, !length_app, !length_le_encode, length_encode_hash. lia.
  - rewrite length_enc_full by done. rewrite lookup_map.
    destruct (cs !! 16) as [c|] eqn:E; cbn [from_option fmap option_fmap option_map].
    + destruct (H16 c eq_refl) as [->|(v & -> & Hv)]; [done|].
      unfold value_ok in Hv. cbn [id enc]. unfold encode_value. rewrite length_make_chunk. lia.
    + done.
Qed.

(** ** Parts of a tree *)

(** The short and full nodes of a tree: those that are stored by digest. *)
Fixpoint inners (t : node) : list node :=
  match t with
  | NNil | NValue _ => []
  | NShort _ c => t :: inners c
  | NFull cs => t :: mjoin (List.map inners cs)
  end.

Lemma inners_child cs i c s : cs !! i = Some c → s ∈ inners c → s ∈ inners (NFull cs).
Proof.
  intros Hc Hs. right. apply list_elem_of_join. exists (inners c). split; [done|].
  apply list_elem_of_lookup. exists i. by rewrite lookup_map, Hc.
Qed.

Lemma elem_of_inners_full s cs :
  s ∈ inners (NFull cs) ↔ s = NFull cs ∨ ∃ i c, cs !! i = Some c ∧ s ∈ inners c.
Proof.
  cbn [inners]. rewrite elem_of_cons, list_elem_of_join. apply or_iff_compat_l. split.
  - intros (x & Hs & (i & Hx)%list_elem_of_lookup). rewrite lookup_map in Hx.
    apply fmap_Some in Hx as (c & Hc & ->). by exists i, c.
  - intros (i & c & Hc & Hs). exists (inners c). split; [done|].
    apply list_elem_of_lookup. exists i. by rewrite lookup_map, Hc.
Qed.

(** The number of symbols on the longest path. *)
Fixpoint klen (t : node) : nat :=
  match t with
  | NNil | NValue _ => 0
  | NShort k c => length k + klen c
  | NFull cs => S (foldr Nat.max 0 (List.map klen cs))
  end.

Lemma klen_child cs i c : cs !! i = Some c → klen c < klen (NFull cs).
Proof.
  cbn [klen]. revert i. induction cs as [|x cs IH]; intros [|i] Hc; try done; cbn [List.map foldr].
  - injection Hc as ->. lia.
  - specialize (IH i Hc). lia.
Qed.

Lemma klen_bound cs n : (∀ i c, cs !! i = Some c → klen c ≤ n) → klen (NFull cs) ≤ S n.
Proof.
  cbn [klen]. intros Hb. apply le_n_S. induction cs as [|x cs IH]; cbn [List.map foldr]; [lia|].
  apply Nat.max_lub; [by apply (Hb 0)|]. apply IH. intros i. apply (Hb (S i)).
Qed.

Lemma klen_hang k c : klen (hang k c) = length k + klen c.
Proof. by destruct k. Qed.

Lemma klen_insert cs i c n : klen (NFull cs) ≤ S n → klen c ≤ n → klen (NFull (<[i := c]> cs)) ≤ S n.
Proof.
  intros Hcs Hc. apply klen_bound. intros j x [(_ & -> & _)|[_ Hj]]%list_lookup_insert_Some; [done|].
  apply klen_child in Hj. lia.
Qed.

Lemma klen_ninsert t k v : wf t → tkey k → klen (ninsert t k v) ≤ Nat.max (klen t) (length k).
Proof.
  intros Hw. revert k. induction Hw as [|k0 v0 Hk0 _ _|k0 cs Hne Hk0 _ Hw IH|cs Hl Hc IH H16]; intros k Hk.
  - destruct k; cbn [ninsert klen length]; lia.
  - destruct (short_cases k k0 Hk (or_introl Hk0) (tkey_nonnil _ Hk0))
      as [[r ->]|(p & x & a & y & b & -> & -> & Hxy)].
    + pose proof (tkey_prefix _ _ Hk0 Hk) as ->. pose proof (tkey_nonnil _ Hk0).
      rewrite ninsert_short_same by (by rewrite app_nil_r). cbn [ninsert klen]. lia.
    + rewrite ninsert_short_branch by done. rewrite klen_hang. cbn [klen].
      rewrite !length_app. cbn [length]. unfold branch.
      enough (klen (NFull (<[idx x:=hang a (NValue v)]> (<[idx y:=hang b (NValue v0)]> (replicate 17 NNil))))
              ≤ S (Nat.max (length a) (length b))) by lia.
      repeat apply klen_insert; rewrite ?klen_hang; cbn [klen]; try lia. vm_compute. lia.
  - destruct (short_cases k k0 Hk (or_intror Hk0) Hne)
      as [[r ->]|(p & x & a & y & b & -> & -> & Hxy)].
    + rewrite ninsert_short_same by (by destruct k0). apply tkey_below in Hk; [|done].
      specialize (IH _ Hk). change (klen (NShort k0 ?c)) with (length k0 + klen c).
      rewrite length_app. lia.
    + rewrite ninsert_short_branch by done. rewrite klen_hang.
      change (klen (NShort ?k ?c)) with (length k + klen c).
      rewrite !length_app. cbn [length]. unfold branch.
      enough (klen (NFull (<[idx x:=hang a (NValue v)]> (<[idx y:=hang b (NFull cs)]> (replicate 17 NNil))))
              ≤ S (Nat.max (length a) (length b + klen (NFull cs)))) by lia.
      repeat apply klen_insert; rewrite ?klen_hang; try (cbn [klen]; lia).
      change (klen (NFull (replicate 17 NNil))) with 1. lia.
  - assert (wf (NFull cs)) as Hwf by (by constructor).
    destruct k as [|c k]; [by apply tkey_nonnil in Hk|].
    destruct (child_lookup cs c Hl (tkey_idx _ _ Hk)) as [o Ho].
    rewrite (ninsert_full _ _ _ _ o) by done.
    pose proof (klen_child _ _ _ Ho) as Hko. cbn [length].
    destruct (klen (NFull cs)) as [|n] eqn:En; [lia|].
    enough (klen (NFull (<[idx c := ninsert o k v]> cs)) ≤ S (Nat.max n (length k))) by lia.
    apply klen_insert; [lia|].
    destruct (wf_child _ _ _ _ Hwf Hk Ho) as [(-> & Hi & Ho')|(Hk' & Hi & _)].
    + destruct o; cbn [ninsert klen]; lia.
    + specialize (IH _ _ Hi Ho k Hk'). lia.
Qed.

Lemma klen_nremove t k : wf t → tkey k → klen (nremove t k) ≤ klen t.
Proof.
  intros Hw. revert k. induction Hw as [|k0 v0 Hk0 _ _|k0 cs Hne Hk0 _ Hw IH|cs Hl Hc IH H16]; intros k Hk.
  - done.
  - cbn [nremove]. case_decide; [|done]. case_match; cbn [klen]; lia.
  - destruct (decide (take (length k0) k = k0)) as [E|E].
    + rewrite <-(take_drop (length k0) k), E in Hk |- *. apply tkey_below in Hk; [|done].
      rewrite nremove_short_below by (by apply tkey_nonnil). specialize (IH _ Hk).
      change (klen (NShort k0 ?c)) with (length k0 + klen c). lia.
    + cbn [nremove]. by rewrite decide_False.
  - assert (wf (NFull cs)) as Hwf by (by constructor).
    destruct k as [|c k]; [by apply tkey_nonnil in Hk|].
    destruct (child_lookup cs c Hl (tkey_idx _ _ Hk)) as [o Ho].
    rewrite (nremove_full _ _ _ o) by done. pose proof (klen_child _ _ _ Ho) as Hko.
    destruct (klen (NFull cs)) as [|n] eqn:En; [lia|]. apply klen_insert; [lia|].
    destruct (wf_child _ _ _ _ Hwf Hk Ho) as [(-> & _ & Ho')|(Hk' & Hi & _)].
    + destruct Ho' as [->|(v & -> & _)]; cbn [nremove klen]; lia.
    + specialize (IH _ _ Hi Ho k Hk'). lia.
Qed.

(** ** The number of entries *)

Lemma count_hang k c : count (hang k c) = count c.
Proof. by destruct k. Qed.

Lemma count_replicate n : foldr N.add 0%N (List.map count (replicate n NNil)) = 0%N.
Proof. induction n as [|n IH]; [done|]. cbn [replicate List.map foldr count]. by rewrite IH. Qed.

Lemma count_branch y o x u :
  x ≠ y → idx x < 17 → idx y < 17 → count (branch y o x u) = (count o + count u)%N.
Proof.
  intros Hxy Hx Hy. unfold branch. assert (idx x ≠ idx y) by (by intros ?%idx_inj).
  assert (<[idx y := o]> (replicate 17 NNil) !! idx x = Some NNil) as E1.
  { rewrite list_lookup_insert_ne by done. by apply lookup_replicate_2. }
  pose proof (count_insert _ _ _ u E1) as C1.
  assert (replicate 17 NNil !! idx y = Some NNil) as E2 by (by apply lookup_replicate_2).
  pose proof (count_insert _ _ _ o E2) as C2.
  assert (count (NFull (replicate 17 NNil)) = 0%N) as C3 by apply (count_replicate 17).
  change (count NNil) with 0%N in *. lia.
Qed.

(** One more entry unless the key was there. *)
Definition fresh (t : node) (k : bytes) : N := match nlookup t k with Some _ => 0 | None => 1 end%N.

Lemma count_split p y b c x a v :
  x ≠ y → tkey (p ++ x :: a) → idx y < 17 →
  count (hang p (branch y (hang b c) x (hang a (NValue v)))) = (count c + 1)%N ∧
  fresh (NShort (p ++ y :: b) c) (p ++ x :: a) = 1%N.
Proof.
  intros Hxy Hk Hy. apply tkey_app in Hk as [_ Hx%tkey_idx]; [|done]. split.
  - by rewrite count_hang, count_branch, !count_hang.
  - unfold fresh. cbn [nlookup]. rewrite decide_False; [done|].
    rewrite length_app, take_app_add. cbn [length take]. by intros [= ? _]%app_inv_head.
Qed.

Lemma count_ninsert t k v : wf t → tkey k → count (ninsert t k v) = (count t + fresh t k)%N.
Proof.
  intros Hw. revert k. induction Hw as [|k0 v0 Hk0 _ _|k0 cs Hne Hk0 _ Hw IH|cs Hl Hc IH H16]; intros k Hk.
  - by destruct k.
  - destruct (short_cases k k0 Hk (or_introl Hk0) (tkey_nonnil _ Hk0))
      as [[r ->]|(p & x & a & y & b & -> & -> & Hxy)].
    + pose proof (tkey_prefix _ _ Hk0 Hk) as ->. pose proof (tkey_nonnil _ Hk0).
      rewrite ninsert_short_same by (by rewrite app_nil_r).
      unfold fresh. by rewrite nlookup_short_app.
    + rewrite ninsert_short_branch by done.
      assert (idx y < 17) by (apply tkey_app in Hk0 as [_ Hy%tkey_idx]; done).
      by destruct (count_split p y b (NValue v0) x a v) as [-> ->].
  - destruct (short_cases k k0 Hk (or_intror Hk0) Hne)
      as [[r ->]|(p & x & a & y & b & -> & -> & Hxy)].
    + rewrite ninsert_short_same by (by destruct k0). apply tkey_below in Hk; [|done].
      unfold fresh. rewrite nlookup_short_app. by apply IH.
    + rewrite ninsert_short_branch by done.
      assert (idx y < 17).
      { apply Forall_app in Hk0 as [_ [Hy _]%Forall_cons]. pose proof (idx_nibble y Hy). lia. }
      by destruct (count_split p y b (NFull cs) x a v) as [-> ->].
  - assert (wf (NFull cs)) as Hwf by (by constructor).
    destruct k as [|c k]; [by apply tkey_nonnil in Hk|].
    destruct (child_lookup cs c Hl (tkey_idx _ _ Hk)) as [o Ho].
    rewrite (ninsert_full _ _ _ _ o) by done. unfold fresh. rewrite (nlookup_full _ _ _ o) by done.
    pose proof (count_insert cs (idx c) o (ninsert o k v) Ho) as Hcount.
    enough (count (ninsert o k v) = count o + fresh o k)%N as E by (unfold fresh in E; lia).
    destruct (wf_child _ _ _ _ Hwf Hk Ho) as [(-> & _ & Ho')|(Hk' & Hi & _)]; [|by apply (IH (idx c))].
    by destruct Ho' as [->|(v' & -> & _)].
Qed.
