(* ===== verification/TrieProof.v ===== *)
(** * The trie code implements its specification

    The chunks that the operations of [Trie] read and write are the encodings
    of abstract trees; lookup, insertion, removal and commit on chunks are
    those of [TrieSpec] on the trees.  Trees are stored by digest, so this
    holds as long as the digests of the finitely many nodes involved are
    distinct ([safe]). *)

From S2P Require Import Prelude Cpp Hash Chunk DB MPTNode Trie TrieSpec.

Open Scope nat_scope.

Section Refinement.
Context `{Blake2b, ChunkStoreLaws D}.

(** The digest a node is stored under. *)
Definition digest_of (t : node) : bytes := chunk_hash (enc t).

(** Every part of [t] reads back from the store. *)
Definition stored (d : D) (t : node) : Prop :=
∀ s, s ∈ inners t → cs_get d (digest_of s) = Some (enc s).

(** The nodes [U] have distinct digests, none of which is taken by something
else in the store or by the empty node. *)
Record safe (d : D) (U : list node) : Prop := {
safe_inj : ∀ s s', s ∈ U → s' ∈ U → digest_of s = digest_of s' → enc s = enc s';
safe_db : ∀ s m, s ∈ U → cs_get d (digest_of s) = Some m → m = enc s;
safe_nil : cs_get d nil_hash = None;
safe_nil_ne : ∀ s, s ∈ U → digest_of s ≠ nil_hash;
}.

(** The buffer holds nodes of [U]. *)
Definition delta_ok (U : list node) (dirty : delta) : Prop :=
∀ h c, dirty !! h = Some c → ∃ s, s ∈ U ∧ h = digest_of s ∧ c = enc s.

(** Every part of [t] is in the buffer or, with all that is below it, in the
store. *)
Definition covered (d : D) (dirty : delta) (t : node) : Prop :=
∀ s, s ∈ inners t → dirty !! digest_of s = Some (enc s) ∨ stored d s.

Lemma covered_mono d dirty dirty' t : dirty ⊆ dirty' → covered d dirty t → covered d dirty' t.
Proof.
intros Hsub Hc s Hs. destruct (Hc s Hs) as [Hd|?]; [left|by right].
by eapply lookup_weaken.
Qed.

Lemma stored_child d cs i c : stored d (NFull cs) → cs !! i = Some c → stored d c.
Proof. intros Hst Hc s Hs. apply Hst. by eapply inners_child. Qed.
Lemma stored_below d k c : stored d (NShort k c) → stored d c.
Proof. intros Hst s Hs. apply Hst. cbn [inners]. by right. Qed.
Lemma covered_child d dirty cs i c : covered d dirty (NFull cs) → cs !! i = Some c → covered d dirty c.
Proof. intros Hst Hc s Hs. apply Hst. by eapply inners_child. Qed.
Lemma covered_below d dirty k c : covered d dirty (NShort k c) → covered d dirty c.
Proof. intros Hst s Hs. apply Hst. cbn [inners]. by right. Qed.

Lemma stored_covered d t : stored d t → covered d ∅ t.
Proof.
intros Hst s Hs. right. revert s Hs. induction t as [|v|k c IH|cs IH] using node_ind'; cbn [inners].
- by intros s ?%elem_of_nil.
- by intros s ?%elem_of_nil.
- intros s [->|Hs]%elem_of_cons; [done|]. apply IH; [by eapply stored_below|done].
- change (NFull cs :: mjoin (List.map inners cs)) with (inners (NFull cs)).
  intros s [->|(i & c & Hc & Hs)]%elem_of_inners_full; [done|].
  rewrite Forall_lookup in IH. apply (IH i c Hc); [by eapply stored_child|done].
Qed.

(** ** Following a link *)

Definition is_inner (t : node) : bool :=
match t with NShort _ _ | NFull _ => true | _ => false end.

Lemma inners_inner s t : s ∈ inners t → is_inner s = true.
Proof.
induction t as [|v'|k c IH|cs IH] using node_ind'.
1-2: by intros ?%elem_of_nil.
- intros [->|Hs]%elem_of_cons; auto.
- intros [->|(i & c & Hc & Hs)]%elem_of_inners_full; [done|].
  rewrite Forall_lookup in IH. by eapply IH.
Qed.

Lemma inners_self t : is_inner t = true → t ∈ inners t.
Proof. destruct t; try done; intros _; cbn [inners]; by left. Qed.

Lemma covered_stored d t : covered d ∅ t → stored d t.
Proof.
intros Hc s Hs. destruct (Hc s Hs) as [Hd|Hd]; [by rewrite lookup_empty in Hd|].
by apply Hd, inners_self, (inners_inner s t).
Qed.

Section Safe.
Context (d : D) (U : list node) (Hsafe : safe d U).

Lemma fetch dirty c rest :
delta_ok U dirty → covered d dirty c → inners c ⊆ U → c = NNil ∨ is_inner c = true →
GetHashNodeChild d dirty (encode_hash (enc c) ++ rest) = enc c.
Proof.
intros Hd Hc HU Hn. unfold GetHashNodeChild, is_type. rewrite type_link.
rewrite bool_decide_true by done. rewrite childHash_link. unfold DeltaGetChunk.
destruct Hn as [->|Hin].
- change (chunk_hash (enc NNil)) with nil_hash. destruct (dirty !! nil_hash) as [x|] eqn:E.
  + apply Hd in E as (s & Hs & Hh & _). by destruct (safe_nil_ne _ _ Hsafe s Hs).
  + by rewrite (safe_nil _ _ Hsafe).
- pose proof (inners_self c Hin) as Hs. fold (digest_of c).
  destruct (dirty !! digest_of c) as [x|] eqn:E.
  + apply Hd in E as (s & HsU & Hh & ->). symmetry. apply (safe_inj _ _ Hsafe); auto.
  + destruct (Hc c Hs) as [?|Hst]; [congruence|]. by rewrite (Hst c Hs).
Qed.

Lemma keep_spec dirty s :
delta_ok U dirty → s ∈ U →
∃ dirty', keep dirty (enc s) = (Some (enc s), dirty') ∧ delta_ok U dirty' ∧ dirty ⊆ dirty' ∧
  dirty' !! digest_of s = Some (enc s).
Proof.
intros Hd Hs. unfold keep, CreateChunk, DeltaGetChunk. fold (digest_of s).
destruct (dirty !! digest_of s) as [x|] eqn:E.
- assert (x = enc s) as ->.
  { apply Hd in E as (s' & Hs' & Hh & ->). by apply (safe_inj _ _ Hsafe). }
  exists dirty. rewrite E. by split_and!.
- exists (<[digest_of s := enc s]> dirty). rewrite lookup_insert_eq. split_and!; [done| | |done].
  + intros h c [[<- <-]|[_ Hh]]%lookup_insert_Some; [by exists s|by apply Hd].
  + by apply insert_subseteq.
Qed.

(** ** Lookup *)

Lemma key_index_spec key pos c k :
drop pos key = c :: k → idx c < 17 → key_index key pos = Done (idx c).
Proof.
intros E Hc. unfold key_index. assert (key !! pos = Some c) as ->.
{ apply (f_equal (λ l, l !! 0)) in E. by rewrite lookup_drop, Nat.add_0_r in E. }
unfold idx in *. by rewrite (proj2 (N.ltb_lt _ 17)) by lia.
Qed.

Lemma drop_next {A} (l : list A) pos c k : drop pos l = c :: k → drop (pos + 1) l = k.
Proof. intros E. by rewrite <-drop_drop, E. Qed.

Lemma short_match_spec k0 key pos :
pos ≤ length key →
short_match k0 key pos = Done (bool_decide (take (length k0) (drop pos key) = k0)).
Proof.
intros Hpos. unfold short_match, substr. rewrite (proj2 (Nat.leb_le _ _)) by done. cbn [andb].
destruct (length key - pos <? length k0) eqn:E.
- apply Nat.ltb_lt in E. rewrite bool_decide_false; [done|]. intros Ek.
  apply (f_equal length) in Ek. rewrite length_take, length_drop in Ek. lia.
- rewrite (proj2 (Nat.ltb_ge _ _)) by done. cbn [mbind outcome_bind]. f_equal.
  apply bool_decide_ext. naive_solver.
Qed.

Lemma child_link_below cs i : i ≠ 16 → ∀ c, cs !! i = Some c → child_link cs i = encode_hash (enc c).
Proof. intros Hi c Hc. unfold child_link. by rewrite Hc, (proj2 (Nat.eqb_neq _ _)). Qed.

(** A wf subtree below a full node or a short node is stored by digest. *)
Lemma wf_inner t : wf t → t = NNil ∨ is_inner t = true.
Proof. intros []; auto. Qed.

Lemma TryGet_link fuel c rest key pos :
(c = NNil ∨ is_inner c = true) → stored d c →
∃ rest', TryGet (S fuel) d (encode_hash (enc c) ++ rest) key pos = TryGet fuel d (enc c ++ rest') key pos.
Proof.
intros Hc Hst. exists []. cbn [TryGet]. rewrite type_link, childHash_link, app_nil_r.
destruct Hc as [->|Hin].
- change (chunk_hash (enc NNil)) with nil_hash. by rewrite (safe_nil _ _ Hsafe).
- fold (digest_of c). by rewrite (Hst c (inners_self c Hin)).
Qed.

Lemma TryGet_spec t key pos k fuel rest :
wf t → stored d t → tkey k → drop pos key = k → 2 * length k ≤ fuel →
TryGet fuel d (enc t ++ rest) key pos = Done (default [] (nlookup t k)).
Proof.
intros Hw. revert pos k fuel rest.
induction Hw as [|k0 v0 Hk0 Hok0 Hv0|k0 cs Hne Hk0 Hok0 Hw IH|cs Hl Hc IH H16];
  intros pos k fuel rest Hst Hk Hpos Hf.
all: assert (pos ≤ length key) by (pose proof (tkey_nonnil _ Hk);
  apply (f_equal length) in Hpos as Hlen; rewrite length_drop in Hlen; destruct k; [done|simpl in Hlen; lia]).
all: destruct fuel as [|fuel]; [pose proof (tkey_nonnil _ Hk); destruct k; [done|simpl in Hf; lia]|];
  cbn [TryGet]; rewrite enc_eq_type.
- done.
- unfold key_ok in Hok0. rewrite getKey_enc, childNode_enc by lia. rewrite short_match_spec, Hpos by done.
  cbn [mbind outcome_bind nlookup]. destruct (decide (take (length k0) k = k0)) as [E|E].
  + rewrite bool_decide_true by done. apply tkey_take_prefix in E as ->; [|done..].
    rewrite drop_all. destruct fuel as [|fuel];
      [pose proof (tkey_nonnil _ Hk); destruct k0; [done|simpl in Hf; lia]|].
    cbn [TryGet]. unfold link. cbn [is_value]. rewrite enc_eq_type.
    by rewrite getVal_enc by (by apply value_small).
  + by rewrite bool_decide_false.
- unfold key_ok in Hok0. rewrite getKey_enc, childNode_enc by lia. rewrite short_match_spec, Hpos by done.
  cbn [mbind outcome_bind]. destruct (decide (take (length k0) k = k0)) as [E|E].
  + rewrite bool_decide_true by done. rewrite <-(take_drop (length k0) k), E in Hk |- *.
    rewrite nlookup_short_app. apply tkey_below in Hk as Hk'; [|done].
    assert (1 ≤ length k0) by (destruct k0; [done|simpl; lia]).
    assert (length k = length k0 + length (drop (length k0) k)) as Hlk.
    { rewrite <-(take_drop (length k0) k) at 1. by rewrite E, length_app. }
    destruct fuel as [|fuel]; [lia|]. unfold link. cbn [is_value].
    destruct (TryGet_link fuel (NFull cs) rest key (pos + length k0)) as [rest' ->];
      [by right|by eapply stored_below|].
    apply IH; [by eapply stored_below|done|by rewrite <-drop_drop, Hpos|lia].
  + rewrite bool_decide_false by done. cbn [nlookup]. by rewrite decide_False.
- assert (wf (NFull cs)) as Hwf by (by constructor).
  destruct k as [|c k]; [by apply tkey_nonnil in Hk|]. cbn [length] in Hf.
  pose proof (tkey_idx _ _ Hk) as Hi. rewrite (key_index_spec _ _ c k) by done.
  cbn [mbind outcome_bind].
  destruct (getChildAtIndex_enc cs (idx c) rest Hl Hi) as [rest' ->]. cbn [mbind outcome_bind].
  destruct (child_lookup cs c Hl Hi) as [o Ho]. rewrite (nlookup_full _ _ _ o) by done.
  destruct fuel as [|fuel]; [lia|].
  destruct (wf_child _ _ _ _ Hwf Hk Ho) as [(-> & Hi16 & Ho')|(Hk' & Hi' & Hwo)].
  + unfold child_link. rewrite Ho, Hi16. cbn [Nat.eqb TryGet]. rewrite enc_eq_type.
    destruct Ho' as [->|(v & -> & Hv)]; [done|].
    by rewrite getVal_enc by (by apply value_small).
  + rewrite (child_link_below cs (idx c)) with (c := o) by (done || lia).
    destruct (TryGet_link fuel o rest' key (pos + 1)) as [rest'' ->];
      [by apply wf_inner|by eapply stored_child|].
    apply (IH (idx c)); [done..|by eapply stored_child|done|by eapply drop_next|lia].
Qed.

(** ** Insertion *)

Context (Uwf : ∀ s, s ∈ U → small s).

(** What an insertion leaves behind: the buffer grew and covers the tree. *)
Definition grown (dirty dirty' : delta) (t : node) : Prop :=
delta_ok U dirty' ∧ dirty ⊆ dirty' ∧ covered d dirty' t.

Lemma covered_short dirty k c :
dirty !! digest_of (NShort k c) = Some (enc (NShort k c)) → covered d dirty c →
covered d dirty (NShort k c).
Proof. intros Hk Hc s [->|Hs]%elem_of_cons; [by left|by apply Hc]. Qed.

Lemma covered_full dirty cs :
dirty !! digest_of (NFull cs) = Some (enc (NFull cs)) →
(∀ i c, cs !! i = Some c → covered d dirty c) → covered d dirty (NFull cs).
Proof.
intros Hk Hc s [->|(i & c & Hi & Hs)]%elem_of_inners_full; [by left|by eapply Hc].
Qed.

Lemma covered_leaf dirty t : is_inner t = false → covered d dirty t.
Proof. intros Ht s Hs. apply inners_inner in Hs as Hi. by destruct t; first [discriminate Ht|apply elem_of_nil in Hs]. Qed.

(** [Insert] below an empty place hangs the value there. *)
Lemma Insert_hang fuel dirty b c rest :
1 ≤ fuel → delta_ok U dirty → covered d dirty c → is_nil c = false → small c →
(b ≠ [] → NShort b c ∈ U) →
∃ m dirty', Insert fuel d dirty nil_chunk b (enc c ++ rest) = Done (Some m, dirty') ∧
  points_to m (hang b c) ∧ grown dirty dirty' (hang b c).
Proof.
intros Hf Hd Hc Hn Hs Hb. destruct fuel as [|fuel]; [lia|]. destruct b as [|x b].
- exists (enc c ++ rest), dirty. cbn [Insert hang]. split_and!; [done|by exists rest|by split_and!].
- destruct (keep_spec dirty (NShort (x :: b) c) Hd (Hb ltac:(done))) as (dirty' & Hk & Hd' & Hsub & Hl).
  exists (enc (NShort (x :: b) c)), dirty'. cbn [Insert hang].
  change (type nil_chunk) with (Some kMPTNil). cbv iota.
  rewrite encode_short_enc by done. rewrite Hk. split_and!; [done|exists []; by rewrite app_nil_r|].
  split_and!; [done..|]. apply covered_short; [done|by eapply covered_mono].
Qed.

Lemma mapM_deref ms : mapM deref (Some <$> ms) = Done ms.
Proof. induction ms as [|m ms IH]; [done|]. cbn. by rewrite IH. Qed.

Lemma type_value_link v rest : is_type kMPTHash (enc (NValue v) ++ rest) = false.
Proof. rewrite is_type_enc. by apply bool_decide_false. Qed.

(** The child of a short node, following a link. *)
Lemma child_chunk_spec dirty c rest :
delta_ok U dirty → covered d dirty c → inners c ⊆ U → (∃ v, c = NValue v) ∨ is_inner c = true →
∃ rest', (if is_type kMPTHash (link c ++ rest) then GetHashNodeChild d dirty (link c ++ rest)
          else link c ++ rest) = enc c ++ rest'.
Proof.
intros Hd Hc HU [[v ->]|Hin].
- exists rest. unfold link. cbn [is_value]. by rewrite type_value_link.
- exists []. unfold link. replace (is_value c) with false by (by destruct c).
  unfold is_type at 1. rewrite type_link, bool_decide_true by done. rewrite app_nil_r.
  apply fetch; auto.
Qed.

Lemma points_to_nil : points_to nil_chunk NNil.
Proof. exists []. by rewrite app_nil_r. Qed.

Lemma key_index_at p c k : idx c < 17 → key_index (p ++ c :: k) (length p) = Done (idx c).
Proof. intros Hc. eapply key_index_spec; [by rewrite drop_app_length|done]. Qed.

Lemma substr_after {A} (p : bytes) c k (f : bytes → outcome A) :
substr (p ++ c :: k) (length p + 1) None ≫= f = f k.
Proof.
unfold substr. rewrite (proj2 (Nat.ltb_ge _ _)) by (rewrite length_app; simpl; lia).
cbn [mbind outcome_bind]. by rewrite <-drop_drop, drop_app_length.
Qed.

Lemma PrefixLen_app k r : PrefixLen (k ++ r) k = length k.
Proof. induction k as [|z k IH]; [by destruct r|]. cbn. by rewrite decide_True, IH. Qed.
Lemma PrefixLen_same k : PrefixLen k k = length k.
Proof. induction k as [|z k IH]; [done|]. cbn. by rewrite decide_True, IH. Qed.

Lemma PrefixLen_branch p x a y b : x ≠ y → PrefixLen (p ++ x :: a) (p ++ y :: b) = length p.
Proof.
intros Hne. induction p as [|z p IH]; cbn [app PrefixLen length].
- by rewrite decide_False.
- by rewrite decide_True, IH.
Qed.

Lemma child_ok_small i c : child_ok i c → small c.
Proof.
unfold child_ok. case_match; [intros [->|(v & -> & Hv)]|apply wf_small]; [done|by apply value_small].
Qed.

Lemma wf_children_small cs : wf (NFull cs) → Forall small cs.
Proof.
intros [_ Hc]%wf_full_iff. apply Forall_lookup. intros i c Hi. eapply child_ok_small, Hc, Hi.
Qed.

(** The chunk of a branch, made from the chunks of its two children. *)
Lemma encode_branch y o x u m1 m2 :
wf (branch y o x u) → points_to m1 o → points_to m2 u →
(nodes ← mapM deref (<[idx x := Some m2]> (<[idx y := Some m1]> (replicate 17 (Some nil_chunk))));
 deref (encode_full nodes)) = Done (enc (branch y o x u)).
Proof.
intros Hw Hm1 Hm2. rewrite <-fmap_replicate, <-!list_fmap_insert, mapM_deref.
cbn [mbind outcome_bind]. erewrite encode_full_enc; [done|..].
- by apply wf_full_iff in Hw as [? _].
- apply Forall2_insert; [|done]. apply Forall2_insert; [|done].
  apply Forall2_replicate, points_to_nil.
- by apply wf_children_small.
Qed.

Lemma create_branch_spec fuel dirty p x a y b c v rest vrest :
let t := branch y (hang b c) x (hang a (NValue v)) in
1 ≤ fuel → x ≠ y → idx x < 17 → idx y < 17 →
key_ok (p ++ y :: b) → small c → value_ok v → wf t →
delta_ok U dirty → covered d dirty c → inners c ⊆ U → inners (hang p t) ⊆ U →
(∃ v, c = NValue v) ∨ is_inner c = true →
∃ dirty', create_branch (Insert fuel d) d dirty (enc (NShort (p ++ y :: b) c) ++ rest)
    (p ++ x :: a) (enc (NValue v) ++ vrest) = Done (Some (enc (hang p t)), dirty') ∧
  grown dirty dirty' (hang p t).
Proof.
intros t Hf Hxy Hx Hy Hok Hsc Hv Hwt Hd Hc HcU HU Hci. unfold key_ok in Hok. unfold create_branch.
rewrite getKey_enc, childNode_enc, PrefixLen_branch by (done || lia). rewrite !substr_after.
destruct (child_chunk_spec dirty c rest) as [rest' ->]; [done..|].
assert (inners t ⊆ U) as HtU by (destruct p; [done|intros s Hs; apply HU; by right]).
assert (∀ i s, (<[idx x := hang a (NValue v)]> (<[idx y := hang b c]> (replicate 17 NNil))) !! i = Some s →
  inners s ⊆ U) as HchU by (intros i s Hi z Hz; apply HtU; by eapply inners_child).
assert (idx x ≠ idx y) by (by intros ?%idx_inj).
destruct (Insert_hang fuel dirty b c rest') as (m1 & d1 & -> & Hm1 & Hd1 & Hs1 & Hc1); [done..|by destruct Hci as [[? ->]|?]; [|destruct c]|done| |].
{ intros Hb. apply (HchU (idx y) (hang b c)).
  - rewrite list_lookup_insert_ne by done. apply list_lookup_insert_eq. by rewrite length_replicate.
  - destruct b; [done|]. by left. }
cbn [mbind outcome_bind]. rewrite key_index_at by done. cbn [mbind outcome_bind].
destruct (Insert_hang fuel d1 a (NValue v) vrest) as (m2 & d2 & -> & Hm2 & Hd2 & Hs2 & Hc2);
  [done..|by apply covered_leaf|done|by apply value_small| |].
{ intros Ha. apply (HchU (idx x) (hang a (NValue v))).
  - apply list_lookup_insert_eq. by rewrite length_insert, length_replicate.
  - destruct a; [done|]. by left. }
cbn [mbind outcome_bind]. rewrite key_index_at by done. cbn [mbind outcome_bind].
pose proof (encode_branch y (hang b c) x (hang a (NValue v)) m1 m2 Hwt Hm1 Hm2) as Hbr.
fold t in Hbr. destruct (mapM deref _) as [nodes|]; [|done]. cbn [mbind outcome_bind] in Hbr |- *.
rewrite Hbr. cbn [mbind outcome_bind].
destruct (keep_spec d2 t) as (d3 & Hk3 & Hd3 & Hs3 & Hl3); [done|apply HtU, inners_self; done|].
assert (covered d d3 t) as Hct.
{ apply covered_full; [done|]. intros i s [(_ & <- & _)|[_ Hi]]%list_lookup_insert_Some.
  - by eapply covered_mono.
  - apply list_lookup_insert_Some in Hi as [(_ & <- & _)|[_ Hi]].
    + eapply covered_mono; [|exact Hc1]. by etrans.
    + apply lookup_replicate in Hi as [-> _]. by apply covered_leaf. }
destruct p as [|z p]; cbn [length Nat.eqb hang].
- rewrite Hk3. exists d3. split; [done|]. split_and!; [done| |done]. by do 2 (etrans; [done|]).
- assert (CreateChunk d2 (chunk_hash (enc t)) (enc t) = d3) as ->.
  { unfold keep in Hk3. by injection Hk3. }
  rewrite <-(app_nil_r (enc t)), (encode_short_enc _ t []) by (done || by apply wf_small).
  change (S (length p)) with (length (z :: p)). rewrite take_app_length.
  destruct (keep_spec d3 (NShort (z :: p) t)) as (d4 & -> & Hd4 & Hs4 & Hl4);
    [done|apply HU; by left|].
  exists d4. split; [done|]. split_and!; [done|by do 3 (etrans; [done|])|].
  apply covered_short; [done|by eapply covered_mono].
Qed.

(** A short node whose child changed. *)
Lemma keep_short dirty dirty1 k c' rest :
grown dirty dirty1 c' → is_nil c' = false → small c' → NShort k c' ∈ U →
∃ dirty', keep dirty1 (encode_short k (enc c' ++ rest)) = (Some (enc (NShort k c')), dirty') ∧
  grown dirty dirty' (NShort k c').
Proof.
intros (Hd & Hs & Hc) Hn Hsm HU. rewrite encode_short_enc by done.
destruct (keep_spec dirty1 (NShort k c') Hd HU) as (d' & -> & Hd' & Hs' & Hl').
exists d'. split; [done|]. split_and!; [done|by etrans|].
apply covered_short; [done|by eapply covered_mono].
Qed.

(** A full node in which child [i] changed. *)
Lemma keep_full dirty dirty1 cs i o c' :
cs !! i = Some o → i < 17 → grown dirty dirty1 c' → covered d dirty (NFull cs) →
NFull (<[i := c']> cs) ∈ U → length cs = 17 →
∃ dirty', keep dirty1 (enc (NFull (<[i := c']> cs))) = (Some (enc (NFull (<[i := c']> cs))), dirty') ∧
  grown dirty dirty' (NFull (<[i := c']> cs)).
Proof.
intros Ho Hi (Hd & Hs & Hc) Hcov HU Hl.
destruct (keep_spec dirty1 _ Hd HU) as (d' & -> & Hd' & Hs' & Hl').
exists d'. split; [done|]. split_and!; [done|by etrans|]. apply covered_full; [done|].
intros j s [(_ & <- & _)|[_ Hj]]%list_lookup_insert_Some; [by eapply covered_mono|].
eapply covered_mono; [|by eapply covered_child]. by etrans.
Qed.

(** [Insert] on the chunk of [t] is [ninsert]. *)
Definition inserts (v vrest : bytes) (t : node) : Prop :=
∀ k fuel dirty rest,
tkey k → key_ok k → 2 * length k ≤ fuel → delta_ok U dirty → covered d dirty t →
inners t ⊆ U → inners (ninsert t k v) ⊆ U →
∃ dirty', Insert fuel d dirty (enc t ++ rest) k (enc (NValue v) ++ vrest)
          = Done (Some (enc (ninsert t k v)), dirty') ∧
  grown dirty dirty' (ninsert t k v).

Lemma grown_refl dirty t : delta_ok U dirty → covered d dirty t → grown dirty dirty t.
Proof. intros ??. by split_and!. Qed.

Lemma Insert_short fuel k c rest key value dirty x a :
key_ok k → key = x :: a →
Insert (S fuel) d dirty (enc (NShort k c) ++ rest) key value
= if (PrefixLen key k =? length k)%nat then
    '(new_child, dirty) ← Insert fuel d dirty (link c ++ rest) (drop (PrefixLen key k) key) value;
    new_child ← deref new_child;
    Done (keep dirty (encode_short k new_child))
  else create_branch (Insert fuel d) d dirty (enc (NShort k c) ++ rest) key value.
Proof.
intros Hk ->. unfold key_ok in Hk. cbn [Insert]. rewrite enc_eq_type. cbv iota.
by rewrite getKey_enc, childNode_enc by lia.
Qed.

Lemma Insert_branch v vrest p x a y b c dirty rest fuel :
let k := p ++ x :: a in
let k0 := p ++ y :: b in
x ≠ y → idx y < 17 → tkey k → key_ok k0 → value_ok v → 1 ≤ fuel →
small c → (∃ v, c = NValue v) ∨ is_inner c = true →
wf (branch y (hang b c) x (hang a (NValue v))) →
delta_ok U dirty → covered d dirty (NShort k0 c) → inners (NShort k0 c) ⊆ U →
inners (ninsert (NShort k0 c) k v) ⊆ U →
∃ dirty', Insert (S fuel) d dirty (enc (NShort k0 c) ++ rest) k (enc (NValue v) ++ vrest)
          = Done (Some (enc (ninsert (NShort k0 c) k v)), dirty') ∧
  grown dirty dirty' (ninsert (NShort k0 c) k v).
Proof.
intros k k0 Hxy Hy Hk Hok Hv Hf Hsc Hci Hwb Hd Hcov HtU HiU.
assert (∃ z k', k = z :: k') as (z & k' & Ek) by (unfold k; destruct p; by eexists _, _).
rewrite (Insert_short _ _ _ _ _ _ _ z k') by done. unfold k, k0 in *.
rewrite PrefixLen_branch, (proj2 (Nat.eqb_neq _ _)) by (rewrite ?length_app; simpl; done || lia).
rewrite ninsert_short_branch in HiU |- * by done.
apply create_branch_spec; try done.
- by apply tkey_app in Hk as [_ Hk%tkey_idx].
- by eapply covered_below.
- intros s Hs. apply HtU. by right.
Qed.

Lemma inserts_leaf v vrest k0 v0 :
tkey k0 → key_ok k0 → value_ok v0 → value_ok v → inserts v vrest (NShort k0 (NValue v0)).
Proof.
intros Hk0 Hok0 Hv0 Hv k fuel dirty rest Hk Hok Hf Hd Hcov HtU HiU.
assert (2 ≤ fuel) by (pose proof (tkey_nonnil _ Hk); destruct k; [done|simpl in Hf; lia]).
destruct fuel as [|fuel]; [lia|].
destruct (short_cases k k0 Hk (or_introl Hk0) (tkey_nonnil _ Hk0))
  as [[r ->]|(p & x & a & y & b & -> & -> & Hxy)].
- pose proof (tkey_prefix _ _ Hk0 Hk) as ->. pose proof (tkey_nonnil _ Hk0).
  rewrite ninsert_short_same in HiU |- * by (by rewrite app_nil_r). rewrite app_nil_r in *.
  cbn [ninsert] in *. destruct k0 as [|x a] eqn:E; [done|]. rewrite <-E in *.
  rewrite (Insert_short _ _ _ _ _ _ _ x a) by done.
  rewrite PrefixLen_same, Nat.eqb_refl, drop_all. destruct fuel; cbn [Insert mbind outcome_bind deref];
    (destruct (keep_short dirty dirty k0 (NValue v) vrest) as (d' & -> & ?);
     [apply grown_refl; [done|by apply covered_leaf]|done|by apply value_small|apply HiU; by left|
      by exists d']).
- pose proof (tkey_app _ _ Hk0 ltac:(done)) as [Hp Hy].
  pose proof (tkey_app _ _ Hk ltac:(done)) as [_ Hx].
  apply key_ok_app in Hok as [_ Hoka%key_ok_cons].
  apply key_ok_app in Hok0 as Hokb. destruct Hokb as [_ Hokb%key_ok_cons].
  apply Insert_branch; try done.
  + by eapply tkey_idx.
  + lia.
  + by apply value_small.
  + left. by eexists.
  + apply wf_branch; by apply leaf_ok.
Qed.

Lemma inserts_ext v vrest k0 cs :
k0 ≠ [] → Forall nibble k0 → key_ok k0 → wf (NFull cs) → value_ok v →
inserts v vrest (NFull cs) → inserts v vrest (NShort k0 (NFull cs)).
Proof.
intros Hne Hk0 Hok0 Hw Hv IH k fuel dirty rest Hk Hok Hf Hd Hcov HtU HiU.
assert (2 ≤ fuel) by (pose proof (tkey_nonnil _ Hk); destruct k; [done|simpl in Hf; lia]).
destruct fuel as [|fuel]; [lia|].
destruct (short_cases k k0 Hk (or_intror Hk0) Hne)
  as [[r ->]|(p & x & a & y & b & -> & -> & Hxy)].
- rewrite ninsert_short_same in HiU |- * by (by destruct k0).
  apply tkey_below in Hk as Hr; [|done]. apply key_ok_app in Hok as [_ Hokr].
  assert (1 ≤ length k0) by (destruct k0; [done|simpl; lia]).
  rewrite length_app in Hf.
  destruct (k0 ++ r) as [|x a] eqn:E; [by destruct k0|].
  rewrite (Insert_short _ _ _ _ _ _ _ x a) by done. rewrite <-E.
  rewrite PrefixLen_app, Nat.eqb_refl, drop_app_length.
  destruct fuel as [|fuel]; [lia|]. assert (∃ y r', r = y :: r') as (y & r' & Er)
    by (pose proof (tkey_nonnil _ Hr); destruct r; [done|by eexists _, _]).
  unfold link. cbn [is_value].
  assert (Insert (S fuel) d dirty (encode_hash (enc (NFull cs)) ++ rest) r (enc (NValue v) ++ vrest)
          = Insert fuel d dirty (enc (NFull cs) ++ []) r (enc (NValue v) ++ vrest)) as ->.
  { rewrite Er. cbn [Insert]. rewrite type_link. cbv iota.
    rewrite (fetch dirty (NFull cs)); [by rewrite app_nil_r|done|by eapply covered_below| |by right].
    intros s Hs. apply HtU. by right. }
  destruct (IH r fuel dirty []) as (d1 & -> & Hg1); [done..|lia|done|by eapply covered_below| | |].
  { intros s Hs. apply HtU. by right. }
  { intros s Hs. apply HiU. by right. }
  cbn [mbind outcome_bind deref].
  rewrite <-(app_nil_r (enc (ninsert (NFull cs) r v))).
  destruct (keep_short dirty d1 k0 (ninsert (NFull cs) r v) []) as (d' & -> & ?);
    [done|by destruct r| |apply HiU; by left|by exists d'].
  apply wf_small, ninsert_wf; done.
- apply Forall_app in Hk0 as Hk0'. destruct Hk0' as [_ [Hy Hb]%Forall_cons].
  pose proof (tkey_app _ _ Hk ltac:(done)) as [_ Hx]. pose proof (idx_nibble y Hy).
  apply key_ok_app in Hok as [_ Hoka%key_ok_cons].
  apply key_ok_app in Hok0 as Hokb. destruct Hokb as [_ Hokb%key_ok_cons].
  apply Insert_branch; try done.
  + lia.
  + lia.
  + by apply wf_small.
  + by right.
  + apply wf_branch; [by apply leaf_ok|by apply ext_ok].
Qed.

(** The child of a full node, following the link. *)
Lemma full_child dirty cs c o rest :
wf (NFull cs) → cs !! idx c = Some o → delta_ok U dirty → covered d dirty (NFull cs) →
inners (NFull cs) ⊆ U →
∃ orest, (if (idx c =? 16)%nat then child_link cs (idx c) ++ rest
          else GetHashNodeChild d dirty (child_link cs (idx c) ++ rest)) = enc o ++ orest.
Proof.
intros Hwf Ho Hd Hcov HtU. pose proof (proj1 (wf_full_iff cs) Hwf) as [Hl Hcok].
destruct (Nat.eqb_spec (idx c) 16) as [E|E].
- exists rest. unfold child_link. by rewrite Ho, E.
- exists []. rewrite (child_link_below cs (idx c) E o Ho), app_nil_r. apply fetch; [done|..].
  + by eapply covered_child.
  + intros s Hs. apply HtU. by eapply inners_child.
  + apply wf_inner. specialize (Hcok _ _ Ho). unfold child_ok in Hcok.
    by rewrite (proj2 (Nat.eqb_neq _ 16)) in Hcok.
Qed.

Lemma inserts_full v vrest cs :
wf (NFull cs) → value_ok v →
(∀ i c, i < 16 → cs !! i = Some c → inserts v vrest c) → inserts v vrest (NFull cs).
Proof.
intros Hwf Hv IH k fuel dirty rest Hk Hok Hf Hd Hcov HtU HiU.
pose proof (proj1 (wf_full_iff cs) Hwf) as [Hl Hcok].
destruct k as [|c k]; [by apply tkey_nonnil in Hk|]. cbn [length] in Hf.
destruct fuel as [|fuel]; [lia|]. pose proof (tkey_idx _ _ Hk) as Hi.
destruct (child_lookup cs c Hl Hi) as [o Ho]. rewrite (ninsert_full _ _ _ _ o) in HiU |- * by done.
cbn [Insert]. rewrite enc_eq_type. cbv iota.
rewrite (key_index_spec _ 0 c k) by done. cbn [mbind outcome_bind].
destruct (getChildAtIndex_enc cs (idx c) rest Hl Hi) as [rest' Hget]. rewrite Hget.
cbn [mbind outcome_bind drop].
destruct (full_child dirty cs c o rest') as [orest ->]; [done..|].
change (drop 0 k) with k.
assert (∃ crest dirty1, Insert fuel d dirty (enc o ++ orest) k (enc (NValue v) ++ vrest)
    = Done (Some (enc (ninsert o k v) ++ crest), dirty1) ∧ grown dirty dirty1 (ninsert o k v) ∧
    small (ninsert o k v)) as (crest & dirty1 & -> & Hg1 & Hsm1).
{ destruct (wf_child _ _ _ _ Hwf Hk Ho) as [(-> & _ & _)|(Hk' & Hi' & Hwo)].
  - exists vrest, dirty. assert (ninsert o [] v = NValue v) as -> by (by destruct o).
    split_and!; [by destruct fuel|apply grown_refl; [done|by apply covered_leaf]|by apply value_small].
  - destruct (IH (idx c) o Hi' Ho k fuel dirty orest) as (d1 & -> & Hg1);
      [done|by apply key_ok_cons in Hok|lia|done|by eapply covered_child|..].
    + intros s Hs. apply HtU. by eapply inners_child.
    + intros s Hs. apply HiU. eapply inners_child; [|exact Hs].
      apply list_lookup_insert_eq. by rewrite Hl.
    + exists [], d1. rewrite app_nil_r. split_and!; [done..|].
      apply wf_small, ninsert_wf; [done..|by apply key_ok_cons in Hok|done]. }
cbn [mbind outcome_bind deref].
rewrite (setChildAtIndex_enc cs (idx c) (ninsert o k v) o) by (done || by apply wf_small).
cbn [mbind outcome_bind].
destruct (keep_full dirty dirty1 cs (idx c) o (ninsert o k v)) as (d' & -> & Hg');
  [done..|apply HiU; by left|done|by exists d'].
Qed.

Lemma Insert_spec v vrest t : wf t → value_ok v → inserts v vrest t.
Proof.
intros Hw Hv. induction Hw as [|k0 v0 Hk0 Hok0 Hv0|k0 cs Hne Hk0 Hok0 Hw IH|cs Hl Hc IH H16].
- intros k fuel dirty rest Hk Hok Hf Hd Hcov HtU HiU.
  destruct k as [|c k]; [by apply tkey_nonnil in Hk|]. cbn [length] in Hf.
  destruct fuel as [|fuel]; [lia|]. cbn [Insert]. rewrite enc_eq_type. cbv iota.
  destruct (keep_short dirty dirty (c :: k) (NValue v) vrest) as (d' & -> & ?);
    [apply grown_refl; [done|by apply covered_leaf]|done|by apply value_small|
     apply HiU; by left|by exists d'].
- by apply inserts_leaf.
- by apply inserts_ext.
- apply inserts_full; [by constructor|done..].
Qed.

(** ** Removal *)

Lemma single_child_full cs rest :
length cs = 17 → single_child (children (enc (NFull cs) ++ rest)) 0 (-1) = (-2)%Z.
Proof.
intros Hl. assert (∀ ms i, single_child ms i (-2) = -2)%Z as Hstop.
{ induction ms as [|m ms IH]; intros j; [done|]. cbn [single_child].
  destruct (is_type kMPTNil m); apply IH. }
assert (∀ j, j < 16 → ∃ rest', children (enc (NFull cs) ++ rest) !! j = Some (child_link cs j ++ rest') ∧
  is_type kMPTNil (child_link cs j ++ rest') = false) as Hch.
{ intros j Hj. destruct (getChildAtIndex_enc cs j rest Hl ltac:(lia)) as [rest' Hg].
  unfold getChildAtIndex in Hg. destruct (children _ !! j) as [m|] eqn:E; [|done].
  apply Done_inj in Hg as ->. exists rest'. split; [done|].
  destruct (lookup_lt_is_Some_2 cs j) as [c Hc]; [lia|].
  rewrite (child_link_below cs j) with (c := c) by (done || lia).
  unfold is_type. rewrite type_link. by apply bool_decide_false. }
destruct (Hch 0 ltac:(lia)) as (r0 & H0' & T0). destruct (Hch 1 ltac:(lia)) as (r1 & H1' & T1).
destruct (children (enc (NFull cs) ++ rest)) as [|m0 [|m1 ms]]; try done.
injection H0' as ->. injection H1' as ->. cbn [single_child]. rewrite T0, T1. apply Hstop.
Qed.

Lemma collapse_full dirty cs : length cs = 17 → collapse d dirty (enc (NFull cs)) = Done (enc (NFull cs)).
Proof.
intros Hl. unfold collapse. pose proof (single_child_full cs [] Hl) as Hp.
rewrite app_nil_r in Hp. by rewrite Hp.
Qed.

(** [TryRemove] on the chunk of [t] is [nremove]. *)
Definition removes (t : node) : Prop :=
∀ k fuel dirty rest,
tkey k → 2 * length k ≤ fuel → delta_ok U dirty → covered d dirty t →
inners t ⊆ U → inners (nremove t k) ⊆ U →
∃ m dirty', TryRemove fuel d dirty (enc t ++ rest) k = Done (Some m, dirty') ∧
  points_to m (nremove t k) ∧ grown dirty dirty' (nremove t k).

Lemma PrefixLen_le k k' : PrefixLen k k' ≤ length k ∧ PrefixLen k k' ≤ length k'.
Proof. revert k'. induction k as [|x k IH]; intros [|y k']; cbn; try lia. case_decide; [|lia]. specialize (IH k'). lia. Qed.

Lemma PrefixLen_take k k' :
(PrefixLen k k' <? length k') = negb (bool_decide (take (length k') k = k')).
Proof.
destruct (PrefixLen_spec k k') as (p & a & b & -> & -> & -> & Hd). rewrite length_app.
destruct b as [|y b].
- cbn [length]. rewrite !Nat.add_0_r, app_nil_r, take_app_length, bool_decide_true by done. apply Nat.ltb_irrefl.
- rewrite (proj2 (Nat.ltb_lt _ _)) by (simpl; lia). symmetry. apply negb_true_iff, bool_decide_false.
  intros E. rewrite take_app_add in E. apply app_inv_head in E.
  destruct a as [|x a]; [done|]. cbn in E. injection E as -> _. by eapply Hd.
Qed.

Lemma TryRemove_short fuel dirty k c rest key :
key_ok k →
TryRemove (S fuel) d dirty (enc (NShort k c) ++ rest) key
= if bool_decide (take (length k) key = k) then
    if (PrefixLen key k =? length key)%nat then Done (Some nil_chunk, dirty)
    else
      '(new_child, dirty) ← TryRemove fuel d dirty (link c ++ rest) (drop (PrefixLen key k) key);
      new_child ← deref new_child;
      Done (keep dirty
        (if is_type kMPTShort new_child
         then encode_short (k ++ getKey new_child) (childNode new_child)
         else encode_short k new_child))
  else Done (Some (enc (NShort k c) ++ rest), dirty).
Proof.
intros Hk. unfold key_ok in Hk. cbn [TryRemove]. rewrite enc_eq_type. cbv iota.
rewrite getKey_enc, childNode_enc by lia. rewrite PrefixLen_take. by case_bool_decide.
Qed.

Lemma removes_leaf k0 v0 : tkey k0 → key_ok k0 → removes (NShort k0 (NValue v0)).
Proof.
intros Hk0 Hok0 k fuel dirty rest Hk Hf Hd Hcov HtU HiU.
destruct fuel as [|fuel]; [pose proof (tkey_nonnil _ Hk); destruct k; [done|simpl in Hf; lia]|].
rewrite TryRemove_short by done. cbn [nremove] in *.
destruct (decide (take (length k0) k = k0)) as [E|E].
- rewrite bool_decide_true by done. apply tkey_take_prefix in E as ->; [|done..].
  rewrite PrefixLen_same, Nat.eqb_refl, drop_all.
  exists nil_chunk, dirty. split; [done|]. split; [apply points_to_nil|].
  apply grown_refl; [done|by apply covered_leaf].
- rewrite bool_decide_false by done. eexists _, dirty. split; [done|].
  split; [by eexists|by apply grown_refl].
Qed.

Lemma removes_ext k0 cs :
k0 ≠ [] → Forall nibble k0 → key_ok k0 → wf (NFull cs) →
removes (NFull cs) → removes (NShort k0 (NFull cs)).
Proof.
intros Hne Hk0 Hok0 Hw IH k fuel dirty rest Hk Hf Hd Hcov HtU HiU.
assert (2 ≤ fuel) by (pose proof (tkey_nonnil _ Hk); destruct k; [done|simpl in Hf; lia]).
destruct fuel as [|[|fuel]]; [lia|lia|]. rewrite TryRemove_short by done.
destruct (decide (take (length k0) k = k0)) as [E|E].
- rewrite bool_decide_true by done.
  rewrite <-(take_drop (length k0) k), E in Hk, Hf, HiU |- *. set (r := drop (length k0) k) in *.
  apply tkey_below in Hk as Hr; [|done]. pose proof (tkey_nonnil _ Hr) as Hrn.
  rewrite PrefixLen_app, drop_app_length.
  rewrite (proj2 (Nat.eqb_neq _ _)) by (rewrite length_app; destruct r; [done|simpl; lia]).
  assert (1 ≤ length k0) by (destruct k0; [done|simpl; lia]). rewrite length_app in Hf.
  rewrite nremove_short_below in HiU |- * by done.
  assert (inners (NFull cs) ⊆ U) as HcU by (intros s Hs; apply HtU; by right).
  assert (TryRemove (S fuel) d dirty (link (NFull cs) ++ rest) r
          = TryRemove fuel d dirty (enc (NFull cs) ++ []) r) as ->.
  { unfold link. cbn [is_value TryRemove]. rewrite type_link. cbv iota.
    rewrite (fetch dirty (NFull cs)); [by rewrite app_nil_r|done|by eapply covered_below|done|by right]. }
  destruct (IH r fuel dirty []) as (m1 & d1 & -> & [rest1 ->] & Hg1);
    [done|lia|done|by eapply covered_below|done|intros s Hs; apply HiU; by right|].
  cbn [mbind outcome_bind deref].
  destruct (nremove_is_full cs r) as [cs' Ecs].
  assert (wf (nremove (NFull cs) r)) as Hw' by (by apply nremove_wf).
  rewrite is_type_enc, Ecs, bool_decide_false by done. rewrite Ecs in *.
  destruct (keep_short dirty d1 k0 (NFull cs') rest1) as (d' & -> & ?);
    [done|done|by apply wf_small|apply HiU; by left|].
  eexists _, d'. split; [done|]. split; [exists []; by rewrite app_nil_r|done].
- rewrite bool_decide_false by done. cbn [nremove] in *. rewrite decide_False by done.
  eexists _, dirty. split; [done|]. split; [by eexists|by apply grown_refl].
Qed.

Lemma substr_next c k : substr (c :: k) 1 None = Done k.
Proof. reflexivity. Qed.

Lemma removes_child cs c k o fuel dirty orest :
wf (NFull cs) → tkey (c :: k) → cs !! idx c = Some o →
(∀ i c, i < 16 → cs !! i = Some c → removes c) →
delta_ok U dirty → covered d dirty (NFull cs) → inners (NFull cs) ⊆ U →
inners (NFull (<[idx c := nremove o k]> cs)) ⊆ U → 2 * length k + 1 ≤ fuel →
∃ m dirty1, TryRemove fuel d dirty (enc o ++ orest) k = Done (Some m, dirty1) ∧
  points_to m (nremove o k) ∧ grown dirty dirty1 (nremove o k) ∧ small (nremove o k).
Proof.
intros Hwf Hk Ho IH Hd Hcov HtU HiU Hf.
destruct (wf_child _ _ _ _ Hwf Hk Ho) as [(-> & _ & Ho')|(Hk' & Hi' & Hwo)].
- exists nil_chunk, dirty. destruct fuel; [lia|]. cbn [TryRemove]. rewrite enc_eq_type.
  assert (nremove o [] = NNil) as -> by (by destruct Ho' as [->|(v & -> & _)]).
  split; [by destruct Ho' as [->|(v & -> & _)]|]. split; [apply points_to_nil|].
  split; [|apply wf_small; constructor]. apply grown_refl; [done|by apply covered_leaf].
- destruct (IH (idx c) o Hi' Ho k fuel dirty orest) as (m & d1 & -> & Hm & Hg1);
    [done|lia|done|by eapply covered_child|..].
  + intros s Hs. apply HtU. by eapply inners_child.
  + intros s Hs. apply HiU. eapply inners_child; [|exact Hs].
    apply list_lookup_insert_eq. by eapply lookup_lt_Some.
  + exists m, d1. split_and!; [done..|]. by apply wf_small, nremove_wf.
Qed.

Lemma TryRemove_full fuel dirty m key :
type m = Some kMPTFull →
TryRemove (S fuel) d dirty m key
= (index ← key_index key 0;
   child ← getChildAtIndex m index;
   let ori_child := if (index =? 16)%nat then child else GetHashNodeChild d dirty child in
   key ← substr key 1 None;
   '(new_child, dirty) ← TryRemove fuel d dirty ori_child key;
   new_child ← deref new_child;
   new_root ← setChildAtIndex m index new_child ori_child;
   new_root ← collapse d dirty new_root;
   Done (keep dirty new_root)).
Proof. intros Hm. cbn [TryRemove]. by rewrite Hm. Qed.

Lemma removes_full cs :
wf (NFull cs) → (∀ i c, i < 16 → cs !! i = Some c → removes c) → removes (NFull cs).
Proof.
intros Hwf IH k fuel dirty rest Hk Hf Hd Hcov HtU HiU.
pose proof (proj1 (wf_full_iff cs) Hwf) as [Hl Hcok].
destruct k as [|c k]; [by apply tkey_nonnil in Hk|]. cbn [length] in Hf.
destruct fuel as [|fuel]; [lia|]. pose proof (tkey_idx _ _ Hk) as Hi.
destruct (child_lookup cs c Hl Hi) as [o Ho].
assert (wf (nremove (NFull cs) (c :: k))) as Hw' by (by apply nremove_wf).
rewrite (nremove_full _ _ _ o) in HiU, Hw' |- * by done.
rewrite TryRemove_full by apply enc_eq_type.
rewrite (key_index_spec _ 0 c k) by done. cbn [mbind outcome_bind].
destruct (getChildAtIndex_enc cs (idx c) rest Hl Hi) as [rest' Hget]. rewrite Hget.
cbn [mbind outcome_bind]. rewrite substr_next. cbn [mbind outcome_bind].
destruct (full_child dirty cs c o rest') as [orest ->]; [done..|].
destruct (removes_child cs c k o fuel dirty orest) as (m & dirty1 & -> & [crest ->] & Hg1 & Hsm1);
  [done..|lia|].
cbn [mbind outcome_bind deref].
rewrite (setChildAtIndex_enc cs (idx c) (nremove o k) o) by (done || by apply wf_small).
rewrite bind_Done, collapse_full, bind_Done by (by rewrite length_insert).
destruct (keep_full dirty dirty1 cs (idx c) o (nremove o k)) as (d' & -> & Hg');
  [done..|apply HiU; by left|done|].
eexists _, d'. split; [done|]. split; [exists []; by rewrite app_nil_r|done].
Qed.

Lemma TryRemove_spec t : wf t → removes t.
Proof.
intros Hw. induction Hw as [|k0 v0 Hk0 Hok0 Hv0|k0 cs Hne Hk0 Hok0 Hw IH|cs Hl Hc IH H16].
- intros k fuel dirty rest Hk Hf Hd Hcov HtU HiU.
  destruct k as [|c k]; [by apply tkey_nonnil in Hk|]. cbn [length] in Hf.
  destruct fuel as [|fuel]; [lia|]. exists nil_chunk, dirty. cbn [TryRemove nremove].
  rewrite enc_eq_type. split; [done|]. split; [apply points_to_nil|].
  apply grown_refl; [done|by apply covered_leaf].
- by apply removes_leaf.
- by apply removes_ext.
- apply removes_full; [by constructor|done].
Qed.
End Safe.

(** ** Commit *)

(** [d'] has what [d] has and may have nodes of [U]. *)
Record extends (U : list node) (d d' : D) : Prop := {
ext_keep : ∀ h m, cs_get d h = Some m → cs_get d' h = Some m;
ext_new : ∀ h, cs_get d' h ≠ cs_get d h → ∃ s, s ∈ U ∧ h = digest_of s;
}.

Lemma extends_refl U d : extends U d d.
Proof. by split. Qed.
Lemma extends_trans U d1 d2 d3 : extends U d1 d2 → extends U d2 d3 → extends U d1 d3.
Proof.
intros [K1 N1] [K2 N2]. split; [auto|]. intros h Hne.
destruct (decide (cs_get d3 h = cs_get d2 h)) as [E|E]; [|by apply N2]. apply N1. congruence.
Qed.

Lemma stored_extends U d d' t : extends U d d' → stored d t → stored d' t.
Proof. intros [K _] Hst s Hs. by apply K, Hst. Qed.

Lemma covered_extends U d d' dirty t : extends U d d' → covered d dirty t → covered d' dirty t.
Proof.
intros He Hc s Hs. destruct (Hc s Hs) as [?|?]; [by left|right]. by eapply stored_extends.
Qed.

Section Commit.
Context (U : list node) (dirty : delta) (Hdirty : delta_ok U dirty).
Context (Uwf : ∀ s, s ∈ U → small s).

Lemma commit_current_spec d s rest :
safe d U → s ∈ U →
let d' := commit_current d dirty (enc s ++ rest) in
extends U d d' ∧ safe d' U ∧
(dirty !! digest_of s = Some (enc s) ∨ cs_get d (digest_of s) = Some (enc s) →
 cs_get d' (digest_of s) = Some (enc s)).
Proof.
intros Hsafe Hs. unfold commit_current. rewrite chunk_hash_enc by auto. fold (digest_of s).
unfold DeltaGetChunk. destruct (dirty !! digest_of s) as [c|] eqn:E.
2: { split_and!; [apply extends_refl|done|]. by intros [?|?]. }
apply Hdirty in E as (s' & Hs' & Hh & ->). apply (safe_inj _ _ Hsafe) in Hh as Hen; [|done..].
rewrite <-Hen, decide_False by (by eapply safe_nil_ne).
assert (contents (enc s) = enc s) as Hcon by (rewrite <-(app_nil_r (enc s)) at 1; by rewrite contents_enc by auto).
assert (cs_get (cs_put d (digest_of s) (enc s)) (digest_of s) = Some (enc s)) as Hget
  by (by rewrite cs_get_put, Hcon).
split_and!; [split|split|by intros _].
- intros h m Hm. destruct (decide (digest_of s = h)) as [<-|Hne]; [|by rewrite cs_get_put_ne].
  apply (safe_db _ _ Hsafe) in Hm as ->; done.
- intros h Hne. destruct (decide (digest_of s = h)) as [<-|]; [by exists s|].
  by rewrite cs_get_put_ne in Hne.
- apply (safe_inj _ _ Hsafe).
- intros s2 m Hs2 Hm. destruct (decide (digest_of s = digest_of s2)) as [E|Hne].
  + rewrite <-E, Hget in Hm. injection Hm as <-. by apply (safe_inj _ _ Hsafe).
  + rewrite cs_get_put_ne in Hm by done. by eapply safe_db.
- rewrite cs_get_put_ne; [apply Hsafe|]. by apply (safe_nil_ne _ _ Hsafe).
- apply Hsafe.
Qed.

(** [Commit] of the chunk of [t] stores [t]. *)
Definition commits (fuel : nat) (d : D) (m : bytes) (t : node) : Prop :=
safe d U → covered d dirty t →
∃ d', Commit fuel dirty d m = Done d' ∧ extends U d d' ∧ safe d' U ∧ stored d' t.

Lemma commits_link fuel t d rest :
wf t → inners t ⊆ U → (is_inner t = true → ∀ d, commits fuel d (enc t) t) →
commits (S fuel) d (encode_hash (enc t) ++ rest) t.
Proof.
intros Hw HU IH Hsafe Hcov. cbn [Commit]. rewrite type_link, childHash_link. unfold DeltaGetChunk.
destruct (wf_inner t Hw) as [->|Hin].
- change (chunk_hash (enc NNil)) with nil_hash. destruct (dirty !! nil_hash) as [x|] eqn:E.
  + apply Hdirty in E as (s & Hs & Hh & _). by destruct (safe_nil_ne _ _ Hsafe s Hs).
  + exists d. split_and!; [done|apply extends_refl|done|]. by intros s ?%elem_of_nil.
- fold (digest_of t). destruct (dirty !! digest_of t) as [x|] eqn:E.
  + apply Hdirty in E as (s & Hs & Hh & ->).
    rewrite <-(safe_inj _ _ Hsafe t s); [by apply IH|by apply HU, inners_self|done..].
  + destruct (Hcov t (inners_self t Hin)) as [?|Hst]; [congruence|].
    exists d. split_and!; [done|apply extends_refl|done..].
Qed.

(** What the loop over the children sees at one of them. *)
Definition child_region (m : bytes) (c : node) : Prop :=
∃ rest, (m = encode_hash (enc c) ++ rest ∧ wf c) ∨ (m = enc c ++ rest ∧ is_inner c = false).

Lemma commit_children_spec fuel ms cs d :
Forall2 child_region ms cs →
Forall (λ c, inners c ⊆ U ∧ (is_inner c = true → ∀ d, commits fuel d (enc c) c)) cs →
safe d U → Forall (covered d dirty) cs →
∃ d', commit_children (Commit (S fuel) dirty) d ms = Done d' ∧ extends U d d' ∧ safe d' U ∧
  Forall (stored d') cs.
Proof.
intros HF. revert d. induction HF as [|m c ms cs Hm _ IH]; intros d HC Hsafe Hcov.
{ exists d. split_and!; [done|apply extends_refl|done|constructor]. }
apply Forall_cons in HC as [[HcU Hc] HC]. apply Forall_cons in Hcov as [Hcc Hcov].
assert (∃ d1, (if is_type kMPTHash m && negb (bool_decide (childHash m = nil_hash))
   then Commit (S fuel) dirty d m else Done d) = Done d1 ∧ extends U d d1 ∧ safe d1 U ∧ stored d1 c)
  as (d1 & Hd1 & He1 & Hs1 & Hst1).
{ destruct Hm as [rest [[-> Hw]|[-> Hin]]].
  - unfold is_type. rewrite type_link, bool_decide_true, childHash_link by done. cbn [andb].
    destruct (wf_inner c Hw) as [->|Hin].
    + rewrite bool_decide_true by done. cbn [negb]. exists d.
      split_and!; [done|apply extends_refl|done|]. by intros s ?%elem_of_nil.
    + rewrite bool_decide_false by (apply (safe_nil_ne _ _ Hsafe), HcU, inners_self, Hin).
      cbn [negb]. by apply commits_link.
  - rewrite is_type_enc, bool_decide_false by (by destruct c). cbn [andb]. exists d.
    split_and!; [done|apply extends_refl|done|]. intros s Hs. apply inners_inner in Hs as Hi.
    by destruct c; first [discriminate Hin|apply elem_of_nil in Hs]. }
cbn [commit_children]. rewrite Hd1. cbn [mbind outcome_bind].
destruct (IH d1 HC Hs1) as (d' & -> & He' & Hs' & Hst').
{ eapply Forall_impl; [exact Hcov|]. intros x. by apply (covered_extends U). }
exists d'. split_and!; [done|by eapply extends_trans|done|].
constructor; [by eapply stored_extends|done].
Qed.

Lemma children_regions cs rest : wf (NFull cs) → Forall2 child_region (children (enc (NFull cs) ++ rest)) cs.
Proof.
intros Hw. apply wf_full_iff in Hw as [Hl Hc].
apply Forall2_same_length_lookup_2.
{ unfold children. by rewrite length_fmap, length_seq. }
intros i m c Hm Hi. pose proof (lookup_lt_Some _ _ _ Hi) as Hlt.
destruct (getChildAtIndex_enc cs i rest Hl ltac:(lia)) as [rest' Hget].
unfold getChildAtIndex in Hget. rewrite Hm in Hget. apply Done_inj in Hget as ->.
exists rest'. unfold child_link. rewrite Hi. specialize (Hc i c Hi). unfold child_ok in Hc.
destruct (i =? 16); [right|by left]. split; [done|]. by destruct Hc as [->|(v & -> & _)].
Qed.

Lemma Commit_spec t fuel d rest :
wf t → inners t ⊆ U → 2 * klen t + 1 ≤ fuel → commits fuel d (enc t ++ rest) t.
Proof.
intros Hw. revert fuel d rest.
induction Hw as [|k0 v0 Hk0 Hok0 Hv0|k0 cs Hne Hk0 Hok0 Hw IH|cs Hl Hc IH H16];
  intros fuel d rest HU Hf Hsafe Hcov; (destruct fuel as [|fuel]; [lia|]); cbn [Commit]; rewrite enc_eq_type.
- exists d. split_and!; [done|apply extends_refl|done|]. by intros s ?%elem_of_nil.
- unfold key_ok in Hok0. rewrite childNode_enc by lia. unfold link. cbn [is_value].
  assert (Commit fuel dirty d (enc (NValue v0) ++ rest) = Done d) as ->.
  { destruct fuel; cbn [klen] in Hf; [pose proof (tkey_nonnil _ Hk0); destruct k0; simpl in Hf; done || lia|].
    cbn [Commit]. by rewrite enc_eq_type. }
  cbn [mbind outcome_bind]. eexists. split; [reflexivity|].
  destruct (commit_current_spec d (NShort k0 (NValue v0)) rest Hsafe) as (He & Hs & Hget); [apply HU; by left|].
  split_and!; [done..|]. intros s [->|Hs']%elem_of_cons; [|by apply elem_of_nil in Hs'].
  apply Hget. destruct (Hcov (NShort k0 (NValue v0))) as [?|Hst]; [by left|by left|right].
  apply Hst. by left.
- unfold key_ok in Hok0. rewrite childNode_enc by lia. unfold link. cbn [is_value].
  change (klen (NShort k0 (NFull cs))) with (length k0 + klen (NFull cs)) in Hf.
  assert (1 ≤ length k0) by (destruct k0; [done|simpl; lia]).
  destruct fuel as [|fuel]; [lia|].
  assert (inners (NFull cs) ⊆ U) as HcU by (intros s Hs; apply HU; by right).
  destruct (commits_link fuel (NFull cs) d rest Hw HcU) as (d1 & -> & He1 & Hs1 & Hst1); [|done|by eapply covered_below|].
  { intros _ d0. rewrite <-(app_nil_r (enc (NFull cs))). apply IH; [done|lia]. }
  cbn [mbind outcome_bind]. eexists. split; [reflexivity|].
  destruct (commit_current_spec d1 (NShort k0 (NFull cs)) rest Hs1) as (He & Hs & Hget); [apply HU; by left|].
  split_and!; [by eapply extends_trans|done|].
  intros s [->|Hs']%elem_of_cons; [|by eapply stored_extends; [exact He|exact Hst1|]].
  apply Hget. destruct (Hcov (NShort k0 (NFull cs))) as [?|Hst]; [by left|by left|right].
  apply (ext_keep _ _ _ He1), Hst. by left.
- assert (wf (NFull cs)) as Hwf by (by constructor).
  assert (∃ n, klen (NFull cs) = S n) as [n En] by (cbn [klen]; by eexists).
  destruct fuel as [|fuel]; [lia|].
  destruct (commit_children_spec fuel (children (enc (NFull cs) ++ rest)) cs d)
    as (d1 & -> & He1 & Hs1 & Hst1); [by apply children_regions| |done| |].
  { apply Forall_lookup. intros i c Hi. split; [intros s Hs; apply HU; by eapply inners_child|].
    intros Hin d0. pose proof (klen_child _ _ _ Hi). pose proof (lookup_lt_Some _ _ _ Hi).
    rewrite <-(app_nil_r (enc c)). destruct (decide (i = 16)) as [->|].
    - by destruct (H16 c Hi) as [->|(v & -> & _)].
    - apply (IH i); [lia|done| |lia]. intros s Hs. apply HU. by eapply inners_child. }
  { apply Forall_lookup. intros i c Hi. by eapply covered_child. }
  cbn [mbind outcome_bind]. eexists. split; [reflexivity|].
  destruct (commit_current_spec d1 (NFull cs) rest Hs1) as (He & Hs & Hget); [apply HU; by left|].
  split_and!; [by eapply extends_trans|done|].
  intros s [->|(i & c & Hi & Hs')]%elem_of_inners_full.
  + apply Hget. destruct (Hcov (NFull cs)) as [?|Hst]; [by left|by left|right].
    apply (ext_keep _ _ _ He1), Hst. by left.
  + rewrite Forall_lookup in Hst1. by eapply stored_extends; [exact He|apply (Hst1 i c Hi)|].
Qed.
End Commit.
End Refinement.
