(* ===== verification/TrieMap.v ===== *)
(** * The Merkle Patricia trie as a versioned map

    The properties of the trie that [LedgerDB] relies on, stated for the
    operations of [Trie] on a store that holds the trie under its root
    digest. *)

From S2P Require Import Prelude Cpp Hash Chunk DB MPTNode Trie TrieSpec TrieProof.

Open Scope nat_scope.

(** ** Keys *)

(** Keys of 7-bit characters; see [Get_high_byte] for the others. *)
Definition ascii_key (key : bytes) : Prop := Forall (λ c, (N_of_ascii c < 128)%N) key.

Definition hex_high (c : ascii) : ascii := char_of_Z (Z.quot (int8 c) 16).
Definition hex_low (c : ascii) : ascii := char_of_Z (Z.rem (int8 c) 16).

Lemma hex_nibbles c : (N_of_ascii c < 128)%N → nibble (hex_high c) ∧ nibble (hex_low c).
Proof.
  destruct c as [[] [] [] [] [] [] [] []]; vm_compute; intros Hc; try discriminate Hc; by split.
Qed.

Lemma hex_decode c :
  (N_of_ascii c < 128)%N → ascii_of_N (16 * N_of_ascii (hex_high c) + N_of_ascii (hex_low c)) = c.
Proof.
  destruct c as [[] [] [] [] [] [] [] []]; vm_compute; intros Hc; try discriminate Hc; done.
Qed.

Lemma KeybytesToHex_cons c key :
  KeybytesToHex (c :: key) = hex_high c :: hex_low c :: KeybytesToHex key.
Proof. done. Qed.

Lemma length_KeybytesToHex key : length (KeybytesToHex key) = 2 * length key + 1.
Proof. induction key as [|c key IH]; [done|]. rewrite KeybytesToHex_cons. simpl. lia. Qed.

Lemma KeybytesToHex_tkey key : ascii_key key → tkey (KeybytesToHex key).
Proof.
  induction 1 as [|c key Hc _ IH]; [constructor|]. rewrite KeybytesToHex_cons.
  destruct (hex_nibbles c Hc). apply tkey_cons; [done|]. by apply tkey_cons.
Qed.

Lemma KeybytesToHex_inj key key' :
  ascii_key key → ascii_key key' → KeybytesToHex key = KeybytesToHex key' → key = key'.
Proof.
  intros Hk. revert key'. induction Hk as [|c key Hc _ IH]; intros ? Hk' E;
    destruct Hk' as [|c' key' Hc' Hk']; [done|..].
  - apply (f_equal length) in E; rewrite !length_KeybytesToHex in E; simpl in E; lia.
  - apply (f_equal length) in E; rewrite !length_KeybytesToHex in E; simpl in E; lia.
  - rewrite !KeybytesToHex_cons in E. injection E as Eh El E.
    rewrite <-(hex_decode c Hc), <-(hex_decode c' Hc'), Eh, El. f_equal. by apply IH.
Qed.

(** What the operations ask of a key and a value. *)
Definition entry_ok (kv : bytes * bytes) : Prop :=
  ascii_key kv.1 ∧ key_ok (KeybytesToHex kv.1) ∧ value_ok kv.2.

Definition ascii_keyb (key : bytes) : bool := forallb (λ c, N_of_ascii c <? 128)%N key.
Definition entries_okb (kvs : list (bytes * bytes)) : bool :=
  forallb (λ kv, ascii_keyb kv.1
    && (N.of_nat (length (KeybytesToHex kv.1)) <? 2 ^ 30)%N
    && (N.of_nat (length kv.2) <? 2 ^ 31)%N) kvs.

Lemma ascii_keyb_ok key : ascii_keyb key = true → ascii_key key.
Proof.
  unfold ascii_keyb, ascii_key. rewrite forallb_forall, Forall_forall. intros Hk c Hc.
  apply N.ltb_lt, Hk. by apply list_elem_of_In.
Qed.

Lemma entries_okb_ok kvs : entries_okb kvs = true → Forall entry_ok kvs.
Proof.
  unfold entries_okb. rewrite forallb_forall, Forall_forall. intros Hk kv Hkv.
  apply list_elem_of_In, Hk in Hkv. apply andb_true_iff in Hkv as [Hkv H3].
  apply andb_true_iff in Hkv as [H1 H2]. apply N.ltb_lt in H2, H3.
  split_and!; [by apply ascii_keyb_ok|done..].
Qed.

Section TrieMap.
Context `{Blake2b, ChunkStoreLaws D}.

(** The store holds the trie [t]. *)
Definition holds (d : D) (t : node) : Prop := wf t ∧ stored d t.

Definition lookup_key (t : node) (key : bytes) : bytes := default [] (nlookup t (KeybytesToHex key)).

Lemma Get_spec d t key fuel rest :
cs_get d nil_hash = None → holds d t → ascii_key key → 2 * (2 * length key + 1) ≤ fuel →
Get fuel d (enc t ++ rest) key = Done (lookup_key t key).
Proof.
intros Hnil [Hw Hst] Hk Hf. unfold Get. eapply TryGet_spec; try done.
- by split; [intros s ? Hs%elem_of_nil|intros s ? Hs%elem_of_nil| |intros s Hs%elem_of_nil].
- by apply KeybytesToHex_tkey.
- by rewrite length_KeybytesToHex.
Qed.

(** ** Insertion of a list of entries *)

Fixpoint insert_tree (t : node) (kvs : list (bytes * bytes)) : node :=
match kvs with
| [] => t
| (key, val) :: kvs => insert_tree (ninsert t (KeybytesToHex key) val) kvs
end.

(** All nodes of all trees on the way. *)
Fixpoint universe (t : node) (kvs : list (bytes * bytes)) : list node :=
inners t ++ match kvs with
            | [] => []
            | (key, val) :: kvs => universe (ninsert t (KeybytesToHex key) val) kvs
            end.

Lemma universe_start t kvs : inners t ⊆ universe t kvs.
Proof. destruct kvs as [|[]]; cbn [universe]; intros s Hs; apply elem_of_app; by left. Qed.

Lemma universe_end t kvs : inners (insert_tree t kvs) ⊆ universe t kvs.
Proof.
revert t. induction kvs as [|[key val] kvs IH]; intros t; cbn [universe insert_tree];
  intros s Hs; apply elem_of_app; [by left|right]. by apply IH.
Qed.

Lemma insert_tree_wf t kvs : wf t → Forall entry_ok kvs → wf (insert_tree t kvs).
Proof.
intros Hw HF. revert t Hw. induction HF as [|[key val] kvs (Hk & Hok & Hv) _ IH]; intros t Hw; [done|].
cbn [insert_tree]. apply IH, ninsert_wf; try done. by apply KeybytesToHex_tkey.
Qed.

Lemma inners_small t s : wf t → s ∈ inners t → small s.
Proof.
induction 1 as [|k v Hk Hok Hv|k cs Hne Hk Hok Hw IH|cs Hl Hc IH H16].
- by intros ?%elem_of_nil.
- intros [->|?%elem_of_nil]%elem_of_cons; [|done]. apply wf_small. by constructor.
- intros [->|Hs]%elem_of_cons; [|auto]. apply wf_small. by constructor.
- intros [->|(i & c & Hi & Hs)]%elem_of_inners_full; [apply wf_small; by constructor|].
  pose proof (lookup_lt_Some _ _ _ Hi). destruct (decide (i = 16)) as [->|].
  + by destruct (H16 c Hi) as [->|(v & -> & _)]; apply elem_of_nil in Hs.
  + apply (IH i c); [lia|done..].
Qed.

Lemma universe_small t kvs s : wf t → Forall entry_ok kvs → s ∈ universe t kvs → small s.
Proof.
intros Hw HF. revert t Hw. induction HF as [|[key val] kvs (Hk & Hok & Hv) _ IH]; intros t Hw;
  cbn [universe]; rewrite elem_of_app; intros [Hs|Hs]; try (by eapply inners_small).
- by apply elem_of_nil in Hs.
- eapply IH; [|exact Hs]. apply ninsert_wf; try done. by apply KeybytesToHex_tkey.
Qed.

Lemma klen_insert_tree t kvs K :
wf t → Forall entry_ok kvs → klen t ≤ K →
Forall (λ kv, length (KeybytesToHex kv.1) ≤ K) kvs → klen (insert_tree t kvs) ≤ K.
Proof.
intros Hw HF. revert t Hw. induction HF as [|[key val] kvs (Hk & Hok & Hv) _ IH]; intros t Hw Ht HK; [done|].
apply Forall_cons in HK as [HK1 HK]. cbn [insert_tree fst] in *. apply KeybytesToHex_tkey in Hk.
apply IH; [by apply ninsert_wf|etrans; [by apply klen_ninsert|lia]|done].
Qed.

(** The value the list gives to a key: the last entry counts. *)
Fixpoint last_value (kvs : list (bytes * bytes)) (key : bytes) : option bytes :=
match kvs with
| [] => None
| (key', val) :: kvs =>
    match last_value kvs key with
    | Some v => Some v
    | None => if decide (key = key') then Some val else None
    end
end.

Lemma lookup_insert_tree t kvs key :
wf t → Forall entry_ok kvs → ascii_key key →
lookup_key (insert_tree t kvs) key = default (lookup_key t key) (last_value kvs key).
Proof.
intros Hw HF Hkey. revert t Hw. induction HF as [|[key' val] kvs (Hk & Hok & Hv) _ IH]; intros t Hw; [done|].
cbn [insert_tree last_value fst snd] in *. pose proof (KeybytesToHex_tkey _ Hk) as Hk'.
rewrite IH by (by apply ninsert_wf). destruct (last_value kvs key) as [v|]; [done|].
unfold lookup_key. rewrite nlookup_ninsert by (try done; by apply KeybytesToHex_tkey).
cbn [from_option id]. destruct (decide (key = key')) as [->|Hne].
- by rewrite decide_True by done.
- rewrite decide_False; [done|]. by intros ?%KeybytesToHex_inj.
Qed.

Lemma insert_all_spec d U t kvs fuel dirty rest :
safe d U → wf t → Forall entry_ok kvs → universe t kvs ⊆ U → delta_ok U dirty → covered d dirty t →
Forall (λ kv, 2 * length (KeybytesToHex kv.1) ≤ fuel) kvs →
∃ dirty' rest', insert_all fuel d dirty (enc t ++ rest) kvs
          = Done (enc (insert_tree t kvs) ++ rest', dirty') ∧
  delta_ok U dirty' ∧ covered d dirty' (insert_tree t kvs).
Proof.
intros Hsafe Hw HF. revert t dirty rest Hw.
induction HF as [|[key val] kvs (Hk & Hok & Hv) HF IH]; intros t dirty rest Hw HU Hd Hcov Hfuel.
{ by exists dirty, rest. }
apply Forall_cons in Hfuel as [Hf1 Hfuel]. cbn [insert_all insert_tree fst snd universe] in *.
apply KeybytesToHex_tkey in Hk.
assert (universe (ninsert t (KeybytesToHex key) val) kvs ⊆ U) as HU'
  by (intros s Hs; apply HU, elem_of_app; by right).
destruct (Insert_spec d U Hsafe val [] t Hw Hv (KeybytesToHex key) fuel dirty rest)
  as (d1 & Hins & Hd1 & _ & Hc1); [done..| | |].
{ intros s Hs. apply HU, elem_of_app. by left. }
{ intros s Hs. apply HU', universe_start, Hs. }
change (encode_value val) with (enc (NValue val)). rewrite app_nil_r in Hins. rewrite Hins.
cbn [mbind outcome_bind deref]. rewrite <-(app_nil_r (enc (ninsert t _ _))).
apply IH; [by apply ninsert_wf|done..].
Qed.

(** ** Setting and reading *)

Lemma SetNodeForHash_spec d U t :
safe d U → inners t ⊆ U → holds d t → SetNodeForHash d (digest_of t) = enc t.
Proof.
intros Hsafe HU [Hw Hst]. unfold SetNodeForHash.
destruct (wf_inner t Hw) as [->|Hin].
- by rewrite decide_True.
- rewrite decide_False by (apply (safe_nil_ne _ _ Hsafe), HU, inners_self, Hin).
  by rewrite (Hst t (inners_self t Hin)).
Qed.

Lemma Set_all_spec d t kvs fuel K :
holds d t → Forall entry_ok kvs → safe d (universe t kvs) →
klen t ≤ K → Forall (λ kv, length (KeybytesToHex kv.1) ≤ K) kvs → 2 * K + 1 ≤ fuel →
∃ d', Set_all fuel d (enc t) kvs = Done (d', digest_of (insert_tree t kvs)) ∧
  extends (universe t kvs) d d' ∧ safe d' (universe t kvs) ∧ holds d' (insert_tree t kvs).
Proof.
intros [Hw Hst] HF Hsafe HtK HK Hf. destruct kvs as [|kv kvs].
{ exists d. split; [done|]. split; [apply extends_refl|]. done. }
unfold Set_all. rewrite <-(app_nil_r (enc t)).
destruct (insert_all_spec d (universe t (kv :: kvs)) t (kv :: kvs) fuel ∅ [])
  as (dirty & rest & -> & Hd & Hcov); [done..|by intros h c ?%lookup_empty_Some|by apply stored_covered| |].
{ eapply Forall_impl; [exact HK|]. cbv beta. lia. }
cbn [mbind outcome_bind]. pose proof (insert_tree_wf _ _ Hw HF) as Hw'.
destruct (Commit_spec (universe t (kv :: kvs)) dirty Hd) with
  (t := insert_tree t (kv :: kvs)) (fuel := fuel) (d := d) (rest := rest)
  as (d' & -> & He & Hs' & Hst'); [|done|apply universe_end| |done|done|].
{ intros s Hs. by eapply (universe_small t (kv :: kvs)). }
{ pose proof (klen_insert_tree _ _ K Hw HF HtK HK). lia. }
exists d'. cbn [mbind outcome_bind]. rewrite chunk_hash_enc by (by apply wf_small).
split; [done|]. split_and!; done.
Qed.

(** ** Proofs *)

(** The chunks and positions of a proof that climbs down from [t] to the value
[v]: they verify against the digest of [t]. *)
Definition verifies (t : node) (v : bytes) (cs : list bytes) (ps : list nat) : Prop :=
length cs = length ps ∧
∀ key pos, verify_chunks v key (digest_of t) pos (zip cs ps) = Done true.

Lemma verify_head t rest : small t → hash_neqb (Some (digest_of t)) (Some (chunk_hash (enc t ++ rest))) = false.
Proof. intros Hs. unfold hash_neqb, hash_eqb. rewrite chunk_hash_enc by done. by rewrite bool_decide_true. Qed.

Lemma verifies_leaf k v :
tkey k → key_ok k → value_ok v → v ≠ [] → verifies (NShort k (NValue v)) v [enc (NShort k (NValue v))] [0].
Proof.
intros Hk Hok Hv Hne. split; [done|]. intros key pos. cbn [zip zip_with verify_chunks].
rewrite verify_head by (apply wf_small; by constructor). rewrite is_type_enc, bool_decide_false by done.
destruct v as [|x v]; [done|]. unfold key_ok in Hok. rewrite childNode_enc by lia.
unfold link. cbn [is_value]. rewrite is_type_enc, bool_decide_false by done.
rewrite getVal_enc by (by apply value_small). by rewrite decide_False by (by intros []).
Qed.

Lemma verifies_ext k cs v chs ps :
k ≠ [] → Forall nibble k → key_ok k → wf (NFull cs) → v ≠ [] → verifies (NFull cs) v chs ps →
verifies (NShort k (NFull cs)) v (enc (NShort k (NFull cs)) :: chs) (0 :: ps).
Proof.
intros Hne Hk Hok Hw Hv [Hl HV]. split; [by cbn; rewrite Hl|]. intros key pos. cbn [zip zip_with verify_chunks].
rewrite verify_head by (apply wf_small; by constructor). rewrite is_type_enc, bool_decide_false by done.
destruct v as [|x v]; [done|]. unfold key_ok in Hok. rewrite childNode_enc by lia.
unfold link. cbn [is_value]. unfold is_type at 1. rewrite type_link, bool_decide_true by done.
rewrite childHash_link. apply HV.
Qed.

Lemma verifies_value cs v c :
wf (NFull cs) → cs !! 16 = Some (NValue v) → value_ok v → c = 16 →
verifies (NFull cs) v [enc (NFull cs)] [c].
Proof.
intros Hw Hc Hv ->. split; [done|]. intros key pos. cbn [zip zip_with verify_chunks].
rewrite verify_head by (by apply wf_small). rewrite is_type_enc, bool_decide_true by done.
pose proof (proj1 (wf_full_iff cs) Hw) as [Hl _].
destruct (getChildAtIndex_enc cs 16 ["000"%char] Hl ltac:(lia)) as [rest' ->].
cbn [mbind outcome_bind]. unfold child_link. rewrite Hc. cbn [Nat.eqb].
rewrite getVal_enc by (by apply value_small). by rewrite decide_False by (by intros []).
Qed.

Lemma verifies_child cs i c v chs ps :
wf (NFull cs) → cs !! i = Some c → i < 16 → verifies c v chs ps →
verifies (NFull cs) v (enc (NFull cs) :: chs) (i :: ps).
Proof.
intros Hw Hc Hi [Hlen HV]. split; [by cbn; rewrite Hlen|]. intros key pos. cbn [zip zip_with verify_chunks].
rewrite verify_head by (by apply wf_small). rewrite is_type_enc, bool_decide_true by done.
pose proof (proj1 (wf_full_iff cs) Hw) as [Hl _].
destruct (getChildAtIndex_enc cs i ["000"%char] Hl ltac:(lia)) as [rest' ->].
cbn [mbind outcome_bind]. rewrite (child_link_below cs i) with (c := c) by (done || lia).
rewrite (proj2 (Nat.eqb_neq _ _)) by lia. rewrite childHash_link. apply HV.
Qed.

(** [TryGetProof] appends such a path to the proof. *)
Definition proves (d : D) (t : node) : Prop :=
∀ key pos k fuel rest v p,
stored d t → tkey k → drop pos key = k → 2 * length k ≤ fuel → nlookup t k = Some v → v ≠ [] →
∃ p' cs ps, TryGetProof fuel d (enc t ++ rest) key pos p = Done p' ∧
  map_chunks p' = map_chunks p ++ cs ∧ map_pos p' = map_pos p ++ ps ∧
  value_ p' = v ∧ verifies t v cs ps.

Lemma key_pos (key k : bytes) pos : tkey k → drop pos key = k → pos ≤ length key.
Proof.
intros Hk%tkey_nonnil E. apply (f_equal length) in E. rewrite length_drop in E.
destruct k; [done|simpl in E; lia].
Qed.

Lemma contents_enc_exact t rest : small t → contents (enc t ++ rest) = enc t.
Proof. apply contents_enc. Qed.

Lemma TryGetProof_link fuel d c rest key pos p :
is_inner c = true → stored d c →
TryGetProof (S fuel) d (encode_hash (enc c) ++ rest) key pos p = TryGetProof fuel d (enc c ++ []) key pos p.
Proof.
intros Hin Hst. cbn [TryGetProof]. rewrite type_link, childHash_link, app_nil_r. fold (digest_of c).
by rewrite (Hst c (inners_self c Hin)).
Qed.

Lemma proves_leaf d k0 v0 : tkey k0 → key_ok k0 → value_ok v0 → proves d (NShort k0 (NValue v0)).
Proof.
intros Hk0 Hok0 Hv0 key pos k fuel rest v p Hst Hk Hpos Hf Hl Hv.
pose proof (key_pos _ _ _ Hk Hpos).
assert (2 ≤ fuel) by (pose proof (tkey_nonnil _ Hk); destruct k; [done|simpl in Hf; lia]).
destruct fuel as [|[|fuel]]; [lia|lia|]. cbn [nlookup] in Hl.
destruct (decide (take (length k0) k = k0)) as [E|E]; [|done].
apply tkey_take_prefix in E as ->; [|done..]. rewrite drop_all in Hl. injection Hl as <-.
remember (S fuel) as f eqn:Ef. cbn [TryGetProof]. rewrite enc_eq_type. cbv iota.
pose proof Hok0 as Hlen. unfold key_ok in Hlen.
rewrite getKey_enc, childNode_enc, (short_match_spec k0 key pos), Hpos by (done || lia).
rewrite bind_Done, take_ge, bool_decide_true by done. unfold link. cbn [is_value]. subst f.
cbn [TryGetProof]. rewrite enc_eq_type.
eexists _, _, _. split; [reflexivity|]. cbn [SetValue AppendProof map_chunks map_pos value_].
rewrite contents_enc by (apply wf_small; by constructor).
split_and!; [done|done| |by apply verifies_leaf].
by rewrite getVal_enc by (by apply value_small).
Qed.

Lemma proves_ext d k0 cs :
k0 ≠ [] → Forall nibble k0 → key_ok k0 → wf (NFull cs) → proves d (NFull cs) →
proves d (NShort k0 (NFull cs)).
Proof.
intros Hne Hk0 Hok0 Hw IH key pos k fuel rest v p Hst Hk Hpos Hf Hl Hv.
pose proof (key_pos _ _ _ Hk Hpos). cbn [nlookup] in Hl. fold (nlookup (NFull cs)) in Hl.
destruct (decide (take (length k0) k = k0)) as [E|E]; [|done].
assert (length k = length k0 + length (drop (length k0) k)) as Hlk.
{ rewrite <-(take_drop (length k0) k) at 1. by rewrite E, length_app. }
assert (tkey (drop (length k0) k)) as Hk'.
{ rewrite <-(take_drop (length k0) k), E in Hk. by apply tkey_below in Hk. }
assert (1 ≤ length k0) by (destruct k0; [done|simpl; lia]).
destruct fuel as [|[|fuel]]; [lia|lia|].
assert (TryGetProof (S (S fuel)) d (enc (NShort k0 (NFull cs)) ++ rest) key pos p
  = TryGetProof fuel d (enc (NFull cs) ++ []) key (pos + length k0)
      (AppendProof p (enc (NShort k0 (NFull cs)) ++ rest) 0)) as ->.
{ remember (S fuel) as f eqn:Ef. cbn [TryGetProof]. rewrite enc_eq_type. cbv iota. unfold key_ok in Hok0.
  rewrite getKey_enc, childNode_enc, (short_match_spec k0 key pos), Hpos by (done || lia).
  rewrite bind_Done, bool_decide_true by done. subst f. rewrite <-(TryGetProof_link fuel d (NFull cs) rest);
    [done|done|by eapply stored_below]. }
destruct (IH key (pos + length k0) (drop (length k0) k) fuel [] v
  (AppendProof p (enc (NShort k0 (NFull cs)) ++ rest) 0)) as (p' & chs & ps & -> & Hc & Hp & Hval & HV);
  [by eapply stored_below|done|by rewrite <-drop_drop, Hpos|lia|done|done|].
eexists p', _, _. split; [done|]. rewrite Hc, Hp. cbn [AppendProof map_chunks map_pos].
rewrite contents_enc, <-!app_assoc by (apply wf_small; by constructor).
split_and!; [done|done|done|by apply verifies_ext].
Qed.

Lemma proves_full d cs :
wf (NFull cs) → (∀ i c, i < 16 → cs !! i = Some c → proves d c) → proves d (NFull cs).
Proof.
intros Hwf IH key pos k fuel rest v p Hst Hk Hpos Hf Hl Hv.
pose proof (proj1 (wf_full_iff cs) Hwf) as [Hlen _].
destruct k as [|c k]; [by apply tkey_nonnil in Hk|]. cbn [length] in Hf.
pose proof (tkey_idx _ _ Hk) as Hi. destruct (child_lookup cs c Hlen Hi) as [o Ho].
rewrite (nlookup_full _ _ _ o) in Hl by done.
destruct fuel as [|[|fuel]]; [lia|lia|].
destruct (getChildAtIndex_enc cs (idx c) rest Hlen Hi) as [rest' Hget].
assert (TryGetProof (S (S fuel)) d (enc (NFull cs) ++ rest) key pos p
  = TryGetProof (S fuel) d (child_link cs (idx c) ++ rest') key (pos + 1)
      (AppendProof p (enc (NFull cs) ++ rest) (idx c))) as ->.
{ remember (S fuel) as f. cbn [TryGetProof]. rewrite enc_eq_type, (key_index_spec _ _ c k) by done.
  rewrite !bind_Done, Hget. by rewrite bind_Done. }
set (p1 := AppendProof p (enc (NFull cs) ++ rest) (idx c)).
assert (map_chunks p1 = map_chunks p ++ [enc (NFull cs)]) as Hp1.
{ unfold p1. cbn [AppendProof map_chunks]. by rewrite contents_enc by (by apply wf_small). }
destruct (wf_child _ _ _ _ Hwf Hk Ho) as [(-> & Hi16 & Ho')|(Hk' & Hi' & Hwo)].
- destruct Ho' as [->|(v' & -> & Hv')]; [done|]. injection Hl as ->.
  unfold child_link. rewrite Ho, Hi16. cbn [Nat.eqb TryGetProof]. rewrite enc_eq_type.
  eexists _, _, _. split; [reflexivity|]. cbn [SetValue map_chunks map_pos value_].
  rewrite Hp1. split_and!; [done|done|by rewrite getVal_enc by (by apply value_small)|].
  rewrite Hi16 in Ho. by apply verifies_value.
- rewrite (child_link_below cs (idx c)) with (c := o) by (done || lia).
  assert (is_inner o = true) as Hin by (by destruct (wf_inner o Hwo) as [->|]).
  rewrite TryGetProof_link by (done || by eapply stored_child).
  destruct (IH (idx c) o Hi' Ho key (pos + 1) k fuel [] v p1) as (p' & chs & ps & -> & Hc & Hp & Hval & HV);
    [by eapply stored_child|done|by eapply drop_next|lia|done|done|].
  eexists p', _, _. split; [done|]. rewrite Hc, Hp, Hp1.
  change (map_pos p1) with (map_pos p ++ [idx c]). rewrite <-!app_assoc.
  split_and!; [done|done|done|by eapply verifies_child].
Qed.

Lemma TryGetProof_spec d t : wf t → proves d t.
Proof.
intros Hw. induction Hw as [|k0 v0 Hk0 Hok0 Hv0|k0 cs Hne Hk0 Hok0 Hw IH|cs Hl Hc IH H16].
- by intros key pos k fuel rest v p _ _ _ _ [=].
- by apply proves_leaf.
- by apply proves_ext.
- apply proves_full; [by constructor|done].
Qed.

Lemma GetProof_holds d t key fuel v :
holds d t → ascii_key key → 2 * (2 * length key + 1) ≤ fuel →
nlookup t (KeybytesToHex key) = Some v → v ≠ [] →
∃ p, Trie_GetProof fuel d (enc t) key = Done p ∧ value_ p = v ∧
  ∀ key', VerifyProof p (digest_of t) key' = Done true.
Proof.
intros [Hw Hst] Hk Hf Hl Hv. unfold Trie_GetProof.
destruct (TryGetProof_spec d t Hw (KeybytesToHex key) 0 (KeybytesToHex key) fuel [] v empty_proof)
  as (p & cs & ps & Hget & Hc & Hp & Hval & _ & HV);
  [done|by apply KeybytesToHex_tkey|done|by rewrite length_KeybytesToHex|done|done|].
rewrite app_nil_r in Hget. exists p. split; [done|]. split; [done|]. intros key'. unfold VerifyProof.
rewrite Hval, Hc, Hp. apply HV.
Qed.
End TrieMap.

(** ** Properties *)

(** C3.  [Trie::Set] of a list of entries, on a store that holds a trie,
    returns within its fuel the digest of a trie in which every key reads the
    last value the list gives to it and every other key reads what it read
    before; the digests of the nodes involved must be distinct.  Every trie the
    store held is still there, so earlier roots keep reading the same values. *)
Theorem Set_get `{Blake2b, ChunkStoreLaws D} d t kvs fuel K :
  holds d t → Forall entry_ok kvs → safe d (universe t kvs) →
  klen t ≤ K → Forall (λ kv, length (KeybytesToHex kv.1) ≤ K) kvs → 2 * K + 1 ≤ fuel →
  ∃ d' h, Set_all fuel d (enc t) kvs = Done (d', h) ∧
    (∀ key, ascii_key key → 2 * (2 * length key + 1) ≤ fuel →
       Get fuel d' (SetNodeForHash d' h) key
       = match last_value kvs key with Some v => Done v | None => Get fuel d (enc t) key end ∧
       ∀ t0, holds d t0 → Get fuel d' (enc t0) key = Get fuel d (enc t0) key).
Proof.
  intros Hh HF Hsafe HtK HK Hf.
  destruct (Set_all_spec d t kvs fuel K) as (d' & -> & He & Hs' & Hh'); [done..|].
  eexists d', _. split; [done|]. intros key Hk Hkf.
  pose proof (safe_nil _ _ Hsafe) as Hnil. pose proof (safe_nil _ _ Hs') as Hnil'. split.
  - rewrite (SetNodeForHash_spec d' (universe t kvs)) by (done || apply universe_end).
    rewrite <-(app_nil_r (enc (insert_tree t kvs))), <-(app_nil_r (enc t)), !Get_spec by done.
    rewrite lookup_insert_tree by (done || apply Hh). by destruct (last_value kvs key).
  - intros t0 [Hw0 Hst0]. rewrite <-(app_nil_r (enc t0)), !Get_spec; try done.
    split; [done|by eapply stored_extends].
Qed.

(** A decidable form of [safe]. *)
Definition distinct_digests `{Blake2b} (d : gmap bytes bytes) (U : list node) : bool :=
  let ds := (λ s, (digest_of s, enc s)) <$> U in
  let nil := nil_hash in
  bool_decide (d !! nil = None) &&
  forallb (λ x, negb (bool_decide (x.1 = nil)) &&
    match d !! x.1 with Some m => bool_decide (m = x.2) | None => true end &&
    forallb (λ y, bool_decide (x.1 = y.1 → x.2 = y.2)) ds) ds.

Lemma safe_check `{Blake2b} (d : gmap bytes bytes) U : distinct_digests d U = true → safe d U.
Proof.
  unfold distinct_digests. intros [Hnil%bool_decide_eq_true HU]%andb_true_iff.
  rewrite forallb_forall in HU.
  assert (∀ s, s ∈ U → In (digest_of s, enc s) ((λ s, (digest_of s, enc s)) <$> U)) as Hin.
  { intros s Hs. apply list_elem_of_In, list_elem_of_fmap. by exists s. }
  split; [..|done|].
  - intros s s' Hs Hs'. specialize (HU _ (Hin s Hs)). apply andb_true_iff in HU as [_ HU].
    rewrite forallb_forall in HU. specialize (HU _ (Hin s' Hs')). by apply bool_decide_eq_true in HU.
  - intros s m Hs Hm. specialize (HU _ (Hin s Hs)). apply andb_true_iff in HU as [HU _].
    apply andb_true_iff in HU as [_ HU]. cbn in Hm, HU. rewrite Hm in HU.
    by apply bool_decide_eq_true in HU.
  - intros s Hs. specialize (HU _ (Hin s Hs)). apply andb_true_iff in HU as [HU _].
    apply andb_true_iff in HU as [HU _]. by apply negb_true_iff, bool_decide_eq_false in HU.
Qed.

Lemma holds_empty `{Blake2b, ChunkStore D} (d : D) : holds d NNil.
Proof. split; [constructor|]. by intros s ?%elem_of_nil. Qed.

Definition example_entries : list (bytes * bytes) :=
  [(#"cat", #"1"); (#"car", #"2"); (#"cat", #"3")].

Lemma example_entries_ok : Forall entry_ok example_entries.
Proof. apply entries_okb_ok. vm_compute. reflexivity. Qed.

Lemma Set_get_witness :
  let _ := toy_blake2b in
  ∃ (d' : gmap bytes bytes) h, Set_all 20 ∅ nil_chunk example_entries = Done (d', h) ∧
    Get 20 d' (SetNodeForHash d' h) #"cat" = Done #"3" ∧
    Get 20 d' (SetNodeForHash d' h) #"car" = Done #"2" ∧
    Get 20 d' (SetNodeForHash d' h) #"ca" = Done [].
Proof.
  intros B.
  destruct (@Set_get B (gmap bytes bytes) _ _ ∅ NNil example_entries 20 7) as (d' & h & HS & HG).
  - apply holds_empty.
  - apply example_entries_ok.
  - apply safe_check. vm_compute. reflexivity.
  - apply Nat.le_0_l.
  - apply (bool_decide_unpack _). vm_compute. exact I.
  - vm_compute. lia.
  - exists d', h. split; [exact HS|].
    destruct (HG #"cat") as [H1 _]; [by apply ascii_keyb_ok|vm_compute; lia|].
    destruct (HG #"car") as [H2 _]; [by apply ascii_keyb_ok|vm_compute; lia|].
    destruct (HG #"ca") as [H3 _]; [by apply ascii_keyb_ok|vm_compute; lia|].
    split; [exact H1|]. split; [exact H2|exact H3].
Defined.

(** The trie of the example, in a store. *)
Definition example_trie : node := insert_tree NNil [(#"cat", #"1"); (#"car", #"2")].
Definition example_store `{Blake2b} : gmap bytes bytes :=
  list_to_map ((λ s, (digest_of s, enc s)) <$> inners example_trie).

Lemma example_holds : let _ := toy_blake2b in holds example_store example_trie.
Proof.
  intros B. split.
  - apply insert_tree_wf; [constructor|]. apply entries_okb_ok. vm_compute. reflexivity.
  - intros s Hs. revert s Hs. apply Forall_forall. apply (bool_decide_unpack _). vm_compute. exact I.
Qed.

(** C12.  [Trie::GetProof] of a key with a non-empty value returns that value and a
    proof that [MPTProof::VerifyProof] accepts against the root digest.  It is
    accepted whatever key it is verified for. *)
Theorem Trie_proof_verifies `{Blake2b, ChunkStoreLaws D} d t key fuel v :
  holds d t → ascii_key key → 2 * (2 * length key + 1) ≤ fuel →
  nlookup t (KeybytesToHex key) = Some v → v ≠ [] →
  ∃ p, Trie_GetProof fuel d (enc t) key = Done p ∧ value_ p = v ∧
    ∀ key', VerifyProof p (digest_of t) key' = Done true.
Proof.
  apply GetProof_holds.
Qed.

Lemma Trie_proof_verifies_witness :
  let _ := toy_blake2b in
  ∃ p, Trie_GetProof 20 example_store (enc example_trie) #"car" = Done p ∧ value_ p = #"2" ∧
    VerifyProof p (digest_of example_trie) #"car" = Done true ∧
    VerifyProof p (digest_of example_trie) #"dog" = Done true.
Proof.
  intros B.
  destruct (@Trie_proof_verifies B (gmap bytes bytes) _ _ example_store example_trie #"car" 20 #"2")
    as (p & Hp & Hval & HV).
  - apply example_holds.
  - apply ascii_keyb_ok. vm_compute. reflexivity.
  - vm_compute. lia.
  - vm_compute. reflexivity.
  - discriminate.
  - exists p. split; [exact Hp|]. split; [exact Hval|]. split; apply HV.
Defined.

(** [MPTProof::VerifyProof] does not ask that a proof reaches a value: the
    root node of a trie alone, with the position of any of its sixteen
    children, is accepted as a proof of any value for any key. *)
Theorem VerifyProof_truncated `{Blake2b} cs i v key size :
  wf (NFull cs) → i < 16 →
  VerifyProof (mkMPTProof size v [enc (NFull cs)] [i]) (digest_of (NFull cs)) key = Done true.
Proof.
  intros Hw Hi. unfold VerifyProof. cbn [value_ map_chunks map_pos zip zip_with verify_chunks].
  rewrite verify_head by (by apply wf_small). rewrite is_type_enc, bool_decide_true by done.
  pose proof (proj1 (wf_full_iff cs) Hw) as [Hl _].
  destruct (getChildAtIndex_enc cs i ["000"%char] Hl ltac:(lia)) as [rest' ->].
  rewrite bind_Done. by rewrite (proj2 (Nat.eqb_neq _ _)) by lia.
Qed.

Lemma VerifyProof_truncated_witness :
  let _ := toy_blake2b in
  let t := ninsert (ninsert NNil (KeybytesToHex #"a") #"1") (KeybytesToHex #"A") #"2" in
  nlookup t (KeybytesToHex #"zebra") = None ∧
  VerifyProof (mkMPTProof 0 #"forged" [enc t] [3]) (digest_of t) #"zebra" = Done true.
Proof.
  intros B t. split; [vm_compute; reflexivity|].
  assert (∃ cs, t = NFull cs) as [cs Ht] by (vm_compute; eexists; reflexivity).
  assert (wf t) as Hw.
  { apply (insert_tree_wf NNil [(#"a", #"1"); (#"A", #"2")]); [constructor|].
    apply entries_okb_ok. vm_compute. reflexivity. }
  clearbody t. subst t. apply VerifyProof_truncated; [exact Hw|]. apply Nat.lt_0_succ || lia.
Defined.

(** C29.  [Trie::Remove] returns within its fuel the digest of a trie in which the key
    reads as absent and every other key reads what it read before. *)
Theorem Remove_get `{Blake2b, ChunkStoreLaws D} d t key fuel K :
  let t' := nremove t (KeybytesToHex key) in
  holds d t → ascii_key key → safe d (inners t ++ inners t') →
  klen t ≤ K → length (KeybytesToHex key) ≤ K → 2 * K + 1 ≤ fuel →
  ∃ d' h, Remove fuel d (enc t) key = Done (d', h) ∧
    ∀ key', ascii_key key' → 2 * (2 * length key' + 1) ≤ fuel →
      Get fuel d' (SetNodeForHash d' h) key'
      = if decide (key' = key) then Done [] else Get fuel d (enc t) key'.
Proof.
  intros t' [Hw Hst] Hk Hsafe HtK HkK Hf. pose proof (KeybytesToHex_tkey _ Hk) as Hkk.
  assert (wf t') as Hw' by (by apply nremove_wf).
  assert (inners t ⊆ inners t ++ inners t') as HU1 by (intros s Hs; apply elem_of_app; by left).
  assert (inners t' ⊆ inners t ++ inners t') as HU2 by (intros s Hs; apply elem_of_app; by right).
  destruct (TryRemove_spec d (inners t ++ inners t') Hsafe t Hw (KeybytesToHex key) fuel ∅ [])
    as (m & dirty & Hrem & [rest ->] & Hd & _ & Hcov);
    [done|lia|by intros h c ?%lookup_empty_Some|by apply stored_covered|done|done|].
  rewrite app_nil_r in Hrem.
  destruct (Commit_spec (inners t ++ inners t') dirty Hd) with
    (t := t') (fuel := fuel) (d := d) (rest := rest)
    as (d' & Hcom & He & Hs' & Hst'); [|done|done| |done|done|].
  { intros s [Hs|Hs]%elem_of_app; [by apply (inners_small t)|by apply (inners_small t')]. }
  { pose proof (klen_nremove t (KeybytesToHex key) Hw Hkk). unfold t'. lia. }
  exists d', (digest_of t'). split.
  { unfold Remove. rewrite Hrem, bind_Done. cbn [deref]. rewrite bind_Done. fold t'.
    rewrite Hcom, bind_Done. by rewrite chunk_hash_enc by (by apply wf_small). }
  intros key' Hk' Hkf'. pose proof (safe_nil _ _ Hsafe). pose proof (safe_nil _ _ Hs').
  rewrite (SetNodeForHash_spec d' (inners t ++ inners t')) by done.
  rewrite <-(app_nil_r (enc t')), <-(app_nil_r (enc t)), !Get_spec by done.
  unfold lookup_key, t'. rewrite nlookup_nremove by (try done; by apply KeybytesToHex_tkey).
  destruct (decide (key' = key)) as [->|Hne]; [by rewrite decide_True|].
  rewrite decide_False; [done|]. by intros ?%KeybytesToHex_inj.
Qed.

Lemma Remove_get_witness :
  let _ := toy_blake2b in
  ∃ (d' : gmap bytes bytes) h, Remove 20 example_store (enc example_trie) #"car" = Done (d', h) ∧
    Get 20 d' (SetNodeForHash d' h) #"car" = Done [] ∧
    Get 20 d' (SetNodeForHash d' h) #"cat" = Get 20 example_store (enc example_trie) #"cat".
Proof.
  intros B.
  destruct (@Remove_get B (gmap bytes bytes) _ _ example_store example_trie #"car" 20 7)
    as (d' & h & HR & HG).
  - apply example_holds.
  - apply ascii_keyb_ok. vm_compute. reflexivity.
  - apply safe_check. vm_compute. reflexivity.
  - vm_compute. lia.
  - vm_compute. lia.
  - vm_compute. lia.
  - exists d', h. split; [exact HR|]. split.
    + rewrite (HG #"car"); [apply decide_True; reflexivity| |vm_compute; lia].
      apply ascii_keyb_ok. vm_compute. reflexivity.
    + rewrite (HG #"cat"); [apply decide_False; discriminate| |vm_compute; lia].
      apply ascii_keyb_ok. vm_compute. reflexivity.
Defined.

(** A key that starts with a byte from 0x80 to 0xf0 makes its first nibble
    negative; on a trie whose root has children the lookup then indexes them
    out of range. *)
Theorem Get_high_byte `{Blake2b, ChunkStore D} (d : D) cs c key fuel rest :
  (128 <= N_of_ascii c <= 240)%N →
  Get (S fuel) d (enc (NFull cs) ++ rest) (c :: key) = Stop Undefined.
Proof.
  intros Hc. assert (17 <= N_of_ascii (hex_high c))%N as Hh.
  { revert Hc. destruct c as [[] [] [] [] [] [] [] []]; vm_compute; intros [H1 H2];
      (discriminate || by destruct H1 || by destruct H2). }
  unfold Get. rewrite KeybytesToHex_cons. cbn [TryGet]. rewrite enc_eq_type.
  unfold key_index. cbn [lookup list_lookup]. by rewrite (proj2 (N.ltb_ge _ 17)).
Qed.

Lemma Get_high_byte_witness :
  let _ := toy_blake2b in
  Get 9 (∅ : gmap bytes bytes) (enc (NFull (replicate 17 NNil)) ++ []) ["200"%char] = Stop Undefined.
Proof. intros B. apply Get_high_byte. vm_compute. split; discriminate. Defined.

(** C35.  [numElements] of the root counts the entries: it grows by one exactly
    when [Set] adds a key, as a 64-bit number. *)
Theorem Set_numElements `{Blake2b, ChunkStoreLaws D} d t key val fuel K :
  holds d t → entry_ok (key, val) → safe d (universe t [(key, val)]) →
  klen t ≤ K → length (KeybytesToHex key) ≤ K → 2 * K + 1 ≤ fuel →
  ∃ d' h, Set_all fuel d (enc t) [(key, val)] = Done (d', h) ∧
    numElements (SetNodeForHash d' h)
    = u64 (numElements (enc t) + fresh t (KeybytesToHex key)).
Proof.
  intros Hh Hok Hsafe HtK HkK Hf.
  destruct (Set_all_spec d t [(key, val)] fuel K) as (d' & -> & He & Hs' & Hh');
    [done|by constructor|done|done|by constructor|done|].
  eexists d', _. split; [done|]. rewrite (SetNodeForHash_spec d' _ _ Hs') by (done || apply universe_end).
  assert (∀ t, wf t → numElements (enc t) = u64 (count t)) as Hnum.
  { intros t0 Hw. unfold numElements. rewrite <-(app_nil_r (enc t0)), enc_eq_type.
    destruct (wf_inner t0 Hw) as [->|Hin]; [done|].
    destruct t0; try done; by rewrite read64_enc. }
  destruct Hh as [Hw _], Hh' as [Hw' _]. rewrite !Hnum by done. cbn [insert_tree].
  destruct Hok as (Hk & _ & _). cbn [fst] in Hk.
  rewrite count_ninsert by (try done; by apply KeybytesToHex_tkey).
  unfold u64. by rewrite N.Div0.add_mod_idemp_l.
Qed.

Lemma Set_numElements_witness :
  let _ := toy_blake2b in
  ∃ (d' : gmap bytes bytes) h, Set_all 20 ∅ nil_chunk [(#"cat", #"1")] = Done (d', h) ∧
    numElements (SetNodeForHash d' h) = 1%N.
Proof.
  intros B.
  destruct (@Set_numElements B (gmap bytes bytes) _ _ ∅ NNil #"cat" #"1" 20 7) as (d' & h & HS & HN).
  - apply holds_empty.
  - apply (Forall_inv (entries_okb_ok [(#"cat", #"1")] eq_refl)).
  - apply safe_check. vm_compute. reflexivity.
  - apply Nat.le_0_l.
  - vm_compute. lia.
  - vm_compute. lia.
  - exists d', h. split; [exact HS|]. rewrite HN. vm_compute. reflexivity.
Defined.
