(* ===== verification/Config.v ===== *)
(** * [distributed/lib/configuration.cc]: the replica group

    A configuration is read from a text of directives, one a line; it gives
    the number of replicas [n], the number of failures tolerated [f], the
    leader of a view and the size of a quorum. *)

From S2P Require Import Prelude Cpp.

Open Scope N_scope.

Record ReplicaAddress := mkReplicaAddress { host : bytes; port : bytes }.
Global Instance ReplicaAddress_eq_dec : EqDecision ReplicaAddress.
Proof. solve_decision. Defined.

Record Configuration := mkConfiguration {
  cfg_n : Z;
  cfg_f : Z;
  cfg_replicas : list ReplicaAddress;
  cfg_multicast : option ReplicaAddress;
}.
Global Instance Configuration_eq_dec : EqDecision Configuration.
Proof. solve_decision. Defined.

(** [int] from [unsigned long]. *)
Definition int_of_ulong (n : N) : Z :=
  let m := Z.of_N (u32 n) in if (m <? 2 ^ 31)%Z then m else (m - 2 ^ 32)%Z.

(** The variables of the constructor that reads a file. *)
Record cfg_state := mkCfgState {
  st_f : Z;
  st_replicas : list ReplicaAddress;
  st_multicast : option ReplicaAddress;
}.

Definition blank : bytes := #" " ++ ["009"%char].

(** The argument ["host:port"] that starts at [t2] of a line.  [t2] and [t3]
are [unsigned int]s, compared with the [size_t] [npos]. *)
Definition parse_address (line : bytes) (t1 : N) : outcome ReplicaAddress :=
  let t2 := u32 (find_first_not_of blank line t1) in
  if t2 =? npos then Stop Panicked
  else
    let t3 := u32 (find_first_of #":" line t2) in
    if t3 =? npos then Stop Panicked
    else
      h ← substr_n line t2 (Some (u32 (t3 + 2 ^ 32 - t2)));
      p ← substr_n line (u32 (t3 + 1)) None;
      Done (mkReplicaAddress h p).

(** One iteration of the loop over the lines. *)
Definition parse_line (st : cfg_state) (line : bytes) : outcome cfg_state :=
  match line with
  | [] => Done st
  | c :: _ =>
      if Ascii.eqb c "#" then Done st
      else
        let t1 := u32 (find_first_of blank line 0) in
        cmd ← substr_n line 0 (Some t1);
        if strcasecmp_eq cmd #"f" then
          let t2 := u32 (find_first_not_of blank line t1) in
          if t2 =? npos then Stop Panicked
          else
            arg ← substr_n line t2 None;
            match stoul arg with
            | Done f => Done (mkCfgState (int_of_ulong f) (st_replicas st) (st_multicast st))
            | Stop (Throw invalid_argument) => Stop Panicked
            | Stop e => Stop e
            end
        else if strcasecmp_eq cmd #"replica" then
          a ← parse_address line t1;
          Done (mkCfgState (st_f st) (st_replicas st ++ [a]) (st_multicast st))
        else if strcasecmp_eq cmd #"multicast" then
          a ← parse_address line t1;
          Done (mkCfgState (st_f st) (st_replicas st) (Some a))
        else Stop Panicked
  end.

Fixpoint parse_lines (st : cfg_state) (lines : list bytes) : outcome cfg_state :=
  match lines with
  | [] => Done st
  | l :: lines => st ← parse_line st l; parse_lines st lines
  end.

(** [Configuration::Configuration(std::ifstream &file)] on a file with the
given content. *)
Definition parse_configuration (content : bytes) : outcome Configuration :=
  st ← parse_lines (mkCfgState (-1) [] None) (getlines "010" content []);
  if (length (st_replicas st) =? 0)%nat then Stop Panicked
  else if (st_f st =? -1)%Z then Stop Panicked
  else Done (mkConfiguration (Z.of_nat (length (st_replicas st))) (st_f st)
               (st_replicas st) (st_multicast st)).

(** [view % this->n], both as [uint64_t], returned as an [int]. *)
Definition GetLeaderIndex (c : Configuration) (view : N) : Z :=
  int_of_ulong (view mod Z.to_N (cfg_n c mod 2 ^ 64)).
Definition QuorumSize (c : Configuration) : Z := (cfg_f c + 1)%Z.
Definition FastQuorumSize (c : Configuration) : Z := (cfg_f c + Z.quot (cfg_f c + 1) 2 + 1)%Z.

Definition Configuration_eqb (a b : Configuration) : bool := bool_decide (a = b).

(** ** Facts *)

Definition valid_config (c : Configuration) : Prop :=
  (0 < cfg_n c < 2 ^ 31)%Z ∧ (0 <= cfg_f c)%Z ∧ (2 * cfg_f c + 1 <= cfg_n c)%Z.

Lemma GetLeaderIndex_mod c view :
  valid_config c → GetLeaderIndex c view = (Z.of_N view mod cfg_n c)%Z.
Proof.
  intros (Hn & _). unfold GetLeaderIndex, int_of_ulong.
  rewrite (Z.mod_small (cfg_n c)) by lia.
  assert (view mod Z.to_N (cfg_n c) < Z.to_N (cfg_n c)) by (apply N.mod_lt; lia).
  rewrite u32_small by lia. rewrite (proj2 (Z.ltb_lt _ _)) by lia.
  rewrite N2Z.inj_mod, Z2N.id by lia. done.
Qed.

Lemma GetLeaderIndex_range c view :
  valid_config c → (0 <= GetLeaderIndex c view < cfg_n c)%Z.
Proof. intros Hv. rewrite GetLeaderIndex_mod by done. apply Z.mod_pos_bound. apply Hv. Qed.

(** The text of a configuration. *)
Definition print_address (a : ReplicaAddress) : bytes := host a ++ #":" ++ port a.
Definition print_replica (a : ReplicaAddress) : bytes := #"replica " ++ print_address a.
Definition newline : bytes := ["010"%char].
Definition print_configuration (c : Configuration) : bytes :=
  mjoin ((λ l, l ++ newline) <$> (
    (#"f " ++ to_string (Z.to_N (cfg_f c))) :: ((print_replica <$> cfg_replicas c)
     ++ match cfg_multicast c with
        | None => []
        | Some a => [ #"multicast " ++ print_address a ]
        end))).

(** Hosts do not start with a blank and contain no colon; neither hosts nor
ports contain a newline. *)
Definition printable_address (a : ReplicaAddress) : Prop :=
  host a ≠ [] ∧ (∀ c, c ∈ host a → mem blank c = false) ∧
  (":"%char ∉ host a) ∧ ("010"%char ∉ host a) ∧ ("010"%char ∉ port a) ∧
  N.of_nat (length (host a)) < 2 ^ 30.

Definition printable (c : Configuration) : Prop :=
  cfg_replicas c ≠ [] ∧ cfg_n c = Z.of_nat (length (cfg_replicas c)) ∧
  (0 <= cfg_f c < 2 ^ 31)%Z ∧
  Forall printable_address (cfg_replicas c) ∧
  match cfg_multicast c with None => True | Some a => printable_address a end.

Lemma drop_prefix {A} (p s : list A) k : k = length p → drop k (p ++ s) = s.
Proof. intros ->. by rewrite drop_app_length. Qed.

(** After a keyword of [k] letters and a blank, the argument is found. *)
Lemma parse_address_spec kw a :
  N.of_nat (length kw) < 2 ^ 30 → printable_address a →
  parse_address (kw ++ #" " ++ print_address a) (N.of_nat (length kw)) = Done a.
Proof.
  intros Hkw (Hh & Hb & Hc & _ & _ & Hlen). unfold parse_address.
  destruct (host a) as [|h0 h] eqn:Eh; [done|].
  set (line := kw ++ #" " ++ print_address a).
  assert (find_first_not_of blank line (N.of_nat (length kw)) = N.of_nat (length kw) + 1) as ->.
  { unfold find_first_not_of, find_from, line. rewrite !length_app.
    rewrite (proj2 (N.leb_gt _ _)) by (simpl; lia).
    rewrite Nat2N.id, drop_prefix by done. unfold print_address. rewrite Eh.
    change (find_if _ (#" " ++ (h0 :: h) ++ #":" ++ port a))
      with (S <$> find_if (λ c, negb (mem blank c)) ((h0 :: h) ++ #":" ++ port a)).
    simpl find_if. by rewrite (Hb h0) by (by left). }
  rewrite u32_small by lia.
  rewrite (proj2 (N.eqb_neq _ _)) by (unfold npos; lia).
  assert (find_first_of #":" line (N.of_nat (length kw) + 1)
    = N.of_nat (length kw) + 1 + N.of_nat (length (host a))) as ->.
  { unfold find_first_of, find_from, line. rewrite !length_app. unfold print_address.
    rewrite Eh. cbn [length app]. rewrite (proj2 (N.leb_gt _ _)) by (simpl; lia).
    rewrite app_assoc, drop_prefix by (rewrite length_app; simpl; lia).
    change (h0 :: h ++ #":" ++ port a) with ((h0 :: h) ++ ":"%char :: port a).
    rewrite find_if_app; [done| |done]. intros x Hx. unfold mem. simpl.
    rewrite orb_false_r. apply Ascii.eqb_neq. intros ->. rewrite <-Eh in Hx. rewrite Eh in Hx. done. }
  rewrite Eh in *. rewrite u32_small by lia.
  rewrite (proj2 (N.eqb_neq _ _)) by (unfold npos; lia).
  assert (u32 (N.of_nat (length kw) + 1 + N.of_nat (length (h0 :: h)) + 2 ^ 32
    - (N.of_nat (length kw) + 1)) = N.of_nat (length (h0 :: h))) as ->.
  { replace (N.of_nat (length kw) + 1 + N.of_nat (length (h0 :: h)) + 2 ^ 32
      - (N.of_nat (length kw) + 1)) with (N.of_nat (length (h0 :: h)) + 1 * 2 ^ 32) by lia.
    unfold u32. rewrite N.Div0.mod_add. apply N.mod_small. lia. }
  rewrite u32_small by lia.
  assert (N.of_nat (length line)
    = N.of_nat (length kw) + 1 + N.of_nat (length (h0 :: h)) + 1 + N.of_nat (length (port a))) as Hl.
  { unfold line, print_address. rewrite Eh, !length_app. cbn [length]. simpl. lia. }
  unfold substr_n. rewrite Hl.
  rewrite (proj2 (N.ltb_ge _ _)) by lia. cbn [mbind outcome_bind].
  rewrite (proj2 (N.ltb_ge _ _)) by lia. cbn [mbind outcome_bind].
  f_equal. destruct a as [ah ap]. cbn [host port] in *. subst ah. f_equal.
  - unfold line, print_address. cbn [host port].
    rewrite app_assoc, drop_prefix by (rewrite length_app; simpl; lia).
    rewrite take_app_length'; [done|lia].
  - unfold line, print_address. cbn [host port].
    by rewrite !app_assoc, drop_prefix by (rewrite !length_app; simpl; lia).
Qed.

Lemma strcasecmp_refl a : strcasecmp_eq a a = true.
Proof. unfold strcasecmp_eq. by apply bool_decide_eq_true. Qed.

Lemma find_blank kw s :
  (∀ c, c ∈ kw → mem blank c = false) → N.of_nat (length kw) < 2 ^ 30 →
  u32 (find_first_of blank (kw ++ #" " ++ s) 0) = N.of_nat (length kw).
Proof.
  intros Hkw Hlen. unfold find_first_of, find_from. rewrite !length_app.
  rewrite (proj2 (N.leb_gt _ _)) by (simpl; lia). rewrite drop_0.
  change (#" " ++ s) with (" "%char :: s).
  rewrite find_if_app by done. rewrite N.add_0_l. apply u32_small. lia.
Qed.

Lemma substr_prefix (kw s : bytes) :
  substr_n (kw ++ s) 0 (Some (N.of_nat (length kw))) = Done kw.
Proof.
  unfold substr_n. rewrite (proj2 (N.ltb_ge _ _)) by lia. f_equal.
  rewrite drop_0, length_app. apply take_app_length'. lia.
Qed.

(** A line that starts with a directive and a blank, step by step. *)
Lemma parse_directive st kw s :
  forallb (λ c, negb (mem blank c)) kw = true → N.of_nat (length kw) < 2 ^ 30 →
  kw ≠ [] → hd_error kw ≠ Some "#"%char →
  strcasecmp_eq kw #"f" = false →
  parse_line st (kw ++ #" " ++ s)
  = if strcasecmp_eq kw #"replica" then
      a ← parse_address (kw ++ #" " ++ s) (N.of_nat (length kw));
      Done (mkCfgState (st_f st) (st_replicas st ++ [a]) (st_multicast st))
    else if strcasecmp_eq kw #"multicast" then
      a ← parse_address (kw ++ #" " ++ s) (N.of_nat (length kw));
      Done (mkCfgState (st_f st) (st_replicas st) (Some a))
    else Stop Panicked.
Proof.
  intros Hkw Hlen Hne Hc Hf.
  assert (∀ c, c ∈ kw → mem blank c = false) as Hkw'.
  { intros c Hin. rewrite forallb_forall in Hkw. apply negb_true_iff, Hkw.
    by apply list_elem_of_In. }
  unfold parse_line. rewrite find_blank, substr_prefix by done.
  cbn [mbind outcome_bind]. rewrite Hf.
  destruct kw as [|c kw]; [done|]. cbn [app].
  destruct (Ascii.eqb_spec c "#") as [->|_]; [done|]. done.
Qed.

Lemma parse_replica_line st a :
  printable_address a →
  parse_line st (print_replica a)
  = Done (mkCfgState (st_f st) (st_replicas st ++ [a]) (st_multicast st)).
Proof.
  intros Ha. change (print_replica a) with (#"replica" ++ #" " ++ print_address a).
  rewrite parse_directive; [|done..].
  change (strcasecmp_eq _ _) with true at 1. cbv iota.
  by rewrite parse_address_spec.
Qed.

Lemma parse_multicast_line st a :
  printable_address a →
  parse_line st (#"multicast " ++ print_address a)
  = Done (mkCfgState (st_f st) (st_replicas st) (Some a)).
Proof.
  intros Ha. change (#"multicast " ++ print_address a)
    with (#"multicast" ++ #" " ++ print_address a).
  rewrite parse_directive; [|done..].
  change (strcasecmp_eq _ _) with false at 1. change (strcasecmp_eq _ _) with true at 1.
  cbv iota. by rewrite parse_address_spec.
Qed.

Lemma parse_f_line st n :
  n < 2 ^ 31 →
  parse_line st (#"f " ++ to_string n)
  = Done (mkCfgState (Z.of_N n) (st_replicas st) (st_multicast st)).
Proof.
  intros Hn. change (#"f " ++ to_string n) with (#"f" ++ #" " ++ to_string n).
  unfold parse_line. rewrite find_blank; [|by intros c [->|[]%elem_of_nil]%elem_of_cons|done].
  rewrite substr_prefix. change (#"f" ++ #" " ++ to_string n) with ("f"%char :: " "%char :: to_string n).
  cbn [mbind outcome_bind]. cbv beta iota.
  change (Ascii.eqb "f" "#") with false. cbv iota.
  rewrite strcasecmp_refl. change (N.of_nat (length #"f")) with 1.
  assert (u32 (find_first_not_of blank ("f"%char :: " "%char :: to_string n) 1) = 2) as ->.
  { unfold find_first_not_of, find_from.
    destruct (to_string_cons n) as (a & s & E & Ha). rewrite E.
    rewrite (proj2 (N.leb_gt _ _)) by (simpl; lia).
    change (drop (N.to_nat 1) ("f"%char :: " "%char :: a :: s)) with (" "%char :: a :: s).
    assert (mem blank a = false) as Hm.
    { unfold is_digit in Ha. destruct a as [[] [] [] [] [] [] [] []]; done. }
    cbn [find_if]. change (mem blank " ") with true. rewrite Hm. done. }
  change (2 =? npos) with false. cbv iota.
  assert (substr_n ("f"%char :: " "%char :: to_string n) 2 None = Done (to_string n)) as ->.
  { unfold substr_n. cbn [length]. by rewrite (proj2 (N.ltb_ge _ _)) by lia. }
  cbn [mbind outcome_bind]. rewrite stoul_to_string by lia. unfold int_of_ulong.
  rewrite u32_small by lia. by rewrite (proj2 (Z.ltb_lt _ _)) by lia.
Qed.

Lemma parse_replica_lines st rs rest :
  Forall printable_address rs →
  parse_lines st ((print_replica <$> rs) ++ rest)
  = parse_lines (mkCfgState (st_f st) (st_replicas st ++ rs) (st_multicast st)) rest.
Proof.
  intros Hrs. revert st. induction Hrs as [|a rs Ha _ IH]; intros st.
  { rewrite app_nil_r. by destruct st. }
  cbn [fmap list_fmap app parse_lines]. rewrite parse_replica_line by done.
  cbn [mbind outcome_bind]. rewrite IH. cbn [st_f st_replicas st_multicast].
  by rewrite <-app_assoc.
Qed.

Lemma getlines_print ls :
  Forall (λ l, "010"%char ∉ l) ls →
  getlines "010" (mjoin ((λ l, l ++ newline) <$> ls)) [] = ls ++ [[]].
Proof.
  intros Hls. induction Hls as [|l ls Hl _ IH]; [done|].
  cbn [fmap list_fmap mjoin list_join]. unfold newline at 1.
  rewrite <-!app_assoc. cbn [app]. rewrite getlines_app by done. simpl. by rewrite <-IH.
Qed.

Lemma print_address_no_newline kw a :
  ("010"%char ∉ kw) → printable_address a → "010"%char ∉ kw ++ print_address a.
Proof.
  intros Hkw (_ & _ & _ & Hh & Hp & _). unfold print_address. rewrite !elem_of_app.
  intros [?|[?|[Hin|?]]]; try done. by apply elem_of_cons in Hin as [?|[]%elem_of_nil].
Qed.

(** Reading the text of a configuration gives the configuration, with [n]
    the number of its replicas. *)
Theorem parse_print_configuration (c : Configuration) :
  printable c → parse_configuration (print_configuration c) = Done c.
Proof.
  intros (Hne & Hn & Hf & Hrs & Hm). unfold parse_configuration, print_configuration.
  rewrite getlines_print.
  2:{ constructor; [|apply Forall_app; split].
      - intros [Hin|Hin]%elem_of_app; [|by apply to_string_no in Hin].
        by apply elem_of_cons in Hin as [?|[?|[]%elem_of_nil]%elem_of_cons].
      - apply Forall_fmap. eapply Forall_impl; [exact Hrs|]. intros a Ha.
        apply print_address_no_newline; [|done]. apply (bool_decide_unpack _); vm_compute; exact I.
      - destruct (cfg_multicast c); constructor; [|constructor].
        apply print_address_no_newline; [|done]. apply (bool_decide_unpack _); vm_compute; exact I. }
  cbn [app parse_lines]. rewrite parse_f_line by lia. cbn [mbind outcome_bind].
  rewrite <-app_assoc, parse_replica_lines by done. cbn [st_f st_replicas st_multicast app].
  destruct c as [n f rs m]. cbn [cfg_n cfg_f cfg_replicas cfg_multicast] in *.
  assert (parse_lines (mkCfgState (Z.of_N (Z.to_N f)) rs None)
    (match m with None => [] | Some a => [ #"multicast " ++ print_address a ] end ++ [[]])
    = Done (mkCfgState f rs m)) as ->.
  { rewrite Z2N.id by lia. destruct m as [a|]; [|done].
    cbn [app parse_lines]. by rewrite parse_multicast_line. }
  cbn [mbind outcome_bind st_replicas st_f st_multicast]. subst n.
  destruct rs; [done|]. cbn [length Nat.eqb]. by rewrite (proj2 (Z.eqb_neq _ _)) by lia.
Qed.

Definition three_replicas : Configuration :=
  let h p := mkReplicaAddress #"localhost" p in
  mkConfiguration 3 1 [h #"7001"; h #"7002"; h #"7003"] None.

Lemma parse_print_configuration_witness :
  parse_configuration (print_configuration three_replicas) = Done three_replicas.
Proof.
  apply (parse_print_configuration three_replicas).
  unfold three_replicas, printable, printable_address.
  cbn [cfg_n cfg_f cfg_replicas cfg_multicast host port].
  split; [discriminate|]. split; [reflexivity|]. split; [lia|]. split; [|exact I].
  assert (∀ c, c ∈ #"localhost" → mem blank c = false) as Hb.
  { apply Forall_forall. repeat constructor. }
  repeat constructor; try discriminate; try (vm_compute; reflexivity); try exact Hb;
    apply (bool_decide_unpack _); vm_compute; exact I.
Defined.

(** A directive without its argument is not reported as a configuration
    error: the position of the argument is kept in 32 bits and compared with
    the 64-bit [npos], so ["f"] alone makes [substr] throw, and a replica
    without a port is read as a port that is the whole line. *)
Theorem parse_missing_argument (h : bytes) :
  h ≠ [] → (∀ c, c ∈ h → mem blank c = false ∧ c ≠ ":"%char) → N.of_nat (length h) < 2 ^ 30 →
  parse_line (mkCfgState (-1) [] None) #"f" = Stop (Throw out_of_range) ∧
  parse_line (mkCfgState 1 [] None) (#"replica " ++ h)
    = Done (mkCfgState 1 [mkReplicaAddress h (#"replica " ++ h)] None).
Proof.
  intros Hne Hh Hlen. split; [vm_compute; reflexivity|].
  change (#"replica " ++ h) with (#"replica" ++ #" " ++ h) at 1.
  rewrite parse_directive; [|done..].
  change (strcasecmp_eq _ _) with true at 1. cbv iota.
  unfold parse_address. change (#"replica" ++ #" " ++ h) with (#"replica " ++ h).
  destruct h as [|c h]; [done|].
  change (u32 (find_first_not_of blank (#"replica " ++ c :: h) (N.of_nat (length #"replica"))))
    with (u32 (find_first_not_of blank (#"replica " ++ c :: h) 7)).
  assert (u32 (find_first_not_of blank (#"replica " ++ c :: h) 7) = 8) as ->.
  { unfold find_first_not_of, find_from. rewrite length_app. cbn [length].
    rewrite (proj2 (N.leb_gt _ _)) by (simpl; lia).
    change (drop (N.to_nat 7) (#"replica " ++ c :: h)) with (" "%char :: c :: h).
    cbn [find_if]. change (mem blank " ") with true.
    by rewrite (proj1 (Hh c ltac:(by left))). }
  change (8 =? npos) with false. cbv iota.
  assert (find_first_of #":" (#"replica " ++ c :: h) 8 = npos) as ->.
  { unfold find_first_of, find_from. rewrite length_app. cbn [length].
    rewrite (proj2 (N.leb_gt _ _)) by (simpl; lia).
    change (drop (N.to_nat 8) (#"replica " ++ c :: h)) with (c :: h).
    rewrite find_if_none; [done|]. intros x Hx. unfold mem. simpl. rewrite orb_false_r.
    apply Ascii.eqb_neq. by apply Hh. }
  change (u32 npos =? npos) with false. cbv iota.
  unfold substr_n. rewrite length_app. change (length #"replica ") with 8%nat. cbn [length].
  rewrite (proj2 (N.ltb_ge (N.of_nat (8 + S (length h))) 8)) by (clear; lia). cbn [mbind outcome_bind].
  change (u32 (u32 npos + 1)) with 0. rewrite (proj2 (N.ltb_ge _ _)) by lia.
  cbn [mbind outcome_bind st_f st_replicas st_multicast].
  change (drop (N.to_nat 8) (#"replica " ++ c :: h)) with (c :: h).
  rewrite take_ge; [done|]. change (u32 (u32 npos + 2 ^ 32 - 8)) with (2 ^ 32 - 9).
  cbn [length] in *. lia.
Qed.

Lemma parse_missing_argument_witness :
  parse_line (mkCfgState 1 [] None) #"replica host"
    = Done (mkCfgState 1 [mkReplicaAddress #"host" #"replica host"] None).
Proof.
  apply (parse_missing_argument #"host"); [discriminate| |reflexivity].
  apply Forall_forall. repeat constructor; discriminate.
Defined.
