(* ===== verification/VRLog.v ===== *)
(** * [distributed/replication/common]: viewstamps, the log and quorum sets

    The log of a replica is a vector of entries with consecutive operation
    numbers from [start] on.  A quorum set collects messages by identifier and
    by the index of the replica they come from. *)

From S2P Require Import Prelude Cpp Config.

Open Scope N_scope.

(** ** Viewstamps *)

Record viewstamp := mkViewstamp { vs_view : N; vs_opnum : N }.
Global Instance viewstamp_eq_dec : EqDecision viewstamp.
Proof. solve_decision. Defined.
Global Program Instance viewstamp_countable : Countable viewstamp :=
  inj_countable' (λ v, (vs_view v, vs_opnum v)) (λ p, mkViewstamp p.1 p.2) _.
Next Obligation. by intros []. Qed.

Definition Viewstamp_Compare (a b : viewstamp) : Z :=
  if vs_view a <? vs_view b then -1
  else if vs_view b <? vs_view a then 1
  else if vs_opnum a <? vs_opnum b then -1
  else if vs_opnum b <? vs_opnum a then 1
  else 0.

(** ** Requests and entries *)

(** [replication::Request] and [replication::UnloggedRequest] *)
Record Request := mkRequest { req_op : bytes; req_clientid : N; req_clientreqid : N }.
Global Instance Request_eq_dec : EqDecision Request.
Proof. solve_decision. Defined.

Inductive LogEntryState :=
  | LOG_STATE_COMMITTED | LOG_STATE_PREPARED
  | LOG_STATE_SPECULATIVE | LOG_STATE_FASTPREPARED.
Global Instance LogEntryState_eq_dec : EqDecision LogEntryState.
Proof. solve_decision. Defined.

Record LogEntry := mkLogEntry {
  viewstamp_of : viewstamp;
  state_of : LogEntryState;
  request_of : Request;
  hash_of : bytes;
}.
Global Instance LogEntry_eq_dec : EqDecision LogEntry.
Proof. solve_decision. Defined.

(** The entries protocol messages carry. *)
Record WireEntry := mkWireEntry {
  w_view : N;
  w_opnum : N;
  w_request : Request;
  w_state : LogEntryState;
  w_hash : bytes;
}.
Global Instance WireEntry_eq_dec : EqDecision WireEntry.
Proof. solve_decision. Defined.

(** ** The log *)

(** OpenSSL's SHA-1 over the concatenation of what [SHA1_Update] is given. *)
Class Sha1 := sha1 : bytes → bytes.

Record Log := mkLog {
  entries : list LogEntry;
  initialHash : bytes;
  start : N;
  useHash : bool;
}.

Definition EMPTY_HASH : bytes := repeat "000"%char 20.

(** [Log::Log] *)
Definition new_log (useHash : bool) (start : N) (initialHash : bytes) : outcome Log :=
  if start =? 1 then
    _ ← ASSERT (bool_decide (initialHash = EMPTY_HASH));
    Done (mkLog [] initialHash start useHash)
  else Done (mkLog [] initialHash start useHash).

Definition set_entries (l : Log) (es : list LogEntry) : Log :=
  mkLog es (initialHash l) (start l) (useHash l).

Definition LastOpnum (l : Log) : N :=
  match last (entries l) with
  | None => u64 (start l + 2 ^ 64 - 1)
  | Some e => vs_opnum (viewstamp_of e)
  end.

Definition LastViewstamp (l : Log) : viewstamp :=
  match last (entries l) with
  | None => mkViewstamp 0 (u64 (start l + 2 ^ 64 - 1))
  | Some e => viewstamp_of e
  end.

Definition FirstOpnum (l : Log) : N := start l.
Definition Empty (l : Log) : bool := match entries l with [] => true | _ => false end.
Definition Last (l : Log) : option LogEntry := last (entries l).

Definition LastHash (l : Log) : bytes :=
  match last (entries l) with None => initialHash l | Some e => hash_of e end.

Definition ComputeHash `{Sha1} (lastHash : bytes) (vs : viewstamp) (req : Request) : bytes :=
  sha1 (lastHash ++ (le_encode 8 (vs_view vs) ++ le_encode 8 (vs_opnum vs))
    ++ le_encode 8 (req_clientid req) ++ le_encode 8 (req_clientreqid req) ++ req_op req).

(** [Log::Find] *)
Definition Find (l : Log) (opnum : N) : outcome (option LogEntry) :=
  match entries l with
  | [] => Done None
  | es =>
      if opnum <? start l then Done None
      else if N.of_nat (length es) - 1 <? opnum - start l then Done None
      else match es !! N.to_nat (opnum - start l) with
           | None => Stop Undefined
           | Some e =>
               _ ← ASSERT (vs_opnum (viewstamp_of e) =? opnum);
               Done (Some e)
           end
  end.

(** [Log::Append]; the entry it returns is found again by number. *)
Definition Append `{Sha1} (l : Log) (vs : viewstamp) (req : Request) (st : LogEntryState)
    : outcome Log :=
  _ ← match entries l with
      | [] => ASSERT (vs_opnum vs =? start l)
      | _ => ASSERT (vs_opnum vs =? u64 (LastOpnum l + 1))
      end;
  let h := if useHash l then ComputeHash (LastHash l) vs req else [] in
  let l := set_entries l (entries l ++ [mkLogEntry vs st req h]) in
  e ← Find l (vs_opnum vs);
  match e with None => Stop Undefined | Some _ => Done l end.

(** The entry [opnum] of the log replaced through the pointer of [Find]. *)
Definition update_entry (l : Log) (opnum : N) (f : LogEntry → LogEntry) : outcome (bool * Log) :=
  e ← Find l opnum;
  match e with
  | None => Done (false, l)
  | Some e =>
      Done (true, set_entries l (<[N.to_nat (opnum - start l) := f e]> (entries l)))
  end.

Definition SetStatus (l : Log) (op : N) (st : LogEntryState) : outcome (bool * Log) :=
  update_entry l op (λ e, mkLogEntry (viewstamp_of e) st (request_of e) (hash_of e)).

Definition SetRequest (l : Log) (op : N) (req : Request) : outcome (bool * Log) :=
  if useHash l then Stop Panicked
  else update_entry l op (λ e, mkLogEntry (viewstamp_of e) (state_of e) req (hash_of e)).

(** [Log::RemoveAfter]: the entry [op] and what follows it. *)
Definition RemoveAfter (l : Log) (op : N) : outcome Log :=
  if LastOpnum l <? op then Done l
  else
    let n := u64 (op + 2 ^ 64 - start l) in
    _ ← ASSERT (n <? N.of_nat (length (entries l)));
    let l := set_entries l (take (N.to_nat n) (entries l)) in
    _ ← ASSERT (LastOpnum l =? u64 (op + 2 ^ 64 - 1));
    Done l.

Definition wire (e : LogEntry) : WireEntry :=
  mkWireEntry (vs_view (viewstamp_of e)) (vs_opnum (viewstamp_of e)) (request_of e)
    (state_of e) (hash_of e).

(** [n] iterations of the loop of [Dump] from [i] on. *)
Fixpoint dump_loop (l : Log) (n : nat) (i : N) : outcome (list WireEntry) :=
  match n with
  | O => Done []
  | S n =>
      e ← Find l i;
      match e with
      | None => Stop Panicked
      | Some e => es ← dump_loop l n (i + 1); Done (wire e :: es)
      end
  end.

Definition Dump (l : Log) (from : N) : outcome (list WireEntry) :=
  let i := N.max from (start l) in
  dump_loop l (N.to_nat (LastOpnum l + 1 - i)) i.

(** The loop of [Install] that looks for the first divergence: the log after
the removal, and the entries from the divergence on. *)
Fixpoint install_diverge (l : Log) (es : list WireEntry) : outcome (Log * list WireEntry) :=
  match es with
  | [] => Done (l, [])
  | w :: rest =>
      old ← Find l (w_opnum w);
      match old with
      | None => Done (l, es)
      | Some e =>
          if bool_decide (w_view w ≠ vs_view (viewstamp_of e)) then
            l ← RemoveAfter l (w_opnum w); Done (l, es)
          else install_diverge l rest
      end
  end.

Fixpoint install_append `{Sha1} (l : Log) (es : list WireEntry) : outcome Log :=
  match es with
  | [] => Done l
  | w :: rest =>
      l ← Append l (mkViewstamp (w_view w) (w_opnum w)) (w_request w) LOG_STATE_PREPARED;
      install_append l rest
  end.

(** [Log::Install] *)
Definition Install `{Sha1} (l : Log) (es : list WireEntry) : outcome Log :=
  '(l, es) ← install_diverge l es; install_append l es.

(** ** Quorum sets *)

(** [std::map<int, MSGTYPE>] as a list sorted by key. *)
Fixpoint smap_insert {A} (k : N) (v : A) (m : list (N * A)) : list (N * A) :=
  match m with
  | [] => [(k, v)]
  | (k', v') :: m' =>
      if k <? k' then (k, v) :: m
      else if k =? k' then (k, v) :: m'
      else (k', v') :: smap_insert k v m'
  end.

Record QuorumSet (ID : Set) `{Countable ID} (MSG : Set) := mkQuorumSet {
  numRequired : Z;
  messages : gmap ID (list (N * MSG));
}.
Arguments mkQuorumSet {ID _ _ MSG} _ _.
Arguments numRequired {ID _ _ MSG} _.
Arguments messages {ID _ _ MSG} _.

Section QuorumSet.
Context {ID : Set} `{Countable ID} {MSG : Set}.
Implicit Types q : QuorumSet ID MSG.

Definition new_quorum (n : Z) : QuorumSet ID MSG := mkQuorumSet n ∅.

(** [Clear()] *)
Definition ClearAll q : QuorumSet ID MSG := mkQuorumSet (numRequired q) ∅.

(** [GetMessages(vs)]: [operator[]] creates the entry. *)
Definition GetMessages q (vs : ID) : list (N * MSG) * QuorumSet ID MSG :=
let m := default [] (messages q !! vs) in
(m, mkQuorumSet (numRequired q) (<[vs := m]> (messages q))).

Definition CheckForQuorum q (vs : ID) : option (list (N * MSG)) * QuorumSet ID MSG :=
let '(m, q) := GetMessages q vs in
(if (numRequired q <=? Z.of_nat (length m))%Z then Some m else None, q).

Definition AddAndCheckForQuorum q (vs : ID) (replicaIdx : N) (msg : MSG)
  : option (list (N * MSG)) * QuorumSet ID MSG :=
let '(m, q) := GetMessages q vs in
CheckForQuorum
  (mkQuorumSet (numRequired q) (<[vs := smap_insert replicaIdx msg m]> (messages q))) vs.
End QuorumSet.

(** ** Well-formed logs *)

(** Entry [i] has operation number [start + i]. *)
Definition consecutive (l : Log) : Prop :=
  ∀ i e, entries l !! i = Some e → vs_opnum (viewstamp_of e) = start l + N.of_nat i.

Definition log_wf (l : Log) : Prop :=
  consecutive l ∧ 0 < start l < 2 ^ 64 ∧ start l + N.of_nat (length (entries l)) <= 2 ^ 64.

Lemma LastOpnum_spec l :
  log_wf l → LastOpnum l = start l + N.of_nat (length (entries l)) - 1.
Proof.
  intros (Hc & Hs & Hb). unfold LastOpnum. rewrite last_lookup.
  destruct (entries l) as [|e es] eqn:E; simpl.
  - unfold u64. replace (start l + 2 ^ 64 - 1) with (start l - 1 + 1 * 2 ^ 64) by lia.
    rewrite N.Div0.mod_add, N.mod_small by lia. lia.
  - destruct ((e :: es) !! length es) as [e'|] eqn:E'.
    + rewrite (Hc (length es) e') by (by rewrite E). cbn [length] in *. lia.
    + apply lookup_ge_None in E'. cbn [length] in E'. lia.
Qed.

Lemma Find_spec l op :
  log_wf l →
  Find l op = Done (if op <? start l then None else entries l !! N.to_nat (op - start l)).
Proof.
  intros (Hc & Hs & Hb). unfold Find. destruct (entries l) as [|e es] eqn:E.
  { case_match; [done|]. by rewrite lookup_nil. }
  case_match; [done|]. destruct (N.ltb_spec (N.of_nat (length (e :: es)) - 1) (op - start l)).
  { rewrite lookup_ge_None_2; [done|]. lia. }
  destruct ((e :: es) !! N.to_nat (op - start l)) as [e'|] eqn:E'.
  - rewrite (Hc (N.to_nat (op - start l)) e') by (by rewrite E).
    rewrite (proj2 (N.eqb_eq _ _)) by lia. done.
  - apply lookup_ge_None in E'. cbn [length] in *. lia.
Qed.

Lemma Find_Some l op e :
  log_wf l → Find l op = Done (Some e) →
  start l <= op ∧ entries l !! N.to_nat (op - start l) = Some e ∧
  vs_opnum (viewstamp_of e) = op.
Proof.
  intros Hwf. rewrite Find_spec by done. intros He%Done_inj.
  destruct (N.ltb_spec op (start l)); [done|]. split_and!; [done..|].
  rewrite (proj1 Hwf _ _ He). lia.
Qed.

Lemma log_wf_snoc l e :
  log_wf l → vs_opnum (viewstamp_of e) = start l + N.of_nat (length (entries l)) →
  start l + N.of_nat (length (entries l)) < 2 ^ 64 →
  log_wf (set_entries l (entries l ++ [e])).
Proof.
  intros (Hc & Hs & Hb) He Hlt. split; [|split]; simpl; [|done|rewrite length_app; cbn [length]; lia].
  intros i e' [Hi|[Hi Hi']]%lookup_app_Some; [by apply Hc|].
  apply list_lookup_singleton_Some in Hi' as [Hi' <-]. simpl. rewrite He. lia.
Qed.

Lemma log_wf_take l n : log_wf l → log_wf (set_entries l (take n (entries l))).
Proof.
  intros (Hc & Hs & Hb). split; [|split]; simpl; [|done|rewrite length_take; lia].
  intros i e [Hi _]%lookup_take_Some. by apply Hc.
Qed.

Lemma log_wf_insert l i e e' :
  log_wf l → entries l !! i = Some e → viewstamp_of e' = viewstamp_of e →
  log_wf (set_entries l (<[i := e']> (entries l))).
Proof.
  intros (Hc & Hs & Hb) Hi He. split; [|split]; simpl; [|done|by rewrite length_insert].
  intros j x [(<- & -> & _)|[_ Hj]]%list_lookup_insert_Some; [|by apply Hc].
  rewrite He. by apply Hc.
Qed.

Section LogFacts.
Context `{Sha1}.

(** The entry [Append] adds. *)
Definition appended (l : Log) (vs : viewstamp) (req : Request) (st : LogEntryState) : LogEntry :=
mkLogEntry vs st req (if useHash l then ComputeHash (LastHash l) vs req else []).

Lemma Append_spec l vs req st :
log_wf l → vs_opnum vs = start l + N.of_nat (length (entries l)) → vs_opnum vs < 2 ^ 64 →
Append l vs req st = Done (set_entries l (entries l ++ [appended l vs req st])).
Proof.
intros Hwf He Hlt. unfold Append. pose proof (LastOpnum_spec l Hwf) as Hlast.
pose proof Hwf as (_ & Hs & _).
assert ((match entries l with
  | [] => ASSERT (vs_opnum vs =? start l)
  | _ => ASSERT (vs_opnum vs =? u64 (LastOpnum l + 1))
  end) = Done tt) as ->.
{ destruct (entries l) as [|e es]; cbn [length] in *.
  - rewrite (proj2 (N.eqb_eq _ _)) by lia. done.
  - rewrite Hlast, u64_small by lia. rewrite (proj2 (N.eqb_eq _ _)) by lia. done. }
cbn [mbind outcome_bind]. fold (appended l vs req st).
rewrite Find_spec by (apply log_wf_snoc; [done|done|lia]).
cbn [mbind outcome_bind start entries set_entries].
rewrite (proj2 (N.ltb_ge _ _)) by lia.
replace (N.to_nat (vs_opnum vs - start l)) with (length (entries l)) by lia.
by rewrite lookup_app_r, Nat.sub_diag.
Qed.

(** A log that [Append] returns is well formed: a number that would wrap around
is refused. *)
Lemma Append_wf l vs req st l' :
log_wf l → Append l vs req st = Done l' →
log_wf l' ∧ vs_opnum vs = start l + N.of_nat (length (entries l)) ∧ vs_opnum vs < 2 ^ 64 ∧
l' = set_entries l (entries l ++ [appended l vs req st]).
Proof.
intros Hwf HA. pose proof (LastOpnum_spec l Hwf) as Hlast. pose proof Hwf as (_ & Hs & Hb).
assert (vs_opnum vs = start l + N.of_nat (length (entries l)) ∧ vs_opnum vs < 2 ^ 64) as [He Hlt].
{ unfold Append in HA. destruct (entries l) as [|e es] eqn:E.
  { destruct (N.eqb_spec (vs_opnum vs) (start l)); [|done]. cbn [length]. lia. }
  rewrite Hlast in HA. cbn [length] in *.
  destruct (decide (start l + N.of_nat (S (length es)) = 2 ^ 64)) as [Hmax|Hmax].
  - replace (start l + N.of_nat (S (length es)) - 1 + 1) with (2 ^ 64) in HA by lia.
    destruct (N.eqb_spec (vs_opnum vs) (u64 (2 ^ 64))) as [Hz|]; [|done].
    change (u64 (2 ^ 64)) with 0 in Hz. simpl ASSERT in HA. cbn [mbind outcome_bind] in HA.
    unfold Find in HA. rewrite Hz in HA. cbn [entries set_entries start app] in HA.
    by rewrite (proj2 (N.ltb_lt _ _)) in HA by lia.
  - rewrite u64_small in HA by lia.
    destruct (N.eqb_spec (vs_opnum vs) (start l + N.of_nat (S (length es)) - 1 + 1)); [lia|done]. }
rewrite Append_spec in HA by done. apply Done_inj in HA as <-.
split_and!; [|done..]. apply log_wf_snoc; [done|done|lia].
Qed.
End LogFacts.

Lemma update_entry_spec l op f :
  log_wf l → (∀ e, viewstamp_of (f e) = viewstamp_of e) →
  ∃ b l', update_entry l op f = Done (b, l') ∧ log_wf l' ∧
    l' = if b then set_entries l (alter f (N.to_nat (op - start l)) (entries l)) else l.
Proof.
  intros Hwf Hf. unfold update_entry. rewrite Find_spec by done. cbn [mbind outcome_bind].
  destruct (N.ltb_spec op (start l)); [by exists false, l|].
  destruct (entries l !! N.to_nat (op - start l)) as [e|] eqn:E; [|by exists false, l].
  eexists true, _. split; [done|]. split.
  - by eapply log_wf_insert.
  - f_equal. apply list_eq. intros j. rewrite list_lookup_alter.
    destruct (decide (N.to_nat (op - start l) = j)) as [<-|Hne].
    + rewrite list_lookup_insert_eq by (by eapply lookup_lt_Some).
      by rewrite E.
    + by rewrite list_lookup_insert_ne.
Qed.

Lemma RemoveAfter_spec l op :
  log_wf l →
  RemoveAfter l op =
    if start l <=? op
    then Done (set_entries l (take (N.to_nat (op - start l)) (entries l)))
    else if LastOpnum l <? op then Done l else Stop Panicked.
Proof.
  intros Hwf. unfold RemoveAfter. pose proof (LastOpnum_spec l Hwf) as Hlast.
  pose proof Hwf as (Hc & Hs & Hb).
  destruct (N.leb_spec (start l) op).
  - destruct (N.ltb_spec (LastOpnum l) op).
    { rewrite take_ge by lia. by destruct l. }
    assert (u64 (op + 2 ^ 64 - start l) = op - start l) as ->.
    { unfold u64. replace (op + 2 ^ 64 - start l) with (op - start l + 1 * 2 ^ 64) by lia.
      rewrite N.Div0.mod_add. apply N.mod_small. lia. }
    rewrite (proj2 (N.ltb_lt _ _)) by lia. simpl ASSERT. cbn [mbind outcome_bind].
    rewrite LastOpnum_spec by (by apply log_wf_take). cbn [entries set_entries start].
    rewrite length_take.
    assert (u64 (op + 2 ^ 64 - 1) = op - 1) as ->.
    { unfold u64. replace (op + 2 ^ 64 - 1) with (op - 1 + 1 * 2 ^ 64) by lia.
      rewrite N.Div0.mod_add. apply N.mod_small. lia. }
    rewrite (proj2 (N.eqb_eq _ _)) by lia. done.
  - destruct (N.ltb_spec (LastOpnum l) op); [lia|].
    assert (u64 (op + 2 ^ 64 - start l) = op + 2 ^ 64 - start l) as ->.
    { apply u64_small. lia. }
    by rewrite (proj2 (N.ltb_ge _ _)) by lia.
Qed.

Lemma RemoveAfter_wf l op l' : log_wf l → RemoveAfter l op = Done l' → log_wf l'.
Proof.
  intros Hwf. rewrite RemoveAfter_spec by done.
  repeat case_match; intros E; try discriminate; apply Done_inj in E as <-; try done. by apply log_wf_take.
Qed.

Lemma dump_loop_spec l n k :
  log_wf l → (k + n ≤ length (entries l))%nat →
  dump_loop l n (start l + N.of_nat k) = Done (wire <$> take n (drop k (entries l))).
Proof.
  intros Hwf. revert k. induction n as [|n IH]; intros k Hk; [done|]. cbn [dump_loop].
  rewrite Find_spec by done. rewrite (proj2 (N.ltb_ge _ _)) by lia.
  replace (N.to_nat (start l + N.of_nat k - start l)) with k by lia.
  destruct (lookup_lt_is_Some_2 (entries l) k) as [e He]; [lia|]. rewrite He.
  cbn [mbind outcome_bind].
  replace (start l + N.of_nat k + 1) with (start l + N.of_nat (S k)) by lia.
  rewrite IH by lia. cbn [mbind outcome_bind]. by rewrite (drop_S _ e k).
Qed.

Lemma Dump_spec l from :
  log_wf l →
  Dump l from = Done (wire <$> drop (N.to_nat (N.max from (start l) - start l)) (entries l)).
Proof.
  intros Hwf. unfold Dump. rewrite LastOpnum_spec by done.
  destruct Hwf as (Hc & Hs & Hb). set (i := N.max from (start l)).
  destruct (decide (i - start l < N.of_nat (length (entries l)))) as [Hlt|Hge].
  - replace i with (start l + N.of_nat (N.to_nat (i - start l))) at 2 by lia.
    rewrite dump_loop_spec by (done || lia). rewrite take_ge; [done|]. rewrite length_drop. lia.
  - replace (N.to_nat _) with 0%nat by lia. rewrite drop_ge by lia. done.
Qed.

(** ** Transferring a log *)

(** What replicas must agree on: the viewstamp and the request. *)
Definition entry_key (e : LogEntry) : viewstamp * Request := (viewstamp_of e, request_of e).

(** The entry [Install] makes of a wire entry on a log without hashes. *)
Definition prepared (w : WireEntry) : LogEntry :=
  mkLogEntry (mkViewstamp (w_view w) (w_opnum w)) LOG_STATE_PREPARED (w_request w) [].

Lemma prepared_wire_key e : entry_key (prepared (wire e)) = entry_key e.
Proof. by destruct e as [[] ? ? ?]. Qed.

Lemma install_append_spec `{Sha1} l ws :
  log_wf l → useHash l = false →
  start l + N.of_nat (length (entries l)) + N.of_nat (length ws) <= 2 ^ 64 →
  (∀ i w, ws !! i = Some w →
    w_opnum w = start l + N.of_nat (length (entries l)) + N.of_nat i) →
  install_append l ws = Done (set_entries l (entries l ++ (prepared <$> ws))) ∧
  log_wf (set_entries l (entries l ++ (prepared <$> ws))).
Proof.
  revert l. induction ws as [|w ws IH]; intros l Hwf Hh Hlt Hws; simpl.
  { rewrite app_nil_r. by destruct l. }
  cbn [length] in Hlt.
  pose proof (Hws 0%nat w eq_refl) as Hw0. rewrite N.add_0_r in Hw0.
  rewrite Append_spec by (done || (cbn [vs_opnum]; lia)). cbn [mbind outcome_bind].
  unfold appended. rewrite Hh. fold (prepared w).
  destruct (IH (set_entries l (entries l ++ [prepared w]))) as [-> Hwf'].
  - apply log_wf_snoc; [done|by simpl|lia].
  - done.
  - cbn [entries set_entries start]. rewrite length_app. cbn [length]. lia.
  - intros i w' Hi. cbn [entries set_entries start]. rewrite length_app. cbn [length].
    rewrite (Hws (S i) w') by done. lia.
  - cbn [entries set_entries start initialHash useHash] in *.
    rewrite <-app_assoc in *. done.
Qed.

Section Transfer.
Context `{Sha1} (A B : Log).
Context (HwfA : log_wf A) (HwfB : log_wf B) (Hstart : start A = start B).
Context (HhB : useHash B = false).
(** Two entries with the same number and view hold the same request. *)
Context (Hmatch : ∀ i a b, entries A !! i = Some a → entries B !! i = Some b →
vs_view (viewstamp_of a) = vs_view (viewstamp_of b) → entry_key a = entry_key b).

(** The logs agree below index [k]. *)
Definition agree_below (k : nat) : Prop :=
∀ i, (i < k)%nat → entry_key <$> entries A !! i = entry_key <$> entries B !! i.

(** [B'] is a well-formed log that agrees with [A] on all of [A]. *)
Definition covers (B' : Log) : Prop :=
log_wf B' ∧ useHash B' = false ∧ start B' = start B ∧
(∀ i, (i < length (entries A))%nat → entry_key <$> entries B' !! i = entry_key <$> entries A !! i).

Lemma install_tail B1 k :
(k ≤ length (entries A))%nat → (k ≤ length (entries B))%nat → agree_below k →
log_wf B1 → useHash B1 = false → start B1 = start B →
entries B1 = take k (entries B) →
∃ B', install_append B1 (wire <$> drop k (entries A)) = Done B' ∧ covers B'.
Proof using HwfA Hstart HhB.
intros HkA HkB Hpre Hwf1 Hh1 Hs1 He1.
assert (length (entries B1) = k) as Hl1 by (rewrite He1, length_take; lia).
destruct (install_append_spec B1 (wire <$> drop k (entries A))) as [-> Hwf']; [done..| | |].
- rewrite length_fmap, length_drop, Hl1, Hs1, <-Hstart. destruct HwfA as (_ & _ & ?). lia.
- intros i w Hw. rewrite list_lookup_fmap in Hw.
  destruct (drop k (entries A) !! i) as [a|] eqn:Ha; [|done]. injection Hw as <-.
  rewrite lookup_drop in Ha. cbn [w_opnum wire]. rewrite (proj1 HwfA _ _ Ha), Hl1, Hs1. lia.
- eexists. split; [done|]. split_and!; [done..|].
  intros i Hi. cbn [entries set_entries]. destruct (decide (i < k)%nat).
  + rewrite lookup_app_l by lia. rewrite He1, lookup_take_lt by done. by rewrite Hpre.
  + rewrite lookup_app_r by lia. rewrite Hl1, !list_lookup_fmap, lookup_drop.
    replace (k + (i - k))%nat with i by lia.
    destruct (entries A !! i) as [a|] eqn:E; [|done]. cbn. by rewrite prepared_wire_key.
Qed.

Lemma install_spec n k :
(n = length (entries A) - k)%nat → (k ≤ length (entries A))%nat → (k ≤ length (entries B))%nat →
agree_below k →
∃ B', Install B (wire <$> drop k (entries A)) = Done B' ∧ covers B'.
Proof using HwfA HwfB Hstart HhB Hmatch.
unfold Install. revert k. induction n as [|n IH]; intros k Hn HkA HkB Hpre.
{ rewrite drop_ge by lia. simpl. eexists. split; [done|]. split_and!; [done..|].
  intros i Hi. symmetry. apply Hpre. lia. }
destruct (lookup_lt_is_Some_2 (entries A) k) as [a Ha]; [lia|].
rewrite (drop_S _ a k) by done. cbn [fmap list_fmap install_diverge].
assert (w_opnum (wire a) = start B + N.of_nat k) as Hop.
{ cbn. rewrite (proj1 HwfA _ _ Ha). lia. }
rewrite Find_spec, Hop by done. rewrite (proj2 (N.ltb_ge _ _)) by lia.
replace (N.to_nat (start B + N.of_nat k - start B)) with k by lia. cbn [mbind outcome_bind].
destruct (entries B !! k) as [b|] eqn:Hb.
- case_bool_decide as Hv.
  + rewrite RemoveAfter_spec by done. rewrite (proj2 (N.leb_le _ _)) by lia.
    cbn [mbind outcome_bind].
    replace (N.to_nat (start B + N.of_nat k - start B)) with k by lia.
    change (wire a :: _) with (wire <$> (a :: drop (S k) (entries A))).
    rewrite <-(drop_S _ a k) by done. apply install_tail; try done. by apply log_wf_take.
  + apply IH; [lia|lia|apply lookup_lt_Some in Hb; lia|].
    intros i Hi. destruct (decide (i = k)) as [->|]; [|apply Hpre; lia].
    rewrite Ha, Hb. cbn. f_equal. eapply Hmatch; [done..|]. cbn in Hv.
    destruct (decide (vs_view (viewstamp_of a) = vs_view (viewstamp_of b))); [done|].
    by destruct Hv.
- change (wire a :: _) with (wire <$> (a :: drop (S k) (entries A))).
  rewrite <-(drop_S _ a k) by done. apply install_tail; try done.
  rewrite take_ge; [done|]. by apply lookup_ge_None in Hb.
Qed.
End Transfer.

(** Installing what [Dump] takes from the log [A] of another replica makes
    the log agree with [A] on all of [A], provided the two agree below the
    first entry dumped and the same viewstamp stands for the same request. *)
Theorem dump_install `{Sha1} (A B : Log) (from : N) :
  log_wf A → log_wf B → start A = start B → useHash B = false →
  (∀ i a b, entries A !! i = Some a → entries B !! i = Some b →
     vs_view (viewstamp_of a) = vs_view (viewstamp_of b) → entry_key a = entry_key b) →
  start B <= from <= LastOpnum B + 1 → from <= LastOpnum A + 1 →
  (∀ i, start B + N.of_nat i < from → entry_key <$> entries A !! i = entry_key <$> entries B !! i) →
  ∃ ws B', Dump A from = Done ws ∧ Install B ws = Done B' ∧ log_wf B' ∧
    (∀ op, op <= LastOpnum A →
       ∃ a b, Find A op = Done a ∧ Find B' op = Done b ∧ entry_key <$> b = entry_key <$> a).
Proof.
  intros HwfA HwfB Hs Hh Hm HfB HfA Hpre.
  rewrite LastOpnum_spec in HfA, HfB by done.
  pose proof (HwfA) as (_ & HsA & _). pose proof (HwfB) as (_ & HsB & _).
  exists (wire <$> drop (N.to_nat (from - start A)) (entries A)).
  destruct (install_spec A B HwfA HwfB Hs Hh Hm (length (entries A) - N.to_nat (from - start A))
    (N.to_nat (from - start A))) as (B' & HI & Hwf' & _ & Hs' & Hcov); [done|lia..| |].
  { intros i Hi. apply Hpre. lia. }
  exists B'. split_and!; [|done|done|].
  { rewrite Dump_spec by done. do 3 f_equal. lia. }
  intros op Hop. rewrite !Find_spec by done. rewrite Hs', <-Hs.
  rewrite LastOpnum_spec in Hop by done.
  eexists _, _. split; [done|]. split; [done|].
  destruct (N.ltb_spec op (start A)); [done|]. apply Hcov. lia.
Qed.

Definition example_log (n : nat) (v : N) : Log :=
  mkLog ((λ i, mkLogEntry (mkViewstamp v (N.of_nat i)) LOG_STATE_PREPARED
                 (mkRequest #"op" 7 (N.of_nat i)) []) <$> seq 1 n) EMPTY_HASH 1 false.

Lemma dump_install_witness :
  let _ : Sha1 := λ _, [] in
  ∃ ws B', Dump (example_log 4 1) 2 = Done ws ∧ Install (example_log 2 1) ws = Done B' ∧
    log_wf B'.
Proof.
  intros S1.
  assert (∀ n, (n < 5)%nat → log_wf (example_log n 1)) as Hwf.
  { intros n Hn. split; [|split]; [|done|simpl; rewrite length_fmap, length_seq; lia].
    intros i e He. simpl in He. apply list_lookup_fmap_Some in He as (j & -> & Hj).
    apply lookup_seq in Hj as [-> _]. simpl. lia. }
  destruct (@dump_install S1 (example_log 4 1) (example_log 2 1) 2) as (ws & B' & H1 & H2 & H3 & _).
  - apply Hwf. lia.
  - apply Hwf. lia.
  - reflexivity.
  - reflexivity.
  - intros i a b Ha Hb _. do 2 (destruct i as [|i]; [simpl in *; congruence|]).
    discriminate Hb.
  - vm_compute. split; discriminate.
  - vm_compute. discriminate.
  - intros i Hi. simpl in Hi. destruct i as [|i]; [reflexivity|]. exfalso. lia.
  - exists ws, B'. split; [exact H1|]. split; [exact H2|exact H3].
Defined.

(** ** Quorums *)

Lemma smap_keys {A} k (v : A) m x : x ∈ (smap_insert k v m).*1 ↔ x = k ∨ x ∈ m.*1.
Proof.
  induction m as [|[k' v'] m IH]; simpl; [by rewrite elem_of_cons|].
  destruct (N.ltb_spec k k'); simpl; [by rewrite elem_of_cons|].
  destruct (N.eqb_spec k k') as [->|]; simpl; rewrite !elem_of_cons; [tauto|].
  rewrite IH. tauto.
Qed.

Lemma smap_sorted {A} k (v : A) m :
  StronglySorted N.lt m.*1 → StronglySorted N.lt (smap_insert k v m).*1.
Proof.
  induction m as [|[k' v'] m IH]; simpl; intros Hs; [repeat constructor|].
  apply StronglySorted_inv in Hs as [Hs Hf].
  destruct (N.ltb_spec k k'); simpl.
  - constructor; [by constructor|]. constructor; [done|].
    eapply Forall_impl; [exact Hf|]. simpl. intros; lia.
  - destruct (N.eqb_spec k k') as [->|]; simpl; constructor; [done..|by apply IH|].
    apply Forall_forall. intros x [->|Hx]%smap_keys; [lia|]. by apply (proj1 (Forall_forall _ _) Hf).
Qed.

Lemma smap_insert_in {A} k (v : A) m : (k, v) ∈ smap_insert k v m.
Proof.
  induction m as [|[k' v'] m IH]; simpl; [by left|].
  destruct (k <? k'); [by left|]. destruct (k =? k'); [by left|by right].
Qed.

Lemma sorted_nodup (l : list N) : StronglySorted N.lt l → NoDup l.
Proof.
  induction 1 as [|x l Hs IH Hf]; constructor; [|done].
  intros Hx. apply (proj1 (Forall_forall _ _) Hf) in Hx. lia.
Qed.

Section QuorumFacts.
Context {ID : Set} `{Countable ID} {MSG : Set}.
Implicit Types q : QuorumSet ID MSG.

Definition quorum_wf q : Prop :=
∀ id m, messages q !! id = Some m → StronglySorted N.lt m.*1.

(** The replicas heard from about [vs]. *)
Definition heard q (vs : ID) : list N := (default [] (messages q !! vs)).*1.

Lemma new_quorum_wf n : quorum_wf (new_quorum n).
Proof. intros id m Hm. cbn [messages new_quorum] in Hm. by rewrite lookup_empty in Hm. Qed.

Lemma GetMessages_wf q vs m q' :
quorum_wf q → GetMessages q vs = (m, q') → quorum_wf q' ∧ numRequired q' = numRequired q.
Proof.
intros Hwf. unfold GetMessages. intros [= <- <-]. split; [|done].
intros id m. cbn [messages]. intros [[<- <-]|[_ Hm]]%lookup_insert_Some; [|by eapply Hwf].
destruct (messages q !! vs) eqn:E; [by eapply Hwf|constructor].
Qed.

Lemma AddAndCheck_spec q vs r msg res q' :
quorum_wf q → AddAndCheckForQuorum q vs r msg = (res, q') →
quorum_wf q' ∧ numRequired q' = numRequired q ∧
(∀ vs' x, x ∈ heard q' vs' ↔ x ∈ heard q vs' ∨ (vs' = vs ∧ x = r)) ∧
res = (if (numRequired q <=? Z.of_nat (length (heard q' vs)))%Z
       then messages q' !! vs else None) ∧
(∃ m, messages q' !! vs = Some m ∧ (r, msg) ∈ m).
Proof.
intros Hwf. unfold AddAndCheckForQuorum, CheckForQuorum, GetMessages. cbn [messages numRequired].
rewrite !lookup_insert_eq. cbn [from_option id]. rewrite !insert_insert_eq.
intros [= <- <-]. cbn [messages numRequired].
set (m := default [] (messages q !! vs)).
assert (StronglySorted N.lt m.*1) as Hm.
{ unfold m. destruct (messages q !! vs) eqn:E; [by eapply Hwf|constructor]. }
split_and!.
- intros id m' Hm'. cbn [messages] in Hm'.
  apply lookup_insert_Some in Hm' as [[_ <-]|[_ Hm']]; [by apply smap_sorted|by eapply Hwf].
- done.
- intros vs' x. unfold heard. cbn [messages]. destruct (decide (vs = vs')) as [<-|Hne].
  + rewrite lookup_insert_eq. cbn [from_option id]. rewrite smap_keys. fold m. tauto.
  + rewrite lookup_insert_ne by done. split; [by left|]. intros [?|[-> _]]; done.
- unfold heard. cbn [messages]. rewrite !lookup_insert_eq. cbn [from_option id].
  by rewrite length_fmap.
- eexists. split; [by rewrite lookup_insert_eq|]. apply smap_insert_in.
Qed.
End QuorumFacts.

(** Two sets that together are larger than [n] share a number below [n]. *)
Lemma pigeonhole (n : nat) (s1 s2 : list N) :
  NoDup s1 → NoDup s2 → (∀ x, x ∈ s1 ++ s2 → x < N.of_nat n) →
  (n < length s1 + length s2)%nat → ∃ x, x ∈ s1 ∧ x ∈ s2.
Proof.
  intros H1 H2 Hlt Hn.
  destruct (decide (Exists (λ x, x ∈ s2) s1)) as [He|He].
  { apply Exists_exists in He as (x & ? & ?). eauto. }
  exfalso. assert (NoDup (s1 ++ s2)) as Hnd.
  { apply NoDup_app. split_and!; [done| |done]. intros x Hx Hx2. apply He.
    apply Exists_exists. eauto. }
  assert (s1 ++ s2 ⊆+ (N.of_nat <$> seq 0 n)) as Hsub.
  { apply NoDup_submseteq; [done|]. intros x Hx. apply list_elem_of_fmap.
    exists (N.to_nat x). specialize (Hlt x Hx). split; [lia|]. apply elem_of_seq. lia. }
  apply submseteq_length in Hsub. rewrite length_fmap, length_seq, length_app in Hsub. lia.
Qed.

(** C25.  Whenever two [AddAndCheckForQuorum] calls of a configuration with
    [n = 2f + 1] replicas report a quorum, the two quorums, each with the leader
    that collected it, share a replica. *)
Theorem quorums_intersect {ID ID' MSG MSG' : Set} `{Countable ID, Countable ID'} (c : Configuration)
    (q1 : QuorumSet ID MSG) (q2 : QuorumSet ID' MSG') vs1 vs2 r1 r2 m1 m2 q1' q2' s1 s2 (l1 l2 : N) :
  valid_config c → cfg_n c = (2 * cfg_f c + 1)%Z →
  quorum_wf q1 → quorum_wf q2 →
  numRequired q1 = (QuorumSize c - 1)%Z → numRequired q2 = (QuorumSize c - 1)%Z →
  AddAndCheckForQuorum q1 vs1 r1 m1 = (Some s1, q1') →
  AddAndCheckForQuorum q2 vs2 r2 m2 = (Some s2, q2') →
  l1 ∉ s1.*1 → l2 ∉ s2.*1 →
  (∀ x, x ∈ l1 :: s1.*1 ++ l2 :: s2.*1 → (Z.of_N x < cfg_n c)%Z) →
  ∃ x, x ∈ l1 :: s1.*1 ∧ x ∈ l2 :: s2.*1.
Proof.
  intros Hv Hn Hw1 Hw2 Hq1 Hq2 HA1 HA2 Hl1 Hl2 Hlt.
  apply AddAndCheck_spec in HA1 as (Hw1' & _ & _ & Hr1 & _); [|done].
  apply AddAndCheck_spec in HA2 as (Hw2' & _ & _ & Hr2 & _); [|done].
  unfold QuorumSize in *.
  destruct (Z.leb_spec (numRequired q1) (Z.of_nat (length (heard q1' vs1)))) as [Hs1|]; [|done].
  destruct (Z.leb_spec (numRequired q2) (Z.of_nat (length (heard q2' vs2)))) as [Hs2|]; [|done].
  unfold heard in Hs1, Hs2. rewrite <-Hr1 in Hs1. rewrite <-Hr2 in Hs2. cbn [from_option id] in *.
  apply (pigeonhole (Z.to_nat (cfg_n c))).
  - constructor; [done|]. eapply sorted_nodup, Hw1'. by symmetry.
  - constructor; [done|]. eapply sorted_nodup, Hw2'. by symmetry.
  - intros x Hx. specialize (Hlt x Hx). lia.
  - cbn [length]. lia.
Qed.

Lemma quorums_intersect_witness :
  let q : QuorumSet N bytes := new_quorum 1 in
  AddAndCheckForQuorum q 5 1 #"m" = (Some [(1, #"m")], (AddAndCheckForQuorum q 5 1 #"m").2) ∧
  ∃ x, x ∈ [0; 1] ∧ x ∈ [2; 1].
Proof.
  intros q. split; [reflexivity|].
  apply (quorums_intersect three_replicas q q 5 6 1 1 #"m" #"n"
    (AddAndCheckForQuorum q 5 1 #"m").2 (AddAndCheckForQuorum q 6 1 #"n").2
    [(1, #"m")] [(1, #"n")] 0 2).
  - unfold valid_config. simpl. lia.
  - reflexivity.
  - apply new_quorum_wf.
  - apply new_quorum_wf.
  - reflexivity.
  - reflexivity.
  - reflexivity.
  - reflexivity.
  - intros [?|[]%elem_of_nil]%elem_of_cons. discriminate.
  - intros [?|[]%elem_of_nil]%elem_of_cons. discriminate.
  - apply Forall_forall. repeat constructor.
Defined.

#[global] Arguments AddAndCheckForQuorum : simpl never.
#[global] Arguments GetMessages : simpl never.
#[global] Arguments Find : simpl never.
#[global] Arguments Append : simpl never.
#[global] Arguments RemoveAfter : simpl never.
#[global] Arguments Install : simpl never.
#[global] Arguments Dump : simpl never.
#[global] Arguments SetStatus : simpl never.
