(* ===== verification/VRReplica.v ===== *)
(** * [distributed/replication/vr/replica.cc]: a viewstamped-replication replica

    The state of [VRReplica], one definition per method and per message
    handler, in a monad of state, output and failure.  A send appends to the
    output; what the network does with it is the business of the cluster.
    Timers are the set of timers that are running. *)

From S2P Require Import Prelude Cpp Config VRLog.

Open Scope N_scope.

(** ** Messages of [vr-proto.proto] *)

Record ReplyMessage := mkReply {
  rp_view : N; rp_opnum : N; rp_clientreqid : N; rp_reply : bytes }.
Record UnloggedReplyMessage := mkUnloggedReply { ur_reply : bytes; ur_clientreqid : N }.
Record PrepareMessage := mkPrepare {
  p_view : N; p_opnum : N; p_batchstart : N; p_request : list Request }.
Record PrepareOKMessage := mkPrepareOK { ok_view : N; ok_opnum : N; ok_replicaidx : N }.
Record CommitMessage := mkCommit { cm_view : N; cm_opnum : N }.
Record RequestStateTransferMessage := mkRequestST { rs_view : N; rs_opnum : N }.
Record StateTransferMessage := mkStateTransfer {
  xf_view : N; xf_opnum : N; xf_entries : list WireEntry }.
Record StartViewChangeMessage := mkStartViewChange {
  svc_view : N; svc_replicaidx : N; svc_lastcommitted : N }.
Record DoViewChangeMessage := mkDoViewChange {
  dvc_view : N; dvc_lastnormalview : N; dvc_lastop : N; dvc_lastcommitted : N;
  dvc_entries : list WireEntry; dvc_replicaidx : N }.
Record StartViewMessage := mkStartView {
  sv_view : N; sv_lastop : N; sv_lastcommitted : N; sv_entries : list WireEntry }.

Inductive message :=
  | MRequest (req : Request)
  | MUnloggedRequest (req : Request)
  | MReply (m : ReplyMessage)
  | MUnloggedReply (m : UnloggedReplyMessage)
  | MPrepare (m : PrepareMessage)
  | MPrepareOK (m : PrepareOKMessage)
  | MCommit (m : CommitMessage)
  | MRequestStateTransfer (m : RequestStateTransferMessage)
  | MStateTransfer (m : StateTransferMessage)
  | MStartViewChange (m : StartViewChangeMessage)
  | MDoViewChange (m : DoViewChangeMessage)
  | MStartView (m : StartViewMessage).

(** A [TransportAddress]. *)
Definition address : Set := N.

(** [SendMessage], [SendMessageToReplica] and [SendMessageToAll]. *)
Inductive output :=
  | ToAddress (a : address) (m : message)
  | ToReplica (idx : Z) (m : message)
  | ToAll (m : message).

(** ** The replica *)

Inductive ReplicaStatus := STATUS_NORMAL | STATUS_VIEW_CHANGE | STATUS_RECOVERING.
Global Instance ReplicaStatus_eq_dec : EqDecision ReplicaStatus.
Proof. solve_decision. Defined.

Inductive timer :=
  viewChangeTimeout | nullCommitTimeout | stateTransferTimeout
| resendPrepareTimeout | closeBatchTimeout.
Global Instance timer_eq_dec : EqDecision timer.
Proof. solve_decision. Defined.
Global Instance timer_countable : Countable timer.
Proof.
  refine (inj_countable'
    (λ t, match t with
          | viewChangeTimeout => 0 | nullCommitTimeout => 1 | stateTransferTimeout => 2
          | resendPrepareTimeout => 3 | closeBatchTimeout => 4
          end)
    (λ n, match n with
          | 0 => viewChangeTimeout | 1 => nullCommitTimeout | 2 => stateTransferTimeout
          | 3 => resendPrepareTimeout | _ => closeBatchTimeout
          end) _).
  by intros [].
Defined.

Record ClientTableEntry := mkCTE { cte_lastReqId : N; cte_replied : bool; cte_reply : ReplyMessage }.
Definition cleared_reply : ReplyMessage := mkReply 0 0 0 [].
Definition new_cte : ClientTableEntry := mkCTE 0 false cleared_reply.

(** The application behind a replica. *)
Class AppReplica (A : Type) := {
  LeaderUpcall : A → N → bytes → outcome (A * bool * bytes);
  ReplicaUpcall : A → N → bytes → outcome (A * bytes);
  UnloggedUpcall : A → bytes → outcome (A * bytes);
}.

(** The virtual methods of [AppReplica]. *)
Definition default_app : AppReplica unit := {|
  LeaderUpcall a _ op := Done (a, true, op);
  ReplicaUpcall a _ _ := Done (a, []);
  UnloggedUpcall a _ := Done (a, []);
|}.

Section VRReplica.
Context `{Sha1} `{AppReplica A}.

(** [latestMsg] of [HandleDoViewChange] points into the copy of a map entry
that the loop makes; when it is read the copy is gone.  This is what the read
gives. *)
Context (read_dangling : DoViewChangeMessage → outcome DoViewChangeMessage).

Record VRReplica := mkVRReplica {
configuration : Configuration;
myIdx : Z;
status : ReplicaStatus;
view : N;
lastCommitted : N;
lastOp : N;
lastRequestStateTransferView : N;
lastRequestStateTransferOpnum : N;
pendingPrepares : list (address * PrepareMessage);
lastPrepare : PrepareMessage;
batchSize : N;
lastBatchEnd : N;
log : Log;
clientAddresses : gmap N address;
clientTable : gmap N ClientTableEntry;
prepareOKQuorum : QuorumSet viewstamp PrepareOKMessage;
startViewChangeQuorum : QuorumSet N StartViewChangeMessage;
doViewChangeQuorum : QuorumSet N DoViewChangeMessage;
timers : gset timer;
app : A;
}.

Definition set_status (x : ReplicaStatus) (r : VRReplica) : VRReplica :=
mkVRReplica (configuration r) (myIdx r) x (view r) (lastCommitted r) (lastOp r)
  (lastRequestStateTransferView r) (lastRequestStateTransferOpnum r) (pendingPrepares r)
  (lastPrepare r) (batchSize r) (lastBatchEnd r) (log r) (clientAddresses r) (clientTable r)
  (prepareOKQuorum r) (startViewChangeQuorum r) (doViewChangeQuorum r) (timers r) (app r).
Definition set_view (x : N) (r : VRReplica) : VRReplica :=
mkVRReplica (configuration r) (myIdx r) (status r) x (lastCommitted r) (lastOp r)
  (lastRequestStateTransferView r) (lastRequestStateTransferOpnum r) (pendingPrepares r)
  (lastPrepare r) (batchSize r) (lastBatchEnd r) (log r) (clientAddresses r) (clientTable r)
  (prepareOKQuorum r) (startViewChangeQuorum r) (doViewChangeQuorum r) (timers r) (app r).
Definition set_lastCommitted (x : N) (r : VRReplica) : VRReplica :=
mkVRReplica (configuration r) (myIdx r) (status r) (view r) x (lastOp r)
  (lastRequestStateTransferView r) (lastRequestStateTransferOpnum r) (pendingPrepares r)
  (lastPrepare r) (batchSize r) (lastBatchEnd r) (log r) (clientAddresses r) (clientTable r)
  (prepareOKQuorum r) (startViewChangeQuorum r) (doViewChangeQuorum r) (timers r) (app r).
Definition set_lastOp (x : N) (r : VRReplica) : VRReplica :=
mkVRReplica (configuration r) (myIdx r) (status r) (view r) (lastCommitted r) x
  (lastRequestStateTransferView r) (lastRequestStateTransferOpnum r) (pendingPrepares r)
  (lastPrepare r) (batchSize r) (lastBatchEnd r) (log r) (clientAddresses r) (clientTable r)
  (prepareOKQuorum r) (startViewChangeQuorum r) (doViewChangeQuorum r) (timers r) (app r).
Definition set_lastRequestStateTransferView (x : N) (r : VRReplica) : VRReplica :=
mkVRReplica (configuration r) (myIdx r) (status r) (view r) (lastCommitted r) (lastOp r) x
  (lastRequestStateTransferOpnum r) (pendingPrepares r) (lastPrepare r) (batchSize r)
  (lastBatchEnd r) (log r) (clientAddresses r) (clientTable r) (prepareOKQuorum r)
  (startViewChangeQuorum r) (doViewChangeQuorum r) (timers r) (app r).
Definition set_lastRequestStateTransferOpnum (x : N) (r : VRReplica) : VRReplica :=
mkVRReplica (configuration r) (myIdx r) (status r) (view r) (lastCommitted r) (lastOp r)
  (lastRequestStateTransferView r) x (pendingPrepares r) (lastPrepare r) (batchSize r)
  (lastBatchEnd r) (log r) (clientAddresses r) (clientTable r) (prepareOKQuorum r)
  (startViewChangeQuorum r) (doViewChangeQuorum r) (timers r) (app r).
Definition set_pendingPrepares (x : list (address * PrepareMessage)) (r : VRReplica) : VRReplica
  :=
mkVRReplica (configuration r) (myIdx r) (status r) (view r) (lastCommitted r) (lastOp r)
  (lastRequestStateTransferView r) (lastRequestStateTransferOpnum r) x (lastPrepare r)
  (batchSize r) (lastBatchEnd r) (log r) (clientAddresses r) (clientTable r) (prepareOKQuorum
  r) (startViewChangeQuorum r) (doViewChangeQuorum r) (timers r) (app r).
Definition set_lastPrepare (x : PrepareMessage) (r : VRReplica) : VRReplica :=
mkVRReplica (configuration r) (myIdx r) (status r) (view r) (lastCommitted r) (lastOp r)
  (lastRequestStateTransferView r) (lastRequestStateTransferOpnum r) (pendingPrepares r) x
  (batchSize r) (lastBatchEnd r) (log r) (clientAddresses r) (clientTable r) (prepareOKQuorum
  r) (startViewChangeQuorum r) (doViewChangeQuorum r) (timers r) (app r).
Definition set_lastBatchEnd (x : N) (r : VRReplica) : VRReplica :=
mkVRReplica (configuration r) (myIdx r) (status r) (view r) (lastCommitted r) (lastOp r)
  (lastRequestStateTransferView r) (lastRequestStateTransferOpnum r) (pendingPrepares r)
  (lastPrepare r) (batchSize r) x (log r) (clientAddresses r) (clientTable r) (prepareOKQuorum
  r) (startViewChangeQuorum r) (doViewChangeQuorum r) (timers r) (app r).
Definition set_log (x : Log) (r : VRReplica) : VRReplica :=
mkVRReplica (configuration r) (myIdx r) (status r) (view r) (lastCommitted r) (lastOp r)
  (lastRequestStateTransferView r) (lastRequestStateTransferOpnum r) (pendingPrepares r)
  (lastPrepare r) (batchSize r) (lastBatchEnd r) x (clientAddresses r) (clientTable r)
  (prepareOKQuorum r) (startViewChangeQuorum r) (doViewChangeQuorum r) (timers r) (app r).
Definition set_clientAddresses (x : gmap N address) (r : VRReplica) : VRReplica :=
mkVRReplica (configuration r) (myIdx r) (status r) (view r) (lastCommitted r) (lastOp r)
  (lastRequestStateTransferView r) (lastRequestStateTransferOpnum r) (pendingPrepares r)
  (lastPrepare r) (batchSize r) (lastBatchEnd r) (log r) x (clientTable r) (prepareOKQuorum r)
  (startViewChangeQuorum r) (doViewChangeQuorum r) (timers r) (app r).
Definition set_clientTable (x : gmap N ClientTableEntry) (r : VRReplica) : VRReplica :=
mkVRReplica (configuration r) (myIdx r) (status r) (view r) (lastCommitted r) (lastOp r)
  (lastRequestStateTransferView r) (lastRequestStateTransferOpnum r) (pendingPrepares r)
  (lastPrepare r) (batchSize r) (lastBatchEnd r) (log r) (clientAddresses r) x
  (prepareOKQuorum r) (startViewChangeQuorum r) (doViewChangeQuorum r) (timers r) (app r).
Definition set_prepareOKQuorum (x : QuorumSet viewstamp PrepareOKMessage) (r : VRReplica) :
  VRReplica :=
mkVRReplica (configuration r) (myIdx r) (status r) (view r) (lastCommitted r) (lastOp r)
  (lastRequestStateTransferView r) (lastRequestStateTransferOpnum r) (pendingPrepares r)
  (lastPrepare r) (batchSize r) (lastBatchEnd r) (log r) (clientAddresses r) (clientTable r) x
  (startViewChangeQuorum r) (doViewChangeQuorum r) (timers r) (app r).
Definition set_startViewChangeQuorum (x : QuorumSet N StartViewChangeMessage) (r : VRReplica) :
  VRReplica :=
mkVRReplica (configuration r) (myIdx r) (status r) (view r) (lastCommitted r) (lastOp r)
  (lastRequestStateTransferView r) (lastRequestStateTransferOpnum r) (pendingPrepares r)
  (lastPrepare r) (batchSize r) (lastBatchEnd r) (log r) (clientAddresses r) (clientTable r)
  (prepareOKQuorum r) x (doViewChangeQuorum r) (timers r) (app r).
Definition set_doViewChangeQuorum (x : QuorumSet N DoViewChangeMessage) (r : VRReplica) :
  VRReplica :=
mkVRReplica (configuration r) (myIdx r) (status r) (view r) (lastCommitted r) (lastOp r)
  (lastRequestStateTransferView r) (lastRequestStateTransferOpnum r) (pendingPrepares r)
  (lastPrepare r) (batchSize r) (lastBatchEnd r) (log r) (clientAddresses r) (clientTable r)
  (prepareOKQuorum r) (startViewChangeQuorum r) x (timers r) (app r).
Definition set_timers (x : gset timer) (r : VRReplica) : VRReplica :=
mkVRReplica (configuration r) (myIdx r) (status r) (view r) (lastCommitted r) (lastOp r)
  (lastRequestStateTransferView r) (lastRequestStateTransferOpnum r) (pendingPrepares r)
  (lastPrepare r) (batchSize r) (lastBatchEnd r) (log r) (clientAddresses r) (clientTable r)
  (prepareOKQuorum r) (startViewChangeQuorum r) (doViewChangeQuorum r) x (app r).
Definition set_app (x : A) (r : VRReplica) : VRReplica :=
mkVRReplica (configuration r) (myIdx r) (status r) (view r) (lastCommitted r) (lastOp r)
  (lastRequestStateTransferView r) (lastRequestStateTransferOpnum r) (pendingPrepares r)
  (lastPrepare r) (batchSize r) (lastBatchEnd r) (log r) (clientAddresses r) (clientTable r)
  (prepareOKQuorum r) (startViewChangeQuorum r) (doViewChangeQuorum r) (timers r) x.


(** [VRReplica::VRReplica] *)
Definition new_replica (config : Configuration) (idx : Z) (batch : N) (a : A)
  : outcome VRReplica :=
l ← new_log false 1 EMPTY_HASH;
let n := (QuorumSize config - 1)%Z in
Done (mkVRReplica config idx STATUS_NORMAL 0 0 0 0 0 [] (mkPrepare 0 0 0 []) batch 0 l ∅ ∅
  (new_quorum n) (new_quorum n) (new_quorum n)
  {[ stateTransferTimeout;
     if (GetLeaderIndex config 0 =? idx)%Z then nullCommitTimeout else viewChangeTimeout ]}
  a).

(** ** The monad of the methods *)

Definition VR (T : Type) : Type := VRReplica → outcome (T * VRReplica * list output).

Global Instance vr_ret : MRet VR := λ T x r, Done (x, r, []).
Global Instance vr_bind : MBind VR := λ T U k m r,
match m r with
| Done (x, r', o) =>
    match k x r' with
    | Done (y, r'', o') => Done (y, r'', o ++ o')
    | Stop f => Stop f
    end
| Stop f => Stop f
end.

Definition this {T} (f : VRReplica → T) : VR T := λ r, Done (f r, r, []).
Definition modify (f : VRReplica → VRReplica) : VR unit := λ r, Done (tt, f r, []).
Definition emit (o : output) : VR unit := λ r, Done (tt, r, [o]).
Definition lift {T} (x : outcome T) : VR T := λ r,
match x with Done y => Done (y, r, []) | Stop f => Stop f end.
Definition check (b : bool) : VR unit := lift (ASSERT b).
Definition RPanic {T} : VR T := λ _, Stop Panicked.
Definition when (b : bool) (m : VR unit) : VR unit := if b then m else mret tt.

Definition Start (t : timer) : VR unit := modify (λ r, set_timers ({[t]} ∪ timers r) r).
Definition Reset_timer (t : timer) : VR unit := Start t.
Definition Stop_timer (t : timer) : VR unit := modify (λ r, set_timers (timers r ∖ {[t]}) r).

Definition set_cte (id : N) (e : ClientTableEntry) : VR unit :=
modify (λ r, set_clientTable (<[id := e]> (clientTable r)) r).

(** ** Methods *)

Definition AmLeader (r : VRReplica) : bool :=
(GetLeaderIndex (configuration r) (view r) =? myIdx r)%Z.

Definition is_normal (r : VRReplica) : bool := bool_decide (status r = STATUS_NORMAL).
Definition is_view_change (r : VRReplica) : bool :=
bool_decide (status r = STATUS_VIEW_CHANGE).

(** [Replica::Execute] *)
Definition Execute (opnum : N) (req : Request) : VR bytes := λ r,
match ReplicaUpcall (app r) opnum (req_op req) with
| Done (a, res) => Done (res, set_app a r, [])
| Stop f => Stop f
end.

(** One iteration of the loop of [CommitUpTo]. *)
Definition commit_one : VR unit :=
modify (λ r, set_lastCommitted (lastCommitted r + 1) r);;
op ← this lastCommitted;
l ← this log;
e ← lift (Find l op);
match e with
| None => RPanic
| Some entry =>
    let req := request_of entry in
    res ← Execute op req;
    let reply := mkReply (vs_view (viewstamp_of entry)) (vs_opnum (viewstamp_of entry))
                   (req_clientreqid req) res in
    p ← lift (SetStatus l op LOG_STATE_COMMITTED);
    modify (set_log p.2);;
    table ← this clientTable;
    let cte := default new_cte (table !! req_clientid req) in
    set_cte (req_clientid req)
      (if cte_lastReqId cte <=? req_clientreqid req
       then mkCTE (req_clientreqid req) true reply else cte);;
    addrs ← this clientAddresses;
    match addrs !! req_clientid req with
    | Some a => emit (ToAddress a (MReply reply))
    | None => mret tt
    end
end.

Fixpoint commit_loop (n : nat) : VR unit :=
match n with
| O => mret tt
| S n => commit_one;; commit_loop n
end.

Definition CommitUpTo (upto : N) : VR unit :=
n ← this (λ r, N.to_nat (upto - lastCommitted r));
commit_loop n.

Definition UpdateClientTable (req : Request) : VR unit :=
table ← this clientTable;
let entry := default new_cte (table !! req_clientid req) in
set_cte (req_clientid req) entry;;
check (cte_lastReqId entry <=? req_clientreqid req);;
if cte_lastReqId entry =? req_clientreqid req then mret tt
else set_cte (req_clientid req) (mkCTE (req_clientreqid req) false cleared_reply).

(** One iteration of the loop of [SendPrepareOKs]. *)
Definition send_prepare_ok (i : N) : VR unit :=
committed ← this lastCommitted;
if i <=? committed then mret tt
else
  l ← this log;
  e ← lift (Find l i);
  match e with
  | None => RPanic
  | Some entry =>
      check (bool_decide (state_of entry = LOG_STATE_PREPARED));;
      UpdateClientTable (request_of entry);;
      m ← this (λ r, ToReplica (GetLeaderIndex (configuration r) (view r))
                       (MPrepareOK (mkPrepareOK (view r) i (Z.to_N (myIdx r)))));
      emit m
  end.

Fixpoint prepare_ok_loop (n : nat) (i : N) : VR unit :=
match n with
| O => mret tt
| S n => send_prepare_ok i;; prepare_ok_loop n (i + 1)
end.

Definition SendPrepareOKs (oldLastOp : N) : VR unit :=
n ← this (λ r, N.to_nat (lastOp r + 1 - oldLastOp));
prepare_ok_loop n oldLastOp.

Definition RequestStateTransfer : VR unit :=
r ← this id;
if negb (lastRequestStateTransferOpnum r =? 0)
   && (lastRequestStateTransferView r =? view r)
   && (lastRequestStateTransferOpnum r =? lastCommitted r)
then mret tt
else
  modify (set_lastRequestStateTransferView (view r));;
  modify (set_lastRequestStateTransferOpnum (lastCommitted r));;
  emit (ToAll (MRequestStateTransfer (mkRequestST (view r) (lastCommitted r)))).

Definition EnterView (newview : N) : VR unit :=
modify (set_view newview);;
modify (set_status STATUS_NORMAL);;
modify (λ r, set_lastBatchEnd (lastOp r) r);;
leader ← this AmLeader;
(if leader : bool then
   Stop_timer viewChangeTimeout;; Start nullCommitTimeout
 else
   Start viewChangeTimeout;; Stop_timer nullCommitTimeout;;
   Stop_timer resendPrepareTimeout;; Stop_timer closeBatchTimeout);;
modify (λ r, set_prepareOKQuorum (ClearAll (prepareOKQuorum r)) r);;
modify (λ r, set_startViewChangeQuorum (ClearAll (startViewChangeQuorum r)) r);;
modify (λ r, set_doViewChangeQuorum (ClearAll (doViewChangeQuorum r)) r).

Definition StartViewChange (newview : N) : VR unit :=
modify (set_view newview);;
modify (set_status STATUS_VIEW_CHANGE);;
Reset_timer viewChangeTimeout;;
Stop_timer nullCommitTimeout;;
Stop_timer resendPrepareTimeout;;
Stop_timer closeBatchTimeout;;
m ← this (λ r, mkStartViewChange newview (Z.to_N (myIdx r)) (lastCommitted r));
emit (ToAll (MStartViewChange m)).

Definition SendNullCommit : VR unit :=
r ← this id;
check (AmLeader r);;
emit (ToAll (MCommit (mkCommit (view r) (lastCommitted r)))).

Definition ResendPrepare : VR unit :=
r ← this id;
check (AmLeader r);;
if lastOp r =? lastCommitted r then mret tt
else emit (ToAll (MPrepare (lastPrepare r))).

(** The requests [CloseBatch] collects: [n] entries from [i] on. *)
Fixpoint batch_loop (n : nat) (i : N) : VR (list Request) :=
match n with
| O => mret []
| S n =>
    r ← this id;
    e ← lift (Find (log r) i);
    match e with
    | None => RPanic
    | Some entry =>
        check (vs_view (viewstamp_of entry) =? view r);;
        check (vs_opnum (viewstamp_of entry) =? i);;
        reqs ← batch_loop n (i + 1);
        mret (request_of entry :: reqs)
    end
end.

Definition CloseBatch : VR unit :=
r ← this id;
check (AmLeader r);;
check (lastBatchEnd r <? lastOp r);;
let batchStart := lastBatchEnd r + 1 in
reqs ← batch_loop (N.to_nat (lastOp r + 1 - batchStart)) batchStart;
let p := mkPrepare (view r) (lastOp r) batchStart reqs in
modify (set_lastPrepare p);;
emit (ToAll (MPrepare p));;
modify (λ r, set_lastBatchEnd (lastOp r) r);;
Reset_timer resendPrepareTimeout;;
Stop_timer closeBatchTimeout.

(** ** Message handlers *)

Definition HandleRequest (remote : address) (req : Request) : VR unit :=
r ← this id;
if negb (is_normal r) then mret tt
else if negb (AmLeader r) then mret tt
else
  let id := req_clientid req in
  modify (λ r, set_clientAddresses (<[id := remote]> (clientAddresses r)) r);;
  let dup := match clientTable r !! id with
             | Some entry =>
                 if req_clientreqid req <? cte_lastReqId entry then Some None
                 else if req_clientreqid req =? cte_lastReqId entry then
                   Some (if cte_replied entry then Some (cte_reply entry) else None)
                 else None
             | None => None
             end in
  match dup with
  | Some None => mret tt
  | Some (Some reply) => emit (ToAddress remote (MReply reply))
  | None =>
      UpdateClientTable req;;
      r ← this (λ r, r);
      up ← lift (LeaderUpcall (app r) (lastCommitted r) (req_op req));
      let '(a, replicate, res) := up in
      modify (set_app a);;
      table ← this clientTable;
      let cte := default new_cte (table !! id) in
      (if replicate : bool then
         modify (λ r, set_lastOp (u64 (lastOp r + 1)) r);;
         modify (λ r, set_lastCommitted (u64 (lastCommitted r + 1)) r)
       else mret tt);;
      r ← this (λ r, r);
      let reply := if replicate : bool
                   then mkReply (view r) (lastOp r) (req_clientreqid req) res
                   else mkReply 0 0 (req_clientreqid req) res in
      set_cte id (mkCTE (cte_lastReqId cte) true reply);;
      emit (ToAddress remote (MReply reply))
  end.

Definition HandleUnloggedRequest (remote : address) (req : Request) : VR unit :=
r ← this id;
if negb (is_normal r) then mret tt
else
  up ← lift (UnloggedUpcall (app r) (req_op req));
  modify (set_app up.1);;
  emit (ToAddress remote (MUnloggedReply (mkUnloggedReply up.2 (req_clientreqid req)))).

(** The PREPAREOK a backup sends to the leader of its view. *)
Definition send_ok (v op : N) : VR unit :=
m ← this (λ r, ToReplica (GetLeaderIndex (configuration r) (view r))
                 (MPrepareOK (mkPrepareOK v op (Z.to_N (myIdx r)))));
emit m.

(** The loop of [HandlePrepare] over the requests of the batch; the result is
the last value of [op]. *)
Fixpoint add_requests (v op : N) (reqs : list Request) : VR N :=
match reqs with
| [] => mret op
| req :: reqs =>
    let op := u64 (op + 1) in
    last ← this lastOp;
    (if op <=? last then mret tt
     else
       modify (λ r, set_lastOp (u64 (lastOp r + 1)) r);;
       l ← this log;
       l ← lift (Append l (mkViewstamp v op) req LOG_STATE_PREPARED);
       modify (set_log l);;
       UpdateClientTable req);;
    add_requests v op reqs
end.

Definition HandlePrepare (remote : address) (msg : PrepareMessage) : VR unit :=
r ← this id;
if negb (is_normal r) then mret tt
else if p_view msg <? view r then mret tt
else if view r <? p_view msg then
  RequestStateTransfer;;
  modify (λ r, set_pendingPrepares (pendingPrepares r ++ [(remote, msg)]) r)
else if AmLeader r then RPanic
else
  check (p_batchstart msg <=? p_opnum msg);;
  check (u64 (p_opnum msg - p_batchstart msg + 1) =? N.of_nat (length (p_request msg)));;
  Reset_timer viewChangeTimeout;;
  if p_opnum msg <=? lastOp r then send_ok (p_view msg) (p_opnum msg)
  else if u64 (lastOp r + 1) <? p_batchstart msg then
    RequestStateTransfer;;
    modify (λ r, set_pendingPrepares (pendingPrepares r ++ [(remote, msg)]) r)
  else
    op ← add_requests (p_view msg) (u64 (p_batchstart msg + 2 ^ 64 - 1)) (p_request msg);
    check (op =? p_opnum msg);;
    send_ok (p_view msg) (p_opnum msg).

Definition HandlePrepareOK (remote : address) (msg : PrepareOKMessage) : VR unit :=
r ← this id;
if negb (is_normal r) then mret tt
else if ok_view msg <? view r then mret tt
else if view r <? ok_view msg then RequestStateTransfer
else if negb (AmLeader r) then mret tt
else
  let '(msgs, q) := AddAndCheckForQuorum (prepareOKQuorum r)
    (mkViewstamp (ok_view msg) (ok_opnum msg)) (ok_replicaidx msg) msg in
  modify (set_prepareOKQuorum q);;
  match msgs with
  | None => mret tt
  | Some msgs =>
      CommitUpTo (ok_opnum msg);;
      r ← this (λ r, r);
      if (QuorumSize (configuration r) <=? Z.of_nat (length msgs))%Z then mret tt
      else
        emit (ToAll (MCommit (mkCommit (view r) (lastCommitted r))));;
        Reset_timer nullCommitTimeout
  end.

Definition HandleCommit (remote : address) (msg : CommitMessage) : VR unit :=
r ← this id;
if negb (is_normal r) then mret tt
else if cm_view msg <? view r then mret tt
else if view r <? cm_view msg then RequestStateTransfer
else if AmLeader r then RPanic
else
  Reset_timer viewChangeTimeout;;
  if cm_opnum msg <=? lastCommitted r then mret tt
  else if lastOp r <? cm_opnum msg then RequestStateTransfer
  else CommitUpTo (cm_opnum msg).

Definition HandleRequestStateTransfer (remote : address) (msg : RequestStateTransferMessage)
  : VR unit :=
r ← this id;
if negb (is_normal r) then mret tt
else if view r <? rs_view msg then RequestStateTransfer
else
  es ← lift (Dump (log r) (u64 (rs_opnum msg + 1)));
  emit (ToAddress remote (MStateTransfer (mkStateTransfer (view r) (lastCommitted r) es))).

(** One iteration of the loop of [HandleStateTransfer]; the state threaded is
[oldLastOp]. *)
Definition install_entry (oldLastOp : N) (w : WireEntry) : VR N :=
r ← this id;
if w_opnum w <=? lastCommitted r then mret oldLastOp
else if w_opnum w <=? lastOp r then
  e ← lift (Find (log r) (w_opnum w));
  match e with
  | None => lift (Stop Undefined)
  | Some entry =>
      check (vs_opnum (viewstamp_of entry) =? w_opnum w);;
      check (vs_view (viewstamp_of entry) <=? w_view w);;
      if vs_view (viewstamp_of entry) =? w_view w then
        check (bool_decide (state_of entry = LOG_STATE_PREPARED));;
        mret oldLastOp
      else
        check (bool_decide (state_of entry ≠ LOG_STATE_COMMITTED));;
        l ← lift (RemoveAfter (log r) (w_opnum w));
        modify (set_log l);;
        modify (set_lastOp (w_opnum w));;
        l ← lift (Append l (mkViewstamp (w_view w) (w_opnum w)) (w_request w)
                    LOG_STATE_PREPARED);
        modify (set_log l);;
        mret (w_opnum w)
  end
else
  check (w_opnum w =? u64 (lastOp r + 1));;
  modify (set_lastOp (u64 (lastOp r + 1)));;
  l ← lift (Append (log r) (mkViewstamp (w_view w) (w_opnum w)) (w_request w)
              LOG_STATE_PREPARED);
  modify (set_log l);;
  mret oldLastOp.

Fixpoint install_entries (oldLastOp : N) (ws : list WireEntry) : VR N :=
match ws with
| [] => mret oldLastOp
| w :: ws => o ← install_entry oldLastOp w; install_entries o ws
end.

(** The loop at the end runs over [pendingPrepares] after it is cleared. *)
Fixpoint handle_prepares (ps : list (address * PrepareMessage)) : VR unit :=
match ps with
| [] => mret tt
| (a, p) :: ps => HandlePrepare a p;; handle_prepares ps
end.

Definition HandleStateTransfer (remote : address) (msg : StateTransferMessage) : VR unit :=
r ← this id;
if xf_view msg <? view r then mret tt
else
  oldLastOp ← install_entries (lastOp r) (xf_entries msg);
  r ← this (λ r, r);
  when (view r <? xf_view msg) (EnterView (xf_view msg));;
  r ← this (λ r, r);
  check (xf_opnum msg <=? lastOp r);;
  CommitUpTo (xf_opnum msg);;
  SendPrepareOKs oldLastOp;;
  modify (set_pendingPrepares []);;
  ps ← this pendingPrepares;
  handle_prepares ps.

(** [std::min_element(...)->second]; the end iterator of an empty range is
dereferenced. *)
Definition min_element (xs : list N) : outcome N :=
match xs with [] => Stop Undefined | x :: xs => Done (foldl N.min x xs) end.

Definition HandleStartViewChange (remote : address) (msg : StartViewChangeMessage) : VR unit :=
r ← this id;
if svc_view msg <? view r then mret tt
else if (svc_view msg =? view r) && negb (is_view_change r) then mret tt
else
  when (negb (is_view_change r) || (view r <? svc_view msg)) (StartViewChange (svc_view msg));;
  r ← this (λ r, r);
  check (svc_view msg =? view r);;
  let '(msgs, q) := AddAndCheckForQuorum (startViewChangeQuorum r)
    (svc_view msg) (svc_replicaidx msg) msg in
  modify (set_startViewChangeQuorum q);;
  match msgs with
  | None => mret tt
  | Some msgs =>
      let leader := GetLeaderIndex (configuration r) (view r) in
      if (leader =? myIdx r)%Z then mret tt
      else
        m ← lift (min_element (svc_lastcommitted <$> msgs.*2));
        let minCommitted := N.min m (lastCommitted r) in
        es ← lift (Dump (log r) minCommitted);
        emit (ToReplica leader (MDoViewChange
          (mkDoViewChange (view r) (vs_view (LastViewstamp (log r))) (lastOp r)
             (lastCommitted r) es (Z.to_N (myIdx r)))))
  end.

(** The loop that looks for the most recent log. *)
Definition newer (latest : viewstamp * option DoViewChangeMessage) (x : DoViewChangeMessage)
  : viewstamp * option DoViewChangeMessage :=
let '(mkViewstamp latestView latestOp, _) := latest in
if (latestView <? dvc_lastnormalview x)
   || ((dvc_lastnormalview x =? latestView) && (latestOp <? dvc_lastop x))
then (mkViewstamp (dvc_lastnormalview x) (dvc_lastop x), Some x)
else latest.

Definition HandleDoViewChange (remote : address) (msg : DoViewChangeMessage) : VR unit :=
r ← this id;
if dvc_view msg <? view r then mret tt
else if (dvc_view msg =? view r) && negb (is_view_change r) then mret tt
else
  when (negb (is_view_change r) || (view r <? dvc_view msg)) (StartViewChange (dvc_view msg));;
  r ← this (λ r, r);
  check (GetLeaderIndex (configuration r) (dvc_view msg) =? myIdx r)%Z;;
  let '(msgs, q) := AddAndCheckForQuorum (doViewChangeQuorum r)
    (dvc_view msg) (dvc_replicaidx msg) msg in
  modify (set_doViewChangeQuorum q);;
  match msgs with
  | None => mret tt
  | Some msgs =>
      let '(latest, latestMsg) := foldl newer (LastViewstamp (log r), None) msgs.*2 in
      latestMsg ← match latestMsg with
                  | None => mret None
                  | Some x => y ← lift (read_dangling x); mret (Some y)
                  end;
      match latestMsg with
      | None => mret tt
      | Some x =>
          match dvc_entries x with
          | [] =>
              check (lastCommitted r =? dvc_lastcommitted msg);;
              check (dvc_lastop msg =? dvc_lastcommitted msg)
          | w :: _ =>
              if u64 (lastCommitted r + 1) <? w_opnum w then RPanic
              else
                l ← lift (RemoveAfter (log r) (u64 (dvc_lastop x + 1)));
                l ← lift (Install l (dvc_entries x));
                modify (set_log l)
          end
      end;;
      r ← this (λ r, r);
      let '(svcs, q) := GetMessages (startViewChangeQuorum r) (view r) in
      modify (set_startViewChangeQuorum q);;
      minSVC ← lift (min_element (svc_lastcommitted <$> svcs.*2));
      minDVC ← lift (min_element (dvc_lastcommitted <$> msgs.*2));
      let minCommitted := N.min (N.min minSVC minDVC) (lastCommitted r) in
      EnterView (dvc_view msg);;
      r ← this (λ r, r);
      check (AmLeader r);;
      modify (set_lastOp (vs_opnum latest));;
      match latestMsg with
      | None => mret tt
      | Some x => CommitUpTo (dvc_lastcommitted x)
      end;;
      r ← this (λ r, r);
      es ← lift (Dump (log r) minCommitted);
      emit (ToAll (MStartView (mkStartView (view r) (lastOp r) (lastCommitted r) es)))
  end.

Definition HandleStartView (remote : address) (msg : StartViewMessage) : VR unit :=
r ← this id;
if sv_view msg <? view r then mret tt
else if (sv_view msg =? view r) && negb (is_view_change r) then mret tt
else
  check (negb (GetLeaderIndex (configuration r) (sv_view msg) =? myIdx r)%Z);;
  match sv_entries msg with
  | [] =>
      check (sv_lastcommitted msg =? lastCommitted r);;
      check (sv_lastop msg =? sv_lastcommitted msg)
  | w :: _ =>
      if u64 (lastCommitted r + 1) <? w_opnum w then RPanic
      else
        l ← lift (RemoveAfter (log r) (u64 (sv_lastop msg + 1)));
        l ← lift (Install l (sv_entries msg));
        modify (set_log l)
  end;;
  EnterView (sv_view msg);;
  oldLastOp ← this lastOp;
  modify (set_lastOp (sv_lastop msg));;
  r ← this (λ r, r);
  check (negb (AmLeader r));;
  CommitUpTo (sv_lastcommitted msg);;
  SendPrepareOKs oldLastOp.

(** [VRReplica::ReceiveMessage]: the dispatch on the type of the message. *)
Definition ReceiveMessage (remote : address) (m : message) : VR unit :=
match m with
| MRequest m => HandleRequest remote m
| MUnloggedRequest m => HandleUnloggedRequest remote m
| MPrepare m => HandlePrepare remote m
| MPrepareOK m => HandlePrepareOK remote m
| MCommit m => HandleCommit remote m
| MRequestStateTransfer m => HandleRequestStateTransfer remote m
| MStateTransfer m => HandleStateTransfer remote m
| MStartViewChange m => HandleStartViewChange remote m
| MDoViewChange m => HandleDoViewChange remote m
| MStartView m => HandleStartView remote m
| MReply _ | MUnloggedReply _ => RPanic
end.

(** The callbacks the constructor gives to the timers. *)
Definition fire (t : timer) : VR unit :=
match t with
| viewChangeTimeout => v ← this view; StartViewChange (u64 (v + 1))
| nullCommitTimeout => SendNullCommit
| stateTransferTimeout =>
    modify (set_lastRequestStateTransferView 0);;
    modify (set_lastRequestStateTransferOpnum 0)
| resendPrepareTimeout => ResendPrepare
| closeBatchTimeout => CloseBatch
end.
End VRReplica.
