(* ===== verification/VRSafety.v ===== *)
(** * What a viewstamped-replication replica keeps

    A weakest-precondition calculus for the methods of [VRReplica], the
    invariant and the monotone quantities every event preserves, and the
    behaviour of the handlers that execute and commit operations. *)

From S2P Require Import Prelude Cpp Config VRLog VRReplica.

Open Scope N_scope.

(** ** Reasoning about methods *)

Section WP.
Context `{Sha1} `{AppReplica A}.
Implicit Types r : @VRReplica A.

(** If [m] returns, its result satisfies [Q] and what it sends satisfies [P]. *)
Definition wp {T} (P : output → Prop) (m : VR T) r (Q : T → @VRReplica A → Prop) : Prop :=
∀ x r' o, m r = Done (x, r', o) → Forall P o ∧ Q x r'.

Context (P : output → Prop).

Lemma wp_bind {T U} (m : VR T) (k : T → VR U) r Q :
wp P m r (λ x r', wp P (k x) r' Q) → wp P (m ≫= k) r Q.
Proof.
intros Hm y r'' o. unfold mbind, vr_bind.
destruct (m r) as [[[x r'] o1]|] eqn:E1; [|done].
destruct (k x r') as [[[y' r2] o2]|] eqn:E2; [|done]. intros [= <- <- <-].
destruct (Hm _ _ _ E1) as [Ho1 Hk]. destruct (Hk _ _ _ E2) as [Ho2 HQ].
split; [by apply Forall_app|done].
Qed.
Lemma wp_ret {T} (x : T) r (Q : T → @VRReplica A → Prop) : Q x r → wp P (mret x : VR T) r Q.
Proof. intros HQ y r' o [= <- <- <-]. by split. Qed.
Lemma wp_this {T} (f : VRReplica → T) r Q : Q (f r) r → wp P (this f) r Q.
Proof. intros HQ y r' o [= <- <- <-]. by split. Qed.
Lemma wp_modify f r Q : Q tt (f r) → wp P (modify f) r Q.
Proof. intros HQ y r' o [= <- <- <-]. by split. Qed.
Lemma wp_emit x r Q : P x → Q tt r → wp P (emit x) r Q.
Proof. intros HP HQ y r' o [= <- <- <-]. split; [by constructor|done]. Qed.
Lemma wp_lift {T} (x : outcome T) r Q : (∀ y, x = Done y → Q y r) → wp P (lift x) r Q.
Proof. intros HQ y r' o. unfold lift. destruct x; [|done]. intros [= <- <- <-]. by split; [|apply HQ]. Qed.
Lemma wp_check b r Q : (b = true → Q tt r) → wp P (check b) r Q.
Proof. intros HQ. apply wp_lift. intros [] Hb. apply HQ. by destruct b. Qed.
Lemma wp_panic {T} r Q : wp P (RPanic : VR T) r Q.
Proof. by intros ???. Qed.
Lemma wp_if {T} (b : bool) (m1 m2 : VR T) r Q :
(b = true → wp P m1 r Q) → (b = false → wp P m2 r Q) → wp P (if b then m1 else m2) r Q.
Proof. destruct b; auto. Qed.
Lemma wp_when b m r Q :
(b = true → wp P m r Q) → (b = false → Q tt r) → wp P (when b m) r Q.
Proof. intros Ht Hf. unfold when. destruct b; [auto|]. apply wp_ret; auto. Qed.
Lemma wp_mono {T} (m : VR T) r (Q Q' : T → @VRReplica A → Prop) :
wp P m r Q → (∀ x r', Q x r' → Q' x r') → wp P m r Q'.
Proof. intros Hm HQ x r' o E. destruct (Hm _ _ _ E). auto. Qed.
Lemma wp_start t r Q : Q tt (set_timers ({[t]} ∪ timers r) r) → wp P (Start t) r Q.
Proof. apply wp_modify. Qed.
Lemma wp_stop t r Q : Q tt (set_timers (timers r ∖ {[t]}) r) → wp P (Stop_timer t) r Q.
Proof. apply wp_modify. Qed.
Lemma wp_execute op req r Q :
(∀ a res, ReplicaUpcall (app r) op (req_op req) = Done (a, res) → Q res (set_app a r)) →
wp P (Execute op req) r Q.
Proof.
intros HQ y r' o. unfold Execute. destruct (ReplicaUpcall _ _ _) as [[a res]|]; [|done].
intros [= <- <- <-]. split; [done|]. by apply HQ.
Qed.
End WP.

(** One step of symbolic execution. *)
Ltac vr_step :=
  lazymatch goal with
  | |- wp _ (mbind _ _) _ _ => apply wp_bind
  | |- wp _ (mret _) _ _ => apply wp_ret
  | |- wp _ (this _) _ _ => apply wp_this
  | |- wp _ (modify _) _ _ => apply wp_modify
  | |- wp _ (set_cte _ _) _ _ => apply wp_modify
  | |- wp _ (emit _) _ _ => apply wp_emit
  | |- wp _ (lift _) _ _ => apply wp_lift; intros ? ?
  | |- wp _ (check _) _ _ => apply wp_check; intros ?
  | |- wp _ RPanic _ _ => apply wp_panic
  | |- wp _ (Start _) _ _ => apply wp_start
  | |- wp _ (Reset_timer _) _ _ => apply wp_start
  | |- wp _ (Stop_timer _) _ _ => apply wp_stop
  | |- wp _ (Execute _ _) _ _ => apply wp_execute; intros ? ? ?
  | |- wp _ (when _ _) _ _ => apply wp_when; intros ?
  | |- wp _ (if _ then _ else _) _ _ => apply wp_if; intros ?
  | |- wp _ (match ?x with _ => _ end) _ _ => destruct x eqn:?
  end.
Ltac vr_steps := repeat (cbv beta; vr_step).

(** ** The invariant of a replica *)

Section Invariant.
Context `{Sha1} `{AppReplica A} (read_dangling : DoViewChangeMessage → outcome DoViewChangeMessage).
Implicit Types r : @VRReplica A.

Definition last_req r (c : N) : N :=
match clientTable r !! c with Some e => cte_lastReqId e | None => 0 end.

Record replica_ok r : Prop := {
ok_log : log_wf (log r);
ok_nohash : useHash (log r) = false;
ok_q1 : quorum_wf (prepareOKQuorum r);
ok_q2 : quorum_wf (startViewChangeQuorum r);
ok_q3 : quorum_wf (doViewChangeQuorum r);
ok_n1 : numRequired (prepareOKQuorum r) = (QuorumSize (configuration r) - 1)%Z;
ok_n2 : numRequired (startViewChangeQuorum r) = (QuorumSize (configuration r) - 1)%Z;
ok_n3 : numRequired (doViewChangeQuorum r) = (QuorumSize (configuration r) - 1)%Z;
}.

(** What never goes back. *)
Record advances r r' : Prop := {
adv_config : configuration r' = configuration r;
adv_idx : myIdx r' = myIdx r;
adv_view : view r <= view r';
adv_committed : lastCommitted r <= lastCommitted r';
adv_client : ∀ c, last_req r c <= last_req r' c;
}.

Definition evolves r r' : Prop := replica_ok r' ∧ advances r r'.

Lemma evolves_refl r : replica_ok r → evolves r r.
Proof. intros Hr. split; [done|]. split; done || (intros; lia). Qed.

Lemma evolves_trans r1 r2 r3 : evolves r1 r2 → evolves r2 r3 → evolves r1 r3.
Proof.
intros [_ []] [? []]. split; [done|]. split; try congruence; try lia.
intros c. etrans; eauto.
Qed.

(** A change of the log to a well-formed one, of the other fields to anything
that advances. *)
Lemma evolves_set r0 r f :
evolves r0 r →
configuration (f r) = configuration r → myIdx (f r) = myIdx r →
view r <= view (f r) → lastCommitted r <= lastCommitted (f r) →
clientTable (f r) = clientTable r →
log (f r) = log r →
prepareOKQuorum (f r) = prepareOKQuorum r →
startViewChangeQuorum (f r) = startViewChangeQuorum r →
doViewChangeQuorum (f r) = doViewChangeQuorum r →
evolves r0 (f r).
Proof.
intros He E1 E2 E3 E4 E5 E6 E7 E8 E9. eapply evolves_trans; [exact He|].
destruct He as [[] _]. split.
- split; by rewrite ?E6, ?E7, ?E8, ?E9, ?E1.
- split; try done. intros c. unfold last_req. by rewrite E5.
Qed.

(** The fields the invariant does not mention. *)
Lemma evolves_status r0 r x : evolves r0 r → evolves r0 (set_status x r).
Proof. intros ?. by apply (evolves_set r0 r (set_status x)). Qed.
Lemma evolves_lastOp r0 r x : evolves r0 r → evolves r0 (set_lastOp x r).
Proof. intros ?. by apply (evolves_set r0 r (set_lastOp x)). Qed.
Lemma evolves_lastRequestStateTransferView r0 r x : evolves r0 r → evolves r0 (set_lastRequestStateTransferView x r).
Proof. intros ?. by apply (evolves_set r0 r (set_lastRequestStateTransferView x)). Qed.
Lemma evolves_lastRequestStateTransferOpnum r0 r x : evolves r0 r → evolves r0 (set_lastRequestStateTransferOpnum x r).
Proof. intros ?. by apply (evolves_set r0 r (set_lastRequestStateTransferOpnum x)). Qed.
Lemma evolves_pendingPrepares r0 r x : evolves r0 r → evolves r0 (set_pendingPrepares x r).
Proof. intros ?. by apply (evolves_set r0 r (set_pendingPrepares x)). Qed.
Lemma evolves_lastPrepare r0 r x : evolves r0 r → evolves r0 (set_lastPrepare x r).
Proof. intros ?. by apply (evolves_set r0 r (set_lastPrepare x)). Qed.
Lemma evolves_lastBatchEnd r0 r x : evolves r0 r → evolves r0 (set_lastBatchEnd x r).
Proof. intros ?. by apply (evolves_set r0 r (set_lastBatchEnd x)). Qed.
Lemma evolves_clientAddresses r0 r x : evolves r0 r → evolves r0 (set_clientAddresses x r).
Proof. intros ?. by apply (evolves_set r0 r (set_clientAddresses x)). Qed.
Lemma evolves_timers r0 r x : evolves r0 r → evolves r0 (set_timers x r).
Proof. intros ?. by apply (evolves_set r0 r (set_timers x)). Qed.
Lemma evolves_app r0 r x : evolves r0 r → evolves r0 (set_app x r).
Proof. intros ?. by apply (evolves_set r0 r (set_app x)). Qed.

Lemma evolves_log r0 r l :
evolves r0 r → log_wf l → useHash l = false → evolves r0 (set_log l r).
Proof.
intros He Hl Hh. eapply evolves_trans; [exact He|]. destruct He as [[] _].
split; split; try done; intros; cbn; lia.
Qed.

Lemma evolves_cte r0 r id e :
evolves r0 r → last_req r id <= cte_lastReqId e →
evolves r0 (set_clientTable (<[id := e]> (clientTable r)) r).
Proof.
intros He Hle. eapply evolves_trans; [exact He|]. destruct He as [[] _].
split; split; try done; try (cbn; lia). intros c. unfold last_req. cbn.
destruct (decide (id = c)) as [<-|]; [by rewrite lookup_insert_eq|].
by rewrite lookup_insert_ne.
Qed.

Lemma evolves_quorum1 r0 r q :
evolves r0 r → quorum_wf q → numRequired q = numRequired (prepareOKQuorum r) →
evolves r0 (set_prepareOKQuorum q r).
Proof.
intros He Hw Hn. eapply evolves_trans; [exact He|]. destruct He as [[] _].
split; split; try done; cbn; try lia; congruence.
Qed.
Lemma evolves_quorum2 r0 r q :
evolves r0 r → quorum_wf q → numRequired q = numRequired (startViewChangeQuorum r) →
evolves r0 (set_startViewChangeQuorum q r).
Proof.
intros He Hw Hn. eapply evolves_trans; [exact He|]. destruct He as [[] _].
split; split; try done; cbn; try lia; congruence.
Qed.
Lemma evolves_quorum3 r0 r q :
evolves r0 r → quorum_wf q → numRequired q = numRequired (doViewChangeQuorum r) →
evolves r0 (set_doViewChangeQuorum q r).
Proof.
intros He Hw Hn. eapply evolves_trans; [exact He|]. destruct He as [[] _].
split; split; try done; cbn; try lia; congruence.
Qed.
Lemma ClearAll_wf {ID MSG : Set} `{Countable ID} (q : QuorumSet ID MSG) : quorum_wf (ClearAll q).
Proof. apply new_quorum_wf. Qed.
End Invariant.

(** Close a goal [evolves r0 (set_... r)]. *)
Ltac evolve :=
  repeat match goal with
  | |- evolves _ _ => assumption
  | |- evolves _ (set_status _ _) => apply evolves_status
  | |- evolves _ (set_lastOp _ _) => apply evolves_lastOp
  | |- evolves _ (set_lastRequestStateTransferView _ _) => apply evolves_lastRequestStateTransferView
  | |- evolves _ (set_lastRequestStateTransferOpnum _ _) => apply evolves_lastRequestStateTransferOpnum
  | |- evolves _ (set_pendingPrepares _ _) => apply evolves_pendingPrepares
  | |- evolves _ (set_lastPrepare _ _) => apply evolves_lastPrepare
  | |- evolves _ (set_lastBatchEnd _ _) => apply evolves_lastBatchEnd
  | |- evolves _ (set_clientAddresses _ _) => apply evolves_clientAddresses
  | |- evolves _ (set_timers _ _) => apply evolves_timers
  | |- evolves _ (set_app _ _) => apply evolves_app
  | |- evolves _ (set_log _ _) => apply evolves_log
  | |- evolves _ (set_clientTable _ _) => apply evolves_cte
  | |- evolves _ (set_prepareOKQuorum _ _) => apply evolves_quorum1
  | |- evolves _ (set_startViewChangeQuorum _ _) => apply evolves_quorum2
  | |- evolves _ (set_doViewChangeQuorum _ _) => apply evolves_quorum3
  | |- quorum_wf (ClearAll _) => apply ClearAll_wf
  | |- evolves ?r0 (?f ?x ?r) => apply (evolves_set r0 r (f x)); try done; try (cbn; lia)
  end.

Section Methods.
Context `{Sha1} `{AppReplica A} (read_dangling : DoViewChangeMessage → outcome DoViewChangeMessage).
Implicit Types r : @VRReplica A.
Notation any := (λ _ : output, True).

(** [m] preserves what [r0] evolves to. *)
Definition keeps {T} (m : VR T) : Prop :=
∀ r0 r, evolves r0 r → wp any m r (λ _ r', evolves r0 r').

Lemma evolves_ok r0 r : evolves r0 r → replica_ok r.
Proof. by intros [? _]. Qed.

Lemma SetStatus_spec l op st b l' :
log_wf l → SetStatus l op st = Done (b, l') →
log_wf l' ∧ useHash l' = useHash l ∧ start l' = start l ∧
entry_key <$> entries l' = entry_key <$> entries l.
Proof.
intros Hl Hs. unfold SetStatus in Hs.
destruct (update_entry_spec l op
  (λ e, mkLogEntry (viewstamp_of e) st (request_of e) (hash_of e)) Hl (λ e, eq_refl))
  as (b' & l'' & E & Hwf & ->).
rewrite E in Hs. apply Done_inj in Hs as [= <- <-]. destruct b'; [|done].
split; [exact Hwf|]. do 2 (split; [done|]).
cbn. apply list_eq. intros i. rewrite !list_lookup_fmap, list_lookup_alter.
destruct (decide _) as [<-|]; [|done]. by destruct (entries l !! _).
Qed.

Lemma last_req_default r c : last_req r c = cte_lastReqId (default new_cte (clientTable r !! c)).
Proof. unfold last_req. by destruct (clientTable r !! c). Qed.

Lemma keeps_commit_one : keeps commit_one.
Proof.
intros r0 r He. unfold commit_one. vr_steps; try done.
all: match goal with H : SetStatus _ _ _ = Done ?p |- _ =>
  destruct p as [b l']; apply SetStatus_spec in H as (Hl & Hh & _ & _); [|apply He] end.
all: evolve; cbn in *; try done; try (by rewrite Hh; apply He).
all: rewrite last_req_default; cbn; case_match; simpl; lia.
Qed.

Lemma keeps_commit_loop n : keeps (commit_loop n).
Proof.
induction n as [|n IH]; intros r0 r He; cbn [commit_loop]; vr_steps; [done|].
eapply wp_mono; [by apply keeps_commit_one|]. intros ? r' He'. by apply IH.
Qed.

Lemma keeps_CommitUpTo upto : keeps (CommitUpTo upto).
Proof. intros r0 r He. unfold CommitUpTo. vr_steps. by apply keeps_commit_loop. Qed.

(** The entry of the client after [UpdateClientTable]. *)
Definition updated_cte r (req : Request) : ClientTableEntry :=
let entry := default new_cte (clientTable r !! req_clientid req) in
if cte_lastReqId entry =? req_clientreqid req then entry
else mkCTE (req_clientreqid req) false cleared_reply.

Lemma wp_UpdateClientTable P req r (Q : unit → @VRReplica A → Prop) :
(last_req r (req_clientid req) <= req_clientreqid req →
 Q tt (set_clientTable (<[req_clientid req := updated_cte r req]> (clientTable r)) r)) →
wp P (UpdateClientTable req) r Q.
Proof.
intros HQ. unfold UpdateClientTable, updated_cte in *. rewrite last_req_default in HQ. vr_steps.
- rewrite H2 in HQ. apply HQ. lia.
- rewrite H2 in HQ. cbn. rewrite insert_insert_eq. apply HQ. lia.
Qed.

Lemma updated_cte_lastReqId r req :
last_req r (req_clientid req) <= req_clientreqid req →
cte_lastReqId (updated_cte r req) = req_clientreqid req.
Proof.
intros Hle. unfold updated_cte. case_match eqn:E; [|done]. by apply N.eqb_eq in E.
Qed.

Lemma keeps_UpdateClientTable req : keeps (UpdateClientTable req).
Proof.
intros r0 r He. apply wp_UpdateClientTable. intros Hle. evolve.
by rewrite updated_cte_lastReqId.
Qed.

Lemma keeps_send_prepare_ok i : keeps (send_prepare_ok i).
Proof.
intros r0 r He. unfold send_prepare_ok. vr_steps; try done.
eapply wp_mono; [by apply keeps_UpdateClientTable|]. intros ? r' He'. by vr_steps.
Qed.

Lemma keeps_prepare_ok_loop n i : keeps (prepare_ok_loop n i).
Proof.
revert i. induction n as [|n IH]; intros i r0 r He; cbn [prepare_ok_loop]; vr_steps; [done|].
eapply wp_mono; [by apply keeps_send_prepare_ok|]. intros ? r' He'. by apply IH.
Qed.

Lemma keeps_SendPrepareOKs o : keeps (SendPrepareOKs o).
Proof. intros r0 r He. unfold SendPrepareOKs. vr_steps. by apply keeps_prepare_ok_loop. Qed.

Lemma keeps_RequestStateTransfer : keeps RequestStateTransfer.
Proof. intros r0 r He. unfold RequestStateTransfer. vr_steps; try done. evolve. Qed.

Lemma wp_EnterView r0 r v :
evolves r0 r → view r <= v →
wp any (EnterView v) r (λ _ r', evolves r0 r' ∧ view r' = v ∧ log r' = log r ∧
  lastOp r' = lastOp r ∧ lastCommitted r' = lastCommitted r).
Proof.
intros He Hv. unfold EnterView. vr_steps; (split; [evolve|done]); done.
Qed.

Lemma wp_StartViewChange r0 r v :
evolves r0 r → view r <= v →
wp any (StartViewChange v) r (λ _ r', evolves r0 r' ∧ view r' = v ∧ log r' = log r ∧
  lastOp r' = lastOp r ∧ lastCommitted r' = lastCommitted r ∧ status r' = STATUS_VIEW_CHANGE).
Proof.
intros He Hv. unfold StartViewChange. vr_steps; [done|]. split; [evolve|done].
Qed.

Lemma keeps_HandleRequest remote req r0 r :
evolves r0 r → lastCommitted r + 1 < 2 ^ 64 →
wp any (HandleRequest remote req) r (λ _ r', evolves r0 r').
Proof.
intros He Hlt. unfold HandleRequest. vr_steps; try done; try by evolve.
all: apply wp_UpdateClientTable; intros Hle; vr_steps; try done; evolve;
  cbn in *; rewrite ?u64_small by lia; rewrite ?last_req_default; cbn;
  rewrite ?lookup_insert_eq; cbn; rewrite ?updated_cte_lastReqId by done; try done; first [lia | rewrite last_req_default in Hle; exact Hle].
Qed.

Lemma keeps_HandleUnloggedRequest remote req : keeps (HandleUnloggedRequest remote req).
Proof. intros r0 r He. unfold HandleUnloggedRequest. vr_steps; try done. evolve. Qed.

Lemma keeps_Append r0 r l vs req st :
evolves r0 r → Append (log r) vs req st = Done l → evolves r0 (set_log l r).
Proof.
intros He HA. pose proof (evolves_ok _ _ He) as [Hl Hh _ _ _ _ _ _].
apply Append_wf in HA as (Hl' & _ & _ & ->); [|done]. by evolve.
Qed.

Lemma keeps_add_requests v op reqs : keeps (add_requests v op reqs).
Proof.
revert op. induction reqs as [|req reqs IH]; intros op r0 r He; cbn [add_requests]; vr_steps;
  [done|by apply IH|].
match goal with HA : Append _ _ _ _ = Done _ |- _ =>
  apply (keeps_Append r0 (set_lastOp (u64 (lastOp r + 1)) r)) in HA; [|by evolve] end.
eapply wp_mono; [by apply keeps_UpdateClientTable|]. intros ? r' He'. by apply IH.
Qed.

Lemma keeps_HandlePrepare remote msg : keeps (HandlePrepare remote msg).
Proof.
intros r0 r He. unfold HandlePrepare, send_ok. vr_steps; try done; try by evolve.
- eapply wp_mono; [by apply keeps_RequestStateTransfer|]. intros ? r' He'. vr_steps. evolve.
- eapply wp_mono; [apply (keeps_RequestStateTransfer r0); evolve|].
  intros ? r' He'. vr_steps. evolve.
- eapply wp_mono; [apply (keeps_add_requests _ _ _ r0); evolve|].
  intros ? r' He'. by vr_steps.
Qed.

Lemma keeps_HandlePrepareOK remote msg : keeps (HandlePrepareOK remote msg).
Proof.
intros r0 r He. unfold HandlePrepareOK. vr_steps; try done.
{ by apply keeps_RequestStateTransfer. }
all: match goal with HA : AddAndCheckForQuorum _ _ _ _ = _ |- _ =>
  apply AddAndCheck_spec in HA as (Hw & Hn & _); [|apply (evolves_ok _ _ He)] end.
- eapply wp_mono; [apply (keeps_CommitUpTo _ r0); by evolve|].
  intros ? r' He'. vr_steps; try done. evolve.
- by evolve.
Qed.

Lemma keeps_HandleCommit remote msg : keeps (HandleCommit remote msg).
Proof.
intros r0 r He. unfold HandleCommit. vr_steps; try done; try by evolve.
- by apply keeps_RequestStateTransfer.
- apply keeps_RequestStateTransfer. evolve.
- apply keeps_CommitUpTo. evolve.
Qed.

Lemma keeps_HandleRequestStateTransfer remote msg : keeps (HandleRequestStateTransfer remote msg).
Proof.
intros r0 r He. unfold HandleRequestStateTransfer. vr_steps; try done.
by apply keeps_RequestStateTransfer.
Qed.

Lemma RemoveAfter_keeps r0 r l op :
evolves r0 r → RemoveAfter (log r) op = Done l → evolves r0 (set_log l r).
Proof.
intros He HR. pose proof (evolves_ok _ _ He) as [Hl Hh _ _ _ _ _ _].
pose proof (RemoveAfter_wf _ _ _ Hl HR). evolve; [done|].
rewrite RemoveAfter_spec in HR by done.
repeat case_match; try discriminate; apply Done_inj in HR as <-; done.
Qed.

Lemma keeps_install_entry o w : keeps (install_entry o w).
Proof.
intros r0 r He. unfold install_entry. vr_steps; try done.
- match goal with HR : RemoveAfter _ _ = Done ?l, HA : Append ?l _ _ _ = Done _ |- _ =>
    apply (RemoveAfter_keeps r0) in HR; [|done];
    apply (keeps_Append r0 (set_lastOp (w_opnum w) (set_log l r))) in HA; [|by evolve] end.
  done.
- match goal with HA : Append _ _ _ _ = Done _ |- _ =>
    apply (keeps_Append r0 (set_lastOp (u64 (lastOp r + 1)) r)) in HA; [|by evolve] end.
  done.
Qed.

Lemma keeps_install_entries o ws : keeps (install_entries o ws).
Proof.
revert o. induction ws as [|w ws IH]; intros o r0 r He; cbn [install_entries]; vr_steps; [done|].
eapply wp_mono; [by apply keeps_install_entry|]. intros o' r' He'. by apply IH.
Qed.

Lemma keeps_handle_prepares ps : keeps (handle_prepares ps).
Proof.
induction ps as [|[a p] ps IH]; intros r0 r He; cbn [handle_prepares]; vr_steps; [done|].
eapply wp_mono; [by apply keeps_HandlePrepare|]. intros ? r' He'. by apply IH.
Qed.

Lemma keeps_HandleStateTransfer remote msg : keeps (HandleStateTransfer remote msg).
Proof.
intros r0 r He. unfold HandleStateTransfer. vr_steps; [done|].
eapply wp_mono; [by apply keeps_install_entries|]. intros o r1 He1.
assert (∀ r2, evolves r0 r2 → wp any (r ← this (λ r, r);
  check (xf_opnum msg <=? lastOp r);; CommitUpTo (xf_opnum msg);; SendPrepareOKs o;;
  modify (set_pendingPrepares []);; ps ← this pendingPrepares; handle_prepares ps)
  r2 (λ _ r', evolves r0 r')) as Hrest.
{ intros r2 He2. vr_steps. eapply wp_mono; [by apply keeps_CommitUpTo|]. intros ? r3 He3.
  vr_steps. eapply wp_mono; [apply (keeps_SendPrepareOKs _ r0); exact He3|]. intros ? r4 He4.
  vr_steps. apply keeps_handle_prepares. evolve. }
apply wp_bind, wp_this. apply wp_bind, wp_when; intros Hv; [|by apply Hrest].
eapply wp_mono; [apply (wp_EnterView r0); [done|lia]|]. intros ? r2 (He2 & _). by apply Hrest.
Qed.

Lemma install_diverge_wf l ws l' ws' :
log_wf l → install_diverge l ws = Done (l', ws') → log_wf l' ∧ useHash l' = useHash l.
Proof.
intros Hl. induction ws as [|w ws IH]; cbn [install_diverge].
{ by intros [= <- <-]. }
rewrite Find_spec by done. cbn [mbind outcome_bind].
destruct (if w_opnum w <? start l then None else _) as [e|]; [|by intros [= <- <-]].
case_bool_decide; [|by apply IH].
destruct (RemoveAfter l (w_opnum w)) as [l1|] eqn:HR; [|done].
cbn [mbind outcome_bind]. intros [= <- <-]. split; [by eapply RemoveAfter_wf|].
rewrite RemoveAfter_spec in HR by done.
repeat case_match; try discriminate; by apply Done_inj in HR as <-.
Qed.

Lemma install_append_wf l ws l' :
log_wf l → install_append l ws = Done l' → log_wf l' ∧ useHash l' = useHash l.
Proof.
revert l. induction ws as [|w ws IH]; intros l Hl; cbn [install_append].
{ by intros [= <-]. }
destruct (Append l _ _ _) as [l1|] eqn:HA; [|done]. cbn [mbind outcome_bind].
apply Append_wf in HA as (Hl1 & _ & _ & ->); [|done]. intros HI. by apply IH in HI.
Qed.

Lemma Install_wf l ws l' : log_wf l → Install l ws = Done l' → log_wf l' ∧ useHash l' = useHash l.
Proof.
intros Hl. unfold Install. destruct (install_diverge l ws) as [[l1 ws1]|] eqn:E; [|done].
cbn [mbind outcome_bind]. intros HA. apply install_diverge_wf in E as [Hl1 Hh]; [|done].
apply install_append_wf in HA as [Hl2 Hh2]; [|done]. by rewrite Hh2.
Qed.

Lemma keeps_install r0 r op ws l1 l2 :
evolves r0 r → RemoveAfter (log r) op = Done l1 → Install l1 ws = Done l2 →
evolves r0 (set_log l2 r).
Proof.
intros He HR HI. pose proof (RemoveAfter_keeps _ _ _ _ He HR) as He1.
pose proof (evolves_ok _ _ He1) as [Hl1 Hh1 _ _ _ _ _ _]. cbn in Hl1, Hh1.
apply Install_wf in HI as [Hl2 Hh2]; [|done]. evolve; [done|congruence].
Qed.

(** An intermediate assertion between two statements. *)
Lemma wp_seq {T U} (m : VR T) (k : T → VR U) r (I : @VRReplica A → Prop)
  (Q : U → @VRReplica A → Prop) :
wp any m r (λ _ r', I r') → (∀ x r', I r' → wp any (k x) r' Q) → wp any (m ≫= k) r Q.
Proof. intros Hm Hk. apply wp_bind. eapply wp_mono; [exact Hm|]. intros x r'. apply Hk. Qed.

Lemma keeps_enter_change r0 r b v :
evolves r0 r → view r <= v →
wp any (when b (StartViewChange v)) r (λ _ r', evolves r0 r' ∧ view r' <= v).
Proof.
intros He Hv. vr_step; [|done]. eapply wp_mono; [by apply (wp_StartViewChange r0)|].
intros ? r' (He' & -> & _). split; [done|lia].
Qed.

Lemma keeps_HandleStartViewChange remote msg : keeps (HandleStartViewChange remote msg).
Proof.
intros r0 r He. unfold HandleStartViewChange. vr_step. vr_step.
vr_step; [by vr_steps|]. vr_step; [by vr_steps|]. cbn in *.
eapply wp_seq; [apply (keeps_enter_change r0); [done|lia]|]. intros _ r1 (He1 & Hv1).
vr_steps; try done.
all: match goal with HA : AddAndCheckForQuorum _ _ _ _ = _ |- _ =>
  apply AddAndCheck_spec in HA as (Hw & Hn & _); [|apply (evolves_ok _ _ He1)] end.
all: by evolve.
Qed.

Lemma keeps_HandleDoViewChange remote msg : keeps (HandleDoViewChange read_dangling remote msg).
Proof.
intros r0 r He. unfold HandleDoViewChange. vr_step. vr_step.
vr_step; [by vr_steps|]. vr_step; [by vr_steps|]. cbn in *.
eapply wp_seq; [apply (keeps_enter_change r0); [done|lia]|]. intros _ r1 (He1 & Hv1).
vr_step. vr_step. vr_step. vr_step. vr_step.
match goal with HA : AddAndCheckForQuorum _ _ _ _ = (_, ?q) |- _ =>
  apply AddAndCheck_spec in HA as (Hw & Hn & _); [|apply (evolves_ok _ _ He1)];
  assert (evolves r0 (set_doViewChangeQuorum q r1)) as He2 by (by evolve);
  vr_step; vr_step; set (r2 := set_doViewChangeQuorum q r1) in * end.
assert (log r2 = log r1) as Hl2 by done. assert (view r2 <= dvc_view msg) as Hv2 by done.
clearbody r2. vr_step; [|by vr_steps]. vr_step.
eapply wp_seq with (I := λ r', r' = r2); [by vr_steps|]. intros latestMsg r3 ->.
eapply wp_seq with (I := λ r', evolves r0 r' ∧ view r' <= dvc_view msg).
{ vr_steps; try done. split; [|done]. eapply keeps_install; [done| |done].
  rewrite Hl2. done. }
intros _ r3 (He3 & Hv3). vr_step. vr_step. vr_step. vr_step.
assert (evolves r0 (set_startViewChangeQuorum q0 r3)) as He4.
{ match goal with HG : GetMessages _ _ = _ |- _ =>
    apply GetMessages_wf in HG as [Hw4 Hn4]; [|apply (evolves_ok _ _ He3)] end. by evolve. }
do 6 (cbv beta; vr_step).
eapply wp_mono; [apply (wp_EnterView r0); [done|cbn; lia]|]. intros _ r5 (He5 & _).
do 6 (cbv beta; vr_step).
eapply wp_seq with (I := λ r', evolves r0 r').
{ vr_step; [apply keeps_CommitUpTo|vr_steps]; evolve. }
intros _ r6 He6. by vr_steps.
Qed.

Lemma keeps_HandleStartView remote msg : keeps (HandleStartView remote msg).
Proof.
intros r0 r He. unfold HandleStartView. vr_step. vr_step.
vr_step; [by vr_steps|]. vr_step; [by vr_steps|]. cbn in *. vr_step. vr_step.
eapply wp_seq with (I := λ r', evolves r0 r' ∧ view r' <= sv_view msg).
{ vr_steps; try (split; [done|lia]). split; [|cbn; lia]. by eapply keeps_install. }
intros _ r1 (He1 & Hv1). vr_step.
eapply wp_mono; [by apply (wp_EnterView r0)|]. intros _ r2 (He2 & _).
vr_steps. eapply wp_mono; [apply (keeps_CommitUpTo _ r0); by evolve|]. intros ? r3 He3.
by apply keeps_SendPrepareOKs.
Qed.

Lemma keeps_ReceiveMessage remote m r0 r :
evolves r0 r → lastCommitted r + 1 < 2 ^ 64 →
wp any (ReceiveMessage read_dangling remote m) r (λ _ r', evolves r0 r').
Proof.
intros He Hlt. destruct m; cbn [ReceiveMessage].
- by apply keeps_HandleRequest.
- by apply keeps_HandleUnloggedRequest.
- apply wp_panic.
- apply wp_panic.
- by apply keeps_HandlePrepare.
- by apply keeps_HandlePrepareOK.
- by apply keeps_HandleCommit.
- by apply keeps_HandleRequestStateTransfer.
- by apply keeps_HandleStateTransfer.
- by apply keeps_HandleStartViewChange.
- by apply keeps_HandleDoViewChange.
- by apply keeps_HandleStartView.
Qed.

Lemma keeps_batch_loop n i : keeps (batch_loop n i).
Proof.
revert i. induction n as [|n IH]; intros i r0 r He; cbn [batch_loop]; vr_steps; [done|].
eapply wp_mono; [by apply IH|]. intros ? r' He'. by vr_steps.
Qed.

Lemma keeps_fire t r0 r :
evolves r0 r → view r + 1 < 2 ^ 64 →
wp any (fire t) r (λ _ r', evolves r0 r').
Proof.
intros He Hlt. destruct t; cbn [fire]; unfold SendNullCommit, ResendPrepare, CloseBatch;
  vr_steps; try done; try by evolve.
- eapply wp_mono; [apply (wp_StartViewChange r0); [done|rewrite u64_small; lia]|].
  intros ? r' (He' & _). done.
- eapply wp_mono; [by apply (keeps_batch_loop _ _ r0)|]. intros ? r' He'. vr_steps; [done|].
  evolve.
Qed.
End Methods.

(** Something that happens to a replica. *)
Inductive event :=
  | Deliver (remote : address) (m : message)
  | Fire (t : timer).

Definition handle `{Sha1, AppReplica A} (read_dangling : DoViewChangeMessage → outcome DoViewChangeMessage)
    (e : event) : VR unit :=
  match e with
  | Deliver a m => ReceiveMessage read_dangling a m
  | Fire t => fire t
  end.

Fixpoint handle_all `{Sha1, AppReplica A}
    (read_dangling : DoViewChangeMessage → outcome DoViewChangeMessage)
    (es : list event) : VR unit :=
  match es with
  | [] => mret tt
  | e :: es => handle read_dangling e;; handle_all read_dangling es
  end.

(** ** Properties of a replica *)

Lemma new_replica_ok `{Sha1, AppReplica A} c i b (a : A) r :
  new_replica c i b a = Done r → replica_ok r.
Proof.
  unfold new_replica, new_log. rewrite bool_decide_true by done. cbn. intros [= <-].
  split; cbn; try apply new_quorum_wf; done.
Qed.

(** C26.  Every replica starts in, and every message and timer it handles
    without failing preserves, the invariant: the log is consecutive and the
    quorum sets are well formed and ask for a majority less the leader.  Views,
    the number of committed operations and the request numbers in the client
    table never go back. *)
Theorem replica_invariant `{Sha1, AppReplica A}
    (read_dangling : DoViewChangeMessage → outcome DoViewChangeMessage) :
  (∀ c i b (a : A) r, new_replica c i b a = Done r → replica_ok r) ∧
  (∀ e (r r' : VRReplica) o,
     replica_ok r → view r + 1 < 2 ^ 64 → lastCommitted r + 1 < 2 ^ 64 →
     handle read_dangling e r = Done (tt, r', o) → replica_ok r' ∧ advances r r').
Proof.
  split; [intros; by eapply new_replica_ok|].
  intros e r r' o Hok Hv Hc Hh. pose proof (evolves_refl r Hok) as He.
  destruct e as [remote m|t]; cbn [handle] in Hh.
  - by apply (keeps_ReceiveMessage read_dangling remote m r r He Hc) in Hh as [_ ?].
  - by apply (keeps_fire t r r He Hv) in Hh as [_ ?].
Qed.

(** The first replica of three, with the default application. *)
Definition example_replica (i : Z) : outcome (@VRReplica unit) :=
  @new_replica unit three_replicas i 1 tt.

Definition example_request (n : N) : Request := mkRequest #"put" 42 n.

Lemma replica_invariant_witness :
  let _ : Sha1 := λ _, [] in
  let _ := default_app in
  ∃ r r' o, example_replica 0 = Done r ∧
    handle Done (Deliver 9 (MRequest (example_request 1))) r = Done (tt, r', o) ∧
    replica_ok r' ∧ lastOp r' = 1.
Proof.
  intros S1 D1.
  let x := eval vm_compute in (example_replica 0) in
  match x with Done ?r =>
    let y := eval vm_compute in
      (@handle S1 unit D1 Done (Deliver 9 (MRequest (example_request 1))) r) in
    match y with Done (_, ?r', ?o) => exists r, r', o end
  end.
  match goal with |- ?E = Done ?r ∧ ?F = Done (tt, ?r', ?o) ∧ _ =>
    assert (E = Done r) as HE by (vm_compute; reflexivity);
    assert (F = Done (tt, r', o)) as HF by (vm_compute; reflexivity);
    split; [exact HE|]; split; [exact HF|]; split; [|reflexivity];
    apply (proj2 (@replica_invariant S1 unit D1 Done)
      (Deliver 9 (MRequest (example_request 1))) r r' o
      (proj1 (@replica_invariant S1 unit D1 Done) _ _ _ tt r HE)) end.
  - reflexivity.
  - reflexivity.
  - exact HF.
Defined.

Lemma fresh_updated_cte `{Sha1, AppReplica A} (r : @VRReplica A) req :
  last_req r (req_clientid req) < req_clientreqid req →
  updated_cte r req = mkCTE (req_clientreqid req) false cleared_reply.
Proof.
  rewrite last_req_default. intros Hlt. unfold updated_cte.
  by rewrite (proj2 (N.eqb_neq _ _)) by lia.
Qed.

Lemma run_UpdateClientTable `{Sha1, AppReplica A} (r : @VRReplica A) req :
  last_req r (req_clientid req) <= req_clientreqid req →
  UpdateClientTable req r
  = Done (tt, set_clientTable (<[req_clientid req := updated_cte r req]> (clientTable r)) r, []).
Proof.
  rewrite last_req_default. intros Hle. unfold UpdateClientTable, updated_cte.
  set (e := default new_cte (clientTable r !! req_clientid req)) in *.
  unfold mbind, vr_bind, this, set_cte, modify, check, lift, ASSERT. fold e.
  rewrite (proj2 (N.leb_le _ _)) by done. destruct (_ =? _); [done|].
  cbn. by rewrite insert_insert_eq.
Qed.

(** The leader has answered the request [req] with [reply]. *)
Record answered `{Sha1, AppReplica A} (r : @VRReplica A) req reply : Prop := {
  an_normal : status r = STATUS_NORMAL;
  an_leader : AmLeader r = true;
  an_entry : clientTable r !! req_clientid req = Some (mkCTE (req_clientreqid req) true reply);
}.

Lemma HandleRequest_first `{Sha1, AppReplica A} (r : @VRReplica A) remote req a replicate res :
  status r = STATUS_NORMAL → AmLeader r = true →
  last_req r (req_clientid req) < req_clientreqid req →
  LeaderUpcall (app r) (lastCommitted r) (req_op req) = Done (a, replicate, res) →
  ∃ r1 reply,
    HandleRequest remote req r = Done (tt, r1, [ToAddress remote (MReply reply)]) ∧
    app r1 = a ∧ rp_reply reply = res ∧ rp_clientreqid reply = req_clientreqid req ∧
    answered r1 req reply.
Proof.
  intros Hs Hl Hreq Hup. pose proof Hreq as Hreq'. rewrite last_req_default in Hreq'.
  set (r0 := set_clientAddresses (<[req_clientid req := remote]> (clientAddresses r)) r).
  pose proof (run_UpdateClientTable r0 req ltac:(unfold last_req in *; cbn; lia)) as Hu.
  rewrite fresh_updated_cte in Hu by done.
  assert (match clientTable r !! req_clientid req with
    | Some entry =>
        if req_clientreqid req <? cte_lastReqId entry then Some None
        else if req_clientreqid req =? cte_lastReqId entry
        then Some (if cte_replied entry then Some (cte_reply entry) else None)
        else None
    | None => None
    end = None) as Hdup.
  { destruct (clientTable r !! req_clientid req) as [e|]; [|done]. cbn in Hreq'.
    rewrite (proj2 (N.ltb_ge _ _)), (proj2 (N.eqb_neq _ _)) by lia. done. }
  assert (is_normal r = true) as Hn by (by apply bool_decide_eq_true).
  destruct replicate.
  all: eexists _, _; split;
    [unfold HandleRequest, mbind, vr_bind, this, modify, id; rewrite Hn, Hl, Hdup; cbn [negb];
     fold r0; rewrite Hu; unfold lift;
     cbn [app lastCommitted set_clientTable set_clientAddresses r0];
     rewrite Hup; cbn -[u64]; rewrite lookup_insert_eq; cbn -[u64]; reflexivity|].
  all: do 3 (split; [done|]); split; try done; cbn; by rewrite lookup_insert_eq.
Qed.

(** A duplicate of an answered request changes nothing but the address that the
    leader keeps for the client. *)
Lemma HandleRequest_duplicate `{Sha1, AppReplica A} (r : @VRReplica A) remote req reply :
  answered r req reply →
  HandleRequest remote req r =
    Done (tt, set_clientAddresses (<[req_clientid req := remote]> (clientAddresses r)) r,
          [ToAddress remote (MReply reply)]).
Proof.
  intros [Hs Hl He]. unfold HandleRequest, mbind, vr_bind, this, modify, id, is_normal.
  rewrite bool_decide_true, Hl, He by done. cbn -[u64].
  rewrite N.ltb_irrefl, N.eqb_refl. reflexivity.
Qed.

Lemma answered_address `{Sha1, AppReplica A} (r : @VRReplica A) req reply x :
  answered r req reply → answered (set_clientAddresses x r) req reply.
Proof. intros [Hs Hl He]. by split. Qed.

Lemma HandleRequest_again `{Sha1, AppReplica A} (r : @VRReplica A) remote req reply :
  answered r req reply → ∃ r2,
    HandleRequest remote req r = Done (tt, r2, [ToAddress remote (MReply reply)]) ∧
    answered r2 req reply ∧ app r2 = app r ∧ log r2 = log r ∧ lastOp r2 = lastOp r ∧
    lastCommitted r2 = lastCommitted r.
Proof.
  intros Ha. eexists. split; [by apply HandleRequest_duplicate|].
  split; [by apply answered_address|done].
Qed.

(** Any number of duplicates, from any addresses. *)
Lemma duplicates_answered `{Sha1, AppReplica A} (read_dangling : DoViewChangeMessage → outcome DoViewChangeMessage)
    (r : @VRReplica A) req reply remotes :
  answered r req reply → ∃ addrs,
    handle_all read_dangling ((λ a, Deliver a (MRequest req)) <$> remotes) r =
      Done (tt, set_clientAddresses addrs r, (λ a, ToAddress a (MReply reply)) <$> remotes) ∧
    answered (set_clientAddresses addrs r) req reply.
Proof.
  revert r. induction remotes as [|a remotes IH]; intros r Ha.
  { exists (clientAddresses r). replace (set_clientAddresses _ r) with r by (by destruct r). by split. }
  destruct (IH _ (answered_address r req reply (<[req_clientid req := a]> (clientAddresses r)) Ha))
    as (addrs & Hrun & Ha').
  exists addrs. split; [|exact Ha']. cbn [fmap list_fmap handle_all handle ReceiveMessage].
  unfold mbind at 1, vr_bind. rewrite (HandleRequest_duplicate r a req reply Ha). by rewrite Hrun.
Qed.

(** C22.  A leader executes a new request exactly once: the first delivery calls
    the application once and answers the client; every later delivery of the
    same request, however many there are and wherever they come from, gets the
    same answer and leaves the leader as the first one left it, the client table
    included, up to the address it keeps for the client.  So does a delivery in
    any later state of a leader whose entry for the client is still the same. *)
Theorem request_exactly_once `{Sha1, AppReplica A}
    (read_dangling : DoViewChangeMessage → outcome DoViewChangeMessage)
    (r : @VRReplica A) remote req a replicate res :
  status r = STATUS_NORMAL → AmLeader r = true →
  last_req r (req_clientid req) < req_clientreqid req →
  LeaderUpcall (app r) (lastCommitted r) (req_op req) = Done (a, replicate, res) →
  ∃ r1 reply,
    HandleRequest remote req r = Done (tt, r1, [ToAddress remote (MReply reply)]) ∧
    app r1 = a ∧ rp_reply reply = res ∧ rp_clientreqid reply = req_clientreqid req ∧
    clientTable r1 !! req_clientid req = Some (mkCTE (req_clientreqid req) true reply) ∧
    (∀ remotes, ∃ addrs,
      handle_all read_dangling ((λ a, Deliver a (MRequest req)) <$> remotes) r1 =
        Done (tt, set_clientAddresses addrs r1, (λ a, ToAddress a (MReply reply)) <$> remotes)) ∧
    (∀ r2 remote',
      status r2 = STATUS_NORMAL → AmLeader r2 = true →
      clientTable r2 !! req_clientid req = clientTable r1 !! req_clientid req →
      HandleRequest remote' req r2 =
        Done (tt, set_clientAddresses (<[req_clientid req := remote']> (clientAddresses r2)) r2,
              [ToAddress remote' (MReply reply)])).
Proof.
  intros Hs Hl Hreq Hup.
  destruct (HandleRequest_first r remote req a replicate res Hs Hl Hreq Hup)
    as (r1 & reply & H1 & <- & Hres & Hid & Ha).
  exists r1, reply. do 4 (split; [done|]). split; [apply Ha|]. split.
  - intros remotes.
    destruct (duplicates_answered read_dangling r1 req reply remotes Ha) as (addrs & Hrun & _). by exists addrs.
  - intros r2 remote' Hs2 Hl2 He. apply HandleRequest_duplicate. split; [done|done|].
    rewrite He. apply Ha.
Qed.

Lemma request_exactly_once_witness :
  let _ : Sha1 := λ _, [] in
  let _ := default_app in
  ∃ r r1 reply addrs,
    example_replica 0 = Done r ∧
    HandleRequest 9 (example_request 1) r = Done (tt, r1, [ToAddress 9 (MReply reply)]) ∧
    handle_all Done ((λ a, Deliver a (MRequest (example_request 1))) <$> [7; 9; 7]) r1 =
      Done (tt, set_clientAddresses addrs r1, (λ a, ToAddress a (MReply reply)) <$> [7; 9; 7]).
Proof.
  intros S1 D1.
  let x := eval vm_compute in (example_replica 0) in
  match x with Done ?r => exists r end.
  match goal with |- ∃ _ _ _, ?E = Done ?r ∧ _ =>
    destruct (@request_exactly_once S1 unit D1 Done r 9 (example_request 1) tt true #"put")
      as (r1 & reply & H1 & _ & _ & _ & _ & H2 & _) end.
  - reflexivity.
  - vm_compute. reflexivity.
  - vm_compute. reflexivity.
  - reflexivity.
  - destruct (H2 [7; 9; 7]) as (addrs & H3). exists r1, reply, addrs.
    split; [vm_compute; reflexivity|]. split; [exact H1|exact H3].
Defined.
