(* ===== verification/VRApp.v ===== *)
(** * What the events of a replica do to its application

    Shown once for every application: a preorder that each upcall respects
    holds between the applications before and after any events. *)

From S2P Require Import Prelude Cpp Config VRLog VRReplica VRSafety.

Open Scope N_scope.

Create HintDb app_keeps.

Section AppSteps.
Context `{Sha1} `{AppReplica A} (read_dangling : DoViewChangeMessage → outcome DoViewChangeMessage).
Context (R : A → A → Prop) `{!PreOrder R}.
Context (Hleader : ∀ a n op a' b res, LeaderUpcall a n op = Done (a', b, res) → R a a').
Context (Hreplica : ∀ a n op a' res, ReplicaUpcall a n op = Done (a', res) → R a a').
Context (Hunlogged : ∀ a op a' res, UnloggedUpcall a op = Done (a', res) → R a a').
Implicit Types r : @VRReplica A.
Notation any := (λ _ : output, True).

Definition app_keeps {T} (m : VR T) : Prop :=
  ∀ a0 r, R a0 (app r) → wp any m r (λ _ r', R a0 (app r')).

Lemma app_call {T} (m : VR T) a0 r (Q : T → @VRReplica A → Prop) :
  app_keeps m → R a0 (app r) → (∀ x r', R a0 (app r') → Q x r') → wp any m r Q.
Proof. intros Hm Ha HQ. eapply wp_mono; [by apply Hm|]. cbn. auto. Qed.

(** Steps of a method, the calls it makes by what is known of them. *)
Ltac app_steps :=
  repeat (cbv beta; first
    [ vr_step
    | eapply app_call; [solve [auto with app_keeps]|cbn; eassumption|intros ? ? ?] ]);
  cbn -[u64] in *; try done; try (etrans; [eassumption|]; eauto).

Lemma app_keeps_commit_one : app_keeps commit_one.
Proof. intros a0 r Ha. unfold commit_one. app_steps. Qed.
#[local] Hint Resolve app_keeps_commit_one : app_keeps.

Lemma app_keeps_CommitUpTo upto : app_keeps (CommitUpTo upto).
Proof.
  intros a0 r Ha. unfold CommitUpTo. vr_steps. generalize (N.to_nat (upto - lastCommitted r)).
  intros n. revert r Ha. induction n as [|n IH]; intros r Ha; cbn [commit_loop]; app_steps; auto.
Qed.
#[local] Hint Resolve app_keeps_CommitUpTo : app_keeps.

Lemma app_keeps_UpdateClientTable req : app_keeps (UpdateClientTable req).
Proof. intros a0 r Ha. unfold UpdateClientTable. app_steps. Qed.
#[local] Hint Resolve app_keeps_UpdateClientTable : app_keeps.

Lemma app_keeps_prepare_ok_loop n i : app_keeps (prepare_ok_loop n i).
Proof.
  revert i. induction n as [|n IH]; intros i a0 r Ha; cbn [prepare_ok_loop];
    unfold send_prepare_ok; app_steps; auto.
Qed.
#[local] Hint Resolve app_keeps_prepare_ok_loop : app_keeps.
Lemma app_keeps_SendPrepareOKs o : app_keeps (SendPrepareOKs o).
Proof. intros a0 r Ha. unfold SendPrepareOKs. app_steps. Qed.
#[local] Hint Resolve app_keeps_SendPrepareOKs : app_keeps.

Lemma app_keeps_RequestStateTransfer : app_keeps RequestStateTransfer.
Proof. intros a0 r Ha. unfold RequestStateTransfer. app_steps. Qed.
Lemma app_keeps_EnterView v : app_keeps (EnterView v).
Proof. intros a0 r Ha. unfold EnterView. app_steps. Qed.
Lemma app_keeps_StartViewChange v : app_keeps (StartViewChange v).
Proof. intros a0 r Ha. unfold StartViewChange. app_steps. Qed.
#[local] Hint Resolve app_keeps_RequestStateTransfer app_keeps_EnterView app_keeps_StartViewChange : app_keeps.

Lemma app_keeps_HandleRequest remote req : app_keeps (HandleRequest remote req).
Proof. intros a0 r Ha. unfold HandleRequest. app_steps. Qed.
Lemma app_keeps_HandleUnloggedRequest remote req : app_keeps (HandleUnloggedRequest remote req).
Proof. intros a0 r Ha. unfold HandleUnloggedRequest. app_steps. destruct y. eauto. Qed.

Lemma app_keeps_add_requests v op reqs : app_keeps (add_requests v op reqs).
Proof.
  revert op. induction reqs as [|req reqs IH]; intros op a0 r Ha; cbn [add_requests]; app_steps; by apply IH.
Qed.
#[local] Hint Resolve app_keeps_add_requests : app_keeps.
Lemma app_keeps_HandlePrepare remote msg : app_keeps (HandlePrepare remote msg).
Proof. intros a0 r Ha. unfold HandlePrepare, send_ok. app_steps. Qed.
#[local] Hint Resolve app_keeps_HandlePrepare : app_keeps.
Lemma app_keeps_HandlePrepareOK remote msg : app_keeps (HandlePrepareOK remote msg).
Proof. intros a0 r Ha. unfold HandlePrepareOK. app_steps. Qed.
Lemma app_keeps_HandleCommit remote msg : app_keeps (HandleCommit remote msg).
Proof. intros a0 r Ha. unfold HandleCommit. app_steps. Qed.
Lemma app_keeps_HandleRequestStateTransfer remote msg : app_keeps (HandleRequestStateTransfer remote msg).
Proof. intros a0 r Ha. unfold HandleRequestStateTransfer. app_steps. Qed.

Lemma app_keeps_install_entries o ws : app_keeps (install_entries o ws).
Proof.
  revert o. induction ws as [|w ws IH]; intros o a0 r Ha; cbn [install_entries];
    unfold install_entry; app_steps; by apply IH.
Qed.
Lemma app_keeps_handle_prepares ps : app_keeps (handle_prepares ps).
Proof.
  induction ps as [|[a p] ps IH]; intros a0 r Ha; cbn [handle_prepares]; app_steps; by apply IH.
Qed.
#[local] Hint Resolve app_keeps_install_entries app_keeps_handle_prepares : app_keeps.
Lemma app_keeps_HandleStateTransfer remote msg : app_keeps (HandleStateTransfer remote msg).
Proof. intros a0 r Ha. unfold HandleStateTransfer. app_steps. Qed.

Lemma app_keeps_HandleStartViewChange remote msg : app_keeps (HandleStartViewChange remote msg).
Proof. intros a0 r Ha. unfold HandleStartViewChange. app_steps. Qed.
Lemma app_keeps_HandleDoViewChange remote msg : app_keeps (HandleDoViewChange read_dangling remote msg).
Proof. intros a0 r Ha. unfold HandleDoViewChange. app_steps. Qed.
Lemma app_keeps_HandleStartView remote msg : app_keeps (HandleStartView remote msg).
Proof. intros a0 r Ha. unfold HandleStartView. app_steps. Qed.
#[local] Hint Resolve app_keeps_HandleRequest app_keeps_HandleUnloggedRequest app_keeps_HandlePrepareOK
  app_keeps_HandleCommit app_keeps_HandleRequestStateTransfer app_keeps_HandleStateTransfer
  app_keeps_HandleStartViewChange app_keeps_HandleDoViewChange app_keeps_HandleStartView : app_keeps.

Lemma app_keeps_batch_loop n i : app_keeps (batch_loop n i).
Proof. revert i. induction n as [|n IH]; intros i a0 r Ha; cbn [batch_loop]; app_steps; auto. Qed.
#[local] Hint Resolve app_keeps_batch_loop : app_keeps.

Lemma app_keeps_handle e : app_keeps (handle read_dangling e).
Proof.
  intros a0 r Ha. destruct e as [a m|t]; cbn [handle].
  - destruct m; cbn [ReceiveMessage]; try apply wp_panic; app_steps.
  - destruct t; cbn [fire]; unfold SendNullCommit, ResendPrepare, CloseBatch; app_steps.
Qed.
#[local] Hint Resolve app_keeps_handle : app_keeps.

(** Any sequence of events takes the application up in the preorder. *)
Lemma app_keeps_handle_all es : app_keeps (handle_all read_dangling es).
Proof. induction es as [|e es IH]; intros a0 r Ha; cbn [handle_all]; app_steps; auto. Qed.

Lemma handle_all_app es r r' o : handle_all read_dangling es r = Done (tt, r', o) → R (app r) (app r').
Proof. intros Hh. by destruct (app_keeps_handle_all es (app r) r ltac:(done) _ _ _ Hh). Qed.
End AppSteps.
