(* ===== verification/VRCluster.v ===== *)
(** * A cluster of replicas

    Replicas that exchange messages over a network that may delay, duplicate,
    reorder and lose them, clients that send requests, timers that fire, and
    replicas that stop when a handler fails.  The invariant is about every
    reachable state; it shows what the handlers, taken together, replicate. *)

From stdpp Require Import relations.
From S2P Require Import Prelude Cpp Config VRLog VRReplica VRSafety.

Open Scope N_scope.

(** ** The cluster *)

Record packet := mkPacket { pk_to : address; pk_from : address; pk_msg : message }.

Section Cluster.
Context `{Sha1} `{AppReplica A} (read_dangling : DoViewChangeMessage → outcome DoViewChangeMessage).
Context (config : Configuration) (replica_addr : Z → address).
Implicit Types r : @VRReplica A.

Record cluster := mkCluster {
  running : gmap Z (@VRReplica A);
  network : list packet;
}.

(** The indices of the configuration. *)
Definition indices : list Z := Z.of_nat <$> seq 0 (Z.to_nat (cfg_n config)).

(** Where an output of replica [i] goes; [SendMessageToAll] leaves out the replica
    whose address is [self], the address the transport last gave to the sender: its own
    when it was registered, then that of its side of the last connection.
    The TCP transport has no multicast address, so every copy goes to one replica. *)
Definition packets (self : address) (i : Z) (o : output) : list packet :=
  match o with
  | ToAddress a m => [mkPacket a (replica_addr i) m]
  | ToReplica j m => [mkPacket (replica_addr j) (replica_addr i) m]
  | ToAll m =>
      (λ j, mkPacket (replica_addr j) (replica_addr i) m)
        <$> filter (λ j, replica_addr j ≠ self) indices
  end.

(** What can happen to replica [i] of a cluster. *)
Definition enabled (c : cluster) (i : Z) r (e : event) : Prop :=
  match e with
  | Deliver src m => mkPacket (replica_addr i) src m ∈ network c
  | Fire t => t ∈ timers r
  end.

Inductive step : cluster → cluster → Prop :=
  | step_handle c i r e r' o self :
      running c !! i = Some r → enabled c i r e →
      handle read_dangling e r = Done (tt, r', o) →
      step c (mkCluster (<[i := r']> (running c)) (network c ++ (o ≫= packets self i)))
  | step_stop c i r e f :
      running c !! i = Some r → enabled c i r e →
      handle read_dangling e r = Stop f →
      step c (mkCluster (delete i (running c)) (network c))
  | step_client c i client m :
      (∃ req, m = MRequest req ∨ m = MUnloggedRequest req) →
      step c (mkCluster (running c) (network c ++ [mkPacket (replica_addr i) client m])).

Definition initial (c : cluster) : Prop :=
  network c = [] ∧
  ∀ i r, running c !! i = Some r → ∃ batch a, new_replica config i batch a = Done r.

Definition reachable (c : cluster) : Prop := ∃ c0, initial c0 ∧ rtc step c0 c.

(** ** What is never in the cluster *)

Definition quiet_msg (m : message) : Prop :=
  match m with
  | MPrepare _ | MPrepareOK _ => False
  | MStateTransfer x => xf_entries x = []
  | MDoViewChange x => dvc_entries x = []
  | MStartView x => sv_entries x = []
  | _ => True
  end.
Definition quiet_out (o : output) : Prop :=
  match o with ToAddress _ m | ToReplica _ m | ToAll m => quiet_msg m end.

Record quiet r : Prop := {
  q_log : entries (log r) = [];
  q_start : start (log r) = 1;
  q_pending : pendingPrepares r = [];
  q_close : closeBatchTimeout ∉ timers r;
  q_resend : resendPrepareTimeout ∉ timers r;
  q_dvc : ∀ v m x, messages (doViewChangeQuorum r) !! v = Some m → x ∈ m → dvc_entries x.2 = [];
}.

Lemma quiet_find r op : quiet r → Find (log r) op = Done None.
Proof. intros [Hl _ _ _ _ _]. unfold Find. by rewrite Hl. Qed.

Lemma quiet_dump r from : quiet r → Dump (log r) from = Done [].
Proof.
  intros [Hl Hs _ _ _ _]. unfold Dump, LastOpnum. rewrite Hl, Hs. simpl.
  change (u64 (1 + 2 ^ 64 - 1)) with 0.
  by replace (N.to_nat (0 + 1 - N.max from 1)) with 0%nat by lia.
Qed.

(** The setters of the other fields keep a replica quiet, and so do the timers
    that are started and stopped. *)
Lemma quiet_set r r' :
  quiet r → log r' = log r → pendingPrepares r' = pendingPrepares r →
  doViewChangeQuorum r' = doViewChangeQuorum r → timers r' = timers r → quiet r'.
Proof. intros [] E1 E2 E3 E4. split; by rewrite ?E1, ?E2, ?E3, ?E4. Qed.

Lemma quiet_status x r : quiet r → quiet (set_status x r).
Proof. intros ?. by eapply quiet_set. Qed.
Lemma quiet_view x r : quiet r → quiet (set_view x r).
Proof. intros ?. by eapply quiet_set. Qed.
Lemma quiet_lastCommitted x r : quiet r → quiet (set_lastCommitted x r).
Proof. intros ?. by eapply quiet_set. Qed.
Lemma quiet_lastOp x r : quiet r → quiet (set_lastOp x r).
Proof. intros ?. by eapply quiet_set. Qed.
Lemma quiet_lastRequestStateTransferView x r : quiet r → quiet (set_lastRequestStateTransferView x r).
Proof. intros ?. by eapply quiet_set. Qed.
Lemma quiet_lastRequestStateTransferOpnum x r : quiet r → quiet (set_lastRequestStateTransferOpnum x r).
Proof. intros ?. by eapply quiet_set. Qed.
Lemma quiet_lastPrepare x r : quiet r → quiet (set_lastPrepare x r).
Proof. intros ?. by eapply quiet_set. Qed.
Lemma quiet_lastBatchEnd x r : quiet r → quiet (set_lastBatchEnd x r).
Proof. intros ?. by eapply quiet_set. Qed.
Lemma quiet_clientAddresses x r : quiet r → quiet (set_clientAddresses x r).
Proof. intros ?. by eapply quiet_set. Qed.
Lemma quiet_clientTable x r : quiet r → quiet (set_clientTable x r).
Proof. intros ?. by eapply quiet_set. Qed.
Lemma quiet_prepareOKQuorum x r : quiet r → quiet (set_prepareOKQuorum x r).
Proof. intros ?. by eapply quiet_set. Qed.
Lemma quiet_startViewChangeQuorum x r : quiet r → quiet (set_startViewChangeQuorum x r).
Proof. intros ?. by eapply quiet_set. Qed.
Lemma quiet_app x r : quiet r → quiet (set_app x r).
Proof. intros ?. by eapply quiet_set. Qed.

Lemma quiet_start t r :
  t ≠ closeBatchTimeout → t ≠ resendPrepareTimeout → quiet r →
  quiet (set_timers ({[t]} ∪ timers r) r).
Proof.
  intros ?? []. split; try done; cbn [timers set_timers];
    intros [?%elem_of_singleton|?]%elem_of_union; congruence.
Qed.

Lemma quiet_stop t r : quiet r → quiet (set_timers (timers r ∖ {[t]}) r).
Proof.
  intros []. split; try done; cbn [timers set_timers]; by intros [? _]%elem_of_difference.
Qed.

Lemma quiet_clear r : quiet r → quiet (set_doViewChangeQuorum (ClearAll (doViewChangeQuorum r)) r).
Proof. intros []. by split. Qed.
End Cluster.

(** One setter at a time, from the last one inwards. *)
Ltac quieten :=
  repeat lazymatch goal with
  | |- quiet (set_doViewChangeQuorum (ClearAll _) _) => apply quiet_clear
  | |- quiet (set_timers ({[_]} ∪ _) _) => apply quiet_start; [discriminate|discriminate|]
  | |- quiet (set_timers (_ ∖ _) _) => apply quiet_stop
  | |- quiet (set_status _ _) => apply quiet_status
  | |- quiet (set_view _ _) => apply quiet_view
  | |- quiet (set_lastCommitted _ _) => apply quiet_lastCommitted
  | |- quiet (set_lastOp _ _) => apply quiet_lastOp
  | |- quiet (set_lastRequestStateTransferView _ _) => apply quiet_lastRequestStateTransferView
  | |- quiet (set_lastRequestStateTransferOpnum _ _) => apply quiet_lastRequestStateTransferOpnum
  | |- quiet (set_lastPrepare _ _) => apply quiet_lastPrepare
  | |- quiet (set_lastBatchEnd _ _) => apply quiet_lastBatchEnd
  | |- quiet (set_clientAddresses _ _) => apply quiet_clientAddresses
  | |- quiet (set_clientTable _ _) => apply quiet_clientTable
  | |- quiet (set_prepareOKQuorum _ _) => apply quiet_prepareOKQuorum
  | |- quiet (set_startViewChangeQuorum _ _) => apply quiet_startViewChangeQuorum
  | |- quiet (set_app _ _) => apply quiet_app
  end;
  try assumption.

Section Quiet.
Context `{Sha1} `{AppReplica A} (read_dangling : DoViewChangeMessage → outcome DoViewChangeMessage).
Implicit Types r : @VRReplica A.

(** [m] keeps the replica quiet and sends nothing but quiet messages. *)
Definition hushes {T} (m : VR T) : Prop :=
  ∀ r, quiet r → wp quiet_out m r (λ _ r', quiet r').

Lemma hushes_CommitUpTo upto : hushes (CommitUpTo upto).
Proof.
  intros r Hq. unfold CommitUpTo. vr_steps. destruct (N.to_nat _) as [|n]; cbn [commit_loop].
  { by vr_steps. }
  unfold commit_one. vr_steps; try done;
    match goal with HF : Find _ _ = Done (Some _) |- _ => cbn in HF; by rewrite quiet_find in HF end.
Qed.

Lemma hushes_SendPrepareOKs o : hushes (SendPrepareOKs o).
Proof.
  intros r Hq. unfold SendPrepareOKs. vr_steps. generalize (N.to_nat (lastOp r + 1 - o)).
  intros n. revert o. induction n as [|n IH]; intros o; cbn [prepare_ok_loop]; [by vr_steps|].
  unfold send_prepare_ok. vr_steps; [by apply IH|..];
    match goal with HF : Find _ _ = Done (Some _) |- _ => by rewrite quiet_find in HF end.
Qed.

Lemma hushes_RequestStateTransfer : hushes RequestStateTransfer.
Proof. intros r Hq. unfold RequestStateTransfer. vr_steps; try done. quieten. Qed.

Lemma hushes_EnterView v : hushes (EnterView v).
Proof. intros r Hq. unfold EnterView. vr_steps; quieten. Qed.

Lemma hushes_StartViewChange v : hushes (StartViewChange v).
Proof. intros r Hq. unfold StartViewChange. vr_steps; [exact I|quieten]. Qed.

Lemma hushes_UpdateClientTable req : hushes (UpdateClientTable req).
Proof. intros r Hq. apply wp_UpdateClientTable. intros _. quieten. Qed.

Lemma hushes_HandleRequest remote req : hushes (HandleRequest remote req).
Proof.
  intros r Hq. unfold HandleRequest. vr_steps; try done; try by quieten.
  all: apply wp_UpdateClientTable; intros _; vr_steps; try done; by quieten.
Qed.

Lemma hushes_HandleUnloggedRequest remote req : hushes (HandleUnloggedRequest remote req).
Proof. intros r Hq. unfold HandleUnloggedRequest. vr_steps; try done. quieten. Qed.

Lemma hushes_HandleCommit remote msg : hushes (HandleCommit remote msg).
Proof.
  intros r Hq. unfold HandleCommit. vr_steps; try done.
  - by apply hushes_RequestStateTransfer.
  - quieten.
  - apply hushes_RequestStateTransfer. quieten.
  - apply hushes_CommitUpTo. quieten.
Qed.

Lemma hushes_HandleRequestStateTransfer remote msg :
  hushes (HandleRequestStateTransfer remote msg).
Proof.
  intros r Hq. unfold HandleRequestStateTransfer. vr_steps; try done.
  - by apply hushes_RequestStateTransfer.
  - match goal with HD : Dump _ _ = Done _ |- _ => cbn in HD; rewrite quiet_dump in HD by done;
      apply Done_inj in HD as <- end. done.
Qed.

Lemma hushes_HandleStateTransfer remote msg :
  xf_entries msg = [] → hushes (HandleStateTransfer remote msg).
Proof.
  intros Hm r Hq. unfold HandleStateTransfer. rewrite Hm. cbn [install_entries].
  vr_step. vr_step. vr_step; [by vr_steps|]. do 2 vr_step.
  apply wp_bind, wp_this. apply wp_bind. eapply (wp_mono _ _ _ (λ _ r', quiet r')).
  { vr_step; [by apply hushes_EnterView|done]. }
  intros _ r1 Hq1. do 5 (cbv beta; vr_step).
  apply (wp_mono _ _ _ (λ _ r', quiet r')); [by apply hushes_CommitUpTo|]. intros _ r2 Hq2.
  vr_step. apply (wp_mono _ _ _ (λ _ r', quiet r')); [by apply hushes_SendPrepareOKs|]. intros _ r3 Hq3.
  vr_steps. cbn [pendingPrepares set_pendingPrepares handle_prepares]. vr_steps.
  destruct Hq3. by split.
Qed.

Lemma hushes_HandleStartViewChange remote msg : hushes (HandleStartViewChange remote msg).
Proof.
  intros r Hq. unfold HandleStartViewChange. vr_step. vr_step.
  vr_step; [by vr_steps|]. vr_step; [by vr_steps|].
  apply wp_bind. eapply (wp_mono _ _ _ (λ _ r', quiet r')).
  { vr_step; [by apply hushes_StartViewChange|done]. }
  intros _ r1 Hq1. vr_steps; try by quieten.
  match goal with HD : Dump _ _ = Done _ |- _ => rewrite quiet_dump in HD by done;
    apply Done_inj in HD as <- end. done.
Qed.

Lemma foldl_newer_in latest (ms : list DoViewChangeMessage) x :
  (foldl newer (latest, None) ms).2 = Some x → x ∈ ms.
Proof.
  assert (∀ ms acc x, (foldl newer acc ms).2 = Some x → acc.2 = Some x ∨ x ∈ ms) as Hgen.
  { clear. intros ms. induction ms as [|m ms IH]; intros acc x; cbn [foldl]; [by left|].
    intros [Hx|Hx]%IH; [|by right; right].
    destruct acc as [[v o] a]. unfold newer in Hx. case_match; [|by left].
    injection Hx as <-. right. by left. }
  intros [?|?]%Hgen; done.
Qed.

Lemma quiet_dvc_quorum r v idx msg res q :
  quiet r → dvc_entries msg = [] →
  AddAndCheckForQuorum (doViewChangeQuorum r) v idx msg = (res, q) →
  quiet (set_doViewChangeQuorum q r) ∧
  (∀ ms, res = Some ms → ∀ x, x ∈ ms.*2 → dvc_entries x = []).
Proof.
  intros Hq Hm. unfold AddAndCheckForQuorum, CheckForQuorum, GetMessages.
  cbn [messages numRequired]. rewrite !lookup_insert_eq, !insert_insert_eq.
  cbn [from_option id]. intros [= <- <-].
  set (m := default [] (messages (doViewChangeQuorum r) !! v)).
  assert (∀ x, x ∈ smap_insert idx msg m → dvc_entries x.2 = []) as Hin.
  { assert (∀ x, x ∈ m → dvc_entries x.2 = []) as Hm0.
    { unfold m. destruct (messages (doViewChangeQuorum r) !! v) eqn:E; cbn [from_option id].
      - intros x Hx. exact (q_dvc _ Hq _ _ _ E Hx).
      - by intros x ?%elem_of_nil. }
    clearbody m. induction m as [|[k y] m IH]; cbn [smap_insert].
    { by intros x [->|[]%elem_of_nil]%elem_of_cons. }
    intros x. case_match; [intros [->|Hx]%elem_of_cons; [done|by apply Hm0]|].
    case_match; [intros [->|Hx]%elem_of_cons; [done|apply Hm0; by right]|].
    intros [->|Hx]%elem_of_cons; [apply Hm0; by left|].
    apply IH; [|done]. intros z Hz. apply Hm0. by right. }
  split.
  - destruct Hq. split; try done. intros v' m' x. cbn [messages doViewChangeQuorum set_doViewChangeQuorum].
    intros [[<- <-]|[_ Hl]]%lookup_insert_Some; [apply Hin|by eapply q_dvc0].
  - intros ms Hms. case_match; [|done]. injection Hms as <-.
    intros x (y & -> & Hy)%list_elem_of_fmap. by apply Hin.
Qed.

Lemma hushes_HandleDoViewChange remote msg :
  (∀ x y, read_dangling x = Done y → y = x) → dvc_entries msg = [] →
  hushes (HandleDoViewChange read_dangling remote msg).
Proof.
  intros Hread Hm r Hq. unfold HandleDoViewChange. vr_step. vr_step.
  vr_step; [by vr_steps|]. vr_step; [by vr_steps|].
  apply wp_bind. eapply (wp_mono _ _ _ (λ _ r', quiet r')).
  { vr_step; [by apply hushes_StartViewChange|done]. }
  intros _ r1 Hq1. do 5 vr_step.
  match goal with HA : AddAndCheckForQuorum _ _ _ _ = _ |- _ =>
    apply quiet_dvc_quorum in HA as [Hq2 Hms]; [|done..] end.
  vr_step. vr_step. vr_step; [|by vr_steps]. vr_step.
  match goal with HF : foldl newer _ _ = (_, ?latestMsg) |- _ =>
    assert (∀ x, latestMsg = Some x → dvc_entries x = []) as Hlatest;
    [intros x Hx; apply (Hms _ eq_refl x), (foldl_newer_in (LastViewstamp (log r1)));
     by rewrite HF|] end.
  set (r2 := set_doViewChangeQuorum _ r1) in *. clearbody r2.
  apply wp_bind. eapply (wp_mono _ _ _ (λ y r', r' = r2 ∧ ∀ x, y = Some x → dvc_entries x = [])).
  { vr_steps; try (split; [done|by intros ? [=]]). split; [done|]. intros x [= <-].
    match goal with HR : read_dangling _ = Done _ |- _ => apply Hread in HR as -> end.
    by apply Hlatest. }
  intros latest r3 [-> Hx]. apply wp_bind. eapply (wp_mono _ _ _ (λ _ r', quiet r')).
  { destruct latest as [x|]; [|by vr_steps]. rewrite (Hx x eq_refl). by vr_steps. }
  intros _ r4 Hq4. do 4 vr_step. do 6 (cbv beta; vr_step).
  apply (wp_mono _ _ _ (λ _ r', quiet r')); [apply hushes_EnterView; quieten|]. intros _ r5 Hq5.
  do 6 (cbv beta; vr_step).
  apply wp_bind. eapply (wp_mono _ _ _ (λ _ r', quiet r')).
  { destruct latest; [apply hushes_CommitUpTo|vr_steps]; quieten. }
  intros _ r6 Hq6. vr_steps; [|done].
  match goal with HD : Dump _ _ = Done _ |- _ => rewrite quiet_dump in HD by done;
    apply Done_inj in HD as <- end. done.
Qed.

Lemma hushes_HandleStartView remote msg :
  sv_entries msg = [] → hushes (HandleStartView remote msg).
Proof.
  intros Hm r Hq. unfold HandleStartView. rewrite Hm. vr_step. vr_step.
  vr_step; [by vr_steps|]. vr_step; [by vr_steps|]. vr_step. vr_step.
  apply wp_bind. eapply (wp_mono _ _ _ (λ _ r', quiet r')); [by vr_steps|].
  intros _ r1 Hq1. vr_step. apply (wp_mono _ _ _ (λ _ r', quiet r')); [by apply hushes_EnterView|]. intros _ r2 Hq2.
  vr_steps. apply (wp_mono _ _ _ (λ _ r', quiet r')); [apply hushes_CommitUpTo; quieten|]. intros _ r3 Hq3.
  by apply hushes_SendPrepareOKs.
Qed.

Lemma hushes_handle e :
  (∀ x y, read_dangling x = Done y → y = x) →
  ∀ r, quiet r → match e with Deliver _ m => quiet_msg m | Fire t => t ∈ timers r end →
  wp quiet_out (handle read_dangling e) r (λ _ r', quiet r').
Proof.
  intros Hread r Hq He. destruct e as [src m|t]; cbn [handle].
  - destruct m; cbn [ReceiveMessage]; try done; try apply wp_panic.
    + by apply hushes_HandleRequest.
    + by apply hushes_HandleUnloggedRequest.
    + by apply hushes_HandleCommit.
    + by apply hushes_HandleRequestStateTransfer.
    + by apply hushes_HandleStateTransfer.
    + by apply hushes_HandleStartViewChange.
    + by apply hushes_HandleDoViewChange.
    + by apply hushes_HandleStartView.
  - destruct t; cbn [fire]; unfold SendNullCommit.
    + vr_steps. by apply hushes_StartViewChange.
    + by vr_steps.
    + vr_steps. quieten.
    + by destruct (q_resend _ Hq).
    + by destruct (q_close _ Hq).
Qed.
End Quiet.

(** ** What a cluster replicates *)

Section Replication.
Context `{Sha1} `{AppReplica A} (read_dangling : DoViewChangeMessage → outcome DoViewChangeMessage).
Context (config : Configuration) (replica_addr : Z → address).
Implicit Types r : @VRReplica A.
Notation cluster := (@cluster A).

Definition quiet_cluster (c : cluster) : Prop :=
  (∀ i r, running c !! i = Some r → quiet r) ∧ (∀ p, p ∈ network c → quiet_msg (pk_msg p)).

Lemma quiet_new_replica i b (a : A) r : new_replica config i b a = Done r → quiet r.
Proof.
  unfold new_replica, new_log. rewrite bool_decide_true by done. cbn [mbind outcome_bind].
  intros [= <-]%Done_inj. split; try done; cbn [timers]; case_match; set_solver.
Qed.

Lemma quiet_packets self i o p :
  Forall quiet_out o → p ∈ (o ≫= packets config replica_addr self i) → quiet_msg (pk_msg p).
Proof.
  intros Ho (x & Hp & Hx)%list_elem_of_bind. rewrite Forall_forall in Ho.
  specialize (Ho x Hx). destruct x as [j m|j m|m]; cbn in *.
  1,2: by apply list_elem_of_singleton in Hp as ->.
  by apply list_elem_of_fmap in Hp as (j & -> & _).
Qed.

Lemma quiet_step c c' :
  (∀ x y, read_dangling x = Done y → y = x) →
  quiet_cluster c → step read_dangling config replica_addr c c' → quiet_cluster c'.
Proof.
  intros Hread [Hr Hn] Hstep. destruct Hstep as [c i r e r' o self Hi He Hh|c i r e f Hi He Hh|c i r m Hm].
  - destruct (hushes_handle read_dangling e Hread r (Hr _ _ Hi)) with (2 := Hh) as [Ho Hq].
    { destruct e as [src m|t]; [by apply (Hn _ He)|done]. }
    split; cbn [running network].
    + intros j s [[_ <-]|[_ Hj]]%lookup_insert_Some; [done|by eapply Hr].
    + intros p [Hp|Hp]%elem_of_app; [by apply Hn|by eapply quiet_packets].
  - split; cbn [running network]; [|done]. intros j s [_ Hj]%lookup_delete_Some. by eapply Hr.
  - split; cbn [running network]; [done|]. intros p [Hp|Hp]%elem_of_app; [by apply Hn|].
    apply list_elem_of_singleton in Hp as ->. cbn. by destruct Hm as (req & [->| ->]).
Qed.

Lemma quiet_reachable c :
  (∀ x y, read_dangling x = Done y → y = x) →
  reachable read_dangling config replica_addr c → quiet_cluster c.
Proof.
  intros Hread (c0 & [Hn Hi] & Hsteps). assert (quiet_cluster c0) as Hq.
  { split; [|rewrite Hn; by intros p ?%elem_of_nil].
    intros i r (b & a & Hr)%Hi. by eapply quiet_new_replica. }
  clear Hn Hi. induction Hsteps as [|c0 c1 c2 Hstep _ IH]; [done|]. by eapply IH, quiet_step.
Qed.
End Replication.

(** C36.  Whatever clients send and however the network and the timers behave,
    no replica of a cluster ever logs an operation, and no PREPARE or PREPAREOK
    message is ever sent: operations are executed by the leader alone.  The read
    of the message that [HandleDoViewChange] left dangling is assumed to fail or
    to give that message. *)
Theorem never_replicated `{Sha1, AppReplica A}
    (read_dangling : DoViewChangeMessage → outcome DoViewChangeMessage) config replica_addr c :
  (∀ x y, read_dangling x = Done y → y = x) →
  reachable (A := A) read_dangling config replica_addr c →
  (∀ i r, running c !! i = Some r →
     entries (log r) = [] ∧ pendingPrepares r = [] ∧ closeBatchTimeout ∉ timers r) ∧
  (∀ p, p ∈ network c →
     match pk_msg p with MPrepare _ | MPrepareOK _ => False | _ => True end).
Proof.
  intros Hread [Hr Hn]%quiet_reachable; [|done]. split.
  - by intros i r []%Hr.
  - intros p Hp%Hn. by destruct (pk_msg p).
Qed.

(** A cluster of three in which the leader has executed a request. *)
Definition example_addr (i : Z) : address := Z.to_N i.
Definition example_start : @cluster unit :=
  mkCluster
    (list_to_map (omap (λ i, match example_replica i with
                             | Done r => Some (i, r) | Stop _ => None end) [0; 1; 2]%Z)) [].

Lemma example_start_initial : initial three_replicas example_start.
Proof.
  split; [done|]. intros i r Hi. exists 1, tt. revert i r Hi.
  apply map_Forall_to_list. repeat constructor.
Qed.

Lemma example_request_sent `{Sha1} (app := default_app) :
  reachable Done three_replicas example_addr
    (mkCluster (running example_start) [mkPacket 0 9 (MRequest (example_request 1))]).
Proof.
  exists example_start. split; [apply example_start_initial|].
  apply rtc_once. apply (step_client Done three_replicas example_addr example_start 0%Z 9).
  exists (example_request 1). by left.
Qed.

Lemma never_replicated_witness :
  let _ : Sha1 := λ _, [] in
  let _ := default_app in
  ∃ r, running example_start !! 0%Z = Some r ∧ entries (log r) = [].
Proof.
  intros S1 D1. eexists. split; [vm_compute; reflexivity|].
  by apply (proj1 (@never_replicated S1 unit D1 Done three_replicas example_addr _
    ltac:(by intros ?? ?%Done_inj) example_request_sent) 0%Z).
Defined.

(** State transfer cannot help a backup that is behind: the leader answers
    with an empty dump and its commit number, and the backup that handles the
    answer stops on its assertion. *)
Theorem state_transfer_stops_backup `{Sha1, AppReplica A}
    (read_dangling : DoViewChangeMessage → outcome DoViewChangeMessage) config replica_addr c
    l rl b rb a a' :
  (∀ x y, read_dangling x = Done y → y = x) →
  reachable (A := A) read_dangling config replica_addr c →
  running c !! l = Some rl → running c !! b = Some rb →
  status rl = STATUS_NORMAL → view rl = view rb → lastOp rb < lastCommitted rl →
  ∃ m, HandleRequestStateTransfer a (mkRequestST (view rb) (lastCommitted rb)) rl
       = Done (tt, rl, [ToAddress a (MStateTransfer m)]) ∧
       xf_opnum m = lastCommitted rl ∧ HandleStateTransfer a' m rb = Stop Panicked.
Proof.
  intros Hread [Hr _]%quiet_reachable Hl Hb Hs Hv Hop; [|done].
  exists (mkStateTransfer (view rl) (lastCommitted rl) []). split; [|split; [done|]].
  - unfold HandleRequestStateTransfer, is_normal, mbind, vr_bind, this, id.
    rewrite bool_decide_true by done. cbn [negb rs_view rs_opnum].
    rewrite Hv, N.ltb_irrefl. unfold lift. by rewrite quiet_dump by eauto.
  - unfold HandleStateTransfer, mbind, vr_bind, this, id, when, check, lift, ASSERT.
    cbn [xf_view xf_entries xf_opnum install_entries mret]. rewrite Hv, N.ltb_irrefl.
    unfold mret, vr_ret. cbv beta iota. rewrite N.ltb_irrefl.
    by rewrite (proj2 (N.leb_gt _ _)) by done.
Qed.

(** The leader has executed the request and the backups have not. *)
Lemma example_request_executed `{Sha1} (app := default_app) :
  ∃ c rl rb, reachable Done three_replicas example_addr c ∧
    running c !! 0%Z = Some rl ∧ running c !! 1%Z = Some rb ∧
    status rl = STATUS_NORMAL ∧ view rl = view rb ∧ lastCommitted rl = 1 ∧ lastOp rb = 0.
Proof.
  destruct (running example_start !! 0%Z) as [r|] eqn:Hr; [|by vm_compute in Hr].
  destruct (running example_start !! 1%Z) as [rb|] eqn:Hb; [|by vm_compute in Hb].
  destruct (handle Done (Deliver 9 (MRequest (example_request 1))) r) as [[[[] r'] o]|] eqn:Hh.
  2: { vm_compute in Hr. injection Hr as <-. by vm_compute in Hh. }
  eexists (mkCluster (<[0%Z := r']> _) _), r', rb. split; [|split; [|split]].
  - destruct example_request_sent as (c0 & Hc0 & Hsteps). exists c0. split; [done|].
    eapply rtc_r; [exact Hsteps|].
    eapply (step_handle Done three_replicas example_addr _ _ _ _ _ _ 0); [exact Hr| |exact Hh]. by left.
  - cbn [running]; by rewrite lookup_insert_eq.
  - cbn [running]; by rewrite lookup_insert_ne.
  - vm_compute in Hr, Hb. injection Hr as <-. injection Hb as <-.
    vm_compute in Hh. by injection Hh as <- _.
Qed.

Lemma state_transfer_stops_backup_witness :
  let _ : Sha1 := λ _, [] in
  let _ := default_app in
  ∃ (rl rb : @VRReplica unit) m, lastCommitted rl = 1 ∧ lastOp rb = 0 ∧
    HandleRequestStateTransfer 1 (mkRequestST (view rb) (lastCommitted rb)) rl
    = Done (tt, rl, [ToAddress 1 (MStateTransfer m)]) ∧
    HandleStateTransfer 0 m rb = Stop Panicked.
Proof.
  intros S1 D1. destruct example_request_executed as (c & rl & rb & Hc & Hl & Hb & Hs & Hv & H1 & H0).
  destruct (@state_transfer_stops_backup S1 unit D1 Done three_replicas example_addr c
    0%Z rl 1%Z rb 1 0 ltac:(by intros ?? ?%Done_inj) Hc Hl Hb Hs Hv) as (m & Hm & _ & Hst);
    [by rewrite H1, H0|by exists rl, rb, m].
Defined.
