(* ===== verification/TimeServer.v ===== *)
(** * [timeserver/timeserver.h], [exes/timeserver.cc]: the timestamp server

    In mode OCC a client takes the time of a commit from a server of its own:
    a counter behind a viewstamped-replication replica.  Shown are that the
    times of one leader increase whatever happens in between, and, by an
    execution of a cluster, that those of the next leader start again. *)

From stdpp Require Import relations.
From S2P Require Import Prelude Cpp Config VRLog VRReplica VRSafety VRApp VRCluster.

(** ** The server *)

(** The state is the member [ts], a [long]; incrementing the largest one
    overflows. *)
Module TimeStampServer.
Definition t : Type := Z.
Definition create : t := 0%Z.

Definition newTimeStamp (ts : t) : outcome (t * bytes) :=
  if (ts =? 2 ^ 63 - 1)%Z then Stop Undefined
  else let ts := (ts + 1)%Z in Done (ts, to_string_z ts).

(** [replicate] is left as the caller set it, to [false]. *)
Definition LeaderUpcall (ts : t) (opnum : N) (str1 : bytes) : outcome (t * bool * bytes) :=
  '(ts, str2) ← newTimeStamp ts; Done (ts, false, str2).
Definition ReplicaUpcall (ts : t) (opnum : N) (str1 : bytes) : outcome (t * bytes) :=
  newTimeStamp ts.

(** [UnloggedUpcall] is that of the base class. *)
#[export] Instance app : AppReplica t := {|
  VRReplica.LeaderUpcall := LeaderUpcall;
  VRReplica.ReplicaUpcall := ReplicaUpcall;
  VRReplica.UnloggedUpcall ts _ := Done (ts, []);
|}.
End TimeStampServer.

Open Scope N_scope.

Import TimeStampServer.

(** ** The times of one leader *)

Lemma newTimeStamp_run ts :
  (0 ≤ ts < 2 ^ 63 - 1)%Z → ∃ s, newTimeStamp ts = Done ((ts + 1)%Z, s) ∧ stol s = Done (ts + 1)%Z.
Proof.
  intros Hts. exists (to_string_z (ts + 1)). unfold newTimeStamp, to_string_z.
  rewrite (proj2 (Z.eqb_neq _ _)), (proj2 (Z.ltb_ge _ _)) by lia. split; [done|].
  pose proof (sto_signed_to_string 64 (Z.to_N (ts + 1)) [] ltac:(lia)) as E.
  rewrite app_nil_r, Z2N.id in E by lia. by apply E.
Qed.

Lemma newTimeStamp_grows ts ts' s : newTimeStamp ts = Done (ts', s) → (ts ≤ ts')%Z.
Proof. unfold newTimeStamp. case_match; [done|]. intros [= <- _]%Done_inj. lia. Qed.

(** A leader that gets a request it has not seen and can answer. *)
Record asked `{Sha1} (r : @VRReplica t) (req : Request) : Prop := {
  ask_normal : status r = STATUS_NORMAL;
  ask_leader : AmLeader r = true;
  ask_new : last_req r (req_clientid req) < req_clientreqid req;
  ask_range : (0 ≤ VRReplica.app r < 2 ^ 63 - 1)%Z;
}.

Lemma new_time `{Sha1} (r : @VRReplica t) remote req :
  asked r req → ∃ r1 reply,
    HandleRequest remote req r = Done (tt, r1, [ToAddress remote (MReply reply)]) ∧
    stol (rp_reply reply) = Done (VRReplica.app r + 1)%Z ∧ VRReplica.app r1 = (VRReplica.app r + 1)%Z.
Proof.
  intros [Hs Hl Hn Ha]. destruct (newTimeStamp_run _ Ha) as (s & Hs1 & Hs2).
  destruct (HandleRequest_first r remote req (VRReplica.app r + 1)%Z false s) as (r1 & reply & Hh & E & <- & _);
    [done..| |by exists r1, reply].
  cbn. unfold LeaderUpcall. by rewrite Hs1.
Qed.

(** C23.  A leader of the timestamp service answers a new request with a time
    that [stol] of the client reads, and every new request it answers later,
    after any messages and timeouts, with a greater one. *)
Theorem times_increase `{Sha1} (read_dangling : DoViewChangeMessage → outcome DoViewChangeMessage)
    (r : @VRReplica t) remote req :
  asked r req → ∃ r1 reply time,
    HandleRequest remote req r = Done (tt, r1, [ToAddress remote (MReply reply)]) ∧
    stol (rp_reply reply) = Done time ∧
    ∀ es r2 o remote' req',
      handle_all read_dangling es r1 = Done (tt, r2, o) → asked r2 req' →
      ∃ r3 reply' time',
        HandleRequest remote' req' r2 = Done (tt, r3, [ToAddress remote' (MReply reply')]) ∧
        stol (rp_reply reply') = Done time' ∧ (time < time')%Z.
Proof.
  intros Ha. destruct (new_time r remote req Ha) as (r1 & reply & Hh & Ht & H1).
  exists r1, reply, (VRReplica.app r + 1)%Z. do 2 (split; [done|]). intros es r2 o remote' req' He Ha2.
  destruct (new_time r2 remote' req' Ha2) as (r3 & reply' & Hh' & Ht' & _).
  exists r3, reply', (VRReplica.app r2 + 1)%Z. do 2 (split; [done|]).
  enough (VRReplica.app r1 ≤ VRReplica.app r2)%Z by lia.
  eapply (handle_all_app read_dangling Z.le); [..|exact He].
  - intros a n op a' b res E. cbn in E. unfold LeaderUpcall in E.
    destruct (newTimeStamp a) as [[]|] eqn:En; [|done]. apply Done_inj in E as [= <- _ _].
    by eapply newTimeStamp_grows.
  - intros a n op a' res E. by eapply newTimeStamp_grows.
  - intros a op a' res [= <- _]%Done_inj. done.
Qed.

(** ** Executions of a cluster *)

Inductive move :=
  | Mdeliver (k : nat) (i : Z)
  | Mfire (i : Z) (t : timer)
  | Mrequest (i : Z) (client : address) (req : Request).

Section Schedule.
Context `{Sha1} `{AppReplica A} (read_dangling : DoViewChangeMessage → outcome DoViewChangeMessage).
Context (config : Configuration) (replica_addr : Z → address).
Notation cluster := (@cluster A).

(** The event of replica [i] that a move is, when it can happen. *)
Definition move_event (c : cluster) (m : move) : option (Z * event) :=
  match m with
  | Mdeliver k i =>
      p ← network c !! k;
      if pk_to p =? replica_addr i then Some (i, Deliver (pk_from p) (pk_msg p)) else None
  | Mfire i t =>
      r ← running c !! i; if decide (t ∈ timers r) then Some (i, Fire t) else None
  | Mrequest _ _ _ => None
  end.
Definition run_move (c : cluster) (m : move) : option cluster :=
  match m with
  | Mrequest i client req =>
      Some (mkCluster (running c) (network c ++ [mkPacket (replica_addr i) client (MRequest req)]))
  | _ =>
      '(i, e) ← move_event c m;
      r ← running c !! i;
      match handle read_dangling e r with
      | Done (_, r', o) =>
          Some (mkCluster (<[i := r']> (running c))
                  (network c ++ (o ≫= packets config replica_addr (replica_addr i) i)))
      | Stop _ => None
      end
  end.
Definition run_moves (ms : list move) (c : cluster) : option cluster :=
  foldl (λ c m, c ← c; run_move c m) (Some c) ms.

Lemma move_enabled c m i e r :
  move_event c m = Some (i, e) → running c !! i = Some r → enabled replica_addr c i r e.
Proof.
  destruct m as [k j|j t|]; cbn; [|intros (r' & Hr' & Ht)%bind_Some Hr|done].
  - intros (p & Hp & Ht)%bind_Some Hr. case_match eqn:E; [|done]. injection Ht as <- <-.
    apply N.eqb_eq in E. cbn. rewrite <-E. destruct p. by eapply list_elem_of_lookup_2.
  - case_decide; [|done]. injection Ht as <- <-. by simplify_eq.
Qed.

Lemma run_move_step c m c' :
  run_move c m = Some c' → step read_dangling config replica_addr c c'.
Proof.
  assert ((∃ i client req, m = Mrequest i client req ∧
            c' = mkCluster (running c) (network c ++ [mkPacket (replica_addr i) client (MRequest req)])) ∨
          (∃ i e r r' o, move_event c m = Some (i, e) ∧ running c !! i = Some r ∧
            handle read_dangling e r = Done (tt, r', o) ∧
            c' = mkCluster (<[i := r']> (running c))
                   (network c ++ (o ≫= packets config replica_addr (replica_addr i) i))) →
          step read_dangling config replica_addr c c') as Hstep.
  { intros [(i & client & req & -> & ->)|(i & e & r & r' & o & He & Hr & Hh & ->)].
    - apply step_client. exists req. by left.
    - eapply step_handle; [done|by eapply move_enabled|done]. }
  intros Hm. apply Hstep. destruct m; [right|right|left; cbn in Hm; injection Hm as <-; by eauto 10];
    apply bind_Some in Hm as ([i' e] & He & (r & Hr & Hm)%bind_Some);
    destruct (handle read_dangling e r) as [[[[] r'] o]|] eqn:Hh; try done; injection Hm as <-;
    by exists i', e, r, r', o.
Qed.

Lemma run_moves_steps ms c c' :
  run_moves ms c = Some c' → rtc (step read_dangling config replica_addr) c c'.
Proof.
  unfold run_moves. revert c. induction ms as [|m ms IH]; intros c; cbn [foldl]; [by intros [= ->]|].
  cbn [mbind option_bind]. destruct (run_move c m) as [c1|] eqn:E.
  - intros Hrun. econstructor; [by eapply run_move_step|by apply IH].
  - intros Hrun. exfalso. clear -Hrun. induction ms; [done|auto].
Qed.
End Schedule.

(** ** The times of two leaders *)

(** Three timestamp servers as they start. *)
Definition servers : @cluster t :=
  mkCluster
    (list_to_map (omap (λ i, match new_replica three_replicas i 1 create with
                             | Done r => Some (i, r) | Stop _ => None end) [0; 1; 2]%Z)) [].

Definition ask (client : N) : Request := mkRequest [] client 1.

(** A client asks the first server; the second times out, the third follows it
    into the next view, and another client asks the second. *)
Definition leader_change : list move :=
  [Mrequest 0 11 (ask 42); Mdeliver 0 0; Mfire 1 viewChangeTimeout;
   Mdeliver 3 2; Mdeliver 5 1; Mdeliver 6 1; Mrequest 1 12 (ask 43); Mdeliver 9 1].

(** C24.  The counter is not replicated, so the times are not those of the
    service: a cluster of three servers, none of which fails, gives the same
    time to two clients when the leader changes between their requests. *)
Theorem times_repeat `{Sha1} :
  ∃ c reply1 reply2,
    rtc (step Done three_replicas example_addr) servers c ∧
    mkPacket 11 (example_addr 0) (MReply reply1) ∈ network c ∧
    mkPacket 12 (example_addr 1) (MReply reply2) ∈ network c ∧
    rp_reply reply1 = rp_reply reply2 ∧
    running c !! 0%Z ≠ None ∧ running c !! 1%Z ≠ None ∧ running c !! 2%Z ≠ None.
Proof.
  destruct (run_moves Done three_replicas example_addr leader_change servers) as [c|] eqn:E.
  2: { by vm_compute in E. }
  pose proof (run_moves_steps _ _ _ _ _ _ E) as Hrun. vm_compute in E. injection E as <-.
  eexists _, (mkReply 0 0 1 #"1"), (mkReply 0 0 1 #"1"). split; [exact Hrun|].
  split; [apply (list_elem_of_lookup_2 _ 1); reflexivity|].
  split; [apply (list_elem_of_lookup_2 _ 10); reflexivity|].
  split; [done|]. by vm_compute.
Qed.

Lemma times_increase_witness :
  let _ : Sha1 := λ _, [] in
  ∃ r r1 r2 reply reply' time time' r3 o,
    new_replica three_replicas 0 1 create = Done r ∧
    HandleRequest 11 (ask 42) r = Done (tt, r1, [ToAddress 11 (MReply reply)]) ∧
    handle_all Done [Fire nullCommitTimeout] r1 = Done (tt, r2, o) ∧
    HandleRequest 12 (ask 43) r2 = Done (tt, r3, [ToAddress 12 (MReply reply')]) ∧
    stol (rp_reply reply) = Done time ∧ stol (rp_reply reply') = Done time' ∧ (time < time')%Z.
Proof.
  intros S1.
  let x := eval vm_compute in (new_replica three_replicas 0 1 create) in
  match x with Done ?r => assert (new_replica three_replicas 0 1 create = Done r) as Hr by reflexivity; exists r end.
  match type of Hr with _ = Done ?r =>
    destruct (@times_increase S1 Done r 11 (ask 42)) as (r1 & reply & time & Hh & Ht & Hlater) end.
  { split; [reflexivity|reflexivity|reflexivity|split; reflexivity || discriminate]. }
  pose proof Hh as Hh1. vm_compute in Hh1. injection Hh1 as <- <-.
  match type of Hh with _ = Done (_, ?r1, _) =>
    let y := eval vm_compute in (@handle_all S1 t app Done [Fire nullCommitTimeout] r1) in
    match y with Done (_, ?r2, ?o) =>
      assert (@handle_all S1 t app Done [Fire nullCommitTimeout] r1 = Done (tt, r2, o)) as He by reflexivity;
      destruct (Hlater [Fire nullCommitTimeout] r2 o 12 (ask 43) He) as (r3 & reply' & time' & Hh' & Ht' & Hlt)
    end end.
  { split; [reflexivity|reflexivity|reflexivity|split; reflexivity || discriminate]. }
  eexists _, _, _, _, time, time', r3, _. repeat (split; [eassumption|]). exact Hlt.
Defined.
