(* ===== verification/Txn.v ===== *)
(** * [store/common/timestamp.cc], [transaction.cc] and their messages

    Timestamps with the six comparison operators, transactions as read and
    write sets, and the messages of [proto/common-proto.proto] that carry them
    between the clients and the shards. *)

From S2P Require Import Prelude.

Open Scope N_scope.

(** ** Reply statuses ([transaction.h]) *)

Definition REPLY_OK : Z := 0.
Definition REPLY_FAIL : Z := 1.
Definition REPLY_RETRY : Z := 2.
Definition REPLY_ABSTAIN : Z := 3.
Definition REPLY_TIMEOUT : Z := 4.
Definition REPLY_NETWORK_FAILURE : Z := 5.

(** ** Messages *)

Record TimestampMessage := mkTimestampMessage { tm_id : N; tm_timestamp : N }.
Record ReadMessage := mkReadMessage { rm_key : bytes; rm_readtime : TimestampMessage }.
Record WriteMessage := mkWriteMessage { wm_key : bytes; wm_value : bytes }.
Record TransactionMessage := mkTransactionMessage {
  tm_readset : list ReadMessage;
  tm_writeset : list WriteMessage;
}.

(** ** Timestamps *)

Module Timestamp.
Record t := mk { timestamp : N; id : N }.

Definition default : t := mk 0 0.
Definition of_time (time : N) : t := mk time 0.
Definition of_message (msg : TimestampMessage) : t := mk (tm_timestamp msg) (tm_id msg).
Definition serialize (x : t) : TimestampMessage := mkTimestampMessage (id x) (timestamp x).

Definition eqb (x y : t) : bool := (timestamp x =? timestamp y) && (id x =? id y).
Definition neqb (x y : t) : bool := negb (timestamp x =? timestamp y) || negb (id x =? id y).
Definition gtb (x y : t) : bool :=
  if timestamp x =? timestamp y then id y <? id x else timestamp y <? timestamp x.
Definition ltb (x y : t) : bool :=
  if timestamp x =? timestamp y then id x <? id y else timestamp x <? timestamp y.
Definition geb (x y : t) : bool :=
  if timestamp x =? timestamp y then id y <=? id x else timestamp y <=? timestamp x.
Definition leb (x y : t) : bool :=
  if timestamp x =? timestamp y then id x <=? id y else timestamp x <=? timestamp y.
Definition isValid (x : t) : bool := (0 <? timestamp x) && (0 <? id x).

#[global] Instance t_eq_dec : EqDecision t.
Proof. solve_decision. Defined.

Lemma of_message_serialize x : of_message (serialize x) = x.
Proof. by destruct x. Qed.

(** The lexicographic order the operators decide. *)
Definition lt (x y : t) : Prop :=
  timestamp x < timestamp y ∨ timestamp x = timestamp y ∧ id x < id y.

#[global] Instance lt_strict : StrictOrder lt.
Proof.
  split.
  - intros x [H|[_ H]]; lia.
  - intros x y z; unfold lt; lia.
Qed.

Lemma lt_trichotomy x y : lt x y ∨ x = y ∨ lt y x.
Proof.
  destruct x as [a b], y as [c d]. unfold lt. cbn.
  destruct (N.lt_trichotomy a c) as [|[->|]]; [by auto..| |by auto].
  destruct (N.lt_trichotomy b d) as [|[->|]]; auto.
Qed.

(** The six operators of [Timestamp] decide the lexicographic order: each
    agrees with the reference relation it names, and exactly one of [x < y],
    [x == y], [x > y] is true. *)
Theorem operators_lexicographic x y :
  (ltb x y = true ↔ lt x y) ∧ (gtb x y = true ↔ lt y x) ∧ (eqb x y = true ↔ x = y) ∧
  (leb x y = true ↔ ¬ lt y x) ∧ (geb x y = true ↔ ¬ lt x y) ∧ neqb x y = negb (eqb x y) ∧
  match ltb x y, eqb x y, gtb x y with
  | true, false, false | false, true, false | false, false, true => True
  | _, _, _ => False
  end.
Proof.
  destruct x as [a b], y as [c d].
  unfold ltb, gtb, eqb, leb, geb, neqb, lt. cbn [timestamp id].
  assert (eq_iff : mk a b = mk c d ↔ a = c ∧ b = d) by (split; [by intros [=]|by intros [-> ->]]).
  rewrite eq_iff. clear eq_iff.
  destruct (N.eqb_spec a c) as [->|Hac]; cbn.
  - destruct (N.ltb_spec b d), (N.ltb_spec d b), (N.eqb_spec b d); try (exfalso; lia);
      (split_and!; [lia..|done|done]).
  - destruct (N.ltb_spec a c), (N.ltb_spec c a); try (exfalso; lia);
      (split_and!; [lia..|done|done]).
Qed.
End Timestamp.

(** ** Hash tables

[std::unordered_map] with string keys: the order of an iteration is some order
of the entries. *)
Class IterOrder := {
  iter_order {A} : gmap bytes A → list (bytes * A);
}.
Class IterOrderLaws `{IterOrder} : Prop := {
  iter_order_perm {A} (m : gmap bytes A) : iter_order m ≡ₚ map_to_list m;
}.

#[export] Instance default_order : IterOrder := {| iter_order A m := map_to_list m |}.
#[export] Instance default_order_laws : IterOrderLaws.
Proof. by split. Qed.

Section IterFacts.
Context `{IterOrderLaws}.

Lemma elem_of_iter {A} (m : gmap bytes A) k x : (k, x) ∈ iter_order m ↔ m !! k = Some x.
Proof. by rewrite iter_order_perm, elem_of_map_to_list. Qed.

Lemma elem_of_iter_keys {A} (m : gmap bytes A) k : k ∈ (iter_order m).*1 ↔ k ∈ dom m.
Proof.
rewrite list_elem_of_fmap, elem_of_dom. split.
- intros ([k' x] & -> & Hx%elem_of_iter). eauto.
- intros [x Hx%elem_of_iter]. by exists (k, x).
Qed.

Lemma iter_NoDup {A} (m : gmap bytes A) : NoDup (iter_order m).*1.
Proof. rewrite iter_order_perm. apply NoDup_fst_map_to_list. Qed.

Lemma list_to_map_iter {A} (m : gmap bytes A) : list_to_map (iter_order m) = m.
Proof.
rewrite <-(list_to_map_to_list m) at 2. apply list_to_map_proper; [apply iter_NoDup|].
apply iter_order_perm.
Qed.
End IterFacts.

(** Assigning the entries of a list one after the other. *)
Lemma foldl_insert_list {A} (l : list (bytes * A)) (m : gmap bytes A) :
  NoDup l.*1 → foldl (λ m kv, <[kv.1 := kv.2]> m) m l = list_to_map l ∪ m.
Proof.
  revert m. induction l as [|[k x] l IH]; intros m Hnd; [cbn; by rewrite (left_id_L ∅ (∪))|].
  apply NoDup_cons in Hnd as [Hk Hnd]. cbn. rewrite IH by done.
  rewrite <-insert_union_r, <-insert_union_l; [done|].
  by apply not_elem_of_list_to_map.
Qed.

(** ** Transactions *)

Module Transaction.
Record t := mk {
  readSet : gmap bytes Timestamp.t;
  writeSet : gmap bytes bytes;
}.

Definition empty : t := mk ∅ ∅.

Definition addReadSet (txn : t) (key : bytes) (readTime : Timestamp.t) : t :=
  mk (<[key := readTime]> (readSet txn)) (writeSet txn).
Definition addWriteSet (txn : t) (key value : bytes) : t :=
  mk (readSet txn) (<[key := value]> (writeSet txn)).

(** [Transaction(const TransactionMessage &msg)] *)
Definition of_message (msg : TransactionMessage) : t :=
  mk (foldl (λ rs m, <[rm_key m := Timestamp.of_message (rm_readtime m)]> rs) ∅ (tm_readset msg))
     (foldl (λ ws m, <[wm_key m := wm_value m]> ws) ∅ (tm_writeset msg)).

(** [Transaction::serialize] *)
Definition serialize `{IterOrder} (txn : t) : TransactionMessage :=
  mkTransactionMessage
    ((λ read, mkReadMessage read.1 (Timestamp.serialize read.2)) <$> iter_order (readSet txn))
    ((λ write, mkWriteMessage write.1 write.2) <$> iter_order (writeSet txn)).

Lemma foldl_fmap {A B C} (f : C → B → C) (g : A → B) (l : list A) (c : C) :
  foldl f c (g <$> l) = foldl (λ c a, f c (g a)) c l.
Proof. revert c. induction l as [|a l IH]; intros c; [done|]. cbn. apply IH. Qed.

(** A transaction sent in a message is the transaction received, whatever
    the order in which the hash tables are iterated. *)
Theorem serialize_of_message `{IterOrderLaws} (txn : t) : of_message (serialize txn) = txn.
Proof.
  destruct txn as [rs ws]. unfold of_message, serialize. cbn [tm_readset tm_writeset readSet writeSet].
  rewrite !foldl_fmap. cbn [rm_key rm_readtime wm_key wm_value]. f_equal.
  - transitivity (foldl (λ (m : gmap bytes Timestamp.t) kv, <[kv.1 := kv.2]> m) ∅ (iter_order rs)).
    + generalize (iter_order rs) (∅ : gmap bytes Timestamp.t). intros l.
      induction l as [|[k x] l IH]; intros m; [done|]. cbn.
      rewrite Timestamp.of_message_serialize. apply IH.
    + rewrite foldl_insert_list by apply iter_NoDup.
      by rewrite list_to_map_iter, (right_id_L ∅ (∪)).
  - rewrite foldl_insert_list by apply iter_NoDup.
    by rewrite list_to_map_iter, (right_id_L ∅ (∪)).
Qed.

Lemma serialize_of_message_witness :
  let txn := mk {[#"a" := Timestamp.mk 3 1]} {[#"a" := #"1"; #"b" := #"2"]} in
  of_message (serialize txn) = txn.
Proof. exact (serialize_of_message _). Defined.
End Transaction.
