(* ===== verification/Reply.v ===== *)
(** * [proto/strong-proto.proto]: the messages of the transaction protocol

    The request a client sends to a shard and the reply it gets, with the
    proofs of the three ledgers.  An optional field is an [option]; the
    generated accessors return the default when it is absent. *)

From S2P Require Import Prelude Txn.

Open Scope Z_scope.

(** A 64-bit value stored in an [int64] field, and read as [uint64_t]. *)
Definition int64 (n : N) : Z :=
  let n := u64 n in if (n <? 2 ^ 63)%N then Z.of_N n else Z.of_N n - 2 ^ 64.
Definition uint64 (z : Z) : N := Z.to_N (z mod 2 ^ 64).

(** Likewise for [int32] fields. *)
Definition int32 (n : N) : Z :=
  let n := u32 n in if (n <? 2 ^ 31)%N then Z.of_N n else Z.of_N n - 2 ^ 32.

Lemma uint64_int64 n : (n < 2 ^ 64)%N → uint64 (int64 n) = n.
Proof.
  intros Hn. unfold uint64, int64. rewrite u64_small by done.
  destruct (N.ltb_spec n (2 ^ 63)).
  - rewrite Z.mod_small by lia. lia.
  - replace (Z.of_N n - 2 ^ 64) with (Z.of_N n + (-1) * 2 ^ 64) by lia.
    rewrite Z.mod_add, Z.mod_small by lia. lia.
Qed.

Lemma int64_u64 n : int64 (u64 n) = int64 n.
Proof. unfold int64, u64. by rewrite !N.Div0.mod_mod. Qed.

(** ** Proofs *)

Record LedgerDBProof := mkLedgerDBProof {
  lp_val : bytes;
  lp_hash : bytes;
  lp_proof : list bytes;
  lp_mt_pos : list Z;
  lp_mptvalue : bytes;
  lp_mpt_chunks : list bytes;
  lp_mpt_pos : list Z;
}.

Record QLDBProof := mkQLDBProof {
  qp_key : bytes;
  qp_value : bytes;
  qp_blockno : N;
  qp_doc_seq : N;
  qp_version : N;
  qp_time : N;
  qp_hashes : list bytes;
  qp_pos : list Z;
}.

Record MTProof := mkMTProof {
  mtp_digest : bytes;
  mtp_value : bytes;
  mtp_proof : list bytes;
  mtp_pos : list Z;
}.

Record MPTProofMessage := mkMPTProofMessage {
  mpm_value : bytes;
  mpm_chunks : list bytes;
  mpm_pos : list Z;
}.

Record SQLLedgerProof := mkSQLLedgerProof {
  sp_blocks : list bytes;
  sp_txn_proof : list MTProof;
  sp_data_proof : list MTProof;
}.

(** ** Replies *)

Record Digest := mkDigest { dg_block : option Z; dg_hash : option bytes; dg_mpthash : option bytes }.
Record KV := mkKV { kv_key : bytes; kv_val : bytes; kv_estimate_block : Z }.

Record SQLLedgerAudit := mkSQLLedgerAudit {
  sa_block_no : Z;
  sa_digest : bytes;
  sa_txns : bytes;
  sa_blocks : list bytes;
}.

Record LedgerDBAudit := mkLedgerDBAudit {
  la_digest : bytes;
  la_commit_seq : Z;
  la_first_block_seq : Z;
  la_commits : list bytes;
  la_blocks : list bytes;
  la_mptproofs : list MPTProofMessage;
}.

Record Reply := mkReply {
  r_status : option Z;
  r_timestamp : option Z;
  r_digest : option Digest;
  r_values : list KV;
  r_timestamps : list Z;
  r_qproof : list QLDBProof;
  r_proof : list LedgerDBProof;
  r_sproof : list SQLLedgerProof;
  r_saudit : option SQLLedgerAudit;
  r_laudit : option LedgerDBAudit;
}.

Definition empty_reply : Reply := mkReply None None None [] [] [] [] [] None None.

(** [mutable_digest()] and the setters of its fields. *)
Definition digest_of_reply (r : Reply) : Digest := default (mkDigest None None None) (r_digest r).
Definition set_digest (r : Reply) (block : Z) (h : bytes) : Reply :=
  mkReply (r_status r) (r_timestamp r)
    (Some (mkDigest (Some block) (Some h) (dg_mpthash (digest_of_reply r))))
    (r_values r) (r_timestamps r) (r_qproof r) (r_proof r) (r_sproof r) (r_saudit r) (r_laudit r).
Definition set_mpthash (r : Reply) (h : bytes) : Reply :=
  mkReply (r_status r) (r_timestamp r)
    (Some (mkDigest (dg_block (digest_of_reply r)) (dg_hash (digest_of_reply r)) (Some h)))
    (r_values r) (r_timestamps r) (r_qproof r) (r_proof r) (r_sproof r) (r_saudit r) (r_laudit r).

Definition set_status (r : Reply) (st : Z) : Reply :=
  mkReply (Some st) (r_timestamp r) (r_digest r) (r_values r) (r_timestamps r) (r_qproof r)
    (r_proof r) (r_sproof r) (r_saudit r) (r_laudit r).
Definition set_timestamp (r : Reply) (ts : Z) : Reply :=
  mkReply (r_status r) (Some ts) (r_digest r) (r_values r) (r_timestamps r) (r_qproof r)
    (r_proof r) (r_sproof r) (r_saudit r) (r_laudit r).
Definition add_values (r : Reply) (kvs : list KV) : Reply :=
  mkReply (r_status r) (r_timestamp r) (r_digest r) (r_values r ++ kvs) (r_timestamps r)
    (r_qproof r) (r_proof r) (r_sproof r) (r_saudit r) (r_laudit r).
Definition add_timestamps (r : Reply) (ts : list Z) : Reply :=
  mkReply (r_status r) (r_timestamp r) (r_digest r) (r_values r) (r_timestamps r ++ ts)
    (r_qproof r) (r_proof r) (r_sproof r) (r_saudit r) (r_laudit r).
Definition add_qproof (r : Reply) (p : QLDBProof) : Reply :=
  mkReply (r_status r) (r_timestamp r) (r_digest r) (r_values r) (r_timestamps r)
    (r_qproof r ++ [p]) (r_proof r) (r_sproof r) (r_saudit r) (r_laudit r).
Definition add_proof (r : Reply) (p : LedgerDBProof) : Reply :=
  mkReply (r_status r) (r_timestamp r) (r_digest r) (r_values r) (r_timestamps r)
    (r_qproof r) (r_proof r ++ [p]) (r_sproof r) (r_saudit r) (r_laudit r).
Definition add_sproof (r : Reply) (p : SQLLedgerProof) : Reply :=
  mkReply (r_status r) (r_timestamp r) (r_digest r) (r_values r) (r_timestamps r)
    (r_qproof r) (r_proof r) (r_sproof r ++ [p]) (r_saudit r) (r_laudit r).
Definition set_saudit (r : Reply) (a : SQLLedgerAudit) : Reply :=
  mkReply (r_status r) (r_timestamp r) (r_digest r) (r_values r) (r_timestamps r)
    (r_qproof r) (r_proof r) (r_sproof r) (Some a) (r_laudit r).
Definition set_laudit (r : Reply) (a : LedgerDBAudit) : Reply :=
  mkReply (r_status r) (r_timestamp r) (r_digest r) (r_values r) (r_timestamps r)
    (r_qproof r) (r_proof r) (r_sproof r) (r_saudit r) (Some a).

(** ** Requests *)

Inductive Operation := GET | PREPARE | COMMIT | ABORT | VERIFY_GET | RANGE | BATCH_GET | AUDIT.

Record VersionedKey := mkVersionedKey { vk_key : bytes; vk_nversions : Z }.

Record Request := mkRequest {
  rq_op : Operation;
  rq_txnid : N;
  rq_prepare : TransactionMessage;
  rq_commit_timestamp : N;
  rq_abort : TransactionMessage;
  rq_verify_block : Z;
  rq_verify_keys : list bytes;
  rq_version : list VersionedKey;
  rq_range_from : bytes;
  rq_range_to : bytes;
  rq_batchget_keys : list bytes;
  rq_audit_seq : Z;
}.
