(* ===== verification/OCCStore.v ===== *)
(** * [store/strongstore/occstore.cc]: optimistic concurrency control

    A shard keeps the transactions that are prepared and refuses to prepare one
    whose keys a prepared transaction writes (or, for a write, reads).  The
    versioned store below is an interface; [VersionStore] implements it. *)

From S2P Require Import Prelude Txn Reply.

Open Scope Z_scope.

(** ** The versioned store ([versionstore.h])

A reply pointer that may be null is an [option]. *)
Class VersionedKVStore (V : Type) := {
  vs_GetDigest : V → Reply → outcome (V * Reply);
  vs_BatchGet : V → list bytes → Reply → outcome (V * Reply);
  vs_GetNVersions : V → list (bytes * N) → Reply → outcome (V * Reply);
  vs_GetRange : V → bytes → bytes → Reply → outcome (V * Reply);
  vs_GetProof : V → gmap N (list bytes) → Reply → outcome (V * Reply);
  vs_GetAudit : V → N → Reply → outcome (V * Reply);
  vs_put : V → list bytes → list bytes → Timestamp.t → option Reply → outcome (V * option Reply);
}.

(** What the store was given, as a map from keys to their latest values: only [put]
changes it.  [recorded] of [OCCSpec] gives every versioned store such a map, and
[qldb_map_read] of [QLStoreSpec] that it is what a store answers. *)
Class KVSpec (V : Type) `{VersionedKVStore V} := {
  kv_map : V → gmap bytes bytes;
}.
Class KVSpecLaws (V : Type) `{KVSpec V} : Prop := {
  kv_GetDigest s r s' r' : vs_GetDigest s r = Done (s', r') → kv_map s' = kv_map s;
  kv_BatchGet s ks r s' r' : vs_BatchGet s ks r = Done (s', r') → kv_map s' = kv_map s;
  kv_GetNVersions s ks r s' r' : vs_GetNVersions s ks r = Done (s', r') → kv_map s' = kv_map s;
  kv_GetRange s a b r s' r' : vs_GetRange s a b r = Done (s', r') → kv_map s' = kv_map s;
  kv_GetProof s ks r s' r' : vs_GetProof s ks r = Done (s', r') → kv_map s' = kv_map s;
  kv_GetAudit s n r s' r' : vs_GetAudit s n r = Done (s', r') → kv_map s' = kv_map s;
  kv_put s ks vs t r s' r' :
    length ks = length vs → NoDup ks →
    vs_put s ks vs t r = Done (s', r') → kv_map s' = list_to_map (zip ks vs) ∪ kv_map s;
}.

(** ** The store *)

Record OCCStore (V : Type) := mkOCCStore {
  store : V;
  prepared : gmap N Transaction.t;
}.
Arguments mkOCCStore {V} _ _.
Arguments store {V} _.
Arguments prepared {V} _.

Section OCCStore.
Context `{IterOrder, VersionedKVStore V}.
Implicit Types o : OCCStore V.
Implicit Types txn : Transaction.t.

(** [getPreparedWrites] and [getPreparedReadWrites] *)
Definition getPreparedWrites o : gset bytes :=
map_fold (λ _ t writes, foldl (λ writes write, writes ∪ {[write.1]}) writes
            (iter_order (Transaction.writeSet t))) ∅ (prepared o).

Definition getPreparedReadWrites o : gset bytes :=
map_fold (λ _ t readwrites,
    foldl (λ rw read, rw ∪ {[read.1]})
      (foldl (λ rw write, rw ∪ {[write.1]}) readwrites (iter_order (Transaction.writeSet t)))
      (iter_order (Transaction.readSet t))) ∅ (prepared o).

(** [Abort]; its second argument is not used. *)
Definition Abort o (id : N) (txn : Transaction.t) : OCCStore V :=
mkOCCStore (store o) (delete id (prepared o)).

(** [Prepare] *)
Definition Prepare o (id : N) txn : Z * OCCStore V :=
match prepared o !! id with
| Some _ => (REPLY_OK, o)
| None =>
    let pWrites := getPreparedWrites o in
    let pRW := getPreparedReadWrites o in
    if existsb (λ read, bool_decide (read.1 ∈ pWrites)) (iter_order (Transaction.readSet txn))
    then (REPLY_FAIL, Abort o id Transaction.empty)
    else if existsb (λ write, bool_decide (write.1 ∈ pRW)) (iter_order (Transaction.writeSet txn))
    then (REPLY_FAIL, Abort o id Transaction.empty)
    else (REPLY_OK, mkOCCStore (store o) (<[id := txn]> (prepared o)))
end.

(** [Load] *)
Definition Load o (keys values : list bytes) (ts : Timestamp.t) : outcome (OCCStore V) :=
'(s, _) ← vs_put (store o) keys values ts None;
Done (mkOCCStore s (prepared o)).

(** [BatchGet] and [GetRange]; the store's calls always return true. *)
Definition BatchGet o (keys : list bytes) (r : Reply) : outcome (Z * OCCStore V * Reply) :=
'(s, r) ← vs_GetDigest (store o) r;
'(s, r) ← vs_BatchGet s keys r;
Done (REPLY_OK, mkOCCStore s (prepared o), r).

Definition GetRange o (start fin : bytes) (r : Reply) : outcome (Z * OCCStore V * Reply) :=
'(s, r) ← vs_GetDigest (store o) r;
'(s, r) ← vs_GetRange s start fin r;
Done (REPLY_OK, mkOCCStore s (prepared o), r).

(** The two overloads of [GetProof]. *)
Definition GetProof o (keys : gmap N (list bytes)) (r : Reply) : outcome (Z * OCCStore V * Reply) :=
'(s, r) ← vs_GetProof (store o) keys r;
Done (REPLY_OK, mkOCCStore s (prepared o), r).

Definition GetProof_seq o (seq : N) (r : Reply) : outcome (Z * OCCStore V * Reply) :=
'(s, r) ← vs_GetDigest (store o) r;
'(s, r) ← vs_GetAudit s seq r;
Done (REPLY_OK, mkOCCStore s (prepared o), r).

(** [Commit] with the keys whose versions are asked for. *)
Definition Commit_versions o (id timestamp : N) (ver_keys : list (bytes * N)) (r : Reply)
  : outcome (OCCStore V * Reply) :=
_ ← ASSERT (bool_decide (is_Some (prepared o !! id)));
let txn := default Transaction.empty (prepared o !! id) in
'(s, r) ← vs_GetDigest (store o) r;
let keys := (iter_order (Transaction.readSet txn)).*1 in
'(s, r) ← (if (0 <? length keys)%nat then vs_BatchGet s keys r else Done (s, r));
'(s, r) ← (if (0 <? length ver_keys)%nat then vs_GetNVersions s ver_keys r else Done (s, r));
let keys := (iter_order (Transaction.writeSet txn)).*1 in
let vals := (iter_order (Transaction.writeSet txn)).*2 in
'(s, r) ← (if (0 <? length keys)%nat
           then '(s, r') ← vs_put s keys vals (Timestamp.of_time timestamp) (Some r);
                Done (s, default r r')
           else Done (s, r));
Done (mkOCCStore s (delete id (prepared o)), r).

(** [Commit] without them: [prepared[id]] creates an empty transaction when
there is none. *)
Definition Commit_plain o (id timestamp : N) (r : Reply) : outcome (OCCStore V * Reply) :=
let txn := default Transaction.empty (prepared o !! id) in
'(s, r) ← vs_GetDigest (store o) r;
let keys := (iter_order (Transaction.writeSet txn)).*1 in
let vals := (iter_order (Transaction.writeSet txn)).*2 in
'(s, _) ← vs_put s keys vals (Timestamp.of_time timestamp) None;
Done (mkOCCStore s (delete id (prepared o)), r).
End OCCStore.
