(* ===== verification/OCCSpec.v ===== *)
(** * What [OCCStore] promises

    The operations of a shard refine a machine on a map of latest values and
    the set of prepared transactions, in which a transaction is prepared
    exactly when it is compatible with every prepared transaction.  This holds on
    every versioned store: [recorded] is the store with the map of what was put. *)

From S2P Require Import Prelude Txn Reply OCCStore.

Open Scope Z_scope.

(** ** The calls of a shard *)

Inductive occ_op :=
  | OpPrepare (id : N) (txn : Transaction.t)
  | OpAbort (id : N) (txn : Transaction.t)
  | OpCommit (id timestamp : N)
  | OpCommitVersions (id timestamp : N) (ver_keys : list (bytes * N))
  | OpLoad (keys values : list bytes) (ts : Timestamp.t)
  | OpBatchGet (keys : list bytes)
  | OpGetRange (start fin : bytes)
  | OpGetProof (keys : gmap N (list bytes))
  | OpGetAudit (seq : N).

Section Run.
Context `{IterOrder, VersionedKVStore V}.

(** A call on a fresh reply. *)
Definition run_op (o : OCCStore V) (op : occ_op) : outcome (OCCStore V) :=
match op with
| OpPrepare id txn => Done (Prepare o id txn).2
| OpAbort id txn => Done (Abort o id txn)
| OpCommit id ts => fst <$> Commit_plain o id ts empty_reply
| OpCommitVersions id ts ks => fst <$> Commit_versions o id ts ks empty_reply
| OpLoad ks vs ts => Load o ks vs ts
| OpBatchGet ks => (λ x, x.1.2) <$> BatchGet o ks empty_reply
| OpGetRange a b => (λ x, x.1.2) <$> GetRange o a b empty_reply
| OpGetProof ks => (λ x, x.1.2) <$> GetProof o ks empty_reply
| OpGetAudit n => (λ x, x.1.2) <$> GetProof_seq o n empty_reply
end.

Fixpoint run_ops (o : OCCStore V) (ops : list occ_op) : outcome (OCCStore V) :=
match ops with
| [] => Done o
| op :: ops => o ← run_op o op; run_ops o ops
end.
End Run.

(** ** The abstract machine *)

Record spec := mkSpec { sp_kv : gmap bytes bytes; sp_prepared : gmap N Transaction.t }.

Definition reads (t : Transaction.t) : gset bytes := dom (Transaction.readSet t).
Definition writes (t : Transaction.t) : gset bytes := dom (Transaction.writeSet t).

(** No write of one is a key of the other. *)
Definition compatible (t u : Transaction.t) : Prop :=
  reads t ## writes u ∧ writes t ## writes u ∪ reads u.

#[export] Instance compatible_sym : Symmetric compatible.
Proof. unfold compatible. intros t u. set_solver. Qed.

Definition admissible (ts : gmap N Transaction.t) (txn : Transaction.t) : Prop :=
  map_Forall (λ _ u, compatible txn u) ts.
#[export] Instance admissible_dec ts txn : Decision (admissible ts txn).
Proof. unfold admissible, compatible. apply _. Defined.

Definition spec_op (s : spec) (op : occ_op) : spec :=
  match op with
  | OpPrepare id txn =>
      if decide (sp_prepared s !! id = None ∧ admissible (sp_prepared s) txn)
      then mkSpec (sp_kv s) (<[id := txn]> (sp_prepared s)) else s
  | OpAbort id _ => mkSpec (sp_kv s) (delete id (sp_prepared s))
  | OpCommit id _ | OpCommitVersions id _ _ =>
      mkSpec (Transaction.writeSet (default Transaction.empty (sp_prepared s !! id)) ∪ sp_kv s)
        (delete id (sp_prepared s))
  | OpLoad ks vs _ => mkSpec (list_to_map (zip ks vs) ∪ sp_kv s) (sp_prepared s)
  | OpBatchGet _ | OpGetRange _ _ | OpGetProof _ | OpGetAudit _ => s
  end.
Definition spec_ops (s : spec) (ops : list occ_op) : spec := foldl spec_op s ops.

(** [Load] is given a list of distinct keys with a value each. *)
Definition op_ok (op : occ_op) : Prop :=
  match op with OpLoad ks vs _ => length ks = length vs ∧ NoDup ks | _ => True end.

(** ** Refinement *)

(** The calls in a sequence of binds that ends in [Done]. *)
Ltac bind_inv H :=
  repeat match type of H with
  | mbind _ ?m = Done _ =>
      let E := fresh "E" in
      destruct m as [[]|] eqn:E; cbn [mbind outcome_bind] in H; [|discriminate H]
  end.

Section Refinement.
Context `{IterOrderLaws, KVSpecLaws V}.
Implicit Types o : OCCStore V.

Definition abs o : spec := mkSpec (kv_map (store o)) (prepared o).

Lemma foldl_union_singleton {A} (l : list (bytes * A)) (X : gset bytes) :
foldl (λ X e, X ∪ {[e.1]}) X l = X ∪ list_to_set l.*1.
Proof.
revert X. induction l as [|e l IH]; intros X; cbn; [set_solver|]. rewrite IH. set_solver.
Qed.

Lemma list_to_set_iter {A} (m : gmap bytes A) : list_to_set (iter_order m).*1 = dom m.
Proof. apply set_eq. intros k. by rewrite elem_of_list_to_set, elem_of_iter_keys. Qed.

Lemma elem_of_prepared_writes o k :
k ∈ getPreparedWrites o ↔ ∃ id u, prepared o !! id = Some u ∧ k ∈ writes u.
Proof.
unfold getPreparedWrites. apply (map_fold_weak_ind
  (λ X m, k ∈ X ↔ ∃ id u, m !! id = Some u ∧ k ∈ writes u)).
- split; [set_solver|]. intros (id & u & Hu & _). by rewrite lookup_empty in Hu.
- intros id u m X Hid IH. rewrite foldl_union_singleton, list_to_set_iter, elem_of_union, IH.
  split.
  + intros [(id' & u' & Hu & Hk)|Hk]; [|exists id, u; by rewrite lookup_insert_eq].
    exists id', u'. rewrite lookup_insert_ne by congruence. done.
  + intros (id' & u' & [[-> ->]|[Hne Hu]]%lookup_insert_Some & Hk); eauto.
Qed.

Lemma elem_of_prepared_rw o k :
k ∈ getPreparedReadWrites o ↔ ∃ id u, prepared o !! id = Some u ∧ k ∈ writes u ∪ reads u.
Proof.
unfold getPreparedReadWrites. apply (map_fold_weak_ind
  (λ X m, k ∈ X ↔ ∃ id u, m !! id = Some u ∧ k ∈ writes u ∪ reads u)).
- split; [set_solver|]. intros (id & u & Hu & _). by rewrite lookup_empty in Hu.
- intros id u m X Hid IH.
  rewrite !foldl_union_singleton, !list_to_set_iter, <-(assoc_L (∪)), elem_of_union, IH.
  split.
  + intros [(id' & u' & Hu & Hk)|Hk]; [|exists id, u; by rewrite lookup_insert_eq].
    exists id', u'. rewrite lookup_insert_ne by congruence. done.
  + intros (id' & u' & [[-> ->]|[Hne Hu]]%lookup_insert_Some & Hk); eauto.
Qed.

Lemma existsb_iter {A} (m : gmap bytes A) (X : gset bytes) :
existsb (λ e, bool_decide (e.1 ∈ X)) (iter_order m) = false ↔ dom m ## X.
Proof.
rewrite <-not_true_iff_false, existsb_exists. split.
- intros Hn k [x Hk]%elem_of_dom HX. apply Hn. exists (k, x). split.
  + by apply list_elem_of_In, elem_of_iter.
  + by apply bool_decide_eq_true.
- intros Hd ([k x] & Hin%list_elem_of_In%elem_of_iter & HX%bool_decide_eq_true).
  apply (Hd k); [by eapply elem_of_dom_2|done].
Qed.

Lemma admissible_alt o txn :
admissible (prepared o) txn
↔ reads txn ## getPreparedWrites o ∧ writes txn ## getPreparedReadWrites o.
Proof.
split.
- intros Ha. split; intros k Hk.
  + intros (id & u & Hu & Hk')%elem_of_prepared_writes. apply Ha in Hu as [Hu _]. by apply (Hu k).
  + intros (id & u & Hu & Hk')%elem_of_prepared_rw. apply Ha in Hu as [_ Hu]. by apply (Hu k).
- intros [Hr Hw] id u Hu. split; intros k Hk Hk'.
  + apply (Hr k Hk), elem_of_prepared_writes. eauto.
  + apply (Hw k Hk), elem_of_prepared_rw. eauto.
Qed.

(** [Prepare] in terms of the machine. *)
Lemma Prepare_decides o id txn :
Prepare o id txn
= if decide (is_Some (prepared o !! id)) then (REPLY_OK, o)
  else if decide (admissible (prepared o) txn)
       then (REPLY_OK, mkOCCStore (store o) (<[id := txn]> (prepared o)))
       else (REPLY_FAIL, o).
Proof.
unfold Prepare. destruct (prepared o !! id) eqn:Hid.
{ rewrite decide_True; [done|eauto]. }
rewrite decide_False by (by intros []).
assert (Abort o id Transaction.empty = o) as Habort.
{ unfold Abort. rewrite delete_id by done. by destruct o. }
rewrite Habort.
destruct (existsb _ (iter_order (Transaction.readSet txn))) eqn:Er.
- rewrite decide_False; [done|]. intros [Hr _]%admissible_alt.
  apply existsb_iter in Hr. congruence.
- destruct (existsb _ (iter_order (Transaction.writeSet txn))) eqn:Ew.
  + rewrite decide_False; [done|]. intros [_ Hw]%admissible_alt.
    apply existsb_iter in Hw. congruence.
  + rewrite decide_True; [done|]. apply admissible_alt. unfold reads, writes. by rewrite <-!existsb_iter.
Qed.

Lemma put_iter (s s' : V) (m : gmap bytes bytes) t r r' :
vs_put s (iter_order m).*1 (iter_order m).*2 t r = Done (s', r') → kv_map s' = m ∪ kv_map s.
Proof.
intros Hp. apply kv_put in Hp; [|by rewrite !length_fmap|apply iter_NoDup].
rewrite Hp. f_equal. rewrite zip_fst_snd. apply list_to_map_iter.
Qed.

Ltac kv_steps :=
  repeat match goal with
  | E : vs_GetDigest _ _ = Done _ |- _ => apply kv_GetDigest in E
  | E : vs_BatchGet _ _ _ = Done _ |- _ => apply kv_BatchGet in E
  | E : vs_GetNVersions _ _ _ = Done _ |- _ => apply kv_GetNVersions in E
  | E : vs_GetRange _ _ _ _ = Done _ |- _ => apply kv_GetRange in E
  | E : vs_GetProof _ _ _ = Done _ |- _ => apply kv_GetProof in E
  | E : vs_GetAudit _ _ _ = Done _ |- _ => apply kv_GetAudit in E
  | E : vs_put _ (iter_order _).*1 _ _ _ = Done _ |- _ => apply put_iter in E
  end.

Lemma Commit_plain_abs o id ts r o' r' :
Commit_plain o id ts r = Done (o', r') → abs o' = spec_op (abs o) (OpCommit id ts).
Proof.
unfold Commit_plain. intros Hc. bind_inv Hc. simplify_eq. kv_steps.
unfold abs. cbn. congruence.
Qed.

Lemma Commit_versions_abs o id ts ks r o' r' :
Commit_versions o id ts ks r = Done (o', r') →
is_Some (prepared o !! id) ∧ abs o' = spec_op (abs o) (OpCommitVersions id ts ks).
Proof.
unfold Commit_versions. intros Hc.
destruct (ASSERT _) as [[]|] eqn:HA; [|discriminate Hc]. rewrite bind_Done in Hc.
split.
{ unfold ASSERT in HA. case_bool_decide; [done|discriminate HA]. }
set (txn := default Transaction.empty (prepared o !! id)) in *.
bind_inv Hc. simplify_eq.
assert (kv_map v0 = kv_map v) as E0'
  by (destruct (0 <? length (iter_order (Transaction.readSet txn)).*1)%nat; [by kv_steps|by simplify_eq]).
assert (kv_map v1 = kv_map v0) as E1'
  by (destruct (0 <? length ks)%nat; [by kv_steps|by simplify_eq]).
assert (kv_map v2 = Transaction.writeSet txn ∪ kv_map v1) as E2'.
{ destruct (Nat.ltb_spec 0 (length (iter_order (Transaction.writeSet txn)).*1)) as [Hl|Hl].
  - bind_inv E2. simplify_eq. by kv_steps.
  - simplify_eq. replace (Transaction.writeSet txn) with (∅ : gmap bytes bytes).
    { by rewrite (left_id_L ∅ (∪)). }
    symmetry. apply dom_empty_inv_L, set_eq. intros k. split; [|set_solver].
    intros Hk. apply elem_of_iter_keys in Hk.
    destruct (iter_order (Transaction.writeSet txn)).*1; [set_solver|cbn in Hl; lia]. }
kv_steps. unfold abs. cbn. fold txn. congruence.
Qed.

(** The calls that only read. *)
Ltac reading H :=
  repeat match type of H with
  | context [mbind _ ?m] =>
      let E := fresh "E" in
      destruct m as [[]|] eqn:E; cbn [mbind outcome_bind fmap outcome_fmap] in H; [|discriminate H]
  end; simplify_eq/=.

Lemma run_op_reads o op o' :
match op with OpBatchGet _ | OpGetRange _ _ | OpGetProof _ | OpGetAudit _ => True | _ => False end →
run_op o op = Done o' → kv_map (store o') = kv_map (store o) ∧ prepared o' = prepared o.
Proof.
destruct op; cbn [run_op]; try done; intros _ Hr.
- unfold BatchGet in Hr. reading Hr. kv_steps. split; congruence.
- unfold GetRange in Hr. reading Hr. kv_steps. split; congruence.
- unfold GetProof in Hr. reading Hr. kv_steps. split; congruence.
- unfold GetProof_seq in Hr. reading Hr. kv_steps. split; congruence.
Qed.

Lemma run_op_abs o op o' : op_ok op → run_op o op = Done o' → abs o' = spec_op (abs o) op.
Proof.
destruct op; intros Hok Hr;
  try (apply run_op_reads in Hr as [Hk Hp]; [unfold abs; cbn; by rewrite Hk, Hp|done]);
  cbn [run_op op_ok] in Hok, Hr.
- simplify_eq. rewrite Prepare_decides. cbn.
  destruct (prepared o !! id) eqn:Hid.
  { rewrite decide_True by eauto. by rewrite decide_False by naive_solver. }
  rewrite decide_False by (by intros []).
  destruct (decide (admissible _ _)); [by rewrite decide_True|by rewrite decide_False by naive_solver].
- by simplify_eq.
- destruct (Commit_plain _ _ _ _) as [[o1 r1]|] eqn:E; [|discriminate Hr].
  cbn in Hr. simplify_eq. by eapply Commit_plain_abs.
- destruct (Commit_versions _ _ _ _ _) as [[o1 r1]|] eqn:E; [|discriminate Hr].
  cbn in Hr. simplify_eq. by eapply Commit_versions_abs.
- unfold Load in Hr. bind_inv Hr. simplify_eq. destruct Hok.
  apply kv_put in E; [|done..]. unfold abs. cbn. congruence.
Qed.
End Refinement.

(** ** The machine isolates prepared transactions *)

Definition conflict_free (ts : gmap N Transaction.t) : Prop :=
  ∀ i j t u, i ≠ j → ts !! i = Some t → ts !! j = Some u → compatible t u.

Lemma conflict_free_delete ts id : conflict_free ts → conflict_free (delete id ts).
Proof. intros Hc i j t u Hij [_ Hi]%lookup_delete_Some [_ Hj]%lookup_delete_Some. by eapply Hc. Qed.

Lemma conflict_free_insert ts id txn :
  conflict_free ts → admissible ts txn → conflict_free (<[id := txn]> ts).
Proof.
  intros Hc Ha i j t u Hij [[-> ->]|[_ Hi]]%lookup_insert_Some [[-> ->]|[_ Hj]]%lookup_insert_Some.
  - done.
  - by eapply Ha.
  - symmetry. by eapply Ha.
  - by eapply Hc.
Qed.

Lemma spec_op_conflict_free s op :
  conflict_free (sp_prepared s) → conflict_free (sp_prepared (spec_op s op)).
Proof.
  destruct op; cbn; intros Hc; auto using conflict_free_delete.
  case_decide as Hd; [|done]. destruct Hd. by apply conflict_free_insert.
Qed.

(** Calls that leave transaction [id] prepared and write no key directly. *)
Definition leaves (id : N) (op : occ_op) : Prop :=
  match op with
  | OpAbort i _ | OpCommit i _ | OpCommitVersions i _ _ => i ≠ id
  | OpLoad _ _ _ => False
  | _ => True
  end.

Lemma spec_op_isolated s op id t :
  conflict_free (sp_prepared s) → sp_prepared s !! id = Some t → leaves id op →
  sp_prepared (spec_op s op) !! id = Some t ∧
  ∀ k, k ∈ reads t ∪ writes t → sp_kv (spec_op s op) !! k = sp_kv s !! k.
Proof.
  intros Hc Hid Hop.
  assert (∀ i k, i ≠ id → k ∈ reads t ∪ writes t →
    (Transaction.writeSet (default Transaction.empty (sp_prepared s !! i)) ∪ sp_kv s) !! k
    = sp_kv s !! k) as Hcommit.
  { intros i k Hi Hk. apply lookup_union_r, not_elem_of_dom.
    destruct (sp_prepared s !! i) as [u|] eqn:Hu; [|set_solver].
    destruct (Hc id i t u) as [Hr Hw]; [done..|]. cbn. unfold writes, reads in *. set_solver. }
  destruct op; cbn in *; try done.
  - case_decide as Hd; [|done]. cbn. split; [|done]. destruct Hd as [Hn _].
    by rewrite lookup_insert_ne by congruence.
  - by rewrite lookup_delete_ne.
  - split; [by rewrite lookup_delete_ne|auto].
  - split; [by rewrite lookup_delete_ne|auto].
Qed.

Section Properties.
Context `{IterOrderLaws, KVSpecLaws V}.
Implicit Types o : OCCStore V.

Lemma run_ops_abs o ops o' :
Forall op_ok ops → run_ops o ops = Done o' → abs o' = spec_ops (abs o) ops.
Proof.
intros HF. revert o. induction HF as [|op ops Hop _ IH]; intros o Hr; cbn in Hr.
{ by simplify_eq. }
destruct (run_op o op) as [o1|] eqn:E; [|discriminate Hr]. cbn in Hr.
apply run_op_abs in E; [|done]. apply IH in Hr. cbn. by rewrite <-E.
Qed.

Lemma run_op_prepared o op o' :
run_op o op = Done o' → conflict_free (prepared o) → conflict_free (prepared o').
Proof.
destruct op; intros Hr Hc;
  try (apply run_op_reads in Hr as [_ Hp]; [by rewrite Hp|done]); cbn [run_op] in Hr.
- simplify_eq. rewrite Prepare_decides. case_decide; [done|].
  case_decide; [by apply conflict_free_insert|done].
- simplify_eq. by apply conflict_free_delete.
- destruct (Commit_plain _ _ _ _) as [[o1 r1]|] eqn:E; [|discriminate Hr]. cbn in Hr. simplify_eq.
  apply Commit_plain_abs, (f_equal sp_prepared) in E. cbn in E. rewrite E.
  by apply conflict_free_delete.
- destruct (Commit_versions _ _ _ _ _) as [[o1 r1]|] eqn:E; [|discriminate Hr]. cbn in Hr.
  simplify_eq. apply Commit_versions_abs in E as [_ E]. apply (f_equal sp_prepared) in E.
  cbn in E. rewrite E. by apply conflict_free_delete.
- unfold Load in Hr. bind_inv Hr. by simplify_eq.
Qed.

(** Whatever calls a shard serves, no two prepared transactions conflict:
    a key that one of them writes is neither read nor written by another. *)
Theorem prepared_conflict_free o ops o' :
conflict_free (prepared o) → run_ops o ops = Done o' → conflict_free (prepared o').
Proof.
revert o. induction ops as [|op ops IH]; intros o Hc Hr; cbn in Hr; [by simplify_eq|].
destruct (run_op o op) as [o1|] eqn:E; [|discriminate Hr]. cbn in Hr.
by eapply IH; [eapply run_op_prepared|].
Qed.

(** C18.  Isolation: from the moment a transaction is prepared until it is
    committed or aborted, nothing the shard serves changes the value of a key
    it reads or writes.  The start-up [Load] is left out: it puts keys without
    looking at the prepared transactions. *)
Theorem prepared_isolated o ops o' id t :
conflict_free (prepared o) → prepared o !! id = Some t → Forall (leaves id) ops →
run_ops o ops = Done o' →
prepared o' !! id = Some t ∧
∀ k, k ∈ reads t ∪ writes t → kv_map (store o') !! k = kv_map (store o) !! k.
Proof.
intros Hc Hid HF Hr.
assert (Forall op_ok ops) as Hok by (eapply Forall_impl; [done|by intros []]).
apply run_ops_abs in Hr; [|done].
change (prepared o' !! id) with (sp_prepared (abs o') !! id).
change (kv_map (store o')) with (sp_kv (abs o')). change (kv_map (store o)) with (sp_kv (abs o)).
rewrite Hr. clear Hr o' Hok. revert Hc Hid.
change (prepared o) with (sp_prepared (abs o)). generalize (abs o) as s.
induction HF as [|op ops Hop HF IH]; intros s Hc Hid; [done|].
destruct (spec_op_isolated s op id t) as [Hid' Hk]; [done..|].
destruct (IH (spec_op s op)) as [Hid'' Hk'']; [by apply spec_op_conflict_free|done|].
split; [done|]. intros k Hkk. cbn. by rewrite Hk'', Hk.
Qed.

(** C19.  The shard refines the machine: after any calls, its latest values and
    its prepared transactions are those of the machine, in which a commit
    writes exactly the write set that was prepared. *)
Theorem occ_refines o ops o' :
Forall op_ok ops → run_ops o ops = Done o' →
kv_map (store o') = sp_kv (spec_ops (mkSpec (kv_map (store o)) (prepared o)) ops) ∧
prepared o' = sp_prepared (spec_ops (mkSpec (kv_map (store o)) (prepared o)) ops).
Proof.
intros Hok Hr. apply run_ops_abs in Hr; [|done]. unfold abs in Hr.
split; [exact (f_equal sp_kv Hr)|exact (f_equal sp_prepared Hr)].
Qed.

(** [Prepare] fails exactly when the transaction is not yet prepared and a
    prepared one conflicts with it, and then changes nothing; the commit that
    asks for versions stops on its assertion when the transaction is not
    prepared. *)
Theorem Prepare_exact o id txn :
((Prepare o id txn).1 = REPLY_FAIL
 ↔ prepared o !! id = None ∧ ¬ admissible (prepared o) txn) ∧
((Prepare o id txn).1 = REPLY_FAIL → (Prepare o id txn).2 = o) ∧
((Prepare o id txn).1 = REPLY_OK → is_Some (prepared (Prepare o id txn).2 !! id)) ∧
∀ ts ks r, prepared o !! id = None → Commit_versions o id ts ks r = Stop Panicked.
Proof.
rewrite Prepare_decides. split; [|split; [|split]].
- case_decide as Hs; [split; [done|]; intros [Hn _]; rewrite Hn in Hs; by destruct Hs|].
  apply eq_None_not_Some in Hs. case_decide; naive_solver.
- case_decide; [done|]. by case_decide.
- case_decide; [done|]. case_decide; [|done]. cbn. rewrite lookup_insert_eq. eauto.
- intros ts ks r Hn. unfold Commit_versions. rewrite Hn. rewrite bool_decide_false by (by intros []).
  reflexivity.
Qed.

(** The times at which a transaction read are never checked: [Prepare]
    answers the same for any other read times, and of two transactions that read
    a key at the same time and write it, the second is still accepted after the
    first has committed, so that the first update is lost. *)
Theorem lost_update o id1 id2 k time v1 v2 ts r o' r' :
let t v := Transaction.mk {[k := time]} {[k := v]} in
prepared o = ∅ → id1 ≠ id2 →
Commit_plain (Prepare o id1 (t v1)).2 id1 ts r = Done (o', r') →
(Prepare o id1 (t v1)).1 = REPLY_OK ∧ kv_map (store o') !! k = Some v1 ∧
(∀ time', (Prepare o' id2 (Transaction.mk {[k := time']} {[k := v2]})).1 = REPLY_OK) ∧
∀ ts r o'' r'', Commit_plain (Prepare o' id2 (t v2)).2 id2 ts r = Done (o'', r'') →
  kv_map (store o'') !! k = Some v2.
Proof.
intros t Ho Hne Hc. subst t. cbn in Hc |- *.
assert (∀ (o : OCCStore V) id txn, prepared o = ∅ →
  Prepare o id txn = (REPLY_OK, mkOCCStore (store o) {[id := txn]})) as HP.
{ intros o1 id txn H1'. rewrite Prepare_decides, H1'. rewrite decide_False by (by intros []).
  rewrite decide_True; [done|]. intros i u Hu. by rewrite lookup_empty in Hu. }
rewrite HP in Hc |- * by done. cbn in Hc.
apply Commit_plain_abs in Hc. pose proof (f_equal sp_prepared Hc) as Hp.
apply (f_equal sp_kv) in Hc. cbn in Hp, Hc.
rewrite lookup_singleton_eq in Hc. cbn in Hc. rewrite delete_singleton_eq in Hp.
split; [done|]. split; [rewrite Hc; by apply lookup_union_Some_l, lookup_singleton_eq|].
split; [intros time'; by rewrite HP|].
intros ts' r1 o'' r'' Hc'. rewrite HP in Hc' by done. cbn in Hc'.
apply Commit_plain_abs, (f_equal sp_kv) in Hc'. cbn in Hc'. rewrite Hc'.
rewrite lookup_singleton_eq. cbn. by apply lookup_union_Some_l, lookup_singleton_eq.
Qed.
End Properties.

(** ** Any store with the map it was given

    [KVSpec] asks for a map that only [put] changes.  Every versioned store has
    one: the store together with the pairs put so far.  The pairs are ghost
    state, since each call of a shard gives the same results without them. *)

Record recorded (V : Type) := mkRecorded { rec_store : V; rec_map : gmap bytes bytes }.
Arguments mkRecorded {V} _ _.
Arguments rec_store {V} _.
Arguments rec_map {V} _.

Section Recorded.
Context `{VersionedKVStore V}.

(** The result of a call on the store, with the map [m]. *)
Definition record {A : Type} (m : gmap bytes bytes) (x : outcome (V * A)) : outcome (recorded V * A) :=
(λ x, (mkRecorded x.1 m, x.2)) <$> x.

#[export] Instance recorded_VersionedKVStore : VersionedKVStore (recorded V) := {|
  vs_GetDigest s r := record (rec_map s) (vs_GetDigest (rec_store s) r);
  vs_BatchGet s ks r := record (rec_map s) (vs_BatchGet (rec_store s) ks r);
  vs_GetNVersions s ks r := record (rec_map s) (vs_GetNVersions (rec_store s) ks r);
  vs_GetRange s a b r := record (rec_map s) (vs_GetRange (rec_store s) a b r);
  vs_GetProof s ks r := record (rec_map s) (vs_GetProof (rec_store s) ks r);
  vs_GetAudit s n r := record (rec_map s) (vs_GetAudit (rec_store s) n r);
  vs_put s ks vs t r := record (list_to_map (zip ks vs) ∪ rec_map s) (vs_put (rec_store s) ks vs t r);
|}.
#[export] Instance recorded_KVSpec : KVSpec (recorded V) := {| kv_map := rec_map |}.

Lemma record_Done {A : Type} m (x : outcome (V * A)) s r : record m x = Done (s, r) → rec_map s = m.
Proof. unfold record. destruct x as [[]|]; cbn; intros E; by simplify_eq/=. Qed.

#[export] Instance recorded_KVSpecLaws : KVSpecLaws (recorded V).
Proof. split; cbn; intros; eapply record_Done; eassumption. Qed.

Definition erase (o : OCCStore (recorded V)) : OCCStore V := mkOCCStore (rec_store (store o)) (prepared o).

(** A call of the shard on the recorded store is the call on the store. *)
Lemma run_op_erase `{IterOrder} o op : erase <$> run_op o op = run_op (erase o) op.
Proof.
destruct op; cbn [run_op].
1,2: unfold Prepare, getPreparedWrites, getPreparedReadWrites, Abort, erase; cbn; by repeat case_match.
all: unfold Commit_plain, Commit_versions, Load, BatchGet, GetRange, GetProof, GetProof_seq; cbn.
all: unfold record, erase; cbn.
all: repeat (progress cbn || match goal with
  | |- context [vs_GetDigest (V := V) ?s ?r] => destruct (vs_GetDigest s r) as [[]|]
  | |- context [vs_put (V := V) ?s ?a ?b ?t ?r] => destruct (vs_put s a b t r) as [[]|]
  | |- context [vs_BatchGet (V := V) ?s ?a ?r] => destruct (vs_BatchGet s a r) as [[]|]
  | |- context [vs_GetNVersions (V := V) ?s ?a ?r] => destruct (vs_GetNVersions s a r) as [[]|]
  | |- context [vs_GetRange (V := V) ?s ?a ?b ?r] => destruct (vs_GetRange s a b r) as [[]|]
  | |- context [vs_GetProof (V := V) ?s ?a ?r] => destruct (vs_GetProof s a r) as [[]|]
  | |- context [vs_GetAudit (V := V) ?s ?a ?r] => destruct (vs_GetAudit s a r) as [[]|]
  | |- context [ASSERT ?b] => destruct (ASSERT b) as [[]|]
  | |- context [if ?b then _ else _] => destruct b
  end); try done.
Qed.

(** So a run on any store is the run of a recorded store, of which the theorems
above speak. *)
Theorem run_ops_erase `{IterOrder} o ops : erase <$> run_ops o ops = run_ops (erase o) ops.
Proof.
revert o. induction ops as [|op ops IH]; intros o; [done|]. cbn [run_ops].
rewrite <-run_op_erase. destruct (run_op o op) as [o1|]; cbn; [apply IH|done].
Qed.
End Recorded.

(** ** A store for the witnesses *)

#[export] Instance map_VersionedKVStore : VersionedKVStore (gmap bytes bytes) := {|
  vs_GetDigest s r := Done (s, r);
  vs_BatchGet s ks r :=
    Done (s, add_values r ((λ k, mkKV k (default [] (s !! k)) 0) <$> ks));
  vs_GetNVersions s _ r := Done (s, r);
  vs_GetRange s _ _ r := Done (s, r);
  vs_GetProof s _ r := Done (s, r);
  vs_GetAudit s _ r := Done (s, r);
  vs_put s ks vs _ r := Done (list_to_map (zip ks vs) ∪ s, r);
|}.
#[export] Instance map_KVSpec : KVSpec (gmap bytes bytes) := {| kv_map s := s |}.
#[export] Instance map_KVSpecLaws : KVSpecLaws (gmap bytes bytes).
Proof. split; intros; cbn in *; by simplify_eq. Qed.

Definition no_occ : OCCStore (gmap bytes bytes) := mkOCCStore ∅ ∅.
Definition txn_xy : Transaction.t :=
  Transaction.mk {[#"x" := Timestamp.default]} {[#"y" := #"1"]}.
Definition txn_z : Transaction.t := Transaction.mk ∅ {[#"z" := #"2"]}.
Definition some_calls : list occ_op :=
  [OpPrepare 2 txn_z; OpBatchGet [ #"x"]; OpCommitVersions 2 7 []].

Lemma no_conflict : conflict_free ∅.
Proof. intros i j t u _ Hi. by rewrite lookup_empty in Hi. Qed.
Lemma one_conflict id t : conflict_free {[id := t]}.
Proof.
  intros i j u w Hij [<- _]%lookup_singleton_Some [<- _]%lookup_singleton_Some. done.
Qed.

Definition conflicting_calls : list occ_op :=
  OpPrepare 1 txn_xy :: OpPrepare 3 txn_xy :: some_calls.

Lemma prepared_conflict_free_witness :
  ∃ o, run_ops no_occ conflicting_calls = Done o ∧ conflict_free (prepared o).
Proof.
  destruct (is_done_Done (run_ops no_occ conflicting_calls)) as [o E]; [vm_compute; reflexivity|].
  exists o. split; [exact E|].
  exact (prepared_conflict_free no_occ conflicting_calls o no_conflict E).
Defined.

Lemma prepared_isolated_witness :
  ∃ o, run_ops (mkOCCStore ∅ {[1%N := txn_xy]}) some_calls = Done o ∧
    prepared o !! 1%N = Some txn_xy ∧ kv_map (store o) !! #"y" = (∅ : gmap bytes bytes) !! #"y".
Proof.
  destruct (is_done_Done (run_ops (mkOCCStore ∅ {[1%N := txn_xy]}) some_calls)) as [o E];
    [vm_compute; reflexivity|].
  exists o. split; [exact E|].
  destruct (prepared_isolated (mkOCCStore ∅ {[1%N := txn_xy]}) some_calls o 1 txn_xy) as [Hp Hk].
  - apply one_conflict.
  - reflexivity.
  - repeat constructor; discriminate.
  - exact E.
  - split; [exact Hp|]. apply Hk. set_solver.
Defined.

Definition load_and_calls : list occ_op :=
  OpLoad [ #"a"] [ #"0"] Timestamp.default :: some_calls.

Lemma occ_refines_witness :
  ∃ o, run_ops no_occ load_and_calls = Done o ∧ kv_map (store o) !! #"z" = Some #"2".
Proof.
  destruct (is_done_Done (run_ops no_occ load_and_calls)) as [o E]; [vm_compute; reflexivity|].
  exists o. split; [exact E|].
  assert (Forall op_ok load_and_calls) as Hok
    by (repeat constructor; intros ?%elem_of_nil; done).
  rewrite (proj1 (occ_refines no_occ load_and_calls o Hok E)). vm_compute. reflexivity.
Defined.

Lemma Prepare_exact_witness :
  (Prepare no_occ 1 txn_z).1 = REPLY_OK ∧ is_Some (prepared (Prepare no_occ 1 txn_z).2 !! 1%N).
Proof.
  split; [reflexivity|]. apply (Prepare_exact no_occ 1 txn_z). reflexivity.
Defined.

Definition incr (v : bytes) : Transaction.t :=
  Transaction.mk {[#"x" := Timestamp.default]} {[#"x" := v]}.

Lemma lost_update_witness :
  ∃ o r, Commit_plain (Prepare no_occ 1 (incr #"1")).2 1 5 empty_reply = Done (o, r) ∧
    (Prepare o 2 (incr #"2")).1 = REPLY_OK.
Proof.
  destruct (is_done_Done (Commit_plain (Prepare no_occ 1 (incr #"1")).2 1 5 empty_reply))
    as [[o r] E]; [vm_compute; reflexivity|].
  exists o, r. split; [exact E|].
  exact (proj1 (proj2 (proj2 (lost_update no_occ 1 2 #"x" Timestamp.default #"1" #"2" 5 empty_reply
    o r eq_refl ltac:(discriminate) E))) Timestamp.default).
Defined.
