(* ===== verification/StoreCommon.v ===== *)
(** * [store/common]: the clock, the stack store, promises and sharding

    [truetime.cc], [backend/kvstore.cc], [promise.cc] and the hash of
    [frontend/client.h] that spreads the keys over the shards. *)

From S2P Require Import Prelude Cpp Txn Reply.

Open Scope Z_scope.

(** ** The simulated TrueTime clock *)

Module TrueTime.
Record t := mk { simError : N; simSkew : N }.

(** [TrueTime()] and [TrueTime(skew, errorBound)]; [r] is the result of
[rand()]. *)
Definition default : t := mk 0 0.
Definition create (r skew errorBound : N) : t :=
  mk errorBound
    (if (skew =? 0)%N then 0%N else u64 (r mod skew + (2 ^ 64 - skew / 2))%N).

(** [struct timeval], as [gettimeofday] fills it. *)
Record timeval := mkTimeval { tv_sec : Z; tv_usec : Z }.

(** The carry of one second in either direction. *)
Definition carry (now : timeval) : timeval :=
  if 999999 <? tv_usec now then mkTimeval (tv_sec now + 1) (tv_usec now - 1000000)
  else if tv_usec now <? 0 then mkTimeval (tv_sec now - 1) (tv_usec now + 1000000)
  else now.

(** [GetTime]: [tv_usec] is a signed [long], [simSkew] an unsigned one. *)
Definition GetTime (x : t) (now : timeval) : N :=
  let now := carry (mkTimeval (tv_sec now)
               (int64 (u64 (uint64 (tv_usec now) + simSkew x)%N))) in
  N.lor (u64 (N.shiftl (uint64 (tv_sec now)) 32)) (uint64 (tv_usec now)).

Definition GetTimeAndError (x : t) (now : timeval) : N * N := (GetTime x now, simError x).

(** The clock reading in microseconds, the skew as a signed number. *)
Definition micros (now : timeval) : Z := tv_sec now * 1000000 + tv_usec now.
Definition skew_of (x : t) : Z := int64 (simSkew x).

Definition valid (now : timeval) : Prop :=
  0 < tv_sec now < 2 ^ 31 ∧ 0 <= tv_usec now < 1000000.

Lemma wrap_add (a : Z) (s : N) :
  0 <= a < 1000000 → (s < 2 ^ 64)%N → -1000000 <= int64 s <= 1000000 →
  int64 (u64 (uint64 a + s)%N) = a + int64 s.
Proof.
  intros Ha Hs. unfold uint64. rewrite Z.mod_small by lia.
  rewrite int64_u64. unfold int64. rewrite (u64_small s) by done. unfold u64.
  destruct (N.ltb_spec s (2 ^ 63)); intros Hb.
  - rewrite N.mod_small by lia. destruct (N.ltb_spec (Z.to_N a + s) (2 ^ 63)); lia.
  - assert (Z.of_N s >= 2 ^ 64 - 1000000) by lia.
    destruct (Z.ltb_spec (a + (Z.of_N s - 2 ^ 64)) 0).
    + rewrite N.mod_small by lia. destruct (N.ltb_spec (Z.to_N a + s) (2 ^ 63)); lia.
    + replace (Z.to_N a + s)%N with (Z.to_N (a + (Z.of_N s - 2 ^ 64)) + 1 * 2 ^ 64)%N by lia.
      rewrite N.Div0.mod_add, N.mod_small by lia.
      destruct (N.ltb_spec (Z.to_N (a + (Z.of_N s - 2 ^ 64))) (2 ^ 63)); lia.
Qed.

(** The reading is the seconds and the microseconds of the skewed clock. *)
Lemma GetTime_value x now :
  valid now → (simSkew x < 2 ^ 64)%N → -1000000 <= skew_of x <= 1000000 →
  let m := micros now + skew_of x in
  Z.of_N (GetTime x now) = m / 1000000 * 2 ^ 32 + m mod 1000000.
Proof.
  intros [Hsec Hus] Hs Hsk m. unfold GetTime. rewrite wrap_add by done.
  assert (∀ q r, 0 <= q < 2 ^ 32 → 0 <= r < 1000000 → m = q * 1000000 + r →
    Z.of_N (N.lor (u64 (N.shiftl (uint64 q) 32)) (uint64 r))
    = m / 1000000 * 2 ^ 32 + m mod 1000000) as Hgo.
  { intros q r Hq Hr ->. rewrite Z.div_add_l, Z.div_small, Z.add_0_r by lia.
    rewrite (Z.add_comm (q * 1000000)), Z.mod_add, (Z.mod_small r) by lia.
    unfold uint64. rewrite !Z.mod_small by lia.
    rewrite N.shiftl_mul_pow2, u64_small by lia.
    rewrite <-N.shiftl_mul_pow2. rewrite N.lor_comm.
    assert (N.land (Z.to_N r) (N.shiftl (Z.to_N q) 32) = 0)%N as Hl.
    { apply N.bits_inj_iff. intros i. rewrite N.land_spec, N.bits_0.
      destruct (N.lt_ge_cases i 32) as [Hi|Hi].
      - by rewrite N.shiftl_spec_low, andb_false_r.
      - destruct (decide (Z.to_N r = 0%N)) as [->|Hr0]; [by rewrite N.bits_0|].
        rewrite (N.bits_above_log2 (Z.to_N r)); [done|].
        apply N.log2_lt_pow2; [lia|]. apply N.lt_le_trans with (2 ^ 32)%N; [lia|].
        by apply N.pow_le_mono_r. }
    rewrite <-N.lxor_lor, <-N.add_nocarry_lxor by done.
    rewrite N.shiftl_mul_pow2. lia. }
  unfold carry. cbn [tv_sec tv_usec]. unfold micros, skew_of in *.
  destruct (Z.ltb_spec 999999 (tv_usec now + int64 (simSkew x))); cbn [tv_sec tv_usec].
  { apply Hgo; lia. }
  destruct (Z.ltb_spec (tv_usec now + int64 (simSkew x)) 0); cbn [tv_sec tv_usec]; apply Hgo; lia.
Qed.

(** With a skew of at most a second either way, later readings of the clock
    are later timestamps, and equal timestamps are equal readings. *)
Theorem GetTime_monotone x now now' :
  valid now → valid now' → (simSkew x < 2 ^ 64)%N → -1000000 <= skew_of x <= 1000000 →
  (GetTime x now < GetTime x now')%N ↔ micros now < micros now'.
Proof.
  intros Hn Hn' Hs Hsk.
  pose proof (GetTime_value x now Hn Hs Hsk) as E.
  pose proof (GetTime_value x now' Hn' Hs Hsk) as E'. cbn zeta in E, E'.
  rewrite N2Z.inj_lt, E, E'.
  pose proof (Z.div_mod (micros now + skew_of x) 1000000 ltac:(lia)).
  pose proof (Z.div_mod (micros now' + skew_of x) 1000000 ltac:(lia)).
  pose proof (Z.mod_pos_bound (micros now + skew_of x) 1000000 ltac:(lia)).
  pose proof (Z.mod_pos_bound (micros now' + skew_of x) 1000000 ltac:(lia)).
  generalize dependent ((micros now + skew_of x) mod 1000000).
  generalize dependent ((micros now' + skew_of x) mod 1000000).
  generalize dependent ((micros now + skew_of x) / 1000000).
  generalize dependent ((micros now' + skew_of x) / 1000000). intros; nia.
Qed.

Lemma GetTime_monotone_witness :
  let x := create 3 10 5 in
  (GetTime x (mkTimeval 100 0) < GetTime x (mkTimeval 100 1))%N.
Proof.
  apply GetTime_monotone; [split; cbn; lia|split; cbn; lia|reflexivity|split; vm_compute; discriminate|].
  reflexivity.
Defined.
End TrueTime.

(** ** [KVStore]: a stack of versions per key *)

Module KVStore.
Abbreviation t := (gmap bytes (list bytes)).

Definition get (store : t) (key : bytes) : option bytes :=
  match store !! key with
  | Some (v :: l) => last (v :: l)
  | _ => None
  end.

Definition put (store : t) (key value : bytes) : t :=
  <[key := default [] (store !! key) ++ [value]]> store.

(** [remove] pops the latest version; its out parameter is not set. *)
Definition remove (store : t) (key : bytes) : bool * t :=
  match store !! key with
  | Some (v :: l) => (true, <[key := removelast (v :: l)]> store)
  | _ => (false, store)
  end.

Lemma get_last store key : get store key = last (default [] (store !! key)).
Proof. unfold get. by destruct (store !! key) as [[|v l]|]. Qed.

(** The store is a stack per key: [get] sees the latest [put], other keys
    are not touched, and [remove] after [put] restores what was there. *)
Theorem stack (store : t) (key key' value : bytes) :
  get (put store key value) key = Some value ∧
  (key ≠ key' → get (put store key value) key' = get store key') ∧
  (remove (put store key value) key).1 = true ∧
  ∀ k, get (remove (put store key value) key).2 k = get store k.
Proof.
  assert (∀ l : list bytes, last (l ++ [value]) = Some value) as Hlast by (intros l; apply last_snoc).
  assert (∀ l, ∃ v l', l ++ [value] = v :: l' ∧ removelast (v :: l') = l) as Hpop.
  { intros l. destruct (l ++ [value]) as [|v l'] eqn:E; [by destruct l|].
    exists v, l'. split; [done|]. rewrite <-E. apply removelast_last. }
  split; [|split].
  - rewrite get_last. unfold put. rewrite lookup_insert_eq. apply Hlast.
  - intros Hne. rewrite !get_last. unfold put. by rewrite lookup_insert_ne.
  - unfold remove, put. rewrite lookup_insert_eq.
    destruct (Hpop (default [] (store !! key))) as (v & l' & E & Hr). rewrite E.
    split; [done|]. intros k. rewrite !get_last. cbn [snd].
    destruct (decide (key = k)) as [->|Hne].
    + by rewrite lookup_insert_eq, Hr.
    + by rewrite !lookup_insert_ne.
Qed.

Lemma stack_witness :
  get (put (put ∅ #"a" #"1") #"b" #"2") #"a" = get (put ∅ #"a" #"1") #"a".
Proof. apply (stack (put ∅ #"a" #"1") #"b" #"a" #"2"). discriminate. Defined.
End KVStore.

(** ** Promises

A call that blocks until the reply is there gives [None] before it. *)

Inductive VerifyStatus := PASS | UNVERIFIED | FAILED.

#[export] Instance VerifyStatus_eq_dec : EqDecision VerifyStatus.
Proof. solve_decision. Defined.

Module Promise.
Record t := mk {
  done : bool;
  timeout : Z;
  reply : Z;
  verify : option VerifyStatus;
  timestamp : Timestamp.t;
  value : bytes;
  unverified_keys : list bytes;
  estimated_blocks : list N;
  values : gmap bytes bytes;
  timestamps : list Timestamp.t;
}.

(** [Promise(timeoutMS)] and [Promise()]; [verify] is not initialised. *)
Definition create (timeoutMS : Z) : t :=
  mk false timeoutMS 0 None Timestamp.default [] [] [] ∅ [].
Definition default : t := create 1000.

Definition ReplyInternal (p : t) (r : Z) : t :=
  mk true (timeout p) r (verify p) (timestamp p) (value p) (unverified_keys p)
    (estimated_blocks p) (values p) (timestamps p).

(** The overloads of [Reply]. *)
Definition Reply (p : t) (r : Z) : t := ReplyInternal p r.
Definition Reply_timestamp (p : t) (r : Z) (ts : Timestamp.t) : t :=
  ReplyInternal (mk (done p) (timeout p) (reply p) (verify p) ts (value p) (unverified_keys p)
    (estimated_blocks p) (values p) (timestamps p)) r.
Definition Reply_value (p : t) (r : Z) (v : bytes) : t :=
  ReplyInternal (mk (done p) (timeout p) (reply p) (verify p) (timestamp p) v (unverified_keys p)
    (estimated_blocks p) (values p) (timestamps p)) r.
Definition Reply_both (p : t) (r : Z) (ts : Timestamp.t) (v : bytes) : t :=
  ReplyInternal (mk (done p) (timeout p) (reply p) (verify p) ts v (unverified_keys p)
    (estimated_blocks p) (values p) (timestamps p)) r.
(** [std::map::insert] keeps the entries that are there. *)
Definition Reply_values (p : t) (r : Z) (ts : list Timestamp.t) (vals : gmap bytes bytes)
  (keys : list bytes) (blocks : list N) : t :=
  ReplyInternal (mk (done p) (timeout p) (reply p) (verify p) (timestamp p) (value p)
    (unverified_keys p ++ keys) (estimated_blocks p ++ blocks) (values p ∪ vals)
    (timestamps p ++ ts)) r.
Definition Reply_verify (p : t) (r : Z) (vs : VerifyStatus) : t :=
  ReplyInternal (mk (done p) (timeout p) (reply p) (Some vs) (timestamp p) (value p)
    (unverified_keys p) (estimated_blocks p) (values p) (timestamps p)) r.
Definition Reply_verify_keys (p : t) (r : Z) (vs : VerifyStatus) (keys : list bytes)
  (blocks : list N) : t :=
  ReplyInternal (mk (done p) (timeout p) (reply p) (Some vs) (timestamp p) (value p)
    (unverified_keys p ++ keys) (estimated_blocks p ++ blocks) (values p) (timestamps p)) r.

Definition await {A} (f : t → A) (p : t) : option A := if done p then Some (f p) else None.

Definition GetReply : t → option Z := await reply.
Definition GetVerifyStatus : t → option (option VerifyStatus) := await verify.
Definition GetTimestamp : t → option Timestamp.t := await timestamp.
Definition GetValue : t → option bytes := await value.
Definition getValues : t → option (gmap bytes bytes) := await values.
(** [timestamps[i]]; [None] inside is a read out of bounds. *)
Definition GetTimestamp_at (i : nat) : t → option (option Timestamp.t) :=
  await (λ p, timestamps p !! i).
Definition GetUnverifiedKey (p : t) (i : nat) : option bytes := unverified_keys p !! i.
Definition UnverifiedKeySize (p : t) : nat := length (unverified_keys p).
Definition GetEstimateBlock (p : t) (i : nat) : option N := estimated_blocks p !! i.
Definition EstimateBlockSize (p : t) : nat := length (estimated_blocks p).
End Promise.

(** ** Sharding ([frontend/client.h]) *)

Module Sharding.
Open Scope N_scope.

(** [(uint64_t) c] for a signed [char]. *)
Definition char_u64 (c : ascii) : N :=
  let n := N_of_ascii c in if n <? 128 then n else 2 ^ 64 - 256 + n.

(** The hash loop; it is written out again in [exes/strong-server.cc]. *)
Definition hash_step (hash : N) (c : ascii) : N :=
  u64 (u64 (u64 (N.shiftl hash 5) + hash) + char_u64 c).
Definition key_hash (key : bytes) : N := foldl hash_step 5381 key.

(** [key_to_shard] *)
Definition key_to_shard (key : bytes) (nshards : N) : outcome N :=
  if nshards =? 0 then Stop Undefined else Done (key_hash key mod nshards).

(** The test of a server before it loads a key; [maxShard] is not zero. *)
Definition mine (maxShard myShard : N) (key : bytes) : bool :=
  key_hash key mod maxShard =? myShard.

Lemma mine_shard maxShard myShard key :
  maxShard ≠ 0 → mine maxShard myShard key = true ↔ key_to_shard key maxShard = Done myShard.
Proof.
  intros Hm. unfold mine, key_to_shard. destruct (N.eqb_spec maxShard 0) as [|Hn].
  { by destruct Hm. }
  rewrite N.eqb_eq. split; congruence.
Qed.
End Sharding.
