(* ===== verification/Server.v ===== *)
(** * [exes/strong-server.cc]: a shard server

    The upcalls of the replication library into the transaction store, and the
    loading of the initial keys.  The protocol buffer codec is an interface. *)

From S2P Require Import Prelude Cpp Txn Reply OCCStore OCCSpec StoreCommon.

Open Scope Z_scope.

(** [ParseFromString] on a request and [SerializeToString] of a reply, as the
code protoc generates. *)
Class Codec := {
  parse_request : bytes → Request;
  serialize_reply : Reply → bytes;
}.

Inductive Mode := MODE_UNKNOWN | MODE_OCC | MODE_LOCK | MODE_SPAN_OCC | MODE_SPAN_LOCK.

Definition is_span (m : Mode) : bool :=
  match m with MODE_SPAN_OCC | MODE_SPAN_LOCK => true | _ => false end.

(** The field [store] is not set in the lock modes. *)
Record Server (V : Type) := mkServer {
  mode : Mode;
  stored_procedure : bool;
  srv_store : option (OCCStore V);
  timeServer : TrueTime.t;
}.
Arguments mkServer {V} _ _ _ _.
Arguments mode {V} _.
Arguments stored_procedure {V} _.
Arguments srv_store {V} _.
Arguments timeServer {V} _.

Section Server.
Context `{Codec, IterOrder, VersionedKVStore V}.
Implicit Types s : Server V.

(** The constructor; [v] is the empty versioned store and [r] a random number. *)
Definition create_server (md : Mode) (r skew error : N) (sp : bool) (v : V) : outcome (Server V) :=
let clock := TrueTime.create r skew error in
match md with
| MODE_LOCK | MODE_SPAN_LOCK => Done (mkServer md sp None clock)
| MODE_OCC | MODE_SPAN_OCC => Done (mkServer md sp (Some (mkOCCStore v ∅)) clock)
| MODE_UNKNOWN => Stop Panicked
end.

Definition with_store s (o : OCCStore V) : Server V :=
mkServer (mode s) (stored_procedure s) (Some o) (timeServer s).

Definition the_store s : outcome (OCCStore V) :=
match srv_store s with Some o => Done o | None => Stop Undefined end.

(** [LeaderUpcall] on the parsed request: the new server, [replicate] and the
reply.  [now] is the clock reading. *)
Definition leader_request s (rq : Request) (now : TrueTime.timeval)
  : outcome (Server V * bool * Reply) :=
match rq_op rq with
| PREPARE =>
    o ← the_store s;
    let '(status, o) := Prepare o (rq_txnid rq) (Transaction.of_message (rq_prepare rq)) in
    let reply := empty_reply in
    let reply := if (status =? 0) && is_span (mode s)
                 then set_timestamp reply (int64 (TrueTime.GetTime (timeServer s) now))
                 else reply in
    Done (with_store s o, status =? 0, set_status reply status)
| COMMIT =>
    o ← the_store s;
    let ver_keys := (λ k, (vk_key k, uint64 (vk_nversions k))) <$> rq_version rq in
    '(o, reply) ← (if stored_procedure s
                   then Commit_versions o (rq_txnid rq) (rq_commit_timestamp rq) ver_keys empty_reply
                   else Commit_plain o (rq_txnid rq) (rq_commit_timestamp rq) empty_reply);
    Done (with_store s o, true, set_status reply 0)
| ABORT =>
    o ← the_store s;
    Done (with_store s (Abort o (rq_txnid rq) (Transaction.of_message (rq_abort rq))), true,
          set_status empty_reply 0)
| _ => Stop Panicked
end.

Definition LeaderUpcall s (str1 : bytes) (now : TrueTime.timeval)
  : outcome (Server V * bool * bytes) :=
'(s, replicate, reply) ← leader_request s (parse_request str1) now;
Done (s, replicate, serialize_reply reply).

(** [ReplicaUpcall]; [None] when [str2] is left as it is. *)
Definition ReplicaUpcall s (str1 : bytes) : outcome (option bytes) :=
match rq_op (parse_request str1) with
| GET => Done None
| PREPARE | COMMIT | ABORT => Done (Some (serialize_reply (set_status empty_reply 0)))
| _ => Stop Panicked
end.

(** [UnloggedUpcall] on the parsed request. *)
Definition unlogged_request s (rq : Request) : outcome (Server V * Reply) :=
match rq_op rq with
| BATCH_GET =>
    o ← the_store s;
    '(status, o, reply) ← BatchGet o (rq_batchget_keys rq) empty_reply;
    Done (with_store s o, set_status reply status)
| VERIFY_GET =>
    o ← the_store s;
    '(status, o, reply) ← GetProof o {[uint64 (rq_verify_block rq) := rq_verify_keys rq]} empty_reply;
    Done (with_store s o, set_status reply status)
| RANGE =>
    o ← the_store s;
    '(status, o, reply) ← GetRange o (rq_range_from rq) (rq_range_to rq) empty_reply;
    Done (with_store s o, set_status reply status)
| AUDIT =>
    o ← the_store s;
    '(status, o, reply) ← GetProof_seq o (uint64 (rq_audit_seq rq)) empty_reply;
    Done (with_store s o, set_status reply status)
| _ => Done (s, set_status empty_reply 0)
end.

Definition UnloggedUpcall s (str1 : bytes) : outcome (Server V * bytes) :=
'(s, reply) ← unlogged_request s (parse_request str1);
Done (s, serialize_reply reply).

(** [Server::Load] *)
Definition server_Load s (keys values : list bytes) (ts : Timestamp.t) : outcome (Server V) :=
o ← the_store s;
o ← Load o keys values ts;
Done (with_store s o).

(** ** Loading ([main]) *)

(** A call of [Load]. *)
Record load_call := mkLoad { ld_keys : list bytes; ld_values : list bytes; ld_time : Timestamp.t }.

(** One key of the loops of [main]: kept when it is this shard's. *)
Definition load_key (maxShard myShard : N) (kv : bytes * bytes) (acc : list (bytes * bytes))
  : list (bytes * bytes) :=
if Sharding.mine maxShard myShard kv.1 then acc ++ [kv] else acc.

(** The loops over the keys.  An element is what one iteration adds; [full] is
the test that flushes and [ends] the test that flushes the last, which comes
with the last iteration. *)
Fixpoint load_loop (full : nat → bool) (maxShard myShard : N) (ts : Timestamp.t)
  (its : list (list (bytes * bytes))) (acc : list (bytes * bytes)) : list load_call :=
match its with
| [] => []
| it :: its =>
    let acc := foldl (λ acc kv, load_key maxShard myShard kv acc) acc it in
    let last := match its with [] => true | _ => false end in
    if full (length acc) || (last && (0 <? length acc)%nat)
    then mkLoad acc.*1 acc.*2 ts :: load_loop full maxShard myShard ts its []
    else load_loop full maxShard myShard ts its acc
end.

(** "ycsb": the keys [0] to [nKeys], [version] times. *)
Definition ycsb_keys (nKeys iter : N) : list (list (bytes * bytes)) :=
(λ i : nat, [(to_string (N.of_nat i), to_string (N.of_nat i) ++ to_string iter)])
  <$> seq 0 (S (N.to_nat nKeys)).
Definition load_ycsb (maxShard myShard nKeys version : N) : list load_call :=
mjoin ((λ iter : nat, load_loop (Nat.eqb 10) maxShard myShard
          (Timestamp.of_time (N.of_nat iter)) (ycsb_keys nKeys (N.of_nat iter)) [])
       <$> seq 0 (N.to_nat version)).

(** "smallbank": two accounts for each customer. *)
Definition smallbank_keys (n : nat) : list (list (bytes * bytes)) :=
(λ i : nat, [(#"savingStore_" ++ to_string (N.of_nat i), #"1000");
             (#"checkingStore_" ++ to_string (N.of_nat i), #"50")]) <$> seq 1 n.
Definition load_smallbank (maxShard myShard : N) (n : nat) : list load_call :=
load_loop (Nat.eqb 10) maxShard myShard Timestamp.default (smallbank_keys n) [].

(** "tpcc": the lines of a file, a key and a value around a tab. *)
Definition tpcc_entry (line : bytes) : bytes * bytes :=
match find_char "009" line with
| Some idx => (take idx line, drop (idx + 1) line)
| None => (line, line)
end.
Definition load_tpcc (maxShard myShard : N) (lines : list bytes) : list load_call :=
load_loop (λ n, (200 <=? n)%nat) maxShard myShard Timestamp.default
  ((λ line, [tpcc_entry line]) <$> lines) [].
End Server.

(** ** Requests are calls of the store *)

(** The call a request makes of the store of a server that is running OCC. *)
Definition call_of (sp : bool) (rq : Request) : list occ_op :=
  match rq_op rq with
  | PREPARE => [OpPrepare (rq_txnid rq) (Transaction.of_message (rq_prepare rq))]
  | COMMIT =>
      [if sp then OpCommitVersions (rq_txnid rq) (rq_commit_timestamp rq)
                    ((λ k, (vk_key k, uint64 (vk_nversions k))) <$> rq_version rq)
       else OpCommit (rq_txnid rq) (rq_commit_timestamp rq)]
  | ABORT => [OpAbort (rq_txnid rq) (Transaction.of_message (rq_abort rq))]
  | BATCH_GET => [OpBatchGet (rq_batchget_keys rq)]
  | RANGE => [OpGetRange (rq_range_from rq) (rq_range_to rq)]
  | VERIFY_GET => [OpGetProof {[uint64 (rq_verify_block rq) := rq_verify_keys rq]}]
  | AUDIT => [OpGetAudit (uint64 (rq_audit_seq rq))]
  | GET => []
  end.

Section Requests.
Context `{IterOrderLaws, KVSpecLaws V}.
Implicit Types s : Server V.

(** A request goes through the log when it changes the prepared transactions. *)
Definition logged (rq : Request) : bool :=
match rq_op rq with PREPARE | COMMIT | ABORT => true | _ => false end.

Definition serve s (rq : Request) (now : TrueTime.timeval) : outcome (Server V * Reply) :=
if logged rq then '(s, _, reply) ← leader_request s rq now; Done (s, reply)
else unlogged_request s rq.

Fixpoint serve_all s (rqs : list (Request * TrueTime.timeval)) : outcome (Server V) :=
match rqs with
| [] => Done s
| (rq, now) :: rqs => '(s, _) ← serve s rq now; serve_all s rqs
end.

Lemma serve_calls s rq now o s' reply :
srv_store s = Some o → serve s rq now = Done (s', reply) →
∃ o', srv_store s' = Some o' ∧ stored_procedure s' = stored_procedure s ∧
  run_ops o (call_of (stored_procedure s) rq) = Done o'.
Proof.
intros Ho. unfold serve, logged, leader_request, unlogged_request, the_store, call_of.
rewrite Ho. destruct (rq_op rq); cbn [mbind outcome_bind].
- intros Hr. simplify_eq/=. by exists o.
- destruct (Prepare o _ _) as [st o1] eqn:E. intros Hr. simplify_eq/=. exists o1. by rewrite E.
- destruct (stored_procedure s) eqn:Hsp; cbn [run_ops run_op].
  + destruct (Commit_versions _ _ _ _ _) as [[o1 r1]|]; intros Hr; simplify_eq/=; eauto.
  + destruct (Commit_plain _ _ _ _) as [[o1 r1]|]; intros Hr; simplify_eq/=; eauto.
- intros Hr. simplify_eq/=. eauto.
- cbn [run_ops run_op]. destruct (GetProof _ _ _) as [[[st o1] r1]|]; intros Hr; simplify_eq/=; eauto.
- cbn [run_ops run_op]. destruct (GetRange _ _ _ _) as [[[st o1] r1]|]; intros Hr; simplify_eq/=; eauto.
- cbn [run_ops run_op]. destruct (BatchGet _ _ _) as [[[st o1] r1]|]; intros Hr; simplify_eq/=; eauto.
- cbn [run_ops run_op]. destruct (GetProof_seq _ _ _) as [[[st o1] r1]|]; intros Hr; simplify_eq/=; eauto.
Qed.

Lemma run_ops_app (o o1 : OCCStore V) ops ops' :
run_ops o ops = Done o1 → run_ops o (ops ++ ops') = run_ops o1 ops'.
Proof.
revert o. induction ops as [|op ops IH]; intros o Hr; cbn in Hr |- *; [by simplify_eq|].
destruct (run_op o op) as [o2|]; [|discriminate Hr]. by apply IH.
Qed.

Lemma serve_all_calls s rqs o s' :
srv_store s = Some o → serve_all s rqs = Done s' →
∃ o', srv_store s' = Some o' ∧
  run_ops o (mjoin ((λ rq, call_of (stored_procedure s) rq.1) <$> rqs)) = Done o'.
Proof.
revert s o. induction rqs as [|[rq now] rqs IH]; intros s o Ho Hr; cbn [serve_all] in Hr.
{ simplify_eq. by exists o. }
destruct (serve s rq now) as [[s1 r1]|] eqn:E; [|discriminate Hr]. cbn in Hr.
destruct (serve_calls _ _ _ _ _ _ Ho E) as (o1 & Ho1 & Hsp & Hrun).
destruct (IH s1 o1 Ho1 Hr) as (o' & Ho' & Hrun'). exists o'. split; [done|].
cbn. rewrite (run_ops_app _ _ _ _ Hrun). by rewrite <-Hsp.
Qed.

Lemma calls_ok sp rqs : Forall op_ok (mjoin ((λ rq : Request * TrueTime.timeval, call_of sp rq.1) <$> rqs)).
Proof.
induction rqs as [|[rq now] rqs IH]; [constructor|]. cbn. apply Forall_app. split; [|done].
unfold call_of. destruct (rq_op rq), sp; repeat constructor.
Qed.

(** C30.  A server in an OCC mode that serves requests refines the machine of
    prepared transactions: what it stores and what it has prepared are what the
    calls named by the requests do, in the order in which they are served, and
    no two transactions it holds prepared conflict. *)
Theorem server_refines s rqs o s' :
srv_store s = Some o → conflict_free (prepared o) → serve_all s rqs = Done s' →
∃ o', srv_store s' = Some o' ∧ conflict_free (prepared o') ∧
  let m := spec_ops (mkSpec (kv_map (store o)) (prepared o))
             (mjoin ((λ rq, call_of (stored_procedure s) rq.1) <$> rqs)) in
  kv_map (store o') = sp_kv m ∧ prepared o' = sp_prepared m.
Proof.
intros Ho Hc Hr. destruct (serve_all_calls _ _ _ _ Ho Hr) as (o' & Ho' & Hrun).
pose proof (run_ops_abs _ _ _ (calls_ok _ _) Hrun) as Ha. unfold abs in Ha.
exists o'. split; [done|]. split.
{ apply (f_equal sp_prepared) in Ha. cbn in Ha. rewrite Ha. clear -Hc.
  remember (mkSpec _ _) as m eqn:Hm. assert (conflict_free (sp_prepared m)) as Hc' by (by subst m).
  clear Hm Hc. revert m Hc'.
  induction (mjoin _) as [|op ops IH]; intros m Hc; [done|]. cbn.
  apply IH. by apply spec_op_conflict_free. }
split; [exact (f_equal sp_kv Ha)|exact (f_equal sp_prepared Ha)].
Qed.

(** A COMMIT for a transaction the shard has not prepared: with stored
    procedures the server stops on its assertion; without, it answers that the
    commit succeeded and stores nothing. *)
Theorem commit_unprepared s rq now o s' replicate reply :
srv_store s = Some o → rq_op rq = COMMIT → prepared o !! rq_txnid rq = None →
(stored_procedure s = true → leader_request s rq now = Stop Panicked) ∧
(stored_procedure s = false → leader_request s rq now = Done (s', replicate, reply) →
 r_status reply = Some REPLY_OK ∧ replicate = true ∧
 ∃ o', srv_store s' = Some o' ∧ kv_map (store o') = kv_map (store o) ∧ prepared o' = prepared o).
Proof.
intros Ho Hop Hn. unfold leader_request, the_store. rewrite Hop, Ho. cbn [mbind outcome_bind].
split; intros Hsp; rewrite Hsp.
- unfold Commit_versions. rewrite Hn. by rewrite bool_decide_false by (by intros []).
- destruct (Commit_plain _ _ _ _) as [[o1 r1]|] eqn:E; [|discriminate].
  intros Hr. simplify_eq/=. split; [done|]. split; [done|]. exists o1. split; [done|].
  apply Commit_plain_abs in E. unfold abs in E. cbn in E. rewrite Hn, delete_id in E by done. cbn in E.
  rewrite (left_id_L ∅ (∪)) in E. split; [exact (f_equal sp_kv E)|exact (f_equal sp_prepared E)].
Qed.
End Requests.

(** ** Every key is loaded once, by its shard *)

Definition loaded (ld : load_call) : list (bytes * bytes) := zip (ld_keys ld) (ld_values ld).

Section Loading.
Context (maxShard myShard : N) (Hmax : maxShard ≠ 0%N).

Lemma load_keys_filter it acc :
foldl (λ acc kv, load_key maxShard myShard kv acc) acc it
= acc ++ filter (λ kv, Sharding.mine maxShard myShard kv.1 = true) it.
Proof.
revert acc. induction it as [|kv it IH]; intros acc; cbn [foldl]; [by rewrite app_nil_r|].
rewrite IH. unfold load_key. destruct (Sharding.mine maxShard myShard kv.1) eqn:E.
- rewrite filter_cons_True by done. by rewrite <-(assoc_L (++)).
- by rewrite filter_cons_False by (by rewrite E).
Qed.

(** All keys of the shard are loaded, in order. *)
Lemma load_loop_all full ts its acc :
its ≠ [] →
mjoin (loaded <$> load_loop full maxShard myShard ts its acc)
= acc ++ filter (λ kv, Sharding.mine maxShard myShard kv.1 = true) (mjoin its).
Proof.
revert acc. induction its as [|it its IH]; intros acc Hne; [done|]. cbn [load_loop].
rewrite load_keys_filter. change (mjoin (it :: its)) with (it ++ mjoin its).
rewrite filter_app. set (l := filter _ it).
destruct (full (length (acc ++ l)) || _) eqn:E.
- assert (loaded (mkLoad (acc ++ l).*1 (acc ++ l).*2 ts) = acc ++ l) as Hl by apply zip_fst_snd.
  rewrite fmap_cons, Hl.
  match goal with |- mjoin (?x :: ?t) = _ => change (mjoin (x :: t)) with (x ++ mjoin t) end.
  destruct its as [|it' its]; [cbn; by rewrite !app_nil_r|].
  rewrite IH by done. cbn [app]. by rewrite <-app_assoc.
- destruct its as [|it' its].
  + cbn. apply orb_false_iff in E as [_ E]. cbn in E.
    assert (acc ++ l = []) as Hn by (destruct (acc ++ l); [done|cbn in E; lia]).
    rewrite app_nil_r. by rewrite Hn.
  + rewrite IH by done. by rewrite !(assoc_L (++)).
Qed.

Lemma load_loop_time full ts its acc ld :
ld ∈ load_loop full maxShard myShard ts its acc → ld_time ld = ts.
Proof.
revert acc. induction its as [|it its IH]; intros acc; cbn [load_loop].
- by intros ?%elem_of_nil.
- destruct (_ || _); [intros [->|Hin]%elem_of_cons; [done|by eapply IH]|apply IH].
Qed.

Lemma elem_of_loads full ts its kv :
its ≠ [] →
(∃ ld, ld ∈ load_loop full maxShard myShard ts its [] ∧ kv ∈ loaded ld)
↔ kv ∈ mjoin its ∧ Sharding.key_to_shard kv.1 maxShard = Done myShard.
Proof.
intros Hne. rewrite <-Sharding.mine_shard by done.
transitivity (kv ∈ mjoin (loaded <$> load_loop full maxShard myShard ts its [])).
- rewrite list_elem_of_join. setoid_rewrite list_elem_of_fmap. naive_solver.
- rewrite load_loop_all by done. cbn [app]. rewrite list_elem_of_filter. naive_solver.
Qed.
End Loading.

(** The initial keys are partitioned: a key of the YCSB workload, with the
    value and the time of each of its versions, is loaded by the shard the
    clients will ask for it and by no other. *)
Theorem ycsb_partition (maxShard myShard nKeys version : N) (k v : bytes) (ts : Timestamp.t) :
  maxShard ≠ 0%N →
  (∃ ld, ld ∈ load_ycsb maxShard myShard nKeys version ∧ ld_time ld = ts ∧ (k, v) ∈ loaded ld)
  ↔ Sharding.key_to_shard k maxShard = Done myShard ∧
    ∃ i iter : N, (i <= nKeys)%N ∧ (iter < version)%N ∧
      k = to_string i ∧ v = to_string i ++ to_string iter ∧ ts = Timestamp.of_time iter.
Proof.
  intros Hm.
  assert (∀ iter, (k, v) ∈ mjoin (ycsb_keys nKeys iter) ↔
    ∃ i : N, (i <= nKeys)%N ∧ k = to_string i ∧ v = to_string i ++ to_string iter) as Hkeys.
  { intros iter. rewrite list_elem_of_join. unfold ycsb_keys. setoid_rewrite list_elem_of_fmap. split.
    - intros (? & Hin & i & -> & Hi%elem_of_seq). apply list_elem_of_singleton in Hin as [= -> ->].
      exists (N.of_nat i). split; [lia|done].
    - intros (i & Hi & -> & ->). eexists. split; [|exists (N.to_nat i); split; [reflexivity|]].
      + rewrite N2Nat.id. by apply list_elem_of_singleton.
      + apply elem_of_seq. lia. }
  assert (∀ iter, ycsb_keys nKeys iter ≠ []) as Hne by (intros iter H; discriminate H).
  unfold load_ycsb. setoid_rewrite list_elem_of_join. setoid_rewrite list_elem_of_fmap. split.
  - intros (ld & (? & Hin & iter & -> & Hiter%elem_of_seq) & Hts & Hkv).
    pose proof (load_loop_time _ _ _ _ _ _ _ Hin) as Ht.
    destruct (proj1 (elem_of_loads maxShard myShard Hm _ _ _ (k, v) (Hne (N.of_nat iter)))
      (ex_intro _ ld (conj Hin Hkv))) as [(i & Hi & -> & ->)%Hkeys Hs].
    split; [done|]. exists i, (N.of_nat iter). split_and!; try done; [lia|congruence].
  - intros (Hs & i & iter & Hi & Hit & -> & -> & ->).
    destruct (proj2 (elem_of_loads maxShard myShard Hm (Nat.eqb 10) (Timestamp.of_time iter) _
      (to_string i, to_string i ++ to_string iter) (Hne iter))) as (ld & Hin & Hkv).
    { split; [|done]. apply Hkeys. eauto. }
    exists ld. split; [|split; [by eapply load_loop_time|done]].
    eexists. split; [exact Hin|]. exists (N.to_nat iter). rewrite N2Nat.id. split; [done|].
    apply elem_of_seq. lia.
Qed.

(** ** Witnesses *)

Definition no_server (sp : bool) : Server (gmap bytes bytes) :=
  mkServer MODE_OCC sp (Some no_occ) TrueTime.default.
Definition request (op : Operation) (id : N) (msg : TransactionMessage) : Request :=
  mkRequest op id msg 7 msg 0 [] [] [] [] [ #"x"] 0.
Definition a_clock : TrueTime.timeval := TrueTime.mkTimeval 100 0.
Definition some_requests : list (Request * TrueTime.timeval) :=
  [(request PREPARE 1 (Transaction.serialize txn_z), a_clock);
   (request BATCH_GET 0 (mkTransactionMessage [] []), a_clock);
   (request COMMIT 1 (mkTransactionMessage [] []), a_clock)].

Lemma server_refines_witness :
  ∃ s', serve_all (no_server true) some_requests = Done s' ∧
    ∃ o', srv_store s' = Some o' ∧ conflict_free (prepared o').
Proof.
  destruct (is_done_Done (serve_all (no_server true) some_requests)) as [s' E];
    [vm_compute; reflexivity|].
  exists s'. split; [exact E|].
  destruct (server_refines (no_server true) some_requests no_occ s' eq_refl no_conflict E)
    as (o' & Ho & Hc & _).
  exists o'. split; [exact Ho|exact Hc].
Defined.

Lemma commit_unprepared_witness :
  leader_request (no_server true) (request COMMIT 9 (mkTransactionMessage [] [])) a_clock
  = Stop Panicked.
Proof.
  exact (proj1 (commit_unprepared (no_server true) (request COMMIT 9 (mkTransactionMessage [] []))
    a_clock no_occ (no_server true) true empty_reply eq_refl eq_refl eq_refl) eq_refl).
Defined.

Lemma ycsb_partition_witness :
  ∃ ld, ld ∈ load_ycsb 3 (Sharding.key_hash #"2" mod 3) 4 2 ∧
    ld_time ld = Timestamp.of_time 1 ∧ (#"2", #"21") ∈ loaded ld.
Proof.
  apply (ycsb_partition 3 _ 4 2 #"2" #"21" (Timestamp.of_time 1) ltac:(discriminate)).
  split; [vm_compute; reflexivity|]. exists 2%N, 1%N.
  split; [vm_compute; discriminate|]. split; [vm_compute; reflexivity|].
  split; [vm_compute; reflexivity|]. split; vm_compute; reflexivity.
Defined.
