(* ===== verification/LedgerTypes.v ===== *)
(** * [common/utils.cc] and [ledgerdb/types.h]: the records LedgerDB stores

    Commits, digests and blocks are stored as text, their fields joined by
    separators and split again with [Utils::splitBy]. *)

From S2P Require Import Prelude Cpp Hash.

(** [Utils::splitBy] *)
Definition splitBy (str : bytes) (delim : ascii) : list bytes := getlines delim str [].

(** [items[i]] on a vector. *)
Definition item {A} (items : list A) (i : nat) : outcome A :=
  match items !! i with Some x => Done x | None => Stop Undefined end.

(** ** Commits *)

Record CommitInfo := mkCommitInfo {
  ci_commit_seq : N;
  ci_prev_digest : bytes;
  ci_tip_block : N;
  ci_mtroot : bytes;
  ci_mtrootkey : bytes;
  ci_mptroot : bytes;
}.

(** [CommitInfo(std::string)] *)
Definition parse_commit (str : bytes) : outcome CommitInfo :=
  let items := splitBy str "|" in
  i0 ← item items 0; commit_seq ← stoul i0;
  prev_digest ← item items 1;
  i2 ← item items 2; tip_block ← stoul i2;
  mtroot ← item items 3;
  mtrootkey ← item items 4;
  mptroot ← item items 5;
  Done (mkCommitInfo commit_seq prev_digest tip_block mtroot mtrootkey mptroot).

(** [CommitInfo::ToString] *)
Definition show_commit_info (c : CommitInfo) : bytes :=
  to_string (ci_commit_seq c) ++ #"|" ++ ci_prev_digest c ++ #"|"
    ++ to_string (ci_tip_block c) ++ #"|" ++ ci_mtroot c ++ #"|"
    ++ ci_mtrootkey c ++ #"|" ++ ci_mptroot c.

(** ** Digests *)

Record DigestInfo := mkDigestInfo {
  di_commit_seq : N;
  di_tip_block : N;
  di_digest : bytes;
}.

Definition parse_digest (str : bytes) : outcome DigestInfo :=
  let items := splitBy str "|" in
  i0 ← item items 0; commit_seq ← stoul i0;
  i1 ← item items 1; tip_block ← stoul i1;
  digest ← item items 2;
  Done (mkDigestInfo commit_seq tip_block digest).

Definition show_digest_info (d : DigestInfo) : bytes :=
  to_string (di_commit_seq d) ++ #"|" ++ to_string (di_tip_block d) ++ #"|" ++ di_digest d.

(** ** Blocks *)

Record BlockData := mkBlockData { bd_keys : list bytes; bd_vals : list bytes }.

(** The loop of [BlockData::ToString] from index [i]. *)
Fixpoint show_entries (ks vs : list bytes) : outcome bytes :=
  match ks, vs with
  | [], _ => Done []
  | _ :: _, [] => Stop Undefined
  | k :: ks, v :: vs => rest ← show_entries ks vs; Done (#"/" ++ k ++ #"|" ++ v ++ rest)
  end.

(** [BlockData::ToString]: the result of [res.substr(1)] is not used, but the
call throws when [res] is empty. *)
Definition show_block (b : BlockData) : outcome bytes :=
  res ← show_entries (bd_keys b) (bd_vals b);
  _ ← substr res 1 None;
  Done res.

(** The loop of [BlockData(std::string)]: every iteration splits the whole of
[str]. *)
Fixpoint parse_entries (str : bytes) (kvs : list bytes) : outcome (list bytes * list bytes) :=
  match kvs with
  | [] => Done ([], [])
  | _ :: kvs =>
      let items := splitBy str "|" in
      k ← item items 0;
      v ← item items 1;
      '(ks, vs) ← parse_entries str kvs;
      Done (k :: ks, v :: vs)
  end.

Definition parse_block (str : bytes) : outcome BlockData :=
  '(ks, vs) ← parse_entries str (splitBy str "/");
  Done (mkBlockData ks vs).

(** ** Facts *)

Lemma splitBy_app c a s : c ∉ a → splitBy (a ++ c :: s) c = a :: splitBy s c.
Proof. intros Hc. unfold splitBy. by rewrite getlines_app. Qed.

Lemma getlines_last c a acc : c ∉ a → getlines c a acc = [rev acc ++ a].
Proof.
  revert acc. induction a as [|x a IH]; intros acc Ha; simpl; [by rewrite app_nil_r|].
  apply not_elem_of_cons in Ha as [Hne Ha]. rewrite (proj2 (Ascii.eqb_neq _ _)) by congruence.
  rewrite IH by done. simpl. by rewrite <-app_assoc.
Qed.

Lemma splitBy_last c a : c ∉ a → splitBy a c = [a].
Proof. intros Hc. unfold splitBy. by rewrite getlines_last. Qed.

(** One more separated field than separators. *)
Lemma splitBy_length c s :
  length (splitBy s c) = S (length (filter (λ x, x = c) s)).
Proof.
  unfold splitBy. generalize (@nil ascii). induction s as [|x s IH]; intros acc; [done|]. simpl.
  destruct (Ascii.eqb_spec x c) as [->|Hne].
  - rewrite filter_cons_True by done. simpl. by rewrite IH.
  - rewrite filter_cons_False by done. apply IH.
Qed.

Definition no_bar (s : bytes) : Prop := "|"%char ∉ s.

Lemma is_base32_no_bar s : is_base32 s = true → no_bar s.
Proof.
  unfold is_base32. intros [_ Hs]%andb_true_iff Hin. rewrite forallb_forall in Hs.
  apply list_elem_of_In, Hs in Hin. vm_compute in Hin. discriminate Hin.
Qed.

Lemma ToBase32_no_bar h : length h = kByteLength → no_bar (ToBase32_value h).
Proof. intros Hh. by apply is_base32_no_bar, is_base32_ToBase32. Qed.

Lemma splitBy_bar (a s : bytes) : no_bar a → splitBy (a ++ #"|" ++ s) "|" = a :: splitBy s "|".
Proof. exact (splitBy_app "|"%char a s). Qed.
Lemma splitBy_end (a : bytes) : no_bar a → splitBy a "|" = [a].
Proof. exact (splitBy_last "|"%char a). Qed.

Definition commit_ok (c : CommitInfo) : Prop :=
  (ci_commit_seq c < 2 ^ 64)%N ∧ (ci_tip_block c < 2 ^ 64)%N ∧
  no_bar (ci_prev_digest c) ∧ no_bar (ci_mtroot c) ∧ no_bar (ci_mtrootkey c) ∧ no_bar (ci_mptroot c).

Lemma parse_show_commit c : commit_ok c → parse_commit (show_commit_info c) = Done c.
Proof.
  intros (Hs & Ht & Hp & Hr & Hk & Hm). unfold parse_commit, show_commit_info. cbn [str String.list_ascii_of_string app].
  rewrite !splitBy_app by (done || auto with ledger). rewrite splitBy_last by done.
  unfold item. cbn [lookup list_lookup]. rewrite !bind_Done.
  repeat (rewrite stoul_to_string by done; rewrite !bind_Done). by destruct c.
Qed.

Lemma parse_show_digest d :
  (di_commit_seq d < 2 ^ 64)%N → (di_tip_block d < 2 ^ 64)%N → no_bar (di_digest d) →
  parse_digest (show_digest_info d) = Done d.
Proof.
  intros Hs Ht Hd. unfold parse_digest, show_digest_info. cbn [str String.list_ascii_of_string app].
  rewrite !splitBy_app by auto with ledger. rewrite splitBy_last by done.
  unfold item. cbn [lookup list_lookup]. rewrite !bind_Done.
  repeat (rewrite stoul_to_string by done; rewrite !bind_Done). by destruct d.
Qed.

(** A commit record is read back from its text. *)
Theorem commit_info_roundtrip c d :
  (commit_ok c → parse_commit (show_commit_info c) = Done c) ∧
  ((di_commit_seq d < 2 ^ 64)%N → (di_tip_block d < 2 ^ 64)%N → no_bar (di_digest d) →
   parse_digest (show_digest_info d) = Done d).
Proof. split; [apply parse_show_commit|apply parse_show_digest]. Qed.

Lemma commit_info_roundtrip_witness :
  let c := mkCommitInfo 3 #"P" 17 #"R" #"mt4-0-3" #"M" in
  parse_commit (show_commit_info c) = Done c.
Proof.
  apply (proj1 (commit_info_roundtrip (mkCommitInfo 3 #"P" 17 #"R" #"mt4-0-3" #"M")
    (mkDigestInfo 0 0 []))).
  split_and!; apply (bool_decide_unpack _); vm_compute; exact I.
Defined.

(** ** What is left of a block *)

Definition plain (s : bytes) : Prop := "|"%char ∉ s ∧ "/"%char ∉ s.

Lemma show_entries_text ks vs t :
  show_entries ks vs = Done t → Forall plain ks → Forall plain vs →
  (length ks = length (filter (λ x, x = "/"%char) t)).
Proof.
  revert vs t. induction ks as [|k ks IH]; intros [|v vs] t Hs HK HV; cbn in Hs; simplify_eq; try done.
  destruct (show_entries ks vs) as [t'|] eqn:E; [|discriminate Hs]. cbn in Hs. simplify_eq.
  apply Forall_cons in HK as [[_ Hk] HK], HV as [[_ Hv] HV].
  assert (∀ s, "/"%char ∉ s → filter (λ x, x = "/"%char) s = []) as Hf.
  { induction s as [|x s IHs]; [done|]. intros [Hx Hs]%not_elem_of_cons.
    rewrite filter_cons_False by congruence. by apply IHs. }
  rewrite filter_cons_True, filter_app by done. cbn [length].
  rewrite (Hf k Hk). cbn [app]. rewrite filter_cons_False, filter_app by done.
  rewrite (Hf v Hv). cbn [app]. f_equal. by eapply IH.
Qed.

(** A block is not read back from its text: each of the [n] entries, and
    once more, is read as a slash and the first key, with a value that runs into
    the second entry. *)
Theorem block_misread (k1 v1 : bytes) (ks vs : list bytes) (t : bytes) :
  plain k1 → plain v1 → Forall plain ks → Forall plain vs →
  show_block (mkBlockData (k1 :: ks) (v1 :: vs)) = Done t →
  parse_block t
  = Done (mkBlockData (replicate (S (S (length ks))) (#"/" ++ k1))
      (replicate (S (S (length ks))) (v1 ++ match ks with k2 :: _ => #"/" ++ k2 | [] => [] end))).
Proof.
  intros [Hk1 Hk1'] [Hv1 Hv1'] HK HV. unfold show_block. cbn [bd_keys bd_vals].
  destruct (show_entries (k1 :: ks) (v1 :: vs)) as [res|] eqn:E; [|discriminate]. cbn [mbind outcome_bind].
  destruct (substr res 1 None); [|discriminate]. cbn. intros ?; simplify_eq.
  pose proof (show_entries_text _ _ _ E
    ltac:(by constructor) ltac:(by constructor)) as Hlen.
  assert (splitBy t "|" !! 0%nat = Some (#"/" ++ k1) ∧ splitBy t "|" !! 1%nat
    = Some (v1 ++ match ks with k2 :: _ => #"/" ++ k2 | [] => [] end)) as [H0 H1].
  { cbn in E. destruct (show_entries ks vs) as [rest|] eqn:E'; [|discriminate E]. cbn in E. simplify_eq.
    assert ("|"%char ∉ ("/"%char :: k1)) as Hn by (rewrite not_elem_of_cons; done).
    rewrite (app_comm_cons k1 ("|"%char :: v1 ++ rest)), splitBy_app by done. split; [done|]. cbn [lookup list_lookup].
    destruct ks as [|k2 ks]; [cbn in E'; simplify_eq; rewrite app_nil_r; by rewrite splitBy_last|].
    destruct vs as [|v2 vs]; cbn in E'; [discriminate E'|].
    destruct (show_entries ks vs) as [rest2|]; [|discriminate E']. cbn in E'. simplify_eq.
    apply Forall_cons in HK as [[Hk2 _] _].
    rewrite (app_comm_cons k2 ("|"%char :: v2 ++ rest2)).
    rewrite app_assoc, splitBy_app; [done|].
    rewrite not_elem_of_app, not_elem_of_cons. done. }
  unfold parse_block. pose proof (splitBy_length "/" t) as Hn. rewrite <-Hlen in Hn.
  assert (∀ kvs : list bytes, parse_entries t kvs
    = Done (replicate (length kvs) (#"/" ++ k1),
            replicate (length kvs) (v1 ++ match ks with k2 :: _ => #"/" ++ k2 | [] => [] end))) as HP.
  { induction kvs as [|kv kvs IH]; [done|]. cbn [parse_entries]. unfold item. rewrite H0, H1.
    rewrite !bind_Done, IH. done. }
  rewrite HP, bind_Done, Hn. done.
Qed.

Lemma block_misread_witness :
  parse_block #"/a|1/b|2"
  = Done (mkBlockData [ #"/a"; #"/a"; #"/a"] [ #"1/b"; #"1/b"; #"1/b"]).
Proof.
  apply (block_misread #"a" #"1" [ #"b"] [ #"2"] #"/a|1/b|2"); [..|reflexivity];
    repeat constructor; apply (bool_decide_unpack _); vm_compute; exact I.
Defined.
