(* ===== verification/SkipList.v ===== *)
(** * [ledgerdb/skiplist/skiplist.cc]: the versions of a key

    A skip list with descending keys, stored in the string store node by node:
    the head under ["<prefix>|head"], a node with key [k] under
    ["<prefix>|k"].  A node's forward pointers are keys, [-1] for none. *)

From S2P Require Import Prelude Cpp DB LedgerTypes.

Open Scope Z_scope.

(** ** Nodes *)

Record SkipNode := mkSkipNode {
  sn_key : Z;
  sn_value : bytes;
  sn_forward : list Z;
}.

(** [SkipNode(k, v, level)] *)
Definition new_node (k : Z) (v : bytes) (level : nat) : SkipNode :=
  mkSkipNode k v (replicate level (-1)).

(** [s.substr(0, delim)] and [s.substr(delim + 1)] around the first bar: with
no bar, [delim] is [npos] and both are the whole string. *)
Definition before_bar (s : bytes) : bytes :=
  match find_char "|" s with Some i => take i s | None => s end.
Definition after_bar (s : bytes) : bytes :=
  match find_char "|" s with Some i => drop (i + 1) s | None => s end.

(** The loop over the pointers; the string gets shorter. *)
Fixpoint parse_forward (fuel : nat) (rest : bytes) : outcome (list Z) :=
  match find_char "|" rest with
  | Some _ =>
      match fuel with
      | O => Stop OutOfFuel
      | S fuel =>
          ptr ← stol (before_bar rest);
          ptrs ← parse_forward fuel (after_bar rest);
          Done (ptr :: ptrs)
      end
  | None => ptr ← stol rest; Done [ptr]
  end.

(** [SkipNode(const std::string&)] *)
Definition parse_node (node : bytes) : outcome SkipNode :=
  key ← stol (before_bar node);
  let rest := after_bar node in
  let value := before_bar rest in
  forward ← parse_forward (length rest) (after_bar rest);
  Done (mkSkipNode key value forward).

(** [SkipNode::ToString] *)
Definition show_node (n : SkipNode) : bytes :=
  to_string_z (sn_key n) ++ #"|" ++ sn_value n
    ++ mjoin ((λ f, #"|" ++ to_string_z f) <$> sn_forward n).

(** ** The list *)

Definition maxLevel : nat := 16.

(** [randomLevel]: [coins] are the results of the test of [rand()]. *)
Fixpoint random_level (coins : list bool) (v : nat) : nat :=
  match coins with
  | true :: coins => if (v <? maxLevel)%nat then random_level coins (S v) else v
  | _ => v
  end.
Definition randomLevel (coins : list bool) : nat := random_level coins 1.

(** [nodeLevel]: the number of leading pointers that are set, at least one. *)
Fixpoint count_set (v : list Z) : nat :=
  match v with
  | f :: v => if f =? -1 then 0 else S (count_set v)
  | [] => 0
  end.
Definition nodeLevel (v : list Z) : outcome nat :=
  match v with
  | [] => Stop Undefined
  | f :: v => Done (if f =? -1 then 1%nat else S (count_set v))
  end.

Section SkipList.
Context `{StringStore D}.
Implicit Types d : D.

Definition skip_head (prefix : bytes) : bytes := prefix ++ #"|head".
Definition skip_key (prefix : bytes) (k : Z) : bytes := prefix ++ #"|" ++ to_string_z k.

(** The inner loop of [find] on level [i]. *)
Fixpoint find_while (fuel : nat) d (prefix : bytes) (i : nat) (searchKey : Z) (head : SkipNode)
  : outcome SkipNode :=
f ← item (sn_forward head) i;
if (-1 <? f) && (searchKey <? f) then
  match fuel with
  | O => Stop OutOfFuel
  | S fuel =>
      node ← parse_node (ss_get d (skip_key prefix f));
      find_while fuel d prefix i searchKey node
  end
else Done head.

(** The outer loop, from level [n - 1] down. *)
Fixpoint find_levels (n fuel : nat) d (prefix : bytes) (searchKey : Z) (head : SkipNode)
  : outcome bytes :=
match n with
| O => Done []
| S i =>
    head ← find_while fuel d prefix i searchKey head;
    f ← item (sn_forward head) i;
    if f =? searchKey then Done (ss_get d (skip_key prefix f))
    else find_levels i fuel d prefix searchKey head
end.

(** [SkipList::find]: the text of the node, empty when there is none. *)
Definition sl_find (fuel : nat) d (prefix : bytes) (searchKey : Z) : outcome bytes :=
let headstr := ss_get d (skip_head prefix) in
match headstr with
| [] => Done []
| _ =>
    head ← parse_node headstr;
    if sn_key head =? searchKey then Done headstr
    else
      currentMaximum ← nodeLevel (sn_forward head);
      find_levels currentMaximum fuel d prefix searchKey head
end.

(** The inner loop of [insert] on level [i]: the key and the node reached. *)
Fixpoint insert_while (fuel : nat) d (prefix : bytes) (i : nat) (searchKey : Z)
  (update : gmap bytes SkipNode) (fullkey : bytes) (head : SkipNode) : outcome (bytes * SkipNode) :=
f ← item (sn_forward head) i;
if (-1 <? f) && (searchKey <? f) then
  match fuel with
  | O => Stop OutOfFuel
  | S fuel =>
      let fullkey := skip_key prefix f in
      head ← match update !! fullkey with
             | Some n => Done n
             | None => parse_node (ss_get d fullkey)
             end;
      insert_while fuel d prefix i searchKey update fullkey head
  end
else Done (fullkey, head).

Definition set_forward (n : SkipNode) (i : nat) (f : Z) : SkipNode :=
mkSkipNode (sn_key n) (sn_value n) (<[i := f]> (sn_forward n)).

(** The loop over the levels of the new node. *)
Fixpoint insert_levels (n fuel : nat) d (prefix : bytes) (searchKey : Z)
  (update : gmap bytes SkipNode) (fullkey : bytes) (head newnode : SkipNode)
  : outcome (gmap bytes SkipNode * SkipNode) :=
match n with
| O => Done (update, newnode)
| S i =>
    '(fullkey, head) ← insert_while fuel d prefix i searchKey update fullkey head;
    f ← item (sn_forward head) i;
    let newnode := set_forward newnode i f in
    let head := set_forward head i searchKey in
    insert_levels i fuel d prefix searchKey (<[fullkey := head]> update) fullkey head newnode
end.

(** [SkipList::insert]; [level] is what [randomLevel] gives.  The nodes of
[update] are written in the order of their keys. *)
Definition sl_insert (fuel : nat) d (prefix : bytes) (searchKey : Z) (newValue : bytes)
  (level : nat) : outcome D :=
let headstr := ss_get d (skip_head prefix) in
match headstr with
| [] => Done (ss_put d (skip_head prefix) (show_node (new_node searchKey newValue maxLevel)))
| _ =>
    x ← sl_find fuel d prefix searchKey;
    match x with
    | _ :: _ =>
        skipnode ← parse_node x;
        Done (ss_put d (skip_key prefix searchKey)
                (show_node (mkSkipNode (sn_key skipnode) newValue (sn_forward skipnode))))
    | [] =>
        head ← parse_node headstr;
        '(update, newnode) ← insert_levels level fuel d prefix searchKey ∅ (skip_head prefix) head
                               (new_node searchKey newValue level);
        let d := ss_puts d ((λ e, (e.1, show_node e.2)) <$> map_entries update) in
        Done (ss_put d (skip_key prefix searchKey) (show_node newnode))
    end
end.

(** [SkipList::scan] *)
Fixpoint scan_from (n : nat) d (key : bytes) (prefix : bytes) : outcome (list bytes) :=
match n with
| O => Done []
| S n =>
    let node := ss_get d key in
    match node with
    | [] => Done []
    | _ =>
        skipnode ← parse_node node;
        f ← item (sn_forward skipnode) 0;
        if f <? 0 then Done [node]
        else rest ← scan_from n d (skip_key prefix f) prefix; Done (node :: rest)
    end
end.
Definition sl_scan d (prefix : bytes) (n : nat) : outcome (list bytes) :=
scan_from n d (skip_head prefix) prefix.
End SkipList.
