(* ===== verification/SkipSpec.v ===== *)
(** * The skip list is a sorted list of versions

    The nodes stored under a prefix represent a head and a list of entries with
    descending keys; [find], [insert] and [scan] are lookup, insertion and
    enumeration on it. *)

From S2P Require Import Prelude Cpp DB LedgerTypes SkipList.

Open Scope Z_scope.

(** ** The text of a node *)

Lemma to_string_z_no c z : is_digit c = false → c ≠ "-"%char → c ∉ to_string_z z.
Proof.
  intros Hc Hm. unfold to_string_z. destruct (z <? 0); [|by apply to_string_no].
  rewrite not_elem_of_cons. split; [done|by apply to_string_no].
Qed.
#[export] Hint Extern 1 (_ ∉ to_string_z _) =>
  (apply to_string_z_no; [reflexivity|discriminate]) : ledger.

Lemma stol_to_string_z z : - 2 ^ 63 <= z < 2 ^ 63 → stol (to_string_z z) = Done z.
Proof.
  intros Hz. unfold to_string_z, stol. destruct (Z.ltb_spec z 0).
  - unfold sto_signed. cbn [skip_spaces].
    change (is_space "-") with false. cbn iota.
    change (scan_sign ("-"%char :: to_string (Z.abs_N z))) with (true, to_string (Z.abs_N z)).
    rewrite <-(app_nil_r (to_string _)). rewrite (proj2 (scan_to_string (Z.abs_N z) [] ltac:(done))).
    pose proof (to_uint_nonnil (Z.abs_N z)).
    destruct (N.to_uint (Z.abs_N z)) eqn:Hu; [done|..]; rewrite <-Hu, DecimalN.Unsigned.of_to;
      (rewrite (proj2 (Z.ltb_ge _ _)), (proj2 (Z.leb_gt _ _)) by lia); cbn; f_equal; lia.
  - rewrite <-(app_nil_r (to_string _)), sto_signed_to_string; [f_equal; lia|lia|done].
Qed.

Lemma to_string_z_inj a b : to_string_z a = to_string_z b → a = b.
Proof.
  unfold to_string_z. destruct (Z.ltb_spec a 0), (Z.ltb_spec b 0); intros E.
  - injection E as E%to_string_inj. lia.
  - destruct (to_string_cons (Z.to_N b)) as (c & s & Hs & Hc). rewrite Hs in E. injection E as <- _.
    discriminate Hc.
  - destruct (to_string_cons (Z.to_N a)) as (c & s & Hs & Hc). rewrite Hs in E. injection E as -> _.
    discriminate Hc.
  - apply to_string_inj in E. lia.
Qed.

Definition bars (fs : list Z) : bytes := mjoin ((λ f, #"|" ++ to_string_z f) <$> fs).

Lemma before_bar_app a s : no_bar a → before_bar (a ++ "|"%char :: s) = a.
Proof. intros Ha. unfold before_bar. rewrite find_char_app by done. apply take_app_length. Qed.

Lemma after_bar_app a s : no_bar a → after_bar (a ++ "|"%char :: s) = s.
Proof.
  intros Ha. unfold after_bar. rewrite find_char_app by done.
  rewrite (cons_middle _ a s), app_assoc. apply drop_app_length'. rewrite length_app. cbn. lia.
Qed.

Definition long (z : Z) : Prop := - 2 ^ 63 <= z < 2 ^ 63.

Lemma parse_forward_show f fs fuel :
  Forall long (f :: fs) → (length fs <= fuel)%nat →
  parse_forward fuel (to_string_z f ++ bars fs) = Done (f :: fs).
Proof.
  revert f fuel. induction fs as [|g fs IH]; intros f fuel HF Hf;
    apply Forall_cons in HF as [Hz HF].
  - cbn [bars]. rewrite app_nil_r. destruct fuel; cbn [parse_forward];
      (rewrite find_char_None by auto with ledger); by rewrite stol_to_string_z.
  - destruct fuel as [|fuel]; [cbn in Hf; lia|].
    change (bars (g :: fs)) with ("|"%char :: to_string_z g ++ bars fs).
    cbn [parse_forward]. rewrite find_char_app by auto with ledger.
    rewrite before_bar_app, after_bar_app by (unfold no_bar; auto with ledger).
    rewrite stol_to_string_z, bind_Done by done. rewrite IH; [done|done|cbn in Hf; lia].
Qed.

Lemma length_bars fs : (length fs <= length (bars fs))%nat.
Proof.
  induction fs as [|f fs IH]; [done|].
  change (bars (f :: fs)) with ("|"%char :: to_string_z f ++ bars fs).
  cbn [length]. rewrite length_app. lia.
Qed.

Definition node_ok (n : SkipNode) : Prop :=
  long (sn_key n) ∧ no_bar (sn_value n) ∧ Forall long (sn_forward n) ∧ sn_forward n ≠ [].

Lemma parse_show_node n : node_ok n → parse_node (show_node n) = Done n.
Proof.
  destruct n as [k v fs]. intros (Hk & Hv & HF & Hne). cbn in *. unfold parse_node, show_node.
  cbn [sn_key sn_value sn_forward]. change (mjoin _) with (bars fs).
  change (#"|" ++ v ++ bars fs) with ("|"%char :: v ++ bars fs).
  rewrite before_bar_app, after_bar_app by (unfold no_bar; auto with ledger).
  rewrite stol_to_string_z, bind_Done by done.
  destruct fs as [|f fs]; [done|].
  change (bars (f :: fs)) with ("|"%char :: to_string_z f ++ bars fs).
  rewrite before_bar_app, after_bar_app by done.
  rewrite parse_forward_show; [done..|]. pose proof (length_bars fs).
  rewrite length_app. cbn [length]. rewrite length_app. lia.
Qed.

Lemma show_node_nonnil n : show_node n ≠ [].
Proof.
  unfold show_node, to_string_z. destruct (sn_key n <? 0); [done|].
  destruct (to_string_cons (Z.to_N (sn_key n))) as (c & s & -> & _). done.
Qed.

(** ** Entries *)

Record entry := mkEntry { e_key : Z; e_val : bytes; e_level : nat }.

Definition entry_ok (e : entry) : Prop :=
  0 <= e_key e < 2 ^ 63 ∧ no_bar (e_val e) ∧ (1 <= e_level e <= maxLevel)%nat.

(** The first entry that is on level [i]. *)
Definition nextkey (r : list entry) (i : nat) : Z :=
  match list_find (λ e, i < e_level e)%nat r with Some (_, e) => e_key e | None => -1 end.

(** The pointers of a node on [lv] levels before the entries [r]. *)
Definition fwd (r : list entry) (lv : nat) : list Z := nextkey r <$> seq 0 lv.

Definition node_of (e : entry) (r : list entry) : SkipNode :=
  mkSkipNode (e_key e) (e_val e) (fwd r (e_level e)).

Abbreviation desc := (StronglySorted (λ a b, e_key b < e_key a)).

Lemma next_cases r i :
  (Forall (λ e, e_level e <= i)%nat r ∧ ∀ r', nextkey (r ++ r') i = nextkey r' i) ∨
  (∃ a e b, r = a ++ e :: b ∧ (i < e_level e)%nat ∧ ∀ r', nextkey (r ++ r') i = e_key e).
Proof.
  induction r as [|e r IH]; [by left|].
  destruct (decide (i < e_level e)%nat) as [Hlt|Hge].
  - right. exists [], e, r. split; [done|]. split; [done|]. intros r'. unfold nextkey.
    cbn [app list_find]. by rewrite decide_True.
  - assert (∀ r', nextkey ((e :: r) ++ r') i = nextkey (r ++ r') i) as Hskip.
    { intros r'. unfold nextkey. cbn [app list_find]. rewrite decide_False by done.
      by destruct (list_find _ (r ++ r')) as [[]|]. }
    destruct IH as [[HF Hn]|(a & e' & b & -> & Hl & Hn)].
    + left. split; [constructor; [lia|done]|]. intros r'. by rewrite Hskip.
    + right. exists (e :: a), e', b. split; [done|]. split; [done|]. intros r'.
      rewrite Hskip. apply Hn.
Qed.

Lemma fwd_lookup r lv i : (i < lv)%nat → item (fwd r lv) i = Done (nextkey r i).
Proof.
  intros Hi. unfold item, fwd. rewrite list_lookup_fmap, lookup_seq_lt by done. done.
Qed.

Lemma desc_app r1 r2 : desc (r1 ++ r2) → desc r1 ∧ desc r2 ∧
  ∀ a b, a ∈ r1 → b ∈ r2 → e_key b < e_key a.
Proof.
  induction r1 as [|e r1 IH]; intros Hs; cbn in Hs.
  { split; [constructor|]. split; [done|]. intros a b Ha. by apply elem_of_nil in Ha. }
  apply StronglySorted_inv in Hs as [Hs HF]. destruct (IH Hs) as (H1 & H2 & H12).
  rewrite Forall_forall in HF. split; [|split; [done|]].
  - constructor; [done|]. apply Forall_forall. intros x Hx. apply HF, elem_of_app. by left.
  - intros a b [->|Ha]%elem_of_cons Hb; [|by apply H12]. apply HF, elem_of_app. by right.
Qed.

Lemma nextkey_long r i : Forall entry_ok r → long (nextkey r i) ∧ -1 <= nextkey r i.
Proof.
  intros HF. unfold long. destruct (next_cases r i) as [[_ Hn]|(a & e & b & -> & _ & Hn)].
  - specialize (Hn []). rewrite app_nil_r in Hn. rewrite Hn. cbn. lia.
  - specialize (Hn []). rewrite app_nil_r in Hn. rewrite Hn.
    rewrite Forall_app, Forall_cons in HF. destruct HF as (_ & (Hk & _) & _). lia.
Qed.

Lemma node_of_ok e r : entry_ok e → Forall entry_ok r → node_ok (node_of e r).
Proof.
  intros (Hk & Hv & Hl) HF. split; cbn; [unfold long; lia|]. split; [done|]. split.
  - apply Forall_fmap, Forall_forall. intros i _. by apply nextkey_long.
  - unfold fwd. destruct (e_level e); [lia|done].
Qed.

Lemma desc_insert A ne B :
  desc (A ++ B) → (∀ e, e ∈ A → e_key ne < e_key e) → (∀ e, e ∈ B → e_key e < e_key ne) →
  desc (A ++ ne :: B).
Proof.
  induction A as [|a A IH]; intros Hd HA HB; cbn in *.
  - constructor; [done|]. by apply Forall_forall.
  - apply StronglySorted_inv in Hd as [Hd HF]. constructor.
    + apply IH; [done| |done]. intros e He. apply HA. by right.
    + rewrite Forall_app in HF. apply Forall_app. split; [by destruct HF|]. constructor; [|by destruct HF].
      apply HA. by left.
Qed.

(** ** What the store holds *)

Section Spec.
Context `{StringStoreLaws D} (p : bytes).
Implicit Types d : D.

Definition skip_holds d (h : entry) (r : list entry) : Prop :=
ss_get d (skip_head p) = show_node (node_of h r) ∧
(∀ r1 e r2, r = r1 ++ e :: r2 → ss_get d (skip_key p (e_key e)) = show_node (node_of e r2)) ∧
entry_ok h ∧ e_level h = maxLevel ∧ Forall entry_ok r ∧ desc r ∧ e_key h ∉ e_key <$> r.

Lemma find_while_spec d h r fuel i k cur r0 r' :
skip_holds d h r → 0 <= k → r = r0 ++ r' → (i < e_level cur)%nat → (length r' <= fuel)%nat →
∃ cur' r1 r2, r' = r1 ++ r2 ∧ find_while fuel d p i k (node_of cur r') = Done (node_of cur' r2) ∧
  (i < e_level cur')%nat ∧ Forall (λ e, k < e_key e) r1 ∧ nextkey r2 i <= k.
Proof.
intros (_ & Hget & _ & _ & Hok & Hd & _) Hk. revert cur r0 r'.
induction fuel as [|fuel IH]; intros cur r0 r' Hr Hi Hf; cbn [find_while node_of sn_forward];
  rewrite fwd_lookup, bind_Done by done;
  (destruct (next_cases r' i) as [[HF Hn]|(a & e & b & -> & Hl & Hn)];
   specialize (Hn []); rewrite app_nil_r in Hn; rewrite Hn).
- rewrite andb_false_l. exists cur, [], r'. split_and!; try done. rewrite Hn. cbn. lia.
- exfalso. rewrite length_app in Hf. cbn in Hf. lia.
- rewrite andb_false_l. exists cur, [], r'. split_and!; try done. rewrite Hn. cbn. lia.
- assert (r = (r0 ++ a) ++ e :: b) as Hr' by (by rewrite <-app_assoc).
  assert (Forall entry_ok (e :: b)) as Heb by (rewrite Hr', Forall_app in Hok; apply Hok).
  apply Forall_cons in Heb as [He Hb].
  destruct (Z.ltb_spec k (e_key e)) as [Hke|Hke].
  + rewrite (proj2 (Z.ltb_lt (-1) _)) by (destruct He; lia). cbn [andb].
    rewrite (Hget _ _ _ Hr'), parse_show_node, bind_Done by (by apply node_of_ok).
    destruct (IH e ((r0 ++ a) ++ [e]) b) as (cur' & r1 & r2 & Hb2 & Hw & Hi' & Hall & Hnk).
    { by rewrite <-app_assoc. } { done. } { rewrite length_app in Hf. cbn in Hf. lia. }
    exists cur', (a ++ e :: r1), r2. split; [by rewrite Hb2, <-app_assoc|]. split; [done|].
    split; [done|]. split; [|done]. apply Forall_app. split; [|by constructor].
    rewrite <-(app_nil_r r0) in Hr. rewrite Hr' in Hd.
    apply desc_app in Hd as (_ & _ & Hd). apply Forall_forall. intros x Hx.
    transitivity (e_key e); [done|]. apply Hd; [apply elem_of_app; by right|by left].
  + rewrite andb_false_r. exists cur, [], (a ++ e :: b). split_and!; try done. by rewrite Hn.
Qed.

Lemma find_levels_spec d h r n fuel k cur r0 r' :
skip_holds d h r → 0 <= k → r = r0 ++ r' → (n <= e_level cur)%nat → (length r' <= fuel)%nat →
(n = 0%nat → k ∉ e_key <$> r') →
find_levels n fuel d p k (node_of cur r')
= Done (if decide (k ∈ e_key <$> r') then ss_get d (skip_key p k) else []).
Proof.
intros Hh Hk. revert cur r0 r'. induction n as [|i IH]; intros cur r0 r' Hr Hn Hf H0'; cbn [find_levels].
{ by rewrite decide_False by auto. }
destruct (find_while_spec d h r fuel i k cur r0 r' Hh Hk Hr ltac:(lia) Hf)
  as (cur' & r1 & r2 & -> & -> & Hi & Hall & Hnk).
rewrite bind_Done. cbn [node_of sn_forward]. rewrite fwd_lookup, bind_Done by done.
assert (k ∉ e_key <$> r1) as Hk1.
{ intros (e & -> & He)%list_elem_of_fmap. rewrite Forall_forall in Hall. apply Hall in He. lia. }
assert (k ∈ e_key <$> (r1 ++ r2) ↔ k ∈ e_key <$> r2) as Hiff
  by (rewrite fmap_app, elem_of_app; naive_solver).
destruct Hh as (Hh1 & Hget & Hh2 & Hh3 & Hok & Hd & Hh4).
destruct (next_cases r2 i) as [[HF Hnx]|(a & e & b & -> & Hl & Hnx)];
  specialize (Hnx []); rewrite app_nil_r in Hnx; rewrite Hnx in Hnk |- *.
- change (nextkey [] i) with (-1) in *. rewrite (proj2 (Z.eqb_neq _ _)) by lia.
  rewrite (IH cur' (r0 ++ r1) r2); [|by rewrite <-app_assoc|lia|rewrite length_app in Hf; lia|].
  + by rewrite (decide_ext _ _ _ _ Hiff).
  + intros ->. destruct r2 as [|e r2]; [by intros ?%elem_of_nil|]. exfalso.
    apply Forall_cons in HF as [He _]. rewrite Hr, !Forall_app, Forall_cons in Hok.
    destruct Hok as (_ & _ & (_ & _ & Hl) & _). lia.
- destruct (Z.eqb_spec (e_key e) k) as [<-|Hne].
  + rewrite decide_True; [done|]. apply Hiff. rewrite fmap_app, elem_of_app. right. by left.
  + rewrite (IH cur' (r0 ++ r1) (a ++ e :: b));
      [|by rewrite <-app_assoc|lia|rewrite length_app in Hf; lia|].
    * by rewrite (decide_ext _ _ _ _ Hiff).
    * intros ->. assert (a = []) as ->.
      { destruct a as [|e' a]; [done|]. exfalso. specialize (Hnx). unfold nextkey in Hnx.
        rewrite Hr, !Forall_app in Hok. destruct Hok as (_ & _ & Hok & _). apply Forall_cons in Hok as [(_ & _ & Hl') _].
        cbn [app list_find] in Hnx. rewrite decide_True in Hnx by lia.
        rewrite Hr in Hd. apply desc_app in Hd as (_ & Hd & _). apply desc_app in Hd as (_ & Hd & _).
        apply desc_app in Hd as (_ & _ & Hd). specialize (Hd e' e ltac:(by left) ltac:(by left)). lia. }
      cbn [app fmap list_fmap]. intros [He|(x & -> & Hx)%list_elem_of_fmap]%elem_of_cons; [done|].
      rewrite Hr in Hd. apply desc_app in Hd as (_ & Hd & _). apply desc_app in Hd as (_ & Hd & _).
      apply StronglySorted_inv in Hd as [_ Hd]. rewrite Forall_forall in Hd.
      apply Hd in Hx. lia.
Qed.

Lemma count_set_le v : (count_set v <= length v)%nat.
Proof. induction v as [|f v IH]; [done|]. cbn. destruct (f =? -1); lia. Qed.

Lemma nodeLevel_spec v : v ≠ [] → ∃ n, nodeLevel v = Done n ∧ (1 <= n <= length v)%nat.
Proof.
destruct v as [|f v]; [done|]. intros _. cbn. pose proof (count_set_le v).
destruct (f =? -1); eexists; (split; [done|lia]).
Qed.

Lemma length_fwd r lv : length (fwd r lv) = lv.
Proof. unfold fwd. by rewrite length_fmap, length_seq. Qed.

Lemma match_nonnil {A B} (l : list A) (x y : B) : l ≠ [] → match l with [] => x | _ :: _ => y end = y.
Proof. by destruct l. Qed.

Lemma sl_find_spec d h r fuel k :
skip_holds d h r → 0 <= k → (length r <= fuel)%nat →
sl_find fuel d p k
= Done (if decide (k = e_key h) then ss_get d (skip_head p)
        else if decide (k ∈ e_key <$> r) then ss_get d (skip_key p k) else []).
Proof.
intros Hh Hk Hf. pose proof Hh as (Hhd & Hget & Hhok & Hlv & Hok & Hd & Hni).
unfold sl_find. rewrite Hhd, match_nonnil by apply show_node_nonnil.
rewrite parse_show_node, bind_Done by (by apply node_of_ok). cbn [node_of sn_key sn_forward].
destruct (Z.eqb_spec (e_key h) k) as [<-|Hne]; [by rewrite decide_True|].
rewrite decide_False by congruence.
destruct (nodeLevel_spec (fwd r (e_level h))) as (n & Hn & Hb).
{ intros E. apply (f_equal length) in E. rewrite length_fwd, Hlv in E. done. }
rewrite Hn, bind_Done. rewrite length_fwd in Hb.
rewrite <-(find_levels_spec d h r n fuel k h [] r); [done|done|done|done|lia|done|lia].
Qed.

(** ** Insertion

The new entry [ne] goes between [A] and [B].  After the levels from [i] on have
been linked, a node before it has the pointers [mixed]. *)

Definition mixed (ne : entry) (B : list entry) (i : nat) (A : list entry) (lv : nat) : list Z :=
(λ j, if (i <=? j)%nat && (j <? e_level ne)%nat then nextkey (A ++ ne :: B) j
      else nextkey (A ++ B) j) <$> seq 0 lv.
Definition mnode ne B i (e : entry) A : SkipNode :=
mkSkipNode (e_key e) (e_val e) (mixed ne B i A (e_level e)).

(** The node [cur], stored under [key], with the entries [A2] of [A] behind it. *)
Definition at_pos (h : entry) (A : list entry) (cur : entry) (A2 : list entry) (key : bytes) : Prop :=
(cur = h ∧ A2 = A ∧ key = skip_head p) ∨
(∃ A1, A = A1 ++ cur :: A2 ∧ key = skip_key p (e_key cur)).

Lemma skip_key_inj a b : skip_key p a = skip_key p b → a = b.
Proof. unfold skip_key. intros E%app_inv_head. injection E as E. by apply to_string_z_inj. Qed.

Lemma skip_key_head a : skip_key p a ≠ skip_head p.
Proof.
unfold skip_key, skip_head. intros E%app_inv_head. injection E as E.
unfold to_string_z in E. destruct (a <? 0); [discriminate E|].
destruct (to_string_cons (Z.to_N a)) as (c & s & Hs & Hc). rewrite Hs in E. injection E as -> _.
discriminate Hc.
Qed.

Lemma desc_split_unique A a1 e1 b1 a2 e2 b2 :
desc A → A = a1 ++ e1 :: b1 → A = a2 ++ e2 :: b2 → e_key e1 = e_key e2 → e1 = e2 ∧ b1 = b2.
Proof.
intros Hd E1 E2 Hk. subst A. revert a2 Hd E2.
induction a1 as [|x a1 IH]; intros [|y a2] Hd E2; cbn in *; simplify_eq; try done.
- apply StronglySorted_inv in Hd as [_ HF]. rewrite Forall_app, Forall_cons in HF. lia.
- apply StronglySorted_inv in Hd as [_ HF]. rewrite Forall_app, Forall_cons in HF. lia.
- apply StronglySorted_inv in Hd as [Hd _]. by eapply IH.
Qed.

Lemma at_pos_unique h A c1 s1 c2 s2 key :
desc A → at_pos h A c1 s1 key → at_pos h A c2 s2 key → c1 = c2 ∧ s1 = s2.
Proof.
intros Hd [(-> & -> & ->)|(a1 & E1 & ->)] [(-> & -> & E)|(a2 & E2 & E)].
- done.
- symmetry in E. by apply skip_key_head in E.
- by apply skip_key_head in E.
- apply skip_key_inj in E. by eapply desc_split_unique.
Qed.

Lemma mixed_all ne B A lv : mixed ne B 0 A lv = fwd (A ++ ne :: B) lv.
Proof.
unfold mixed, fwd. apply list_fmap_ext. intros i j Hj.
destruct (Nat.leb_spec 0 j), (Nat.ltb_spec j (e_level ne)) as [|Hge]; try (done || lia). cbn [andb].
destruct (next_cases A j) as [[_ Hn]|(a & e & b & _ & _ & Hn)]; rewrite !Hn; [|done].
unfold nextkey. cbn [list_find]. rewrite decide_False by lia.
by destruct (list_find _ B) as [[]|].
Qed.

Lemma mixed_none ne B i A lv : (e_level ne <= i)%nat → mixed ne B i A lv = fwd (A ++ B) lv.
Proof.
intros Hi. unfold mixed, fwd. apply list_fmap_ext. intros n j Hj.
destruct (Nat.leb_spec i j), (Nat.ltb_spec j (e_level ne)); done || lia.
Qed.

Lemma mixed_lookup ne B j A lv :
(j < lv)%nat → item (mixed ne B (S j) A lv) j = Done (nextkey (A ++ B) j).
Proof.
intros Hj. unfold item, mixed. rewrite list_lookup_fmap, lookup_seq_lt by done. cbn [fmap option_fmap option_map].
destruct (Nat.leb_spec (S j) (0 + j)); [lia|done].
Qed.

(** Linking level [j] changes the last node before the new one on that level,
and no other. *)
Lemma mixed_step ne B j A lv :
(j < e_level ne)%nat →
mixed ne B j A lv
= if decide (Forall (λ e, e_level e <= j)%nat A ∧ (j < lv)%nat)
  then <[j := e_key ne]> (mixed ne B (S j) A lv) else mixed ne B (S j) A lv.
Proof.
intros Hne. apply list_eq. intros i.
assert (mixed ne B j A lv !! i
  = (if (i =? j)%nat then (λ _, nextkey (A ++ ne :: B) j) <$> mixed ne B (S j) A lv !! i
     else mixed ne B (S j) A lv !! i)) as ->.
{ unfold mixed. rewrite !list_lookup_fmap. destruct (decide (i < lv)%nat) as [Hi|Hi].
  - rewrite lookup_seq_lt by done. cbn [fmap option_fmap option_map]. rewrite Nat.add_0_l.
    destruct (Nat.eqb_spec i j) as [->|Hij].
    + rewrite Nat.leb_refl, (proj2 (Nat.ltb_lt _ _)) by done. done.
    + f_equal. destruct (Nat.leb_spec j i), (Nat.leb_spec (S j) i); done || lia.
  - rewrite lookup_seq_ge by lia. by destruct (i =? j)%nat. }
assert (length (mixed ne B (S j) A lv) = lv) as Hlen
  by (unfold mixed; by rewrite length_fmap, length_seq).
destruct (Nat.eqb_spec i j) as [->|Hij].
- destruct (decide (j < lv)%nat) as [Hj|Hj].
  + destruct (lookup_lt_is_Some_2 (mixed ne B (S j) A lv) j) as [f Hf]; [by rewrite Hlen|].
    rewrite Hf. cbn. destruct (next_cases A j) as [[HF Hn]|(a & e & b & -> & Hl & Hn)].
    * rewrite decide_True by done. rewrite list_lookup_insert_eq by (by rewrite Hlen).
      rewrite Hn. unfold nextkey. cbn [list_find]. by rewrite decide_True.
    * rewrite decide_False by (intros [HF _]; rewrite Forall_app, Forall_cons in HF; lia).
      rewrite Hf. f_equal. rewrite Hn. rewrite <-(Hn B).
      assert (item (mixed ne B (S j) (a ++ e :: b) lv) j = Done f) as Hitem by (unfold item; by rewrite Hf).
      rewrite mixed_lookup in Hitem by done. by apply Done_inj in Hitem.
  + rewrite decide_False by tauto. rewrite lookup_ge_None_2 by lia. done.
- case_decide; [|done]. by rewrite list_lookup_insert_ne.
Qed.

Section Insert.
Context (d : D) (h : entry) (A : list entry) (ne : entry) (B : list entry).
Context (Hh : skip_holds d h (A ++ B)) (Hnew : entry_ok ne).
Context (HA : ∀ e, e ∈ A → e_key ne < e_key e) (HB : ∀ e, e ∈ B → e_key e < e_key ne).

Definition upd_ok (i : nat) (update : gmap bytes SkipNode) : Prop :=
∀ cur A2 key, at_pos h A cur A2 key →
  match update !! key with
  | Some n => n = mnode ne B i cur A2
  | None => mixed ne B i A2 (e_level cur) = fwd (A2 ++ B) (e_level cur)
  end.

Lemma desc_A : desc A.
Proof. destruct Hh as (_ & _ & _ & _ & _ & Hd & _). by apply desc_app in Hd as [Hd _]. Qed.

Lemma insert_while_spec fuel j update key cur A2 :
upd_ok (S j) update → at_pos h A cur A2 key → (j < e_level cur)%nat → (length A2 <= fuel)%nat →
∃ cur' A2' key',
  insert_while fuel d p j (e_key ne) update key (mnode ne B (S j) cur A2)
    = Done (key', mnode ne B (S j) cur' A2') ∧
  at_pos h A cur' A2' key' ∧ (j < e_level cur')%nat ∧ Forall (λ e, e_level e <= j)%nat A2'
  ∧ A2' `suffix_of` A2.
Proof.
intros Hu. revert cur A2 key.
induction fuel as [|fuel IH]; intros cur A2 key Hpos Hj Hf; cbn [insert_while mnode sn_forward];
  rewrite mixed_lookup, bind_Done by done;
  (destruct (next_cases A2 j) as [[HF Hn]|(a & e & b & -> & Hl & Hn)]; rewrite Hn).
1,3: assert (nextkey B j < e_key ne) as Hlt by
  (destruct (next_cases B j) as [[_ HnB]|(a & e & b & EB & _ & HnB)]; specialize (HnB []);
   rewrite app_nil_r in HnB; rewrite HnB;
   [destruct Hnew; change (nextkey [] j) with (-1); lia
   |apply HB; rewrite EB, elem_of_app; right; by left]);
  rewrite (proj2 (Z.ltb_ge (e_key ne) _)), andb_false_r by lia;
  exists cur, A2, key; split_and!; done.
- exfalso. rewrite length_app in Hf. cbn in Hf. lia.
- assert (∃ A1, A = A1 ++ e :: b) as [A1 EA].
  { destruct Hpos as [(-> & E & ->)|(A1 & E & ->)].
    - exists a. by rewrite <-E.
    - exists (A1 ++ cur :: a). rewrite E. by rewrite <-app_assoc. }
  assert (at_pos h A e b (skip_key p (e_key e))) as Hpe by (right; eauto).
  pose proof (HA e) as HAe. rewrite EA, elem_of_app in HAe. specialize (HAe ltac:(right; by left)).
  destruct Hh as (_ & Hget & _ & _ & Hok & _ & _).
  assert (Forall entry_ok (e :: b ++ B)) as Heb.
  { rewrite EA, <-app_assoc, Forall_app in Hok. by destruct Hok. }
  apply Forall_cons in Heb as [He HbB].
  rewrite (proj2 (Z.ltb_lt (-1) _)), (proj2 (Z.ltb_lt (e_key ne) _)) by (destruct He; lia). cbn [andb].
  specialize (Hu _ _ _ Hpe) as Hue.
  assert (match update !! skip_key p (e_key e) with
          | Some n => Done n
          | None => parse_node (ss_get d (skip_key p (e_key e)))
          end = Done (mnode ne B (S j) e b)) as ->.
  { destruct (update !! _) as [n|]; [by rewrite Hue|].
    rewrite (Hget A1 e (b ++ B)) by (rewrite EA; by rewrite <-app_assoc).
    rewrite parse_show_node by (by apply node_of_ok). unfold node_of, mnode. by rewrite Hue. }
  rewrite bind_Done.
  destruct (IH e b _ Hpe Hl) as (cur' & A2' & key' & Hw & Hpos' & Hj' & HF' & Hsuf).
  { rewrite length_app in Hf. cbn in Hf. lia. }
  exists cur', A2', key'. split_and!; try done.
  etrans; [exact Hsuf|]. apply suffix_app_r, suffix_cons_r. done.
Qed.

Lemma insert_levels_spec n fuel update key cur A2 newnode :
upd_ok n update → at_pos h A cur A2 key → (n <= e_level cur)%nat → (n <= e_level ne)%nat →
(length A <= fuel)%nat → (length A2 <= length A)%nat →
newnode = mkSkipNode (e_key ne) (e_val ne)
            ((λ j, if (n <=? j)%nat then nextkey B j else -1) <$> seq 0 (e_level ne)) →
(∀ k, is_Some (update !! k) → ∃ c s, at_pos h A c s k) →
∃ update', insert_levels n fuel d p (e_key ne) update key (mnode ne B n cur A2) newnode
  = Done (update', node_of ne B) ∧ upd_ok 0 update' ∧
  (∀ k, is_Some (update' !! k) → ∃ c s, at_pos h A c s k).
Proof.
revert update key cur A2 newnode. induction n as [|j IH];
  intros update key cur A2 newnode Hu Hpos Hcur Hne Hf HlA -> Hdom; cbn [insert_levels].
{ exists update. done. }
destruct (insert_while_spec fuel j update key cur A2 Hu Hpos ltac:(lia) ltac:(lia))
  as (cur' & A2' & key' & -> & Hpos' & Hj' & HF & Hsuf).
rewrite bind_Done. cbn [mnode sn_forward]. rewrite mixed_lookup, bind_Done by done.
assert (nextkey (A2' ++ B) j = nextkey B j) as ->.
{ destruct (next_cases A2' j) as [[_ Hn]|(a & e & b & -> & Hl & _)]; [done|].
  rewrite Forall_app, Forall_cons in HF. lia. }
assert (∀ c s, s = A2' → set_forward (mnode ne B (S j) c s) j (e_key ne) = mnode ne B j c s ∨ (e_level c <= j)%nat) as Hset.
{ intros c s ->. destruct (decide (j < e_level c)%nat); [left|right; lia].
  unfold set_forward, mnode. cbn [sn_key sn_value sn_forward].
  by rewrite (mixed_step ne B j A2'), decide_True by (done || lia). }
change (mkSkipNode (e_key cur') (e_val cur') (mixed ne B (S j) A2' (e_level cur')))
  with (mnode ne B (S j) cur' A2').
destruct (Hset cur' A2' eq_refl) as [->|]; [|lia].
apply IH; try done; try lia.
- intros c s k Hc. destruct (decide (k = key')) as [->|Hk].
  + destruct (at_pos_unique _ _ _ _ _ _ _ desc_A Hc Hpos') as [-> ->]. by rewrite lookup_insert_eq.
  + rewrite lookup_insert_ne by congruence. specialize (Hu c s k Hc).
    assert (mixed ne B j s (e_level c) = mixed ne B (S j) s (e_level c)) as Heq.
    { rewrite mixed_step by lia. rewrite decide_False; [done|]. intros [HFs Hlc]. apply Hk.
      (* both are the last node on level [j] before the new one *)
      destruct Hc as [(-> & -> & ->)|(a1 & E1 & ->)], Hpos' as [(-> & -> & ->)|(a2 & E2 & ->)]; try done.
      - exfalso. rewrite E2, Forall_app, Forall_cons in HFs. lia.
      - exfalso. rewrite E1, Forall_app, Forall_cons in HF. lia.
      - rewrite E1 in E2. f_equal.
        destruct (decide (length a1 < length a2)%nat) as [Hlt|Hge].
        + exfalso. apply (f_equal (drop (S (length a1)))) in E2.
          rewrite (cons_middle _ a1 s), app_assoc in E2.
          rewrite drop_app_length' in E2 by (rewrite length_app; cbn; lia).
          rewrite drop_app_le in E2 by lia. rewrite E2, Forall_app, Forall_cons in HFs. lia.
        + destruct (decide (length a2 < length a1)%nat) as [Hlt|Hge'].
          * exfalso. apply (f_equal (drop (S (length a2)))) in E2.
            rewrite (cons_middle _ a2 A2'), (app_assoc a2) in E2.
            rewrite (drop_app_length' (a2 ++ [cur'])) in E2 by (rewrite length_app; cbn; lia).
            rewrite drop_app_le in E2 by lia. rewrite <-E2, Forall_app, Forall_cons in HF. lia.
          * apply app_inj_1 in E2 as [_ E2]; [|lia]. by injection E2 as -> _. }
    destruct (update !! k) as [n|]; [|by rewrite Heq].
    rewrite Hu. unfold mnode. by rewrite Heq.
- apply suffix_length in Hsuf. lia.
- unfold set_forward. cbn [sn_key sn_value sn_forward]. f_equal.
  apply list_eq. intros i. destruct (decide (i = j)) as [->|Hij].
  + rewrite list_lookup_insert_eq by (rewrite length_fmap, length_seq; lia).
    rewrite list_lookup_fmap, lookup_seq_lt by lia. cbn. by rewrite Nat.leb_refl.
  + rewrite list_lookup_insert_ne by done. rewrite !list_lookup_fmap.
    destruct (decide (i < e_level ne)%nat).
    * rewrite lookup_seq_lt by done. cbn. f_equal.
      destruct (Nat.leb_spec j i), i as [|i]; try lia; cbn;
        destruct (Nat.leb_spec j i); try done; lia.
    * by rewrite lookup_seq_ge by lia.
- intros k [n Hn]. destruct (decide (k = key')) as [->|Hk]; [eauto|].
  rewrite lookup_insert_ne in Hn by congruence. eauto.
Qed.
End Insert.

Lemma at_pos_inside h A c s key : at_pos h A c s key → ∃ x, key = p ++ #"|" ++ x.
Proof. intros [(_ & _ & ->)|(_ & _ & ->)]; unfold skip_head, skip_key; eauto. Qed.

Lemma ss_get_update d (update : gmap bytes SkipNode) key :
ss_get (ss_puts d ((λ e, (e.1, show_node e.2)) <$> map_entries update)) key
= match update !! key with Some n => show_node n | None => ss_get d key end.
Proof.
set (kvs := (λ e, (e.1, show_node e.2)) <$> map_entries update).
assert (kvs.*1 = (map_entries update).*1) as Hk.
{ unfold kvs. rewrite <-list_fmap_compose. by apply list_fmap_ext. }
destruct (update !! key) as [n|] eqn:E.
- apply ss_get_puts_in; [rewrite Hk; apply map_entries_NoDup|].
  apply list_elem_of_fmap. exists (key, n). split; [done|]. by apply elem_of_map_entries.
- apply ss_get_puts_notin. rewrite Hk. intros ([k x] & -> & Hx)%list_elem_of_fmap.
  apply elem_of_map_entries in Hx. cbn in E. congruence.
Qed.

(** A first entry makes the head. *)
Lemma sl_insert_first d fuel k v level :
ss_get d (skip_head p) = [] → 0 <= k < 2 ^ 63 → no_bar v →
∃ d', sl_insert fuel d p k v level = Done d' ∧ skip_holds d' (mkEntry k v maxLevel) [] ∧
  ∀ key, (∀ x, key ≠ p ++ #"|" ++ x) → ss_get d' key = ss_get d key.
Proof.
intros Hd Hk Hv. unfold sl_insert. rewrite Hd. eexists. split; [done|]. split.
- split; [|split; [|split; [|split; [|split; [|split]]]]]; try done.
  + by rewrite ss_get_put.
  + intros [] ? ? E; discriminate E.
  + split; [done|]. split; [done|]. cbn. unfold maxLevel. lia.
  + constructor.
  + by intros ?%elem_of_nil.
- intros key Hkey. apply ss_get_put_ne. intros E. apply (Hkey #"head"). done.
Qed.

(** A further entry with a new key is linked in order. *)
Lemma sl_insert_spec d h A B fuel k v level :
skip_holds d h (A ++ B) → entry_ok (mkEntry k v level) → k ≠ e_key h →
(∀ e, e ∈ A → k < e_key e) → (∀ e, e ∈ B → e_key e < k) → (length (A ++ B) <= fuel)%nat →
∃ d', sl_insert fuel d p k v level = Done d' ∧ skip_holds d' h (A ++ mkEntry k v level :: B) ∧
  ∀ key, (∀ x, key ≠ p ++ #"|" ++ x) → ss_get d' key = ss_get d key.
Proof.
intros Hh Hnew Hkh HA HB Hf. set (ne := mkEntry k v level).
pose proof Hh as (Hhd & Hget & Hhok & Hlv & Hok & Hd & Hni).
assert (k ∉ e_key <$> A ++ B) as Hk.
{ intros (e & -> & [He|He]%elem_of_app)%list_elem_of_fmap; [apply HA in He|apply HB in He]; lia. }
unfold sl_insert. cbv zeta. rewrite Hhd, match_nonnil by apply show_node_nonnil.
rewrite (sl_find_spec d h (A ++ B)); [|done|by destruct Hnew as [[? _] _]|done].
rewrite decide_False, decide_False, bind_Done by done.
rewrite parse_show_node, bind_Done by (by apply node_of_ok).
destruct (insert_levels_spec d h A ne B Hh Hnew HA HB level fuel ∅ (skip_head p) h A
  (new_node k v level)) as (update & Hins & Hu & Hdom).
{ intros c s key _. rewrite lookup_empty. by apply mixed_none. }
{ by left. }
{ rewrite Hlv. destruct Hnew as (_ & _ & Hl). cbn in Hl. lia. }
{ done. }
{ rewrite length_app in Hf. lia. }
{ done. }
{ unfold new_node. f_equal. apply list_eq. intros i. rewrite list_lookup_fmap.
  destruct (decide (i < level)%nat) as [Hi|Hi].
  - rewrite lookup_replicate_2 by done. rewrite lookup_seq_lt by done.
    cbn [fmap option_fmap option_map]. destruct (Nat.leb_spec level (0 + i)); [lia|done].
  - rewrite lookup_seq_ge by (cbn; lia). apply lookup_replicate_None. lia. }
{ intros key [n Hn]. by rewrite lookup_empty in Hn. }
assert (mnode ne B level h A = node_of h (A ++ B)) as Hm.
{ unfold mnode, node_of. by rewrite mixed_none. }
rewrite Hm in Hins. cbn [e_key ne] in Hins. fold ne in Hins. change (e_key ne) with k in Hins.
rewrite Hins, bind_Done. eexists. split; [done|]. split.
- assert (∀ c s key, at_pos h A c s key →
    ss_get (ss_put (ss_puts d ((λ e, (e.1, show_node e.2)) <$> map_entries update)) (skip_key p k)
      (show_node (node_of ne B))) key = show_node (node_of c (s ++ ne :: B))) as Hpos.
  { intros c s key Hp. rewrite ss_get_put_ne, ss_get_update.
    - specialize (Hu c s key Hp). destruct (update !! key) as [n|].
      + rewrite Hu. unfold mnode, node_of. by rewrite mixed_all.
      + rewrite mixed_all in Hu. transitivity (show_node (node_of c (s ++ B))).
        * destruct Hp as [(-> & -> & ->)|(A1 & -> & ->)]; [done|].
          apply (Hget A1). by rewrite <-app_assoc.
        * unfold node_of. by rewrite Hu.
    - destruct Hp as [(-> & -> & ->)|(A1 & EA & ->)]; [apply skip_key_head|].
      intros E%skip_key_inj. specialize (HA c). rewrite EA, elem_of_app in HA.
      specialize (HA ltac:(right; by left)). lia. }
  split; [by apply Hpos; left|]. split; [|split; [done|split; [done|split; [|split]]]].
  + intros r1 e r2 Hr. pose proof (desc_insert A ne B Hd HA HB) as Hd'.
    assert (e ∈ A ++ ne :: B) as He by (rewrite Hr, elem_of_app; right; by left).
    apply elem_of_app in He as [He|[->|He]%elem_of_cons].
    * apply list_elem_of_split in He as (a1 & a2 & EA).
      destruct (desc_split_unique (A ++ ne :: B) r1 e r2 a1 e (a2 ++ ne :: B)) as [_ ->];
        [done|done|by rewrite EA, <-app_assoc|done|].
      apply Hpos. right. by exists a1.
    * destruct (desc_split_unique (A ++ ne :: B) r1 ne r2 A ne B) as [_ ->]; [done..|].
      apply ss_get_put.
    * apply list_elem_of_split in He as (b1 & b2 & EB).
      destruct (desc_split_unique (A ++ ne :: B) r1 e r2 (A ++ ne :: b1) e b2) as [_ ->];
        [done|done|rewrite EB, <-app_assoc; done|done|].
      pose proof (HB e) as HBe. rewrite EB, elem_of_app in HBe. specialize (HBe ltac:(right; by left)).
      rewrite ss_get_put_ne by (intros E%skip_key_inj; lia). rewrite ss_get_update.
      destruct (update !! skip_key p (e_key e)) as [n|] eqn:Eu.
      { exfalso. destruct (Hdom _ (mk_is_Some _ _ Eu)) as (c & s & [(_ & _ & E)|(a1 & EA & E)]).
        - by apply skip_key_head in E.
        - apply skip_key_inj in E. specialize (HA c). rewrite EA, elem_of_app in HA.
          specialize (HA ltac:(right; by left)). lia. }
      apply (Hget (A ++ b1)). by rewrite EB, <-app_assoc.
  + rewrite Forall_app in Hok. apply Forall_app. split; [by destruct Hok|].
    constructor; [done|by destruct Hok].
  + by apply desc_insert.
  + rewrite fmap_app, elem_of_app, fmap_cons, elem_of_cons. rewrite fmap_app, elem_of_app in Hni.
    cbn. intros [?|[?|?]]; [tauto|congruence|tauto].
- intros key Hkey. rewrite ss_get_put_ne, ss_get_update.
  + destruct (update !! key) as [n|] eqn:Eu; [|done]. exfalso.
    destruct (Hdom _ (mk_is_Some _ _ Eu)) as (c & s & Hp). apply at_pos_inside in Hp as [x Hx].
    by apply (Hkey x).
  + intros E. apply (Hkey (to_string_z k)). done.
Qed.

(** A stored node is of an entry. *)
Definition is_text (t : bytes) (e : entry) : Prop :=
∃ n, t = show_node n ∧ parse_node t = Done n ∧ sn_key n = e_key e ∧ sn_value n = e_val e.

Lemma is_text_node e r : entry_ok e → Forall entry_ok r → is_text (show_node (node_of e r)) e.
Proof. intros He Hr. exists (node_of e r). split; [done|]. split; [|done]. by apply parse_show_node, node_of_ok. Qed.

(** [scan] walks the bottom level. *)
Lemma scan_from_spec d h r n cur r0 r' key :
skip_holds d h r → r = r0 ++ r' → (1 <= e_level cur)%nat → entry_ok cur →
ss_get d key = show_node (node_of cur r') →
∃ texts, scan_from n d key p = Done texts ∧
  Forall2 is_text texts (take n (cur :: r')).
Proof.
intros Hh. pose proof Hh as (Hhd & Hget & Hhok & Hlv & Hok & Hd & Hni).
revert cur r0 r' key. induction n as [|n IH]; intros cur r0 r' key Hr Hl Hcur Hkey; cbn [scan_from].
{ exists []. split; [done|constructor]. }
cbv zeta. rewrite Hkey, match_nonnil by apply show_node_nonnil.
assert (Forall entry_ok r') as Hok' by (rewrite Hr, Forall_app in Hok; apply Hok).
rewrite parse_show_node, bind_Done by (by apply node_of_ok). cbn [node_of sn_forward].
rewrite fwd_lookup, bind_Done by lia.
destruct r' as [|e r'].
- change (nextkey [] 0) with (-1). cbn. eexists. split; [done|].
  rewrite take_nil. constructor; [by apply is_text_node|constructor].
- apply Forall_cons in Hok' as [He Hok'].
  assert (nextkey (e :: r') 0 = e_key e) as ->.
  { unfold nextkey. cbn [list_find]. destruct He as (_ & _ & Hle). by rewrite decide_True by lia. }
  rewrite (proj2 (Z.ltb_ge _ _)) by (destruct He; lia).
  destruct (IH e (r0 ++ [e]) r' (skip_key p (e_key e))) as (texts & -> & HF).
  { by rewrite <-app_assoc. } { destruct He as (_ & _ & Hle). lia. } { done. }
  { apply (Hget r0). by rewrite Hr. }
  rewrite bind_Done. eexists. split; [done|]. cbn [take]. constructor; [apply is_text_node; [done|by constructor]|exact HF].
Qed.
(** ** Sequences of insertions *)

Definition insert_entry (ne : entry) (r : list entry) : list entry :=
filter (λ e, e_key ne < e_key e) r ++ ne :: filter (λ e, e_key e < e_key ne) r.

Lemma split_desc k r : desc r → k ∉ e_key <$> r →
r = filter (λ e, k < e_key e) r ++ filter (λ e, e_key e < k) r.
Proof.
induction r as [|e r IH]; intros Hd Hk; [done|].
apply StronglySorted_inv in Hd as [Hd HF]. cbn in Hk. apply not_elem_of_cons in Hk as [Hne Hk].
destruct (decide (k < e_key e)) as [Hlt|Hge].
- rewrite filter_cons_True, (filter_cons_False (λ e, e_key e < k)) by lia. cbn [app].
  by rewrite <-IH.
- assert (∀ x, x ∈ r → e_key x < k) as Hr.
  { intros x Hx. rewrite Forall_forall in HF. apply HF in Hx. lia. }
  rewrite filter_cons_False, (filter_cons_True (λ e, e_key e < k)) by lia.
  assert (filter (λ e, k < e_key e) r = []) as ->.
  { clear -Hr. induction r as [|x r IH]; [done|]. rewrite filter_cons_False.
    - apply IH. intros y Hy. apply Hr. by right.
    - specialize (Hr x ltac:(by left)). lia. }
  cbn [app]. f_equal. clear -Hr. induction r as [|x r IH]; [done|].
  rewrite filter_cons_True by (apply Hr; by left). f_equal. apply IH. intros y Hy. apply Hr. by right.
Qed.

Lemma insert_entry_perm ne r : desc r → e_key ne ∉ e_key <$> r → insert_entry ne r ≡ₚ ne :: r.
Proof.
intros Hd Hk. unfold insert_entry. rewrite <-Permutation_middle.
by rewrite <-(split_desc (e_key ne) r).
Qed.

Lemma sl_insert_fresh d h r fuel ne :
skip_holds d h r → entry_ok ne → e_key ne ≠ e_key h → e_key ne ∉ e_key <$> r →
(length r <= fuel)%nat →
∃ d', sl_insert fuel d p (e_key ne) (e_val ne) (e_level ne) = Done d' ∧
  skip_holds d' h (insert_entry ne r) ∧
  ∀ key, (∀ x, key ≠ p ++ #"|" ++ x) → ss_get d' key = ss_get d key.
Proof.
intros Hh Hok Hne Hk Hf.
assert (desc r) as Hd by (by destruct Hh as (_ & _ & _ & _ & _ & Hd & _)).
pose proof (split_desc (e_key ne) r Hd Hk) as Hr. unfold insert_entry.
destruct ne as [k v lv]. cbn [e_key e_val e_level] in *.
apply (sl_insert_spec d h); try done; try (by rewrite <-Hr).
- intros e He. by apply list_elem_of_filter in He as [He _].
- intros e He. by apply list_elem_of_filter in He as [He _].
Qed.

Fixpoint sl_inserts (fuel : nat) d (es : list entry) : outcome D :=
match es with
| [] => Done d
| e :: es => d ← sl_insert fuel d p (e_key e) (e_val e) (e_level e); sl_inserts fuel d es
end.

Lemma sl_inserts_spec fuel es d h r :
skip_holds d h r → Forall entry_ok es → NoDup (e_key <$> h :: r ++ es) →
(length r + length es <= fuel)%nat →
∃ d' r', sl_inserts fuel d es = Done d' ∧ skip_holds d' h r' ∧ r' ≡ₚ r ++ es.
Proof.
revert d r. induction es as [|ne es IH]; intros d r Hh HF Hnd Hf; cbn [sl_inserts].
{ exists d, r. by rewrite app_nil_r. }
apply Forall_cons in HF as [Hne HF].
assert (desc r) as Hd by (by destruct Hh as (_ & _ & _ & _ & _ & Hd & _)).
cbn [fmap list_fmap] in Hnd. apply NoDup_cons in Hnd as [Hnh Hnd].
rewrite fmap_app, fmap_cons in Hnh, Hnd.
assert (e_key ne ∉ e_key <$> r) as Hk.
{ apply NoDup_app in Hnd as (_ & Hnd & _). intros Hin. apply (Hnd _ Hin). by left. }
destruct (sl_insert_fresh d h r fuel ne) as (d1 & -> & Hh1 & _); [done|done| |done|cbn in Hf; lia|].
{ intros E. apply Hnh. rewrite <-E, elem_of_app. right. by left. }
rewrite bind_Done. pose proof (insert_entry_perm ne r Hd Hk) as Hp.
destruct (IH d1 (insert_entry ne r)) as (d' & r' & -> & Hh' & Hp'); [done|done| | |].
- cbn [fmap list_fmap]. rewrite fmap_app, Hp. cbn [fmap list_fmap].
  rewrite <-Permutation_middle in Hnh, Hnd. by constructor.
- rewrite Hp. cbn in Hf |- *. lia.
- exists d', r'. split; [done|]. split; [done|]. rewrite Hp', Hp. cbn. by rewrite <-Permutation_middle.
Qed.

Lemma find_holds d h r fuel e :
skip_holds d h r → e ∈ h :: r → (length r <= fuel)%nat →
∃ t, sl_find fuel d p (e_key e) = Done t ∧ is_text t e.
Proof.
intros Hh He Hf. pose proof Hh as (Hhd & Hget & Hhok & Hlv & Hok & Hd & Hni).
rewrite (sl_find_spec d h r) by (done ||
  (apply elem_of_cons in He as [->|He]; [destruct Hhok; lia|
   rewrite Forall_forall in Hok; apply Hok in He; destruct He; lia])).
apply elem_of_cons in He as [->|He].
- rewrite decide_True by done. eexists. split; [done|]. rewrite Hhd. by apply is_text_node.
- rewrite decide_False.
  + rewrite decide_True by (by apply list_elem_of_fmap_2). eexists. split; [done|].
    apply list_elem_of_split in He as (r1 & r2 & Er). rewrite (Hget r1 e r2 Er).
    rewrite Er, Forall_app, Forall_cons in Hok. destruct Hok as (_ & ? & ?). by apply is_text_node.
  + intros E. apply Hni. rewrite <-E. by apply list_elem_of_fmap_2.
Qed.


(** Inserting again under the key that was inserted first loses the value:
    the node is written under its number while every search reads the head. *)
Theorem reinsert_head_lost fuel d h r v level :
skip_holds d h r → (length r <= fuel)%nat → no_bar v →
∃ d', sl_insert fuel d p (e_key h) v level = Done d' ∧ skip_holds d' h r ∧
  sl_find fuel d' p (e_key h) = sl_find fuel d p (e_key h).
Proof.
intros Hh Hf Hv. pose proof Hh as (Hhd & Hget & Hhok & Hlv & Hok & Hd & Hni).
assert (0 <= e_key h) as Hk0 by (destruct Hhok; lia).
unfold sl_insert. cbv zeta. rewrite Hhd, match_nonnil by apply show_node_nonnil.
rewrite (sl_find_spec d h r), decide_True, bind_Done by done.
rewrite Hhd. destruct (show_node (node_of h r)) as [|c t] eqn:Et; [by apply show_node_nonnil in Et|].
rewrite <-Et, parse_show_node, bind_Done by (by apply node_of_ok).
eexists. split; [done|].
assert (skip_holds (ss_put d (skip_key p (e_key h)) (show_node
  (mkSkipNode (e_key h) v (fwd r (e_level h))))) h r) as Hh'.
{ split; [|split; [|done]].
  - rewrite ss_get_put_ne by apply skip_key_head. by rewrite Hhd.
  - intros r1 e r2 Er. rewrite ss_get_put_ne; [by apply (Hget r1)|]. intros E%skip_key_inj.
    apply Hni. rewrite E, Er, fmap_app, elem_of_app. right. by left. }
split; [exact Hh'|]. rewrite (sl_find_spec _ h r) by done. rewrite decide_True by done.
f_equal. exact (proj1 Hh').
Qed.
End Spec.

(** ** Witnesses *)

Definition three_versions : list entry :=
  [mkEntry 5 #"a" 2; mkEntry 9 #"b" 1; mkEntry 7 #"c" 3].

Lemma three_versions_ok : Forall entry_ok three_versions ∧ NoDup (e_key <$> three_versions).
Proof.
  split; [|apply (bool_decide_unpack _); vm_compute; exact I].
  repeat constructor; try (apply (bool_decide_unpack _); vm_compute; exact I); cbn; lia.
Qed.

Lemma no_versions : ss_get empty_db (skip_head #"k") = [].
Proof. reflexivity. Qed.


Lemma reinsert_head_lost_witness :
  ∃ d1 d2, sl_insert 1 empty_db #"k" 5 #"a" 1 = Done d1 ∧ sl_insert 1 d1 #"k" 5 #"b" 1 = Done d2 ∧
    sl_find 1 d2 #"k" 5 = sl_find 1 d1 #"k" 5.
Proof.
  destruct (sl_insert_first #"k" empty_db 1 5 #"a" 1 no_versions ltac:(lia)
    ltac:(apply (bool_decide_unpack _); vm_compute; exact I)) as (d1 & Hi & Hh & _).
  destruct (reinsert_head_lost #"k" 1 d1 (mkEntry 5 #"a" maxLevel) [] #"b" 1 Hh ltac:(cbn; lia)
    ltac:(apply (bool_decide_unpack _); vm_compute; exact I)) as (d2 & Hi2 & _ & Hf).
  exists d1, d2. split; [exact Hi|]. split; [exact Hi2|exact Hf].
Defined.
