(* ===== verification/LedgerDB.v ===== *)
(** * [ledgerdb/ledgerdb.cc]: the ledger

    [Set] appends a block of key-value pairs to the journal, records each pair
    as a version in a skip list and queues the block; the thread [buildTree]
    takes the queued blocks, extends the Merkle tree over the journal and the
    Merkle Patricia trie over the keys and writes a commit.  Readers get values
    from the skip lists and proofs from the two trees of the latest commit. *)

From S2P Require Import Prelude Cpp Hash Chunk DB MerkleTree MPTNode Trie LedgerTypes Reply SkipList.

Open Scope N_scope.

(** ** State *)

Record Tree_Block := mkTreeBlock {
  tb_blk_seq : N;
  tb_mpt_ks : list bytes;
  tb_mpt_ts : bytes;
}.

(** [skiplist_head_] maps a key to the time of its latest version. *)
Record LedgerDB (D : Type) := mkLedgerDB {
  ldb_db : D;
  next_block_seq : N;
  commit_seq : N;
  tree_queue : list Tree_Block;
  skiplist_head : gmap bytes Z;
}.
Arguments mkLedgerDB {D} _ _ _ _ _.
Arguments ldb_db {D} _.
Arguments next_block_seq {D} _.
Arguments commit_seq {D} _.
Arguments tree_queue {D} _.
Arguments skiplist_head {D} _.

(** A value read: its time, its block and the value. *)
Abbreviation versioned := (N * (N * bytes))%type.

Record Auditor := mkAuditor {
  au_digest : bytes;
  au_commit_seq : N;
  au_first_block_seq : N;
  au_commits : list bytes;
  au_blocks : list bytes;
  au_mptproofs : list MPTProof;
}.

Definition ledger_key (blk_seq : N) : bytes := #"ledger-" ++ to_string blk_seq.
Definition skip_prefix (key : bytes) : bytes := #"skiplist_" ++ key.

(** The numbers from [a] to [b], both included. *)
Definition range (a b : N) : list N :=
  (λ i : nat, a + N.of_nat i) <$> seq 0 (N.to_nat (b + 1 - a)).

Section LedgerDB.
Context `{Blake2b, StringStore D, ChunkStore D} (junk : nat → ascii).
(** The fuel of the trie and of the skip lists. *)
Context (fuel : nat).
Implicit Types l : LedgerDB D.

(** The constructor, on an opened store. *)
Definition create_ledger (d : D) : LedgerDB D := mkLedgerDB d 0 0 [] ∅.

(** ** [Set] *)

(** The loop over the keys; [levels] are the levels the skip list draws. *)
Fixpoint set_keys l (blk_seq_str : bytes) (timestamp : N) (kvs : list (bytes * bytes))
  (levels : list nat) : outcome (LedgerDB D) :=
match kvs, levels with
| [], _ => Done l
| (k, v) :: kvs, lv :: levels =>
    d ← sl_insert fuel (ldb_db l) (skip_prefix k) (int64 timestamp) (blk_seq_str ++ #"@" ++ v) lv;
    set_keys (mkLedgerDB d (next_block_seq l) (commit_seq l) (tree_queue l)
                (<[k := int64 timestamp]> (skiplist_head l)))
      blk_seq_str timestamp kvs levels
| _ :: _, [] => Stop OutOfFuel
end.

(** [LedgerDB::Set].  [values[i]] is read for every key. *)
Definition ledger_Set l (keys values : list bytes) (timestamp : N) (levels : list nat)
  : outcome (LedgerDB D * N) :=
match keys with
| [] => Done (l, 1)
| _ =>
    let ts_str := to_string timestamp in
    let blk_seq := next_block_seq l in
    let blk_seq_str := to_string blk_seq in
    blk_val ← show_block (mkBlockData keys values);
    let d := ss_put (ldb_db l) (ledger_key blk_seq) blk_val in
    let l := mkLedgerDB d (u64 (blk_seq + 1)) (commit_seq l) (tree_queue l) (skiplist_head l) in
    l ← set_keys l blk_seq_str timestamp (zip keys values) levels;
    Done (mkLedgerDB (ldb_db l) (next_block_seq l) (commit_seq l)
            (tree_queue l ++ [mkTreeBlock blk_seq keys ts_str]) (skiplist_head l), blk_seq)
end.

(** ** [buildTree] *)

(** The loop that empties the queue: the hashes of the blocks, and the keys with
the times of their last versions. *)
Fixpoint drain (d : D) (queue : list Tree_Block) (mpt_blks : gmap bytes bytes)
  : list bytes * gmap bytes bytes :=
match queue with
| [] => ([], mpt_blks)
| blk :: queue =>
    let mt_blk_val := ss_get d (ledger_key (tb_blk_seq blk)) in
    let hash := ToBase32 (Some (ComputeFrom mt_blk_val)) in
    let mpt_blks := foldl (λ m k, <[k := tb_mpt_ts blk]> m) mpt_blks (tb_mpt_ks blk) in
    let '(hs, mpt_blks) := drain d queue mpt_blks in
    (hash :: hs, mpt_blks)
end.

(** One iteration of the loop of [buildTree]. *)
Definition build_iteration l : outcome (LedgerDB D) :=
match tree_queue l, last (tree_queue l) with
| first_blk :: _, Some last_blk =>
    let first_block := tb_blk_seq first_blk in
    let last_block := tb_blk_seq last_blk in
    let '(mt_new_hashes, mpt_blks) := drain (ldb_db l) (tree_queue l) ∅ in
    let prev_commit_seq := if commit_seq l =? 0 then [] else to_string (commit_seq l - 1) in
    '(d, root_key, root_hash) ← update junk (ldb_db l) first_block mt_new_hashes prev_commit_seq;
    let mpt_kvs := map_entries mpt_blks in
    '(d, prev_digest, newmptroot) ←
      (if 0 <? commit_seq l then
         let commit_info := ss_get d (#"commit" ++ prev_commit_seq) in
         prev ← parse_commit commit_info;
         let mpt_root := FromBase32 junk (ci_mptroot prev) in
         let prev_digest := ToBase32 (Some (FromBase32 junk commit_info)) in
         '(d, h) ← Set_all fuel d (SetNodeForHash d mpt_root) mpt_kvs;
         Done (d, prev_digest, h)
       else
         '(d, root) ← new_trie fuel d mpt_kvs;
         Done (d, [], chunk_hash root));
    let commit_entry := show_commit_info (mkCommitInfo (commit_seq l) prev_digest last_block
                          root_hash root_key (ToBase32 (Some newmptroot))) in
    let d := ss_put d (#"commit" ++ to_string (commit_seq l)) commit_entry in
    let newdigest := show_digest_info (mkDigestInfo (commit_seq l) last_block
                       (ToBase32 (Some (ComputeFrom commit_entry)))) in
    let d := ss_put d #"digest" newdigest in
    Done (mkLedgerDB d (next_block_seq l) (u64 (commit_seq l + 1)) [] (skiplist_head l))
| _, _ => Done l
end.

(** ** Reads *)

(** A node of a skip list as a version. *)
Definition read_node (node : bytes) : outcome (Z * (N * bytes)) :=
skipnode ← parse_node node;
let res := splitBy (sn_value skipnode) "@" in
r0 ← item res 0; block ← stoul r0;
r1 ← item res 1;
Done (sn_key skipnode, (block, r1)).

(** [skiplist_head_[key]]: a missing key is given the time zero. *)
Definition head_time (head : gmap bytes Z) (key : bytes) : Z * gmap bytes Z :=
match head !! key with
| Some t => (t, head)
| None => (0%Z, <[key := 0%Z]> head)
end.

(** [GetValues] *)
Fixpoint GetValues l (keys : list bytes) : outcome (LedgerDB D * list versioned) :=
match keys with
| [] => Done (l, [])
| k :: keys =>
    let '(t, head) := head_time (skiplist_head l) k in
    let l := mkLedgerDB (ldb_db l) (next_block_seq l) (commit_seq l) (tree_queue l) head in
    node ← sl_find fuel (ldb_db l) (skip_prefix k) t;
    v ← match node with
        | [] => Done (0, (0, []))
        | _ => '(_, bv) ← read_node node; Done (uint64 t, bv)
        end;
    '(l, vs) ← GetValues l keys;
    Done (l, v :: vs)
end.

(** The entries from [lower_bound(start)] to [upper_bound(end)]; when the second
comes first the iteration goes on to the end. *)
Definition between (head : gmap bytes Z) (start fin : bytes) : list (bytes * Z) :=
let es := map_entries head in
let from := length (filter (λ e, bytes_lt e.1 start) es) in
let to := length (filter (λ e, bytes_le e.1 fin) es) in
if (from <=? to)%nat then take (to - from) (drop from es) else drop from es.

(** [GetRange] *)
Fixpoint range_values (d : D) (es : list (bytes * Z)) : outcome (list (bytes * versioned)) :=
match es with
| [] => Done []
| (k, t) :: es =>
    node ← sl_find fuel d (skip_prefix k) t;
    '(_, bv) ← read_node node;
    vs ← range_values d es;
    Done ((k, (uint64 t, bv)) :: vs)
end.
Definition ledger_GetRange l (start fin : bytes) : outcome (list (bytes * versioned)) :=
range_values (ldb_db l) (between (skiplist_head l) start fin).

(** [GetVersions] *)
Definition GetVersions l (keys : list bytes) (nversions : nat) : outcome (list (list versioned)) :=
mapM (λ k,
  nodes ← sl_scan (ldb_db l) (skip_prefix k) nversions;
  mapM (λ node, '(t, bv) ← read_node node; Done (uint64 t, bv)) nodes) keys.

(** [GetRootDigest] *)
Definition GetRootDigest l : outcome (N * bytes) :=
match ss_get (ldb_db l) #"digest" with
| [] => Done (0, [])
| digestinfo => d ← parse_digest digestinfo; Done (di_tip_block d, di_digest d)
end.

(** The loop of [GetProofs]. *)
Fixpoint proofs_loop (d : D) (commit mt_root_key : bytes) (tip : N) (mpt : bytes)
  (keys : list bytes) (blks : list N) (current : N) : outcome (list Proof * list MPTProof) :=
match keys, blks with
| [], _ => Done ([], [])
| _ :: _, [] => Stop Undefined
| k :: keys, b :: blks =>
    mt ← (if b =? current then Done []
          else p ← getProof d commit mt_root_key tip b; Done [p]);
    mpt_proof ← Trie_GetProof fuel d mpt k;
    '(mts, mpts) ← proofs_loop d commit mt_root_key tip mpt keys blks b;
    Done (mt ++ mts, mpt_proof :: mpts)
end.

(** [GetProofs]: the two lists of proofs, [*root_digest], [*blk_seq] and
[*mpt_digest]. *)
Definition GetProofs l (keys : list bytes) (key_blk_seqs : list N)
  : outcome (list Proof * list MPTProof * bytes * N * bytes) :=
let d := ldb_db l in
dg ← parse_digest (ss_get d #"digest");
let commit := to_string (di_commit_seq dg) in
cinfo ← parse_commit (ss_get d (#"commit" ++ commit));
let mpt := SetNodeForHash d (FromBase32 junk (ci_mptroot cinfo)) in
'(mts, mpts) ← proofs_loop d commit (ci_mtrootkey cinfo) (ci_tip_block cinfo) mpt keys
                 key_blk_seqs 0;
Done (mts, mpts, ci_mtroot cinfo, ci_tip_block cinfo, ci_mptroot cinfo).

(** ** Audits *)

(** The proofs for the keys of one block. *)
Definition block_proofs (d : D) (mpt blockdata : bytes) : outcome (list MPTProof) :=
binfo ← parse_block blockdata;
mapM (Trie_GetProof fuel d mpt) (bd_keys binfo).

(** [GetAudit].  The commits are read from [seq] to a block number. *)
Definition GetAudit l (seq : N) : outcome Auditor :=
let d := ldb_db l in
dinfo ← parse_digest (ss_get d #"digest");
let commits := (λ i, ss_get d (#"commit" ++ to_string i)) <$> range seq (di_tip_block dinfo) in
let target_commit := default [] (head commits) in
cinfo ← parse_commit target_commit;
first_block_seq ← (if 0 <? seq then
                     prev ← parse_commit (ss_get d (#"commit" ++ to_string (seq - 1)));
                     Done (u64 (ci_tip_block prev + 1))
                   else Done 0);
let mpt := SetNodeForHash d (FromBase32 junk (ci_mptroot cinfo)) in
let blocks := (λ i, ss_get d (ledger_key i)) <$> range first_block_seq (ci_tip_block cinfo) in
proofs ← mapM (block_proofs d mpt) blocks;
Done (mkAuditor (di_digest dinfo) (ci_commit_seq cinfo) first_block_seq commits blocks
        (mjoin proofs)).

(** The loop of [Audit] over the commits, from the last: the roots and the
previous commit of the first one, or [None] when a digest does not match. *)
Fixpoint audit_commits (commits : list bytes) (target : bytes)
  (acc : bytes * bytes * bytes) : outcome (option (bytes * bytes * bytes)) :=
match commits with
| [] => Done (Some acc)
| c :: commits =>
    if decide (ToBase32 (Some (ComputeFrom c)) = target) then
      cinfo ← parse_commit c;
      audit_commits commits (ci_prev_digest cinfo)
        (ci_mtroot cinfo, ci_mptroot cinfo,
         if 0 <? ci_commit_seq cinfo then to_string (ci_commit_seq cinfo - 1) else [])
    else Done None
end.

(** The loop over the keys of a block: [res || VerifyProof(...)]. *)
Fixpoint audit_keys (mpt_hash : bytes) (keys : list bytes) (mptproofs : list MPTProof) (cnt : nat)
  (res : bool) : outcome (bool * nat) :=
match keys with
| [] => Done (res, cnt)
| k :: keys =>
    res ← (if res then Done true
           else p ← item mptproofs cnt; VerifyProof p mpt_hash k);
    audit_keys mpt_hash keys mptproofs (S cnt) res
end.

Fixpoint audit_blocks (mpt_hash : bytes) (blocks : list bytes) (mptproofs : list MPTProof)
  (cnt : nat) (res : bool) : outcome bool :=
match blocks with
| [] => Done res
| b :: blocks =>
    binfo ← parse_block b;
    '(res, cnt) ← audit_keys mpt_hash (bd_keys binfo) mptproofs cnt res;
    audit_blocks mpt_hash blocks mptproofs cnt res
end.

(** [Auditor::Audit] on the auditor's own store. *)
Definition Audit (a : Auditor) (d : D) : outcome (D * bool) :=
r ← audit_commits (rev (au_commits a)) (au_digest a) ([], [], []);
match r with
| None => Done (d, false)
| Some (mtroot, mptroot, prev_commit_seq) =>
    let mt_new_hashes := (λ b, ToBase32 (Some (ComputeFrom b))) <$> au_blocks a in
    '(d, root_key, root_hash) ← update junk d (au_first_block_seq a) mt_new_hashes prev_commit_seq;
    let res := bool_decide (root_hash = mtroot) in
    let mpt_hash := ComputeFrom mptroot in
    res ← audit_blocks mpt_hash (au_blocks a) (au_mptproofs a) 0 res;
    Done (d, res)
end.
End LedgerDB.

(** ** Two searches the sources declare *)

(** [LedgerDB::splitAndFind] *)
Definition splitAndFind (s : bytes) (delim : ascii) (target : bytes) : bytes :=
  let fix go (fields : list bytes) : bytes :=
    match fields with
    | [] => #"NOTFOUND"
    | f :: fields =>
        match find_char "|" f with
        | None => #"NOTFOUND"
        | Some pos => if decide (take pos f = target) then drop (pos + 1) f else go fields
        end
    end in
  go (splitBy s delim).

(** [LedgerDB::binarySearch], with [int] positions; [-1] when there is none. *)
Fixpoint binarySearch (fuel : nat) (vec : list bytes) (l r : Z) (key : bytes) : outcome Z :=
  match fuel with
  | O => Stop OutOfFuel
  | S fuel =>
      if (l <=? r)%Z then
        let mid := (l + Z.quot (r - l) 2)%Z in
        if (mid <? 0)%Z then Stop Undefined
        else
          m ← item vec (Z.to_nat mid);
          if decide (m = key) then Done mid
          else if bytes_ltb key m then binarySearch fuel vec l (mid - 1) key
          else binarySearch fuel vec (mid + 1) r key
      else Done (-1)%Z
  end.
