(* ===== verification/LedgerFrame.v ===== *)
(** * What the parts of the ledger leave alone

    The journal, the skip lists, the Merkle tree and the trie live in one store.
    Each operation writes keys of its own shape and keeps the rest. *)

From S2P Require Import Prelude Cpp Hash Chunk DB MerkleSpec MerkleTree MPTNode Trie TrieSpec TrieProof.
From S2P Require Import TrieMap LedgerTypes SkipList SkipSpec LedgerDB.

Open Scope N_scope.

(** The entries under digests and the entries under texts do not overlap: a
digest is 20 bytes of its own and no text of the ledger. *)
Class SplitStore (D : Type) `{StringStore D, ChunkStore D} : Prop := {
  ss_get_cs_put d h m k : ss_get (cs_put d h m) k = ss_get d k;
  cs_get_ss_put d k v h : cs_get (ss_put d k v) h = cs_get d h;
}.

(** A store of two maps. *)
Abbreviation split_db := (gmap bytes bytes * gmap bytes bytes)%type.
#[export] Instance split_StringStore : StringStore split_db := {|
  ss_get d k := default [] (d.1 !! k);
  ss_put d k v := (<[k := v]> d.1, d.2);
|}.
#[export] Instance split_StringStoreLaws : StringStoreLaws split_db.
Proof.
  split; intros; cbn; [by rewrite lookup_insert_eq|by rewrite lookup_insert_ne].
Qed.
#[export] Instance split_ChunkStore : ChunkStore split_db := {|
  cs_get d h := d.2 !! h;
  cs_put d h m := (d.1, <[h := contents m]> d.2);
|}.
#[export] Instance split_ChunkStoreLaws : ChunkStoreLaws split_db.
Proof. split; intros; cbn; [apply lookup_insert_eq|by apply lookup_insert_ne]. Qed.
#[export] Instance split_SplitStore : SplitStore split_db.
Proof. by split. Qed.

(** ** The same texts, the same chunks *)

Definition same_texts `{StringStore D} (d d' : D) : Prop := ∀ k, ss_get d' k = ss_get d k.
Definition same_chunks `{ChunkStore D} (d d' : D) : Prop := ∀ h, cs_get d' h = cs_get d h.

#[export] Instance same_texts_equiv `{StringStore D} : Equivalence (same_texts (D := D)).
Proof. split; [done|intros d d' E k; by rewrite E|intros d1 d2 d3 E1 E2 k; by rewrite E2, E1]. Qed.
#[export] Instance same_chunks_equiv `{ChunkStore D} : Equivalence (same_chunks (D := D)).
Proof. split; [done|intros d d' E k; by rewrite E|intros d1 d2 d3 E1 E2 k; by rewrite E2, E1]. Qed.

Section Frame.
Context `{Blake2b, SplitStore D, !StringStoreLaws D, !ChunkStoreLaws D} (junk : nat → ascii).
Implicit Types d : D.

Lemma same_chunks_puts d kvs : same_chunks d (ss_puts d kvs).
Proof.
unfold ss_puts. revert d. induction kvs as [|kv kvs IH]; intros d; cbn [foldl]; [done|].
etrans; [|apply IH]. intros h. apply cs_get_ss_put.
Qed.

Lemma commit_current_texts d dirty m : same_texts d (commit_current d dirty m).
Proof.
intros k. unfold commit_current. destruct (DeltaGetChunk _ _); [|done].
destruct (decide _); [done|]. apply ss_get_cs_put.
Qed.

Lemma Commit_texts fuel dirty d m d' : Commit fuel dirty d m = Done d' → same_texts d d'.
Proof.
revert d m d'. induction fuel as [|fuel IH]; intros d m d'; cbn [Commit]; [discriminate|].
assert (∀ cs d d', commit_children (Commit fuel dirty) d cs = Done d' → same_texts d d') as Hcs.
{ intros cs. induction cs as [|c cs IHc]; intros d0 d0'; cbn [commit_children]; [by intros [= ->]|].
  destruct (is_type _ _ && _).
  - destruct (Commit fuel dirty d0 c) as [d1|] eqn:E; [|discriminate]. rewrite bind_Done.
    intros E1%IHc. etrans; [by eapply IH|done].
  - rewrite bind_Done. apply IHc. }
destruct (type m) as [[]|]; try (by intros [= ->]).
- destruct (commit_children _ d _) as [d1|] eqn:E; [|discriminate]. rewrite bind_Done.
  intros [= <-]. etrans; [by eapply Hcs|apply commit_current_texts].
- destruct (Commit fuel dirty d (childNode m)) as [d1|] eqn:E; [|discriminate]. rewrite bind_Done.
  intros [= <-]. etrans; [by eapply IH|apply commit_current_texts].
- destruct (DeltaGetChunk dirty (childHash m)); [apply IH|by intros [= ->]].
Qed.

Lemma Set_all_texts fuel d root kvs d' h : Set_all fuel d root kvs = Done (d', h) → same_texts d d'.
Proof.
unfold Set_all. destruct kvs as [|kv kvs]; [by intros [= -> _]|].
destruct (insert_all fuel d ∅ root (kv :: kvs)) as [[r dirty]|]; [|discriminate]. rewrite bind_Done.
destruct (Commit fuel dirty d r) as [d1|] eqn:E; [|discriminate]. intros [= -> _].
by eapply Commit_texts.
Qed.

Lemma safe_same d d' U : same_chunks d d' → safe d U → safe d' U.
Proof. intros E [Hi Hd Hn Hne]. split; [done|intros s m; rewrite E; apply Hd|by rewrite E|done]. Qed.

Lemma safe_sub d U V : safe d U → V ⊆ U → safe d V.
Proof. intros [Hi Hd Hn Hne] Hsub. split; eauto. Qed.

Lemma holds_same d d' t : same_chunks d d' → holds d t → holds d' t.
Proof. intros E [Hw Hs]. split; [done|]. intros s Hin. rewrite E. by apply Hs. Qed.

(** ** The skip list writes under its prefix *)

Definition under (p key : bytes) : Prop := ∃ x, key = p ++ #"|" ++ x.

Lemma under_head p : under p (skip_head p).
Proof. by exists #"head". Qed.
Lemma under_key p k : under p (skip_key p k).
Proof. by eexists. Qed.

Lemma insert_while_key fuel d p i k update key head key' head' :
insert_while fuel d p i k update key head = Done (key', head') → under p key → under p key'.
Proof.
revert key head. induction fuel as [|fuel IH]; intros key head; cbn [insert_while];
  (destruct (item _ i) as [f|]; [|discriminate]); rewrite bind_Done; destruct (_ && _);
  try (by intros [= <- _]).
destruct (match update !! _ with Some n => _ | None => _ end) as [n|]; [|discriminate].
rewrite bind_Done. intros E _. eapply IH; [exact E|]. apply under_key.
Qed.

Lemma insert_levels_keys n fuel d p k update key head newnode update' newnode' :
insert_levels n fuel d p k update key head newnode = Done (update', newnode') →
under p key → (∀ x, is_Some (update !! x) → under p x) → ∀ x, is_Some (update' !! x) → under p x.
Proof.
revert update key head newnode. induction n as [|n IH]; intros update key head newnode; cbn [insert_levels].
{ by intros [= <- _]. }
destruct (insert_while _ _ _ _ _ _ _ _) as [[key1 head1]|] eqn:E; [|discriminate]. rewrite bind_Done.
destruct (item _ n) as [f|]; [|discriminate]. rewrite bind_Done. intros E1 Hkey Hu.
pose proof (insert_while_key _ _ _ _ _ _ _ _ _ _ E Hkey) as Hkey1.
eapply IH; [exact E1|done|]. intros x [n' Hx].
apply lookup_insert_Some in Hx as [[<- _]|[_ Hx]]; [done|]. by apply Hu.
Qed.

Lemma sl_insert_frame fuel d p k v level d' :
sl_insert fuel d p k v level = Done d' →
same_chunks d d' ∧ ∀ key, ¬ under p key → ss_get d' key = ss_get d key.
Proof.
unfold sl_insert. cbv zeta. destruct (ss_get d (skip_head p)) as [|c s].
{ intros [= <-]. split; [intros h; apply cs_get_ss_put|].
  intros key Hk. apply ss_get_put_ne. intros <-. apply Hk, under_head. }
destruct (sl_find fuel d p k) as [x|]; [|discriminate]. rewrite bind_Done. destruct x as [|c' s'].
- destruct (parse_node (c :: s)) as [head|]; [|discriminate]. rewrite bind_Done.
  destruct (insert_levels _ _ _ _ _ _ _ _ _) as [[update newnode]|] eqn:E; [|discriminate].
  rewrite bind_Done. intros [= <-]. split.
  + etrans; [apply same_chunks_puts|]. intros h. apply cs_get_ss_put.
  + intros key Hk. rewrite ss_get_put_ne by (intros <-; apply Hk, under_key).
    apply ss_get_puts_notin. intros (e & -> & He)%list_elem_of_fmap.
    apply list_elem_of_fmap in He as ([key n] & -> & Hin%elem_of_map_entries). apply Hk.
    eapply insert_levels_keys; [exact E|apply under_head|by intros y [? ?%lookup_empty_Some]|by eexists].
- destruct (parse_node (c' :: s')) as [n|]; [|discriminate]. rewrite bind_Done. intros [= <-].
  split; [intros h; apply cs_get_ss_put|].
  intros key Hk. apply ss_get_put_ne. intros <-. apply Hk, under_key.
Qed.

(** ** A search reads under its prefix *)

Lemma find_while_agree d d' p fuel i k head :
(∀ x, under p x → ss_get d' x = ss_get d x) →
find_while fuel d' p i k head = find_while fuel d p i k head.
Proof.
intros E. revert head. induction fuel as [|fuel IH]; intros head; cbn [find_while];
  (destruct (item _ i); [|done]); rewrite !bind_Done; destruct (_ && _); try done.
rewrite (E _ (under_key _ _)). destruct (parse_node _); [|done]. rewrite !bind_Done. apply IH.
Qed.

Lemma find_levels_agree d d' p n fuel k head :
(∀ x, under p x → ss_get d' x = ss_get d x) →
find_levels n fuel d' p k head = find_levels n fuel d p k head.
Proof.
intros E. revert head. induction n as [|n IH]; intros head; cbn [find_levels]; [done|].
rewrite (find_while_agree d d') by done. destruct (find_while _ _ _ _ _ _); [|done]. rewrite !bind_Done.
destruct (item _ n); [|done]. rewrite !bind_Done, (E _ (under_key _ _)).
destruct (_ =? _)%Z; [done|apply IH].
Qed.

Lemma sl_find_agree d d' p fuel k :
(∀ x, under p x → ss_get d' x = ss_get d x) → sl_find fuel d' p k = sl_find fuel d p k.
Proof.
intros E. unfold sl_find. rewrite (E _ (under_head _)). destruct (ss_get _ _); [done|].
destruct (parse_node _); [|done]. rewrite !bind_Done. destruct (_ =? _)%Z; [done|].
destruct (nodeLevel _); [|done]. rewrite !bind_Done. by apply find_levels_agree.
Qed.

Lemma skip_holds_agree d d' p h r :
(∀ x, under p x → ss_get d' x = ss_get d x) → skip_holds p d h r → skip_holds p d' h r.
Proof.
intros E (Hh & Hg & Hrest). split; [by rewrite E by apply under_head|]. split; [|done].
intros r1 e r2 Er. rewrite E by apply under_key. by apply (Hg r1).
Qed.
End Frame.

(** ** The shapes of the keys *)

Lemma under_skip_prefix_ne k k' x :
  no_bar k → no_bar k' → under (skip_prefix k) x → under (skip_prefix k') x → k = k'.
Proof.
  unfold under, skip_prefix. intros Hk Hk' [a ->] [b E]. rewrite <-!app_assoc in E.
  apply (app_inv_head #"skiplist_") in E. change (#"|" ++ ?y) with ("|"%char :: y) in E.
  by apply app_sep_inj in E as [-> _].
Qed.
