(* ===== verification/LedgerVersions.v ===== *)
(** * The ledger as a map of versioned values

    What [Set] writes into the skip lists, [GetValues] reads back; [GetRange]
    reads the same versions in the order of the keys. *)

From S2P Require Import Prelude Cpp Hash Chunk DB MPTNode Trie LedgerTypes Reply SkipList SkipSpec.
From S2P Require Import LedgerDB LedgerFrame.

Open Scope N_scope.

(** ** One version *)

(** The text of a version, as [Set] writes it. *)
Definition version_text (blk : N) (v : bytes) : bytes := to_string blk ++ #"@" ++ v.
Definition value_plain (v : bytes) : Prop := no_bar v ∧ "@"%char ∉ v.

Lemma version_text_no_bar blk v : no_bar v → no_bar (version_text blk v).
Proof.
  intros Hv. unfold no_bar, version_text. rewrite !not_elem_of_app.
  split; [auto with ledger|]. split; [|done]. by apply (bool_decide_unpack _).
Qed.

Lemma int64_small n : (n < 2 ^ 63)%N → int64 n = Z.of_N n.
Proof.
  intros Hn. unfold int64. cbv zeta. rewrite u64_small by lia. by rewrite (proj2 (N.ltb_lt _ _)).
Qed.

Lemma read_node_text t e blk v :
  is_text t e → e_val e = version_text blk v → "@"%char ∉ v → blk < 2 ^ 64 →
  read_node t = Done (e_key e, (blk, v)).
Proof.
  intros (n & -> & Hp & Hk & Hv) E Hat Hb. unfold read_node. rewrite Hp, bind_Done.
  rewrite Hv, E. unfold version_text. change (#"@" ++ v) with ("@"%char :: v).
  rewrite splitBy_app, splitBy_last by auto with ledger. unfold item. cbn [lookup list_lookup].
  rewrite !bind_Done, stoul_to_string, !bind_Done by done. by rewrite Hk.
Qed.

(** ** [Set] *)

Section Versions.
Context `{Blake2b, SplitStore D, !StringStoreLaws D, !ChunkStoreLaws D} (fuel : nat).
Implicit Types (d : D) (l : LedgerDB D).

(** The skip list of [k] holds versions of the times [ks]. *)
Definition listed d (k : bytes) (ks : list Z) : Prop :=
match ks with
| [] => ss_get d (skip_head (skip_prefix k)) = []
| _ => ∃ h r, skip_holds (skip_prefix k) d h r ∧ e_key <$> h :: r ≡ₚ ks
end.

(** It has no version of time [ts] and is short enough for the fuel. *)
Definition room d (ts : Z) (k : bytes) (ks : list Z) : Prop :=
listed d k ks ∧ ts ∉ ks ∧ (length ks <= fuel)%nat.

(** The search for the version of time [t] finds the value [bv]. *)
Definition has_version l (k : bytes) (t : Z) (bv : N * bytes) : Prop :=
∃ node, sl_find fuel (ldb_db l) (skip_prefix k) t = Done node ∧ node ≠ [] ∧
  read_node node = Done (t, bv).

(** The two ledgers have the same skip list of [k]. *)
Definition same_list l l' (k : bytes) : Prop :=
skiplist_head l' !! k = skiplist_head l !! k ∧
∀ x, under (skip_prefix k) x → ss_get (ldb_db l') x = ss_get (ldb_db l) x.

Lemma listed_same l l' k ks : same_list l l' k → listed (ldb_db l) k ks → listed (ldb_db l') k ks.
Proof.
intros [_ E]. destruct ks as [|t ks]; cbn [listed].
- intros Hn. rewrite E by apply under_head. done.
- intros (h & r & Hh & Hp). exists h, r. split; [by eapply skip_holds_agree|done].
Qed.

Lemma has_version_same l l' k t bv : same_list l l' k → has_version l k t bv → has_version l' k t bv.
Proof. intros [_ E] (n & Hf & Hr). exists n. by rewrite (sl_find_agree (ldb_db l)). Qed.

Lemma same_list_trans l1 l2 l3 k : same_list l1 l2 k → same_list l2 l3 k → same_list l1 l3 k.
Proof. intros [A1 B1] [A2 B2]. split; [by rewrite A2|]. intros x Hx. by rewrite B2, B1. Qed.

(** The skip list of one key after an insertion. *)
Lemma insert_version d k ks ts blk v lv :
room d ts k ks → (0 <= ts < 2 ^ 63)%Z → value_plain v → (1 <= lv <= maxLevel)%nat → blk < 2 ^ 64 →
∃ d' node, sl_insert fuel d (skip_prefix k) ts (version_text blk v) lv = Done d' ∧
  listed d' k (ts :: ks) ∧
  sl_find fuel d' (skip_prefix k) ts = Done node ∧ node ≠ [] ∧ read_node node = Done (ts, (blk, v)).
Proof.
intros (Hks & Hts' & Hlen) Hts [Hv Hat] Hlv Hb. pose proof (version_text_no_bar blk v Hv) as Hnb.
set (e := mkEntry ts (version_text blk v)).
assert (∃ d' h r lv', sl_insert fuel d (skip_prefix k) ts (version_text blk v) lv = Done d' ∧
  skip_holds (skip_prefix k) d' h r ∧ e lv' ∈ h :: r ∧ e_key <$> h :: r ≡ₚ ts :: ks)
  as (d' & h & r & lv' & Hi & Hh & He & Hp).
{ destruct ks as [|t ks]; cbn [listed] in Hks.
  - destruct (sl_insert_first (skip_prefix k) d fuel ts (version_text blk v) lv) as (d' & Hi & Hh & _); [done..|].
    exists d', (e maxLevel), [], maxLevel. split_and!; [done|done|by left|done].
  - destruct Hks as (h & r & Hh & Hp). rewrite <-Hp in Hts', Hlen.
    cbn [fmap list_fmap] in Hts'. apply not_elem_of_cons in Hts' as [Hne Hni].
    cbn [fmap list_fmap length] in Hlen. rewrite length_fmap in Hlen.
    destruct (sl_insert_fresh (skip_prefix k) d h r fuel (e lv)) as (d' & Hi & Hh' & _);
      [done|by (split; [|split])|done|done|lia|].
    assert (desc r) as Hd by (by destruct Hh as (_ & _ & _ & _ & _ & Hd & _)).
    exists d', h, (insert_entry (e lv) r), lv.
    split; [done|]. split; [done|]. rewrite insert_entry_perm by done. split; [right; left|].
    rewrite <-Hp. cbn [fmap list_fmap e_key e]. constructor. }
assert (length r <= fuel)%nat as Hl.
{ apply Permutation_length in Hp. cbn in Hp. rewrite length_fmap in Hp. lia. }
destruct (find_holds (skip_prefix k) d' h r fuel (e lv') Hh He Hl) as (t & Hf & Ht).
exists d', t. split; [done|]. split; [by exists h, r|]. split; [done|]. split.
- destruct Ht as (n & -> & _). apply show_node_nonnil.
- by apply (read_node_text t (e lv')).
Qed.

Lemma set_keys_spec (K : bytes → list Z) blk ts kvs levels l :
length levels = length kvs → NoDup kvs.*1 → Forall no_bar kvs.*1 → Forall value_plain kvs.*2 →
Forall (λ lv, 1 <= lv <= maxLevel)%nat levels → (ts < 2 ^ 63)%N → blk < 2 ^ 64 →
(∀ k, k ∈ kvs.*1 → room (ldb_db l) (int64 ts) k (K k)) →
∃ l', set_keys fuel l (to_string blk) ts kvs levels = Done l' ∧
  next_block_seq l' = next_block_seq l ∧ commit_seq l' = commit_seq l ∧ tree_queue l' = tree_queue l ∧
  (∀ k v, (k, v) ∈ kvs → skiplist_head l' !! k = Some (int64 ts) ∧ has_version l' k (int64 ts) (blk, v)) ∧
  (∀ k, k ∈ kvs.*1 → listed (ldb_db l') k (int64 ts :: K k)) ∧
  (∀ k, no_bar k → k ∉ kvs.*1 → same_list l l' k) ∧
  same_chunks (ldb_db l) (ldb_db l') ∧
  (∀ x, (∀ k, k ∈ kvs.*1 → ¬ under (skip_prefix k) x) → ss_get (ldb_db l') x = ss_get (ldb_db l) x).
Proof.
revert levels l. induction kvs as [|[k v] kvs IH]; intros levels l Hlen Hnd Hnb HV HL Hts Hb HR.
{ exists l. destruct levels; [|done]. split_and!; try done; [by intros k v ?%elem_of_nil|by intros k ?%elem_of_nil]. }
destruct levels as [|lv levels]; [done|]. cbn [fmap list_fmap fst snd] in *.
apply NoDup_cons in Hnd as [Hk Hnd]. apply Forall_cons in Hnb as [Hkb Hnb].
apply Forall_cons in HV as [Hv HV]. apply Forall_cons in HL as [Hlv HL].
pose proof (HR k ltac:(by left)) as HRk.
assert (0 <= int64 ts < 2 ^ 63)%Z as Hts' by (rewrite int64_small; lia).
destruct (insert_version (ldb_db l) k (K k) (int64 ts) blk v lv HRk Hts' Hv Hlv Hb)
  as (d' & node & Hi & Hli & Hf & Hne & Hr).
cbn [set_keys]. change (to_string blk ++ #"@" ++ v) with (version_text blk v). rewrite Hi, bind_Done.
destruct (sl_insert_frame _ _ _ _ _ _ _ Hi) as [Hc Hfr].
set (l1 := mkLedgerDB d' (next_block_seq l) (commit_seq l) (tree_queue l) (<[k := int64 ts]> (skiplist_head l))).
assert (∀ k', no_bar k' → k' ≠ k → same_list l l1 k') as Hsame.
{ intros k' Hk' Hne'. split; [by apply lookup_insert_ne|]. intros x Hx. apply Hfr. intros Hx'.
  by apply Hne', (under_skip_prefix_ne k' k x). }
destruct (IH levels l1) as (l' & -> & Hn & Hcs & Hq & Hall & HK & Hs & Hch & Hfr'); try done; [by injection Hlen| |].
{ intros k' Hin. destruct (HR k' ltac:(by right)) as [Hli' Hrest]. split; [|done].
  rewrite Forall_forall in Hnb. eapply listed_same; [|done]. apply Hsame; [by apply Hnb|by intros ->]. }
exists l'. split; [done|]. split; [done|]. split; [done|]. split; [done|]. split; [|split; [|split; [|split]]].
- intros k' v' [[= -> ->]|Hin]%elem_of_cons; [|by apply Hall].
  pose proof (Hs k Hkb Hk) as Hsk. split; [rewrite (proj1 Hsk); apply lookup_insert_eq|].
  eapply has_version_same; [exact Hsk|]. by exists node.
- intros k' [->|Hin]%elem_of_cons; [|by apply HK]. eapply listed_same; [by apply (Hs k)|done].
- intros k' Hk' [Hne' Hin]%not_elem_of_cons. eapply same_list_trans; [by apply Hsame|by apply Hs].
- by etrans.
- intros x Hx. rewrite Hfr' by (intros k' Hin; apply Hx; by right). apply Hfr, Hx. by left.
Qed.

(** ** [Set] as a whole *)

Lemma ledger_key_not_under n k : ¬ under (skip_prefix k) (ledger_key n).
Proof. intros [x E]. discriminate E. Qed.

Lemma show_entries_ok ks vs : ks ≠ [] → length vs = length ks →
∃ c res, show_entries ks vs = Done (c :: res).
Proof.
revert vs. induction ks as [|k ks IH]; intros [|v vs] Hne Hl; try done. cbn [show_entries].
destruct ks as [|k' ks].
- destruct vs; [|done]. cbn [show_entries]. rewrite bind_Done. by do 2 eexists.
- destruct (IH vs) as (c & res & ->); [done|by injection Hl|]. rewrite bind_Done. by do 2 eexists.
Qed.

Lemma show_block_ok ks vs : ks ≠ [] → length vs = length ks → ∃ t, show_block (mkBlockData ks vs) = Done t.
Proof.
intros Hne Hl. unfold show_block. cbn [bd_keys bd_vals].
destruct (show_entries_ok ks vs Hne Hl) as (c & res & ->). rewrite bind_Done. by eexists.
Qed.

(** The arguments of [Set] that it accepts in the state [l]. *)
Record settable (K : bytes → list Z) l (keys values : list bytes) (ts : N) (levels : list nat) : Prop := {
set_some : keys ≠ [];
set_values : length values = length keys;
set_levels : length levels = length keys;
set_nodup : NoDup keys;
set_plain_keys : Forall no_bar keys;
set_plain_values : Forall value_plain values;
set_level : Forall (λ lv, 1 <= lv <= maxLevel)%nat levels;
set_time : (ts < 2 ^ 63)%N;
set_block : next_block_seq l < 2 ^ 64;
set_room : ∀ k, k ∈ keys → room (ldb_db l) (int64 ts) k (K k);
}.

Lemma Set_spec K l keys values ts levels :
let blk := next_block_seq l in
settable K l keys values ts levels →
∃ l' t, ledger_Set fuel l keys values ts levels = Done (l', blk) ∧
  show_block (mkBlockData keys values) = Done t ∧ ss_get (ldb_db l') (ledger_key blk) = t ∧
  next_block_seq l' = u64 (blk + 1) ∧ commit_seq l' = commit_seq l ∧
  tree_queue l' = tree_queue l ++ [mkTreeBlock blk keys (to_string ts)] ∧
  (∀ k v, (k, v) ∈ zip keys values →
    skiplist_head l' !! k = Some (int64 ts) ∧ has_version l' k (int64 ts) (blk, v)) ∧
  (∀ k, k ∈ keys → listed (ldb_db l') k (int64 ts :: K k)) ∧
  (∀ k, no_bar k → k ∉ keys → same_list l l' k) ∧
  same_chunks (ldb_db l) (ldb_db l') ∧
  (∀ x, x ≠ ledger_key blk → (∀ k, k ∈ keys → ¬ under (skip_prefix k) x) →
    ss_get (ldb_db l') x = ss_get (ldb_db l) x).
Proof.
intros blk [Hne Hvl Hll Hnd Hkb Hv Hlv Hts Hb HR].
destruct (show_block_ok keys values Hne Hvl) as [t Ht].
set (d1 := ss_put (ldb_db l) (ledger_key blk) t).
set (l1 := mkLedgerDB d1 (u64 (blk + 1)) (commit_seq l) (tree_queue l) (skiplist_head l)).
assert (∀ k, same_list l l1 k) as Hsame.
{ intros k. split; [done|]. intros x Hx. apply ss_get_put_ne. intros <-. by eapply ledger_key_not_under. }
assert ((zip keys values).*1 = keys) as Hk by (apply fst_zip; lia).
assert ((zip keys values).*2 = values) as Hvs by (apply snd_zip; lia).
destruct (set_keys_spec K blk ts (zip keys values) levels l1)
  as (l' & Hs & Hn & Hc & Hq & Hall & HK & Hother & Hch & Hfr); try (by rewrite ?Hk, ?Hvs).
{ rewrite length_zip. lia. }
{ rewrite Hk. intros k Hin. destruct (HR k Hin) as [? ?]. split; [|done]. by eapply (listed_same l). }
rewrite Hk in HK, Hother, Hfr.
eexists (mkLedgerDB (ldb_db l') _ _ _ (skiplist_head l')), t. split; [|split; [done|split]].
- unfold ledger_Set. destruct keys as [|k keys]; [done|]. cbv zeta. fold blk. rewrite Ht, bind_Done.
  fold d1 l1. rewrite Hs, bind_Done. done.
- cbn [ldb_db]. rewrite Hfr by (intros; apply ledger_key_not_under). apply ss_get_put.
- cbn [next_block_seq commit_seq tree_queue ldb_db skiplist_head]. rewrite Hn, Hc, Hq.
  split; [done|]. split; [done|]. split; [done|]. split; [done|]. split; [done|]. split; [|split].
  + intros k Hkb' Hki. eapply same_list_trans; [apply Hsame|by apply Hother].
  + etrans; [|exact Hch]. intros h. apply cs_get_ss_put.
  + intros x Hx Hxk. rewrite Hfr by done. by apply ss_get_put_ne.
Qed.

Lemma GetValues_present l k t blk v :
skiplist_head l !! k = Some t → has_version l k t (blk, v) →
GetValues fuel l [k] = Done (l, [(uint64 t, (blk, v))]).
Proof.
intros Hh (node & Hf & Hne & Hr). cbn [GetValues]. unfold head_time. rewrite Hh. cbn [ldb_db].
rewrite Hf, bind_Done, match_nonnil by done. rewrite Hr, !bind_Done. by destruct l.
Qed.

Lemma GetValues_same l l' k :
same_list l l' k → snd <$> GetValues fuel l' [k] = snd <$> GetValues fuel l [k].
Proof.
intros [Hh E]. cbn [GetValues]. unfold head_time. rewrite Hh.
destruct (skiplist_head l !! k) as [t|]; cbn [ldb_db]; rewrite (sl_find_agree (ldb_db l)) by done;
  (destruct (sl_find _ _ _ _) as [node|]; [|done]); rewrite !bind_Done;
  (destruct (match node with [] => _ | _ => _ end) as [v|]; [|done]); by rewrite !bind_Done.
Qed.

(** ** Sequences of [Set]s *)

Record set_request := mkSetRequest {
sr_keys : list bytes;
sr_values : list bytes;
sr_time : N;
sr_levels : list nat;
}.

Fixpoint run_sets l (reqs : list set_request) : outcome (LedgerDB D) :=
match reqs with
| [] => Done l
| q :: reqs =>
    '(l, _) ← ledger_Set fuel l (sr_keys q) (sr_values q) (sr_time q) (sr_levels q);
    run_sets l reqs
end.

Definition request_ok (q : set_request) : Prop :=
sr_keys q ≠ [] ∧ length (sr_values q) = length (sr_keys q) ∧ length (sr_levels q) = length (sr_keys q) ∧
NoDup (sr_keys q) ∧ Forall no_bar (sr_keys q) ∧ Forall value_plain (sr_values q) ∧
Forall (λ lv, 1 <= lv <= maxLevel)%nat (sr_levels q) ∧ (sr_time q < 2 ^ 63)%N.

(** The last request that sets [k], with its number: the version [k] should have.
The requests are given from the last to the first. *)
Fixpoint latest (rreqs : list set_request) (k : bytes) : option versioned :=
match rreqs with
| [] => None
| q :: rreqs =>
    match list_find (λ kv, kv.1 = k) (zip (sr_keys q) (sr_values q)) with
    | Some (_, kv) => Some (sr_time q, (N.of_nat (length rreqs), kv.2))
    | None => latest rreqs k
    end
end.

Definition times_of (rreqs : list set_request) (k : bytes) : list Z :=
int64 ∘ sr_time <$> filter (λ q, k ∈ sr_keys q) rreqs.

(** The state after the requests [rreqs], the last one first. *)
Definition holds_sets (rreqs : list set_request) l : Prop :=
next_block_seq l = N.of_nat (length rreqs) ∧
∀ k, no_bar k → listed (ldb_db l) k (times_of rreqs k) ∧
  match latest rreqs k with
  | Some (t, bv) => t < 2 ^ 63 ∧ skiplist_head l !! k = Some (int64 t) ∧ has_version l k (int64 t) bv
  | None => skiplist_head l !! k = None ∧ times_of rreqs k = []
  end.

Lemma request_lookup q k : request_ok q →
match list_find (λ kv, kv.1 = k) (zip (sr_keys q) (sr_values q)) with
| Some (_, kv) => (k, kv.2) ∈ zip (sr_keys q) (sr_values q) ∧ k ∈ sr_keys q
| None => k ∉ sr_keys q
end.
Proof.
intros (_ & Hlen & _). assert ((zip (sr_keys q) (sr_values q)).*1 = sr_keys q) as E by (apply fst_zip; lia).
destruct (list_find _ _) as [[i [k' v]]|] eqn:Ef.
- apply list_find_Some in Ef as (Hi & Hk & _). cbn in Hk. subst k'.
  apply list_elem_of_lookup_2 in Hi. split; [done|]. rewrite <-E. apply list_elem_of_fmap. by exists (k, v).
- apply list_find_None in Ef. rewrite <-E. intros ([k' v] & -> & Hin)%list_elem_of_fmap.
  rewrite Forall_forall in Ef. by apply (Ef _ Hin).
Qed.

(** One more request. *)
Lemma holds_sets_step rreqs l q :
holds_sets rreqs l → request_ok q → N.of_nat (length rreqs) + 1 < 2 ^ 64 → (length rreqs <= fuel)%nat →
(∀ k, k ∈ sr_keys q → int64 (sr_time q) ∉ times_of rreqs k) →
∃ l', ledger_Set fuel l (sr_keys q) (sr_values q) (sr_time q) (sr_levels q) = Done (l', next_block_seq l) ∧
  holds_sets (q :: rreqs) l'.
Proof.
intros [Hn Hk] Hq H64 Hf Htimes.
pose proof Hq as (Hne & Hvl & Hll & Hnd & Hkb & Hv & Hlv & Hts).
destruct (Set_spec (times_of rreqs) l (sr_keys q) (sr_values q) (sr_time q) (sr_levels q))
  as (l' & t & Hset & _ & _ & Hn' & _ & _ & Hall & HK & Hother & _).
{ split; try done; [rewrite Hn; lia|]. intros k Hin. rewrite Forall_forall in Hkb.
  destruct (Hk k (Hkb k Hin)) as [Hli _]. split; [done|]. split; [by apply Htimes|].
  unfold times_of. rewrite length_fmap. etrans; [apply length_filter|done]. }
exists l'. split; [done|]. split.
{ rewrite Hn', Hn, u64_small by lia. cbn [length]. lia. }
intros k Hb. pose proof (request_lookup q k Hq) as Hlook. cbn [latest]. unfold times_of.
destruct (list_find _ _) as [[i [k' v]]|].
- destruct Hlook as [Hz Hin]. rewrite filter_cons_True by done. split; [by apply HK|].
  split; [done|]. cbn [snd]. rewrite <-Hn. by apply Hall.
- rewrite filter_cons_False by done. pose proof (Hother k Hb Hlook) as Hs.
  destruct (Hk k Hb) as [Hli Hlat]. split; [by eapply listed_same|].
  destruct (latest rreqs k) as [[t' bv]|].
  + destruct Hlat as (? & Hh & Hver). split; [done|]. rewrite (proj1 Hs). split; [done|].
    by eapply has_version_same.
  + by rewrite (proj1 Hs).
Qed.

Lemma run_sets_spec reqs rreqs l :
holds_sets rreqs l → Forall request_ok reqs →
N.of_nat (length rreqs + length reqs) < 2 ^ 64 → (length rreqs + length reqs <= fuel)%nat →
(∀ k, NoDup (times_of (rev reqs ++ rreqs) k)) →
∃ l', run_sets l reqs = Done l' ∧ holds_sets (rev reqs ++ rreqs) l'.
Proof.
revert rreqs l. induction reqs as [|q reqs IH]; intros rreqs l Hh HF H64 Hf Hnd; [by exists l|].
apply Forall_cons in HF as [Hq HF]. cbn [rev length] in *. setoid_rewrite <-app_assoc in Hnd. cbn [app] in Hnd.
rewrite <-app_assoc. cbn [app].
destruct (holds_sets_step rreqs l q) as (l1 & Hset & Hh1); [done|done|lia|lia| |].
{ intros k Hk. specialize (Hnd k). unfold times_of in Hnd. rewrite filter_app, filter_cons_True in Hnd by done.
  rewrite fmap_app, fmap_cons in Hnd. apply NoDup_app in Hnd as (_ & _ & Hnd). by apply NoDup_cons in Hnd as [? _]. }
cbn [run_sets]. rewrite Hset, bind_Done. apply IH; try done; cbn [length]; lia.
Qed.

Lemma GetValues_latest rreqs l k : holds_sets rreqs l → no_bar k →
snd <$> GetValues fuel l [k] = Done [default (0, (0, [])) (latest rreqs k)].
Proof.
intros [_ Hk] Hb. destruct (Hk k Hb) as [Hli Hlat]. destruct (latest rreqs k) as [[t [blk v]]|].
- destruct Hlat as (Ht & Hh & Hver). rewrite (GetValues_present l k _ _ _ Hh Hver).
  cbn. by rewrite uint64_int64 by lia.
- destruct Hlat as [Hh E]. rewrite E in Hli. cbn [listed] in Hli. cbn [GetValues]. unfold head_time.
  rewrite Hh. cbn [ldb_db]. unfold sl_find. by rewrite Hli.
Qed.

End Versions.

Lemma times_distinct rreqs k :
  NoDup (int64 ∘ sr_time <$> rreqs) → NoDup (times_of rreqs k).
Proof. intros Hnd. eapply sublist_NoDup; [exact Hnd|]. apply fmap_sublist, sublist_filter. Qed.

#[export] Instance no_bar_dec s : Decision (no_bar s).
Proof. unfold no_bar. apply _. Defined.
#[export] Instance value_plain_dec s : Decision (value_plain s).
Proof. unfold value_plain. apply _. Defined.
#[export] Instance request_ok_dec q : Decision (request_ok q).
Proof. unfold request_ok. apply _. Defined.

Definition example_requests : list set_request := [
  mkSetRequest [ #"a"; #"b"] [ #"1"; #"2"] 5 [1; 2]%nat;
  mkSetRequest [ #"a"] [ #"3"] 9 [2]%nat;
  mkSetRequest [ #"b"; #"c"] [ #"4"; #"5"] 7 [1; 1]%nat].


(** ** [GetRange] *)

Lemma bytes_le_trans a b c : bytes_le a b → bytes_le b c → bytes_le a c.
Proof.
  assert (∀ a b, bytes_le a b ↔ bytes_lt a b ∨ a = b) as E.
  { intros x y. unfold bytes_le, bytes_lt. rewrite <-(bytes_compare_eq x y).
    destruct (bytes_compare x y); naive_solver. }
  rewrite !E. intros [?| ->] [?| ->]; eauto using bytes_lt_trans.
Qed.

Lemma not_bytes_lt a b : ¬ bytes_lt a b ↔ bytes_le b a.
Proof.
  unfold bytes_lt, bytes_le. rewrite (bytes_compare_antisym a b). by destruct (bytes_compare a b).
Qed.

Lemma bytes_le_total a b : bytes_le a b ∨ bytes_le b a.
Proof.
  destruct (bytes_lt_total a b) as [Hl|[->|Hl]].
  - left. unfold bytes_le. rewrite Hl. done.
  - left. unfold bytes_le. by rewrite (proj2 (bytes_compare_eq b b)).
  - right. unfold bytes_le. rewrite Hl. done.
Qed.

#[export] Instance entry_le_trans {A} : Transitive (entry_le (A := A)).
Proof. intros a b c. apply bytes_le_trans. Qed.
#[export] Instance entry_le_total {A} : Total (entry_le (A := A)).
Proof. intros a b. apply bytes_le_total. Qed.

Lemma map_entries_sorted {A} (m : gmap bytes A) : StronglySorted entry_le (map_entries m).
Proof. apply (StronglySorted_merge_sort entry_le). Qed.

(** Entries that come first under a test that falls along the list. *)
Section Falling.
Context {A} (P : A → Prop) `{∀ x, Decision (P x)}.
Implicit Types es : list A.

Definition falls (R : A → A → Prop) : Prop := ∀ a b, R a b → P b → P a.

Lemma sorted_filter (R : A → A → Prop) es : StronglySorted R es → StronglySorted R (filter P es).
Proof.
induction 1 as [|x es Hs IH HF]; [constructor|]. destruct (decide (P x)).
- rewrite filter_cons_True by done. constructor; [done|].
  rewrite Forall_forall in HF |- *. intros y [_ Hy]%list_elem_of_filter. by apply HF.
- by rewrite filter_cons_False.
Qed.

Lemma filter_none es : Forall (λ x, ¬ P x) es → filter P es = [].
Proof. induction 1 as [|x es Hx _ IH]; [done|]. by rewrite filter_cons_False. Qed.

Lemma filter_prefix (R : A → A → Prop) es :
StronglySorted R es → falls R →
take (length (filter P es)) es = filter P es ∧
drop (length (filter P es)) es = filter (λ x, ¬ P x) es.
Proof.
intros Hs Hf. induction Hs as [|x es Hs IH HF]; [done|]. destruct (decide (P x)) as [Hx|Hx].
- rewrite filter_cons_True, (filter_cons_False (λ x, ¬ P x)) by (done || auto). cbn.
  destruct IH as [-> ->]. done.
- assert (Forall (λ y, ¬ P y) (x :: es)) as Hn.
  { constructor; [done|]. eapply Forall_impl; [exact HF|]. intros y Hy HPy. by eapply Hx, Hf. }
  rewrite (filter_none _ Hn). cbn [length take drop]. split; [done|]. symmetry.
  clear -Hn. induction Hn as [|y l Hy _ IH]; [done|]. rewrite filter_cons_True by done. by f_equal.
Qed.
End Falling.

(** The entries a range covers. *)
Definition in_range (start fin : bytes) {A} (e : bytes * A) : Prop := bytes_le start e.1 ∧ bytes_le e.1 fin.
#[export] Instance in_range_dec start fin {A} (e : bytes * A) : Decision (in_range start fin e).
Proof. unfold in_range. apply _. Defined.

Lemma between_spec (head : gmap bytes Z) start fin : bytes_le start fin →
  between head start fin = filter (in_range start fin) (map_entries head).
Proof.
  intros Hsf. unfold between. cbv zeta. pose proof (map_entries_sorted head) as Hs.
  revert Hs. generalize (map_entries head) as es. intros es Hs.
  set (below := λ e : bytes * Z, bytes_lt e.1 start). set (upto := λ e : bytes * Z, bytes_le e.1 fin).
  assert (∀ e, below e → upto e) as Hsub.
  { intros e He. apply (bytes_le_trans _ start); [|done]. unfold bytes_le, below, bytes_lt in *. by rewrite He. }
  destruct (filter_prefix upto entry_le es Hs) as [Ht _]; [intros a b Hab Hb; by eapply bytes_le_trans|].
  assert (filter below (filter upto es) = filter below es) as Ef.
  { rewrite list_filter_filter. apply list_filter_iff. naive_solver. }
  destruct (filter_prefix below entry_le (filter upto es)) as [_ Hd].
  { by apply sorted_filter. }
  { intros a b Hab Hb. destruct (decide (below a)) as [|Hn%not_bytes_lt]; [done|].
    destruct (proj2 (not_bytes_lt b.1 start) (bytes_le_trans _ _ _ Hn Hab) Hb). }
  rewrite Ef in Hd.
  assert (length (filter below es) <= length (filter upto es))%nat as Hle.
  { rewrite <-Ef. apply length_filter. }
  change (filter (λ e : bytes * Z, bytes_lt e.1 start) es) with (filter below es).
  change (filter (λ e : bytes * Z, bytes_le e.1 fin) es) with (filter upto es).
  rewrite (proj2 (Nat.leb_le _ _) Hle), take_drop_commute.
  replace (length (filter below es) + (length (filter upto es) - length (filter below es)))%nat
    with (length (filter upto es)) by lia.
  rewrite Ht, Hd, list_filter_filter. apply list_filter_iff. intros e. unfold in_range.
  unfold below. by rewrite not_bytes_lt.
Qed.

Section Ranges.
Context `{Blake2b, StringStore D, ChunkStore D} (fuel : nat).
Implicit Types l : LedgerDB D.

(** Every key of [skiplist_head_] has a node; [Set] keeps this, a [GetValues] of a
missing key does not. *)
Definition heads_live l : Prop :=
∀ k t, skiplist_head l !! k = Some t → sl_find fuel (ldb_db l) (skip_prefix k) t ≠ Done [].

Lemma range_values_spec l es : heads_live l → (∀ e, e ∈ es → skiplist_head l !! e.1 = Some e.2) →
('(l', vs) ← GetValues fuel l es.*1; Done (l', zip es.*1 vs))
= (vs ← range_values fuel (ldb_db l) es; Done (l, vs)).
Proof.
intros Hl. induction es as [|[k t] es IH]; intros Hes; [done|].
assert (skiplist_head l !! k = Some t) as Hk by apply (Hes (k, t) ltac:(by left)).
cbn [fmap list_fmap fst GetValues range_values]. unfold head_time. rewrite Hk. cbn [ldb_db].
specialize (Hl k t Hk). destruct (sl_find _ _ _ _) as [node|]; [|done]. rewrite !bind_Done.
rewrite match_nonnil by naive_solver. destruct (read_node node) as [[t' bv]|]; [|done]. rewrite !bind_Done.
replace (mkLedgerDB (ldb_db l) (next_block_seq l) (commit_seq l) (tree_queue l) (skiplist_head l)) with l
  by (by destruct l).
specialize (IH ltac:(intros e He; apply Hes; by right)).
destruct (GetValues fuel l es.*1) as [[l' vs]|]; destruct (range_values _ _ es) as [ws|];
  cbn [mbind outcome_bind] in IH |- *; naive_solver.
Qed.

(** C31.  [GetRange] of an interval is equivalent to [GetValues] of the keys of the
    ledger in the interval, in their order, on a ledger whose keys all have a
    version. *)
Theorem GetRange_GetValues l start fin :
heads_live l → bytes_le start fin →
let keys := (filter (in_range start fin) (map_entries (skiplist_head l))).*1 in
(vs ← ledger_GetRange fuel l start fin; Done (l, vs))
= ('(l', vs) ← GetValues fuel l keys; Done (l', zip keys vs)).
Proof.
intros Hl Hsf keys. unfold ledger_GetRange. rewrite between_spec by done. symmetry.
apply range_values_spec; [done|]. intros [k t] He. apply list_elem_of_filter in He as [_ He].
by apply elem_of_map_entries in He.
Qed.

Lemma range_values_Done d es vs : range_values fuel d es = Done vs →
Forall (λ e, ∃ node r, sl_find fuel d (skip_prefix e.1) e.2 = Done node ∧ read_node node = Done r) es.
Proof.
revert vs. induction es as [|[k t] es IH]; intros vs; [constructor|]. cbn [range_values].
destruct (sl_find _ _ _ _) as [node|] eqn:Ef; [|done]. rewrite bind_Done.
destruct (read_node node) as [[t' bv]|] eqn:Er; [|done]. rewrite bind_Done.
destruct (range_values fuel d es) as [ws|] eqn:E; [|done]. intros _.
constructor; [by exists node, (t', bv)|by eapply IH].
Qed.

(** The node of a missing key is the empty text, which has no number. *)
Lemma range_values_missing d es k :
(∀ t, sl_find fuel d (skip_prefix k) t = Done []) → (k, 0%Z) ∈ es →
Forall (λ e, e = (k, 0%Z) ∨
  ∃ node r, sl_find fuel d (skip_prefix e.1) e.2 = Done node ∧ read_node node = Done r) es →
range_values fuel d es = Stop (Throw invalid_argument).
Proof.
intros Hf Hin HF. induction HF as [|[k' t'] es He _ IH]; [by apply elem_of_nil in Hin|]. cbn [range_values].
destruct He as [[= -> ->]|(node & [t2 bv] & Hfind & Hr)]; [by rewrite Hf|].
cbn [fst snd] in Hfind. rewrite Hfind, bind_Done, Hr, bind_Done.
apply elem_of_cons in Hin as [[= <- <-]|Hin]; [|by rewrite IH].
rewrite Hf in Hfind. apply Done_inj in Hfind as <-. discriminate Hr.
Qed.

(** Reading a missing key with [GetValues] spoils the ranges around it: the
    key is entered into [skiplist_head_] with the time zero, and a [GetRange]
    that covers it, and could be read before, throws [std::invalid_argument]. *)
Theorem GetRange_after_miss l k start fin vs :
skiplist_head l !! k = None → ss_get (ldb_db l) (skip_head (skip_prefix k)) = [] →
bytes_le start k → bytes_le k fin → ledger_GetRange fuel l start fin = Done vs →
∃ l', GetValues fuel l [k] = Done (l', [(0, (0, []))]) ∧
  ledger_GetRange fuel l' start fin = Stop (Throw invalid_argument).
Proof.
intros Hk Hn Hsk Hkf HR. cbn [GetValues]. unfold head_time. rewrite Hk. cbn [ldb_db].
assert (∀ t, sl_find fuel (ldb_db l) (skip_prefix k) t = Done []) as Hf by (intros t; unfold sl_find; by rewrite Hn).
rewrite Hf, !bind_Done. eexists. split; [done|].
unfold ledger_GetRange in *. rewrite between_spec in HR |- * by (by eapply bytes_le_trans). cbn [ldb_db skiplist_head].
apply range_values_Done in HR. rewrite Forall_forall in HR. apply (range_values_missing _ _ k); [done|..].
- apply list_elem_of_filter. split; [done|]. apply elem_of_map_entries, lookup_insert_eq.
- apply Forall_forall. intros [k' t'] [Hr He%elem_of_map_entries]%list_elem_of_filter.
  apply lookup_insert_Some in He as [[<- <-]|[_ He]]; [by left|right].
  apply (HR (k', t')). apply list_elem_of_filter. split; [done|]. by apply elem_of_map_entries.
Qed.
End Ranges.

(** The ledger of the example requests. *)
Definition example_ledger : LedgerDB split_db :=
  match run_sets 3 (create_ledger (∅, ∅)) example_requests with
  | Done l => l
  | Stop _ => create_ledger (∅, ∅)
  end.

Lemma example_live : heads_live 3 example_ledger.
Proof.
  assert (map_Forall (λ k t, sl_find 3 (ldb_db example_ledger) (skip_prefix k) t ≠ Done [])
    (skiplist_head example_ledger)) as Hm; [|exact Hm].
  apply (bool_decide_unpack _). vm_compute. exact I.
Qed.

Lemma GetRange_GetValues_witness :
  ledger_GetRange 3 example_ledger #"b" #"z" = Done [(#"b", (7, (2, #"4"))); (#"c", (7, (2, #"5")))] ∧
  (vs ← ledger_GetRange 3 example_ledger #"b" #"z"; Done (example_ledger, vs))
  = ('(l', vs) ← GetValues 3 example_ledger [ #"b"; #"c"]; Done (l', zip [ #"b"; #"c"] vs)).
Proof.
  split; [apply (bool_decide_unpack _); vm_compute; exact I|].
  rewrite (GetRange_GetValues 3 example_ledger #"b" #"z" example_live
    ltac:(apply (bool_decide_unpack _); vm_compute; exact I)).
  assert ((filter (in_range #"b" #"z") (map_entries (skiplist_head example_ledger))).*1 = [ #"b"; #"c"]) as E
    by (apply (bool_decide_unpack _); vm_compute; exact I).
  rewrite E. reflexivity.
Defined.

Lemma GetRange_after_miss_witness :
  ∃ l', GetValues 3 example_ledger [ #"bb"] = Done (l', [(0, (0, []))]) ∧
    ledger_GetRange 3 l' #"b" #"z" = Stop (Throw invalid_argument).
Proof.
  apply (GetRange_after_miss 3 example_ledger #"bb" #"b" #"z"
    [(#"b", (7, (2, #"4"))); (#"c", (7, (2, #"5")))]);
    apply (bool_decide_unpack _); vm_compute; exact I.
Defined.
