(* ===== verification/LedgerSpec.v ===== *)
(** * The commits of the ledger

    What the journal, the Merkle tree, the trie, the commit records and the digest
    have to do with each other between the operations, and what the proofs of
    [GetProofs] then verify against. *)

From S2P Require Import Prelude Cpp Hash Chunk DB MerkleSpec MerkleTree MPTNode Trie TrieSpec TrieProof.
From S2P Require Import TrieMap LedgerTypes Reply SkipList SkipSpec LedgerDB LedgerFrame LedgerVersions.

Open Scope N_scope.

(** ** Texts without bars *)

Lemma node_key_no_bar n c l i : no_bar c → no_bar (node_key n c l i).
Proof.
  intros Hc. unfold node_key, mt_key, no_bar, suffix. rewrite !not_elem_of_app.
  split_and!; try (by apply (bool_decide_unpack _)); auto with ledger.
  destruct (negb _); [|by apply not_elem_of_nil]. rewrite not_elem_of_app.
  split; [by apply (bool_decide_unpack _)|done].
Qed.

(** ** The keys of the records *)

Definition commit_key (c : bytes) : bytes := #"commit" ++ c.

Lemma commit_key_inj a b : commit_key a = commit_key b → a = b.
Proof. apply (app_inv_head #"commit"). Qed.
Lemma ledger_key_inj a b : ledger_key a = ledger_key b → a = b.
Proof. intros E%(app_inv_head #"ledger-"). by apply to_string_inj. Qed.
Lemma node_key_head n c l i : ∃ s, node_key n c l i = "m"%char :: s.
Proof. by eexists. Qed.
Lemma commit_key_head c : ∃ s, commit_key c = "c"%char :: s.
Proof. by eexists. Qed.
Lemma ledger_key_head n : ∃ s, ledger_key n = "l"%char :: s.
Proof. by eexists. Qed.
Lemma under_skip_head k x : under (skip_prefix k) x → ∃ s, x = "s"%char :: s.
Proof. intros [y ->]. by eexists. Qed.

Section Commits.
Context `{Blake2b, SplitStore D, !StringStoreLaws D, !ChunkStoreLaws D} (junk : nat → ascii) (fuel : nat).
Implicit Types (d : D) (l : LedgerDB D).

(** ** The invariant *)

(** The digest of the text of block [i]. *)
Definition block_hash d (i : N) : bytes := ComputeFrom (ss_get d (ledger_key i)).

(** The records of commit number [c] over the block digests [L] and the trie [t]. *)
Definition info (c : N) (L : list bytes) (t : node) (prev_digest root : bytes) : CommitInfo :=
mkCommitInfo c prev_digest (N.of_nat (length L - 1)) (ToBase32_value root)
  (node_key (length L) (to_string c) (height (length L)) 0) (ToBase32_value (digest_of t)).

Definition committed_as d (c : N) (L : list bytes) (t : node) : Prop :=
∃ prev_digest root,
  let cinfo := info c L t prev_digest root in
  no_bar prev_digest ∧ level L (height (length L)) = [root] ∧
  mt_commit d L (to_string c) ∧
  ss_get d (commit_key (to_string c)) = show_commit_info cinfo ∧
  ss_get d #"digest" = show_digest_info (mkDigestInfo c (N.of_nat (length L - 1))
                         (ToBase32 (Some (ComputeFrom (show_commit_info cinfo))))).

(** The first blocks have the digests [L] and are committed, with the trie [t];
the others are in the queue. *)
Record committed l (L : list bytes) (t : node) : Prop := {
cm_next : next_block_seq l = N.of_nat (length L + length (tree_queue l));
cm_small : N.of_nat (length L + length (tree_queue l)) < 2 ^ 64;
cm_queue : ∀ i b, tree_queue l !! i = Some b → tb_blk_seq b = N.of_nat (length L + i);
cm_blocks : ∀ i h, L !! i = Some h → h = block_hash (ldb_db l) (N.of_nat i);
cm_trie : holds (ldb_db l) t;
cm_safe : safe (ldb_db l) (inners t);
cm_commit : if commit_seq l =? 0 then L = [] ∧ t = NNil
            else L ≠ [] ∧ commit_seq l < 2 ^ 64 ∧ committed_as (ldb_db l) (commit_seq l - 1) L t;
}.

Lemma committed_create d : cs_get d nil_hash = None → committed (create_ledger d) [] NNil.
Proof.
intros Hnil. split; try done; [apply holds_empty|].
by split; [intros s ? ?%elem_of_nil|intros s ? ?%elem_of_nil|exact Hnil|intros s ?%elem_of_nil].
Qed.

Lemma block_digests_20 l L t : committed l L t → Forall (λ h, length h = kByteLength) L.
Proof.
intros Hc. apply Forall_lookup. intros i h Hi. rewrite (cm_blocks _ _ _ Hc i h Hi). apply length_ComputeFrom.
Qed.

Lemma info_ok c L t pd root :
c < 2 ^ 64 → N.of_nat (length L) < 2 ^ 64 → Forall (λ h, length h = kByteLength) L →
level L (height (length L)) = [root] → no_bar pd → commit_ok (info c L t pd root).
Proof.
intros Hc HL HF Hroot Hpd. split; [done|]. split; [cbn; lia|]. split; [done|]. split; [|split].
- apply ToBase32_no_bar. pose proof (level_Forall_length L (height (length L)) HF) as Hf.
  rewrite Hroot in Hf. by apply Forall_cons in Hf as [? _].
- apply node_key_no_bar. unfold no_bar. auto with ledger.
- apply ToBase32_no_bar, length_ComputeFrom.
Qed.

(** What the invariant reads of the store. *)
Lemma committed_as_agree d d' c L t :
(∀ s, ss_get d' ("m"%char :: s) = ss_get d ("m"%char :: s)) →
(∀ s, ss_get d' ("c"%char :: s) = ss_get d ("c"%char :: s)) →
ss_get d' #"digest" = ss_get d #"digest" → committed_as d c L t → committed_as d' c L t.
Proof.
intros Em Ec Ed (pd & root & Hpd & Hroot & Hmt & Hcm & Hdg). exists pd, root.
split; [done|]. split; [done|]. split; [|split].
- intros i j h Hi Hh. destruct (node_key_head (length L) (to_string c) i j) as [s E].
  rewrite E, Em, <-E. by apply Hmt.
- destruct (commit_key_head (to_string c)) as [s E]. rewrite E, Ec, <-E. done.
- by rewrite Ed.
Qed.

(** [Set] queues its block and keeps the commits. *)
Lemma Set_committed K l L t keys values ts levels :
committed l L t → settable fuel K l keys values ts levels →
N.of_nat (length L + length (tree_queue l)) + 1 < 2 ^ 64 →
∃ l', ledger_Set fuel l keys values ts levels = Done (l', next_block_seq l) ∧ committed l' L t ∧
  tree_queue l' = tree_queue l ++ [mkTreeBlock (next_block_seq l) keys (to_string ts)].
Proof.
intros [Hn Hs Hq Hb Ht Hsf Hc] HS H64.
destruct (Set_spec fuel K l keys values ts levels HS)
  as (l' & text & Hset & _ & _ & Hn' & Hcs & Hq' & _ & _ & _ & Hch & Hfr).
assert (∀ a s, a ≠ "s"%char → a ≠ "l"%char → ss_get (ldb_db l') (a :: s) = ss_get (ldb_db l) (a :: s)) as Hag.
{ intros a s Ha Hl. apply Hfr.
  - destruct (ledger_key_head (next_block_seq l)) as [s' ->]. congruence.
  - intros k _ [s' E]%under_skip_head. congruence. }
exists l'. split; [done|]. split; [|done]. split.
- rewrite Hn', Hq', Hn, u64_small, length_app by lia. cbn. lia.
- rewrite Hq', length_app. cbn. lia.
- intros i b. rewrite Hq', lookup_app. destruct (tree_queue l !! i) as [b'|] eqn:E.
  + intros [= <-]. by apply Hq.
  + apply lookup_ge_None in E. destruct (i - length (tree_queue l))%nat as [|j] eqn:Ej; [|done].
    intros [= <-]. cbn. rewrite Hn. lia.
- intros i h Hi. rewrite (Hb i h Hi). unfold block_hash. f_equal. symmetry. apply Hfr.
  + intros E%ledger_key_inj. apply lookup_lt_Some in Hi. lia.
  + intros k _ [s' E]%under_skip_head. destruct (ledger_key_head (N.of_nat i)) as [s E']. congruence.
- by eapply holds_same.
- by eapply safe_same.
- rewrite Hcs. destruct (commit_seq l =? 0); [done|]. destruct Hc as (? & ? & Hc). split; [done|].
  split; [done|]. eapply committed_as_agree; [..|exact Hc]; intros; by apply Hag.
Qed.

(** ** The thread that builds the trees *)

(** The times the queue gives to its keys: a later block wins. *)
Definition block_times (m : gmap bytes bytes) (b : Tree_Block) : gmap bytes bytes :=
foldl (λ m k, <[k := tb_mpt_ts b]> m) m (tb_mpt_ks b).
Definition queue_times (q : list Tree_Block) : gmap bytes bytes := foldl block_times ∅ q.
(** The digests of the queued blocks. *)
Definition queue_hashes l : list bytes := (λ b, block_hash (ldb_db l) (tb_blk_seq b)) <$> tree_queue l.
(** The entries the trie is given. *)
Definition queue_entries l : list (bytes * bytes) := map_entries (queue_times (tree_queue l)).

Lemma drain_spec d q m :
drain d q m = (ToBase32_value <$> ((λ b, block_hash d (tb_blk_seq b)) <$> q), foldl block_times m q).
Proof. revert m. induction q as [|b q IH]; intros m; [done|]. cbn [drain]. by rewrite IH. Qed.

(** What an iteration needs of the queued keys and of the digests of the trie. *)
Record buildable l (t : node) (K : nat) : Prop := {
bld_entries : Forall TrieMap.entry_ok (queue_entries l);
bld_safe : safe (ldb_db l) (universe t (queue_entries l));
bld_klen : (klen t <= K)%nat;
bld_keys : Forall (λ kv, length (KeybytesToHex kv.1) <= K)%nat (queue_entries l);
bld_fuel : (2 * K + 1 <= fuel)%nat;
bld_commits : commit_seq l + 1 < 2 ^ 64;
}.

(** The journal part of an iteration. *)
Lemma build_journal l L t : committed l L t → tree_queue l ≠ [] → commit_seq l + 1 < 2 ^ 64 →
let L' := L ++ queue_hashes l in
let c := to_string (commit_seq l) in
∃ kvs root, update junk (ldb_db l) (N.of_nat (length L)) (ToBase32_value <$> queue_hashes l)
    (if commit_seq l =? 0 then [] else to_string (commit_seq l - 1))
  = Done (ss_puts (ldb_db l) kvs, node_key (length L') c (height (length L')) 0, ToBase32_value root) ∧
  level L' (height (length L')) = [root] ∧ mt_commit (ss_puts (ldb_db l) kvs) L' c ∧
  (∀ k, k ∈ kvs.*1 → ∃ s, k = "m"%char :: s).
Proof.
intros Hc Hq Hcs L' c. pose proof (block_digests_20 _ _ _ Hc) as HF. destruct Hc as [Hn Hs Hseq Hb Ht Hsf Hcm].
set (pc := if commit_seq l =? 0 then None else Some (commit_seq l - 1)).
assert (queue_hashes l ≠ []) as HM by (unfold queue_hashes; by destruct (tree_queue l)).
assert (L' ≠ []) as HL' by (unfold L'; destruct L; [done|discriminate]).
destruct (level_root L' HL') as [root Hroot].
assert (next_commit pc = commit_seq l) as Hpc by (unfold pc; destruct (N.eqb_spec (commit_seq l) 0); cbn; lia).
assert (show_commit pc = if commit_seq l =? 0 then [] else to_string (commit_seq l - 1)) as Hshow
  by (unfold pc; by destruct (commit_seq l =? 0)).
exists (writes L' c (length L) (S (height (length L')))), root. split; [|split; [done|split]].
- rewrite <-Hshow. unfold c. rewrite <-Hpc. apply (update_spec junk (ldb_db l) L); try done.
  + rewrite length_app. unfold queue_hashes. rewrite length_fmap. lia.
  + rewrite Hpc. lia.
  + apply Forall_app. split; [done|]. apply Forall_fmap, Forall_forall. intros b _. apply length_ComputeFrom.
  + unfold pc. destruct (commit_seq l =? 0); [by apply Hcm|].
    destruct Hcm as (_ & _ & pd & r & _ & _ & Hmt & _). done.
- apply mt_commit_writes; [|done]. destruct (commit_seq l =? 0); [left; by apply Hcm|right].
  destruct Hcm as (_ & _ & pd & r & _ & _ & Hmt & _). by eexists.
- intros k (e & -> & He)%list_elem_of_fmap. destruct e as [k v].
  apply elem_of_writes in He as (i & j & h & _ & _ & _ & -> & _). apply node_key_head.
Qed.

(** The trie part, on the store [d] after the journal was extended. *)
Lemma build_trie l L t K d : committed l L t → buildable l t K → same_chunks (ldb_db l) d →
(∀ s, ss_get d ("c"%char :: s) = ss_get (ldb_db l) ("c"%char :: s)) →
let prev := if commit_seq l =? 0 then [] else to_string (commit_seq l - 1) in
let t' := insert_tree t (queue_entries l) in
∃ d' pd root,
  (if 0 <? commit_seq l then
     let commit_info := ss_get d (#"commit" ++ prev) in
     prev ← parse_commit commit_info;
     let mpt_root := FromBase32 junk (ci_mptroot prev) in
     let prev_digest := ToBase32 (Some (FromBase32 junk commit_info)) in
     '(d, h) ← Set_all fuel d (SetNodeForHash d mpt_root) (queue_entries l);
     Done (d, prev_digest, h)
   else
     '(d, root) ← new_trie fuel d (queue_entries l);
     Done (d, [], chunk_hash root)) = Done (d', pd, root) ∧
  root = digest_of t' ∧ no_bar pd ∧ holds d' t' ∧ safe d' (inners t') ∧ same_texts d d' ∧
  (∀ t0, holds d t0 → holds d' t0).
Proof.
intros Hc [He Hsafe Hk HK Hf Hcs] Hch Ec prev t'. pose proof (block_digests_20 _ _ _ Hc) as HF. destruct Hc as [Hn Hs Hseq Hb Ht Hsf Hcm].
pose proof (safe_same _ _ _ Hch Hsafe) as Hsafe'. pose proof (holds_same _ _ _ Hch Ht) as Ht'.
destruct (Set_all_spec d t (queue_entries l) fuel K) as (d' & HSet & Hext & Hs' & Hh'); [done..|].
pose proof (Set_all_texts _ _ _ _ _ _ HSet) as Htx.
pose proof (safe_sub _ _ (inners t') Hs' (universe_end t (queue_entries l))) as Hsub.
assert (∀ t0, holds d t0 → holds d' t0) as Hkeep by (intros t0 [? ?]; split; [done|by eapply stored_extends]).
destruct (N.eqb_spec (commit_seq l) 0) as [E0|E0].
- rewrite (proj2 (N.ltb_ge _ _)) by lia. destruct Hcm as [_ ->]. unfold new_trie.
  change nil_chunk with (enc NNil). rewrite HSet, !bind_Done.
  rewrite (SetNodeForHash_spec d' (universe NNil (queue_entries l))); [|done|apply universe_end|done].
  do 3 eexists. split; [done|]. split; [done|]. split; [apply not_elem_of_nil|]. done.
- rewrite (proj2 (N.ltb_lt _ _)) by lia. destruct Hcm as (HL & _ & pd & r & Hpd & Hroot & _ & Hce & _).
  unfold prev. change (#"commit" ++ ?x) with (commit_key x). destruct (commit_key_head (to_string (commit_seq l - 1))) as [s Es].
  rewrite Es, Ec, <-Es, Hce, parse_show_commit, !bind_Done.
  2:{ apply info_ok; [lia|lia|done|done|done]. }
  cbn [ci_mptroot info]. rewrite FromBase32_ToBase32 by apply length_ComputeFrom.
  rewrite (SetNodeForHash_spec d (universe t (queue_entries l))); [|done|apply universe_start|done].
  rewrite HSet, bind_Done. do 3 eexists. split; [done|]. split; [done|].
  split; [apply ToBase32_no_bar, length_FromBase32|]. done.
Qed.

(** An iteration commits the whole queue. *)
Lemma build_spec l L t K : committed l L t → tree_queue l ≠ [] → buildable l t K →
∃ l', build_iteration junk fuel l = Done l' ∧ tree_queue l' = [] ∧ commit_seq l' = commit_seq l + 1 ∧
  committed l' (L ++ queue_hashes l) (insert_tree t (queue_entries l)) ∧
  (∀ k, same_list l l' k) ∧ (∀ i, ss_get (ldb_db l') (ledger_key i) = ss_get (ldb_db l) (ledger_key i)) ∧
  (∀ t0, holds (ldb_db l) t0 → holds (ldb_db l') t0).
Proof.
intros Hc Hq Hbd. pose proof (block_digests_20 _ _ _ Hc) as HF20.
destruct (build_journal l L t Hc Hq (bld_commits _ _ _ Hbd)) as (kvs & root & Hup & Hroot & Hmt & Hkvs).
set (d1 := ss_puts (ldb_db l) kvs) in *.
assert (∀ a s, a ≠ "m"%char → ss_get d1 (a :: s) = ss_get (ldb_db l) (a :: s)) as Hd1.
{ intros a s Ha. apply ss_get_puts_notin. intros Hin. destruct (Hkvs _ Hin) as [s' E]. congruence. }
destruct (build_trie l L t K d1 Hc Hbd) as (d2 & pd & h & Htr & -> & Hpd & Hh2 & Hs2 & Htx & Hkeep);
  [apply same_chunks_puts|intros s; by apply Hd1|].
set (L' := L ++ queue_hashes l) in *. set (t' := insert_tree t (queue_entries l)) in *.
set (cinfo := info (commit_seq l) L' t' pd root).
set (d3 := ss_put d2 (commit_key (to_string (commit_seq l))) (show_commit_info cinfo)).
set (dinfo := mkDigestInfo (commit_seq l) (N.of_nat (length L' - 1))
  (ToBase32 (Some (ComputeFrom (show_commit_info cinfo))))).
set (d4 := ss_put d3 #"digest" (show_digest_info dinfo)).
pose proof Hc as [Hn Hs Hseq Hb Ht Hsf Hcm].
assert (length (queue_hashes l) = length (tree_queue l)) as Hlq by apply length_fmap.
assert (length L' = length L + length (tree_queue l))%nat as HL' by (unfold L'; rewrite length_app; lia).
assert (0 < length (tree_queue l))%nat as Hq0 by (destruct (tree_queue l); [done|cbn; lia]).
exists (mkLedgerDB d4 (next_block_seq l) (commit_seq l + 1) [] (skiplist_head l)).
assert (∀ a s, a ≠ "m"%char → a ≠ "c"%char → a ≠ "d"%char → ss_get d4 (a :: s) = ss_get (ldb_db l) (a :: s)) as Hd4.
{ intros a s Hm Hc' Hd. unfold d4, d3. destruct (commit_key_head (to_string (commit_seq l))) as [s' ->].
  rewrite !ss_get_put_ne by (intros [= E _]; congruence). rewrite Htx. by apply Hd1. }
assert (∀ s, ss_get d4 ("m"%char :: s) = ss_get d1 ("m"%char :: s)) as Hd4m.
{ intros s. unfold d4, d3. destruct (commit_key_head (to_string (commit_seq l))) as [s' ->].
  rewrite !ss_get_put_ne by discriminate. apply Htx. }
split; [|split; [done|split; [done|split; [|split; [|split]]]]].
- unfold build_iteration. destruct (tree_queue l) as [|first rest] eqn:Eq; [done|].
  destruct (last (first :: rest)) as [lst|] eqn:El; [|by apply last_None in El].
  assert (tb_blk_seq first = N.of_nat (length L)) as -> by (rewrite (Hseq 0%nat first eq_refl); lia).
  assert (tb_blk_seq lst = N.of_nat (length L' - 1)) as ->.
  { rewrite last_lookup in El. rewrite (Hseq _ _ El). cbn [length] in HL' |- *. lia. }
  rewrite <-Eq, drain_spec. fold (queue_hashes l). cbv zeta in Htr |- *. rewrite Hup, bind_Done. fold d1.
  fold (queue_times (tree_queue l)). fold (queue_entries l). rewrite Htr, bind_Done.
  rewrite u64_small by apply Hbd. done.
- split; cbn [next_block_seq tree_queue ldb_db commit_seq length].
  + rewrite HL', Hn, Nat.add_0_r. done.
  + rewrite HL', Nat.add_0_r. done.
  + done.
  + intros i h Hi. unfold block_hash. destruct (ledger_key_head (N.of_nat i)) as [s E]. rewrite E, Hd4 by done.
    rewrite <-E. unfold L' in Hi. apply lookup_app_Some in Hi as [Hi|[Hge Hi]]; [by apply Hb|].
    unfold queue_hashes in Hi. apply list_lookup_fmap_Some in Hi as (b & -> & Hi).
    rewrite (Hseq _ _ Hi). unfold block_hash. do 3 f_equal. lia.
  + eapply holds_same; [|exact Hh2]. intros x. unfold d4, d3. by rewrite !cs_get_ss_put.
  + eapply safe_same; [|exact Hs2]. intros x. unfold d4, d3. by rewrite !cs_get_ss_put.
  + rewrite (proj2 (N.eqb_neq _ _)) by lia. replace (commit_seq l + 1 - 1) with (commit_seq l) by lia.
    split; [intros E; rewrite E in HL'; cbn in HL'; lia|]. split; [apply Hbd|]. exists pd, root. fold cinfo.
    split; [done|]. split; [done|]. split; [|split].
    * intros i j x Hi Hx. destruct (node_key_head (length L') (to_string (commit_seq l)) i j) as [s E].
      rewrite E, Hd4m, <-E. by apply Hmt.
    * unfold d4. destruct (commit_key_head (to_string (commit_seq l))) as [s E].
      rewrite ss_get_put_ne by (rewrite E; discriminate). unfold d3. apply ss_get_put.
    * apply ss_get_put.
- intros k. split; [done|]. intros x [s ->]%under_skip_head. by apply Hd4.
- intros i. destruct (ledger_key_head i) as [s ->]. by apply Hd4.
- intros t0 Ht0. eapply holds_same; [|apply Hkeep; eapply holds_same; [|exact Ht0]].
  + intros x. cbn [ldb_db]. unfold d4, d3. by rewrite !cs_get_ss_put.
  + apply same_chunks_puts.
Qed.

(** ** Proofs *)

(** The blocks [GetProofs] gives a proof for: those that differ from the block
before, starting from block 0. *)
Fixpoint journal_blocks (current : N) (blks : list N) : list N :=
match blks with
| [] => []
| b :: blks => if b =? current then journal_blocks b blks else b :: journal_blocks b blks
end.

(** A key the trie has a value for. *)
Definition provable (t : node) (k : bytes) : Prop :=
ascii_key k ∧ (2 * (2 * length k + 1) <= fuel)%nat ∧ lookup_key t k ≠ [].

Lemma lookup_key_Some t k : lookup_key t k ≠ [] → nlookup t (KeybytesToHex k) = Some (lookup_key t k).
Proof. unfold lookup_key. by destruct (nlookup _ _). Qed.

Lemma proofs_loop_spec d L t c root keys blks current :
N.of_nat (length L) < 2 ^ 64 → Forall (λ h, length h = kByteLength) L → mt_commit d L c →
level L (height (length L)) = [root] → holds d t → (∀ i h, L !! i = Some h → h = block_hash d (N.of_nat i)) →
length blks = length keys → Forall (provable t) keys → Forall (λ b, b < N.of_nat (length L)) blks →
∃ mts mpts, proofs_loop fuel d c (node_key (length L) c (height (length L)) 0) (N.of_nat (length L - 1))
    (enc t) keys blks current = Done (mts, mpts) ∧
  value <$> mts = (λ b, ToBase32_value (block_hash d b)) <$> journal_blocks current blks ∧
  Forall (λ p, digest p = ToBase32_value root ∧ Verify junk p = Done true) mts ∧
  Forall2 (λ k p, value_ p = lookup_key t k ∧ ∀ k', VerifyProof p (digest_of t) k' = Done true) keys mpts.
Proof.
intros H64 HF Hmt Hroot Ht Hb Hlen Hk. revert blks current Hlen.
induction Hk as [|k keys (Hka & Hkf & Hkv) _ IH]; intros blks current Hlen HB.
{ destruct blks; [|done]. by exists [], []. }
destruct blks as [|b blks]; [done|]. apply Forall_cons in HB as [HBb HB].
destruct (IH blks b ltac:(by injection Hlen) HB) as (mts & mpts & Hl & Hv & Hmts & Hmpts).
destruct (GetProof_holds d t k fuel (lookup_key t k) Ht Hka Hkf (lookup_key_Some _ _ Hkv) Hkv)
  as (p & Hp & Hpv & HpV).
cbn [proofs_loop journal_blocks]. destruct (b =? current).
- rewrite bind_Done, Hp, bind_Done, Hl, bind_Done. exists mts, (p :: mpts). split; [done|].
  split; [done|]. split; [done|]. by constructor.
- destruct (lookup_lt_is_Some_2 L (N.to_nat b)) as [h Hh]; [lia|].
  pose proof (getProof_spec d L c (N.to_nat b) h root H64 Hmt Hh Hroot) as Hg. rewrite N2Nat.id in Hg.
  rewrite Hg, !bind_Done, Hp, bind_Done, Hl, bind_Done.
  exists (leaf_proof L (N.to_nat b) h root :: mts), (p :: mpts). split; [done|].
  split; [|split; [|by constructor]].
  + cbn [fmap list_fmap]. rewrite Hv. cbn [value leaf_proof]. f_equal. rewrite (Hb _ _ Hh). by rewrite N2Nat.id.
  + constructor; [|done]. split; [done|]. by apply Verify_leaf_proof.
Qed.

Lemma GetProofs_spec l L t keys blks :
committed l L t → commit_seq l ≠ 0 → length blks = length keys → Forall (provable t) keys →
Forall (λ b, b < N.of_nat (length L)) blks →
∃ mts mpts root, GetProofs junk fuel l keys blks
    = Done (mts, mpts, ToBase32_value root, N.of_nat (length L - 1), ToBase32_value (digest_of t)) ∧
  level L (height (length L)) = [root] ∧
  value <$> mts = (λ b, ToBase32_value (block_hash (ldb_db l) b)) <$> journal_blocks 0 blks ∧
  Forall (λ p, digest p = ToBase32_value root ∧ Verify junk p = Done true) mts ∧
  Forall2 (λ k p, value_ p = lookup_key t k ∧ ∀ k', VerifyProof p (digest_of t) k' = Done true) keys mpts.
Proof.
intros Hc Hne Hlen Hk HB. pose proof (block_digests_20 _ _ _ Hc) as HF.
destruct Hc as [Hn Hs Hseq Hb Ht Hsf Hcm]. rewrite (proj2 (N.eqb_neq _ _) Hne) in Hcm.
destruct Hcm as (HL & Hc64 & pd & root & Hpd & Hroot & Hmt & Hce & Hdg).
destruct (proofs_loop_spec (ldb_db l) L t (to_string (commit_seq l - 1)) root keys blks 0)
  as (mts & mpts & Hloop & Hv & Hmts & Hmpts); [lia|done..|].
exists mts, mpts, root. split; [|done]. unfold GetProofs. cbv zeta.
assert (commit_ok (info (commit_seq l - 1) L t pd root)) as Hok by (apply info_ok; [lia|lia|done..]).
rewrite Hdg, parse_show_digest, bind_Done; [|cbn; lia|cbn; lia|apply ToBase32_no_bar, length_ComputeFrom].
cbn [di_commit_seq]. change (#"commit" ++ ?x) with (commit_key x).
rewrite Hce, parse_show_commit, bind_Done by done. cbn [ci_mptroot ci_mtrootkey ci_tip_block ci_mtroot info].
rewrite FromBase32_ToBase32 by apply length_ComputeFrom.
rewrite (SetNodeForHash_spec (ldb_db l) (inners t)) by done. rewrite Hloop, bind_Done. done.
Qed.

Lemma GetRootDigest_spec l L t : committed l L t → commit_seq l ≠ 0 →
GetRootDigest l = Done (N.of_nat (length L - 1),
  ToBase32 (Some (ComputeFrom (ss_get (ldb_db l) (commit_key (to_string (commit_seq l - 1))))))).
Proof.
intros [Hn Hs Hseq Hb Ht _ Hcm] Hne. rewrite (proj2 (N.eqb_neq _ _) Hne) in Hcm.
destruct Hcm as (HL & Hc64 & pd & root & Hpd & Hroot & Hmt & Hce & Hdg).
unfold GetRootDigest. rewrite Hdg, Hce. set (dinfo := mkDigestInfo _ _ _).
destruct (show_digest_info dinfo) as [|c s] eqn:E.
{ unfold show_digest_info in E. destruct (to_string_cons (di_commit_seq dinfo)) as (a & x & Ea & _).
  rewrite Ea in E. discriminate E. }
rewrite <-E, parse_show_digest, bind_Done; [done|cbn; lia|cbn; lia|].
apply ToBase32_no_bar, length_ComputeFrom.
Qed.

(** ** The times of the queued keys *)

Lemma block_times_lookup m b k :
block_times m b !! k = if decide (k ∈ tb_mpt_ks b) then Some (tb_mpt_ts b) else m !! k.
Proof.
unfold block_times. generalize (tb_mpt_ts b) as ts. intros ts. revert m.
induction (tb_mpt_ks b) as [|k' ks IH]; intros m; cbn [foldl].
{ rewrite decide_False; [done|]. by apply not_elem_of_nil. }
rewrite IH. destruct (decide (k ∈ ks)) as [Hk|Hk].
{ by rewrite decide_True by (by right). }
destruct (decide (k = k')) as [->|Hne].
- by rewrite decide_True, lookup_insert_eq by left.
- rewrite lookup_insert_ne, decide_False by (done || by rewrite not_elem_of_cons). done.
Qed.

Lemma last_value_NoDup (kvs : list (bytes * bytes)) k v :
NoDup kvs.*1 → (k, v) ∈ kvs → last_value kvs k = Some v.
Proof.
induction kvs as [|[k' v'] kvs IH]; [by intros _ ?%elem_of_nil|]. cbn [fmap list_fmap fst last_value].
intros [Hk' Hnd]%NoDup_cons Hin.
assert (∀ kvs, k' ∉ kvs.*1 → last_value kvs k' = None) as Hnone.
{ clear. induction kvs as [|[a b] kvs IH]; [done|]. cbn. intros [Hne Hk]%not_elem_of_cons.
  rewrite IH by done. by rewrite decide_False. }
apply elem_of_cons in Hin as [[= -> ->]|Hin].
- rewrite Hnone by done. by rewrite decide_True.
- by rewrite IH.
Qed.

Lemma lookup_queued l t k ts : wf t → Forall TrieMap.entry_ok (queue_entries l) → ascii_key k →
queue_times (tree_queue l) !! k = Some ts → lookup_key (insert_tree t (queue_entries l)) k = ts.
Proof.
intros Hw HF Hk Hts. rewrite lookup_insert_tree by done.
rewrite (last_value_NoDup _ k ts); [done|apply map_entries_NoDup|by apply elem_of_map_entries].
Qed.

(** ** Runs of the ledger *)

(** The states the ledger reaches by [Set]s and iterations of the thread, with the
digests of the committed blocks and the committed trie. *)
Inductive reach : LedgerDB D → list bytes → node → Prop :=
| reach_create d :
    cs_get d nil_hash = None → reach (create_ledger d) [] NNil
| reach_Set K l L t keys values ts levels l' n :
    reach l L t → settable fuel K l keys values ts levels →
    N.of_nat (length L + length (tree_queue l)) + 1 < 2 ^ 64 →
    ledger_Set fuel l keys values ts levels = Done (l', n) → reach l' L t
| reach_idle l L t l' :
    reach l L t → tree_queue l = [] → build_iteration junk fuel l = Done l' → reach l' L t
| reach_build K l L t l' :
    reach l L t → tree_queue l ≠ [] → buildable l t K → build_iteration junk fuel l = Done l' →
    reach l' (L ++ queue_hashes l) (insert_tree t (queue_entries l)).

Lemma reach_committed l L t : reach l L t → committed l L t.
Proof.
induction 1 as [d Hd|K l L t keys values ts levels l' n _ IH HS H64 Hset|l L t l' _ IH Hq Hb|K l L t l' _ IH Hq Hbd Hb].
- by apply committed_create.
- destruct (Set_committed K l L t keys values ts levels IH HS H64) as (l1 & E & Hc & _). congruence.
- unfold build_iteration in Hb. rewrite Hq in Hb. by apply Done_inj in Hb as <-.
- destruct (build_spec l L t K IH Hq Hbd) as (l1 & E & _ & _ & Hc & _). congruence.
Qed.

(** C15.  In every state the ledger reaches, the published digest is the digest of
    the last commit record, whose journal root is the root of the reference
    Merkle tree over the digests of the texts of the committed blocks and whose
    trie root is a trie in the store; the blocks that are not committed are
    queued in order. *)
Theorem ledger_invariant l L t : reach l L t →
committed l L t ∧
(commit_seq l ≠ 0 → ∃ root prev_digest,
  let text := ss_get (ldb_db l) (commit_key (to_string (commit_seq l - 1))) in
  GetRootDigest l = Done (N.of_nat (length L - 1), ToBase32 (Some (ComputeFrom text))) ∧
  parse_commit text = Done (info (commit_seq l - 1) L t prev_digest root) ∧
  level L (height (length L)) = [root]).
Proof.
intros Hr%reach_committed. split; [done|]. intros Hne.
rewrite (GetRootDigest_spec l L t Hr Hne). pose proof (block_digests_20 _ _ _ Hr) as HF.
destruct Hr as [Hn Hs Hseq Hb Ht _ Hcm]. rewrite (proj2 (N.eqb_neq _ _) Hne) in Hcm.
destruct Hcm as (HL & Hc64 & pd & root & Hpd & Hroot & Hmt & Hce & Hdg). exists root, pd. cbv zeta.
split; [done|]. rewrite Hce. split; [|done]. apply parse_show_commit, info_ok; (lia || done).
Qed.

(** C13.  What is set is committed and provable: after a [Set], the next iteration
    of the thread empties the queue and writes a commit, and [GetProofs] for the
    keys of the block then returns, for each key, a trie proof of the time of
    the [Set] that verifies against the trie root, and a proof of the text of
    the block that verifies against the journal root, except for block 0, for
    which it returns no journal proof. *)
Theorem Set_is_provable K1 K l L t keys values ts levels :
let blk := next_block_seq l in
committed l L t → settable fuel K1 l keys values ts levels →
N.of_nat (length L + length (tree_queue l)) + 1 < 2 ^ 64 →
∃ l1, ledger_Set fuel l keys values ts levels = Done (l1, blk) ∧
  (buildable l1 t K → ∃ l2 text mts mpts root tip mpt,
    build_iteration junk fuel l1 = Done l2 ∧ tree_queue l2 = [] ∧ commit_seq l2 = commit_seq l1 + 1 ∧
    show_block (mkBlockData keys values) = Done text ∧
    GetProofs junk fuel l2 keys (replicate (length keys) blk) = Done (mts, mpts, root, tip, mpt) ∧
    value <$> mts = (if blk =? 0 then [] else [ToBase32 (Some (ComputeFrom text))]) ∧
    Forall (λ p, digest p = root ∧ Verify junk p = Done true) mts ∧
    Forall2 (λ k p, value_ p = to_string ts ∧ VerifyProof p (FromBase32 junk mpt) k = Done true) keys mpts).
Proof.
intros blk Hc HS H64.
destruct (Set_spec fuel K1 l keys values ts levels HS) as (l1 & text & Hset & Htext & Hget & _).
destruct (Set_committed K1 l L t keys values ts levels Hc HS H64) as (l1' & Hset' & Hc1 & Hq1).
rewrite Hset in Hset'. apply Done_inj in Hset'. injection Hset' as <-.
exists l1. split; [done|]. intros Hbd.
destruct (build_spec l1 L t K Hc1) as (l2 & Hb & Hq2 & Hcs2 & Hc2 & _ & Hblk & _);
  [by rewrite Hq1; destruct (tree_queue l)|done|].
set (L' := L ++ queue_hashes l1) in *. set (t' := insert_tree t (queue_entries l1)) in *.
assert (∀ k, k ∈ keys → queue_times (tree_queue l1) !! k = Some (to_string ts)) as Hts.
{ intros k Hk. rewrite Hq1. unfold queue_times. rewrite foldl_app. cbn [foldl].
  rewrite block_times_lookup. cbn. by rewrite decide_True. }
assert (Forall (provable t') keys) as Hp.
{ apply Forall_forall. intros k Hk. destruct Hbd as [He _ _ HK Hf _].
  assert ((k, to_string ts) ∈ queue_entries l1) as Hin by (by apply elem_of_map_entries, Hts).
  rewrite Forall_forall in HK. pose proof (HK _ Hin) as Hlen. cbn [fst] in Hlen.
  rewrite length_KeybytesToHex in Hlen. pose proof (proj1 (Forall_forall _ _) He _ Hin) as [Ha _].
  split; [done|]. split; [lia|]. unfold t'. rewrite (lookup_queued l1 t k (to_string ts)); auto.
  - apply to_string_nonnil.
  - apply Hc1. }
pose proof (cm_next _ _ _ Hc) as Hn.
assert (blk < N.of_nat (length L')) as Hlt.
{ unfold L', queue_hashes, blk. rewrite length_app, length_fmap, Hq1, length_app. cbn. lia. }
destruct (GetProofs_spec l2 L' t' keys (replicate (length keys) blk))
  as (mts & mpts & root & HG & _ & Hv & Hmts & Hmpts);
  [done|lia|by rewrite length_replicate|done|by apply Forall_replicate|].
exists l2, text, mts, mpts, (ToBase32_value root), (N.of_nat (length L' - 1)), (ToBase32_value (digest_of t')).
split_and!; try done.
- rewrite Hv. assert (keys ≠ []) as Hne by apply HS. destruct keys as [|k keys]; [done|]. cbn [length replicate journal_blocks].
  assert (∀ n, journal_blocks blk (replicate n blk) = []) as Hrep.
  { induction n as [|n IHn]; [done|]. cbn. by rewrite N.eqb_refl. }
  destruct (blk =? 0); rewrite Hrep; [done|]. cbn. unfold block_hash, blk. by rewrite Hblk, Hget.
- rewrite FromBase32_ToBase32 by apply length_ComputeFrom.
  apply Forall2_same_length_lookup_2; [by apply Forall2_length in Hmpts|].
  intros i k p Hi Hpi. destruct (Forall2_lookup_lr _ _ _ _ _ _ Hmpts Hi Hpi) as [Hval HV]. split; [|apply HV].
  rewrite Hval. unfold t'. apply list_elem_of_lookup_2 in Hi. rewrite (lookup_queued l1 t k (to_string ts)); auto.
  + apply Hc1.
  + apply Hbd.
  + rewrite Forall_forall in Hp. by apply Hp.
Qed.
End Commits.

(** ** Witnesses *)

Lemma split_safe `{Blake2b} (d : split_db) U : safe d.2 U → safe d U.
Proof. intros [Hi Hd Hn Hne]. by split. Qed.

Definition ledger_or (l : LedgerDB split_db) (o : outcome (LedgerDB split_db * N)) : LedgerDB split_db :=
  match o with Done (l', _) => l' | Stop _ => l end.
(** A ledger with one block, and with two. *)
Definition no_blocks : LedgerDB split_db := create_ledger (∅, ∅).
Definition one_block : LedgerDB split_db :=
  ledger_or no_blocks (ledger_Set 8 no_blocks [ #"a"; #"b"] [ #"1"; #"2"] 5 [1; 2]%nat).
Definition two_blocks : LedgerDB split_db :=
  ledger_or no_blocks (ledger_Set 8 one_block [ #"b"] [ #"3"] 6 [1]%nat).

Lemma first_block_settable : settable 8 (λ _, []) no_blocks [ #"a"; #"b"] [ #"1"; #"2"] 5 [1; 2]%nat.
Proof.
  split; try (apply (bool_decide_unpack _); vm_compute; exact I).
  intros k _. split; [reflexivity|]. split; [apply not_elem_of_nil|cbn; lia].
Qed.

Lemma one_block_spec : let _ := toy_blake2b in
  committed one_block [] NNil ∧ next_block_seq one_block = 1 ∧ length (tree_queue one_block) = 1%nat ∧
  listed (ldb_db one_block) #"b" [5%Z].
Proof.
  intros B. pose proof first_block_settable as HS.
  assert (committed no_blocks [] NNil) as Hc0 by (by apply committed_create).
  destruct (Set_committed 8 _ no_blocks [] NNil _ _ _ _ Hc0 HS ltac:(vm_compute; reflexivity)) as (l1 & E & Hc & Hq).
  destruct (Set_spec 8 _ no_blocks _ _ _ _ HS) as (l1' & t & E' & _ & _ & Hn & _ & _ & _ & HK & _).
  rewrite E in E'. apply Done_inj in E'. injection E' as <-.
  assert (one_block = l1) as -> by (unfold one_block; rewrite E; reflexivity).
  split; [exact Hc|]. split; [by rewrite Hn|]. split; [by rewrite Hq|]. apply HK. right. left.
Qed.

Lemma two_blocks_settable : settable 8 (λ _, [5%Z]) one_block [ #"b"] [ #"3"] 6 [1]%nat.
Proof.
  pose proof one_block_spec as (_ & Hn & _ & Hb).
  split; try (rewrite Hn); try (apply (bool_decide_unpack _); vm_compute; exact I).
  intros k ->%list_elem_of_singleton. split; [exact Hb|].
  split; [apply (bool_decide_unpack _); vm_compute; exact I|cbn; lia].
Qed.

Lemma two_blocks_buildable : let _ := toy_blake2b in buildable 8 two_blocks NNil 3.
Proof.
  intros B. split.
  - apply entries_okb_ok. vm_compute. reflexivity.
  - apply split_safe, safe_check. vm_compute. reflexivity.
  - apply Nat.le_0_l.
  - apply (bool_decide_unpack _). vm_compute. exact I.
  - lia.
  - vm_compute. reflexivity.
Qed.

Lemma Set_is_provable_witness :
  let _ := toy_blake2b in let junk := λ _ : nat, "x"%char in
  ∃ l2 text mts mpts root tip mpt,
    build_iteration junk 8 two_blocks = Done l2 ∧ commit_seq l2 = commit_seq two_blocks + 1 ∧
    GetProofs junk 8 l2 [ #"b"] [1] = Done (mts, mpts, root, tip, mpt) ∧
    show_block (mkBlockData [ #"b"] [ #"3"]) = Done text ∧
    value <$> mts = [ToBase32 (Some (ComputeFrom text))] ∧
    Forall (λ p, digest p = root ∧ Verify junk p = Done true) mts ∧
    Forall2 (λ k p, value_ p = #"6" ∧ VerifyProof p (FromBase32 junk mpt) k = Done true) [ #"b"] mpts.
Proof.
  intros B junk. pose proof one_block_spec as (Hc & Hn & Hq & _).
  destruct (Set_is_provable junk 8 (λ _, [5%Z]) 3 one_block [] NNil [ #"b"] [ #"3"] 6 [1]%nat Hc
    two_blocks_settable ltac:(rewrite Hq; vm_compute; reflexivity)) as (l1 & E & HP).
  assert (two_blocks = l1) as E1 by (unfold two_blocks; rewrite E; reflexivity).
  rewrite <-E1 in HP. destruct (HP two_blocks_buildable)
    as (l2 & text & mts & mpts & root & tip & mpt & Hb & _ & Hcs & Ht & HG & Hv & Hm & Hp).
  rewrite Hn in HG, Hv. exists l2, text, mts, mpts, root, tip, mpt.
  split; [exact Hb|]. split; [exact Hcs|]. split; [exact HG|]. split; [exact Ht|].
  split; [exact Hv|]. split; [exact Hm|exact Hp].
Defined.

Lemma two_blocks_reach : let _ := toy_blake2b in
  reach (λ _, "x"%char) 8 two_blocks [] NNil ∧ length (tree_queue two_blocks) = 2%nat.
Proof.
  intros B. pose proof one_block_spec as (Hc & Hn & Hq & _).
  assert (committed no_blocks [] NNil) as Hc0 by (by apply committed_create).
  destruct (Set_committed 8 _ no_blocks [] NNil _ _ _ _ Hc0 first_block_settable ltac:(vm_compute; reflexivity))
    as (l1 & E1 & _).
  assert (one_block = l1) as Eq1 by (unfold one_block; rewrite E1; reflexivity). rewrite <-Eq1 in E1.
  destruct (Set_committed 8 _ one_block [] NNil _ _ _ _ Hc two_blocks_settable
    ltac:(rewrite Hq; vm_compute; reflexivity)) as (l2 & E2 & _ & Hq2).
  assert (two_blocks = l2) as Eq2 by (unfold two_blocks; rewrite E2; reflexivity). rewrite <-Eq2 in E2, Hq2.
  split; [|rewrite Hq2, length_app, Hq; reflexivity].
  refine (reach_Set _ _ _ one_block _ _ _ _ _ _ _ _ _ two_blocks_settable _ E2);
    [|rewrite Hq; vm_compute; reflexivity].
  refine (reach_Set _ _ _ no_blocks _ _ _ _ _ _ _ _ _ first_block_settable _ E1); [|vm_compute; reflexivity].
  apply reach_create. reflexivity.
Qed.

Lemma ledger_invariant_witness :
  let _ := toy_blake2b in
  ∃ (l : LedgerDB split_db) L t, reach (λ _, "x"%char) 8 l L t ∧ committed l L t ∧ length L = 2%nat ∧
    ∃ dg, GetRootDigest l = Done (1, dg).
Proof.
  intros B. destruct two_blocks_reach as [HR Hq].
  assert (tree_queue two_blocks ≠ []) as Hne by (intros E; rewrite E in Hq; discriminate Hq).
  destruct (build_spec (λ _, "x"%char) 8 two_blocks [] NNil 3 (reach_committed _ _ _ _ _ HR) Hne two_blocks_buildable)
    as (l2 & Hb & _ & Hcs & _).
  pose proof (reach_build _ _ 3 _ _ _ _ HR Hne two_blocks_buildable Hb) as HR2.
  destruct (ledger_invariant _ _ _ _ _ HR2) as [Hc Hd]. exists l2. do 2 eexists.
  split; [exact HR2|]. split; [exact Hc|].
  assert (length (queue_hashes two_blocks) = 2%nat) as Hl by (unfold queue_hashes; rewrite length_fmap; exact Hq).
  cbn [app]. split; [exact Hl|]. destruct Hd as (root & pd & Hg & _); [rewrite Hcs; lia|].
  eexists. rewrite Hg. exact (f_equal (λ n, Done (N.of_nat (n - 1), _)) Hl).
Defined.
