(* ===== verification/LedgerAudit.v ===== *)
(** * What an audit of the ledger decides

    [GetAudit] collects the commits, the blocks and the trie proofs from a commit
    on, and [Auditor::Audit] replays them on the store of the auditor. *)

From S2P Require Import Prelude Cpp Hash Chunk DB MerkleSpec MerkleTree MPTNode Trie TrieSpec TrieProof.
From S2P Require Import TrieMap LedgerTypes Reply SkipList SkipSpec LedgerDB LedgerFrame LedgerVersions LedgerSpec.

Open Scope N_scope.

Section Audit.
Context `{Blake2b, SplitStore D, !StringStoreLaws D, !ChunkStoreLaws D} (junk : nat → ascii) (fuel : nat).
Implicit Types (d : D) (l : LedgerDB D).

(** Once the journal root is right, no trie proof is read. *)
Lemma audit_keys_accepted h keys ps cnt :
audit_keys h keys ps cnt true = Done (true, (cnt + length keys)%nat).
Proof.
revert cnt. induction keys as [|k keys IH]; intros cnt; cbn [audit_keys length]; [by rewrite Nat.add_0_r|].
rewrite bind_Done, IH. f_equal. f_equal. lia.
Qed.

Definition readable (b : bytes) : Prop := is_done (parse_block b) = true.

Lemma audit_blocks_accepted h blocks ps cnt :
Forall readable blocks → audit_blocks h blocks ps cnt true = Done true.
Proof.
intros HF. revert cnt. induction HF as [|b blocks Hb _ IH]; intros cnt; [done|]. cbn [audit_blocks].
destruct (is_done_Done _ Hb) as [info ->]. by rewrite bind_Done, audit_keys_accepted, bind_Done.
Qed.

(** A block that was written is read back, if not as it was written. *)
Lemma show_block_readable ks vs t : show_block (mkBlockData ks vs) = Done t → readable t.
Proof.
intros Hs. unfold readable. assert ("|"%char ∈ t) as Hbar.
{ unfold show_block in Hs. cbn [bd_keys bd_vals] in Hs. destruct ks as [|k ks]; cbn [show_entries] in Hs; [done|].
  destruct vs as [|v vs]; [done|]. destruct (show_entries ks vs) as [r|]; [|done]. rewrite bind_Done in Hs.
  rewrite bind_Done in Hs. destruct (substr _ 1 None); [|done]. rewrite bind_Done in Hs.
  apply Done_inj in Hs as <-. rewrite !elem_of_app. right. right. left. by left. }
pose proof (splitBy_length "|" t) as Hlen.
assert (0 < length (filter (λ x, x = "|"%char) t))%nat as Hpos.
{ destruct (filter _ t) eqn:E; [|cbn; lia]. exfalso.
  assert ("|"%char ∈ filter (λ x, x = "|"%char) t) as Hin by (by apply list_elem_of_filter).
  rewrite E in Hin. by apply elem_of_nil in Hin. }
destruct (splitBy t "|") as [|a [|b rest]] eqn:E; cbn in Hlen; [lia|lia|].
unfold parse_block. generalize (splitBy t "/") as kvs. intros kvs.
assert (∃ r, parse_entries t kvs = Done r) as [[r1 r2] ->]; [|done].
induction kvs as [|kv kvs [[r1 r2] IH]]; [by eexists|]. cbn [parse_entries]. unfold item. rewrite E.
cbn [lookup list_lookup]. rewrite !bind_Done, IH, bind_Done. by eexists.
Qed.

(** An audit of one commit recomputes the journal: on a store that holds the
    tree of the blocks before, [Audit] accepts a commit whose text has the
    digest asked for and whose journal root is the root of the reference tree
    over the old and the new blocks, and leaves the tree of the commit in the
    store.  It does so whatever the trie root and the trie proofs are. *)
Theorem Audit_one_commit d (L0 : list bytes) (a : Auditor) text ci root :
let L := L0 ++ (ComputeFrom <$> au_blocks a) in
let pc := if 0 <? ci_commit_seq ci then Some (ci_commit_seq ci - 1) else None in
au_commits a = [text] → au_digest a = ToBase32 (Some (ComputeFrom text)) → parse_commit text = Done ci →
ci_commit_seq ci < 2 ^ 64 → au_first_block_seq a = N.of_nat (length L0) →
au_blocks a ≠ [] → Forall readable (au_blocks a) →
N.of_nat (length L) < 2 ^ 64 → Forall (λ h, length h = kByteLength) L0 →
match pc with None => L0 = [] | Some p => mt_commit d L0 (to_string p) end →
level L (height (length L)) = [root] → ci_mtroot ci = ToBase32_value root →
∃ d', Audit junk a d = Done (d', true) ∧ mt_commit d' L (to_string (ci_commit_seq ci)).
Proof.
intros L pc Hcs Hdg Hp Hc64 Hfirst Hne HR H64 HF Hpre Hroot Hmt. unfold Audit.
rewrite Hcs, Hdg. cbn [rev app audit_commits]. rewrite decide_True by done.
rewrite Hp, !bind_Done, Hfirst, Hmt.
assert (next_commit pc = ci_commit_seq ci) as Hnext by (unfold pc; destruct (N.ltb_spec 0 (ci_commit_seq ci)); cbn; lia).
assert ((if 0 <? ci_commit_seq ci then to_string (ci_commit_seq ci - 1) else []) = show_commit pc) as ->
  by (unfold pc; by destruct (0 <? ci_commit_seq ci)).
assert (((λ b, ToBase32 (Some (ComputeFrom b))) <$> au_blocks a) = ToBase32_value <$> (ComputeFrom <$> au_blocks a)) as ->
  by (by rewrite <-list_fmap_compose).
assert (ComputeFrom <$> au_blocks a ≠ []) as HM by (by destruct (au_blocks a)).
rewrite (update_spec junk d L0 (ComputeFrom <$> au_blocks a) pc root) by
  (done || (by rewrite Hnext) || (apply Forall_app; split; [done|];
     apply Forall_fmap, Forall_forall; intros b _; apply length_ComputeFrom)).
rewrite bind_Done, bool_decide_true, audit_blocks_accepted, bind_Done by done.
eexists. split; [done|]. rewrite Hnext. apply mt_commit_writes; [|done].
unfold pc in Hpre. destruct (0 <? ci_commit_seq ci); [right; by eexists|by left].
Qed.

Lemma range_last a b : a <= b → ∃ r, range a b = r ++ [b].
Proof.
intros Hab. unfold range. replace (N.to_nat (b + 1 - a)) with (S (N.to_nat (b - a))) by lia.
rewrite seq_S, fmap_app. eexists. cbn. do 3 f_equal. lia.
Qed.

(** An audit counts commits as blocks: [GetAudit] collects the commits up to
    the number of the last block, so when a commit has covered more than one
    block, and no commit has that number, [Audit] of what the ledger returns is
    refused on any store. *)
Theorem Audit_refuses_batch l L t seq a d :
committed l L t → commit_seq l ≠ 0 → seq <= N.of_nat (length L - 1) →
ss_get (ldb_db l) (commit_key (to_string (N.of_nat (length L - 1)))) = [] →
ComputeFrom [] ≠ ComputeFrom (ss_get (ldb_db l) (commit_key (to_string (commit_seq l - 1)))) →
GetAudit junk fuel l seq = Done a → Audit junk a d = Done (d, false).
Proof.
intros Hc Hne Hseq Hempty Hdiff. destruct Hc as [Hn Hs _ Hb Ht _ Hcm]. rewrite (proj2 (N.eqb_neq _ _) Hne) in Hcm.
destruct Hcm as (HL & Hc64 & pd & root & _ & _ & _ & Hce & Hdg). rewrite Hce in Hdiff.
unfold GetAudit. cbv zeta.
rewrite Hdg, parse_show_digest, bind_Done; [|cbn; lia|cbn; lia|apply ToBase32_no_bar, length_ComputeFrom].
cbn [di_tip_block di_digest]. destruct (range_last seq _ Hseq) as [r ->]. rewrite fmap_app. cbn [fmap list_fmap].
change (#"commit" ++ ?x) with (commit_key x). rewrite Hempty.
intros HG. apply bind_Done_inv in HG as (ci & _ & HG). apply bind_Done_inv in HG as (first & _ & HG).
apply bind_Done_inv in HG as (proofs & _ & HG). apply Done_inj in HG as <-.
unfold Audit. cbn [au_commits au_digest]. rewrite rev_app_distr. cbn [rev app audit_commits].
rewrite decide_False; [done|]. intros E. apply Hdiff.
apply ToBase32_value_inj; [apply length_ComputeFrom..|exact E].
Qed.
End Audit.

(** ** Witnesses *)

Definition built (l : LedgerDB split_db) : LedgerDB split_db :=
  let _ := toy_blake2b in
  match build_iteration (λ _, "x"%char) 8 l with Done l' => l' | Stop _ => l end.

(** The commit of the ledger with one block, audited with proofs that prove
nothing. *)
Definition first_text : bytes := Eval vm_compute in ss_get (ldb_db (built one_block)) #"commit0".
Definition first_block : bytes := Eval vm_compute in ss_get (ldb_db (built one_block)) #"ledger-0".
Definition first_info : CommitInfo := Eval vm_compute in
  match parse_commit first_text with Done ci => ci | Stop _ => mkCommitInfo 0 [] 0 [] [] [] end.
Definition one_commit : Auditor := let _ := toy_blake2b in
  mkAuditor (ToBase32 (Some (ComputeFrom first_text))) 0 0 [first_text] [first_block] [].

Lemma Audit_one_commit_witness : let _ := toy_blake2b in
  ∃ d' : split_db, Audit (λ _, "x"%char) one_commit (∅, ∅) = Done (d', true) ∧
    mt_commit d' [ComputeFrom first_block] #"0".
Proof.
  intros B.
  destruct (Audit_one_commit (λ _, "x"%char) ((∅, ∅) : split_db) [] one_commit first_text first_info
    (ComputeFrom first_block)) as (d' & HA & Hm).
  - reflexivity.
  - reflexivity.
  - vm_compute. reflexivity.
  - reflexivity.
  - reflexivity.
  - discriminate.
  - constructor; [vm_compute; reflexivity|constructor].
  - reflexivity.
  - constructor.
  - reflexivity.
  - reflexivity.
  - vm_compute. reflexivity.
  - exists d'. split; [exact HA|exact Hm].
Defined.

Lemma Audit_refuses_batch_witness : let _ := toy_blake2b in
  ∃ (l : LedgerDB split_db) a, GetAudit (λ _, "x"%char) 8 l 0 = Done a ∧
    Audit (λ _, "x"%char) a ((∅, ∅) : split_db) = Done ((∅, ∅), false).
Proof.
  intros B. destruct two_blocks_reach as [HR Hq].
  assert (tree_queue two_blocks ≠ []) as Hne by (intros E; rewrite E in Hq; discriminate Hq).
  destruct (build_spec (λ _, "x"%char) 8 two_blocks [] NNil 3 (reach_committed _ _ _ _ _ HR) Hne two_blocks_buildable)
    as (l2 & Hb & _ & Hcs & Hc & _).
  assert (built two_blocks = l2) as E by (unfold built; rewrite Hb; reflexivity).
  assert (∃ a, GetAudit (λ _, "x"%char) 8 (built two_blocks) 0 = Done a) as [a Ha]
    by (apply is_done_Done; vm_compute; reflexivity).
  rewrite E in Ha. exists l2, a. split; [exact Ha|].
  refine (Audit_refuses_batch _ 8 _ _ _ 0 a (∅, ∅) Hc _ _ _ _ Ha).
  - rewrite Hcs. lia.
  - apply N.le_0_l.
  - rewrite <-E. vm_compute. reflexivity.
  - rewrite <-E. vm_compute. discriminate.
Defined.
