(* ===== verification/VersionStore.v ===== *)
(** * [store/common/backend/versionstore.cc]: the versioned store of a shard

    [VersionedKVStore] turns the calls of the transaction store into calls of a
    ledger and the results into fields of the reply.  This is the build with
    [LEDGERDB]; the ledger is [LedgerDB]. *)

From S2P Require Import Prelude Cpp Hash Chunk DB MerkleTree MPTNode Trie LedgerTypes SkipList LedgerDB.
From S2P Require Import Txn Reply OCCStore.

Open Scope N_scope.

(** [push_back] of every key with its block. *)
Definition flatten_keys (keys : gmap N (list bytes)) : list (bytes * N) :=
  e ← nmap_entries keys; (λ k, (k, e.1)) <$> e.2.

(** The store, and how many levels its skip lists have drawn. *)
Record LedgerStore (D : Type) := mkLedgerStore { ldb : LedgerDB D; draws : nat }.
Arguments mkLedgerStore {D} _ _.
Arguments ldb {D} _.
Arguments draws {D} _.

(** A value that was read, as a field of the reply. *)
Definition kv_of (k : bytes) (res : versioned) : KV := mkKV k res.2.2 (int64 res.2.1).

(** [add_mpt_chunks] and [add_mpt_pos] of the entries of a proof. *)
Definition mpt_fields (p : MPTProof) : outcome (list Z) :=
  mapM (λ j, pos ← item (map_pos p) j; Done (int32 (N.of_nat pos))) (seq 0 (length (map_chunks p))).

(** A journal proof with the trie proof of the same index. *)
Definition proof_message (mt : Proof) (mpt : MPTProof) : outcome LedgerDBProof :=
  mt_pos ← mapM (λ j, p ← item (pos mt) j; Done (int32 p)) (seq 0 (length (proof mt)));
  mpt_pos ← mpt_fields mpt;
  Done (mkLedgerDBProof (value mt) (digest mt) (proof mt) mt_pos (value_ mpt) (map_chunks mpt) mpt_pos).

(** The loop over [mtproof]. *)
Fixpoint proof_messages (i : nat) (mts : list Proof) (mpts : list MPTProof) : outcome (list LedgerDBProof) :=
  match mts with
  | [] => Done []
  | mt :: mts =>
      mpt ← item mpts i;
      p ← proof_message mt mpt;
      ps ← proof_messages (S i) mts mpts;
      Done (p :: ps)
  end.

Definition mpt_message (p : MPTProof) : outcome MPTProofMessage :=
  pos ← mpt_fields p; Done (mkMPTProofMessage (value_ p) (map_chunks p) pos).

Section VersionStore.
Context `{Blake2b, StringStore D, ChunkStore D} (junk : nat → ascii) (fuel : nat) (draw : nat → nat).
Implicit Types s : LedgerStore D.

(** The constructor. *)
Definition create_store (d : D) : LedgerStore D := mkLedgerStore (create_ledger d) 0.

Definition store_GetDigest s (r : Reply) : outcome (LedgerStore D * Reply) :=
'(tip, h) ← GetRootDigest (ldb s);
Done (s, set_digest r (int64 tip) h).

(** [keys[i]] of every result. *)
Definition store_BatchGet s (keys : list bytes) (r : Reply) : outcome (LedgerStore D * Reply) :=
'(l, res) ← GetValues fuel (ldb s) keys;
Done (mkLedgerStore l (draws s),
      add_timestamps (add_values r (zip_with kv_of keys res)) (int64 ∘ fst <$> res)).

(** [GetNVersions]: the first count is used for all keys, as the [int] [n] of
[scan]. *)
Definition store_GetNVersions s (ver_keys : list (bytes * N)) (r : Reply) : outcome (LedgerStore D * Reply) :=
first ← item ver_keys 0;
res ← GetVersions (ldb s) ver_keys.*1 (Z.to_nat (int32 first.2));
Done (s, add_values r (mjoin (zip_with (λ k vs, kv_of k <$> vs) ver_keys.*1 res))).

Definition store_GetRange s (start fin : bytes) (r : Reply) : outcome (LedgerStore D * Reply) :=
res ← ledger_GetRange fuel (ldb s) start fin;
Done (s, add_timestamps (add_values r ((λ e, kv_of e.1 e.2) <$> res)) ((λ e, int64 e.2.1) <$> res)).

(** [GetProof] of keys grouped by block. *)
Definition store_GetProof s (keys : gmap N (list bytes)) (r : Reply) : outcome (LedgerStore D * Reply) :=
let flat := flatten_keys keys in
'(mtproof, mptproof, mtdigest, block, mptdigest) ← GetProofs junk fuel (ldb s) flat.*1 flat.*2;
let r := set_mpthash (set_digest r (int64 block) mtdigest) mptdigest in
ps ← proof_messages 0 mtproof mptproof;
Done (s, foldl add_proof r ps).

(** [GetProof] of a commit, for an audit. *)
Definition store_GetAudit s (seq : N) (r : Reply) : outcome (LedgerStore D * Reply) :=
a ← GetAudit junk fuel (ldb s) seq;
ms ← mapM mpt_message (au_mptproofs a);
Done (s, set_laudit r (mkLedgerDBAudit (au_digest a) (int64 (au_commit_seq a))
           (int64 (au_first_block_seq a)) (au_commits a) (au_blocks a) ms)).

(** [put]: one entry of the reply is set for every key in turn. *)
Fixpoint last_entry (kv : KV) (keys values : list bytes) (blk : N) : outcome KV :=
match keys, values with
| [], _ => Done kv
| _ :: _, [] => Stop Undefined
| k :: keys, v :: values => last_entry (mkKV k v (int64 blk)) keys values blk
end.

Definition store_put s (keys values : list bytes) (t : Timestamp.t) (reply : option Reply)
  : outcome (LedgerStore D * option Reply) :=
let levels := draw <$> seq (draws s) (length keys) in
'(l, blk) ← ledger_Set fuel (ldb s) keys values (Timestamp.timestamp t) levels;
let s := mkLedgerStore l (draws s + length keys) in
match reply with
| None => Done (s, None)
| Some r => kv ← last_entry (mkKV [] [] 0) keys values blk; Done (s, Some (add_values r [kv]))
end.

(** [get]: the time of the value is its block number. *)
Definition store_get s (key : bytes) : outcome (LedgerStore D * (Timestamp.t * bytes)) :=
'(l, res) ← GetValues fuel (ldb s) [key];
first ← item res 0;
Done (mkLedgerStore l (draws s), (Timestamp.of_time first.2.1, first.2.2)).
End VersionStore.

#[export] Instance ledger_VersionedKVStore `{Blake2b, StringStore D, ChunkStore D} (junk : nat → ascii)
  (fuel : nat) (draw : nat → nat) : VersionedKVStore (LedgerStore D) := {|
  vs_GetDigest := store_GetDigest;
  vs_BatchGet := store_BatchGet fuel;
  vs_GetNVersions := store_GetNVersions;
  vs_GetRange := store_GetRange fuel;
  vs_GetProof := store_GetProof junk fuel;
  vs_GetAudit := store_GetAudit junk fuel;
  vs_put := store_put fuel draw;
|}.
