(* ===== verification/ShardClient.v ===== *)
(** * [store/strongstore/shardclient.cc]: the client of one shard

    Every call builds a request and leaves a task for the thread of the transport,
    which registers the promise and hands the request to the replication client;
    a callback then answers the promise.  This is the build with [LEDGERDB]. *)

From S2P Require Import Prelude Cpp Hash Chunk DB MerkleTree MPTNode Trie LedgerTypes LedgerDB.
From S2P Require Import Txn Reply StoreCommon Server.

Open Scope N_scope.

(** [txnclient.h] *)
Definition GET_TIMEOUT : Z := 10000.
Definition PUT_TIMEOUT : Z := 250.
Definition PREPARE_TIMEOUT : Z := 10000.
Definition PREPARE_RETRIES : nat := 1.
Definition COMMIT_TIMEOUT : Z := 10000.
Definition COMMIT_RETRIES : nat := 1.
Definition ABORT_TIMEOUT : Z := 1000.

(** A request with the fields the clients set. *)
Definition empty_request (op : Operation) (txnid : N) : Request :=
  mkRequest op txnid (mkTransactionMessage [] []) 0 (mkTransactionMessage [] []) 0 [] [] [] [] [] 0.

Definition batchget_request (id : N) (keys : list bytes) : Request :=
  mkRequest BATCH_GET id (mkTransactionMessage [] []) 0 (mkTransactionMessage [] []) 0 [] [] [] [] keys 0.
Definition range_request (id : N) (from to : bytes) : Request :=
  mkRequest RANGE id (mkTransactionMessage [] []) 0 (mkTransactionMessage [] []) 0 [] [] from to [] 0.
Definition proof_request (block : N) (keys : list bytes) : Request :=
  mkRequest VERIFY_GET 0 (mkTransactionMessage [] []) 0 (mkTransactionMessage [] []) (int64 block) keys
    [] [] [] [] 0.
Definition audit_request (seq : N) : Request :=
  mkRequest AUDIT 0 (mkTransactionMessage [] []) 0 (mkTransactionMessage [] []) 0 [] [] [] [] [] (int64 seq).
Definition commit_request (id : N) (versionedKeys : list (bytes * N)) (timestamp : N) : Request :=
  mkRequest COMMIT id (mkTransactionMessage [] []) timestamp (mkTransactionMessage [] []) 0 []
    ((λ vk, mkVersionedKey vk.1 (int32 vk.2)) <$> versionedKeys) [] [] [] 0.

Section Requests.
Context `{IterOrder}.
Definition prepare_request (id : N) (txn : Transaction.t) : Request :=
mkRequest PREPARE id (Transaction.serialize txn) 0 (mkTransactionMessage [] []) 0 [] [] [] [] [] 0.
Definition abort_request (id : N) (txn : Transaction.t) : Request :=
mkRequest ABORT id (mkTransactionMessage [] []) 0 (Transaction.serialize txn) 0 [] [] [] [] [] 0.
End Requests.

(** ** State *)

(** A promise is known by its number in the heap of promises. *)
Abbreviation pid := nat.

(** [verifyPromise] maps a call to a promise, or to [NULL]. *)
Record ShardClient (D : Type) := mkShardClient {
  sc_replica : Z;
  waiting : option pid;
  blockingBegin : option pid;
  verifyPromise : gmap N (option pid);
  tip_block : N;
  audit_block : Z;
  uid : N;
  sc_db : D;
  heap : gmap pid Promise.t;
}.
Arguments mkShardClient {D} _ _ _ _ _ _ _ _ _.
Arguments sc_replica {D} _.
Arguments waiting {D} _.
Arguments blockingBegin {D} _.
Arguments verifyPromise {D} _.
Arguments tip_block {D} _.
Arguments audit_block {D} _.
Arguments uid {D} _.
Arguments sc_db {D} _.
Arguments heap {D} _.

(** The bound member functions that answer. *)
Inductive callback :=
  | BatchGetCb
  | GetRangeCb
  | GetProofCb (uid : N) (keys : list bytes)
  | AuditCb (seq uid : N)
  | PrepareCb
  | CommitCb
  | AbortCb.

(** The calls of the replication client; [GetTimeout] is the error continuation
of an unlogged call. *)
Inductive vr_call :=
  | Invoke (request : Request) (cb : callback)
  | InvokeUnlogged (replica : Z) (request : Request) (cb : callback) (timeout : Z).

(** The lambda given to [transport->Timer(0, ...)]. *)
Inductive task :=
  | Waiting (promise : option pid) (call : vr_call)
  | Verifying (promise : option pid) (request : Request) (cb : N → callback) (timeout : Z).

Section ShardClient.
Context `{Blake2b, StringStore D, ChunkStore D, IterOrder} (junk : nat → ascii).
(** The value of a [VerifyStatus] that is not initialised. *)
Context (junk_status : VerifyStatus).
Implicit Types s : ShardClient D.

Definition set_waiting s (w : option pid) : ShardClient D :=
mkShardClient (sc_replica s) w (blockingBegin s) (verifyPromise s) (tip_block s) (audit_block s) (uid s)
  (sc_db s) (heap s).
Definition set_blocking s (b : option pid) : ShardClient D :=
mkShardClient (sc_replica s) (waiting s) b (verifyPromise s) (tip_block s) (audit_block s) (uid s)
  (sc_db s) (heap s).
Definition set_verify s (v : gmap N (option pid)) (u : N) : ShardClient D :=
mkShardClient (sc_replica s) (waiting s) (blockingBegin s) v (tip_block s) (audit_block s) u
  (sc_db s) (heap s).
Definition set_tip s (tip : N) : ShardClient D :=
mkShardClient (sc_replica s) (waiting s) (blockingBegin s) (verifyPromise s) tip (audit_block s) (uid s)
  (sc_db s) (heap s).
Definition set_db s (d : D) : ShardClient D :=
mkShardClient (sc_replica s) (waiting s) (blockingBegin s) (verifyPromise s) (tip_block s) (audit_block s)
  (uid s) d (heap s).
Definition set_heap s (h : gmap pid Promise.t) : ShardClient D :=
mkShardClient (sc_replica s) (waiting s) (blockingBegin s) (verifyPromise s) (tip_block s) (audit_block s)
  (uid s) (sc_db s) h.

(** [new Promise(timeout)], and a [Reply] of a promise. *)
Definition new_promise s (timeout : Z) : ShardClient D * pid :=
let p := fresh (dom (heap s)) in (set_heap s (<[p := Promise.create timeout]> (heap s)), p).
Definition answer s (p : pid) (reply : Promise.t → Promise.t) : outcome (ShardClient D) :=
match heap s !! p with
| Some x => Done (set_heap s (<[p := reply x]> (heap s)))
| None => Stop Undefined
end.

(** The constructor; [n] is the number of replicas of the configuration. *)
Definition create_shardclient (md : Mode) (client_id : N) (closestReplica n : Z) (d : D)
  : outcome (ShardClient D) :=
replica ← match md with
          | MODE_OCC | MODE_SPAN_OCC =>
              if (closestReplica =? -1)%Z then
                if (n =? 0)%Z then Stop Undefined
                else Done (int32 (client_id mod Z.to_N (n mod 2 ^ 64)))
              else Done closestReplica
          | _ => Done 0%Z
          end;
Done (mkShardClient replica None None ∅ 0 (-1) 0 d ∅).

(** ** Calls *)

(** [Begin] waits for the previous commit or abort. *)
Definition sc_Begin s (id : N) : outcome (ShardClient D) :=
match blockingBegin s with
| None => Done s
| Some p =>
    match heap s !! p with
    | Some x => if Promise.done x then Done (set_blocking (set_heap s (delete p (heap s))) None)
                else Stop Blocked
    | None => Stop Undefined
    end
end.

Definition sc_BatchGet s (id : N) (keys : list bytes) (promise : option pid) : task :=
Waiting promise (InvokeUnlogged (sc_replica s) (batchget_request id keys) BatchGetCb 100000).

Definition sc_GetRange s (id : N) (from to : bytes) (promise : option pid) : task :=
Waiting promise (InvokeUnlogged (sc_replica s) (range_request id from to) GetRangeCb 100000).

(** A block past the last tip is not asked for. *)
Definition sc_GetProof s (block : N) (keys : list bytes) (promise : option pid)
  : outcome (ShardClient D * bool * option task) :=
if tip_block s <? block then
  match promise with
  | Some p => s ← answer s p (λ x, Promise.Reply x REPLY_OK); Done (s, false, None)
  | None => Stop Undefined
  end
else Done (s, true, Some (Verifying promise (proof_request block keys) (λ u, GetProofCb u keys) 100000)).

Definition sc_Audit (seq : N) (promise : option pid) : task :=
Verifying promise (audit_request seq) (λ u, AuditCb seq u) 100000.

Definition sc_Prepare (id : N) (txn : Transaction.t) (promise : option pid) : task :=
Waiting promise (Invoke (prepare_request id txn) PrepareCb).

Definition sc_Commit s (id : N) (txn : Transaction.t) (versionedKeys : list (bytes * N)) (timestamp : N)
  (promise : option pid) : ShardClient D * task :=
let '(s, b) := new_promise s COMMIT_TIMEOUT in
(set_blocking s (Some b), Waiting promise (Invoke (commit_request id versionedKeys timestamp) CommitCb)).

Definition sc_Abort s (id : N) (txn : Transaction.t) (promise : option pid) : ShardClient D * task :=
let '(s, b) := new_promise s ABORT_TIMEOUT in
(set_blocking s (Some b), Waiting promise (Invoke (abort_request id txn) AbortCb)).

(** The task, on the thread of the transport. *)
Definition run_task s (t : task) : ShardClient D * vr_call :=
match t with
| Waiting promise call => (set_waiting s promise, call)
| Verifying promise request cb timeout =>
    let v := match verifyPromise s !! uid s with
             | Some _ => verifyPromise s
             | None => <[uid s := promise]> (verifyPromise s)
             end in
    let u := u64 (uid s + 1) in
    (set_verify s v u, InvokeUnlogged (sc_replica s) request (cb (u64 (u + 2 ^ 64 - 1))) timeout)
end.

(** ** Callbacks *)

(** The fields of a reply with their defaults. *)
Definition status_of (r : Reply) : Z := default 0%Z (r_status r).
Definition block_of (r : Reply) : N := uint64 (default 0%Z (dg_block (digest_of_reply r))).
Definition mpthash_of (r : Reply) : bytes := default [] (dg_mpthash (digest_of_reply r)).

(** [promise->Reply(...)] for the promise that [waiting] points to. *)
Definition answer_waiting s (reply : Promise.t → Promise.t) : outcome (ShardClient D) :=
match waiting s with
| None => Done s
| Some w => answer (set_waiting s None) w reply
end.

(** [verifyPromise[uid]], which enters [NULL] for a missing call, and the answer. *)
Definition answer_verify s (u : N) (body : ShardClient D → outcome (ShardClient D * VerifyStatus))
  (status : Z) : outcome (ShardClient D) :=
match verifyPromise s !! u with
| None => Done (set_verify s (<[u := None]> (verifyPromise s)) (uid s))
| Some None => Done s
| Some (Some w) =>
    '(s, res) ← body s;
    let s := set_verify s (delete u (verifyPromise s)) (uid s) in
    answer s w (λ x, Promise.Reply_verify x status res)
end.

(** [AppendProof] of the chunks of a message, with the terminator of the string. *)
Definition append_chunks (p : MPTProof) (chunks : list bytes) (pos : list Z) : outcome MPTProof :=
foldl (λ (acc : outcome MPTProof) (e : nat * bytes),
    p ← acc;
    q ← item pos e.1;
    Done (AppendProof p (e.2 ++ [Ascii.zero]) (N.to_nat (uint64 q))))
  (Done p) (imap pair chunks).

(** The two checks of one proof of the reply. *)
Definition check_mpt (mptdigest : bytes) (p : LedgerDBProof) (keys : list bytes) (i : nat) : outcome bool :=
prover ← append_chunks (SetValue empty_proof (lp_mptvalue p)) (lp_mpt_chunks p) (lp_mpt_pos p);
match lp_mpt_chunks p with
| [] => Done true
| _ => k ← item keys i; VerifyProof prover mptdigest k
end.
Definition check_mt (p : LedgerDBProof) : outcome bool :=
Verify junk (mkProof (lp_hash p) (lp_val p) (lp_proof p) (uint64 <$> lp_mt_pos p)).

Fixpoint check_proofs (mptdigest : bytes) (ps : list LedgerDBProof) (keys : list bytes) (i : nat)
  (res : VerifyStatus) : outcome VerifyStatus :=
match ps with
| [] => Done res
| p :: ps =>
    mpt_ok ← check_mpt mptdigest p keys i;
    let res := if mpt_ok : bool then res else FAILED in
    mt_ok ← check_mt p;
    let res := if mt_ok : bool then res else FAILED in
    check_proofs mptdigest ps keys (S i) res
end.

Definition GetProofCallback s (u : N) (keys : list bytes) (r : Reply) : outcome (ShardClient D) :=
answer_verify s u (λ s,
    let s := set_tip s (block_of r) in
    let mptdigest := FromBase32 junk (mpthash_of r) in
    res ← check_proofs mptdigest (r_proof r) keys 0 PASS;
    Done (s, res)) (status_of r).

(** The auditor of a reply. *)
Definition mpt_of_message (m : MPTProofMessage) : outcome MPTProof :=
append_chunks (SetValue empty_proof (mpm_value m)) (mpm_chunks m) (mpm_pos m).
Definition auditor_of (a : LedgerDBAudit) : outcome Auditor :=
proofs ← mapM mpt_of_message (la_mptproofs a);
Done (mkAuditor (la_digest a) (uint64 (la_commit_seq a)) (uint64 (la_first_block_seq a))
        (la_commits a) (la_blocks a) proofs).

Definition AuditCallback s (seq u : N) (r : Reply) : outcome (ShardClient D) :=
answer_verify s u (λ s,
    let s := set_tip s (block_of r) in
    if seq <=? tip_block s then
      a ← auditor_of (default (mkLedgerDBAudit [] 0 0 [] [] []) (r_laudit r));
      '(d, ok) ← Audit junk a (sc_db s);
      Done (set_db s d, if ok : bool then PASS else FAILED)
    else Done (s, junk_status)) (status_of r).

(** The values of a reply: [std::map::emplace] keeps the first value of a key. *)
Definition values_of (r : Reply) : gmap bytes bytes :=
foldl (λ m v, match m !! kv_key v with Some _ => m | None => <[kv_key v := kv_val v]> m end)
  ∅ (r_values r).
Definition blocks_of (r : Reply) : list N := (λ v, uint64 (kv_estimate_block v)) <$> r_values r.
Definition times_of_reply (r : Reply) : list Timestamp.t :=
(λ t, Timestamp.of_time (uint64 t)) <$> r_timestamps r.

(** [GetRangeCallback] and [BatchGetCallback] have the same body. *)
Definition GetRangeCallback s (r : Reply) : outcome (ShardClient D) :=
match waiting s with
| None => Done s
| Some _ =>
    answer_waiting (set_tip s (block_of r)) (λ x, Promise.Reply_values x (status_of r)
      (times_of_reply r) (values_of r) (kv_key <$> r_values r) (blocks_of r))
end.
Definition BatchGetCallback s (r : Reply) : outcome (ShardClient D) :=
match waiting s with
| None => Done s
| Some _ =>
    answer_waiting (set_tip s (block_of r)) (λ x, Promise.Reply_values x (status_of r)
      (times_of_reply r) (values_of r) (kv_key <$> r_values r) (blocks_of r))
end.

(** The assertions of [CommitCallback] and [AbortCallback], and the answer to
[blockingBegin]. *)
Definition finish_blocking s (r : Reply) : outcome (ShardClient D) :=
_ ← ASSERT (status_of r =? REPLY_OK)%Z;
match blockingBegin s with
| None => Stop Panicked
| Some b => answer s b (λ x, Promise.Reply x 0)
end.

Definition CommitCallback s (r : Reply) : outcome (ShardClient D) :=
s ← finish_blocking s r;
match waiting s with
| None => Done s
| Some _ =>
    answer_waiting (set_tip s (block_of r)) (λ x, Promise.Reply_verify_keys x (status_of r) UNVERIFIED
      (kv_key <$> r_values r) (blocks_of r))
end.

(** [GetTimeout] answers whatever call is waiting. *)
Definition GetTimeout s : outcome (ShardClient D) := answer_waiting s (λ x, Promise.Reply x REPLY_TIMEOUT).

Definition PrepareCallback s (r : Reply) : outcome (ShardClient D) :=
answer_waiting s (λ x, Promise.Reply_timestamp x (status_of r)
  (match r_timestamp r with Some t => Timestamp.mk (uint64 t) 0 | None => Timestamp.default end)).

Definition AbortCallback s (r : Reply) : outcome (ShardClient D) :=
s ← finish_blocking s r;
answer_waiting s (λ x, Promise.Reply x (status_of r)).

Definition run_callback s (cb : callback) (r : Reply) : outcome (ShardClient D) :=
match cb with
| BatchGetCb => BatchGetCallback s r
| GetRangeCb => GetRangeCallback s r
| GetProofCb u keys => GetProofCallback s u keys r
| AuditCb seq u => AuditCallback s seq u r
| PrepareCb => PrepareCallback s r
| CommitCb => CommitCallback s r
| AbortCb => AbortCallback s r
end.
End ShardClient.
