(* ===== verification/BufferClient.v ===== *)
(** * [store/common/frontend/bufferclient.cc]: the transaction of a client on a shard

    The buffer of a client for one shard: the read and write sets of the current
    transaction, the keys to get in a batch and the keys whose history is asked
    for.  The client of the shard is an interface. *)

From S2P Require Import Prelude Cpp Txn StoreCommon.

Open Scope N_scope.

(** ** [TxnClient]

A call is given a promise and returns it as it is once it was answered; a promise
that is never answered stays as it was. *)
Class TxnClient (C : Type) := {
  tc_Begin : C → N → outcome C;
  tc_BatchGet : C → N → list bytes → Promise.t → outcome (C * Promise.t);
  tc_GetRange : C → N → bytes → bytes → Promise.t → outcome (C * Promise.t);
  tc_GetProof : C → N → list bytes → Promise.t → outcome (C * Promise.t * bool);
  tc_Audit : C → N → Promise.t → outcome (C * Promise.t * bool);
  tc_Prepare : C → N → Transaction.t → Timestamp.t → Promise.t → outcome (C * Promise.t);
  tc_Commit : C → N → Transaction.t → list (bytes * N) → N → option Promise.t → outcome (C * option Promise.t);
  tc_Abort : C → N → Transaction.t → option Promise.t → outcome (C * option Promise.t);
}.

(** A wait for an answer. *)
Definition wait {A} (x : option A) : outcome A :=
  match x with Some a => Done a | None => Stop Blocked end.

(** ** The client *)

Record BufferClient (C : Type) := mkBufferClient {
  txnclient : C;
  bc_txn : Transaction.t;
  history : list (bytes * N);
  bc_tid : N;
  buffer : list bytes;
}.
Arguments mkBufferClient {C} _ _ _ _ _.
Arguments txnclient {C} _.
Arguments bc_txn {C} _.
Arguments history {C} _.
Arguments bc_tid {C} _.
Arguments buffer {C} _.

Section BufferClient.
Context `{TxnClient C}.
Implicit Types b : BufferClient C.
Implicit Types p : Promise.t.

(** The constructor; [tid] is not initialised. *)
Definition create_buffer (c : C) (tid : N) : BufferClient C := mkBufferClient c Transaction.empty [] tid [].

Definition with_client b (c : C) : BufferClient C :=
mkBufferClient c (bc_txn b) (history b) (bc_tid b) (buffer b).
Definition with_txn b (t : Transaction.t) : BufferClient C :=
mkBufferClient (txnclient b) t (history b) (bc_tid b) (buffer b).

Definition bc_Begin b (tid : N) : outcome (BufferClient C) :=
c ← tc_Begin (txnclient b) tid;
Done (mkBufferClient c Transaction.empty [] tid []).

Definition bc_GetNVersions b (key : bytes) (n : N) p : BufferClient C * Promise.t :=
(mkBufferClient (txnclient b) (bc_txn b) (history b ++ [(key, n)]) (bc_tid b) (buffer b),
 Promise.Reply p REPLY_OK).

(** The loop over the values of a promise: the time of the value number [i] goes
to the key number [i] of the map. *)
Fixpoint add_reads (t : Transaction.t) (vals : list (bytes * bytes)) (i : nat) p : outcome Transaction.t :=
match vals with
| [] => Done t
| (key, _) :: vals =>
    ts ← wait (Promise.GetTimestamp_at i p);
    match ts with
    | None => Stop Undefined
    | Some ts => add_reads (Transaction.addReadSet t key ts) vals (S i) p
    end
end.

(** "if (promise->GetReply() == REPLY_OK)" with the loop. *)
Definition note_reads b p : outcome (BufferClient C) :=
reply ← wait (Promise.GetReply p);
if (reply =? REPLY_OK)%Z then
  vals ← wait (Promise.getValues p);
  t ← add_reads (bc_txn b) (map_entries vals) 0 p;
  Done (with_txn b t)
else Done b.

Definition bc_BatchGet b p : outcome (BufferClient C * Promise.t) :=
'(c, p) ← tc_BatchGet (txnclient b) (bc_tid b) (buffer b) p;
b ← note_reads (with_client b c) p;
Done (mkBufferClient (txnclient b) (bc_txn b) (history b) (bc_tid b) [], p).

Definition bc_GetRange b (from to : bytes) p : outcome (BufferClient C * Promise.t) :=
'(c, p) ← tc_GetRange (txnclient b) (bc_tid b) from to p;
b ← note_reads (with_client b c) p;
Done (b, p).

Definition bc_BufferKey b (key : bytes) : BufferClient C :=
mkBufferClient (txnclient b) (bc_txn b) (history b) (bc_tid b) (buffer b ++ [key]).

(** [Get] answers the promise with no value. *)
Definition bc_Get b (key : bytes) p : BufferClient C * Promise.t :=
let p' := Promise.Reply p REPLY_OK in
match Transaction.writeSet (bc_txn b) !! key with
| Some _ => (b, p')
| None =>
    match Transaction.readSet (bc_txn b) !! key with
    | None => (with_txn b (Transaction.addReadSet (bc_txn b) key Timestamp.default), p')
    | Some _ => (b, p')
    end
end.

Definition bc_Put b (key value : bytes) p : BufferClient C * Promise.t :=
(with_txn b (Transaction.addWriteSet (bc_txn b) key value), Promise.Reply p REPLY_OK).

Definition bc_Prepare b (ts : Timestamp.t) p : outcome (BufferClient C * Promise.t) :=
'(c, p) ← tc_Prepare (txnclient b) (bc_tid b) (bc_txn b) ts p;
Done (with_client b c, p).

Definition bc_Commit b (timestamp : N) (p : option Promise.t) : outcome (BufferClient C * option Promise.t) :=
'(c, p) ← tc_Commit (txnclient b) (bc_tid b) (bc_txn b) (history b) timestamp p;
Done (with_client b c, p).

(** [Abort] sends an empty transaction. *)
Definition bc_Abort b (p : option Promise.t) : outcome (BufferClient C * option Promise.t) :=
'(c, p) ← tc_Abort (txnclient b) (bc_tid b) Transaction.empty p;
Done (with_client b c, p).

Definition bc_Verify b (block : N) (keys : list bytes) p : outcome (BufferClient C * Promise.t * bool) :=
'(c, p, r) ← tc_GetProof (txnclient b) block keys p;
Done (with_client b c, p, r).

Definition bc_Audit b (seq : N) p : outcome (BufferClient C * Promise.t * bool) :=
'(c, p, r) ← tc_Audit (txnclient b) seq p;
Done (with_client b c, p, r).
End BufferClient.
