(* ===== verification/StrongClient.v ===== *)
(** * [store/strongstore/client.cc]: the transactions of a client

    [Client] spreads a transaction over the shards of its keys and commits it in
    two phases.  The clients of the shards are given through [BufferClient]. *)

From S2P Require Import Prelude Cpp Txn Reply StoreCommon Server BufferClient ShardClient.

Open Scope N_scope.

(** [std::set::insert] *)
Fixpoint set_insert (x : N) (s : list N) : list N :=
  match s with
  | [] => [x]
  | y :: s' => if x <? y then x :: s else if x =? y then s else y :: set_insert x s'
  end.

(** [participants] is a set, in the order of an iteration. *)
Record Client (C : Type) := mkClient {
  t_id : N;
  nshards : N;
  participants : list N;
  bclient : list (BufferClient C);
  cl_mode : Mode;
  cl_timeServer : TrueTime.t;
  commit_sleep : Z;
}.
Arguments mkClient {C} _ _ _ _ _ _ _.
Arguments t_id {C} _.
Arguments nshards {C} _.
Arguments participants {C} _.
Arguments bclient {C} _.
Arguments cl_mode {C} _.
Arguments cl_timeServer {C} _.
Arguments commit_sleep {C} _.

(** Keys to be verified, by shard and block. *)
Abbreviation unverified := (gmap N (gmap N (list bytes))).

(** The nested [if]s that append a key to its block. *)
Definition add_unverified (keys : unverified) (shard block : N) (key : bytes) : unverified :=
  match keys !! shard with
  | Some inner =>
      match inner !! block with
      | Some ks => <[shard := <[block := ks ++ [key]]> inner]> keys
      | None => <[shard := <[block := [key]]> inner]> keys
      end
  | None => <[shard := {[block := [key]]}]> keys
  end.

(** The loop over the estimated blocks of a promise. *)
Fixpoint add_estimates (n i : nat) (p : Promise.t) (shard : N) (keys : unverified) : outcome unverified :=
  match n with
  | O => Done keys
  | S n =>
      match Promise.GetEstimateBlock p i, Promise.GetUnverifiedKey p i with
      | Some block, Some key => add_estimates n (S i) p shard (add_unverified keys shard block key)
      | _, _ => Stop Undefined
      end
  end.

(** The loop over the promises of [BatchGet] and [GetRange]. *)
Fixpoint collect (ps : list (N * Promise.t)) (status : Z) (values : gmap bytes bytes) (keys : unverified)
  : outcome (Z * gmap bytes bytes * unverified) :=
  match ps with
  | [] => Done (status, values, keys)
  | (shard, p) :: ps =>
      reply ← wait (Promise.GetReply p);
      if (reply =? REPLY_OK)%Z then
        vals ← wait (Promise.getValues p);
        keys ← add_estimates (Promise.EstimateBlockSize p) 0 p shard keys;
        collect ps status (values ∪ vals) keys
      else collect ps reply values keys
  end.

Section Client.
Context `{TxnClient C}.
Implicit Types cl : Client C.

(** The constructor; [id] is random and not zero. *)
Definition create_client (md : Mode) (id nShards : N) (bcs : list (BufferClient C)) (clock : TrueTime.t)
  : Client C := mkClient (id / 10000 * 10000) nShards [] bcs md clock 0.

Definition with_shards cl (bcs : list (BufferClient C)) : Client C :=
mkClient (t_id cl) (nshards cl) (participants cl) bcs (cl_mode cl) (cl_timeServer cl) (commit_sleep cl).

(** A call on [bclient[i]]. *)
Definition on_shard {A} cl (i : N) (f : BufferClient C → outcome (BufferClient C * A)) : outcome (Client C * A) :=
match bclient cl !! N.to_nat i with
| None => Stop Undefined
| Some b => '(b, a) ← f b; Done (with_shards cl (<[N.to_nat i := b]> (bclient cl)), a)
end.

(** A call on several shards, with the results. *)
Fixpoint on_shards {A} cl (shards : list N) (f : BufferClient C → outcome (BufferClient C * A))
  : outcome (Client C * list (N * A)) :=
match shards with
| [] => Done (cl, [])
| i :: shards => '(cl, a) ← on_shard cl i f; '(cl, r) ← on_shards cl shards f; Done (cl, (i, a) :: r)
end.

Definition all_shards cl : list N := N.of_nat <$> seq 0 (N.to_nat (nshards cl)).

Definition join cl (i : N) : Client C :=
mkClient (t_id cl) (nshards cl) (set_insert i (participants cl)) (bclient cl) (cl_mode cl)
  (cl_timeServer cl) (commit_sleep cl).

Definition cl_Begin cl : outcome (Client C) :=
let cl := mkClient (u64 (t_id cl + 1)) (nshards cl) [] (bclient cl) (cl_mode cl) (cl_timeServer cl) (-1) in
'(cl, _) ← on_shards cl (all_shards cl) (λ b, b ← bc_Begin b (t_id cl); Done (b, tt));
Done cl.

(** The shard of a key joins the transaction; the call answers its promise. *)
Definition keyed_call cl (key : bytes) (timeout : Z)
  (f : BufferClient C → Promise.t → BufferClient C * Promise.t) : outcome (Client C * Z) :=
i ← Sharding.key_to_shard key (nshards cl);
'(cl, p) ← on_shard (join cl i) i (λ b, Done (f b (Promise.create timeout)));
r ← wait (Promise.GetReply p);
Done (cl, r).

Definition cl_GetNVersions cl (key : bytes) (n : N) : outcome (Client C * Z) :=
keyed_call cl key GET_TIMEOUT (λ b, bc_GetNVersions b key n).
Definition cl_Get cl (key : bytes) : outcome (Client C * Z) :=
keyed_call cl key GET_TIMEOUT (λ b, bc_Get b key).
Definition cl_Put cl (key value : bytes) : outcome (Client C * Z) :=
keyed_call cl key PUT_TIMEOUT (λ b, bc_Put b key value).

Definition cl_BufferKey cl (key : bytes) : outcome (Client C) :=
i ← Sharding.key_to_shard key (nshards cl);
'(cl, _) ← on_shard (join cl i) i (λ b, Done (bc_BufferKey b key, tt));
Done cl.

(** [BatchGet] with the keys to verify; the overload without them drops them. *)
Definition cl_BatchGet cl (values : gmap bytes bytes) (keys : unverified)
  : outcome (Client C * Z * gmap bytes bytes * unverified) :=
'(cl, ps) ← on_shards cl (participants cl) (λ b, bc_BatchGet b (Promise.create PREPARE_TIMEOUT));
'(status, values, keys) ← collect ps REPLY_OK values keys;
Done (cl, status, values, keys).

Fixpoint collect_values (ps : list (N * Promise.t)) (status : Z) (values : gmap bytes bytes)
  : outcome (Z * gmap bytes bytes) :=
match ps with
| [] => Done (status, values)
| (_, p) :: ps =>
    reply ← wait (Promise.GetReply p);
    if (reply =? REPLY_OK)%Z then
      vals ← wait (Promise.getValues p);
      collect_values ps status (values ∪ vals)
    else collect_values ps reply values
end.
Definition cl_BatchGet_values cl (values : gmap bytes bytes) : outcome (Client C * Z * gmap bytes bytes) :=
'(cl, ps) ← on_shards cl (participants cl) (λ b, bc_BatchGet b (Promise.create PREPARE_TIMEOUT));
'(status, values) ← collect_values ps REPLY_OK values;
Done (cl, status, values).

Definition cl_GetRange cl (from to : bytes) (values : gmap bytes bytes) (keys : unverified)
  : outcome (Client C * Z * gmap bytes bytes * unverified) :=
'(cl, ps) ← on_shards cl (all_shards cl) (λ b, bc_GetRange b from to (Promise.create GET_TIMEOUT));
'(status, values, keys) ← collect ps REPLY_OK values keys;
Done (cl, status, values, keys).

(** ** Two-phase commit *)

(** The loop over the prepare promises: the status and the largest time. *)
Fixpoint prepare_result (ps : list (N * Promise.t)) (status : Z) (ts : N) : outcome (Z * N) :=
match ps with
| [] => Done (status, ts)
| (_, p) :: ps =>
    reply ← wait (Promise.GetReply p);
    let status := if (reply =? REPLY_OK)%Z then status
                  else if (status =? REPLY_FAIL)%Z then status else reply in
    t ← wait (Promise.GetTimestamp p);
    prepare_result ps status (if ts <? Timestamp.timestamp t then Timestamp.timestamp t else ts)
end.

(** [Prepare]; [tss] is the reply of the timestamp server. *)
Definition cl_Prepare cl (tss : bytes) (ts : N) : outcome (Client C * Z * N) :=
ts ← match cl_mode cl with
     | MODE_OCC => t ← stol tss; Done (uint64 t)
     | _ => Done ts
     end;
'(cl, ps) ← on_shards cl (participants cl)
              (λ b, bc_Prepare b Timestamp.default (Promise.create PREPARE_TIMEOUT));
'(status, ts) ← prepare_result ps REPLY_OK ts;
Done (cl, status, ts).

(** The retries of [Prepare]; the last status is used when they run out. *)
Fixpoint prepare_loop (n : nat) cl (tss : bytes) (ts : N) (status : option Z) : outcome (Client C * option Z * N) :=
match n with
| O => Done (cl, status, ts)
| S n =>
    '(cl, status, ts) ← cl_Prepare cl tss ts;
    if (status =? REPLY_OK)%Z || (status =? REPLY_FAIL)%Z then Done (cl, Some status, ts)
    else prepare_loop n cl tss ts (Some status)
end.

(** The commit time of the Spanner modes, and how long the client sleeps. *)
Definition commit_time cl (ts : N) (now : TrueTime.timeval) : N * Z :=
match cl_mode cl with
| MODE_SPAN_OCC | MODE_SPAN_LOCK =>
    let '(time, err) := TrueTime.GetTimeAndError (cl_timeServer cl) now in
    if ts <? time then (time, int32 err)
    else
      let diff := u64 (u64 (u64 (N.shiftr ts 32 + 2 ^ 64 - N.shiftr time 32) * 1000000)
                       + u64 (N.land ts (2 ^ 32 - 1) + 2 ^ 64 - N.land time (2 ^ 32 - 1))) in
      (ts, int32 (u64 (err + diff)))
| _ => (ts, commit_sleep cl)
end.
Definition with_sleep cl (z : Z) : Client C :=
mkClient (t_id cl) (nshards cl) (participants cl) (bclient cl) (cl_mode cl) (cl_timeServer cl) z.

Definition cl_Abort cl : outcome (Client C) :=
'(cl, _) ← on_shards cl (participants cl) (λ b, bc_Abort b None);
Done cl.

(** [Commit()] *)
Definition cl_Commit cl (tss : bytes) (now : TrueTime.timeval) : outcome (Client C * bool) :=
'(cl, status, ts) ← prepare_loop COMMIT_RETRIES cl tss 0 None;
match status with
| None => Stop Undefined
| Some status =>
    if (status =? REPLY_OK)%Z then
      let '(ts, z) := commit_time cl ts now in
      '(cl, _) ← on_shards (with_sleep cl z) (participants cl) (λ b, bc_Commit b ts None);
      Done (cl, true)
    else cl ← cl_Abort cl; Done (cl, false)
end.

(** The loop over the commit promises. *)
Fixpoint collect_commits (ps : list (N * option Promise.t)) (keys : unverified) : outcome unverified :=
match ps with
| [] => Done keys
| (shard, Some p) :: ps =>
    _ ← wait (Promise.GetReply p);
    keys ← add_estimates (Promise.EstimateBlockSize p) 0 p shard keys;
    collect_commits ps keys
| (_, None) :: _ => Stop Undefined
end.

(** [Commit(keys)] *)
Definition cl_Commit_keys cl (tss : bytes) (now : TrueTime.timeval) (keys : unverified)
  : outcome (Client C * bool * unverified) :=
'(cl, status, ts) ← prepare_loop COMMIT_RETRIES cl tss 0 None;
match status with
| None => Stop Undefined
| Some status =>
    if (status =? REPLY_OK)%Z then
      let '(ts, z) := commit_time cl ts now in
      '(cl, ps) ← on_shards (with_sleep cl z) (participants cl)
                    (λ b, bc_Commit b ts (Some (Promise.create PREPARE_TIMEOUT)));
      keys ← collect_commits ps keys;
      Done (cl, true, keys)
    else cl ← cl_Abort cl; Done (cl, false, keys)
end.

(** ** Verification *)

(** A call of [Verify] on a shard with a new promise, kept when it was sent. *)
Definition send_verify cl (shard block : N) (ks : list bytes) (promises : list Promise.t)
  : outcome (Client C * bool * list Promise.t) :=
'(cl, r) ← on_shard cl shard (λ b, '(b, p, r) ← bc_Verify b block ks Promise.default; Done (b, (p, r)));
let '(p, sent) := r in
Done (cl, sent, if sent : bool then promises ++ [p] else promises).

(** The [while] loop that sends a block in pieces of 10000 keys. *)
Fixpoint verify_pieces (n : nat) cl (shard block : N) (ks : list bytes) (promises : list Promise.t)
  : outcome (Client C * bool * list bytes * list Promise.t) :=
if (10000 <? length ks)%nat then
  match n with
  | O => Stop OutOfFuel
  | S n =>
      '(cl, sent, promises) ← send_verify cl shard block (take 10000 ks) promises;
      if sent : bool then verify_pieces n cl shard block (drop 10000 ks) promises
      else Done (cl, false, ks, promises)
  end
else Done (cl, true, ks, promises).

(** The loop over the blocks of a shard; the blocks that are kept. *)
Fixpoint verify_blocks cl (shard : N) (verifiable : bool) (blocks : list (N * list bytes))
  (promises : list Promise.t) : outcome (Client C * list (N * list bytes) * list Promise.t) :=
match blocks with
| [] => Done (cl, [], promises)
| (block, ks) :: blocks =>
    if verifiable then
      '(cl, ok, ks, promises) ← verify_pieces (length ks) cl shard block ks promises;
      if ok : bool then
        '(cl, sent, promises) ← send_verify cl shard block ks promises;
        '(cl, kept, promises) ← verify_blocks cl shard sent blocks promises;
        Done (cl, if sent : bool then (block, ks) :: kept else kept, promises)
      else verify_blocks cl shard false blocks promises
    else verify_blocks cl shard false blocks promises
end.

Fixpoint verify_shards cl (shards : list (N * gmap N (list bytes))) (promises : list Promise.t)
  : outcome (Client C * unverified * list Promise.t) :=
match shards with
| [] => Done (cl, ∅, promises)
| (shard, blocks) :: shards =>
    '(cl, kept, promises) ← verify_blocks cl shard true (nmap_entries blocks) promises;
    '(cl, keys, promises) ← verify_shards cl shards promises;
    Done (cl, match kept with [] => keys | _ => <[shard := list_to_map kept]> keys end, promises)
end.

(** The loop over the promises; [junk_status] is what an uninitialised status
holds. *)
Fixpoint all_pass (junk_status : VerifyStatus) (ps : list Promise.t) (ok : bool) : outcome bool :=
match ps with
| [] => Done ok
| p :: ps =>
    reply ← wait (Promise.GetReply p);
    if (reply =? REPLY_OK)%Z then
      vs ← wait (Promise.GetVerifyStatus p);
      all_pass junk_status ps (if bool_decide (default junk_status vs = PASS) then ok else false)
    else all_pass junk_status ps false
end.

Definition cl_Verify (junk_status : VerifyStatus) cl (keys : unverified) : outcome (Client C * bool * unverified) :=
'(cl, keys, promises) ← verify_shards cl (nmap_entries keys) [];
ok ← all_pass junk_status promises true;
Done (cl, ok, keys).

(** ** Audit *)

Fixpoint send_audits cl (seqs : list (N * N)) : outcome (Client C * list Promise.t) :=
match seqs with
| [] => Done (cl, [])
| (shard, seq) :: seqs =>
    '(cl, p) ← on_shard cl shard (λ b, '(b, p, _) ← bc_Audit b seq Promise.default; Done (b, p));
    '(cl, ps) ← send_audits cl seqs;
    Done (cl, p :: ps)
end.

(** The loop over the promises: [seqs[n]] is advanced for the [n]-th promise. *)
Fixpoint audit_results (junk_status : VerifyStatus) (ps : list Promise.t) (n : N) (seqs : gmap N N) (status : bool)
  : outcome (bool * gmap N N) :=
match ps with
| [] => Done (status, seqs)
| p :: ps =>
    reply ← wait (Promise.GetReply p);
    if (reply =? REPLY_OK)%Z then
      vs ← wait (Promise.GetVerifyStatus p);
      let seqs := if bool_decide (default junk_status vs = UNVERIFIED) then seqs
                  else <[n := u64 (default 0 (seqs !! n) + 1)]> seqs in
      audit_results junk_status ps (n + 1) seqs status
    else audit_results junk_status ps (n + 1) seqs false
end.

Definition cl_Audit (junk_status : VerifyStatus) cl (seqs : gmap N N) : outcome (Client C * bool * gmap N N) :=
let seqs := if bool_decide (seqs = ∅) then list_to_map ((λ i, (i, 0)) <$> all_shards cl) else seqs in
'(cl, ps) ← send_audits cl (nmap_entries seqs);
'(status, seqs) ← audit_results junk_status ps 0 seqs true;
Done (cl, status, seqs).
End Client.
