(* ===== verification/ClientSpec.v ===== *)
(** * Two-phase commit as the shards see it

    What a client of a shard promises to the client of the transaction is a log of
    the decisions that reached the shard.  Against that interface, [Commit] is
    atomic: every participant gets the same decision. *)

From S2P Require Import Prelude Cpp Txn Reply StoreCommon Server BufferClient ShardClient StrongClient.

Open Scope N_scope.

Inductive event :=
  | EvPrepare (id : N) (txn : Transaction.t) (reply : Z) (time : N)
  | EvCommit (id : N) (txn : Transaction.t) (timestamp : N)
  | EvAbort (id : N).

(** The log of a shard; only the three calls of the protocol write it. *)
Class Participant (C : Type) `{TxnClient C} := { pt_log : C → list event }.
Class ParticipantLaws (C : Type) `{Participant C} : Prop := {
  pt_prepare c id txn ts p c' p' reply :
    tc_Prepare c id txn ts p = Done (c', p') → Promise.GetReply p' = Some reply →
    ∃ t, Promise.GetTimestamp p' = Some t ∧
      pt_log c' = pt_log c ++ [EvPrepare id txn reply (Timestamp.timestamp t)];
  pt_commit c id txn vers ts p c' p' :
    tc_Commit c id txn vers ts p = Done (c', p') → pt_log c' = pt_log c ++ [EvCommit id txn ts];
  pt_abort c id txn p c' p' :
    tc_Abort c id txn p = Done (c', p') → pt_log c' = pt_log c ++ [EvAbort id];
}.

Section TwoPhase.
Context `{ParticipantLaws C}.
Implicit Types (cl : Client C) (b : BufferClient C).

(** ** Calls on shards *)

Lemma on_shard_inv {A} cl i (f : BufferClient C → outcome (BufferClient C * A)) cl' a :
on_shard cl i f = Done (cl', a) →
∃ b b', bclient cl !! N.to_nat i = Some b ∧ f b = Done (b', a) ∧
  cl' = with_shards cl (<[N.to_nat i := b']> (bclient cl)).
Proof.
unfold on_shard. destruct (bclient cl !! N.to_nat i) as [b|]; [|done].
intros Hf. apply bind_Done_inv in Hf as ([b' a'] & Hf & E). simplify_eq. by exists b, b'.
Qed.

(** The calls of [on_shards] each see the shard as it was. *)
Lemma on_shards_inv {A} shards cl (f : BufferClient C → outcome (BufferClient C * A)) cl' rs :
NoDup shards → on_shards cl shards f = Done (cl', rs) →
rs.*1 = shards ∧ cl' = with_shards cl (bclient cl') ∧
(∀ i a, (i, a) ∈ rs → ∃ b b', bclient cl !! N.to_nat i = Some b ∧ f b = Done (b', a) ∧
  bclient cl' !! N.to_nat i = Some b') ∧
(∀ i, i ∉ shards → bclient cl' !! N.to_nat i = bclient cl !! N.to_nat i).
Proof.
revert cl rs. induction shards as [|i shards IH]; intros cl rs Hnd Hon; cbn [on_shards] in Hon.
{ simplify_eq. split; [done|]. split; [by destruct cl'|]. split; [by intros i a ?%elem_of_nil|done]. }
apply NoDup_cons in Hnd as [Hi Hnd].
apply bind_Done_inv in Hon as ([cl1 a] & Hone & Hon). apply bind_Done_inv in Hon as ([cl2 rs'] & Hrest & E).
simplify_eq. destruct (on_shard_inv _ _ _ _ _ Hone) as (b & b' & Hb & Hf & ->).
destruct (IH _ _ Hnd Hrest) as (Hrs & Hcl & Hin & Hout). cbn [with_shards bclient] in *.
assert (N.to_nat i < length (bclient cl))%nat as Hlt by (by eapply lookup_lt_Some).
split; [cbn; by rewrite Hrs|]. split; [exact Hcl|]. split.
- intros j a' [[= -> ->]|Hj]%elem_of_cons.
  + exists b, b'. split; [done|]. split; [done|]. rewrite (Hout i Hi). by apply list_lookup_insert_eq.
  + destruct (Hin j a' Hj) as (b1 & b2 & E1 & E2 & E3). exists b1, b2. split; [|done].
    rewrite list_lookup_insert_ne in E1; [done|]. intros E%N2Nat.inj. subst j. apply Hi.
    rewrite <-Hrs. by apply (list_elem_of_fmap_2 fst) in Hj.
- intros j [Hne Hj]%not_elem_of_cons. rewrite (Hout j Hj). apply list_lookup_insert_ne.
  intros E%N2Nat.inj. by subst.
Qed.

(** ** The result of a prepare phase *)

Lemma prepare_result_inv ps status ts st' ts' :
prepare_result ps status ts = Done (st', ts') →
(∀ i p, (i, p) ∈ ps → ∃ r t, Promise.GetReply p = Some r ∧ Promise.GetTimestamp p = Some t ∧
   Timestamp.timestamp t <= ts') ∧ ts <= ts' ∧
(st' = REPLY_OK ↔ status = REPLY_OK ∧ ∀ i p, (i, p) ∈ ps → Promise.GetReply p = Some REPLY_OK).
Proof.
revert status ts. induction ps as [|[i p] ps IH]; intros status ts Hr; cbn [prepare_result] in Hr.
{ simplify_eq. split; [by intros i p ?%elem_of_nil|]. split; [lia|]. split; [|by intros []].
  intros ->. split; [done|]. by intros i p ?%elem_of_nil. }
apply bind_Done_inv in Hr as (r & Hwr & Hr). apply bind_Done_inv in Hr as (t & Hwt & Hr).
unfold wait in Hwr, Hwt.
destruct (Promise.GetReply p) as [r'|] eqn:Er; [|done]. destruct (Promise.GetTimestamp p) as [t'|] eqn:Et; [|done].
simplify_eq. destruct (IH _ _ Hr) as (Hall & Hle & Hiff).
assert (ts <= ts' ∧ Timestamp.timestamp t <= ts') as [Hts Htt] by (destruct (N.ltb_spec ts (Timestamp.timestamp t)); lia).
split; [|split; [done|]].
- intros j q [[= -> ->]|Hj]%elem_of_cons; [by exists r, t|by apply Hall with j].
- rewrite Hiff. destruct (Z.eqb_spec r REPLY_OK) as [->|Hne].
  + split; intros [Hs Hps]; (split; [done|]); [|intros j q Hj; apply (Hps j); by right].
    intros j q [[= -> ->]|Hj]%elem_of_cons; [done|by apply (Hps j)].
  + split.
    * intros [Hs _]. exfalso. destruct (Z.eqb_spec status REPLY_FAIL) as [->|]; [done|by apply Hne].
    * intros [Hs Hps]. exfalso. apply Hne. specialize (Hps i p ltac:(by left)). congruence.
Qed.

(** ** Atomic commitment *)

(** The log and the transaction of shard [i]. *)
Definition shard_log cl (i : N) : option (list event) := (λ b, pt_log (txnclient b)) <$> bclient cl !! N.to_nat i.

(** Shard [i] was asked to prepare, answered [reply] with the time [t], and got the
decision: a commit at [ts], or an abort. *)
Definition decided cl cl' (i : N) (reply : Z) (t : N) (decision : option N) : Prop :=
∃ b log, bclient cl !! N.to_nat i = Some b ∧ shard_log cl i = Some log ∧
  shard_log cl' i = Some (log ++ [EvPrepare (bc_tid b) (bc_txn b) reply t;
    match decision with Some ts => EvCommit (bc_tid b) (bc_txn b) ts | None => EvAbort (bc_tid b) end]).

Lemma bc_Prepare_inv b ts p b' p' reply :
bc_Prepare b ts p = Done (b', p') → Promise.GetReply p' = Some reply →
∃ t, Promise.GetTimestamp p' = Some t ∧ bc_tid b' = bc_tid b ∧ bc_txn b' = bc_txn b ∧
  pt_log (txnclient b') = pt_log (txnclient b) ++ [EvPrepare (bc_tid b) (bc_txn b) reply (Timestamp.timestamp t)].
Proof.
unfold bc_Prepare. intros Hb Hr. apply bind_Done_inv in Hb as ([c p1] & Hp & E). simplify_eq.
destruct (pt_prepare _ _ _ _ _ _ _ _ Hp Hr) as (t & Ht & Hl). by exists t.
Qed.

Lemma bc_Commit_inv b ts p b' p' : bc_Commit b ts p = Done (b', p') →
pt_log (txnclient b') = pt_log (txnclient b) ++ [EvCommit (bc_tid b) (bc_txn b) ts].
Proof.
unfold bc_Commit. intros Hb. apply bind_Done_inv in Hb as ([c p1] & Hp & E). simplify_eq. by eapply pt_commit.
Qed.

Lemma bc_Abort_inv b p b' p' : bc_Abort b p = Done (b', p') →
pt_log (txnclient b') = pt_log (txnclient b) ++ [EvAbort (bc_tid b)].
Proof.
unfold bc_Abort. intros Hb. apply bind_Done_inv in Hb as ([c p1] & Hp & E). simplify_eq. by eapply pt_abort.
Qed.

(** The prepare phase: every participant has answered. *)
Definition prepared_shard cl cl1 (i : N) (reply : Z) (t : N) : Prop :=
∃ b b1, bclient cl !! N.to_nat i = Some b ∧ bclient cl1 !! N.to_nat i = Some b1 ∧
  bc_tid b1 = bc_tid b ∧ bc_txn b1 = bc_txn b ∧
  pt_log (txnclient b1) = pt_log (txnclient b) ++ [EvPrepare (bc_tid b) (bc_txn b) reply t].

Lemma cl_Prepare_inv cl tss ts0 cl1 status ts :
NoDup (participants cl) → cl_Prepare cl tss ts0 = Done (cl1, status, ts) →
participants cl1 = participants cl ∧ cl_mode cl1 = cl_mode cl ∧
(∀ i, i ∉ participants cl → bclient cl1 !! N.to_nat i = bclient cl !! N.to_nat i) ∧
∃ reply time, (∀ i, i ∈ participants cl → prepared_shard cl cl1 i (reply i) (time i) ∧ time i <= ts) ∧
  (status = REPLY_OK ↔ ∀ i, i ∈ participants cl → reply i = REPLY_OK).
Proof.
intros Hnd Hp. unfold cl_Prepare in Hp. apply bind_Done_inv in Hp as (ts1 & _ & Hp).
apply bind_Done_inv in Hp as ([cl2 ps] & Hon & Hp). apply bind_Done_inv in Hp as ([st2 ts2] & Hr & E). simplify_eq.
destruct (on_shards_inv _ _ _ _ _ Hnd Hon) as (Hps & -> & Hin & Hout).
destruct (prepare_result_inv _ _ _ _ _ Hr) as (Hall & _ & Hiff).
split; [done|]. split; [done|]. split; [exact Hout|].
set (answer i := default Promise.default (list_to_map (M := gmap N Promise.t) ps !! i)).
assert (∀ i, i ∈ participants cl → (i, answer i) ∈ ps) as Hans.
{ intros i Hi. rewrite <-Hps in Hi, Hnd. apply list_elem_of_fmap in Hi as ([j p] & -> & Hjp). cbn [fst].
  unfold answer. by rewrite (elem_of_list_to_map_1 ps j p). }
assert (∀ i p, (i, p) ∈ ps → p = answer i) as Hfun.
{ intros i p Hip. unfold answer. rewrite <-Hps in Hnd. by rewrite (elem_of_list_to_map_1 ps i p). }
exists (λ i, default 0%Z (Promise.GetReply (answer i))),
  (λ i, default 0 (Timestamp.timestamp <$> Promise.GetTimestamp (answer i))). split.
- intros i Hi. destruct (Hall i _ (Hans i Hi)) as (r & t & Er & Et & Hle).
  destruct (Hin i _ (Hans i Hi)) as (b & b1 & Hb & Hpb & Hb1).
  destruct (bc_Prepare_inv _ _ _ _ _ _ Hpb Er) as (t' & Et' & Htid & Htxn & Hlog).
  rewrite Er, Et in *. simplify_eq. cbn. split; [by exists b, b1|done].
- rewrite Hiff. split.
  + intros [_ Hok] i Hi. by rewrite (Hok i _ (Hans i Hi)).
  + intros Hok. split; [done|]. intros i p Hip.
    assert (i ∈ participants cl) as Hi by (rewrite <-Hps; by apply (list_elem_of_fmap_2 fst) in Hip).
    specialize (Hok i Hi). rewrite (Hfun i p Hip). destruct (Hall i _ (Hans i Hi)) as (r & t & Er & _).
    rewrite Er in *. by cbn in Hok; subst.
Qed.

(** The second phase on every participant. *)
Lemma decide_phase {A} cl cl1 cl2 cl' (f : BufferClient C → outcome (BufferClient C * A)) rs decision :
NoDup (participants cl) → on_shards cl2 (participants cl) f = Done (cl', rs) → bclient cl2 = bclient cl1 →
(∀ i, i ∉ participants cl → bclient cl1 !! N.to_nat i = bclient cl !! N.to_nat i) →
(∀ b b' a, f b = Done (b', a) → pt_log (txnclient b') = pt_log (txnclient b) ++
  [match decision with Some ts => EvCommit (bc_tid b) (bc_txn b) ts | None => EvAbort (bc_tid b) end]) →
(∀ i reply t, i ∈ participants cl → prepared_shard cl cl1 i reply t → decided cl cl' i reply t decision) ∧
(∀ i, i ∉ participants cl → bclient cl' !! N.to_nat i = bclient cl !! N.to_nat i).
Proof.
intros Hnd Hon E2 Hout1 Hf. destruct (on_shards_inv _ _ _ _ _ Hnd Hon) as (Hrs & _ & Hin & Hout).
rewrite E2 in Hin, Hout. split; [|intros i Hi; by rewrite Hout, Hout1].
intros i reply t Hi (b & b1 & Hb & Hb1 & Htid & Htxn & Hlog).
rewrite <-Hrs in Hi. apply list_elem_of_fmap in Hi as ([j a] & -> & Hja). cbn [fst] in *.
destruct (Hin j a Hja) as (b1' & b2 & Hb1' & Hfb & Hb2). rewrite Hb1 in Hb1'. injection Hb1' as <-.
exists b, (pt_log (txnclient b)). split; [done|]. unfold shard_log. rewrite Hb, Hb2. split; [done|]. cbn.
f_equal. rewrite (Hf _ _ _ Hfb), Hlog, Htid, Htxn, <-app_assoc. done.
Qed.

Lemma commit_time_le cl ts now : ts <= (commit_time cl ts now).1.
Proof.
unfold commit_time. destruct (TrueTime.GetTimeAndError (cl_timeServer cl) now) as [time err].
destruct (cl_mode cl); try apply N.le_refl; cbv zeta; destruct (N.ltb_spec ts time); cbn [fst]; lia.
Qed.

(** A run of either [Commit]. *)
Definition commit_run cl (tss : bytes) (now : TrueTime.timeval) cl' (ok : bool) : Prop :=
cl_Commit cl tss now = Done (cl', ok) ∨
∃ keys keys', cl_Commit_keys cl tss now keys = Done (cl', ok, keys').

(** Both phases, with one time for all. *)
Definition atomic cl cl' (ok : bool) : Prop :=
∃ ts reply time,
  (∀ i, i ∈ participants cl → decided cl cl' i (reply i) (time i) (if ok then Some ts else None) ∧ time i <= ts) ∧
  (ok = true ↔ ∀ i, i ∈ participants cl → reply i = REPLY_OK) ∧
  (∀ i, i ∉ participants cl → bclient cl' !! N.to_nat i = bclient cl !! N.to_nat i).

Lemma prepare_once cl tss ts0 cl1 st ts :
prepare_loop COMMIT_RETRIES cl tss ts0 None = Done (cl1, st, ts) →
∃ status, st = Some status ∧ cl_Prepare cl tss ts0 = Done (cl1, status, ts).
Proof.
unfold COMMIT_RETRIES. cbn [prepare_loop]. intros Hp.
apply bind_Done_inv in Hp as ([[cl2 status] ts2] & Hp & E). exists status.
destruct (_ || _); simplify_eq; done.
Qed.

Lemma commit_run_atomic cl tss now cl' ok :
NoDup (participants cl) → commit_run cl tss now cl' ok → atomic cl cl' ok.
Proof.
intros Hnd Hrun.
assert (∃ cl1 status ts, cl_Prepare cl tss 0 = Done (cl1, status, ts) ∧
  if (status =? REPLY_OK)%Z then ok = true ∧ ∃ A (f : N → BufferClient C → outcome (BufferClient C * A)) rs,
    on_shards (with_sleep cl1 (commit_time cl1 ts now).2) (participants cl1)
      (f (commit_time cl1 ts now).1) = Done (cl', rs) ∧
    (∀ t b b' a, f t b = Done (b', a) →
       pt_log (txnclient b') = pt_log (txnclient b) ++ [EvCommit (bc_tid b) (bc_txn b) t])
  else ok = false ∧ cl_Abort cl1 = Done cl') as (cl1 & status & ts & Hp & Hdec).
{ destruct Hrun as [Hrun|(keys & keys' & Hrun)].
  - unfold cl_Commit in Hrun. apply bind_Done_inv in Hrun as ([[cl1 st] ts] & Hp & Hrun).
    apply prepare_once in Hp as (status & -> & Hp). exists cl1, status, ts. split; [done|].
    destruct (status =? REPLY_OK)%Z.
    + destruct (commit_time cl1 ts now) as [ts1 z]. apply bind_Done_inv in Hrun as ([cl2 rs] & Hon & E). simplify_eq.
      split; [done|]. exists (option Promise.t), (λ t b, bc_Commit b t None), rs. split; [done|].
      intros t b b' a. apply bc_Commit_inv.
    + apply bind_Done_inv in Hrun as (cl2 & Ha & E). by simplify_eq.
  - unfold cl_Commit_keys in Hrun. apply bind_Done_inv in Hrun as ([[cl1 st] ts] & Hp & Hrun).
    apply prepare_once in Hp as (status & -> & Hp). exists cl1, status, ts. split; [done|].
    destruct (status =? REPLY_OK)%Z.
    + destruct (commit_time cl1 ts now) as [ts1 z]. apply bind_Done_inv in Hrun as ([cl2 rs] & Hon & Hrun).
      apply bind_Done_inv in Hrun as (k & _ & E). simplify_eq.
      split; [done|]. eexists (option Promise.t), (λ t b, bc_Commit b t _), rs. split; [exact Hon|].
      intros t b b' a. apply bc_Commit_inv.
    + apply bind_Done_inv in Hrun as (cl2 & Ha & E). by simplify_eq. }
destruct (cl_Prepare_inv _ _ _ _ _ _ Hnd Hp) as (Hpart & _ & Hout & reply & time & Hall & Hst).
destruct (Z.eqb_spec status REPLY_OK) as [Hok|Hbad].
- destruct Hdec as (-> & A & f & rs & Hon & Hf). rewrite Hpart in Hon.
  destruct (decide_phase cl cl1 _ cl' _ rs (Some (commit_time cl1 ts now).1) Hnd Hon eq_refl Hout) as [Hd Ho].
  { intros b b' a. apply Hf. }
  exists (commit_time cl1 ts now).1, reply, time. split; [|split; [|done]].
  + intros i Hi. destruct (Hall i Hi) as [Hps Hle]. split; [by apply Hd|].
    pose proof (commit_time_le cl1 ts now). lia.
  + split; [intros _; by apply Hst|done].
- destruct Hdec as [-> Ha]. unfold cl_Abort in Ha. apply bind_Done_inv in Ha as ([cl2 rs] & Hon & E). simplify_eq.
  rewrite Hpart in Hon.
  destruct (decide_phase cl cl1 _ cl' _ rs None Hnd Hon eq_refl Hout) as [Hd Ho].
  { intros b b' a. apply bc_Abort_inv. }
  exists ts, reply, time. split; [|split; [|done]].
  + intros i Hi. destruct (Hall i Hi) as [Hps Hle]. split; [by apply Hd|done].
  + split; [done|]. intros Hr. exfalso. apply Hbad. by apply Hst.
Qed.
End TwoPhase.

(** ** Termination *)

(** A shard that answers every call. *)
Class ParticipantLive (C : Type) `{TxnClient C} : Prop := {
  pt_prepare_answers c id txn ts p : ∃ c' p', tc_Prepare c id txn ts p = Done (c', p') ∧ Promise.done p' = true;
  pt_commit_answers c id txn vers ts : ∃ c' p', tc_Commit c id txn vers ts None = Done (c', p');
  pt_abort_answers c id txn : ∃ c' p', tc_Abort c id txn None = Done (c', p');
}.

Section Live.
Context `{TxnClient C, !ParticipantLive C}.
Implicit Types (cl : Client C) (b : BufferClient C).

Lemma on_shards_total {A} shards cl (f : BufferClient C → outcome (BufferClient C * A)) (P : A → Prop) :
Forall (λ i, N.to_nat i < length (bclient cl))%nat shards →
(∀ b, ∃ b' a, f b = Done (b', a) ∧ P a) →
∃ cl' rs, on_shards cl shards f = Done (cl', rs) ∧ cl' = with_shards cl (bclient cl') ∧
  length (bclient cl') = length (bclient cl) ∧ Forall (λ r, P r.2) rs.
Proof.
intros HF Hf. revert cl HF. induction shards as [|i shards IH]; intros cl HF; cbn [on_shards].
{ exists cl, []. split; [done|]. split; [by destruct cl|]. done. }
apply Forall_cons in HF as [Hi HF]. apply lookup_lt_is_Some_2 in Hi as [b Hb].
destruct (Hf b) as (b' & a & Hfb & Ha). unfold on_shard. rewrite Hb, Hfb, !bind_Done.
destruct (IH (with_shards cl (<[N.to_nat i := b']> (bclient cl)))) as (cl' & rs & -> & E & Hlen & HP).
{ cbn. by rewrite length_insert. }
cbn [bclient with_shards] in Hlen. rewrite length_insert in Hlen.
exists cl', ((i, a) :: rs). split; [done|]. split; [exact E|]. split; [done|]. by constructor.
Qed.

Lemma prepare_result_total ps status ts :
Forall (λ r : N * Promise.t, Promise.done r.2 = true) ps → ∃ st' ts', prepare_result ps status ts = Done (st', ts').
Proof.
intros HF. revert status ts. induction HF as [|[i p] ps Hp _ IH]; intros status ts; [by do 2 eexists|].
cbn [prepare_result fst snd] in *. unfold Promise.GetReply, Promise.GetTimestamp, Promise.await. rewrite Hp.
cbn [wait]. rewrite !bind_Done. apply IH.
Qed.

Lemma commit_total cl tss now :
Forall (λ i, N.to_nat i < length (bclient cl))%nat (participants cl) →
(cl_mode cl = MODE_OCC → ∃ t, stol tss = Done t) → ∃ cl' ok, cl_Commit cl tss now = Done (cl', ok).
Proof.
intros HF Htss.
assert (∃ cl1 status ts, cl_Prepare cl tss 0 = Done (cl1, status, ts) ∧ participants cl1 = participants cl ∧
  length (bclient cl1) = length (bclient cl)) as (cl1 & status & ts & Hp & Hpart & Hlen).
{ unfold cl_Prepare.
  assert (∃ t0, match cl_mode cl with MODE_OCC => t ← stol tss; Done (uint64 t) | _ => Done 0 end = Done t0) as [t0 ->].
  { destruct (cl_mode cl); try by eexists. destruct (Htss eq_refl) as [t ->]. by eexists. }
  rewrite bind_Done.
  destruct (on_shards_total (participants cl) cl
    (λ b, bc_Prepare b Timestamp.default (Promise.create PREPARE_TIMEOUT)) (λ p, Promise.done p = true) HF)
    as (cl1 & rs & -> & E & Hlen & HP).
  { intros b. unfold bc_Prepare. destruct (pt_prepare_answers (txnclient b) (bc_tid b) (bc_txn b)
      Timestamp.default (Promise.create PREPARE_TIMEOUT)) as (c' & p' & -> & Hd). rewrite bind_Done. by do 2 eexists. }
  rewrite bind_Done. destruct (prepare_result_total rs REPLY_OK t0 HP) as (st & ts & ->).
  rewrite bind_Done. do 3 eexists. split; [done|]. by rewrite E. }
unfold cl_Commit, COMMIT_RETRIES. cbn [prepare_loop]. rewrite Hp, bind_Done.
assert (∃ t', (if (status =? REPLY_OK)%Z || (status =? REPLY_FAIL)%Z then Done (cl1, Some status, ts)
  else Done (cl1, Some status, ts)) = Done (cl1, Some status, t')) as [t' ->] by (exists ts; by destruct (_ || _)).
rewrite bind_Done. rewrite <-Hpart, <-Hlen in HF. destruct (status =? REPLY_OK)%Z.
- destruct (commit_time cl1 t' now) as [ts1 z].
  destruct (on_shards_total (participants cl1) (with_sleep cl1 z) (λ b, bc_Commit b ts1 None) (λ _, True))
    as (cl' & rs & -> & _); [exact HF| |by do 2 eexists].
  intros b. unfold bc_Commit. destruct (pt_commit_answers (txnclient b) (bc_tid b) (bc_txn b) (history b) ts1)
    as (c' & p' & ->). rewrite bind_Done. by do 2 eexists.
- unfold cl_Abort.
  destruct (on_shards_total (participants cl1) cl1 (λ b, bc_Abort b None) (λ _, True))
    as (cl' & rs & -> & _); [exact HF| |by do 2 eexists].
  intros b. unfold bc_Abort. destruct (pt_abort_answers (txnclient b) (bc_tid b) Transaction.empty)
    as (c' & p' & ->). rewrite bind_Done. by do 2 eexists.
Qed.
End Live.

(** C16.  [Client::Commit] is atomic and, when the shards answer, returns: every
    participant is asked once to prepare the transaction the client buffered
    for it; if all answered [REPLY_OK] the result is true and every participant
    gets a commit with the same time, which is at least every prepare time, and
    otherwise the result is false and every participant gets an abort.  The
    other shards see nothing. *)
Theorem atomic_commit `{ParticipantLaws C, !ParticipantLive C} (cl : Client C) tss now :
  NoDup (participants cl) → Forall (λ i, N.to_nat i < length (bclient cl))%nat (participants cl) →
  (cl_mode cl = MODE_OCC → ∃ t, stol tss = Done t) →
  (∃ cl' ok, cl_Commit cl tss now = Done (cl', ok)) ∧
  (∀ cl' ok, commit_run cl tss now cl' ok → atomic cl cl' ok).
Proof.
  intros Hnd HF Htss. split; [by apply commit_total|]. intros cl' ok. by apply commit_run_atomic.
Qed.

(** ** A shard that records what reaches it *)

(** It refuses to prepare the transactions with the numbers [refused]. *)
Record recorder := mkRecorder { refused : list N; rec_time : N; rec_log : list event }.

#[export] Instance recorder_client : TxnClient recorder := {|
  tc_Begin c id := Done c;
  tc_BatchGet c id keys p := Done (c, Promise.Reply p REPLY_OK);
  tc_GetRange c id a b p := Done (c, Promise.Reply p REPLY_OK);
  tc_GetProof c block keys p := Done (c, Promise.Reply_verify p REPLY_OK PASS, true);
  tc_Audit c seq p := Done (c, Promise.Reply_verify p REPLY_OK FAILED, true);
  tc_Prepare c id txn ts p :=
    let r := if bool_decide (id ∈ refused c) then REPLY_FAIL else REPLY_OK in
    Done (mkRecorder (refused c) (rec_time c) (rec_log c ++ [EvPrepare id txn r (rec_time c)]),
          Promise.Reply_timestamp p r (Timestamp.of_time (rec_time c)));
  tc_Commit c id txn vers ts p :=
    Done (mkRecorder (refused c) (rec_time c) (rec_log c ++ [EvCommit id txn ts]),
          (λ p, Promise.Reply p REPLY_OK) <$> p);
  tc_Abort c id txn p :=
    Done (mkRecorder (refused c) (rec_time c) (rec_log c ++ [EvAbort id]), (λ p, Promise.Reply p REPLY_OK) <$> p);
|}.
#[export] Instance recorder_participant : Participant recorder := {| pt_log := rec_log |}.
#[export] Instance recorder_laws : ParticipantLaws recorder.
Proof.
  split.
  - intros c id txn ts p c' p' reply Hp Hr. cbn in Hp. simplify_eq. cbn in Hr. simplify_eq. by eexists.
  - intros c id txn vers ts p c' p' Hp. cbn in Hp. by simplify_eq.
  - intros c id txn p c' p' Hp. cbn in Hp. by simplify_eq.
Qed.
#[export] Instance recorder_live : ParticipantLive recorder.
Proof. split; intros; cbn; by do 2 eexists. Qed.

(** A client that wrote on two of three shards. *)
Definition two_writes : Client recorder :=
  let b r t txn := mkBufferClient (mkRecorder r t []) txn [] 7 [] in
  mkClient 7 3 [0; 2] [b [] 30 (Transaction.addWriteSet Transaction.empty #"a" #"1");
                       b [] 10 Transaction.empty;
                       b [] 40 (Transaction.addWriteSet Transaction.empty #"b" #"2")]
    MODE_SPAN_OCC (TrueTime.mk 0 0) (-1).

Lemma atomic_commit_witness :
  ∃ cl', cl_Commit two_writes [] (TrueTime.mkTimeval 0 35) = Done (cl', true) ∧
    shard_log cl' 0 = Some [EvPrepare 7 (Transaction.addWriteSet Transaction.empty #"a" #"1") REPLY_OK 30;
                            EvCommit 7 (Transaction.addWriteSet Transaction.empty #"a" #"1") 40] ∧
    atomic two_writes cl' true.
Proof.
  assert (NoDup (participants two_writes)) as Hnd by (apply (bool_decide_unpack _); vm_compute; exact I).
  destruct (atomic_commit two_writes [] (TrueTime.mkTimeval 0 35) Hnd) as [_ Hat].
  - repeat constructor; cbn; lia.
  - discriminate.
  - eexists. split; [reflexivity|]. split; [reflexivity|]. apply Hat. left. reflexivity.
Defined.
