(* ===== verification/Workload.v ===== *)
(** * [exes/verifyClient.cc], [exes/rangeClient.cc]: transactions with deferred verification

    The transaction thread of a benchmark puts the keys of its transactions in
    a map, by shard and block; the verifying thread now and then verifies a copy
    of the map and takes the verified blocks out.  The other benchmarks have the
    same two pieces of code.  A lock protects each access to the map, but not
    the verification in between: what the other thread adds meanwhile is part of
    the model. *)

From S2P Require Import Prelude Cpp Txn Reply StoreCommon Server BufferClient ShardClient StrongClient ClientSpec.

Open Scope N_scope.

(** [verifymap] *)
Abbreviation verify_map := (gmap N (gmap N (gset bytes))).

(** ** The transaction thread: adding keys *)

(** The loop over the blocks of a shard that is in the map. *)
Definition merge_block (inner : gmap N (gset bytes)) (entry : N * list bytes) : gmap N (gset bytes) :=
  let '(block, keys) := entry in
  match inner !! block with
  | Some s => <[block := s ∪ list_to_set keys]> inner
  | None => <[block := list_to_set keys]> inner
  end.
Definition merge_replica (vm : verify_map) (entry : N * gmap N (list bytes)) : verify_map :=
  let '(shard, blocks) := entry in
  match vm !! shard with
  | Some inner => <[shard := foldl merge_block inner (nmap_entries blocks)]> vm
  | None => <[shard := list_to_set <$> blocks]> vm
  end.
Definition merge_keys (vm : verify_map) (keys : unverified) : verify_map :=
  foldl merge_replica vm (nmap_entries keys).

(** ** The verifying thread *)

(** A [std::set<std::string>] in the order of an iteration. *)
Definition key_list (s : gset bytes) : list bytes := merge_sort bytes_le (elements s).

(** The copy of the map. *)
Definition snapshot (vm : verify_map) : unverified := 
  (λ inner : gmap N (gset bytes), key_list <$> inner) <$> vm.

(** The loop that takes the blocks out; [operator[]] makes the shard when it is
    not there. *)
Definition forget_block (inner : gmap N (gset bytes)) (entry : N * list bytes) : gmap N (gset bytes) :=
  delete entry.1 inner.
Definition forget_replica (vm : verify_map) (entry : N * gmap N (list bytes)) : verify_map :=
  let '(shard, blocks) := entry in
  let inner := foldl forget_block (default ∅ (vm !! shard)) (nmap_entries blocks) in
  if decide (inner = ∅) then delete shard vm else <[shard := inner]> vm.
Definition forget (vm : verify_map) (keys : unverified) : verify_map :=
  foldl forget_replica vm (nmap_entries keys).

(** ** The turns of the threads *)

(** [struct Task] of [verifyClient.cc]. *)
Record Task := mkTask { ops : list Z; keys : list bytes; vals : list bytes; versions : list N }.

Section Round.
Context `{TxnClient C}.
Implicit Types cl : Client C.

(** An entry of the vectors of a task; 1 is a write, 0 a read, the others a read of versions. *)
Definition task_op (task : Task) (cl : Client C) (j : nat) : outcome (Client C) :=
  match ops task !! j, keys task !! j, vals task !! j, versions task !! j with
  | Some o, Some key, Some val, Some n =>
      if (o =? 1)%Z then '(cl, _) ← cl_Put cl key val; Done cl
      else if (o =? 0)%Z then '(cl, _) ← cl_Get cl key; Done cl
      else '(cl, _) ← cl_GetNVersions cl key n; Done cl
  | _, _, _, _ => Stop Undefined
  end.
Fixpoint task_ops (task : Task) (js : list nat) cl : outcome (Client C) :=
  match js with
  | [] => Done cl
  | j :: js => cl ← task_op task cl j; task_ops task js cl
  end.

(** A turn of the loop of [txnThread]; [tss] and [now] are what the commit gets
    from the timestamp server and the clock. *)
Definition txn_turn (tss : bytes) (now : TrueTime.timeval) (task : Task) cl (vm : verify_map)
  : outcome (Client C * bool * verify_map) :=
  cl ← cl_Begin cl;
  cl ← task_ops task (seq 0 (length (ops task))) cl;
  '(cl, status, unverified_keys) ← cl_Commit_keys cl tss now ∅;
  Done (cl, status, merge_keys vm unverified_keys).

(** That of [rangeClient.cc], which does not commit; the bounds are [int]s. *)
Definition range_turn (from to : Z) cl (vm : verify_map) : outcome (Client C * Z * verify_map) :=
  cl ← cl_Begin cl;
  '(cl, status, values, verify) ← cl_GetRange cl (to_string_z from) (to_string_z to) ∅ ∅;
  Done (cl, status, merge_keys vm verify).

(** A turn of the loop of [verifyThread]; [during] is what the transaction
    thread adds while [Verify] runs.  The result of [Verify] is only printed. *)
Definition verify_round (junk_status : VerifyStatus) cl (vm : verify_map)
    (during : list unverified) : outcome (Client C * option bool * verify_map) :=
  if decide (vm = ∅) then Done (cl, None, foldl merge_keys vm during)
  else
    '(cl, vs, keys) ← cl_Verify junk_status cl (snapshot vm);
    Done (cl, Some vs, forget (foldl merge_keys vm during) keys).
End Round.

(** ** What waits in the map *)

(** The block [b] of shard [s] is in the map, and with the key [k]. *)
Definition waits_block {S} (vm : gmap N (gmap N S)) (s b : N) : Prop :=
  ∃ inner x, vm !! s = Some inner ∧ inner !! b = Some x.
Definition waits {S} `{ElemOf bytes S} (vm : gmap N (gmap N S)) (s b : N) (k : bytes) : Prop :=
  ∃ inner x, vm !! s = Some inner ∧ inner !! b = Some x ∧ k ∈ x.

Lemma waits_lookup {S} `{ElemOf bytes S} (vm : gmap N (gmap N S)) s b k :
  waits vm s b k ↔ ∃ x, vm !! s ≫= (.!! b) = Some x ∧ k ∈ x.
Proof.
  unfold waits. split.
  - intros (inner & x & -> & E & Hk). by exists x.
  - intros (x & (inner & -> & E)%bind_Some & Hk). by exists inner, x.
Qed.

#[export] Instance waits_block_dec {S} (vm : gmap N (gmap N S)) s b : Decision (waits_block vm s b).
Proof.
  refine (cast_if (decide (is_Some (vm !! s ≫= (.!! b))))); unfold waits_block.
  - abstract (destruct i as (x & (inner & ? & ?)%bind_Some); by exists inner, x).
  - abstract (intros (inner & x & E & E'); apply n; by rewrite E; exists x).
Defined.

Lemma elem_of_key_list k s : k ∈ key_list s ↔ k ∈ s.
Proof. unfold key_list. by rewrite merge_sort_Permutation, elem_of_elements. Qed.

Lemma waits_snapshot vm s b k : waits (snapshot vm) s b k ↔ waits vm s b k.
Proof.
  unfold snapshot. rewrite !waits_lookup, lookup_fmap. destruct (vm !! s) as [inner|]; cbn; [|naive_solver].
  rewrite lookup_fmap. destruct (inner !! b) as [x|]; cbn; [|naive_solver].
  split; intros (y & [= <-] & Hk); eexists; (split; [done|]); by apply elem_of_key_list.
Qed.

(** A loop over the entries of a map whose turns each change the value of their
    own key. *)
Lemma foldl_entries {A B} (f : gmap N B → N * A → gmap N B) (g : option B → A → option B)
    (m : gmap N A) (acc : gmap N B) i :
  (∀ acc k x i, f acc (k, x) !! i = if decide (i = k) then g (acc !! k) x else acc !! i) →
  foldl f acc (nmap_entries m) !! i =
    match m !! i with Some x => g (acc !! i) x | None => acc !! i end.
Proof.
  intros Hf. assert (∀ l : list (N * A), NoDup l.*1 → ∀ acc,
    foldl f acc l !! i = match list_to_map (M := gmap N A) l !! i with
                         | Some x => g (acc !! i) x | None => acc !! i end) as Hl.
  { induction l as [|[k x] l IH]; intros Hnd acc'; [done|].
    apply NoDup_cons in Hnd as [Hk Hnd]. cbn [foldl list_to_map foldr uncurry fst snd].
    rewrite (IH Hnd). destruct (decide (k = i)) as [<-|Hne].
    - rewrite (not_elem_of_list_to_map_1 _ _ Hk), Hf, decide_True by done.
      by rewrite lookup_insert_eq.
    - rewrite lookup_insert_ne by done. by rewrite !Hf, decide_False by done. }
  rewrite Hl by apply nmap_entries_NoDup.
  enough (list_to_map (nmap_entries m) = m) as -> by done.
  rewrite <-(list_to_map_to_list m) at 2.
  apply list_to_map_proper; [apply nmap_entries_NoDup|apply nmap_entries_perm].
Qed.

(** ** The operations on what waits *)

Lemma merge_blocks_lookup inner (blocks : gmap N (list bytes)) b :
  foldl merge_block inner (nmap_entries blocks) !! b =
  match blocks !! b with
  | Some keys => Some (default ∅ (inner !! b) ∪ list_to_set keys)
  | None => inner !! b
  end.
Proof.
  apply (foldl_entries merge_block (λ s keys, Some (default ∅ s ∪ list_to_set keys))).
  intros acc k x i. unfold merge_block. destruct (acc !! k) as [s|] eqn:E; case_decide as Hi;
    [subst..|]; rewrite ?lookup_insert_eq, ?lookup_insert_ne by done; try done.
  cbn. f_equal. set_solver.
Qed.

Lemma merge_keys_lookup vm (keys : unverified) s :
  merge_keys vm keys !! s =
  match keys !! s with
  | Some blocks => Some (foldl merge_block (default ∅ (vm !! s)) (nmap_entries blocks))
  | None => vm !! s
  end.
Proof.
  apply (foldl_entries merge_replica
    (λ inner blocks, Some (foldl merge_block (default ∅ inner) (nmap_entries blocks)))).
  intros acc k x i. unfold merge_replica. destruct (acc !! k) as [inner|] eqn:E; case_decide as Hi;
    [subst..|]; rewrite ?lookup_insert_eq, ?lookup_insert_ne by done; try done.
  cbn. f_equal. apply map_eq. intros b. rewrite merge_blocks_lookup, lookup_fmap, lookup_empty.
  destruct (x !! b); cbn; [|done]. f_equal. set_solver.
Qed.

Lemma exists_Some {A} (y : A) (P : A → Prop) : (∃ x, Some y = Some x ∧ P x) ↔ P y.
Proof. naive_solver. Qed.
Lemma exists_None {A} (P : A → Prop) : (∃ x, None = Some x ∧ P x) ↔ False.
Proof. naive_solver. Qed.

Lemma waits_merge vm (keys : unverified) s b k :
  waits (merge_keys vm keys) s b k ↔ waits vm s b k ∨ waits keys s b k.
Proof.
  rewrite !waits_lookup, merge_keys_lookup. destruct (keys !! s) as [blocks|]; cbn; [|naive_solver].
  rewrite merge_blocks_lookup.
  assert (vm !! s ≫= (.!! b) = default ∅ (vm !! s) !! b) as ->.
  { destruct (vm !! s); cbn; by rewrite ?lookup_empty. }
  destruct (blocks !! b) as [ks|]; [|naive_solver].
  destruct (default ∅ (vm !! s) !! b) as [x|]; cbn; rewrite ?exists_Some, ?exists_None; set_solver.
Qed.

Lemma waits_merges (during : list unverified) vm s b k :
  waits (foldl merge_keys vm during) s b k ↔ waits vm s b k ∨ ∃ keys, keys ∈ during ∧ waits keys s b k.
Proof.
  revert vm. induction during as [|keys during IH]; intros vm; cbn [foldl]; [set_solver|].
  rewrite IH, waits_merge. set_solver.
Qed.

Lemma forget_blocks_lookup inner (blocks : gmap N (list bytes)) b :
  foldl forget_block inner (nmap_entries blocks) !! b =
  match blocks !! b with Some _ => None | None => inner !! b end.
Proof.
  apply (foldl_entries forget_block (λ (_ : option (gset bytes)) (_ : list bytes), None)).
  intros acc k x i. unfold forget_block. cbn. case_decide as Hi; [subst; by rewrite lookup_delete_eq|by rewrite lookup_delete_ne].
Qed.

Lemma waits_forget vm (keys : unverified) s b k :
  waits (forget vm keys) s b k ↔ waits vm s b k ∧ ¬ waits_block keys s b.
Proof.
  unfold waits_block. rewrite !waits_lookup. unfold forget.
  rewrite (foldl_entries forget_replica (λ old blocks,
    let inner := foldl forget_block (default ∅ old) (nmap_entries blocks) in
    if decide (inner = ∅) then None else Some inner)).
  2: { intros acc s' x i. unfold forget_replica. destruct (decide (foldl _ _ _ = ∅)); case_decide;
       subst; rewrite ?lookup_delete_eq, ?lookup_delete_ne, ?lookup_insert_eq, ?lookup_insert_ne by done; done. }
  destruct (keys !! s) as [blocks|] eqn:Es; [|naive_solver]. cbv zeta.
  assert (∀ x, (if decide (foldl forget_block (default ∅ (vm !! s)) (nmap_entries blocks) = ∅)
                then None else Some (foldl forget_block (default ∅ (vm !! s)) (nmap_entries blocks)))
            ≫= (.!! b) = Some x ↔ vm !! s ≫= (.!! b) = Some x ∧ blocks !! b = None) as Hx.
  { intros x. set (inner := foldl _ _ _).
    assert (inner !! b = match blocks !! b with Some _ => None | None => default ∅ (vm !! s) !! b end) as Hi
      by apply forget_blocks_lookup.
    assert ((if decide (inner = ∅) then None else Some inner) ≫= (.!! b) = inner !! b) as ->.
    { case_decide as E; [|done]. by rewrite E, lookup_empty. }
    rewrite Hi. destruct (blocks !! b), (vm !! s); cbn; rewrite ?lookup_empty; naive_solver. }
  setoid_rewrite Hx. destruct (blocks !! b) eqn:Eb; naive_solver.
Qed.

(** ** What [Verify] asks the shards

    A client of a shard logs the requests for proofs that it sends. *)

Class ProofLog (C : Type) `{TxnClient C} := { pl_log : C → list (N * list bytes) }.
Class ProofLogLaws (C : Type) `{ProofLog C} : Prop := {
  pl_GetProof c block keys p c' p' sent :
    tc_GetProof c block keys p = Done (c', p', sent) →
    pl_log c' = pl_log c ++ (if sent : bool then [(block, keys)] else []);
}.

Section Verify.
Context `{ProofLogLaws C} (junk_status : VerifyStatus).
Implicit Types cl : Client C.

(** Shard [s] was asked for proofs of [keys] in block [b]. *)
Definition sent_to cl (s b : N) (keys : list bytes) : Prop :=
  ∃ c, bclient cl !! N.to_nat s = Some c ∧ (b, keys) ∈ pl_log (txnclient c).
Definition asked cl (s b : N) (k : bytes) : Prop := ∃ keys, sent_to cl s b keys ∧ k ∈ keys.

(** Requests are only added. *)
Definition asks_more cl cl' : Prop := ∀ s b keys, sent_to cl s b keys → sent_to cl' s b keys.
#[local] Instance asks_more_preorder : PreOrder asks_more.
Proof. split; [by intros cl s b k|]. intros x y z Hxy Hyz s b k Hk. by apply Hyz, Hxy. Qed.

Lemma asked_more cl cl' s b k : asks_more cl cl' → asked cl s b k → asked cl' s b k.
Proof. intros Hm (keys & Hs & Hk). exists keys. split; [by apply Hm|done]. Qed.

Lemma send_verify_spec cl s b ks ps cl' sent ps' :
  send_verify cl s b ks ps = Done (cl', sent, ps') →
  asks_more cl cl' ∧ (sent = true → sent_to cl' s b ks).
Proof.
  intros E. apply bind_Done_inv in E as ([cl1 [p sent1]] & Hone & E). simplify_eq.
  apply on_shard_inv in Hone as (c & c' & Hc & Hf & ->).
  apply bind_Done_inv in Hf as ([[c1 p1] sent1] & Hf & E). simplify_eq. unfold bc_Verify in Hf.
  apply bind_Done_inv in Hf as ([[d p2] sent2] & Hd & E). simplify_eq. apply pl_GetProof in Hd.
  pose proof (lookup_lt_Some _ _ _ Hc) as Hlt.
  split.
  - intros s' b' keys' (c2 & Hc2 & Hin). cbn. destruct (decide (N.to_nat s = N.to_nat s')) as [Es|Hne].
    + exists (with_client c d). cbn. rewrite <-Es in *. split; [by apply list_lookup_insert_eq|].
      simplify_eq. rewrite Hd. apply elem_of_app. by left.
    + exists c2. cbn. by rewrite list_lookup_insert_ne.
  - intros ->. exists (with_client c d). cbn. split; [by apply list_lookup_insert_eq|].
    rewrite Hd. apply elem_of_app. right. by left.
Qed.

Lemma verify_pieces_spec n cl s b ks ps cl' ok ks' ps' :
  verify_pieces n cl s b ks ps = Done (cl', ok, ks', ps') →
  asks_more cl cl' ∧ ∀ k, k ∈ ks → asked cl' s b k ∨ k ∈ ks'.
Proof.
  revert cl ks ps. induction n as [|n IH]; intros cl ks ps; cbn [verify_pieces];
    (destruct (10000 <? length ks)%nat; [|intros [= <- <- <- <-]%Done_inj; split; [done|by right]]); [done|].
  intros E. apply bind_Done_inv in E as ([[cl1 sent] ps1] & Hs & E).
  apply send_verify_spec in Hs as [Hm Hsent]. destruct sent.
  - apply IH in E as [Hm' Hk]. split; [by etrans|]. intros k Hin.
    rewrite <-(take_drop 10000 ks) in Hin. apply elem_of_app in Hin as [Hin|Hin]; [|by apply Hk].
    left. eapply asked_more; [done|]. exists (take 10000 ks). split; [by apply Hsent|done].
  - apply Done_inj in E as [= <- <- <- <-]. split; [done|by right].
Qed.

(** The blocks that are kept are those whose keys were all asked for. *)
Lemma verify_blocks_spec cl s vf blocks ps cl' kept ps' :
  verify_blocks cl s vf blocks ps = Done (cl', kept, ps') →
  asks_more cl cl' ∧ ∀ b ks', (b, ks') ∈ kept → ∃ ks, (b, ks) ∈ blocks ∧ ∀ k, k ∈ ks → asked cl' s b k.
Proof.
  revert cl vf ps kept. induction blocks as [|[b ks] blocks IH]; intros cl vf ps kept; cbn [verify_blocks].
  { intros [= <- <- <-]%Done_inj. split; [done|]. by intros b ks' ?%elem_of_nil. }
  destruct vf; [|intros E; apply IH in E as [Hm Hk]; split; [done|]; set_solver].
  intros E. apply bind_Done_inv in E as ([[[cl1 ok] ks1] ps1] & Hp & E).
  apply verify_pieces_spec in Hp as [Hm1 Hk1]. destruct ok.
  2: { apply IH in E as [Hm Hk]. split; [by etrans|]. set_solver. }
  apply bind_Done_inv in E as ([[cl2 sent] ps2] & Hs & E). apply send_verify_spec in Hs as [Hm2 Hsent].
  apply bind_Done_inv in E as ([[cl3 kept1] ps3] & Hr & E). simplify_eq.
  apply IH in Hr as [Hm3 Hk3]. split; [by do 2 (etrans; [done|])|]. intros b' ks' Hin.
  destruct sent; [|destruct (Hk3 _ _ Hin) as (ks0 & ? & ?); exists ks0; set_solver].
  apply elem_of_cons in Hin as [[= -> ->]|Hin];
    [|destruct (Hk3 _ _ Hin) as (ks0 & ? & ?); exists ks0; set_solver].
  exists ks. split; [by left|]. intros k [Hk|Hk]%Hk1; (eapply asked_more; [exact Hm3|]).
  - by eapply asked_more.
  - exists ks1. split; [by apply Hsent|done].
Qed.

Lemma verify_shards_spec cl shards ps cl' keys ps' :
  verify_shards cl shards ps = Done (cl', keys, ps') →
  asks_more cl cl' ∧ ∀ s b, waits_block keys s b →
    ∃ blocks ks, (s, blocks) ∈ shards ∧ blocks !! b = Some ks ∧ ∀ k, k ∈ ks → asked cl' s b k.
Proof.
  revert cl ps keys. induction shards as [|[s blocks] shards IH]; intros cl ps keys; cbn [verify_shards].
  { intros [= <- <- <-]%Done_inj. split; [done|]. intros s b (inner & x & Hi & _). by rewrite lookup_empty in Hi. }
  intros E. apply bind_Done_inv in E as ([[cl1 kept] ps1] & Hb & E).
  apply verify_blocks_spec in Hb as [Hm1 Hk1]. apply bind_Done_inv in E as ([[cl2 keys2] ps2] & Hr & E).
  apply Done_inj in E as [= <- <- <-]. apply IH in Hr as [Hm2 Hk2]. split; [by etrans|].
  intros s' b (inner & x & Hi & Hx).
  assert (keys2 !! s' = Some inner ∨ (s' = s ∧ inner = list_to_map kept)) as [Hi'|[-> ->]].
  { destruct kept; [by left|]. apply lookup_insert_Some in Hi as [[<- <-]|[_ Hi]]; [by right|by left]. }
  - destruct (Hk2 s' b) as (blocks' & ks & Hin & Hrest); [by exists inner, x|].
    exists blocks', ks. split; [by right|done].
  - apply elem_of_list_to_map_2 in Hx. destruct (Hk1 _ _ Hx) as (ks & Hin%elem_of_nmap_entries & Hks).
    exists blocks, ks. split; [by left|]. split; [done|]. intros k Hk. by eapply asked_more; [|apply Hks].
Qed.

Lemma cl_Verify_spec cl keys cl' ok kept :
  cl_Verify junk_status cl keys = Done (cl', ok, kept) →
  asks_more cl cl' ∧ ∀ s b, waits_block kept s b →
    waits_block keys s b ∧ ∀ k, waits keys s b k → asked cl' s b k.
Proof.
  intros E. apply bind_Done_inv in E as ([[cl1 keys1] ps] & Hs & E). apply bind_Done_inv in E as (r & _ & E).
  simplify_eq. apply verify_shards_spec in Hs as [Hm Hk]. split; [done|]. intros s b Hw.
  destruct (Hk s b Hw) as (blocks & ks & Hin%elem_of_nmap_entries & Hb & Hks).
  split; [by exists blocks, ks|]. intros k (blocks' & ks' & E1 & E2 & Hin'). simplify_eq. by apply Hks.
Qed.
End Verify.

(** C17.  A turn of the verifying thread accounts for every key: each key that
    waited when it began still waits or its shard has been asked to prove it, and
    a key that the transaction thread adds in between still waits unless its block
    was verified in this turn.  Nothing else gets into the map. *)
Theorem verify_round_accounts `{ProofLogLaws C} (junk_status : VerifyStatus) (cl : Client C) vm during cl' vs vm' :
  verify_round junk_status cl vm during = Done (cl', vs, vm') →
  (∀ s b k, waits vm s b k → waits vm' s b k ∨ asked cl' s b k) ∧
  (∀ keys s b k, keys ∈ during → waits keys s b k →
     waits vm' s b k ∨ (waits_block vm s b ∧ ∀ k', waits vm s b k' → asked cl' s b k')) ∧
  (∀ s b k, waits vm' s b k → waits vm s b k ∨ ∃ keys, keys ∈ during ∧ waits keys s b k).
Proof.
  unfold verify_round. case_decide as He.
  { intros [= <- _ <-]%Done_inj. setoid_rewrite waits_merges. naive_solver. }
  intros E. apply bind_Done_inv in E as ([[cl1 ok] kept] & Hv & E). simplify_eq.
  apply cl_Verify_spec in Hv as [_ Hv]. setoid_rewrite waits_forget. setoid_rewrite waits_merges.
  assert (∀ s b, waits_block kept s b → waits_block vm s b ∧ ∀ k, waits vm s b k → asked cl' s b k) as Hk.
  { intros s b Hw. destruct (Hv s b Hw) as [(i & x & Hi & Hx) Hk]. split.
    - unfold snapshot in Hi. rewrite lookup_fmap in Hi. destruct (vm !! s) as [inner|] eqn:Es; [|done].
      cbn in Hi. injection Hi as <-. rewrite lookup_fmap in Hx.
      destruct (inner !! b) as [y|] eqn:Eb; [|done]. by exists inner, y.
    - intros k Hin. by apply Hk, waits_snapshot. }
  split; [|split].
  - intros s b k Hin. destruct (decide (waits_block kept s b)); [right; by apply Hk|left; auto].
  - intros keys s b k Hd Hin. destruct (decide (waits_block kept s b)); [right; by apply Hk|left; eauto].
  - naive_solver.
Qed.

(** ** A shard that records the requests for proofs *)

(** It has the blocks up to [pr_tip], and every proof has the verdict [pr_verdict]. *)
Record prover := mkProver { pr_tip : N; pr_verdict : VerifyStatus; pr_log : list (N * list bytes) }.

#[export] Instance prover_client : TxnClient prover := {|
  tc_Begin c id := Done c;
  tc_BatchGet c id keys p := Done (c, Promise.Reply p REPLY_OK);
  tc_GetRange c id a b p := Done (c, Promise.Reply p REPLY_OK);
  tc_GetProof c block keys p :=
    if block <=? pr_tip c then
      Done (mkProver (pr_tip c) (pr_verdict c) (pr_log c ++ [(block, keys)]),
            Promise.Reply_verify p REPLY_OK (pr_verdict c), true)
    else Done (c, p, false);
  tc_Audit c seq p := Done (c, p, true);
  tc_Prepare c id txn ts p := Done (c, Promise.Reply p REPLY_OK);
  tc_Commit c id txn vers ts p := Done (c, p);
  tc_Abort c id txn p := Done (c, p);
|}.
#[export] Instance prover_log : ProofLog prover := {| pl_log := pr_log |}.
#[export] Instance prover_laws : ProofLogLaws prover.
Proof.
  split. intros c block keys p c' p' sent. cbn. case_match; intros [= <- _ <-]%Done_inj; [done|].
  by rewrite app_nil_r.
Qed.

Definition one_shard (verdict : VerifyStatus) : Client prover :=
  mkClient 7 1 [] [mkBufferClient (mkProver 5 verdict []) Transaction.empty [] 7 []] MODE_OCC (TrueTime.mk 0 0) 0.

(** The map has keys of a block that is there and of one that is not yet. *)
Definition two_blocks : verify_map := {[ 0 := <[5 := {[ #"a" ]}]> {[6 := {[ #"b" ]}]} ]}.

(** What the transaction thread adds: another key of each block. *)
Definition two_more : unverified := {[ 0 := <[5 := [ #"c" ] : list bytes]> {[6 := [ #"d" ] : list bytes]} ]}.

Definition left_over : verify_map := {[ 0 := {[ 6 := {[ #"b"; #"d" ]} ]} ]}.

Lemma verify_round_accounts_witness :
  ∃ cl', verify_round PASS (one_shard PASS) two_blocks [two_more] = Done (cl', Some true, left_over) ∧
    (waits left_over 0 5 #"a" ∨ asked cl' 0 5 #"a").
Proof.
  eexists. assert (verify_round PASS (one_shard PASS) two_blocks [two_more] = Done (_, _, left_over)) as Hr
    by (vm_compute; reflexivity). split; [exact Hr|].
  apply (proj1 (verify_round_accounts PASS (one_shard PASS) two_blocks [two_more] _ _ left_over Hr) 0 5 #"a").
  exists (<[5 := {[ #"a" ]}]> {[6 := {[ #"b" ]}]}), {[ #"a" ]}.
  split; [reflexivity|]. split; [reflexivity|]. by apply elem_of_singleton.
Defined.

(** A key is lost: it comes for a block that is being verified, and the block is
    taken out with it.  The verdict makes no difference: keys whose proofs fail
    are taken out as well. *)
Theorem key_lost verdict :
  verdict = PASS ∨ verdict = FAILED →
  waits two_more 0 5 #"c" ∧
  ∃ cl', verify_round PASS (one_shard verdict) two_blocks [two_more]
           = Done (cl', Some (bool_decide (verdict = PASS)), left_over) ∧
    ¬ waits left_over 0 5 #"c" ∧ ¬ asked cl' 0 5 #"c".
Proof.
  intros Hv. split.
  { exists (<[5 := [ #"c" ] : list bytes]> {[6 := [ #"d" ] : list bytes]}), [ #"c" ]. repeat split. by left. }
  destruct Hv as [-> | ->]; eexists; (split; [vm_compute; reflexivity|]); split.
  all: try (intros (inner & x & E1 & E2 & _); injection E1 as <-; discriminate E2).
  all: intros (ks & (c & E & Hin) & Hk); injection E as <-; cbn in Hin;
    apply list_elem_of_singleton in Hin as [= ->]; by apply list_elem_of_singleton in Hk.
Qed.
