(* ===== verification/SmallBank.v ===== *)
(** * [exes/smallbankClient.cc]: the transactions of the SmallBank benchmark

    Every customer has a saving and a checking account, kept as decimal numbers
    under a key each.  A transaction reads its accounts with one [BatchGet], puts
    the new balances and commits.  Shown are the writes that reach the commit,
    and what they do to the money. *)

From S2P Require Import Prelude Cpp Txn Reply StoreCommon Server BufferClient ShardClient StrongClient ClientSpec.

Open Scope N_scope.

(** [struct Task]; the account numbers are [int]s and become [unsigned int]s. *)
Record Task := mkTask { op : Z; acc1 : N; acc2 : N; balance : Z }.

Definition saving : bytes := #"savingStore_".
Definition checking : bytes := #"checkingStore_".
Definition sav_key (acc : N) : bytes := saving ++ to_string acc.
Definition chk_key (acc : N) : bytes := checking ++ to_string acc.

(** [unsigned int bal = stoul(values[key])] *)
Definition balance_of (values : gmap bytes bytes) (key : bytes) : outcome N :=
  n ← stoul (default [] (values !! key)); Done (u32 n).

(** [unsigned int] arithmetic *)
Definition add32 (a b : N) : N := u32 (a + b).
Definition sub32 (a b : N) : N := u32 (a + 2 ^ 32 - b).

Section SmallBank.
Context `{TxnClient C}.
Implicit Types cl : Client C.

(** [tss] is the reply of the timestamp server to the commit, [now] its clock. *)
Context (tss : bytes) (now : TrueTime.timeval).

Definition Amalgamate (acc1 acc2 : N) cl (keys : unverified) : outcome (Client C * bool * unverified) :=
  cl ← cl_Begin cl;
  cl ← cl_BufferKey cl (sav_key acc1);
  cl ← cl_BufferKey cl (chk_key acc2);
  '(cl, _, values, keys) ← cl_BatchGet cl ∅ keys;
  bal1 ← balance_of values (sav_key acc1);
  bal2 ← balance_of values (chk_key acc2);
  '(cl, _) ← cl_Put cl (chk_key acc1) #"0";
  '(cl, _) ← cl_Put cl (sav_key acc2) (to_string (add32 bal1 bal2));
  '(cl, ok) ← cl_Commit cl tss now;
  Done (cl, ok, keys).

(** The balances are added up and forgotten; the transaction is not committed. *)
Definition GetBalance (acc : N) cl (keys : unverified) : outcome (Client C * bool * unverified) :=
  cl ← cl_Begin cl;
  cl ← cl_BufferKey cl (sav_key acc);
  cl ← cl_BufferKey cl (chk_key acc);
  '(cl, status, values, keys) ← cl_BatchGet cl ∅ keys;
  if negb (status =? REPLY_OK)%Z then Done (cl, false, keys)
  else
    bal1 ← balance_of values (sav_key acc);
    bal2 ← balance_of values (chk_key acc);
    Done (cl, true, keys).

Definition UpdateBalance (acc amount : N) cl (keys : unverified) : outcome (Client C * bool * unverified) :=
  cl ← cl_Begin cl;
  cl ← cl_BufferKey cl (chk_key acc);
  '(cl, _, values, keys) ← cl_BatchGet cl ∅ keys;
  bal1 ← balance_of values (chk_key acc);
  '(cl, _) ← cl_Put cl (chk_key acc) (to_string (add32 bal1 amount));
  '(cl, ok) ← cl_Commit cl tss now;
  Done (cl, ok, keys).

Definition UpdateSaving (acc amount : N) cl (keys : unverified) : outcome (Client C * bool * unverified) :=
  cl ← cl_Begin cl;
  cl ← cl_BufferKey cl (sav_key acc);
  '(cl, _, values, keys) ← cl_BatchGet cl ∅ keys;
  bal1 ← balance_of values (sav_key acc);
  '(cl, _) ← cl_Put cl (sav_key acc) (to_string (add32 bal1 amount));
  '(cl, ok) ← cl_Commit cl tss now;
  Done (cl, ok, keys).

Definition SendPayment (acc1 acc2 amount : N) cl (keys : unverified) : outcome (Client C * bool * unverified) :=
  cl ← cl_Begin cl;
  cl ← cl_BufferKey cl (chk_key acc1);
  cl ← cl_BufferKey cl (chk_key acc2);
  '(cl, _, values, keys) ← cl_BatchGet cl ∅ keys;
  bal1 ← balance_of values (chk_key acc1);
  bal2 ← balance_of values (chk_key acc2);
  '(cl, _) ← cl_Put cl (chk_key acc1) (to_string (sub32 bal1 amount));
  '(cl, _) ← cl_Put cl (chk_key acc2) (to_string (add32 bal2 amount));
  '(cl, ok) ← cl_Commit cl tss now;
  Done (cl, ok, keys).

Definition WriteCheck (acc amount : N) cl (keys : unverified) : outcome (Client C * bool * unverified) :=
  cl ← cl_Begin cl;
  cl ← cl_BufferKey cl (sav_key acc);
  cl ← cl_BufferKey cl (chk_key acc);
  '(cl, _, values, keys) ← cl_BatchGet cl ∅ keys;
  bal1 ← balance_of values (chk_key acc);
  bal2 ← balance_of values (sav_key acc);
  '(cl, _) ← cl_Put cl (chk_key acc)
    (to_string (if amount <? add32 bal1 bal2 then sub32 (sub32 bal1 amount) 1 else sub32 bal1 amount));
  '(cl, ok) ← cl_Commit cl tss now;
  Done (cl, ok, keys).

(** The [switch] of [txnThread]: every amount is zero.  With another number the
    status that is printed is not initialised, which is [None]. *)
Definition txn_task (task : Task) cl : outcome (Client C * option bool * unverified) :=
  let some (m : outcome (Client C * bool * unverified)) :=
    '(cl, status, keys) ← m; Done (cl, Some status, keys) in
  match op task with
  | 1%Z => some (Amalgamate (acc1 task) (acc2 task) cl ∅)
  | 2%Z => some (GetBalance (acc1 task) cl ∅)
  | 3%Z => some (UpdateBalance (acc1 task) 0 cl ∅)
  | 4%Z => some (UpdateSaving (acc1 task) 0 cl ∅)
  | 5%Z => some (SendPayment (acc1 task) (acc2 task) 0 cl ∅)
  | 6%Z => some (WriteCheck (acc1 task) 0 cl ∅)
  | _ => Done (cl, None, ∅)
  end.
End SmallBank.

(** ** What a transaction writes *)

Section Writes.
Context `{TxnClient C}.
Implicit Types (cl : Client C) (b : BufferClient C).

(** The value the transaction has for a key, at the shard of the key. *)
Definition cl_write cl (k : bytes) : option bytes :=
  match Sharding.key_to_shard k (nshards cl) with
  | Done i => b ← bclient cl !! N.to_nat i; Transaction.writeSet (bc_txn b) !! k
  | Stop _ => None
  end.

Definition same_writes cl cl' : Prop := nshards cl' = nshards cl ∧ ∀ k, cl_write cl' k = cl_write cl k.
#[export] Instance same_writes_preorder : PreOrder same_writes.
Proof. split; [done|]. intros x y z [E1 E2] [E3 E4]. split; [congruence|]. intros k. by rewrite E4. Qed.

Lemma on_shard_writes {A} cl i (f : BufferClient C → outcome (BufferClient C * A)) cl' a :
  on_shard cl i f = Done (cl', a) →
  (∀ b b' a, f b = Done (b', a) → Transaction.writeSet (bc_txn b') = Transaction.writeSet (bc_txn b)) →
  same_writes cl cl'.
Proof.
  intros (b & b' & Hb & Hf & ->)%on_shard_inv Hw. split; [done|]. intros k. unfold cl_write. cbn.
  destruct (Sharding.key_to_shard k (nshards cl)) as [j|]; [|done].
  destruct (decide (N.to_nat i = N.to_nat j)) as [<-|Hne]; [|by rewrite list_lookup_insert_ne].
  rewrite list_lookup_insert_eq by (by eapply lookup_lt_Some). rewrite Hb. cbn. by rewrite (Hw _ _ _ Hf).
Qed.

Lemma on_shards_writes {A} shards cl (f : BufferClient C → outcome (BufferClient C * A)) cl' rs :
  on_shards cl shards f = Done (cl', rs) →
  (∀ b b' a, f b = Done (b', a) → Transaction.writeSet (bc_txn b') = Transaction.writeSet (bc_txn b)) →
  same_writes cl cl'.
Proof.
  intros Hon Hw. revert cl rs Hon. induction shards as [|i shards IH]; intros cl rs Hon; cbn [on_shards] in Hon.
  { by simplify_eq. }
  apply bind_Done_inv in Hon as ([cl1 a] & Hone & Hon). apply bind_Done_inv in Hon as ([cl2 rs'] & Hrest & E).
  simplify_eq. etrans; [by eapply on_shard_writes|by eapply IH].
Qed.

Lemma add_reads_writes t vals i p t' :
  add_reads t vals i p = Done t' → Transaction.writeSet t' = Transaction.writeSet t.
Proof.
  revert t i. induction vals as [|[k v] vals IH]; intros t i; cbn [add_reads]; [by intros [= <-]%Done_inj|].
  intros E. apply bind_Done_inv in E as (ts & _ & E). destruct ts as [ts|]; [|done]. by apply IH in E.
Qed.

Lemma bc_BatchGet_writes b p b' p' :
  bc_BatchGet b p = Done (b', p') → Transaction.writeSet (bc_txn b') = Transaction.writeSet (bc_txn b).
Proof.
  intros E. apply bind_Done_inv in E as ([c q] & _ & E). apply bind_Done_inv in E as (b1 & Hn & E). simplify_eq.
  apply bind_Done_inv in Hn as (r & _ & Hn). cbn. case_match; [|by simplify_eq].
  apply bind_Done_inv in Hn as (vals & _ & Hn). apply bind_Done_inv in Hn as (t & Ht & Hn). simplify_eq.
  by apply add_reads_writes in Ht.
Qed.

Lemma cl_BatchGet_writes cl vals keys cl' st vals' keys' :
  cl_BatchGet cl vals keys = Done (cl', st, vals', keys') → same_writes cl cl'.
Proof.
  intros E. apply bind_Done_inv in E as ([cl1 ps] & Hon & E).
  apply bind_Done_inv in E as ([[st1 v1] k1] & _ & E). simplify_eq.
  eapply on_shards_writes; [done|]. intros b b' p. apply bc_BatchGet_writes.
Qed.

Lemma cl_BufferKey_writes cl key cl' : cl_BufferKey cl key = Done cl' → same_writes cl cl'.
Proof.
  intros E. apply bind_Done_inv in E as (i & _ & E). apply bind_Done_inv in E as ([cl1 u] & Hon & E).
  simplify_eq. apply on_shard_writes in Hon; [|by intros b b' [] [= <-]%Done_inj]. exact Hon.
Qed.

Lemma cl_Begin_writes cl cl' : cl_Begin cl = Done cl' → ∀ k, cl_write cl' k = None.
Proof.
  intros E k. apply bind_Done_inv in E as ([cl1 rs] & Hon & E). simplify_eq.
  apply on_shards_inv in Hon as (Hrs & -> & Hin & _); [|apply NoDup_fmap; [apply _|apply NoDup_seq]].
  unfold cl_write. cbn [with_shards nshards bclient].
  destruct (Sharding.key_to_shard k (nshards cl)) as [i|] eqn:E0; [|done].
  assert (i < nshards cl) as Hi.
  { unfold Sharding.key_to_shard in E0. destruct (N.eqb_spec (nshards cl) 0); [done|].
    apply Done_inj in E0 as <-. by apply N.mod_lt. }
  assert (i ∈ rs.*1) as ((j & []) & -> & Hj)%list_elem_of_fmap.
  { rewrite Hrs. apply list_elem_of_fmap. exists (N.to_nat i). split; [lia|]. apply elem_of_seq.
    cbn [nshards]. lia. }
  apply Hin in Hj as (b & b' & _ & Hb & Hb'). cbn [fst with_shards bclient] in *. rewrite Hb'. cbn.
  apply bind_Done_inv in Hb as (b1 & Hb & E1). simplify_eq. apply bind_Done_inv in Hb as (c & _ & Hb).
  by simplify_eq.
Qed.

Lemma cl_Put_writes cl key v cl' r :
  cl_Put cl key v = Done (cl', r) →
  nshards cl' = nshards cl ∧ ∀ k, cl_write cl' k = if decide (k = key) then Some v else cl_write cl k.
Proof.
  intros E. apply bind_Done_inv in E as (i & Hi & E). apply bind_Done_inv in E as ([cl1 p] & Hon & E).
  apply bind_Done_inv in E as (r' & _ & E). simplify_eq.
  apply on_shard_inv in Hon as (b & b' & Hb & Hf & ->). simplify_eq. split; [done|]. intros k.
  unfold cl_write. cbn. case_decide as Hk.
  - subst. rewrite Hi. cbn. rewrite list_lookup_insert_eq by (by eapply lookup_lt_Some). cbn.
    apply lookup_insert_eq.
  - destruct (Sharding.key_to_shard k (nshards cl)) as [j|]; [|done].
    destruct (decide (N.to_nat i = N.to_nat j)) as [Ej|Hne]; [|by rewrite list_lookup_insert_ne].
    rewrite <-Ej, list_lookup_insert_eq by (by eapply lookup_lt_Some). cbn in Hb. rewrite Hb. cbn.
    by rewrite lookup_insert_ne.
Qed.
End Writes.

(** ** The writes of the transactions *)

Inductive bank_op :=
  | OpAmalgamate (a b : N)
  | OpUpdateBalance (a n : N)
  | OpUpdateSaving (a n : N)
  | OpSendPayment (a b n : N)
  | OpWriteCheck (a n : N).

Definition run_op `{TxnClient C} (tss : bytes) (now : TrueTime.timeval) (o : bank_op) (cl : Client C)
    (keys : unverified) : outcome (Client C * bool * unverified) :=
  match o with
  | OpAmalgamate a b => Amalgamate tss now a b cl keys
  | OpUpdateBalance a n => UpdateBalance tss now a n cl keys
  | OpUpdateSaving a n => UpdateSaving tss now a n cl keys
  | OpSendPayment a b n => SendPayment tss now a b n cl keys
  | OpWriteCheck a n => WriteCheck tss now a n cl keys
  end.

(** The accounts an operation reads, and what it writes in the order of the
    calls, from the balances [bal]. *)
Definition op_reads (o : bank_op) : list bytes :=
  match o with
  | OpAmalgamate a b => [sav_key a; chk_key b]
  | OpUpdateBalance a _ => [chk_key a]
  | OpUpdateSaving a _ => [sav_key a]
  | OpSendPayment a b _ => [chk_key a; chk_key b]
  | OpWriteCheck a _ => [sav_key a; chk_key a]
  end.
Definition op_writes (bal : bytes → N) (o : bank_op) : list (bytes * N) :=
  match o with
  | OpAmalgamate a b => [(chk_key a, 0); (sav_key b, add32 (bal (sav_key a)) (bal (chk_key b)))]
  | OpUpdateBalance a n => [(chk_key a, add32 (bal (chk_key a)) n)]
  | OpUpdateSaving a n => [(sav_key a, add32 (bal (sav_key a)) n)]
  | OpSendPayment a b n =>
      [(chk_key a, sub32 (bal (chk_key a)) n); (chk_key b, add32 (bal (chk_key b)) n)]
  | OpWriteCheck a n =>
      [(chk_key a, if n <? add32 (bal (chk_key a)) (bal (sav_key a))
                   then sub32 (sub32 (bal (chk_key a)) n) 1 else sub32 (bal (chk_key a)) n)]
  end.

(** The balances after writes. *)
Definition apply_writes (ws : list (bytes * N)) (bal : bytes → N) : bytes → N :=
  foldl (λ f w k, if decide (k = w.1) then w.2 else f k) bal ws.

Section Operations.
Context `{TxnClient C} (tss : bytes) (now : TrueTime.timeval).
Implicit Types cl : Client C.

(** The transaction of [cl] has the writes [ws] and no others. *)
Definition holds_writes cl (ws : list (bytes * N)) : Prop :=
  ∀ k, cl_write cl k = foldl (λ v w, if decide (k = w.1) then Some (to_string w.2) else v) None ws.

Lemma put_holds cl ws key n cl' r :
  holds_writes cl ws → cl_Put cl key (to_string n) = Done (cl', r) → holds_writes cl' (ws ++ [(key, n)]).
Proof. intros Hw [_ Hp]%cl_Put_writes k. rewrite Hp, Hw, foldl_app. done. Qed.

Fixpoint buffer_keys cl (ks : list bytes) : outcome (Client C) :=
  match ks with
  | [] => Done cl
  | k :: ks => cl ← cl_BufferKey cl k; buffer_keys cl ks
  end.

(** What the transaction reads: the answer of the [BatchGet] of the keys [ks] at
    its start has the balances [bal]. *)
Definition reads_balances cl (keys : unverified) (ks : list bytes) (bal : bytes → N) (keys' : unverified) : Prop :=
  ∃ clb cl0 cl1 status values,
    cl_Begin cl = Done clb ∧ buffer_keys clb ks = Done cl0 ∧
    cl_BatchGet cl0 ∅ keys = Done (cl1, status, values, keys') ∧
    Forall (λ k, balance_of values k = Done (bal k)) ks.

Lemma same_holds cl cl' ws : same_writes cl cl' → holds_writes cl ws → holds_writes cl' ws.
Proof. intros [_ Hs] Hw k. by rewrite Hs. Qed.
Lemma Begin_holds cl cl' : cl_Begin cl = Done cl' → holds_writes cl' [].
Proof. intros Hb k. by rewrite (cl_Begin_writes _ _ Hb). Qed.
Lemma BufferKey_holds cl key cl' ws : cl_BufferKey cl key = Done cl' → holds_writes cl ws → holds_writes cl' ws.
Proof. intros Hb. by eapply same_holds, cl_BufferKey_writes. Qed.
Lemma BatchGet_holds cl vals keys cl' st vals' keys' ws :
  cl_BatchGet cl vals keys = Done (cl', st, vals', keys') → holds_writes cl ws → holds_writes cl' ws.
Proof. intros Hb. by eapply same_holds, cl_BatchGet_writes. Qed.

(** The balances in the answer of a [BatchGet]. *)
Definition balances (values : gmap bytes bytes) (k : bytes) : N :=
  match balance_of values k with Done n => n | Stop _ => 0 end.
Lemma balances_eq values k n : balance_of values k = Done n → balances values k = n.
Proof. unfold balances. by intros ->. Qed.
#[local] Hint Resolve Begin_holds BufferKey_holds BatchGet_holds : bank.

(** Every transaction that returns has committed exactly the writes of its
    operation, computed from the balances that it read. *)
Lemma run_op_writes o cl keys cl' ok keys' :
  run_op tss now o cl keys = Done (cl', ok, keys') →
  ∃ bal cl1, reads_balances cl keys (op_reads o) bal keys' ∧ holds_writes cl1 (op_writes bal o) ∧
    cl_Commit cl1 tss now = Done (cl', ok).
Proof.
  destruct o; cbn [run_op op_reads op_writes]; intros E;
    unfold Amalgamate, UpdateBalance, UpdateSaving, SendPayment, WriteCheck in E.
  all: repeat match goal with
    | E : (_ ≫= _) = Done _ |- _ => apply bind_Done_inv in E as (? & ? & E)
    | x : (_ * _)%type |- _ => destruct x
    end; simplify_eq.
  all: match goal with Hg : cl_BatchGet _ _ _ = Done (?c, _, ?values, _) |- _ =>
    assert (holds_writes c []) by eauto 6 with bank; exists (balances values) end.
  all: repeat match goal with Hb : balance_of _ _ = Done _ |- _ =>
    let Hb' := fresh in pose proof (balances_eq _ _ _ Hb) as Hb'; rewrite Hb'; revert Hb end; intros.
  all: eexists; (split; [|split; [|eassumption]]).
  all: change #"0" with (to_string 0) in *.
  all: try (eexists _, _, _, _, _; split; [eassumption|]; split;
    [cbn [buffer_keys]; repeat match goal with Hk : cl_BufferKey _ _ = _ |- _ => rewrite Hk; clear Hk; cbn [mbind outcome_bind] end;
     reflexivity|]; split; [eassumption|]; repeat constructor; congruence).
  all: repeat match goal with
    | Hh : holds_writes ?c _, Hp : cl_Put ?c _ (to_string _) = Done _ |- _ =>
        apply (put_holds _ _ _ _ _ _ Hh) in Hp; clear Hh
    end; assumption.
Qed.
End Operations.

(** ** The money *)

(** The balances that a commit of [cl] leaves. *)
Definition committed `{TxnClient C} (bal : bytes → N) (cl : Client C) (k : bytes) : N :=
  match cl_write cl k with
  | Some v => match stoul v with Done n => n | Stop _ => 0 end
  | None => bal k
  end.

Definition money (bal : bytes → N) (ks : list bytes) : N := foldr (λ k m, bal k + m) 0 ks.

Lemma money_permutation bal ks ks' : ks ≡ₚ ks' → money bal ks = money bal ks'.
Proof. intros Hp. unfold money. induction Hp; cbn; lia. Qed.
Lemma money_ext bal bal' ks : (∀ k, k ∈ ks → bal k = bal' k) → money bal ks = money bal' ks.
Proof.
  unfold money. induction ks as [|k ks IH]; intros Hb; [done|]. cbn.
  rewrite (Hb k) by (by left). rewrite IH; [done|]. intros k' Hk. apply Hb. by right.
Qed.

Lemma apply_writes_lookup ws bal k :
  apply_writes ws bal k = foldl (λ v w, if decide (k = w.1) then w.2 else v) (bal k) ws.
Proof.
  unfold apply_writes. revert bal. induction ws as [|w ws IH]; intros bal; [done|]. cbn. by rewrite IH.
Qed.

Lemma committed_writes `{TxnClient C} (cl : Client C) ws bal k :
  holds_writes cl ws → Forall (λ w, w.2 < 2 ^ 64) ws → committed bal cl k = apply_writes ws bal k.
Proof.
  intros Hw Hws. rewrite apply_writes_lookup. unfold committed. rewrite Hw. clear Hw.
  induction ws as [|w ws IH] using rev_ind; [done|]. rewrite !foldl_app. cbn.
  apply Forall_app in Hws as [Hws Hlt]. case_decide; [|by apply IH].
  rewrite stoul_to_string; [done|]. by inversion_clear Hlt.
Qed.

Lemma u32_bound n : u32 n < 2 ^ 64.
Proof. unfold u32. pose proof (N.mod_lt n (2 ^ 32)). lia. Qed.

Lemma op_writes_bound bal o : Forall (λ w, w.2 < 2 ^ 64) (op_writes bal o).
Proof.
  destruct o; cbn; repeat constructor; cbn; unfold add32, sub32; try case_match;
    first [apply u32_bound | lia].
Qed.

Lemma chk_key_inj a b : chk_key a = chk_key b → a = b.
Proof. intros E%app_inv_head. by apply to_string_inj. Qed.
Lemma sav_key_inj a b : sav_key a = sav_key b → a = b.
Proof. intros E%app_inv_head. by apply to_string_inj. Qed.
Lemma sav_chk_key a b : sav_key a ≠ chk_key b.
Proof. intros E. discriminate E. Qed.

Lemma reads_small `{TxnClient C} (cl : Client C) keys ks bal keys' k :
  reads_balances cl keys ks bal keys' → k ∈ ks → bal k < 2 ^ 32.
Proof.
  intros (clb & cl0 & cl1 & st & values & _ & _ & _ & Hf) Hk. rewrite Forall_forall in Hf. apply Hf in Hk.
  apply bind_Done_inv in Hk as (x & _ & E). apply Done_inj in E as <-. by apply N.mod_lt.
Qed.

Lemma add32_small a b : a + b < 2 ^ 32 → add32 a b = a + b.
Proof. apply u32_small. Qed.
Lemma sub32_small a b : a < 2 ^ 32 → b <= a → sub32 a b = a - b.
Proof.
  intros Ha Hb. unfold sub32, u32. replace (a + 2 ^ 32 - b) with (a - b + 1 * 2 ^ 32) by lia.
  rewrite N.Div0.mod_add. apply N.mod_small. lia.
Qed.

(** The balances that a transaction leaves, from those that it read. *)
Lemma run_op_committed `{TxnClient C} tss now o (cl : Client C) keys cl' ok keys' :
  run_op tss now o cl keys = Done (cl', ok, keys') →
  ∃ bal cl1, reads_balances cl keys (op_reads o) bal keys' ∧ cl_Commit cl1 tss now = Done (cl', ok) ∧
    ∀ k, committed bal cl1 k = apply_writes (op_writes bal o) bal k.
Proof.
  intros Hr. destruct (run_op_writes tss now _ _ _ _ _ _ Hr) as (bal & cl1 & Hb & Hw & Hc).
  exists bal, cl1. do 2 (split; [done|]). intros k.
  by apply (committed_writes cl1 (op_writes bal o)), op_writes_bound.
Qed.

(** Two keys of a list, taken out of the sum. *)
Lemma money_two (ks : list bytes) (k1 k2 : bytes) :
  k1 ≠ k2 → NoDup ks → k1 ∈ ks → k2 ∈ ks →
  ∃ rest, (k1 ∉ rest ∧ k2 ∉ rest) ∧ ∀ f, money f ks = f k1 + f k2 + money f rest.
Proof.
  intros Hne Hnd H1 H2. apply elem_of_Permutation in H1 as [ks1 Hp1].
  rewrite Hp1 in H2, Hnd. apply NoDup_cons in Hnd as [Hn1 Hnd].
  apply elem_of_cons in H2 as [?|H2]; [done|]. apply elem_of_Permutation in H2 as [rest Hp2].
  rewrite Hp2 in Hn1, Hnd. apply NoDup_cons in Hnd as [Hn2 _]. exists rest. split; [set_solver|].
  intros f. rewrite (money_permutation _ _ _ Hp1). cbn. fold (money f ks1).
  rewrite (money_permutation _ _ _ Hp2). cbn. fold (money f rest). lia.
Qed.

(** C37.  A payment between two customers conserves the money: when the payer has
    the amount and the balance of the payee has room for it, the balances the
    transaction commits add up to those it read, over any set of accounts. *)
Theorem payment_conserves `{TxnClient C} tss now a b n (cl : Client C) keys cl' ok keys' :
  a ≠ b → SendPayment tss now a b n cl keys = Done (cl', ok, keys') →
  ∃ bal cl1, reads_balances cl keys [chk_key a; chk_key b] bal keys' ∧
    cl_Commit cl1 tss now = Done (cl', ok) ∧
    (n <= bal (chk_key a) → bal (chk_key b) + n < 2 ^ 32 →
     committed bal cl1 (chk_key a) = bal (chk_key a) - n ∧
     committed bal cl1 (chk_key b) = bal (chk_key b) + n ∧
     ∀ ks, NoDup ks → chk_key a ∈ ks → chk_key b ∈ ks → money (committed bal cl1) ks = money bal ks).
Proof.
  intros Hab Hr. destruct (run_op_committed tss now (OpSendPayment a b n) cl keys cl' ok keys' Hr)
    as (bal & cl1 & Hb & Hc & Hk).
  exists bal, cl1. do 2 (split; [done|]). intros Hn Hroom.
  assert (chk_key a ≠ chk_key b) as Hne by (by intros ?%chk_key_inj).
  assert (committed bal cl1 (chk_key a) = bal (chk_key a) - n) as Ha.
  { rewrite Hk. cbn. repeat case_decide; try done.
    apply sub32_small; [|done]. eapply reads_small; [done|]. by left. }
  assert (committed bal cl1 (chk_key b) = bal (chk_key b) + n) as Hb'.
  { rewrite Hk. cbn. repeat case_decide; try done. by apply add32_small. }
  do 2 (split; [done|]). intros ks Hnd H1 H2.
  destruct (money_two ks _ _ Hne Hnd H1 H2) as (rest & [Hn1 Hn2] & Hm). rewrite !Hm, Ha, Hb'.
  rewrite (money_ext (committed bal cl1) bal rest); [lia|]. intros k Hin. rewrite Hk. cbn.
  repeat case_decide; by subst.
Qed.

(** Three ways in which the program does not keep the money.  [Amalgamate] reads
    the savings of the first customer and empties its checking account, and adds to
    the savings of the second what it read of its checking account. *)
Theorem Amalgamate_money `{TxnClient C} tss now a b (cl : Client C) keys cl' ok keys' :
  a ≠ b → Amalgamate tss now a b cl keys = Done (cl', ok, keys') →
  ∃ bal cl1, reads_balances cl keys [sav_key a; chk_key b] bal keys' ∧
    cl_Commit cl1 tss now = Done (cl', ok) ∧
    (bal (sav_key a) + bal (chk_key b) < 2 ^ 32 →
     committed bal cl1 (chk_key a) = 0 ∧ committed bal cl1 (sav_key a) = bal (sav_key a) ∧
     committed bal cl1 (sav_key b) = bal (sav_key a) + bal (chk_key b) ∧
     committed bal cl1 (chk_key b) = bal (chk_key b)).
Proof.
  intros Hab Hr. destruct (run_op_committed tss now (OpAmalgamate a b) cl keys cl' ok keys' Hr)
    as (bal & cl1 & Hb & Hc & Hk).
  exists bal, cl1. do 2 (split; [done|]). intros Hroom. rewrite !Hk.
  unfold apply_writes. cbn [op_writes foldl fst snd].
  assert (sav_key a ≠ sav_key b) by (by intros ?%sav_key_inj).
  assert (chk_key a ≠ chk_key b) by (by intros ?%chk_key_inj).
  pose proof (sav_chk_key a a). pose proof (sav_chk_key b a). pose proof (sav_chk_key b b).
  pose proof (add32_small _ _ Hroom). repeat split; repeat case_decide; congruence.
Qed.

(** A customer that pays itself gains the amount. *)
Theorem payment_to_self `{TxnClient C} tss now a n (cl : Client C) keys cl' ok keys' :
  SendPayment tss now a a n cl keys = Done (cl', ok, keys') →
  ∃ bal cl1, reads_balances cl keys [chk_key a; chk_key a] bal keys' ∧
    cl_Commit cl1 tss now = Done (cl', ok) ∧
    (bal (chk_key a) + n < 2 ^ 32 → committed bal cl1 (chk_key a) = bal (chk_key a) + n).
Proof.
  intros Hr. destruct (run_op_committed tss now (OpSendPayment a a n) cl keys cl' ok keys' Hr)
    as (bal & cl1 & Hb & Hc & Hk).
  exists bal, cl1. do 2 (split; [done|]). intros Hroom. rewrite Hk. unfold apply_writes. cbn [op_writes foldl fst snd].
  case_decide; [|done]. by apply add32_small.
Qed.

(** The fee for a check without funds is taken of the checks with funds. *)
Theorem check_fee `{TxnClient C} tss now a n (cl : Client C) keys cl' ok keys' :
  WriteCheck tss now a n cl keys = Done (cl', ok, keys') →
  ∃ bal cl1, reads_balances cl keys [sav_key a; chk_key a] bal keys' ∧
    cl_Commit cl1 tss now = Done (cl', ok) ∧
    (bal (chk_key a) + bal (sav_key a) < 2 ^ 32 →
     (n < bal (chk_key a) → committed bal cl1 (chk_key a) = bal (chk_key a) - n - 1) ∧
     (bal (chk_key a) + bal (sav_key a) <= n →
        committed bal cl1 (chk_key a) = sub32 (bal (chk_key a)) n)).
Proof.
  intros Hr. destruct (run_op_committed tss now (OpWriteCheck a n) cl keys cl' ok keys' Hr)
    as (bal & cl1 & Hb & Hc & Hk).
  exists bal, cl1. do 2 (split; [done|]). intros Hroom. rewrite Hk. unfold apply_writes. cbn [op_writes foldl fst snd].
  rewrite decide_True by done. rewrite (add32_small _ _ Hroom).
  assert (bal (chk_key a) < 2 ^ 32) as Hs by (eapply reads_small; [done|right; by left]).
  split; intros Hn.
  - rewrite (proj2 (N.ltb_lt _ _)) by lia. rewrite (sub32_small _ n) by lia. apply sub32_small; lia.
  - by rewrite (proj2 (N.ltb_ge _ _)).
Qed.

(** ** A bank with one shard *)

(** A shard that keeps the balances; it prepares everything. *)
Record vault := mkVault { accounts : gmap bytes bytes }.
#[export] Instance vault_client : TxnClient vault := {|
  tc_Begin c id := Done c;
  tc_BatchGet c id keys p :=
    Done (c, Promise.Reply_values p REPLY_OK ((λ _, Timestamp.default) <$> keys)
               (list_to_map (omap (λ k, pair k <$> accounts c !! k) keys)) [] []);
  tc_GetRange c id a b p := Done (c, Promise.Reply p REPLY_OK);
  tc_GetProof c block keys p := Done (c, p, false);
  tc_Audit c seq p := Done (c, p, false);
  tc_Prepare c id txn ts p := Done (c, Promise.Reply p REPLY_OK);
  tc_Commit c id txn vers ts p := Done (mkVault (Transaction.writeSet txn ∪ accounts c), p);
  tc_Abort c id txn p := Done (c, p);
|}.

Definition small_bank : Client vault :=
  mkClient 7 1 [] [mkBufferClient
    (mkVault (<[chk_key 1 := #"100"]> (<[chk_key 2 := #"5"]> ∅))) Transaction.empty [] 7 []]
    MODE_SPAN_OCC (TrueTime.mk 0 0) 0.

(** The balances of the shard after 30 is sent from the first customer to the second. *)
Definition small_payment : outcome (Client vault * bool * unverified) :=
  SendPayment [] (TrueTime.mkTimeval 0 35) 1 2 30 small_bank ∅.
Definition small_balances (cl : Client vault) : list (option bytes) :=
  b ← bclient cl; (λ a, accounts (txnclient b) !! chk_key a) <$> [1; 2].

Lemma small_payment_paid :
  match small_payment with
  | Done (cl', ok, _) => ok = true ∧ small_balances cl' = [Some #"70"; Some #"35"]
  | Stop _ => False
  end.
Proof. vm_compute. split; reflexivity. Qed.

Lemma payment_conserves_witness :
  ∃ cl' keys' bal cl1, small_payment = Done (cl', true, keys') ∧
    small_balances cl' = [Some #"70"; Some #"35"] ∧
    cl_Commit cl1 [] (TrueTime.mkTimeval 0 35) = Done (cl', true) ∧
    (30 <= bal (chk_key 1) → bal (chk_key 2) + 30 < 2 ^ 32 →
     committed bal cl1 (chk_key 1) = bal (chk_key 1) - 30).
Proof.
  pose proof small_payment_paid as Hp.
  destruct small_payment as [[[cl' ok] keys']|] eqn:Hr; [|destruct Hp]. destruct Hp as [-> Hp].
  destruct (payment_conserves [] (TrueTime.mkTimeval 0 35) 1 2 30 small_bank ∅ cl' true keys')
    as (bal & cl1 & _ & Hc & Hm); [discriminate|exact Hr|].
  exists cl', keys', bal, cl1. split; [reflexivity|]. split; [exact Hp|]. split; [exact Hc|].
  intros H1 H2. apply (Hm H1 H2).
Defined.
