(* ===== verification/VRClient.v ===== *)
(** * [distributed/replication/vr/client.cc]: the client of a replica group

    A client gives every request a number, keeps it pending until a reply with
    that number comes and then calls its continuation.  Continuations are
    values; calling one is an output.  A request is sent again whenever its timer
    fires; a request that need not be ordered goes to one replica and is given
    up when its timer fires. *)

From S2P Require Import Prelude Cpp Config VRLog VRReplica VRSafety.

Open Scope N_scope.

Inductive ErrorCode := TIMEOUT | MISMATCHED_CONSENSUS_VIEWS.

(** [PendingRequest], and [PendingUnloggedRequest] when there is an error
    continuation, which may be null. *)
Record PendingRequest (K E : Type) := mkPending {
  pr_request : bytes;
  pr_clientReqId : N;
  pr_continuation : K;
  pr_error : option (option E);
}.
Arguments mkPending {K E} _ _ _ _.
Arguments pr_request {K E} _.
Arguments pr_clientReqId {K E} _.
Arguments pr_continuation {K E} _.
Arguments pr_error {K E} _.

(** The timers that are active, by the number of their request. *)
Record VRClient (K E : Type) := mkVRClient {
  clientid : N;
  lastReqId : N;
  pendingReqs : gmap N (PendingRequest K E);
  active : gset N;
}.
Arguments mkVRClient {K E} _ _ _ _.
Arguments clientid {K E} _.
Arguments lastReqId {K E} _.
Arguments pendingReqs {K E} _.
Arguments active {K E} _.

(** What a method does to the outside. *)
Inductive effect (K E : Type) :=
  | Send (o : output)
  | Continue (k : K) (request reply : bytes)
  | Error (e : E) (request : bytes) (err : ErrorCode).
Arguments Send {K E} _.
Arguments Continue {K E} _ _ _.
Arguments Error {K E} _ _ _.

(** [ErrorCodeToString] *)
Definition ErrorCodeToString (err : ErrorCode) : bytes :=
  match err with
  | TIMEOUT => #"TIMEOUT"
  | MISMATCHED_CONSENSUS_VIEWS => #"MISMATCHED_CONSENSUS_VIEWS"
  end.

Section VRClient.
Context {K E : Type}.
Implicit Types c : VRClient K E.

(** The constructors; [draws] are the numbers the generator gives for an
identifier that is zero. *)
Fixpoint draw_id (draws : list N) (id : N) : outcome N :=
match draws with
| [] => if id =? 0 then Stop OutOfFuel else Done id
| x :: draws => if id =? 0 then draw_id draws x else Done id
end.
Definition create_vrclient (draws : list N) (id : N) : outcome (VRClient K E) :=
id ← draw_id draws id; Done (mkVRClient id 0 ∅ ∅).

Definition set_pending c (p : gmap N (PendingRequest K E)) (t : gset N) : VRClient K E :=
mkVRClient (clientid c) (lastReqId c) p t.

(** [SendRequest]; [sent] is the answer of the transport. *)
Definition SendRequest c (req : PendingRequest K E) (sent : bool) : VRClient K E * list (effect K E) :=
let id := pr_clientReqId req in
if sent then
  (set_pending c (pendingReqs c) ({[id]} ∪ active c),
   [Send (ToAll (MRequest (mkRequest (pr_request req) (clientid c) id)))])
else (set_pending c (delete id (pendingReqs c)) (active c ∖ {[id]}), []).

Definition vc_Invoke c (request : bytes) (k : K) (sent : bool) : VRClient K E * list (effect K E) :=
let reqId := u64 (lastReqId c + 1) in
let req := mkPending request reqId k None in
SendRequest (mkVRClient (clientid c) reqId (<[reqId := req]> (pendingReqs c)) (active c)) req sent.

Definition vc_InvokeUnlogged c (replicaIdx : Z) (request : bytes) (k : K) (e : option E) (sent : bool)
  : VRClient K E * list (effect K E) :=
let reqId := u64 (lastReqId c + 1) in
if sent then
  (mkVRClient (clientid c) reqId (<[reqId := mkPending request reqId k (Some e)]> (pendingReqs c))
     ({[reqId]} ∪ active c),
   [Send (ToReplica replicaIdx (MUnloggedRequest (mkRequest request (clientid c) reqId)))])
else (mkVRClient (clientid c) reqId (pendingReqs c) (active c), []).

Definition ResendRequest c (reqId : N) (sent : bool) : VRClient K E * list (effect K E) :=
match pendingReqs c !! reqId with
| None => (c, [])
| Some req => SendRequest c req sent
end.

(** [HandleReply] and [HandleUnloggedReply] have the same body. *)
Definition finish c (reqId : N) (reply : bytes) : VRClient K E * list (effect K E) :=
match pendingReqs c !! reqId with
| None => (c, [])
| Some req =>
    (set_pending c (delete reqId (pendingReqs c)) (active c ∖ {[reqId]}),
     [Continue (pr_continuation req) (pr_request req) reply])
end.
Definition HandleReply c (msg : ReplyMessage) : VRClient K E * list (effect K E) :=
finish c (rp_clientreqid msg) (rp_reply msg).
Definition HandleUnloggedReply c (msg : UnloggedReplyMessage) : VRClient K E * list (effect K E) :=
finish c (ur_clientreqid msg) (ur_reply msg).

(** The cast to [PendingUnloggedRequest *] is good for an unlogged request only. *)
Definition UnloggedRequestTimeoutCallback c (reqId : N) : outcome (VRClient K E * list (effect K E)) :=
match pendingReqs c !! reqId with
| None => Done (c, [])
| Some req =>
    match pr_error req with
    | None => Stop Undefined
    | Some e =>
        Done (set_pending c (delete reqId (pendingReqs c)) (active c ∖ {[reqId]}),
              match e with Some e => [Error e (pr_request req) TIMEOUT] | None => [] end)
    end
end.

(** [ReceiveMessage]: another message is a [Panic]. *)
Definition vc_ReceiveMessage c (m : message) : outcome (VRClient K E * list (effect K E)) :=
match m with
| MReply reply => Done (HandleReply c reply)
| MUnloggedReply reply => Done (HandleUnloggedReply c reply)
| _ => Stop Panicked
end.

(** A timer that fires calls what it was made for. *)
Definition fire_timer c (reqId : N) (sent : bool) : outcome (VRClient K E * list (effect K E)) :=
match pendingReqs c !! reqId with
| Some (mkPending _ _ _ (Some _)) => UnloggedRequestTimeoutCallback c reqId
| _ => Done (ResendRequest c reqId sent)
end.

(** ** Runs *)

Inductive call :=
  | CInvoke (request : bytes) (k : K) (sent : bool)
  | CInvokeUnlogged (replicaIdx : Z) (request : bytes) (k : K) (e : option E) (sent : bool)
  | CReceive (m : message)
  | CTimer (reqId : N) (sent : bool).

Definition perform c (e : call) : outcome (VRClient K E * list (effect K E)) :=
match e with
| CInvoke request k sent => Done (vc_Invoke c request k sent)
| CInvokeUnlogged idx request k e sent => Done (vc_InvokeUnlogged c idx request k e sent)
| CReceive m => vc_ReceiveMessage c m
| CTimer reqId sent => if decide (reqId ∈ active c) then fire_timer c reqId sent else Done (c, [])
end.

Fixpoint run_client c (es : list call) : outcome (VRClient K E * list (effect K E)) :=
match es with
| [] => Done (c, [])
| e :: es =>
    '(c, o) ← perform c e;
    '(c, o') ← run_client c es;
    Done (c, o ++ o')
end.
End VRClient.

(** ** Every continuation is called at most once *)

Section Accounting.
Context {K E : Type}.
Implicit Types (c : VRClient K E) (e : @call K E).

Definition pending_call (p : PendingRequest K E) : bytes * K := (pr_request p, pr_continuation p).
Definition pending_calls c : list (bytes * K) := (pending_call ∘ snd) <$> map_to_list (pendingReqs c).
Definition asked e : list (bytes * K) :=
  match e with
  | CInvoke request k _ | CInvokeUnlogged _ request k _ _ => [(request, k)]
  | _ => []
  end.
Definition called (o : effect K E) : list (bytes * K) :=
  match o with Continue k request _ => [(request, k)] | _ => [] end.
(** An ordered request, or another event, on a transport that accepts what it is
    given. *)
Definition reliable e : Prop :=
  match e with
  | CInvoke _ _ sent | CTimer _ sent => sent = true
  | CInvokeUnlogged _ _ _ _ _ => False
  | CReceive _ => True
  end.

Record client_ok c : Prop := {
  ck_number : ∀ id p, pendingReqs c !! id = Some p → pr_clientReqId p = id ∧ id <= lastReqId c;
  ck_last : lastReqId c < 2 ^ 64;
}.
Definition ordered c : Prop := ∀ id p, pendingReqs c !! id = Some p → pr_error p = None.

Lemma pending_calls_insert c id p :
  pendingReqs c !! id = None →
  pending_call p :: pending_calls c ≡ₚ
    (pending_call ∘ snd) <$> map_to_list (<[id := p]> (pendingReqs c)).
Proof. intros Hn. by rewrite map_to_list_insert. Qed.

Lemma pending_calls_delete c id p :
  pendingReqs c !! id = Some p →
  pending_calls c ≡ₚ
    pending_call p :: ((pending_call ∘ snd) <$> map_to_list (delete id (pendingReqs c))).
Proof.
  intros Hp. unfold pending_calls.
  etrans; [apply fmap_Permutation; symmetry; exact (map_to_list_delete _ id p Hp)|done].
Qed.

(** What one event does to the calls that wait: [given_up] is dropped. *)
Definition accounts c e c' (o : list (effect K E)) : Prop :=
  client_ok c' ∧ lastReqId c' = lastReqId c + N.of_nat (length (asked e)) ∧
  ∃ given_up, asked e ++ pending_calls c ≡ₚ (o ≫= called) ++ given_up ++ pending_calls c' ∧
    (reliable e → ordered c → given_up = [] ∧ ordered c').

Lemma accounts_delete c id p e o t :
  client_ok c → pendingReqs c !! id = Some p → asked e = [] →
  (o ≫= called = [] ∧ ¬ (reliable e ∧ ordered c) ∨ o ≫= called = [pending_call p]) →
  accounts c e (set_pending c (delete id (pendingReqs c)) t) o.
Proof.
  intros [Hn Hl] Hp He Ho. split; [split; [|done]|split].
  - cbn. intros i q [_ Hq]%lookup_delete_Some. by apply Hn.
  - rewrite He. cbn. lia.
  - rewrite He. cbn [app]. pose proof (pending_calls_delete c id p Hp) as Hd.
    destruct Ho as [[-> Hnr]| ->].
    + exists [pending_call p]. split; [exact Hd|]. intros Hr Hor. by destruct Hnr.
    + exists []. split; [exact Hd|]. intros _ Hor. split; [done|].
      intros i q. cbn. intros [_ Hq]%lookup_delete_Some. by eapply Hor.
Qed.

Lemma accounts_same c e t : client_ok c → asked e = [] → accounts c e (set_pending c (pendingReqs c) t) [].
Proof.
  intros [Hn Hl] He. split; [by split|]. rewrite He. split; [cbn; lia|]. by exists [].
Qed.

Lemma accounts_insert c e request k err t (o : list (effect K E)) :
  client_ok c → lastReqId c + 1 < 2 ^ 64 → asked e = [(request, k)] → o ≫= called = [] →
  (reliable e → err = None) →
  let reqId := lastReqId c + 1 in
  accounts c e (mkVRClient (clientid c) reqId
    (<[reqId := mkPending request reqId k err]> (pendingReqs c)) t) o.
Proof.
  intros [Hn Hl] Hb He Ho Herr reqId.
  assert (pendingReqs c !! reqId = None) as Hf.
  { destruct (pendingReqs c !! reqId) as [p|] eqn:Ep; [|done]. apply Hn in Ep as [_ ?]. lia. }
  split; [split; [|done]|split].
  - cbn. intros i p [[<- <-]|[_ Hi]]%lookup_insert_Some; cbn; [done|]. apply Hn in Hi. lia.
  - rewrite He. cbn. done.
  - exists []. rewrite He, Ho. cbn [app]. split.
    + unfold pending_calls at 2. cbn [pendingReqs]. by rewrite <-pending_calls_insert.
    + intros Hr Hor. split; [done|].
      intros i p. cbn. intros [[<- <-]|[_ Hi]]%lookup_insert_Some; cbn; [by apply Herr|by eapply Hor].
Qed.

(** [SendRequest] of a request that is pending. *)
Lemma SendRequest_accounts c e req sent c' o :
  client_ok c → asked e = [] → pendingReqs c !! pr_clientReqId req = Some req →
  (reliable e → sent = true) →
  SendRequest c req sent = (c', o) → accounts c e c' o.
Proof.
  intros Hok He Hp Hs. unfold SendRequest. destruct sent; intros [= <- <-].
  - by apply (accounts_same c e).
  - eapply accounts_delete; eauto. left. split; [done|]. intros [Hr _]. by apply Hs in Hr.
Qed.

Lemma finish_accounts c e id reply c' o :
  client_ok c → asked e = [] → finish c id reply = (c', o) → accounts c e c' o.
Proof.
  intros Hok He. unfold finish. destruct (pendingReqs c !! id) as [req|] eqn:Ep; intros [= <- <-].
  - eapply accounts_delete; eauto.
  - destruct c. by apply (accounts_same (mkVRClient _ _ _ _)).
Qed.

(** A request that the transport does not take is forgotten. *)
Lemma accounts_unsent c e request k t :
  client_ok c → lastReqId c + 1 < 2 ^ 64 → asked e = [(request, k)] → ¬ reliable e →
  accounts c e (mkVRClient (clientid c) (lastReqId c + 1) (pendingReqs c) t) [].
Proof.
  intros [Hn Hl] Hb He Hr. split; [split; [|done]|split].
  - cbn. intros i p Hi%Hn. lia.
  - by rewrite He.
  - exists [(request, k)]. rewrite He. done.
Qed.

Lemma perform_accounts c e c' o :
  client_ok c → lastReqId c + N.of_nat (length (asked e)) < 2 ^ 64 →
  perform c e = Done (c', o) → accounts c e c' o.
Proof.
  intros Hok Hb Hp. pose proof Hok as [Hn _]. destruct e as [request k sent|idx request k err sent|m|id sent].
  - cbn [perform] in Hp. apply Done_inj in Hp. cbn in Hb. unfold vc_Invoke in Hp.
    rewrite u64_small in Hp by lia. unfold SendRequest in Hp.
    cbn [pr_clientReqId clientid lastReqId pendingReqs active set_pending] in Hp.
    destruct sent; injection Hp as <- <-.
    + unfold set_pending. apply (accounts_insert c (CInvoke request k true)); [done|lia|done|done|done].
    + unfold set_pending. cbn [clientid lastReqId]. rewrite delete_insert_eq, delete_id.
      * refine (accounts_unsent c (CInvoke request k false) request k _ Hok _ eq_refl _); [lia|]. cbn. done.
      * destruct (pendingReqs c !! _) as [p|] eqn:Ep; [|done]. apply Hn in Ep as [_ ?]. lia.
  - cbn [perform] in Hp. apply Done_inj in Hp. cbn in Hb. unfold vc_InvokeUnlogged in Hp.
    rewrite u64_small in Hp by lia. destruct sent; injection Hp as <- <-.
    + apply (accounts_insert c (CInvokeUnlogged idx request k err true)); [done|lia|done|done|by intros []].
    + refine (accounts_unsent c (CInvokeUnlogged idx request k err false) request k _ Hok _ eq_refl _); [lia|by intros []].
  - cbn [perform] in Hp. destruct m; cbn [vc_ReceiveMessage] in Hp; try discriminate Hp;
      apply Done_inj in Hp; by eapply finish_accounts.
  - cbn [perform] in Hp. destruct (decide (id ∈ active c)); [|injection Hp as <- <-; destruct c;
      by apply (accounts_same (mkVRClient _ _ _ _))].
    unfold fire_timer in Hp. destruct (pendingReqs c !! id) as [[request i k [err|]]|] eqn:Ep.
    + unfold UnloggedRequestTimeoutCallback in Hp. rewrite Ep in Hp. cbn in Hp.
      apply Done_inj in Hp. injection Hp as <- <-. eapply accounts_delete; eauto.
      left. split; [by destruct err|]. intros [_ Hor]. by apply Hor in Ep.
    + apply Done_inj in Hp. unfold ResendRequest in Hp. rewrite Ep in Hp.
      eapply SendRequest_accounts; eauto. destruct (Hn _ _ Ep) as [Hi _]. cbn in *. by subst i.
    + apply Done_inj in Hp. unfold ResendRequest in Hp. rewrite Ep in Hp. injection Hp as <- <-.
      destruct c. by apply (accounts_same (mkVRClient _ _ _ _)).
Qed.

Lemma run_client_accounts es c c' o :
  client_ok c → lastReqId c + N.of_nat (length (es ≫= asked)) < 2 ^ 64 →
  run_client c es = Done (c', o) → client_ok c' ∧
  ∃ given_up, (es ≫= asked) ++ pending_calls c ≡ₚ (o ≫= called) ++ given_up ++ pending_calls c' ∧
    (Forall reliable es → ordered c → given_up = [] ∧ ordered c').
Proof.
  revert c o. induction es as [|e es IH]; intros c o Hok Hb Hrun.
  { injection Hrun as <- <-. split; [done|]. by exists []. }
  cbn [run_client] in Hrun. cbn [mbind list_bind] in Hb. rewrite length_app in Hb.
  apply bind_Done_inv in Hrun as ([c1 o1] & H1 & Hrun).
  apply bind_Done_inv in Hrun as ([c2 o2] & H2 & Hrun). injection Hrun as <- <-.
  destruct (perform_accounts c e c1 o1 Hok ltac:(lia) H1) as (Hok1 & Hl1 & g1 & P1 & R1).
  change (length (mbind asked es)) with (length (es ≫= asked)) in Hb.
  destruct (IH c1 o2 Hok1 ltac:(lia) H2) as (Hok2 & g2 & P2 & R2).
  split; [done|]. exists (g1 ++ g2). split.
  - cbn [mbind list_bind]. rewrite bind_app, <-app_assoc.
    change (list_bind _ _ asked es) with (es ≫= asked).
    assert (asked e ++ (es ≫= asked) ++ pending_calls c ≡ₚ
      (o1 ≫= called) ++ g1 ++ (es ≫= asked) ++ pending_calls c1) as -> by (rewrite (Permutation_app_comm (es ≫= asked) (pending_calls c)), app_assoc, P1; solve_Permutation).
    rewrite P2. solve_Permutation.
  - intros [Hr Hrs]%Forall_cons Hor. destruct (R1 Hr Hor) as [-> Ho1].
    by destruct (R2 Hrs Ho1) as [-> Ho2].
Qed.
End Accounting.

Lemma client_ok_create {K E} id : client_ok (mkVRClient (K := K) (E := E) id 0 ∅ ∅).
Proof. split; [|cbn; lia]. cbn. intros i p Hp. by rewrite lookup_empty in Hp. Qed.

(** C38.  A client calls every continuation at most once, for its own request:
    the requests that were invoked are those that were answered, those that
    were given up and those that wait, each once.  The continuations are those for
    replies; those for errors are not counted.  On a transport that accepts every
    message an ordered request is never given up. *)
Theorem client_calls_once {K E} draws id (c0 : VRClient K E) es c' o :
  create_vrclient draws id = Done c0 → N.of_nat (length (es ≫= asked)) < 2 ^ 64 →
  run_client c0 es = Done (c', o) →
  ∃ given_up, es ≫= asked ≡ₚ (o ≫= called) ++ given_up ++ pending_calls c' ∧
    (Forall reliable es → given_up = []).
Proof.
  intros Hc Hb Hrun. apply bind_Done_inv in Hc as (i & _ & [= <-]).
  destruct (run_client_accounts es _ _ _ (client_ok_create i) Hb Hrun)
    as (_ & g & P & R).
  exists g. unfold pending_calls at 1 in P. cbn in P. rewrite app_nil_r in P. split; [exact P|].
  intros Hr. by apply R.
Qed.

(** ** A client and a leader *)

Section EndToEnd.
Context `{Sha1, AppReplica A} {K E : Type}.

(** [n] copies of a message delivered to a replica. *)
Fixpoint redeliver (n : nat) (remote : address) (req : Request) : VR (A := A) unit :=
  match n with
  | O => mret tt
  | S n => HandleRequest remote req;; redeliver n remote req
  end.

Lemma redeliver_again n remote req (r : @VRReplica A) reply :
  answered r req reply → ∃ r',
    redeliver n remote req r = Done (tt, r', replicate n (ToAddress remote (MReply reply))) ∧ app r' = app r.
Proof.
  revert r. induction n as [|n IH]; intros r Ha; [by exists r|].
  destruct (HandleRequest_again r remote req reply Ha) as (r2 & H2' & Ha2 & Happ & _).
  destruct (IH r2 Ha2) as (r3 & H3' & Happ3). exists r3. split; [|congruence].
  cbn [redeliver]. unfold mbind, vr_bind. rewrite H2', H3'. done.
Qed.

Lemma resends n (c : VRClient K E) id request k :
  pendingReqs c !! id = Some (mkPending request id k None) → id ∈ active c →
  ∃ c', run_client c (replicate n (CTimer id true)) =
      Done (c', replicate n (Send (ToAll (MRequest (mkRequest request (clientid c) id))))) ∧
    pendingReqs c' = pendingReqs c ∧ clientid c' = clientid c.
Proof.
  revert c. induction n as [|n IH]; intros c Hp Ha; [by exists c|].
  cbn [replicate run_client perform]. rewrite decide_True by done.
  unfold fire_timer, ResendRequest. rewrite Hp, bind_Done. cbn [SendRequest pr_clientReqId pr_request].
  destruct (IH (set_pending c (pendingReqs c) ({[id]} ∪ active c))) as (c' & -> & Hc & Hi);
    [done|set_solver|]. exists c'. by rewrite bind_Done.
Qed.

Lemma late_replies n (c : VRClient K E) msg :
  pendingReqs c !! rp_clientreqid msg = None →
  run_client c (replicate n (CReceive (MReply msg))) = Done (c, []).
Proof.
  intros Hn. induction n as [|n IH]; [done|].
  cbn [replicate run_client perform vc_ReceiveMessage]. unfold HandleReply, finish.
  by rewrite Hn, bind_Done, IH.
Qed.
End EndToEnd.

(** Resending is harmless: a client that sends a request and sends it again
    [n] times, with every copy delivered to the leader and every reply
    delivered back, has its operation executed once and its continuation
    called once, with the result of that execution. *)
Theorem resent_request_once `{Sha1, AppReplica A} {K E} (c : VRClient K E) (r : @VRReplica A)
  remote request k n a replicated res :
  client_ok c → lastReqId c + 1 < 2 ^ 64 →
  status r = STATUS_NORMAL → AmLeader r = true → last_req r (clientid c) <= lastReqId c →
  LeaderUpcall (app r) (lastCommitted r) request = Done (a, replicated, res) →
  let id := lastReqId c + 1 in
  let req := mkRequest request (clientid c) id in
  ∃ c1 r' reply c2,
    run_client c (CInvoke request k true :: replicate n (CTimer id true)) =
      Done (c1, replicate (S n) (Send (ToAll (MRequest req)))) ∧
    redeliver (S n) remote req r = Done (tt, r', replicate (S n) (ToAddress remote (MReply reply))) ∧
    app r' = a ∧
    run_client c1 (replicate (S n) (CReceive (MReply reply))) = Done (c2, [Continue k request res]) ∧
    pendingReqs c2 = pendingReqs c.
Proof.
  intros [Hn _] Hb Hs Hl Hreq Hup id req.
  assert (pendingReqs c !! id = None) as Hf.
  { destruct (pendingReqs c !! id) as [p|] eqn:Ep; [|done]. apply Hn in Ep as [_ ?]. unfold id in *. lia. }
  set (c0 := mkVRClient (clientid c) id (<[id := mkPending request id k None]> (pendingReqs c))
    ({[id]} ∪ active c)).
  destruct (resends n c0 id request k ltac:(apply lookup_insert_eq) ltac:(cbn; set_solver))
    as (c1 & Hsend & Hp1 & Hi1).
  destruct (HandleRequest_first r remote req a replicated res Hs Hl ltac:(cbn; unfold id; lia) Hup)
    as (r1 & reply & H1' & Happ & Hres & Hid & Hans).
  destruct (redeliver_again n remote req r1 reply Hans) as (r' & Hagain & Happ').
  set (c2 := set_pending c1 (delete id (pendingReqs c1)) (active c1 ∖ {[id]})).
  exists c1, r', reply, c2. split; [|split; [|split; [|split]]].
  - cbn [run_client perform]. unfold vc_Invoke. rewrite u64_small by lia.
    unfold SendRequest. cbn [pr_clientReqId pr_request]. rewrite bind_Done. fold id.
    change (set_pending _ _ _) with c0. rewrite Hsend, bind_Done. done.
  - cbn [redeliver]. unfold mbind, vr_bind. by rewrite H1', Hagain.
  - congruence.
  - cbn [replicate run_client perform vc_ReceiveMessage]. unfold HandleReply, finish.
    rewrite Hp1, Hid. cbn [c0 pendingReqs req req_clientreqid]. rewrite lookup_insert_eq, bind_Done.
    rewrite late_replies; [rewrite bind_Done, Hres; unfold c2; by rewrite Hp1|].
    rewrite Hid. apply lookup_delete_eq.
  - cbn. rewrite Hp1. cbn. by rewrite delete_insert_eq, delete_id.
Qed.

(** ** Witnesses *)

Definition no_client : VRClient N unit := mkVRClient 5 0 ∅ ∅.
Definition example_calls : list (@call N unit) :=
  [CInvoke #"put" 10 true; CTimer 1 true; CInvokeUnlogged 0 #"get" 11 (Some ()) true;
   CReceive (MReply (mkReply 0 1 1 #"ok")); CReceive (MReply (mkReply 0 1 1 #"ok")); CTimer 2 true].

Lemma example_calls_run : ∃ c' o,
  run_client no_client example_calls = Done (c', o) ∧ o ≫= called = [(#"put", 10)].
Proof. eexists _, _. vm_compute. split; reflexivity. Qed.

Lemma client_calls_once_witness : ∃ c' o given_up,
  run_client no_client example_calls = Done (c', o) ∧
  [(#"put", 10); (#"get", 11)] ≡ₚ (o ≫= called) ++ given_up ++ pending_calls c'.
Proof.
  destruct example_calls_run as (c' & o & Hrun & _). exists c', o.
  destruct (client_calls_once [] 5 no_client example_calls c' o eq_refl ltac:(vm_compute; reflexivity) Hrun)
    as (g & P & _).
  exists g. split; [exact Hrun|exact P].
Defined.

Lemma no_client_ok : client_ok no_client.
Proof. apply client_ok_create. Qed.

Lemma resent_request_once_witness :
  let _ : Sha1 := λ _, [] in
  let _ := default_app in
  ∃ r c1 r' reply c2,
    example_replica 0 = Done r ∧
    run_client no_client (CInvoke #"put" 10 true :: replicate 2 (CTimer 1 true)) =
      Done (c1, replicate 3 (Send (ToAll (MRequest (mkRequest #"put" 5 1))))) ∧
    redeliver 3 9 (mkRequest #"put" 5 1) r = Done (tt, r', replicate 3 (ToAddress 9 (MReply reply))) ∧
    run_client c1 (replicate 3 (CReceive (MReply reply))) = Done (c2, [Continue 10 #"put" #"put"]).
Proof.
  intros S1 D1.
  let x := eval vm_compute in (example_replica 0) in
  match x with Done ?r => exists r end.
  match goal with |- ∃ _ _ _ _, ?E = Done ?r ∧ _ =>
    destruct (@resent_request_once S1 unit D1 N unit no_client r 9 #"put" 10 2 tt true #"put")
      as (c1 & r' & reply & c2 & Hs & Hr & _ & Hk & _) end.
  - exact no_client_ok.
  - reflexivity.
  - reflexivity.
  - vm_compute. reflexivity.
  - vm_compute. discriminate.
  - reflexivity.
  - exists c1, r', reply, c2. split; [vm_compute; reflexivity|].
    split; [exact Hs|]. split; [exact Hr|exact Hk].
Defined.
