(* ===== verification/Transport.v ===== *)
(** * [lib/tcptransport.cc], [lib/transportcommon.h], [lib/transport.cc]: the transport

    Receivers register with a configuration; a message to a replica goes over a
    connection that is made when it is first needed.  A message is framed with a
    magic number and its lengths; the callback for incoming data cuts the stream
    of a connection into messages again.  Timers are numbered entries of a map,
    and a [Timeout] keeps one of them running.

    Sockets, libevent and the resolver are arguments: which connections are
    accepted, under which local name, and what a host name stands for.  A
    connection is the address of its memory, which the allocator chooses: it may
    be that of a connection that was freed. *)

From S2P Require Import Prelude Cpp Config VRReplica.

Open Scope N_scope.

(** ** Frames *)

Definition MAGIC : N := 0x06121983.
Definition max_frame : N := 1073741826.

(** A protocol buffer: its type name and its bytes. *)
Record Message := mkMessage { msg_type : bytes; msg_data : bytes }.

(** The part of [SendMessageInternal] that lays a message out: [pos] is
[ptr - buf] at each assertion. *)
Definition frame (m : Message) : outcome bytes :=
  let typeLen := N.of_nat (length (msg_type m)) in
  let dataLen := N.of_nat (length (msg_data m)) in
  let totalLen := typeLen + 8 + dataLen + 8 + 8 + 4 in
  _ ← ASSERT (4 <? totalLen);
  _ ← ASSERT (12 <? totalLen);
  _ ← ASSERT (20 <? totalLen);
  _ ← ASSERT (20 + typeLen <? totalLen);
  _ ← ASSERT (28 + typeLen <? totalLen);
  _ ← ASSERT (28 + typeLen + dataLen =? totalLen);
  Done (le_encode 4 MAGIC ++ le_encode 8 totalLen ++ le_encode 8 typeLen ++ msg_type m
    ++ le_encode 8 dataLen ++ msg_data m).

(** [std::string(ptr, len)], [rest] being the memory from [ptr] on. *)
Definition make_string (len : N) (rest : bytes) : outcome (bytes * bytes) :=
  if 2 ^ 63 - 1 <? len then Stop (Throw length_error) else read_bytes len rest.

(** What [TCPReadableCallback] does with the [totalSize] bytes of a frame. *)
Definition parse_frame (buf : bytes) : outcome Message :=
  let totalSize := N.of_nat (length buf) in
  '(_, rest) ← read_bytes 12 buf;
  '(typeLen, rest) ← read_int 8 rest;
  _ ← ASSERT (20 <? totalSize);
  _ ← ASSERT (u64 (20 + typeLen) <? totalSize);
  '(msgType, rest) ← make_string typeLen rest;
  '(msgLen, rest) ← read_int 8 rest;
  _ ← ASSERT (28 + typeLen <? totalSize);
  _ ← ASSERT (u64 (28 + typeLen + msgLen) <=? totalSize);
  '(msg, _) ← make_string msgLen rest;
  Done (mkMessage msgType msg).

(** An iteration of the loop of [TCPReadableCallback]: the next message and what
stays in the buffer, or [None] when more has to arrive.  [known] says whether
[tcpAddresses] has the connection. *)
Definition next_frame (known : bool) (evbuf : bytes) : outcome (option (Message * bytes)) :=
  if (length evbuf <? 4)%nat then Done None
  else
    _ ← ASSERT (le_decode (take 4 evbuf) =? MAGIC);
    if (length evbuf <? 12)%nat then Done None
    else
      let totalSize := le_decode (take 8 (drop 4 evbuf)) in
      _ ← ASSERT (totalSize <? max_frame);
      if N.of_nat (length evbuf) <? totalSize then Done None
      else
        m ← parse_frame (take (N.to_nat totalSize) evbuf);
        _ ← ASSERT known;
        Done (Some (m, drop (N.to_nat totalSize) evbuf)).

(** The loop: the messages it dispatches, each before the next frame is looked at, and
what stays in the buffer unless a frame stops it. *)
Fixpoint read_loop (known : bool) (fuel : nat) (evbuf : bytes) : list Message * outcome bytes :=
  match evbuf with
  | [] => ([], Done [])
  | _ =>
      match fuel with
      | O => ([], Stop OutOfFuel)
      | S fuel =>
          match next_frame known evbuf with
          | Stop f => ([], Stop f)
          | Done None => ([], Done evbuf)
          | Done (Some (m, rest)) => let '(ms, lft) := read_loop known fuel rest in (m :: ms, lft)
          end
      end
  end.

(** ** The transport *)

Abbreviation receiver := N.
Abbreviation bufferevent := N.

(** The memory of a new [bufferevent], given those that are in use. *)
Class Malloc := malloc : gset bufferevent → bufferevent.

Section Transport.
Context {callback : Type} `{Malloc}.

(** [canonicalConfigs] is the list of the configurations seen; their positions
are the pointers to them.  [written] is what was written to the connections.
[infos] is the receiver of each connection's callbacks.  A timer that [timers[id]] made
up has no information.  [replicaReceivers], [receivers] and [fds] are only written.  [my_address] is the
address each receiver was given. *)
Record Transport := mkTransport {
canonicalConfigs : list Configuration;
configurations : gmap receiver nat;
replicaAddresses : gmap nat (list (Z * address));
multicastAddresses : gmap nat address;
replicaAddressesInitialized : bool;
my_address : gmap receiver address;
tcpOutgoing : gmap address bufferevent;
tcpAddresses : gmap bufferevent address;
infos : gmap bufferevent receiver;
open_events : gset bufferevent;
input : gmap bufferevent bytes;
written : list (bufferevent * bytes);
lastTimerId : Z;
timers : gmap Z (option callback);
}.
Implicit Types t : Transport.

Definition new_transport : Transport :=
mkTransport [] ∅ ∅ ∅ false ∅ ∅ ∅ ∅ ∅ ∅ [] 0 ∅.

Definition with_configs t cs cfgs init :=
mkTransport cs cfgs (replicaAddresses t) (multicastAddresses t) init (my_address t)
  (tcpOutgoing t) (tcpAddresses t) (infos t) (open_events t) (input t) (written t)
  (lastTimerId t) (timers t).
Definition with_addresses t rs ms :=
mkTransport (canonicalConfigs t) (configurations t) rs ms true (my_address t)
  (tcpOutgoing t) (tcpAddresses t) (infos t) (open_events t) (input t) (written t)
  (lastTimerId t) (timers t).
Definition with_my_address t own :=
mkTransport (canonicalConfigs t) (configurations t) (replicaAddresses t) (multicastAddresses t)
  (replicaAddressesInitialized t) own
  (tcpOutgoing t) (tcpAddresses t) (infos t) (open_events t) (input t) (written t)
  (lastTimerId t) (timers t).
Definition with_maps t out addrs open :=
mkTransport (canonicalConfigs t) (configurations t) (replicaAddresses t) (multicastAddresses t)
  (replicaAddressesInitialized t) (my_address t)
  out addrs (infos t) open (input t) (written t) (lastTimerId t) (timers t).
Definition with_input t bev buf :=
mkTransport (canonicalConfigs t) (configurations t) (replicaAddresses t) (multicastAddresses t)
  (replicaAddressesInitialized t) (my_address t) (tcpOutgoing t) (tcpAddresses t) (infos t) (open_events t)
  (<[bev := buf]> (input t)) (written t) (lastTimerId t) (timers t).
Definition with_written t bev buf :=
mkTransport (canonicalConfigs t) (configurations t) (replicaAddresses t) (multicastAddresses t)
  (replicaAddressesInitialized t) (my_address t) (tcpOutgoing t) (tcpAddresses t) (infos t) (open_events t)
  (input t) (written t ++ [(bev, buf)]) (lastTimerId t) (timers t).
Definition with_timers t last ts :=
mkTransport (canonicalConfigs t) (configurations t) (replicaAddresses t) (multicastAddresses t)
  (replicaAddressesInitialized t) (my_address t) (tcpOutgoing t) (tcpAddresses t) (infos t) (open_events t)
  (input t) (written t) last ts.

(** [bufferevent_socket_new] with callbacks for [info]. *)
Definition new_bufferevent t (info : receiver) : Transport * bufferevent :=
let bev := malloc (open_events t) in
(mkTransport (canonicalConfigs t) (configurations t) (replicaAddresses t) (multicastAddresses t)
  (replicaAddressesInitialized t) (my_address t) (tcpOutgoing t) (tcpAddresses t)
  (<[bev := info]> (infos t)) ({[bev]} ∪ open_events t)
  (<[bev := []]> (input t)) (written t) (lastTimerId t) (timers t),
 bev).

(** [TransportReceiver::SetAddress] and [GetAddress]; the pointer is not
initialised. *)
Definition SetAddress t (r : receiver) (a : address) : Transport :=
with_my_address t (<[r := a]> (my_address t)).
Definition GetAddress t (r : receiver) : outcome address :=
match my_address t !! r with Some a => Done a | None => Stop Undefined end.

(** *** Connections *)

(** What [getaddrinfo] finds, the local name of a new connection when
[bufferevent_socket_connect] succeeds, and whether [bufferevent_write] does. *)
Context (resolve : ReplicaAddress → option address).
Context (connects : bufferevent → option address) (writes : bufferevent → bool).

(** [LookupAddress] *)
Definition LookupAddress (addr : ReplicaAddress) : outcome address :=
match resolve addr with Some a => Done a | None => Stop Panicked end.
(** [config.replica(idx)] indexes a vector. *)
Definition LookupReplica (config : Configuration) (idx : Z) : outcome address :=
match cfg_replicas config !! Z.to_nat idx with
| Some addr => LookupAddress addr
| None => Stop Undefined
end.
(** [LookupMulticastAddress] of this transport. *)
Definition LookupMulticastAddress (config : Configuration) : option address := None.

(** [tcpAddresses.insert]: the address of a freed connection that was not erased stays. *)
Definition insert_address (addrs : gmap bufferevent address) (bev : bufferevent) (a : address)
  : gmap bufferevent address :=
match addrs !! bev with Some _ => addrs | None => <[bev := a]> addrs end.

(** [ConnectTCP]; [src->SetAddress] gets the name of this end. *)
Definition ConnectTCP t (src : receiver) (dst : address) : Transport :=
let '(t, bev) := new_bufferevent t src in
match connects bev with
| None => with_maps t (tcpOutgoing t) (tcpAddresses t) (open_events t ∖ {[bev]})
| Some local =>
    let t := SetAddress t src local in
    with_maps t (<[dst := bev]> (tcpOutgoing t)) (insert_address (tcpAddresses t) bev dst) (open_events t)
end.

(** [SendMessageInternal]: after a failed connection [kv] is still the end of the
map and is dereferenced. *)
Definition SendMessageInternal t (src : receiver) (dst : address) (m : Message) : outcome (Transport * bool) :=
let t := match tcpOutgoing t !! dst with Some _ => t | None => ConnectTCP t src dst end in
match tcpOutgoing t !! dst with
| None => Stop Undefined
| Some ev =>
    buf ← frame m;
    if negb (bool_decide (ev ∈ open_events t)) then Stop Undefined
    else if writes ev then Done (with_written t ev buf, true)
    else Done (t, false)
end.

(** *** [TransportCommon] *)

(** [RegisterConfiguration]; [insert] keeps the first configuration of a receiver. *)
Definition RegisterConfiguration t (r : receiver) (config : Configuration) : Transport :=
let '(cs, canonical) :=
  match list_find (λ c, Configuration_eqb c config = true) (canonicalConfigs t) with
  | Some (i, _) => (canonicalConfigs t, i)
  | None => (canonicalConfigs t ++ [config], length (canonicalConfigs t))
  end in
let cfgs := match configurations t !! r with
            | Some _ => configurations t
            | None => <[r := canonical]> (configurations t)
            end in
with_configs t cs cfgs false.

(** The inner loop of [LookupAddresses] from replica [i], [n] more. *)
Fixpoint lookup_replicas (n : nat) (config : Configuration) (i : Z) : outcome (list (Z * address)) :=
match n with
| O => Done []
| S n =>
    addr ← LookupReplica config i;
    rest ← lookup_replicas n config (i + 1);
    Done ((i, addr) :: rest)
end.
Fixpoint lookup_loop (cs : list Configuration) (cfg : nat)
  (rs : gmap nat (list (Z * address))) (ms : gmap nat address)
  : outcome (gmap nat (list (Z * address)) * gmap nat address) :=
match cs with
| [] => Done (rs, ms)
| c :: cs =>
    addrs ← lookup_replicas (Z.to_nat (cfg_n c)) c 0;
    let ms := match cfg_multicast c, LookupMulticastAddress c with
              | Some _, Some addr => <[cfg := addr]> ms
              | _, _ => ms
              end in
    lookup_loop cs (S cfg) (<[cfg := addrs]> rs) ms
end.
Definition LookupAddresses t : outcome Transport :=
'(rs, ms) ← lookup_loop (canonicalConfigs t) 0 ∅ ∅;
Done (with_addresses t rs ms).

Definition init_addresses t : outcome Transport :=
if replicaAddressesInitialized t then Done t else LookupAddresses t.

(** [SendMessage] *)
Definition SendMessage t (src : receiver) (dst : address) (m : Message) : outcome (Transport * bool) :=
SendMessageInternal t src dst m.

(** [SendMessageToReplica] *)
Definition SendMessageToReplica t (src : receiver) (replicaIdx : Z) (m : Message) : outcome (Transport * bool) :=
match configurations t !! src with
| None => Stop Panicked
| Some cfg =>
    t ← init_addresses t;
    match list_find (λ ia, ia.1 = replicaIdx) (default [] (replicaAddresses t !! cfg)) with
    | None => Stop Panicked
    | Some (_, (_, addr)) => SendMessageInternal t src addr m
    end
end.

(** The loops of [SendMessageToAll]; [skip] is the sender's own address. *)
Fixpoint send_to_each t (src : receiver) (skip : option address) (m : Message) (addrs : list (Z * address))
  : outcome (Transport * bool) :=
match addrs with
| [] => Done (t, true)
| (_, a) :: addrs =>
    if bool_decide (skip = Some a) then send_to_each t src skip m addrs
    else
      '(t, ok) ← SendMessageInternal t src a m;
      if (ok : bool) then send_to_each t src skip m addrs else Done (t, false)
end.
Definition SendMessageToAll t (src : receiver) (m : Message) (fromSvr : bool) : outcome (Transport * bool) :=
match configurations t !! src with
| None => Stop Panicked
| Some cfg =>
    t ← init_addresses t;
    match multicastAddresses t !! cfg with
    | Some addr => SendMessageInternal t src addr m
    | None =>
        let addrs := default [] (replicaAddresses t !! cfg) in
        if fromSvr then
          srcAddr ← GetAddress t src;
          send_to_each t src (Some srcAddr) m addrs
        else send_to_each t src None m addrs
    end
end.

(** [Register]; a replica's listening socket has the name [bound]. *)
Definition Register t (r : receiver) (config : Configuration) (replicaIdx : Z) (bound : address)
  : outcome Transport :=
_ ← ASSERT (replicaIdx <? cfg_n config)%Z;
let t := RegisterConfiguration t r config in
if (replicaIdx =? -1)%Z then Done t
else _ ← LookupReplica config replicaIdx; Done (SetAddress t r bound).

(** *** Events of a connection *)

(** [TCPAcceptCallback] for a connection from [client] to the listener of [r]. *)
Definition TCPAcceptCallback t (r : receiver) (client : address) : Transport :=
let '(t, bev) := new_bufferevent t r in
with_maps t (<[client := bev]> (tcpOutgoing t)) (insert_address (tcpAddresses t) bev client) (open_events t).

(** [TCPReadableCallback] when [bytes] have arrived: the messages that are dispatched,
each with the receiver and the address of the other end, and the transport unless
a frame stops it. *)
Definition TCPReadableCallback t (bev : bufferevent) (arrived : bytes)
  : list (receiver * address * Message) * outcome Transport :=
let evbuf := default [] (input t !! bev) ++ arrived in
let addr := tcpAddresses t !! bev in
let '(ms, rest) := read_loop (bool_decide (is_Some addr)) (length evbuf) evbuf in
(match infos t !! bev, addr with
 | Some r, Some a => (λ m, (r, a, m)) <$> ms
 | _, _ => []
 end, rest ← rest; Done (with_input t bev rest)).

Inductive bev_event := BEV_CONNECTED | BEV_ERROR | BEV_EOF.

(** [TCPIncomingEventCallback]: its second test repeats the first, so that the end
of a stream is not handled. *)
Definition TCPIncomingEventCallback t (bev : bufferevent) (what : bev_event) : Transport :=
match what with
| BEV_ERROR => with_maps t (tcpOutgoing t) (tcpAddresses t) (open_events t ∖ {[bev]})
| _ => t
end.

(** [TCPOutgoingEventCallback]: erasing the end of a map is undefined. *)
Definition TCPOutgoingEventCallback t (bev : bufferevent) (what : bev_event) : outcome Transport :=
match tcpAddresses t !! bev with
| None => Stop Panicked
| Some addr =>
    match what with
    | BEV_CONNECTED => Done t
    | _ =>
        match tcpOutgoing t !! addr with
        | None => Stop Undefined
        | Some _ =>
            Done (with_maps t (delete addr (tcpOutgoing t)) (delete bev (tcpAddresses t)) (open_events t ∖ {[bev]}))
        end
    end
end.

(** *** Timers *)

(** [Timer]: the counter is an [int]. *)
Definition Timer t (cb : callback) : outcome (Transport * Z) :=
if (lastTimerId t =? 2 ^ 31 - 1)%Z then Stop Undefined
else
  let id := (lastTimerId t + 1)%Z in
  Done (with_timers t id (<[id := Some cb]> (timers t)), id).

(** [CancelTimer]: [timers[id]] makes an entry for a timer that is not there. *)
Definition CancelTimer t (id : Z) : Transport * bool :=
match timers t !! id with
| Some (Some _) => (with_timers t (lastTimerId t) (delete id (timers t)), true)
| _ => (with_timers t (lastTimerId t) (<[id := None]> (timers t)), false)
end.

(** [CancelAllTimers]: [first] is what [timers.begin()] gives. *)
Fixpoint cancel_loop (first : gmap Z (option callback) → option Z) (fuel : nat) t : outcome Transport :=
match first (timers t) with
| None => Done t
| Some id =>
    match fuel with
    | O => Stop OutOfFuel
    | S fuel => cancel_loop first fuel (CancelTimer t id).1
    end
end.

(** [OnTimer]: the entry is erased and its callback is run. *)
Definition OnTimer t (id : Z) : option (Transport * callback) :=
match timers t !! id with
| Some (Some cb) => Some (with_timers t (lastTimerId t) (delete id (timers t)), cb)
| _ => None
end.
End Transport.
Arguments Transport : clear implicits.

(** ** [class Timeout]

    The callback of its timer is the closure of the object, named by [cb]. *)
Record Timeout (C : Type) := mkTimeout { ms : N; cb : C; timerId : Z }.
Arguments mkTimeout {C} _ _ _.
Arguments ms {C} _.
Arguments cb {C} _.
Arguments timerId {C} _.

Section Timeout.
Context {C : Type}.
Implicit Types (t : Transport C) (x : Timeout C).

Definition new_Timeout (ms : N) (cb : C) : Timeout C := mkTimeout ms cb 0.
Definition Active x : bool := negb (timerId x =? 0)%Z.
Definition SetTimeout x (ms : N) : outcome (Timeout C) :=
_ ← ASSERT (negb (Active x)); Done (mkTimeout ms (cb x) (timerId x)).

Definition Timeout_Stop t x : Transport C * Timeout C :=
if (0 <? timerId x)%Z then ((CancelTimer t (timerId x)).1, mkTimeout (ms x) (cb x) 0) else (t, x).
Definition Timeout_Reset t x : outcome (Transport C * Timeout C) :=
let '(t, x) := Timeout_Stop t x in
'(t, id) ← Timer t (cb x);
Done (t, mkTimeout (ms x) (cb x) id).
Definition Timeout_Start t x : outcome (Transport C * Timeout C) := Timeout_Reset t x.

(** The closure up to its call of [cb]. *)
Definition Timeout_fired t x : outcome (Transport C * Timeout C) :=
Timeout_Reset t (mkTimeout (ms x) (cb x) 0).
End Timeout.
