(* ===== verification/TransportSpec.v ===== *)
(** * What the transport promises to the replicas and their clients

    A connection delivers the messages sent over it, in their order and each
    once, however the stream is cut into pieces.  The timeouts of a replica,
    with their numbered timers, implement the set of running timeouts that
    [VRReplica] keeps.  A broadcast leaves out the sender as long as the sender
    has the address it was registered with, which is until it first connects. *)

From stdpp Require Import functions.
From S2P Require Import Prelude Cpp Hash Config VRLog VRReplica VRSafety Transport.

Open Scope N_scope.

(** ** Frames *)

Definition frame_size (m : Message) : N :=
  28 + N.of_nat (length (msg_type m)) + N.of_nat (length (msg_data m)).
Definition frame_bytes (m : Message) : bytes :=
  le_encode 4 MAGIC ++ le_encode 8 (frame_size m) ++ le_encode 8 (N.of_nat (length (msg_type m))) ++ msg_type m
    ++ le_encode 8 (N.of_nat (length (msg_data m))) ++ msg_data m.

#[global] Arguments frame_bytes : simpl never.

(** A message that both ends accept. *)
Definition sendable (m : Message) : Prop := msg_data m ≠ [] ∧ frame_size m < max_frame.

Lemma frame_sendable m : msg_data m ≠ [] → frame m = Done (frame_bytes m).
Proof.
  intros Hd. unfold frame. assert (0 < N.of_nat (length (msg_data m))) as Hl.
  { destruct (msg_data m); [done|]. cbn [length]. lia. }
  cbv zeta. do 6 rewrite ASSERT_bind by lia. unfold frame_bytes, frame_size.
  by replace (N.of_nat (length (msg_type m)) + 8 + N.of_nat (length (msg_data m)) + 8 + 8 + 4)
    with (28 + N.of_nat (length (msg_type m)) + N.of_nat (length (msg_data m))) by lia.
Qed.

Lemma frame_empty m : msg_data m = [] → frame m = Stop Panicked.
Proof.
  intros Hd. unfold frame. rewrite Hd. cbn [length]. change (N.of_nat 0) with 0.
  cbv zeta. do 4 rewrite ASSERT_bind by lia. unfold ASSERT. by rewrite (proj2 (N.ltb_ge _ _)) by lia.
Qed.

Lemma length_frame_bytes m : N.of_nat (length (frame_bytes m)) = frame_size m.
Proof. unfold frame_bytes, frame_size. rewrite !length_app, !length_le_encode. lia. Qed.

Lemma frame_size_64 m : sendable m → frame_size m < 2 ^ 64.
Proof. unfold sendable, max_frame. lia. Qed.

Lemma make_string_app len (b rest : bytes) :
  len = N.of_nat (length b) → len < 2 ^ 63 → make_string len (b ++ rest) = Done (b, rest).
Proof.
  intros -> Hl. unfold make_string. rewrite (proj2 (N.ltb_ge _ _)) by lia. apply read_bytes_app.
Qed.

Lemma parse_frame_bytes m : sendable m → parse_frame (frame_bytes m) = Done m.
Proof.
  intros [Hd Hmax]. unfold parse_frame. rewrite length_frame_bytes. cbv zeta.
  assert (0 < N.of_nat (length (msg_data m))) as Hl by (destruct (msg_data m); [done|cbn [length]; lia]).
  unfold max_frame in Hmax. pose proof (eq_refl (frame_size m)) as Hs. unfold frame_size at 2 in Hs.
  unfold frame_bytes. rewrite app_assoc. set (hd := le_encode 4 MAGIC ++ le_encode 8 (frame_size m)).
  change 12 with (N.of_nat (length hd)). rewrite read_bytes_app, bind_Done.
  rewrite read_int_encode, bind_Done by (change (256 ^ N.of_nat 8) with (2 ^ 64); lia).
  rewrite ASSERT_bind by lia.
  rewrite u64_small, ASSERT_bind by lia.
  rewrite make_string_app, bind_Done by (done || lia).
  rewrite read_int_encode, bind_Done by (change (256 ^ N.of_nat 8) with (2 ^ 64); lia).
  rewrite ASSERT_bind by lia.
  rewrite u64_small, ASSERT_bind by lia.
  rewrite <-(app_nil_r (msg_data m)) at 2.
  rewrite make_string_app, bind_Done by (done || lia). by destruct m.
Qed.

(** ** Streams *)

Definition stream (ms : list Message) : bytes := ms ≫= frame_bytes.

Lemma take_frame_header m rest :
  le_decode (take 4 (frame_bytes m ++ rest)) = MAGIC ∧
  (frame_size m < 2 ^ 64 → le_decode (take 8 (drop 4 (frame_bytes m ++ rest))) = frame_size m).
Proof.
  unfold frame_bytes. rewrite <-!app_assoc. rewrite take_app_le, take_ge by (rewrite length_le_encode; lia).
  split; [by rewrite le_decode_encode_small|]. intros Hs.
  rewrite drop_app_length' by (by rewrite length_le_encode).
  rewrite take_app_le, take_ge by (rewrite length_le_encode; lia). by rewrite le_decode_encode_small.
Qed.

Lemma read_loop_step known fuel evbuf : evbuf ≠ [] →
  read_loop known (S fuel) evbuf =
    match next_frame known evbuf with
    | Stop f => ([], Stop f)
    | Done None => ([], Done evbuf)
    | Done (Some (m, rest)) => let '(ms, lft) := read_loop known fuel rest in (m :: ms, lft)
    end.
Proof. by destruct evbuf. Qed.

(** One whole frame at the start of the buffer. *)
Lemma next_frame_whole m rest : sendable m → next_frame true (frame_bytes m ++ rest) = Done (Some (m, rest)).
Proof.
  intros Hm. pose proof (frame_size_64 m Hm) as H64. pose proof (length_frame_bytes m) as Hlen.
  destruct (take_frame_header m rest) as [Hmagic Hsize]. specialize (Hsize H64).
  assert (28 <= frame_size m) as Hmin by (unfold frame_size; lia).
  assert (length (frame_bytes m ++ rest) = N.to_nat (frame_size m) + length rest)%nat as Hl by (rewrite length_app; lia).
  unfold next_frame. rewrite (proj2 (Nat.ltb_ge _ _)) by lia.
  rewrite ASSERT_bind by (rewrite Hmagic; done). rewrite (proj2 (Nat.ltb_ge _ _)) by lia. cbv zeta. rewrite Hsize.
  rewrite ASSERT_bind by (apply N.ltb_lt; apply Hm). rewrite (proj2 (N.ltb_ge _ _)) by lia.
  rewrite take_app_length', drop_app_length' by lia. by rewrite parse_frame_bytes, bind_Done.
Qed.

Lemma frame_app_nonnil m rest : frame_bytes m ++ rest ≠ [].
Proof.
  intros E%(f_equal length). pose proof (length_frame_bytes m) as Hl. unfold frame_size in Hl.
  rewrite length_app in E. cbn in E. lia.
Qed.

Lemma read_loop_frame fuel m rest : sendable m →
  read_loop true (S fuel) (frame_bytes m ++ rest)
  = (let '(ms, lft) := read_loop true fuel rest in (m :: ms, lft)).
Proof.
  intros Hm. rewrite read_loop_step, next_frame_whole by (done || by apply frame_app_nonnil). done.
Qed.

(** A frame of which a part is still to come. *)
Lemma read_loop_partial fuel m part tail : sendable m → frame_bytes m = part ++ tail → tail ≠ [] →
  (length part <= fuel)%nat → read_loop true fuel part = ([], Done part).
Proof.
  intros Hm Hp Ht Hf. pose proof (frame_size_64 m Hm) as H64. pose proof (length_frame_bytes m) as Hlen.
  destruct (take_frame_header m []) as [Hmagic Hsize]. specialize (Hsize H64). rewrite app_nil_r, Hp in *.
  assert (0 < length tail)%nat as Htl by (destruct tail; [done|cbn; lia]). rewrite length_app in Hlen.
  destruct (decide (part = [])) as [->|Hne]; [by destruct fuel|]. destruct fuel as [|fuel].
  { destruct part; [done|cbn in Hf; lia]. }
  rewrite read_loop_step by done. unfold next_frame. destruct (Nat.ltb_spec (length part) 4) as [|H4]; [done|].
  rewrite take_app_le in Hmagic by lia. rewrite ASSERT_bind by (rewrite Hmagic; done).
  destruct (Nat.ltb_spec (length part) 12) as [|H12]; [done|]. cbv zeta.
  rewrite drop_app_le, take_app_le in Hsize by (rewrite ?length_drop; lia). rewrite Hsize.
  rewrite ASSERT_bind by (apply N.ltb_lt; apply Hm). by rewrite (proj2 (N.ltb_lt _ _)) by lia.
Qed.

(** A buffer that holds the start of a stream gives the messages whose frames are
complete and keeps the rest. *)
Lemma read_loop_stream fuel ms buf tail : Forall sendable ms → stream ms = buf ++ tail → (length buf <= fuel)%nat →
  ∃ n lft, read_loop true fuel buf = (take n ms, Done lft) ∧ buf = stream (take n ms) ++ lft ∧ (n <= length ms)%nat ∧
    ∀ j, (j <= length ms)%nat → (length (stream (take j ms)) <= length buf)%nat → (j <= n)%nat.
Proof.
  revert fuel buf. induction ms as [|m ms IH]; intros fuel buf Hms Hs Hf.
  { destruct buf; [|done]. exists 0%nat, []. destruct fuel; (split; [done|]); (split; [done|]); (split; [done|]); intros j Hj _; exact Hj. }
  apply Forall_cons in Hms as [Hm Hms]. unfold stream in Hs. cbn [mbind list_bind] in Hs. fold (stream ms) in Hs.
  destruct (decide (length (frame_bytes m) <= length buf)%nat) as [Hle|Hgt].
  - assert (buf = frame_bytes m ++ drop (length (frame_bytes m)) buf) as Hb.
    { rewrite <-(take_drop (length (frame_bytes m)) buf) at 1. f_equal.
      apply (f_equal (take (length (frame_bytes m)))) in Hs. by rewrite take_app_length, take_app_le in Hs. }
    set (buf' := drop _ buf) in *. clearbody buf'. subst buf. rewrite <-app_assoc in Hs. apply app_inv_head in Hs.
    rewrite length_app in Hf. pose proof (length_frame_bytes m) as Hlen. unfold frame_size in Hlen.
    destruct fuel as [|fuel]; [lia|].
    destruct (IH fuel buf' Hms Hs ltac:(lia)) as (n & lft & Hr & Hb & Hn & Hmax).
    exists (S n), lft. rewrite read_loop_frame, Hr by done. split; [done|]. split.
    { rewrite Hb at 1. unfold stream. cbn [take mbind list_bind]. by rewrite app_assoc. }
    split; [cbn; lia|]. intros [|j] Hj Hlj; [lia|]. cbn [length] in Hj. unfold stream in Hlj. cbn [take mbind list_bind] in Hlj.
    rewrite !length_app in Hlj. specialize (Hmax j ltac:(lia) ltac:(unfold stream; cbn [mbind]; lia)). lia.
  - exists 0%nat, buf. split; [|split; [done|]; split; [lia|]].
    + apply (read_loop_partial fuel m buf (drop (length buf) (frame_bytes m))); [done| |intros E%(f_equal length); rewrite length_drop in E; 
change (length []) with 0%nat in E; lia|done].
      rewrite <-(take_drop (length buf) (frame_bytes m)) at 1. f_equal.
      apply (f_equal (take (length buf))) in Hs. by rewrite take_app_length, take_app_le in Hs by lia.
    + intros [|j] Hj Hlj; [lia|]. unfold stream in Hlj. cbn [take mbind list_bind] in Hlj. rewrite length_app in Hlj.
lia.
Qed.

Section Fifo.
Context {callback : Type} `{Malloc}.
Implicit Types t : Transport callback.

(** The pieces in which the data of a connection arrives. *)
Fixpoint receive t (bev : bufferevent) (pieces : list bytes)
  : list (receiver * address * Message) * outcome (Transport callback) :=
  match pieces with
  | [] => ([], Done t)
  | piece :: pieces =>
      let '(o, t) := TCPReadableCallback t bev piece in
      match t with
      | Done t => let '(o', t) := receive t bev pieces in (o ++ o', t)
      | Stop f => (o, Stop f)
      end
  end.

(** The messages of one sender to one address. *)
Fixpoint send_list (connects : bufferevent → option address) (writes : bufferevent → bool)
  t (src : receiver) (dst : address) (ms : list Message) : outcome (Transport callback * bool) :=
  match ms with
  | [] => Done (t, true)
  | m :: ms =>
      '(t, ok) ← SendMessageInternal connects writes t src dst m;
      if (ok : bool) then send_list connects writes t src dst ms else Done (t, false)
  end.

(** What was written to a connection. *)
Definition stream_of t (ev : bufferevent) : bytes :=
  written t ≫= λ w, if bool_decide (w.1 = ev) then w.2 else [].

(** [ev] is, or will be, the connection to [dst]. *)
Definition leads_to (connects : bufferevent → option address) t (dst : address) (ev : bufferevent) : Prop :=
  match tcpOutgoing t !! dst with
  | Some ev' => ev' = ev ∧ ev ∈ open_events t
  | None => malloc (open_events t) = ev ∧ is_Some (connects ev)
  end.

Lemma send_spec connects writes t src dst ev m :
  leads_to connects t dst ev → writes ev = true → msg_data m ≠ [] →
  ∃ t', SendMessageInternal connects writes t src dst m = Done (t', true) ∧
    tcpOutgoing t' !! dst = Some ev ∧ ev ∈ open_events t' ∧ written t' = written t ++ [(ev, frame_bytes m)].
Proof.
  unfold leads_to, SendMessageInternal. intros Ht Hw Hd. destruct (tcpOutgoing t !! dst) as [ev'|] eqn:E.
  - destruct Ht as [-> Hev]. rewrite E, frame_sendable, bind_Done by done. rewrite bool_decide_true by done.
    cbn [negb]. rewrite Hw. eexists. split; [done|]. done.
  - destruct Ht as [<- [local Hl]]. unfold ConnectTCP, new_bufferevent. rewrite Hl. cbn [with_maps tcpOutgoing].
    rewrite lookup_insert_eq, frame_sendable, bind_Done by done. cbn [open_events SetAddress with_my_address].
    rewrite bool_decide_true by set_solver. cbn [negb]. rewrite Hw. eexists. split; [done|].
    cbn. split; [apply lookup_insert_eq|]. split; [set_solver|done].
Qed.

Lemma send_list_spec connects writes t src dst ev ms :
  leads_to connects t dst ev → writes ev = true → Forall sendable ms →
  ∃ t', send_list connects writes t src dst ms = Done (t', true) ∧
    stream_of t' ev = stream_of t ev ++ stream ms.
Proof.
  intros Ht Hw Hms. revert t Ht. induction Hms as [|m ms [Hm _] Hms IH]; intros t Ht.
  { exists t. split; [done|]. by rewrite app_nil_r. }
  destruct (send_spec connects writes t src dst ev m Ht Hw Hm) as (t1 & Hs & Ho & Hev & Hwr).
  destruct (IH t1) as (t2 & Hs2 & Hst); [unfold leads_to; by rewrite Ho|].
  exists t2. cbn [send_list]. rewrite Hs, bind_Done, Hs2. split; [done|].
  rewrite Hst. unfold stream_of at 1. rewrite Hwr, bind_app. cbn. rewrite bool_decide_true, app_nil_r by done.
  by rewrite <-app_assoc.
Qed.

(** The connection [bev] of [r] with [a], with [buf] in its buffer. *)
Record receiving t (bev : bufferevent) (r : receiver) (a : address) (buf : bytes) : Prop := {
  rc_addr : tcpAddresses t !! bev = Some a;
  rc_info : infos t !! bev = Some r;
  rc_input : input t !! bev = Some buf;
}.

Lemma receive_spec t bev r a buf ms pieces rest :
  receiving t bev r a buf → Forall sendable ms → stream ms = buf ++ mjoin pieces ++ rest →
  (∀ j, (j <= length ms)%nat → (length (stream (take j ms)) <= length buf)%nat → j = 0%nat) →
  ∃ n t', receive t bev pieces = ((λ m, (r, a, m)) <$> take n ms, Done t') ∧ (n <= length ms)%nat ∧
    ∀ j, (j <= length ms)%nat → (length (stream (take j ms)) <= length buf + length (mjoin pieces))%nat → (j <= n)%nat.
Proof.
  revert t buf ms. induction pieces as [|piece pieces IH]; intros t buf ms [Ha Hr Hin] Hms Hs Hj.
  { exists 0%nat, t. split; [done|]. split; [lia|]. intros j Hjl Hlen. cbn in Hlen. rewrite Nat.add_0_r in Hlen.
    by rewrite (Hj j). }
  cbn [mjoin list_join] in Hs. fold (mjoin (M := list) pieces) in Hs.
  assert (stream ms = (buf ++ piece) ++ mjoin pieces ++ rest) as Hs1 by (rewrite Hs; by rewrite <-!app_assoc).
  destruct (read_loop_stream (length (buf ++ piece)) ms (buf ++ piece) (mjoin pieces ++ rest) Hms Hs1 ltac:(done))
    as (n & lft & Hread & Hbuf & Hn & Hmax).
  assert (∀ j, length (stream (take (n + j) ms)) = length (stream (take n ms)) + length (stream (take j (drop n ms))))%nat as Hadd.
  { intros j. rewrite <-length_app. unfold stream. rewrite <-bind_app. f_equal. f_equal.
    rewrite <-(take_drop n ms) at 1. rewrite take_app_add' by (rewrite length_take; lia). done. }
  destruct (IH (with_input t bev lft) lft (drop n ms)) as (n2 & t2 & Hr2 & Hn2 & Hmax2).
  - split; [done|done|]. cbn. apply lookup_insert_eq.
  - by apply Forall_drop.
  - rewrite <-(take_drop n ms) in Hs1 at 1. unfold stream in Hs1. rewrite bind_app in Hs1. fold (stream (take n ms)) in Hs1.
    fold (stream (drop n ms)) in Hs1. rewrite Hbuf, <-app_assoc in Hs1. by apply app_inv_head in Hs1.
  - intros j Hjl Hlen. rewrite length_drop in Hjl. specialize (Hmax (n + j)%nat ltac:(lia)). rewrite Hadd, Hbuf, length_app in Hmax. lia.
  - exists (n + n2)%nat, t2. rewrite length_drop in Hn2. split; [|split; [lia|]].
    + cbn [receive]. unfold TCPReadableCallback. cbv zeta. rewrite Hin, Ha, Hr. cbn [default].
      rewrite (bool_decide_true (is_Some (Some a))) by done. unfold id.
      rewrite Hread, bind_Done, Hr2. f_equal. rewrite <-fmap_app. f_equal.
      rewrite <-(take_drop n ms) at 3. by rewrite take_app_add' by (rewrite length_take; lia).
    + intros j Hjl Hlen. cbn [mjoin list_join] in Hlen. rewrite length_app in Hlen.
      destruct (decide (j <= n)%nat) as [|Hgt]; [lia|]. replace j with (n + (j - n))%nat in Hlen by lia.
      rewrite Hadd in Hlen. specialize (Hmax2 (j - n)%nat). rewrite length_drop in Hmax2.
      apply (f_equal length) in Hbuf. rewrite !length_app in Hbuf. specialize (Hmax2 ltac:(lia)). unfold mjoin in *. lia.
Qed.
End Fifo.

(** ** Broadcasts *)

Section Broadcast.
Context {callback : Type} `{Malloc} (resolve : ReplicaAddress → option address).
Context (connects : bufferevent → option address) (writes : bufferevent → bool).
Implicit Types t : Transport callback.

Hypothesis connects_ok : ∀ ev, is_Some (connects ev).
Hypothesis writes_ok : ∀ ev, writes ev = true.

(** Every connection the transport sends on is open. *)
Definition outgoing_open t : Prop := ∀ dst ev, tcpOutgoing t !! dst = Some ev → ev ∈ open_events t.

(** What a call leaves as it was. *)
Record same_group t t' : Prop := {
  sg_configs : configurations t' = configurations t;
  sg_addrs : replicaAddresses t' = replicaAddresses t;
  sg_multicast : multicastAddresses t' = multicastAddresses t;
  sg_init : replicaAddressesInitialized t' = replicaAddressesInitialized t;
}.

Definition local_name (a : address) : Prop := ∃ ev, connects ev = Some a.

(** The address of [src] changes when a connection is made. *)
Definition renamed t t' (src : receiver) : Prop :=
  tcpOutgoing t' = tcpOutgoing t ∧ my_address t' = my_address t ∨ ∃ a, local_name a ∧ my_address t' !! src = Some a.

Lemma renamed_trans t1 t2 t3 src : renamed t1 t2 src → renamed t2 t3 src → renamed t1 t3 src.
Proof.
  intros [[E1 E2]|(a & Ha & E)] [[E1' E2']|?]; [left; split; congruence|by right| |by right].
  right. exists a. split; [done|]. by rewrite E2'.
Qed.

Lemma same_group_trans t1 t2 t3 : same_group t1 t2 → same_group t2 t3 → same_group t1 t3.
Proof. intros [] []. split; congruence. Qed.

Lemma send_one t src dst m : outgoing_open t → msg_data m ≠ [] →
  ∃ t' ev, SendMessageInternal connects writes t src dst m = Done (t', true) ∧
    outgoing_open t' ∧ same_group t t' ∧ tcpOutgoing t' !! dst = Some ev ∧ written t' = written t ++ [(ev, frame_bytes m)] ∧
    (∀ a ev', tcpOutgoing t !! a = Some ev' → tcpOutgoing t' !! a = Some ev') ∧ renamed t t' src.
Proof.
  intros Ht Hd. unfold SendMessageInternal. destruct (tcpOutgoing t !! dst) as [ev|] eqn:E.
  - rewrite E, frame_sendable, bind_Done by done. rewrite bool_decide_true by (by apply (Ht dst)).
    cbn [negb]. rewrite writes_ok. eexists _, ev. split; [done|]. cbn. do 5 (split; [done|]). by left.
  - unfold ConnectTCP, new_bufferevent. destruct (connects_ok (malloc (open_events t))) as [local Hl]. rewrite Hl.
    cbn [with_maps tcpOutgoing]. rewrite lookup_insert_eq, frame_sendable, bind_Done by done.
    rewrite bool_decide_true by (cbn; set_solver). cbn [negb].
    rewrite writes_ok. eexists _, (malloc (open_events t)). split; [done|]. unfold outgoing_open. cbn. split.
    + intros a ev [[<- <-]|[_ Ha]]%lookup_insert_Some; [set_solver|]. apply elem_of_union_r. by apply (Ht a).
    + split; [done|]. split; [apply lookup_insert_eq|]. split; [done|]. split.
      * intros a ev' Ha. rewrite lookup_insert_ne; [done|]. intros ->. congruence.
      * right. exists local. split; [by exists (malloc (open_events t))|]. apply lookup_insert_eq.
Qed.

(** The messages of a broadcast: one for each address that is not skipped, in order. *)
Definition reaches t (m : Message) (a : address) (w : bufferevent * bytes) : Prop :=
  tcpOutgoing t !! a = Some w.1 ∧ w.2 = frame_bytes m.
Definition not_skipped (skip : option address) (a : address) : Prop := skip ≠ Some a.
#[export] Instance not_skipped_dec skip a : Decision (not_skipped skip a).
Proof. unfold not_skipped. apply _. Defined.

Lemma send_to_each_spec t src skip m addrs : outgoing_open t → msg_data m ≠ [] →
  ∃ t' ws, send_to_each connects writes t src skip m addrs = Done (t', true) ∧
    outgoing_open t' ∧ same_group t t' ∧ written t' = written t ++ ws ∧
    Forall2 (reaches t' m) (filter (not_skipped skip) addrs.*2) ws ∧
    (∀ a ev, tcpOutgoing t !! a = Some ev → tcpOutgoing t' !! a = Some ev) ∧ renamed t t' src.
Proof.
  intros Ht Hd. revert t Ht. induction addrs as [|[i a] addrs IH]; intros t Ht.
  { exists t, []. split; [done|]. split; [done|]. split; [done|]. rewrite app_nil_r. split; [done|].
    split; [constructor|]. split; [done|]. by left. }
  cbn [send_to_each fmap list_fmap]. destruct (bool_decide (skip = Some a)) eqn:Hskip.
  - apply bool_decide_eq_true in Hskip as ->. destruct (IH t Ht) as (t' & ws & Hs). exists t', ws.
    cbn [snd]. rewrite filter_cons_False by (unfold not_skipped; naive_solver). exact Hs.
  - apply bool_decide_eq_false in Hskip.
    destruct (send_one t src a m Ht Hd) as (t1 & ev & Hs1 & Ht1 & Hg1 & Ho1 & Hw1 & Hk1 & Hr1).
    destruct (IH t1 Ht1) as (t2 & ws & Hs2 & Ht2 & Hg2 & Hw2 & Hf2 & Hk2 & Hr2).
    exists t2, ((ev, frame_bytes m) :: ws). rewrite Hs1, bind_Done. cbn [snd]. rewrite filter_cons_True by done.
    split; [done|]. split; [done|]. split; [by eapply same_group_trans|]. split; [by rewrite Hw2, Hw1, <-app_assoc|].
    split; [constructor; [split; [by apply Hk2|done]|done]|]. split; [intros b ev' Hb; by apply Hk2, Hk1|].
    by eapply renamed_trans.
Qed.

(** A member of a group whose addresses are known, with the address [own]. *)
Record member t (src : receiver) (addrs : list (Z * address)) (own : address) : Prop := {
  mb_cfg : ∃ cfg, configurations t !! src = Some cfg ∧ replicaAddresses t !! cfg = Some addrs ∧ multicastAddresses t !! cfg = None;
  mb_init : replicaAddressesInitialized t = true;
  mb_own : my_address t !! src = Some own;
  mb_open : outgoing_open t;
}.

Lemma broadcast_spec t src m addrs own : member t src addrs own → msg_data m ≠ [] →
  ∃ t' ws, SendMessageToAll resolve connects writes t src m true = Done (t', true) ∧
    written t' = written t ++ ws ∧ Forall2 (reaches t' m) (filter (not_skipped (Some own)) addrs.*2) ws ∧
    renamed t t' src ∧ (∃ own', member t' src addrs own').
Proof.
  intros [(cfg & Hc & Ha & Hm) Hi Ho Hop] Hd. unfold SendMessageToAll, init_addresses. rewrite Hc, Hi, bind_Done, Hm, Ha.
  unfold GetAddress. rewrite Ho, bind_Done.
  destruct (send_to_each_spec t src (Some own) m addrs Hop Hd) as (t' & ws & Hs & Hop' & [Hg1 Hg2 Hg3 Hg4] & Hw & Hf & _ & Hr).
  exists t', ws. split; [done|]. split; [done|]. split; [done|]. split; [done|].
  assert (∃ own', my_address t' !! src = Some own') as [own' Ho'].
  { destruct Hr as [[_ ->]|(a & _ & E)]; [by exists own|by exists a]. }
  exists own'. split; [|by rewrite Hg4|done|done]. exists cfg. by rewrite Hg1, Hg2, Hg3.
Qed.

(** The addresses are looked up by the first message. *)
Lemma lookup_first t t' src m fromSvr :
  replicaAddressesInitialized t = false → LookupAddresses resolve t = Done t' →
  SendMessageToAll resolve connects writes t src m fromSvr = SendMessageToAll resolve connects writes t' src m fromSvr.
Proof.
  intros Hi Hl. unfold SendMessageToAll, init_addresses. rewrite Hi, Hl. unfold LookupAddresses in Hl.
  destruct (lookup_loop _ _ _ _ _) as [[rs ms]|]; [|done]. by apply Done_inj in Hl as <-.
Qed.

(** A replica that has just registered. *)
Lemma registered r config (i : nat) own addrs :
  (Z.of_nat i < cfg_n config)%Z → lookup_replicas resolve (Z.to_nat (cfg_n config)) config 0 = Done addrs →
  is_done (LookupReplica resolve config (Z.of_nat i)) = true →
  ∃ t, Register resolve (new_transport (callback := callback)) r config (Z.of_nat i) own = Done t ∧
    tcpOutgoing t = ∅ ∧ written t = [] ∧
    ∃ t', LookupAddresses resolve t = Done t' ∧ replicaAddressesInitialized t = false ∧ member t' r addrs own ∧
      tcpOutgoing t' = ∅ ∧ written t' = [] ∧ configurations t !! r = Some 0%nat.
Proof.
  intros Hi Ha [a Hown]%is_done_Done. unfold Register. rewrite ASSERT_bind by lia.
  rewrite (proj2 (Z.eqb_neq _ _)) by lia. rewrite Hown, bind_Done. eexists. split; [done|]. split; [done|]. split; [done|].
  unfold LookupAddresses. cbn -[lookup_replicas Z.to_nat]. rewrite Ha, bind_Done. eexists. split; [done|]. split; [done|].
  rewrite lookup_empty. assert (∀ (o : option ReplicaAddress) (x : gmap nat address), match o with Some _ | _ => x end = x) as Hm
    by by intros [].
  rewrite Hm. split; [split|].
  - exists 0%nat. cbn. by rewrite !lookup_insert_eq.
  - done.
  - cbn. by rewrite lookup_insert_eq.
  - intros dst ev. cbn. by rewrite lookup_empty.
  - split; [done|]. split; [done|]. apply lookup_insert_eq.
Qed.
End Broadcast.

(** ** Timeouts *)

Section Timeouts.
Implicit Types (tr : Transport timer) (tos : timer → Timeout timer).

(** The timeouts [tos] over the timers of [tr]: those of [running] have one entry
each, and there is no other entry. *)
Record tracks tr tos (running : gset timer) : Prop := {
  tk_cb : ∀ x, cb (tos x) = x;
  tk_last : (0 <= lastTimerId tr)%Z;
  tk_id : ∀ x, (0 <= timerId (tos x))%Z ∧ (x ∈ running ↔ timerId (tos x) ≠ 0%Z);
  tk_live : ∀ x, x ∈ running → timers tr !! timerId (tos x) = Some (Some x);
  tk_entry : ∀ id e, timers tr !! id = Some e →
    (0 < id <= lastTimerId tr)%Z ∧ ∃ x, e = Some x ∧ timerId (tos x) = id;
}.

Lemma stop_tracks tr tos running x : tracks tr tos running →
  let '(tr', to) := Timeout_Stop tr (tos x) in
  tracks tr' (<[x := to]> tos) (running ∖ {[x]}) ∧ lastTimerId tr' = lastTimerId tr ∧ timerId to = 0%Z.
Proof.
  intros [Hcb Hlast Hid Hlive Hent]. unfold Timeout_Stop. destruct (Hid x) as [Hx0 Hxr].
  destruct (Z.ltb_spec 0 (timerId (tos x))) as [Hpos|Hz].
  - assert (x ∈ running) as Hx by (apply Hxr; lia). unfold CancelTimer. rewrite (Hlive x Hx). cbn [fst].
    split; [|done]. split; cbn [with_timers lastTimerId timers]; [|done|..].
    + intros y. unfold insert, fn_insert. case_decide as E; [|done]. cbn [cb]. by rewrite Hcb.
    + intros y. unfold insert, fn_insert. case_decide as E; [subst y|]; cbn [timerId]; [set_solver|].
      destruct (Hid y). set_solver.
    + intros y [Hy Hne]%elem_of_difference. rewrite fn_lookup_insert_ne by set_solver.
      rewrite lookup_delete_ne; [by apply Hlive|]. intros E.
      pose proof (Hlive y Hy) as Hl. rewrite <-E, (Hlive x Hx) in Hl. injection Hl as ->. set_solver.
    + intros id e [Hne He]%lookup_delete_Some. destruct (Hent id e He) as (Hb & y & -> & Hy).
      split; [done|]. exists y. split; [done|]. rewrite fn_lookup_insert_ne; [done|]. by intros ->.
  - assert (timerId (tos x) = 0%Z) as Hx by lia. split; [|done]. assert (x ∉ running) as Hn by (rewrite Hxr; lia).
    replace (running ∖ {[x]}) with running by set_solver.
    assert (∀ y, <[x := tos x]> tos y = tos y) as He by (intros y; unfold insert, fn_insert; by case_decide; subst).
    split; [|done| | |]; try setoid_rewrite He; done.
Qed.

Lemma timer_tracks tr tos running x : tracks tr tos running → x ∉ running → (lastTimerId tr < 2 ^ 31 - 1)%Z →
  ∃ tr' id, Timer tr x = Done (tr', id) ∧ tracks tr' (<[x := mkTimeout (ms (tos x)) x id]> tos) ({[x]} ∪ running).
Proof.
  intros [Hcb Hlast Hid Hlive Hent] Hx Hl. unfold Timer. rewrite (proj2 (Z.eqb_neq _ _)) by lia. cbv zeta.
  eexists _, _. split; [done|]. split; cbn [with_timers lastTimerId timers]; [| lia|..].
  - intros y. unfold insert, fn_insert. by case_decide.
  - intros y. unfold insert, fn_insert. case_decide as E; [subst y|]; cbn [timerId]; [set_solver by lia|].
    destruct (Hid y). set_solver.
  - intros y [->%elem_of_singleton|Hy]%elem_of_union.
    + rewrite fn_lookup_insert. cbn [timerId]. by rewrite lookup_insert_eq.
    + rewrite fn_lookup_insert_ne by (by intros ->). rewrite lookup_insert_ne; [by apply Hlive|].
      destruct (Hent _ _ (Hlive y Hy)). lia.
  - intros id e [[<- <-]|[Hne He]]%lookup_insert_Some.
    + split; [lia|]. exists x. split; [done|]. by rewrite fn_lookup_insert.
    + destruct (Hent id e He) as (Hb & y & -> & Hy). split; [lia|]. exists y. split; [done|].
      rewrite fn_lookup_insert_ne; [done|]. intros ->. destruct (Hid y) as [_ Hr]. apply Hx, Hr. lia.
Qed.

Lemma fn_insert_insert {A B} `{EqDecision A} (f : A → B) x y z a : <[x := y]> (<[x := z]> f) a = <[x := y]> f a.
Proof. unfold insert, fn_insert. by case_decide. Qed.

Lemma tracks_ext tr tos tos' running : (∀ x, tos x = tos' x) → tracks tr tos running → tracks tr tos' running.
Proof.
  intros E [Hcb Hlast Hid Hlive Hent]. split; [|done| | |]; intros x; try rewrite <-E; try done; [apply Hlive|].
  intros e He. destruct (Hent x e He) as (? & y & ? & ?). split; [done|]. exists y. by rewrite <-E.
Qed.

Lemma reset_tracks tr tos running x : tracks tr tos running → (lastTimerId tr < 2 ^ 31 - 1)%Z →
  ∃ tr' to, Timeout_Reset tr (tos x) = Done (tr', to) ∧ tracks tr' (<[x := to]> tos) ({[x]} ∪ running).
Proof.
  intros Ht Hl. pose proof (stop_tracks tr tos running x Ht) as Hs. unfold Timeout_Reset.
  destruct (Timeout_Stop tr (tos x)) as [tr1 to1]. destruct Hs as (Ht1 & Hl1 & _).
  assert (cb to1 = x) as Hc by (pose proof (tk_cb _ _ _ Ht1 x) as Hc; by rewrite fn_lookup_insert in Hc).
  destruct (timer_tracks tr1 _ _ x Ht1 ltac:(set_solver) ltac:(lia)) as (tr2 & id & Htm & Ht2).
  rewrite fn_lookup_insert in Ht2. rewrite Hc, Htm, bind_Done. eexists _, _. split; [done|].
  replace ({[x]} ∪ running) with ({[x]} ∪ running ∖ {[x]}); [|apply leibniz_equiv; intros y; destruct (decide (y = x)); set_solver].
  eapply tracks_ext; [|exact Ht2]. intros y. apply fn_insert_insert.
Qed.

(** A timer fires: its timeout runs again under a new number. *)
Lemma fire_tracks tr tos running id x : tracks tr tos running → (lastTimerId tr < 2 ^ 31 - 1)%Z →
  timers tr !! id = Some (Some x) →
  x ∈ running ∧ ∃ tr1 tr' to, OnTimer tr id = Some (tr1, x) ∧ Timeout_fired tr1 (tos x) = Done (tr', to) ∧
    tracks tr' (<[x := to]> tos) running.
Proof.
  intros Ht Hl Hid. pose proof (tk_entry _ _ _ Ht id _ Hid) as (Hb & y & [= <-] & Hx).
  assert (x ∈ running) as Hr by (apply (tk_id _ _ _ Ht); lia). split; [done|].
  unfold OnTimer. rewrite Hid. eexists. pose proof (stop_tracks tr tos running x Ht) as Hs. unfold Timeout_Stop in Hs.
  rewrite Hx, (proj2 (Z.ltb_lt _ _)) in Hs by lia. unfold CancelTimer in Hs. rewrite Hid in Hs. cbn [fst] in Hs.
  destruct Hs as (Ht1 & Hl1 & _). set (tr1 := with_timers tr _ _) in *.
  destruct (reset_tracks tr1 _ _ x Ht1 ltac:(lia)) as (tr' & to & Hreset & Ht').
  exists tr', to. rewrite fn_lookup_insert in Hreset. split; [done|]. split; [done|].
  replace running with ({[x]} ∪ running ∖ {[x]}); [|apply leibniz_equiv; intros y; destruct (decide (y = x)); set_solver].
  eapply tracks_ext; [|exact Ht']. intros y. apply fn_insert_insert.
Qed.

Lemma new_tracks (periods : timer → N) : tracks new_transport (λ x, new_Timeout (periods x) x) ∅.
Proof.
  split; [done|done| | |]; cbn.
  - intros x. split; [done|]. set_solver.
  - intros x. set_solver.
  - intros id e. by rewrite lookup_empty.
Qed.
End Timeouts.

(** ** Properties *)

(** C20.  A connection is a reliable stream of messages: messages sent one
    after the other to an address are all accepted, and however the bytes
    written to the connection are cut into pieces, the receiver is given the
    messages whose frames have arrived, each once and in the order in which
    they were sent. *)
Theorem tcp_fifo {callback} `{Malloc} (t1 t2 : Transport callback) connects writes src dst ev ms bev r a pieces rest :
  leads_to connects t1 dst ev → writes ev = true → stream_of t1 ev = [] → Forall sendable ms →
  receiving t2 bev r a [] →
  ∃ t1', send_list connects writes t1 src dst ms = Done (t1', true) ∧
    (stream_of t1' ev = mjoin pieces ++ rest →
     ∃ n t2', receive t2 bev pieces = ((λ m, (r, a, m)) <$> take n ms, Done t2') ∧ (n <= length ms)%nat ∧
       (∀ j, (j <= length ms)%nat → (length (stream (take j ms)) <= length (mjoin pieces))%nat → (j <= n)%nat) ∧
       (rest = [] → n = length ms)).
Proof.
  intros Hl Hw H0 Hms Hr. destruct (send_list_spec connects writes t1 src dst ev ms Hl Hw Hms) as (t1' & Hs & Hst).
  exists t1'. split; [done|]. intros E. rewrite Hst, H0 in E. cbn [app] in E.
  destruct (receive_spec t2 bev r a [] ms pieces rest Hr Hms E) as (n & t2' & Hrec & Hn & Hmax).
  { intros [|j] Hj Hlen; [done|]. destruct ms as [|m ms]; [cbn in Hj; lia|]. exfalso.
    unfold stream in Hlen. cbn [take mbind list_bind] in Hlen. rewrite length_app in Hlen. cbn in Hlen.
    pose proof (length_frame_bytes m) as Hf. unfold frame_size in Hf. lia. }
  cbn [length] in Hmax. exists n, t2'. split; [done|]. split; [done|]. split; [done|].
  intros ->. rewrite app_nil_r in E. specialize (Hmax (length ms) ltac:(done)). rewrite firstn_all in Hmax.
  rewrite app_nil_l in E. apply (f_equal length) in E.
  lia.
Qed.

(** A frame that stops the process does not take back the messages before it. *)
Lemma bad_frame_after fuel m rest f : sendable m → rest ≠ [] → next_frame true rest = Stop f →
  read_loop true (S (S fuel)) (frame_bytes m ++ rest) = ([m], Stop f).
Proof. intros Hm Hr Hf. by rewrite read_loop_frame, read_loop_step, Hf. Qed.

(** A connection that is freed after an error keeps its entry in [tcpAddresses]: when
    the allocator uses its memory again for another client, the messages of that
    client come under the address of the first. *)
Lemma stale_address {callback} `{Malloc} (t : Transport callback) bev r a client :
  tcpAddresses t !! bev = Some a →
  malloc (open_events (TCPIncomingEventCallback t bev BEV_ERROR)) = bev →
  receiving (TCPAcceptCallback (TCPIncomingEventCallback t bev BEV_ERROR) r client) bev r a [].
Proof.
  intros Ha Hm. unfold TCPAcceptCallback, new_bufferevent. rewrite Hm.
  split; cbn; [|by rewrite lookup_insert_eq..]. unfold insert_address. by rewrite Ha.
Qed.

(** An allocator that counts the connections in use. *)
#[local] Instance counting : Malloc := λ live, N.of_nat (size live).

Definition fifo_connects (ev : bufferevent) : option address := Some (100 + ev).
Definition fifo_sender : Transport unit := new_transport.
Definition fifo_receiver : Transport unit := TCPAcceptCallback new_transport 7 100.

Lemma tcp_fifo_witness :
  ∃ t1', send_list fifo_connects (λ _, true) fifo_sender 1 5 [mkMessage #"A" #"x"; mkMessage #"B" #"yz"] = Done (t1', true) ∧
    ∃ t2', receive fifo_receiver 0 [take 17 (stream_of t1' 0); drop 17 (stream_of t1' 0)]
           = ([(7, 100, mkMessage #"A" #"x"); (7, 100, mkMessage #"B" #"yz")], Done t2').
Proof.
  destruct (tcp_fifo fifo_sender fifo_receiver fifo_connects (λ _, true) 1 5 0
    [mkMessage #"A" #"x"; mkMessage #"B" #"yz"] 0 7 100
    [take 17 (stream [mkMessage #"A" #"x"; mkMessage #"B" #"yz"]); drop 17 (stream [mkMessage #"A" #"x"; mkMessage #"B" #"yz"])] [])
    as (t1' & Hs & Hr).
  - split; [reflexivity|by eexists].
  - reflexivity.
  - reflexivity.
  - apply Forall_cons; split; [split; [done|vm_compute; reflexivity]|].
    apply Forall_cons; split; [split; [done|vm_compute; reflexivity]|constructor].
  - split; reflexivity.
  - exists t1'. split; [exact Hs|].
    assert (stream_of t1' 0 = stream [mkMessage #"A" #"x"; mkMessage #"B" #"yz"]) as E.
    { vm_compute in Hs. apply Done_inj in Hs. injection Hs as <-. vm_compute. reflexivity. }
    rewrite E. destruct Hr as (n & t2' & Hrec & _ & _ & Hn).
    { rewrite E. vm_compute. reflexivity. }
    exists t2'. rewrite Hrec, (Hn eq_refl). reflexivity.
Defined.

(** C21.  The timeouts of a replica are what [VRReplica] says: starting,
    resetting and stopping a [Timeout] over numbered timers follows the set of
    running timeouts, a timeout runs exactly when it has a timer, and a timer that
    fires belongs to a running timeout and leaves it running. *)
Theorem timeouts_refine `{Sha1, AppReplica A} (rep : @VRReplica A) (tr : Transport timer)
    (tos : timer → Timeout timer) :
  tracks tr tos (VRReplica.timers rep) → (lastTimerId tr < 2 ^ 31 - 1)%Z →
  (∀ x rep' o, Start x rep = Done (tt, rep', o) ∨ Reset_timer x rep = Done (tt, rep', o) →
     ∃ tr' to, Timeout_Start tr (tos x) = Done (tr', to) ∧ tracks tr' (<[x := to]> tos) (VRReplica.timers rep')) ∧
  (∀ x rep' o, Stop_timer x rep = Done (tt, rep', o) →
     let '(tr', to) := Timeout_Stop tr (tos x) in tracks tr' (<[x := to]> tos) (VRReplica.timers rep')) ∧
  (∀ x, x ∈ VRReplica.timers rep ↔ ∃ id, timers tr !! id = Some (Some x)) ∧
  (∀ id x, timers tr !! id = Some (Some x) →
     ∃ tr1 tr' to, OnTimer tr id = Some (tr1, x) ∧ Timeout_fired tr1 (tos x) = Done (tr', to) ∧
       tracks tr' (<[x := to]> tos) (VRReplica.timers rep)).
Proof.
  intros Ht Hl. split; [|split; [|split]].
  - intros x rep' o Hst. assert (rep' = set_timers ({[x]} ∪ VRReplica.timers rep) rep) as ->
      by (destruct Hst as [E|E]; cbv in E; by apply Done_inj in E; injection E).
    by apply reset_tracks.
  - intros x rep' o Hst. assert (rep' = set_timers (VRReplica.timers rep ∖ {[x]}) rep) as ->
      by (cbv in Hst; by apply Done_inj in Hst; injection Hst).
    pose proof (stop_tracks tr tos _ x Ht) as Hs. destruct (Timeout_Stop _ _). apply Hs.
  - intros x. split; [intros Hx; eexists; by eapply tk_live|]. intros [id Hid].
    by eapply fire_tracks.
  - intros id x Hid. by eapply fire_tracks.
Qed.

Lemma timeouts_refine_witness :
  let _ : Sha1 := λ _, [] in
  let _ := default_app in
  let tos x := new_Timeout 1000 x in
  ∃ tr to, Timeout_Start new_transport (tos nullCommitTimeout) = Done (tr, to) ∧
    tracks tr (<[nullCommitTimeout := to]> tos) ({[nullCommitTimeout]} ∪ ∅).
Proof.
  intros S1 D1 tos. destruct (example_replica 0) as [rep|] eqn:E; [|by vm_compute in E].
  destruct (@timeouts_refine S1 unit D1 (set_timers ∅ rep) new_transport tos) as [Hstart _].
  - destruct rep. exact (new_tracks (λ _, 1000)).
  - reflexivity.
  - destruct rep. destruct (Hstart nullCommitTimeout _ [] ltac:(left; reflexivity)) as (tr & to & Hs & Ht).
    exists tr, to. split; [exact Hs|exact Ht].
Defined.

(** C39.  A replica is left out of its own broadcasts only until it first
    connects: the first broadcast after registration reaches every other replica
    once and makes the transport rename the sender after its end of the
    connection; from then on a broadcast reaches the sender too, and a leader
    that receives its own commit message stops. *)
Theorem broadcast_returns `{Sha1, AppReplica A} `{Malloc} {callback} resolve connects writes r config (i : nat) own addrs m1 m2 :
  (∀ ev, is_Some (connects ev)) → (∀ ev, writes ev = true) →
  (Z.of_nat i < cfg_n config)%Z → lookup_replicas resolve (Z.to_nat (cfg_n config)) config 0 = Done addrs →
  is_done (LookupReplica resolve config (Z.of_nat i)) = true → own ∈ addrs.*2 → (∃ a, a ∈ addrs.*2 ∧ a ≠ own) →
  (∀ a, a ∈ addrs.*2 → ¬ local_name connects a) → msg_data m1 ≠ [] → msg_data m2 ≠ [] →
  (∃ t t1 t2 ws1 ws2,
    Register resolve (new_transport (callback := callback)) r config (Z.of_nat i) own = Done t ∧
    SendMessageToAll resolve connects writes t r m1 true = Done (t1, true) ∧ written t1 = ws1 ∧
    Forall2 (reaches t1 m1) (filter (λ a, a ≠ own) addrs.*2) ws1 ∧
    SendMessageToAll resolve connects writes t1 r m2 true = Done (t2, true) ∧ written t2 = ws1 ++ ws2 ∧
    Forall2 (reaches t2 m2) addrs.*2 ws2) ∧
  (∀ (rep rep' : @VRReplica A) o remote c, is_normal rep = true → SendNullCommit rep = Done (tt, rep', o) →
     ToAll (MCommit c) ∈ o → HandleCommit remote c rep' = Stop Panicked).
Proof.
  intros Hconn Hw Hi Ha Hdone Hown (a & Hain & Hane) Hloc Hd1 Hd2. split.
  - destruct (registered resolve (callback := callback) r config i own addrs Hi Ha Hdone)
      as (t & Hreg & Ht & Htw & t' & Hlk & Hinit & Hmb & Ht' & Htw' & Hcfg).
    destruct (broadcast_spec resolve connects writes Hconn Hw t' r m1 addrs own Hmb Hd1)
      as (t1 & ws1 & Hs1 & Hw1 & Hf1 & Hr1 & own1 & Hmb1).
    destruct (broadcast_spec resolve connects writes Hconn Hw t1 r m2 addrs own1 Hmb1 Hd2)
      as (t2 & ws2 & Hs2 & Hw2 & Hf2 & _).
    assert (∀ skip, filter (not_skipped (Some skip)) addrs.*2 = filter (λ a, a ≠ skip) addrs.*2) as Hfilter.
    { intros skip. apply list_filter_iff. intros x. unfold not_skipped. naive_solver. }
    rewrite Hfilter in Hf1, Hf2.
    exists t, t1, t2, ws1, ws2. split; [done|]. split.
    { rewrite <-Hs1. by apply lookup_first. }
    rewrite Hw1, Htw'. split; [done|]. split; [done|]. split; [done|]. rewrite Hw2, Hw1, Htw'. split; [done|].
    rewrite filter_all in Hf2; [done|]. intros x Hx ->. apply (Hloc own1 Hx).
    assert (a ∈ filter (λ a, a ≠ own) addrs.*2) as Haf by (by apply list_elem_of_filter).
    destruct Hr1 as [[Hout _]|(b & Hb & Hb1)].
    + exfalso. apply list_elem_of_lookup_1 in Haf as [j Hj]. destruct (Forall2_lookup_l _ _ _ _ _ Hf1 Hj) as (w & _ & Hw' & _).
      by rewrite Hout, Ht', lookup_empty in Hw'.
    + destruct Hmb1 as [_ _ Ho1 _]. rewrite Ho1 in Hb1. by injection Hb1 as ->.
  - intros rep rep' o remote c Hn Hs Hc. cbv [SendNullCommit mbind vr_bind this check lift ASSERT emit id] in Hs.
    destruct (AmLeader rep) eqn:Hlead; [|done]. apply Done_inj in Hs. injection Hs as <- <-.
    cbn in Hc. apply list_elem_of_singleton in Hc. injection Hc as ->.
    cbv [HandleCommit mbind vr_bind this id cm_view]. rewrite Hn. cbn [negb]. by rewrite N.ltb_irrefl, Hlead.
Qed.

Lemma broadcast_returns_witness :
  let _ : Sha1 := λ _, [] in
  let _ := default_app in
  let resolve a := Some (1 + le_decode (take 1 (port a))) in
  let hosts := [mkReplicaAddress #"h" #"1"; mkReplicaAddress #"h" #"2"; mkReplicaAddress #"h" #"3"] in
  let config := mkConfiguration 3 1 hosts None in
  let send := SendMessageToAll resolve fifo_connects (λ _, true) in
  ∃ t t1 t2 : Transport unit,
    Register resolve new_transport 9 config 0 50 = Done t ∧
    send t 9 (mkMessage #"Commit" #"1") true = Done (t1, true) ∧ length (written t1) = 2%nat ∧
    send t1 9 (mkMessage #"Commit" #"2") true = Done (t2, true) ∧ length (written t2) = 5%nat.
Proof.
  intros S1 D1 resolve hosts config send.
  destruct (@broadcast_returns S1 unit D1 counting unit resolve fifo_connects (λ _, true) 9 config 0 50
    [(0%Z, 50); (1%Z, 51); (2%Z, 52)] (mkMessage #"Commit" #"1") (mkMessage #"Commit" #"2"))
    as [(t & t1 & t2 & ws1 & ws2 & Hreg & H1 & Hw1 & Hf1 & H2 & Hw2 & Hf2) _].
  - intros ev. by eexists.
  - done.
  - reflexivity.
  - vm_compute. reflexivity.
  - vm_compute. reflexivity.
  - cbn. set_solver.
  - exists 51. cbn. split; [set_solver|done].
  - intros a Ha [ev Hev]. unfold fifo_connects in Hev. injection Hev as Hev. cbn in Ha. set_solver by lia.
  - done.
  - done.
  - exists t, t1, t2. split; [exact Hreg|]. split; [exact H1|]. apply Forall2_length in Hf1, Hf2. split.
    + by rewrite Hw1, <-Hf1.
    + split; [exact H2|]. by rewrite Hw2, length_app, <-Hf1, <-Hf2.
Defined.
