(* ===== verification/BTreeNode.v ===== *)
(** * [ledger/qldb/ql_btree_node.cc], [ql_btree_node.h], [bplus_config.h]

    The nodes of QLDB's B+ tree are chunks.  A leaf, a map node, has sorted
    entries and the identifier of the next leaf; an inner node, a meta node, has
    the largest key of each child but the last and the number of entries
    below each child.  A node that is not on the right edge of its level counts
    no entries below its last child. *)

From S2P Require Import Prelude Cpp Hash Chunk LedgerTypes.

Open Scope N_scope.

(** [BPlusConfig::ComputeSplitIndex] *)
Definition ComputeSplitIndex (size : nat) : nat := size / 2 + (if decide (size mod 2 = 0)%nat then 0 else 1).

(** ** Meta nodes *)

Record QLBTreeMeta := mkMeta { meta_level : N; meta_keys : list bytes; meta_elems : list N }.

(** [QLBTreeMeta::Encode] *)
Definition encode_meta (level : N) (keys : list bytes) (num_elems : list N) : outcome bytes :=
  let num_elem := foldl (λ s ne, u64 (s + ne)) 0 num_elems in
  entries ← mapM (λ i, k ← item keys i; ne ← item num_elems i;
    Done (le_encode 4 (N.of_nat (length k)) ++ k ++ le_encode 8 ne)) (seq 0 (length keys));
  last_elem ← item num_elems (length num_elems - 1);
  Done (make_chunk kMeta (le_encode 8 num_elem ++ le_encode 4 level
    ++ le_encode 4 (N.of_nat (length keys)) ++ mjoin entries ++ le_encode 8 last_elem)).

(** [QLBTreeMeta::PrecomputeOffset] *)
Fixpoint meta_entries (n : nat) (rest : bytes) : outcome (list bytes * list N * bytes) :=
  match n with
  | O => Done ([], [], rest)
  | S n =>
      '(key_bytes, rest) ← read_int 4 rest;
      '(k, rest) ← read_bytes key_bytes rest;
      '(ne, rest) ← read_int 8 rest;
      '(ks, nes, rest) ← meta_entries n rest;
      Done (k :: ks, ne :: nes, rest)
  end.
Definition parse_meta (m : bytes) : outcome QLBTreeMeta :=
  '(_, rest) ← read_int 8 (data m);
  '(level, rest) ← read_int 4 rest;
  '(n_entries, rest) ← read_int 4 rest;
  '(ks, nes, rest) ← meta_entries (N.to_nat n_entries) rest;
  '(last_elem, _) ← read_int 8 rest;
  Done (mkMeta level ks (nes ++ [last_elem])).

Definition numEntries (meta : QLBTreeMeta) : nat := length (meta_keys meta).

(** ** Map nodes *)

Record QLBTreeMap := mkMap { map_level : N; map_entries_ : list (bytes * bytes); map_next : bytes }.

(** [QLBTreeMap::Encode] *)
Definition encode_entry (e : bytes * bytes) : bytes :=
  le_encode 4 (N.of_nat (8 + length e.1 + length e.2)) ++ le_encode 4 (N.of_nat (length e.1)) ++ e.1 ++ e.2.
Definition encode_map (level : N) (entries : list (bytes * bytes)) (next : bytes) : bytes :=
  make_chunk kMap (le_encode 8 (N.of_nat (length entries)) ++ le_encode 4 level
    ++ le_encode 4 (N.of_nat (length entries)) ++ mjoin (encode_entry <$> entries)
    ++ le_encode 4 (N.of_nat (length next)) ++ next).

(** [QLBTreeMap::EmptyMap] *)
Definition EmptyMap : bytes :=
  make_chunk kMap (le_encode 8 0 ++ le_encode 4 0 ++ le_encode 4 0 ++ le_encode 4 0).

(** [QLBTreeMap::PrecomputeOffset]; an entry says how many bytes it has. *)
Definition map_entry (rest : bytes) : outcome (bytes * bytes * bytes) :=
  '(n_bytes, r) ← read_int 4 rest;
  '(key_bytes, r) ← read_int 4 r;
  '(k, r) ← read_bytes key_bytes r;
  '(v, _) ← read_bytes (u64 (n_bytes + 2 ^ 64 - key_bytes + 2 ^ 64 - 8)) r;
  '(_, rest) ← read_bytes n_bytes rest;
  Done (k, v, rest).
Fixpoint map_entries_of (n : nat) (rest : bytes) : outcome (list (bytes * bytes) * bytes) :=
  match n with
  | O => Done ([], rest)
  | S n =>
      '(k, v, rest) ← map_entry rest;
      '(es, rest) ← map_entries_of n rest;
      Done ((k, v) :: es, rest)
  end.
Definition parse_map (m : bytes) : outcome QLBTreeMap :=
  '(_, rest) ← read_int 8 (data m);
  '(level, rest) ← read_int 4 rest;
  '(n_entries, rest) ← read_int 4 rest;
  '(es, rest) ← map_entries_of (N.to_nat n_entries) rest;
  '(next_bytes, rest) ← read_int 4 rest;
  '(next, _) ← read_bytes next_bytes rest;
  Done (mkMap level es next).

(** [numElements()] of either kind. *)
Definition numElements (m : bytes) : N := le_decode (take 8 (data m)).

(** ** Search in a meta node *)

(** The scan that ends a search. *)
Fixpoint scan_keys (key : bytes) (keys : list bytes) : nat :=
  match keys with
  | [] => 0
  | k :: keys => if bytes_ltb k key then S (scan_keys key keys) else 0
  end.

(** [QLBTreeMeta::BinarySearch] *)
Fixpoint BinarySearch (fuel : nat) (keys : list bytes) (key : bytes) (start fin : Z) : outcome Z :=
  match fuel with
  | O => Stop OutOfFuel
  | S fuel =>
      if (fin <=? start)%Z then
        let start := if (Z.of_nat (length keys) <? start)%Z then Z.of_nat (length keys) else start in
        if (start <? 0)%Z then Stop Undefined
        else Done (start + Z.of_nat (scan_keys key (drop (Z.to_nat start) keys)))%Z
      else
        let pivot := ((fin + start) ÷ 2)%Z in
        if (pivot <? 0)%Z then Stop Undefined
        else
          k ← item keys (Z.to_nat pivot);
          if decide (key = k) then Done pivot
          else if bytes_ltb key k then BinarySearch fuel keys key start (pivot - 1)
          else BinarySearch fuel keys key (pivot + 1) fin
  end.

(** ** Facts: what is encoded is read back *)

Definition short (b : bytes) : Prop := N.of_nat (length b) < 2 ^ 32.

Definition meta_entry (k : bytes) (ne : N) : bytes :=
  le_encode 4 (N.of_nat (length k)) ++ k ++ le_encode 8 ne.

Lemma meta_entries_encoded ks nes rest :
  length ks = length nes → Forall short ks → Forall (λ ne, ne < 2 ^ 64) nes →
  meta_entries (length ks) (mjoin (zip_with meta_entry ks nes) ++ rest) = Done (ks, nes, rest).
Proof.
  revert nes. induction ks as [|k ks IH]; intros [|ne nes] Hl Hks Hnes; try done.
  inversion Hks as [|?? Hk Hks']; subst. inversion Hnes as [|?? Hne Hnes']; subst.
  cbn [length meta_entries zip_with]. rewrite mjoin_cons. unfold meta_entry at 1. rewrite <-!app_assoc.
  rewrite read_sized, bind_Done, read_bytes_app, bind_Done, read_int_encode, bind_Done by done.
  injection Hl as Hl. by rewrite IH, bind_Done.
Qed.

Lemma item_here {A} (p : list A) x l j : length p = j → item (p ++ x :: l) j = Done x.
Proof. intros <-. unfold item. by rewrite lookup_app_r, Nat.sub_diag by lia. Qed.

Lemma mapM_entries ks nes extra :
  length ks = length nes →
  mapM (λ i, k ← item ks i; ne ← item (nes ++ extra) i;
    Done (le_encode 4 (N.of_nat (length k)) ++ k ++ le_encode 8 ne)) (seq 0 (length ks))
  = Done (zip_with meta_entry ks nes).
Proof.
  intros Hl.
  cut (∀ j, j + length ks = j + length ks → ∀ (pk : list bytes) (pn : list N), length pk = j → length pn = j →
    mapM (λ i, k ← item (pk ++ ks) i; ne ← item (pn ++ nes ++ extra) i;
      Done (le_encode 4 (N.of_nat (length k)) ++ k ++ le_encode 8 ne)) (seq j (length ks))
    = Done (zip_with meta_entry ks nes))%nat.
  { intros Hc. exact (Hc 0%nat eq_refl [] [] eq_refl eq_refl). }
  revert nes Hl. induction ks as [|k ks IH]; intros [|ne nes] Hl j _ pk pn Hpk Hpn; try done.
  cbn [length seq]. cbn [mapM app]. rewrite (item_here pk k ks j), (item_here pn ne (nes ++ extra) j), !bind_Done by done.
  injection Hl as Hl.
  specialize (IH nes Hl (S j) eq_refl (pk ++ [k]) (pn ++ [ne]) ltac:(len) ltac:(len)).
  rewrite <-!app_assoc in IH. cbn [app] in IH. by rewrite IH.
Qed.

(** The sum that a meta node records. *)
Definition sum_elems (elems : list N) : N := foldr N.add 0 elems.

Lemma foldl_sum elems s :
  s + sum_elems elems < 2 ^ 64 → foldl (λ s ne, u64 (s + ne)) s elems = s + sum_elems elems.
Proof.
  revert s. induction elems as [|e elems IH]; intros s Hs; cbn [foldl]; [cbn; lia|].
  change (sum_elems (e :: elems)) with (e + sum_elems elems) in *.
  rewrite u64_small by lia. rewrite IH; lia.
Qed.

Definition meta_size (ks : list bytes) (nes : list N) : nat :=
  29 + length (mjoin (zip_with meta_entry ks nes)).

Record meta_ok (level : N) (ks : list bytes) (nes : list N) (e : N) : Prop := {
  mo_level : level < 2 ^ 32;
  mo_length : length ks = length nes;
  mo_size : N.of_nat (meta_size ks nes) < 2 ^ 32;
  mo_sum : sum_elems (nes ++ [e]) < 2 ^ 64;
}.

Definition meta_bytes (level : N) (ks : list bytes) (nes : list N) (e : N) : bytes :=
  make_chunk kMeta (le_encode 8 (sum_elems (nes ++ [e])) ++ le_encode 4 level
    ++ le_encode 4 (N.of_nat (length ks)) ++ mjoin (zip_with meta_entry ks nes) ++ le_encode 8 e).

Lemma encode_meta_bytes level ks nes e : meta_ok level ks nes e →
  encode_meta level ks (nes ++ [e]) = Done (meta_bytes level ks nes e).
Proof.
  intros [_ Hl _ Hs]. unfold encode_meta. rewrite mapM_entries, bind_Done by done.
  rewrite length_app. cbn [length].
  rewrite (item_here nes e []), bind_Done, foldl_sum by lia. done.
Qed.

Lemma elem_length_join {A} (l : list (list A)) x : x ∈ l → (length x <= length (mjoin l))%nat.
Proof.
  induction l as [|y l IH]; intros Hx; [by apply elem_of_nil in Hx|].
  rewrite mjoin_cons, length_app.
  apply elem_of_cons in Hx as [->|Hx]; [lia|]. apply IH in Hx. lia.
Qed.

Lemma length_join_zip ks nes : length ks = length nes →
  (length ks <= length (mjoin (zip_with meta_entry ks nes)))%nat.
Proof.
  revert nes. induction ks as [|k ks IH]; intros [|ne nes] Hl; try done.
  injection Hl as Hl. cbn [zip_with]. rewrite mjoin_cons, length_app.
  specialize (IH nes Hl). unfold meta_entry at 1. len.
Qed.

Lemma meta_keys_short level ks nes e : meta_ok level ks nes e → Forall short ks.
Proof.
  intros [_ Hl Hz _]. apply Forall_lookup. intros i k Hk.
  destruct (lookup_lt_is_Some_2 nes i) as [ne Hne]; [rewrite <-Hl; by eapply lookup_lt_Some|].
  assert (meta_entry k ne ∈ zip_with meta_entry ks nes) as Hin.
  { apply list_elem_of_lookup. exists i. by rewrite lookup_zip_with, Hk, Hne. }
  apply elem_length_join in Hin. unfold short, meta_size, meta_entry in *. len.
Qed.

Lemma sum_elems_le elems ne : ne ∈ elems → ne <= sum_elems elems.
Proof.
  induction elems as [|e elems IH]; intros Hin; [by apply elem_of_nil in Hin|].
  change (sum_elems (e :: elems)) with (e + sum_elems elems).
  apply elem_of_cons in Hin as [->|Hin]; [lia|]. apply IH in Hin. lia.
Qed.

Lemma parse_meta_bytes level ks nes e : meta_ok level ks nes e →
  ∀ rest, parse_meta (meta_bytes level ks nes e ++ rest) = Done (mkMeta level ks (nes ++ [e])).
Proof.
  intros Hok rest. pose proof (meta_keys_short _ _ _ _ Hok) as Hks. destruct Hok as [Hlv Hl Hz Hs].
  unfold parse_meta, meta_bytes. rewrite data_make_chunk, <-!app_assoc, read_int_encode, bind_Done by done.
  rewrite read_int_encode, bind_Done by done. pose proof (length_join_zip ks nes Hl).
  rewrite read_int_encode, bind_Done by (unfold meta_size in Hz; change (256 ^ N.of_nat 4) with (2 ^ 32); lia).
  rewrite Nat2N.id, meta_entries_encoded, bind_Done; [|done|done|].
  - rewrite read_int_encode, bind_Done; [done|].
    change (256 ^ N.of_nat 8) with (2 ^ 64). pose proof (sum_elems_le (nes ++ [e]) e ltac:(set_solver)). lia.
  - apply Forall_forall. intros ne Hne. pose proof (sum_elems_le (nes ++ [e]) ne ltac:(set_solver)). lia.
Qed.

(** The same for map nodes. *)
Definition map_size (es : list (bytes * bytes)) (next : bytes) : nat :=
  25 + length (mjoin (encode_entry <$> es)) + length next.

Record map_ok (level : N) (es : list (bytes * bytes)) (next : bytes) : Prop := {
  po_level : level < 2 ^ 32;
  po_size : N.of_nat (map_size es next) < 2 ^ 32;
}.

Lemma length_encode_entry e : length (encode_entry e) = (8 + length e.1 + length e.2)%nat.
Proof. unfold encode_entry. len. Qed.

Definition entry_ok (e : bytes * bytes) : Prop := N.of_nat (length (encode_entry e)) < 2 ^ 32.

Lemma map_entry_encoded k v rest : entry_ok (k, v) →
  map_entry (encode_entry (k, v) ++ rest) = Done (k, v, rest).
Proof.
  intros Hok. unfold map_entry. pose proof (read_bytes_app (encode_entry (k, v)) rest) as Hall.
  unfold entry_ok in Hok. rewrite length_encode_entry in Hok, Hall. cbn [fst snd] in Hok, Hall.
  unfold encode_entry in Hall |- *. cbn [fst snd] in Hall |- *. rewrite <-!app_assoc in Hall |- *.
  assert (256 ^ N.of_nat 4 = 2 ^ 32) as E by reflexivity.
  rewrite read_int_encode, bind_Done by lia. rewrite read_int_encode, bind_Done by lia.
  rewrite read_bytes_app, bind_Done.
  replace (u64 _) with (N.of_nat (length v)); [by rewrite read_bytes_app, Hall, !bind_Done|].
  unfold u64.
  replace (N.of_nat (8 + length k + length v) + 2 ^ 64 - N.of_nat (length k) + 2 ^ 64 - 8)
    with (N.of_nat (length v) + 2 * 2 ^ 64) by lia.
  rewrite N.Div0.mod_add, N.mod_small by lia. done.
Qed.

Lemma map_entries_encoded es rest : Forall entry_ok es →
  map_entries_of (length es) (mjoin (encode_entry <$> es) ++ rest) = Done (es, rest).
Proof.
  induction es as [|[k v] es IH]; intros Hok; [done|]. inversion Hok as [|?? Hk Hes]; subst.
  cbn [length map_entries_of fmap list_fmap]. rewrite mjoin_cons, <-app_assoc.
  rewrite map_entry_encoded, bind_Done by done. change (list_fmap _ _ encode_entry es) with (encode_entry <$> es).
  by rewrite IH, bind_Done.
Qed.

Lemma map_ok_entries level es next : map_ok level es next → Forall entry_ok es.
Proof.
  intros [_ Hz]. apply Forall_forall. intros e He. unfold entry_ok.
  assert (encode_entry e ∈ encode_entry <$> es) as Hin by (by apply list_elem_of_fmap_2).
  apply elem_length_join in Hin. unfold map_size in Hz. lia.
Qed.

Lemma length_join_entries es : (length es <= length (mjoin (encode_entry <$> es)))%nat.
Proof.
  induction es as [|e es IH]; [done|]. rewrite fmap_cons, mjoin_cons, length_app, length_encode_entry.
  cbn. lia.
Qed.

Lemma parse_map_bytes level es next : map_ok level es next →
  ∀ rest, parse_map (encode_map level es next ++ rest) = Done (mkMap level es next).
Proof.
  intros Hok rest. pose proof (map_ok_entries _ _ _ Hok) as Hes. destruct Hok as [Hlv Hz].
  pose proof (length_join_entries es). unfold map_size in Hz.
  assert (256 ^ N.of_nat 4 = 2 ^ 32) as E by reflexivity.
  unfold parse_map, encode_map. rewrite data_make_chunk, <-!app_assoc.
  rewrite read_int_encode, bind_Done by (change (256 ^ N.of_nat 8) with (2 ^ 64); lia).
  rewrite read_int_encode, bind_Done by lia. rewrite read_int_encode, bind_Done by lia.
  rewrite Nat2N.id, map_entries_encoded, bind_Done by done.
  rewrite read_int_encode, bind_Done by lia. by rewrite read_bytes_app, bind_Done.
Qed.

Lemma EmptyMap_map : EmptyMap = encode_map 0 [] [].
Proof. done. Qed.

Lemma type_encode_map level es next rest : type (encode_map level es next ++ rest) = Some kMap.
Proof. apply type_make_chunk. Qed.
Lemma type_meta_bytes level ks nes e rest : type (meta_bytes level ks nes e ++ rest) = Some kMeta.
Proof. apply type_make_chunk. Qed.

Lemma numElements_map level es next rest : map_ok level es next →
  numElements (encode_map level es next ++ rest) = N.of_nat (length es).
Proof.
  intros [_ Hz]. unfold numElements, encode_map. rewrite data_make_chunk, <-!app_assoc.
  pose proof (length_join_entries es). unfold map_size in Hz.
  rewrite take_app_length', le_decode_encode_small by (rewrite ?length_le_encode; change (256 ^ N.of_nat 8) with (2 ^ 64); lia).
  done.
Qed.
Lemma numElements_meta level ks nes e rest : meta_ok level ks nes e →
  numElements (meta_bytes level ks nes e ++ rest) = sum_elems (nes ++ [e]).
Proof.
  intros [_ _ _ Hs]. unfold numElements, meta_bytes. rewrite data_make_chunk, <-!app_assoc.
  by rewrite take_app_length', le_decode_encode_small by (rewrite ?length_le_encode; change (256 ^ N.of_nat 8) with (2 ^ 64); done).
Qed.

Lemma contents_map level es next rest : map_ok level es next →
  contents (encode_map level es next ++ rest) = encode_map level es next.
Proof. intros [_ Hz]. apply contents_make_chunk. unfold map_size, kMetaLength, kChunkTypeOffset in *. len. Qed.
Lemma contents_meta level ks nes e rest : meta_ok level ks nes e →
  contents (meta_bytes level ks nes e ++ rest) = meta_bytes level ks nes e.
Proof. intros [_ _ Hz _]. apply contents_make_chunk. unfold meta_size, kMetaLength, kChunkTypeOffset in *. len. Qed.

(** ** Facts: the search finds the first key that is not smaller *)

Lemma scan_keys_le key ks : (scan_keys key ks <= length ks)%nat.
Proof. induction ks as [|k ks IH]; cbn; [done|]. destruct (bytes_ltb k key); lia. Qed.

Lemma scan_keys_below key ks i k :
  ks !! i = Some k → (i < scan_keys key ks)%nat → bytes_lt k key.
Proof.
  revert i. induction ks as [|k' ks IH]; intros i Hi Hlt; [done|]. cbn in Hlt.
  destruct (bytes_ltb k' key) eqn:E; [|lia]. destruct i as [|i]; [|apply (IH i); [done|lia]].
  injection Hi as <-. by apply bytes_ltb_lt.
Qed.

Lemma scan_keys_at key ks k :
  ks !! scan_keys key ks = Some k → ¬ bytes_lt k key.
Proof.
  induction ks as [|k' ks IH]; cbn; [done|]. destruct (bytes_ltb k' key) eqn:E; [done|].
  intros [= <-] Hlt%bytes_ltb_lt. congruence.
Qed.

(** The number of keys that are smaller, by a bound on both sides. *)
Lemma scan_keys_unique key ks i :
  (i <= length ks)%nat → (∀ j k, ks !! j = Some k → (j < i)%nat → bytes_lt k key) →
  (∀ k, ks !! i = Some k → ¬ bytes_lt k key) → scan_keys key ks = i.
Proof.
  intros Hi Hlo Hhi. destruct (lt_eq_lt_dec (scan_keys key ks) i) as [[Hlt|?]|Hgt]; [|done|].
  - destruct (lookup_lt_is_Some_2 ks (scan_keys key ks)) as [k Hk]; [lia|].
    by destruct (scan_keys_at key ks k Hk (Hlo _ _ Hk Hlt)).
  - pose proof (scan_keys_le key ks).
    destruct (lookup_lt_is_Some_2 ks i) as [k Hk]; [lia|].
    by destruct (Hhi k Hk (scan_keys_below key ks i k Hk Hgt)).
Qed.

Lemma scan_keys_drop key ks n :
  (n <= scan_keys key ks)%nat → (n + scan_keys key (drop n ks) = scan_keys key ks)%nat.
Proof.
  revert n. induction ks as [|k ks IH]; intros n Hn; [by rewrite drop_nil; cbn in *; lia|].
  destruct n as [|n]; [done|]. cbn in *. destruct (bytes_ltb k key); [|lia]. rewrite IH; lia.
Qed.

Lemma sorted_lookup_lt ks i j a b :
  StronglySorted bytes_lt ks → ks !! i = Some a → ks !! j = Some b → (i < j)%nat → bytes_lt a b.
Proof.
  intros Hs. revert i j. induction Hs as [|k ks Hs IH Hall]; intros i j Ha Hb Hij; [done|].
  destruct j as [|j]; [lia|]. destruct i as [|i]; [|apply (IH i j); [done..|lia]].
  injection Ha as <-. cbn in Hb. rewrite Forall_forall in Hall. apply Hall. by eapply list_elem_of_lookup_2.
Qed.

Lemma BinarySearch_from fuel ks key start fin :
  StronglySorted bytes_lt ks → (0 <= start <= Z.of_nat (scan_keys key ks))%Z →
  (fin <= Z.of_nat (length ks))%Z → (fin - start < Z.of_nat fuel)%Z → fuel ≠ 0%nat →
  BinarySearch fuel ks key start fin = Done (Z.of_nat (scan_keys key ks)).
Proof.
  intros Hsort. pose proof (scan_keys_le key ks) as Hle.
  revert start fin. induction fuel as [|fuel IH]; intros start fin Hst Hfin Hf Hz; [done|].
  cbn [BinarySearch]. destruct (Z.leb_spec fin start).
  { rewrite (proj2 (Z.ltb_ge (Z.of_nat (length ks)) start)) by lia.
    rewrite (proj2 (Z.ltb_ge start 0)) by lia. f_equal.
    pose proof (scan_keys_drop key ks (Z.to_nat start)). lia. }
  rewrite (Z.quot_div_nonneg (fin + start) 2) by lia.
  set (pivot := ((fin + start) / 2)%Z) in *.
  assert (start <= pivot < fin)%Z as Hp by (unfold pivot; pose proof (Z.div_mod (fin + start) 2); pose proof (Z.mod_pos_bound (fin + start) 2); lia).
  clearbody pivot. rewrite (proj2 (Z.ltb_ge _ _)) by lia. unfold item.
  destruct (lookup_lt_is_Some_2 ks (Z.to_nat pivot)) as [k Hk]; [lia|]. rewrite Hk, bind_Done.
  destruct (decide (key = k)) as [->|Hne].
  - f_equal. rewrite (scan_keys_unique k ks (Z.to_nat pivot)); [lia|lia|..].
    + intros j k' Hk' Hj. by eapply sorted_lookup_lt.
    + intros k' Hk'. rewrite Hk in Hk'. injection Hk' as <-. apply bytes_lt_irrefl.
  - destruct (bytes_ltb key k) eqn:Elt.
    + apply IH; lia.
    + assert (Z.to_nat pivot < scan_keys key ks)%nat as Hlt.
      { destruct (decide (Z.to_nat pivot < scan_keys key ks)%nat); [done|]. exfalso.
        assert (bytes_lt k key) as Hkk.
        { destruct (bytes_lt_total k key) as [?|[?|?%bytes_ltb_lt]]; congruence. }
        destruct (lookup_lt_is_Some_2 ks (scan_keys key ks)) as [k' Hk']; [lia|].
        apply (scan_keys_at key ks k' Hk').
        destruct (decide (scan_keys key ks = Z.to_nat pivot)) as [E|]; [congruence|].
        transitivity k; [|done]. eapply sorted_lookup_lt; eauto. lia. }
      apply IH; lia.
Qed.

(** [BinarySearch(key, 0, numEntries())] *)
Definition search_meta (meta : QLBTreeMeta) (key : bytes) : outcome nat :=
  i ← BinarySearch (S (S (numEntries meta))) (meta_keys meta) key 0 (Z.of_nat (numEntries meta));
  Done (Z.to_nat i).

Lemma search_meta_spec meta key :
  StronglySorted bytes_lt (meta_keys meta) → search_meta meta key = Done (scan_keys key (meta_keys meta)).
Proof.
  intros Hs. unfold search_meta. rewrite BinarySearch_from, bind_Done by (done || unfold numEntries; lia).
  by rewrite Nat2Z.id.
Qed.
