(* ===== verification/BTree.v ===== *)
(** * [ledger/qldb/ql_btree.cc], [ql_btree.h], [ql_btree_delta.h]: QLDB's B+ tree

    Nodes are stored under ["<prefix><level>|<id>"], where the identifier is the
    largest key below the node, or ["_INFI_"] on the right edge of its level; the root is
    stored under ["<prefix>ROOT"].  An insertion writes the nodes of its path
    into a delta, which is committed to the store from the root down.

    A chunk read from the store is read through the cache of chunks, which is
    transparent ([DB.m_cache_transparent]); a null chunk is [None]. *)

From S2P Require Import Prelude Cpp Hash Chunk DB LedgerTypes BTreeNode.

Open Scope N_scope.

(** [db_->Get(key)] as a chunk. *)
Definition get_chunk `{StringStore D} (d : D) (key : bytes) : option bytes :=
  match ss_get d key with [] => None | m => Some m end.
(** [db_->Put(key, chunk)] *)
Definition put_chunk `{StringStore D} (d : D) (key m : bytes) : D := ss_put d key (contents m).

(** [QLBTreeDelta]: the dirty chunks. *)
Abbreviation delta := (gmap bytes bytes).

Record QLBTreeInsertResult := mkInsertResult {
  isSplit : bool;
  split_key : bytes;
  level : N;
  num_elems : list N;
}.

(** The tree; [root_cached] says that the memory of the root belongs to the cache
    and not to [kEmptyMap]. *)
Record QLBTree := mkQLBTree { prefix_ : bytes; root_node : bytes; root_cached : bool }.

Definition node_id (prefix : bytes) (level : N) (id : bytes) : bytes :=
  prefix ++ to_string level ++ #"|" ++ id.
Definition INFI : bytes := #"_INFI_".
Definition root_key (prefix : bytes) : bytes := prefix ++ #"ROOT".

(** The child of a meta node at an index. *)
Definition child_key (prefix : bytes) (meta : QLBTreeMeta) (index : nat) : outcome bytes :=
  id ← (if decide (index = numEntries meta) then Done INFI else item (meta_keys meta) index);
  Done (node_id prefix (u64 (meta_level meta + 2 ^ 64 - 1)) id).

(** ** Updates of a node *)

(** The loop of [Insert] over the entries of a leaf. *)
Fixpoint insert_entries (key value : bytes) (inserted : bool) (es : list (bytes * bytes))
  : list (bytes * bytes) :=
  match es with
  | [] => if inserted then [] else [(key, value)]
  | (k, v) :: es =>
      let now := negb inserted && bytes_ltb key k in
      let same := bool_decide (key = k) in
      (if now then [(key, value)] else [])
        ++ (k, if same then value else v) :: insert_entries key value (inserted || now || same) es
  end.

Section BTree.
Context (fanout leaf_fanout : nat).

(** [Insert] into a leaf. *)
Definition insert_map (prefix m key value : bytes) (dl : delta) : outcome (QLBTreeInsertResult * delta) :=
map ← parse_map m;
let es := insert_entries key value false (map_entries_ map) in
let n := length es in
last_entry ← item es (n - 1);
let id := match map_next map with [] => INFI | _ => last_entry.1 end in
if (n <=? leaf_fanout)%nat then
  Done (mkInsertResult false [] 0 [N.of_nat n],
        <[node_id prefix 0 id := encode_map 0 es (map_next map)]> dl)
else
  let split_idx := ComputeSplitIndex n in
  split ← item es (split_idx - 1);
  let es1 := take split_idx es in
  let es2 := drop split_idx es in
  let node_id1 := node_id prefix 0 split.1 in
  last2 ← (match map_next map with [] => Done INFI | _ => e ← item es2 (length es2 - 1); Done e.1 end);
  let node_id2 := node_id prefix 0 last2 in
  Done (mkInsertResult true split.1 0 [N.of_nat (length es1); N.of_nat (length es2)],
        <[node_id2 := encode_map 0 es2 (map_next map)]> (<[node_id1 := encode_map 0 es1 node_id2]> dl)).

(** The keys and counts of a meta node after its child at [index] was updated. *)
Definition new_keys (meta : QLBTreeMeta) (index : nat) (retval : QLBTreeInsertResult) : list bytes :=
let split := if isSplit retval then [split_key retval] else [] in
mjoin (imap (λ i k, if decide (i = index) then split ++ [k] else [k]) (meta_keys meta))
  ++ (if (numEntries meta <=? index)%nat then split else []).
Definition new_elems (meta : QLBTreeMeta) (index : nat) (retval : QLBTreeInsertResult) : outcome (list N) :=
last_elem ← item (meta_elems meta) (numEntries meta);
Done (mjoin (imap (λ i ne, if decide (i = index) then num_elems retval else [ne])
               (take (numEntries meta) (meta_elems meta)))
      ++ (if (numEntries meta <=? index)%nat then num_elems retval else [last_elem])).

(** The new node or nodes of [UpdateChild]; [last_elem] is the old count below the
last child. *)
Definition rebuild (prefix : bytes) (lv : N) (ks : list bytes) (nes : list N) (last_elem : N) (dl : delta)
  : outcome (QLBTreeInsertResult * delta) :=
thisid ← (if last_elem =? 0 then item ks (length ks - 1) else Done INFI);
if (length ks <=? fanout)%nat then
  chunk1 ← encode_meta lv ks nes;
  Done (mkInsertResult false [] lv [numElements chunk1], <[node_id prefix lv thisid := chunk1]> dl)
else
  let split_idx := ComputeSplitIndex (length ks) in
  split ← item ks (split_idx - 1);
  chunk1 ← encode_meta lv (take split_idx ks) (take split_idx nes ++ [0]);
  chunk2 ← encode_meta lv (drop split_idx ks) (drop split_idx nes);
  Done (mkInsertResult true split lv [numElements chunk1; numElements chunk2],
        <[node_id prefix lv thisid := chunk2]> (<[node_id prefix lv split := chunk1]> dl)).

(** [QLBTreeMeta::UpdateChild] *)
Definition UpdateChild (prefix : bytes) (meta : QLBTreeMeta) (index : nat) (retval : QLBTreeInsertResult)
  (dl : delta) : outcome (QLBTreeInsertResult * delta) :=
nes ← new_elems meta index retval;
last_elem ← item (meta_elems meta) (numEntries meta);
rebuild prefix (meta_level meta) (new_keys meta index retval) nes last_elem dl.

Section Ops.
Context `{StringStore D}.
Implicit Types d : D.

(** The constructor of [QLBTree]. *)
Definition open_tree d (prefix : bytes) : QLBTree :=
match get_chunk d (root_key prefix) with
| None => mkQLBTree prefix EmptyMap false
| Some chunk => mkQLBTree prefix chunk true
end.

(** ** Reads *)

Fixpoint find_entry (key : bytes) (es : list (bytes * bytes)) : option bytes :=
match es with
| [] => None
| (k, v) :: es =>
    if decide (key = k) then Some v else if bytes_ltb key k then None else find_entry key es
end.

Fixpoint TryGet (fuel : nat) (prefix : bytes) d (m key : bytes) : outcome (option bytes) :=
match type m with
| Some kMap => map ← parse_map m; Done (find_entry key (map_entries_ map))
| Some kMeta =>
    match fuel with
    | O => Stop OutOfFuel
    | S fuel =>
        meta ← parse_meta m;
        index ← search_meta meta key;
        id ← child_key prefix meta index;
        match get_chunk d id with
        | None => Stop Undefined
        | Some child => TryGet fuel prefix d child key
        end
    end
| _ => Done None
end.
Definition bt_Get (fuel : nat) (t : QLBTree) d (key : bytes) : outcome (option bytes) :=
TryGet fuel (prefix_ t) d (root_node t) key.

(** [FindKey]: the entries of a leaf in memory between two keys. *)
Fixpoint find_keys (n : nat) (rest from to : bytes) (result : gmap bytes bytes) : outcome (gmap bytes bytes) :=
match n with
| O => Done result
| S n =>
    '(num_bytes, rest) ← read_int 4 rest;
    '(key_bytes, rest) ← read_int 4 rest;
    '(k, rest) ← read_bytes key_bytes rest;
    let val_bytes := u64 (u32 (num_bytes + 2 ^ 32 - key_bytes) + 2 ^ 64 - 8) in
    if negb (bytes_ltb k from) && negb (bytes_ltb to k) then
      '(v, rest) ← read_bytes val_bytes rest;
      find_keys n rest from to (match result !! k with Some _ => result | None => <[k := v]> result end)
    else if bytes_ltb to k then Done result
    else '(_, rest) ← read_bytes val_bytes rest; find_keys n rest from to result
end.
Definition FindKey (m from to : bytes) (result : gmap bytes bytes) : outcome (gmap bytes bytes) :=
'(_, rest) ← read_bytes 12 (data m);
'(num_entry, rest) ← read_int 4 rest;
find_keys (N.to_nat num_entry) rest from to result.

Fixpoint TryRange (fuel : nat) (prefix : bytes) d (m start fin : bytes) (result : gmap bytes bytes)
  : outcome (gmap bytes bytes) :=
match type m with
| Some kMap => FindKey m start fin result
| Some kMeta =>
    match fuel with
    | O => Stop OutOfFuel
    | S fuel =>
        meta ← parse_meta m;
        from ← search_meta meta start;
        to ← search_meta meta fin;
        foldl (λ acc i,
            result ← acc;
            id ← child_key prefix meta i;
            match get_chunk d id with
            | None => Stop Undefined
            | Some child => TryRange fuel prefix d child start fin result
            end) (Done result) (seq from (S to - from))
    end
| _ => Done result
end.
Definition bt_Range (fuel : nat) (t : QLBTree) d (start fin : bytes) : outcome (gmap bytes bytes) :=
TryRange fuel (prefix_ t) d (root_node t) start fin ∅.

(** ** Writes *)

(** A node that the delta may hold. *)
Definition view (dl : delta) d (id : bytes) : option bytes :=
match dl !! id with Some m => Some m | None => get_chunk d id end.

Fixpoint Insert (fuel : nat) (prefix : bytes) d (m key value : bytes) (dl : delta)
  : outcome (QLBTreeInsertResult * delta) :=
match type m with
| Some kMeta =>
    match fuel with
    | O => Stop OutOfFuel
    | S fuel =>
        meta ← parse_meta m;
        index ← search_meta meta key;
        id ← child_key prefix meta index;
        match view dl d id with
        | None => Stop Undefined
        | Some child =>
            '(retval, dl) ← Insert fuel prefix d child key value dl;
            UpdateChild prefix meta index retval dl
        end
    end
| Some kMap => insert_map prefix m key value dl
| _ => Done (mkInsertResult false [] 0 [], dl)
end.

(** [QLBTreeDelta::Commit] *)
Fixpoint Commit (fuel : nat) (prefix : bytes) (dl : delta) d (id : bytes) (isroot : bool) : outcome D :=
match dl !! id with
| None => Done d
| Some node =>
    let d := put_chunk d (if isroot then root_key prefix else id) node in
    match type node with
    | Some kMeta =>
        match fuel with
        | O => Stop OutOfFuel
        | S fuel =>
            meta ← parse_meta node;
            let child k := node_id prefix (u64 (meta_level meta + 2 ^ 64 - 1)) k in
            d ← foldl (λ acc k, d ← acc; Commit fuel prefix dl d (child k) false) (Done d) (meta_keys meta);
            last_elem ← item (meta_elems meta) (numEntries meta);
            if 0 <? last_elem then Commit fuel prefix dl d (child INFI) false else Done d
        end
    | _ => Done d
    end
end.

(** The loop of [Set] over the keys: the root and its identifier. *)
Fixpoint set_loop (fuel : nat) (prefix : bytes) d (root root_id : bytes) (kvs : list (bytes * bytes))
  (dl : delta) : outcome (bytes * delta) :=
match kvs with
| [] => Done (root_id, dl)
| (k, v) :: kvs =>
    '(retval, dl) ← Insert fuel prefix d root k v dl;
    '(root_id, dl) ←
      (if isSplit retval then
         chunk ← encode_meta (u64 (level retval + 1)) [split_key retval] (num_elems retval);
         let root_id := node_id prefix (u64 (level retval + 1)) INFI in
         Done (root_id, <[root_id := chunk]> dl)
       else Done (node_id prefix (level retval) INFI, dl));
    match dl !! root_id with
    | Some new_root => set_loop fuel prefix d new_root root_id kvs dl
    | None => match kvs with [] => Done (root_id, dl) | _ => Stop Undefined end
    end
end.

(** [Set(keys, vals)] *)
Definition bt_Set (fuel : nat) (t : QLBTree) d (keys vals : list bytes) : outcome (QLBTree * D * bool) :=
match keys with
| [] => Done (t, d, false)
| _ =>
    if (length vals <? length keys)%nat then Stop Undefined
    else
      '(root_id, dl) ← set_loop fuel (prefix_ t) d (root_node t) [] (zip keys vals) ∅;
      d ← Commit fuel (prefix_ t) dl d root_id true;
      match get_chunk d (root_key (prefix_ t)) with
      | None => Stop Undefined
      | Some root => Done (mkQLBTree (prefix_ t) root true, d, true)
      end
end.

(** [Set(key, val)]: the root of a split is encoded with the level of its
children, and the type of the old root is read after the commit has erased it from
the cache. *)
Definition bt_Set_one (fuel : nat) (t : QLBTree) d (key val : bytes) : outcome (QLBTree * D * bool) :=
'(retval, dl) ← Insert fuel (prefix_ t) d (root_node t) key val ∅;
'(root_id, dl, new_type) ←
  (if isSplit retval then
     new_root ← encode_meta (level retval) [split_key retval] (num_elems retval);
     let root_id := node_id (prefix_ t) (u64 (level retval + 1)) INFI in
     Done (root_id, <[root_id := new_root]> dl, Done kMeta)
   else Done (node_id (prefix_ t) (level retval) INFI, dl,
              if root_cached t then Stop Undefined
              else match type (root_node t) with Some ty => Done ty | None => Stop Undefined end));
d ← Commit fuel (prefix_ t) dl d root_id true;
match get_chunk d (root_key (prefix_ t)) with
| None => Stop Undefined
| Some root =>
    ty ← new_type;
    match ty with
    | kMeta => _ ← parse_meta root; Done (mkQLBTree (prefix_ t) root true, d, true)
    | _ => _ ← parse_map root; Done (mkQLBTree (prefix_ t) root true, d, true)
    end
end.
End Ops.
End BTree.
