(* ===== verification/BTreeSpec.v ===== *)
(** * The B+ tree is a sorted list of entries

    A node at a level stands for the sorted list of the entries below it.  The
    nodes below it are found in the delta or in the store under identifiers
    made of their level and of one of their keys, so an insertion leaves the
    nodes of its siblings alone, and a commit of the delta writes what changed. *)

From S2P Require Import Prelude Cpp Hash Chunk DB LedgerTypes BTreeNode BTree.

Open Scope N_scope.

Abbreviation entries := (list (bytes * bytes)).

(** ** Sorted entries *)

Definition sorted (m : entries) : Prop := StronglySorted bytes_lt m.*1.

Lemma sorted_app m1 m2 :
  sorted (m1 ++ m2) ↔ sorted m1 ∧ sorted m2 ∧ ∀ a b, a ∈ m1 → b ∈ m2 → bytes_lt a.1 b.1.
Proof.
  unfold sorted. induction m1 as [|e m1 IH]; cbn.
  { split; [|naive_solver]. intros Hs. repeat split; [constructor|done|]. by intros a b ?%elem_of_nil. }
  split.
  - intros Hs. apply StronglySorted_inv in Hs as [Hs Hall]. apply IH in Hs as (H1' & H2' & Hlt).
    rewrite fmap_app in Hall. apply Forall_app in Hall as [Ha Hb]. repeat split; [by constructor|done|].
    intros a b [->|Ha']%elem_of_cons Hb'; [|by apply Hlt].
    rewrite Forall_forall in Hb. apply Hb. by apply list_elem_of_fmap_2.
  - intros (H1' & H2' & Hlt). apply StronglySorted_inv in H1' as [Hs Hall]. constructor.
    + apply IH. repeat split; [done..|]. intros a b Ha Hb. apply Hlt; [by right|done].
    + rewrite fmap_app. apply Forall_app. split; [done|]. apply Forall_forall.
      intros k Hk. apply list_elem_of_fmap in Hk as (b & -> & Hb). apply Hlt; [by left|done].
Qed.

(** What an insertion makes of a sorted list. *)
Definition ins (key value : bytes) (m : entries) : entries :=
  filter (λ e, bytes_lt e.1 key) m ++ (key, value) :: filter (λ e, bytes_lt key e.1) m.

Lemma bytes_lt_asym a b : bytes_lt a b → ¬ bytes_lt b a.
Proof. intros Hab Hba. apply (bytes_lt_irrefl a). by transitivity b. Qed.

Lemma insert_entries_done key value m : sorted m → (∀ e, e ∈ m → bytes_lt key e.1) →
  insert_entries key value true m = m.
Proof.
  unfold sorted. induction m as [|[k v] m IH]; intros Hs Hlt; [done|]. cbn.
  apply StronglySorted_inv in Hs as [Hs _].
  assert (bytes_lt key k) as Hk by (apply (Hlt (k, v)); by left).
  rewrite bool_decide_false; [|intros ->; by apply bytes_lt_irrefl in Hk].
  rewrite IH; [done|done|]. intros e He. apply Hlt. by right.
Qed.

Lemma insert_entries_ins key value m : sorted m → insert_entries key value false m = ins key value m.
Proof.
  unfold sorted, ins. induction m as [|[k v] m IH]; intros Hs; [done|].
  apply StronglySorted_inv in Hs as [Hs Hall]. rewrite Forall_forall in Hall.
  assert (∀ e, e ∈ m → bytes_lt k e.1) as Hk by (intros e He; apply Hall; by apply list_elem_of_fmap_2).
  cbn [insert_entries negb andb orb]. destruct (bytes_lt_total key k) as [Hlt|[->|Hgt]].
  - rewrite (proj2 (bytes_ltb_lt _ _) Hlt), bool_decide_false; [|intros ->; by apply bytes_lt_irrefl in Hlt].
    cbn [orb app]. assert (∀ e, e ∈ m → bytes_lt key e.1) by (intros e He; transitivity k; auto).
    rewrite insert_entries_done, (filter_no (λ e, bytes_lt e.1 key)), (filter_all (λ e, bytes_lt key e.1)); try done.
    + intros e [->|He]%elem_of_cons; auto.
    + intros e [->|He]%elem_of_cons; apply bytes_lt_asym; auto.
  - rewrite bool_decide_true by done. destruct (bytes_ltb k k) eqn:E;
      [by apply bytes_ltb_lt, bytes_lt_irrefl in E|]. cbn [orb app].
    rewrite insert_entries_done, filter_cons_False by (done || apply bytes_lt_irrefl).
    rewrite (filter_no (λ e, bytes_lt e.1 k)) by (intros e He; apply bytes_lt_asym; auto).
    by rewrite filter_cons_False, (filter_all (λ e, bytes_lt k e.1)) by (done || apply bytes_lt_irrefl).
  - destruct (bytes_ltb key k) eqn:E; [by apply bytes_ltb_lt, bytes_lt_asym in E|].
    rewrite bool_decide_false by (intros ->; by apply bytes_lt_irrefl in Hgt). cbn [orb app].
    rewrite filter_cons_True, filter_cons_False by (done || by apply bytes_lt_asym). by rewrite IH.
Qed.

(** An insertion into the middle of three lists. *)
Lemma ins_middle key value m1 m m2 :
  (∀ e, e ∈ m1 → bytes_lt e.1 key) → (∀ e, e ∈ m2 → bytes_lt key e.1) →
  ins key value (m1 ++ m ++ m2) = m1 ++ ins key value m ++ m2.
Proof.
  intros Hlo Hhi. unfold ins. rewrite !filter_app.
  rewrite (filter_all (λ e, bytes_lt e.1 key) m1), (filter_no (λ e, bytes_lt e.1 key) m2),
    (filter_no (λ e, bytes_lt key e.1) m1), (filter_all (λ e, bytes_lt key e.1) m2);
    auto using bytes_lt_asym.
  by rewrite app_nil_r, <-!app_assoc.
Qed.

Lemma elem_of_ins key value m e : e ∈ ins key value m → e = (key, value) ∨ e ∈ m.
Proof. unfold ins. rewrite elem_of_app, elem_of_cons, !list_elem_of_filter. naive_solver. Qed.

Lemma ins_nonnil key value m : ins key value m ≠ [].
Proof. unfold ins. intros E. by apply app_eq_nil in E as [_ ?]. Qed.

Lemma sorted_filter_entries (P : bytes * bytes → Prop) `{∀ e, Decision (P e)} m : sorted m → sorted (filter P m).
Proof.
  unfold sorted. induction m as [|e m IH]; intros Hs; [done|].
  apply StronglySorted_inv in Hs as [Hs Hall]. destruct (decide (P e)).
  - rewrite filter_cons_True by done. constructor; [auto|].
    rewrite Forall_forall in Hall |- *. intros k Hk. apply Hall.
    apply list_elem_of_fmap in Hk as (x & -> & Hx). apply list_elem_of_filter in Hx as [_ ?].
    by apply list_elem_of_fmap_2.
  - rewrite filter_cons_False by done. auto.
Qed.

Lemma sorted_ins key value m : sorted m → sorted (ins key value m).
Proof.
  intros Hs. unfold ins. change (?x :: ?l) with ([x] ++ l). rewrite !sorted_app.
  split; [by apply sorted_filter_entries|]. split.
  - split; [repeat constructor|]. split; [by apply sorted_filter_entries|].
    intros a b ->%list_elem_of_singleton [??]%list_elem_of_filter. done.
  - intros a b [Ha _]%list_elem_of_filter [->%list_elem_of_singleton|[Hb _]%list_elem_of_filter]%elem_of_app;
      [done|]. by transitivity key.
Qed.

Lemma length_ins key value m : (length (ins key value m) <= S (length m))%nat.
Proof.
  unfold ins. rewrite length_app. cbn [length].
  assert (length (filter (λ e : bytes * bytes, bytes_lt e.1 key) m)
    + length (filter (λ e : bytes * bytes, bytes_lt key e.1) m) <= length m)%nat; [|lia].
  induction m as [|e m IH]; [done|].
  destruct (decide (bytes_lt e.1 key)) as [Hlt|]; [rewrite (filter_cons_True _ e), (filter_cons_False _ e) by (done || by apply bytes_lt_asym)|
    rewrite (filter_cons_False _ e) by done; destruct (decide (bytes_lt key e.1));
    [rewrite filter_cons_True by done|rewrite filter_cons_False by done]]; cbn [length]; lia.
Qed.

(** ** Nodes *)

Section Repr.
Context (p : bytes) (fanout leaf_fanout : nat) (B : nat).
Context `{StringStoreLaws D}.
Implicit Types (d : D) (dl : delta) (m : entries).

Definition nid (l : nat) (k : bytes) : bytes := node_id p (N.of_nat l) k.

(** The last key of a list, and the identifier of its node. *)
Definition top m : bytes := default [] (last m.*1).
Definition own (right : bool) m : bytes := if right then INFI else top m.

(** The identifiers of the nodes under a node at level [l]. *)
Definition foot (l : nat) (right : bool) m (id : bytes) : Prop :=
  ∃ l' k, (l' < l)%nat ∧ id = nid l' k ∧ (k ∈ m.*1 ∨ right = true ∧ k = INFI).

Fixpoint repr dl d (l : nat) (right : bool) (node : bytes) m : Prop :=
  match l with
  | O => ∃ next, node = encode_map 0 m next ∧ (next = [] ↔ right = true) ∧
      (length m <= leaf_fanout)%nat ∧ (length next <= length p + 8 + B)%nat
  | S l' =>
      let child right mi := ∃ c, view dl d (nid l' (own right mi)) = Some c ∧
        repr dl d l' right c mi ∧
        (dl !! nid l' (own right mi) = None → ∀ id, foot l' right mi id → dl !! id = None) in
      ∃ parts mlast,
        node = meta_bytes (N.of_nat l) (top <$> parts) (N.of_nat ∘ length <$> parts) (N.of_nat (length mlast)) ∧
        m = mjoin parts ++ mlast ∧ parts ≠ [] ∧ (length parts <= fanout)%nat ∧
        Forall (λ mi, mi ≠ [] ∧ child false mi) parts ∧
        (right = false → mlast = []) ∧ (right = true → mlast ≠ [] ∧ child true mlast)
  end.

Definition child dl d (l : nat) (right : bool) mi : Prop :=
  ∃ c, view dl d (nid l (own right mi)) = Some c ∧ repr dl d l right c mi ∧
    (dl !! nid l (own right mi) = None → ∀ id, foot l right mi id → dl !! id = None).
Definition fresh_child dl d (l : nat) (right : bool) mi : Prop :=
  ∃ c, dl !! nid l (own right mi) = Some c ∧ repr dl d l right c mi.

Lemma fresh_child_child dl d l right mi : fresh_child dl d l right mi → child dl d l right mi.
Proof.
  intros (c & Hc & Hr). exists c. unfold view. rewrite Hc. split; [done|]. split; [done|]. by intros ?.
Qed.

(** ** What may be in a tree *)

Definition small_entry (e : bytes * bytes) : Prop :=
  (length e.1 <= B)%nat ∧ (length e.2 <= B)%nat ∧ e.1 ≠ INFI.
Record fits m : Prop := {
  ft_sorted : sorted m;
  ft_small : Forall small_entry m;
  ft_count : N.of_nat (length m) < 2 ^ 64;
}.
Hypothesis fanout_pos : (0 < fanout)%nat.
Hypothesis leaf_fanout_pos : (0 < leaf_fanout)%nat.
(** Room for a node of the largest entries. *)
Hypothesis room : N.of_nat (40 + (fanout + leaf_fanout) * (12 + 2 * B) + length p + B) < 2 ^ 32.

Lemma nid_inj l l' k k' : nid l k = nid l' k' → l = l' ∧ k = k'.
Proof.
  unfold nid, node_id. intros E%(inj (app p)).
  apply app_sep_inj in E as [El ->]; [|apply to_string_no; done..].
  apply to_string_inj in El. split; [lia|done].
Qed.

Lemma fits_app m1 m2 : fits (m1 ++ m2) → fits m1 ∧ fits m2.
Proof.
  clear fanout_pos leaf_fanout_pos room.
  intros [Hs Hm Hc]. apply sorted_app in Hs as (? & ? & _). apply Forall_app in Hm as [??].
  rewrite length_app in Hc. split; split; (done || lia).
Qed.

Lemma fits_ins key value m :
  fits m → small_entry (key, value) → N.of_nat (S (length m)) < 2 ^ 64 → fits (ins key value m).
Proof.
  clear fanout_pos leaf_fanout_pos room.
  intros [Hs Hm Hc] Hk Hc'. split; [by apply sorted_ins| |].
  - apply Forall_forall. intros e [->|He]%elem_of_ins; [done|]. rewrite Forall_forall in Hm. auto.
  - pose proof (length_ins key value m). lia.
Qed.

Lemma top_elem m : m ≠ [] → top m ∈ m.*1.
Proof.
  intros Hm. unfold top. destruct (last m.*1) as [k|] eqn:E; [by apply last_Some_elem_of|].
  apply last_None in E. by apply fmap_nil_inv in E.
Qed.

Lemma top_app m1 m2 : m2 ≠ [] → top (m1 ++ m2) = top m2.
Proof.
  intros Hm. unfold top. rewrite fmap_app, last_app. destruct (last m2.*1) eqn:E; [done|].
  apply last_None in E. by apply fmap_nil_inv in E.
Qed.

(** The last key is the largest. *)
Lemma sorted_top m e : sorted m → e ∈ m → bytes_lt e.1 (top m) ∨ e.1 = top m.
Proof.
  intros Hs He. induction m as [|x m IH] using rev_ind; [by apply elem_of_nil in He|].
  rewrite top_app by done. change (top [x]) with (x.1).
  apply sorted_app in Hs as (_ & _ & Hlt). apply elem_of_app in He as [He| ->%list_elem_of_singleton]; [|by right].
  left. apply Hlt; [done|by left].
Qed.

(** ** Frames *)

Lemma foot_mono l l' right right' m m' id :
  (l <= l')%nat → (∀ k, k ∈ m.*1 → k ∈ m'.*1) → (right = true → right' = true) →
  foot l right m id → foot l' right' m' id.
Proof.
  intros Hl Hm Hr (j & k & Hj & -> & Hk). exists j, k. split; [lia|]. split; [done|]. naive_solver.
Qed.

Lemma foot_own l right m : m ≠ [] → foot (S l) right m (nid l (own right m)).
Proof.
  intros Hm. exists l, (own right m). split; [lia|]. split; [done|].
  destruct right; [by right|left; by apply top_elem].
Qed.

(** Two states agree on an identifier. *)
Definition agree dl d dl' d' (id : bytes) : Prop := dl' !! id = dl !! id ∧ get_chunk d' id = get_chunk d id.

Lemma view_agree dl d dl' d' id : agree dl d dl' d' id → view dl' d' id = view dl d id.
Proof. unfold view. by intros [-> ->]. Qed.

Lemma part_foot l right parts mi mlast id :
  mi ∈ parts → foot (S l) false mi id → foot (S l) right (mjoin parts ++ mlast) id.
Proof.
  intros Hmi. apply foot_mono; [lia| |done]. intros k Hk.
  rewrite fmap_app, elem_of_app. left. apply list_elem_of_fmap in Hk as (e & -> & He).
  apply list_elem_of_fmap_2. apply list_elem_of_join. eauto.
Qed.
Lemma last_foot l right parts mlast id :
  foot (S l) right mlast id → foot (S l) right (mjoin parts ++ mlast) id.
Proof. apply foot_mono; [lia| |done]. intros k Hk. rewrite fmap_app, elem_of_app. by right. Qed.

Lemma repr_agree dl d dl' d' l right node m :
  (∀ id, foot l right m id → agree dl d dl' d' id) →
  repr dl d l right node m → repr dl' d' l right node m.
Proof.
  revert right node m. induction l as [|l IH]; intros right node m Hf; [done|].
  intros (parts & mlast & -> & -> & Hne & Hfan & Hparts & Hl0 & Hl1).
  assert (∀ r mi, mi ≠ [] → (∀ id, foot (S l) r mi id → agree dl d dl' d' id) →
    child dl d l r mi → child dl' d' l r mi) as Hchild.
  { intros r mi Hmi Hfi (c & Hv & Hr & Hd). exists c.
    rewrite (view_agree dl d) by (by apply Hfi, foot_own). split; [done|]. split.
    - apply IH; [|done]. intros id Hid. apply Hfi. revert Hid. apply foot_mono; [lia|done|done].
    - destruct (Hfi _ (foot_own l r mi Hmi)) as [-> _]. intros Hn id Hid.
      destruct (Hfi id) as [-> _]; [revert Hid; apply foot_mono; [lia|done|done]|]. by apply Hd. }
  exists parts, mlast. split; [done|]. split; [done|]. split; [done|]. split; [done|].
  split; [|split; [done|]].
  - rewrite Forall_forall in Hparts |- *. intros mi Hmi. destruct (Hparts mi Hmi) as [Hn Hc].
    split; [done|]. apply Hchild; [done| |done]. intros id Hid. apply Hf. by eapply part_foot.
  - intros ->. destruct (Hl1 eq_refl) as [Hn Hc]. split; [done|].
    apply Hchild; [done| |done]. intros id Hid. by apply Hf, last_foot.
Qed.

Lemma child_frame dl dl' d l right m : m ≠ [] →
  (∀ id, foot (S l) right m id → dl' !! id = dl !! id) → child dl d l right m → child dl' d l right m.
Proof.
  intros Hm Hf (c & Hv & Hr & Hd). exists c.
  rewrite (view_agree dl d) by (split; [by apply Hf, foot_own|done]).
  split; [done|]. split.
  - eapply repr_agree; [|done]. intros id Hid. split; [|done]. apply Hf. revert Hid. apply foot_mono; [lia|done|done].
  - rewrite Hf by (by apply foot_own). intros Hn id Hid.
    rewrite Hf by (revert Hid; apply foot_mono; [lia|done|done]). by apply Hd.
Qed.

(** ** Sizes *)

Lemma length_join_bound {A} (l : list (list A)) c :
  (∀ x, x ∈ l → (length x <= c)%nat) → (length (mjoin l) <= length l * c)%nat.
Proof.
  induction l as [|x l IH]; intros Hc; [done|]. rewrite mjoin_cons, length_app. cbn [length].
  pose proof (Hc x ltac:(by left)). specialize (IH ltac:(intros y Hy; apply Hc; by right)). lia.
Qed.

Lemma leaf_map_ok m next :
  (length m <= leaf_fanout)%nat → Forall small_entry m → (length next <= length p + 8 + B)%nat →
  map_ok 0 m next.
Proof.
  intros Hm Hs Hn. split; [done|]. unfold map_size.
  assert (length (mjoin (encode_entry <$> m)) <= length m * (12 + 2 * B))%nat.
  { rewrite <-(length_fmap encode_entry m). apply length_join_bound.
    intros x (e & -> & He)%list_elem_of_fmap. rewrite length_encode_entry.
    rewrite Forall_forall in Hs. destruct (Hs e He) as (? & ? & _). lia. }
  nia.
Qed.

Lemma sum_elems_app a b : sum_elems (a ++ b) = sum_elems a + sum_elems b.
Proof.
  unfold sum_elems. induction a as [|x a IH]; [cbn; lia|]. cbn. rewrite IH. lia.
Qed.

Lemma sum_lengths {A} (parts : list (list A)) :
  sum_elems (N.of_nat ∘ length <$> parts) = N.of_nat (length (mjoin parts)).
Proof.
  induction parts as [|x parts IH]; [done|]. rewrite mjoin_cons, length_app, fmap_cons.
  change (N.of_nat (length x) + sum_elems (N.of_nat ∘ length <$> parts) = N.of_nat (length x + length (mjoin parts))).
  lia.
Qed.

Lemma sum_counts (parts : list entries) mlast :
  sum_elems ((N.of_nat ∘ length <$> parts) ++ [N.of_nat (length mlast)]) = N.of_nat (length (mjoin parts ++ mlast)).
Proof. rewrite sum_elems_app, sum_lengths, length_app. cbn. lia. Qed.

Lemma part_top parts mlast mi : mi ∈ parts → mi ≠ [] →
  ∃ e, e ∈ mjoin parts ++ mlast ∧ e.1 = top mi.
Proof.
  intros Hmi Hn. apply top_elem, list_elem_of_fmap in Hn as (e & Ht & He). exists e. split; [|done].
  apply elem_of_app. left. apply list_elem_of_join. eauto.
Qed.

Lemma node_meta_ok l parts mlast :
  fits (mjoin parts ++ mlast) → (length parts <= fanout)%nat → Forall (λ mi, mi ≠ []) parts →
  N.of_nat l < 2 ^ 32 →
  meta_ok (N.of_nat l) (top <$> parts) (N.of_nat ∘ length <$> parts) (N.of_nat (length mlast)).
Proof.
  intros [Hs Hm Hc] Hf Hne Hl. split; [done|by rewrite !length_fmap| |by rewrite sum_counts].
  unfold meta_size.
  assert (length (mjoin (zip_with meta_entry (top <$> parts) (N.of_nat ∘ length <$> parts)))
    <= length parts * (12 + 2 * B))%nat; [|nia].
  etrans; [apply (length_join_bound _ (12 + 2 * B))|].
  - intros x Hx. apply elem_of_lookup_zip_with in Hx as (i & k & ne & -> & Hk & Hi).
    apply list_lookup_fmap_Some in Hk as (mi & -> & Hmi). apply list_elem_of_lookup_2 in Hmi.
    rewrite Forall_forall in Hne. rewrite Forall_forall in Hm. destruct (part_top parts mlast mi Hmi (Hne _ Hmi)) as (e & He & Et).
    destruct (Hm e He) as (Hk & _ & _). rewrite Et in Hk. unfold meta_entry. len.
  - rewrite length_zip_with, !length_fmap. nia.
Qed.

(** ** Splitting *)

Lemma split_index n : (2 <= n)%nat → (0 < ComputeSplitIndex n < n)%nat.
Proof.
  intros Hn. unfold ComputeSplitIndex. pose proof (Nat.div_mod n 2 ltac:(done)).
  pose proof (Nat.mod_upper_bound n 2). destruct (decide _); lia.
Qed.
Lemma split_index_fits n f : (n <= S f)%nat → (0 < f)%nat →
  (ComputeSplitIndex n <= f)%nat ∧ (n - ComputeSplitIndex n <= f)%nat.
Proof.
  intros Hn Hf. unfold ComputeSplitIndex. pose proof (Nat.div_mod n 2 ltac:(done)).
  pose proof (Nat.mod_upper_bound n 2). destruct (decide _); lia.
Qed.

Lemma item_last {A} (l : list A) : l ≠ [] → ∃ l' x, l = l' ++ [x] ∧ item l (length l - 1) = Done x.
Proof.
  destruct l as [|x l _] using rev_ind; [done|]. intros _. exists l, x. split; [done|].
  rewrite length_app. cbn [length]. replace (length l + 1 - 1)%nat with (length l) by lia.
  by apply item_here.
Qed.

Lemma item_take {A} (l : list A) n i : (i < n)%nat → item (take n l) i = item l i.
Proof. intros Hi. unfold item. by rewrite lookup_take_lt. Qed.

(** What an update of a node leaves behind. *)
Definition after dl d l right m' (r : QLBTreeInsertResult) : Prop :=
  level r = N.of_nat l ∧
  if isSplit r then
    ∃ m1 m2, m' = m1 ++ m2 ∧ m1 ≠ [] ∧ m2 ≠ [] ∧ split_key r = top m1 ∧
      num_elems r = [N.of_nat (length m1); N.of_nat (length m2)] ∧
      fresh_child dl d l false m1 ∧ fresh_child dl d l right m2
  else num_elems r = [N.of_nat (length m')] ∧ fresh_child dl d l right m'.

(** The nodes of two lists of a split are different. *)
Lemma split_ids l right m1 m2 : fits (m1 ++ m2) → m1 ≠ [] → m2 ≠ [] → nid l (own right m2) ≠ nid l (top m1).
Proof.
  intros [Hs Hm _] Hn1 Hn2 [_ E]%nid_inj.
  apply top_elem, list_elem_of_fmap in Hn1 as (e1 & Et1 & He1). rewrite Et1 in E. destruct right; cbn [own] in E.
  - rewrite Forall_forall in Hm. destruct (Hm e1) as (_ & _ & Hni); [apply elem_of_app; by left|]. congruence.
  - apply top_elem, list_elem_of_fmap in Hn2 as (e2 & Et2 & He2). rewrite Et2 in E.
    apply sorted_app in Hs as (_ & _ & Hlt). specialize (Hlt e1 e2 He1 He2). rewrite E in Hlt.
    by apply bytes_lt_irrefl in Hlt.
Qed.

Lemma node_id_nonnil l k : nid l k ≠ [].
Proof. unfold nid, node_id. intros E. apply app_eq_nil in E as [_ E]. apply app_eq_nil in E as [_ ?]. done. Qed.

Lemma length_own right m : Forall small_entry m → m ≠ [] → (length (nid 0 (own right m)) <= length p + 8 + B)%nat.
Proof.
  intros Hm Hn. unfold nid, node_id. rewrite !length_app. change (to_string (N.of_nat 0)) with #"0".
  apply top_elem, list_elem_of_fmap in Hn as (e & Et & He). rewrite Forall_forall in Hm.
  destruct (Hm e He) as (Hk & _ & _). rewrite <-Et in Hk. destruct right; cbn in *; lia.
Qed.

(** ** Insertion into a leaf *)

Lemma item_lookup {A} (l : list A) i x : item l i = Done x → l !! i = Some x.
Proof. unfold item. destruct (l !! i); [by intros ->%Done_inj|done]. Qed.

Lemma item_top m : m ≠ [] → ∃ e, item m (length m - 1) = Done e ∧ e.1 = top m.
Proof.
  intros (l & x & -> & Hi)%item_last. exists x. split; [done|]. by rewrite top_app.
Qed.

Lemma repr_leaf dl d right m next :
  (next = [] ↔ right = true) → (length m <= leaf_fanout)%nat → (length next <= length p + 8 + B)%nat →
  repr dl d 0 right (encode_map 0 m next) m.
Proof. intros. by exists next. Qed.

Lemma insert_map_spec dl d right node m key value :
  repr dl d 0 right node m → fits m → fits (ins key value m) →
  ∃ r dl', insert_map leaf_fanout p node key value dl = Done (r, dl') ∧
    after dl' d 0 right (ins key value m) r ∧
    ∀ id, ¬ foot 1 right (ins key value m) id → dl' !! id = dl !! id.
Proof.
  intros (next & -> & Hnext & Hlen & Hlnext) Hfit Hfit'. set (es := ins key value m) in *.
  assert (es ≠ []) as Hes by apply ins_nonnil.
  assert (length es <= S leaf_fanout)%nat as Hle by (pose proof (length_ins key value m); unfold es; lia).
  unfold insert_map. rewrite <-(app_nil_r (encode_map _ _ _)).
  rewrite parse_map_bytes by (apply leaf_map_ok; [done|apply Hfit|done]).
  rewrite bind_Done. cbn [map_entries_ map_next]. rewrite insert_entries_ins by apply Hfit. fold es.
  destruct (item_top es Hes) as (le & Hi & Htop). rewrite Hi, bind_Done.
  assert (∀ m0 : entries, (match next with [] => INFI | _ => top m0 end) = own right m0) as Hown.
  { intros m0. destruct next as [|c next]; [by rewrite (proj1 Hnext)|]. destruct right; [|done].
    by discriminate (proj2 Hnext eq_refl). }
  destruct (Nat.leb_spec (length es) leaf_fanout) as [Hsm|Hbig].
  - eexists _, _. split; [done|]. rewrite Htop, Hown. split.
    + split; [done|]. cbn. split; [done|]. exists (encode_map 0 es next).
      split; [apply lookup_insert_eq|by apply repr_leaf].
    + intros id Hid. apply lookup_insert_ne. intros <-. by apply Hid, foot_own.
  - assert (2 <= length es)%nat as H2 by lia. pose proof (split_index _ H2) as Hsi.
    destruct (split_index_fits (length es) leaf_fanout Hle leaf_fanout_pos) as [Hf1 Hf2].
    set (si := ComputeSplitIndex (length es)) in *. clearbody si.
    set (es1 := take si es). set (es2 := drop si es).
    assert (es = es1 ++ es2) as Hcat by (symmetry; apply take_drop).
    assert (length es1 = si) as Hl1 by (unfold es1; rewrite length_take; lia).
    assert (length es2 = length es - si)%nat as Hl2 by (unfold es2; by rewrite length_drop).
    assert (es1 ≠ []) as Hn1 by (intros E; rewrite E in Hl1; cbn in Hl1; lia).
    assert (es2 ≠ []) as Hn2 by (intros E; rewrite E in Hl2; cbn in Hl2; lia).
    destruct (item_top es1 Hn1) as (e1 & Hi1 & Ht1). rewrite Hl1 in Hi1.
    assert (item es (si - 1) = Done e1) as -> by (rewrite <-Hi1; symmetry; apply item_take; lia).
    rewrite bind_Done.
    destruct (item_top es2 Hn2) as (e2 & Hi2 & Ht2).
    assert (match next with [] => Done INFI | _ => e ← item es2 (length es2 - 1); Done e.1 end
      = Done (own right es2)) as ->.
    { rewrite Hi2, bind_Done, Ht2, <-Hown. by destruct next. }
    rewrite bind_Done, Ht1. change (node_id p 0 (top es1)) with (nid 0 (top es1)).
    change (node_id p 0 (own right es2)) with (nid 0 (own right es2)). rewrite Hcat in Hfit'.
    pose proof (split_ids 0 right es1 es2 Hfit' Hn1 Hn2) as Hne.
    destruct (fits_app _ _ Hfit') as [[_ Hs1 _] [_ Hs2 _]].
    eexists _, _. split; [done|]. split.
    + split; [done|]. cbn [isSplit]. exists es1, es2. do 4 (split; [done|]). split; [done|]. split.
      * eexists. split; [rewrite lookup_insert_ne by done; apply lookup_insert_eq|].
        apply repr_leaf; [|lia|by apply length_own].
        split; [intros E; by apply node_id_nonnil in E|done].
      * eexists. split; [apply lookup_insert_eq|]. apply repr_leaf; [done|lia|done].
    + intros id Hid. rewrite Hcat in Hid. rewrite !lookup_insert_ne; [done|..]; intros <-; apply Hid.
      * exists 0%nat, (top es1). split; [lia|]. split; [done|]. left. rewrite fmap_app, elem_of_app. left. by apply top_elem.
      * exists 0%nat, (own right es2). split; [lia|]. split; [done|]. destruct right; [by right|]. left.
        rewrite fmap_app, elem_of_app. right. by apply top_elem.
Qed.

(** ** The update of a meta node *)

Lemma item_top_join (parts : list entries) : parts ≠ [] → Forall (λ mi, mi ≠ []) parts →
  mjoin parts ≠ [] ∧ item (top <$> parts) (length parts - 1) = Done (top (mjoin parts)).
Proof.
  intros Hp Hn. destruct parts as [|mi parts _] using rev_ind; [done|].
  apply Forall_app in Hn as [_ Hn]. inversion Hn as [|?? Hmi]; subst. rewrite join_snoc.
  split; [intros E; by apply app_eq_nil in E as [_ ?]|].
  rewrite top_app, length_app, fmap_app by done. cbn [length].
  replace (length parts + 1 - 1)%nat with (length (top <$> parts)) by (rewrite length_fmap; lia).
  by apply (item_here (top <$> parts) (top mi) []).
Qed.

Lemma repr_meta dl d l right parts mlast :
  parts ≠ [] → (length parts <= fanout)%nat →
  Forall (λ mi, mi ≠ [] ∧ child dl d l false mi) parts →
  (right = false → mlast = []) → (right = true → mlast ≠ [] ∧ child dl d l true mlast) →
  repr dl d (S l) right
    (meta_bytes (N.of_nat (S l)) (top <$> parts) (N.of_nat ∘ length <$> parts) (N.of_nat (length mlast)))
    (mjoin parts ++ mlast).
Proof. intros. by exists parts, mlast. Qed.

(** Writing a node of a higher level leaves children alone. *)
Lemma children_insert dl d l right k c parts mlast j :
  (l < j)%nat → Forall (λ mi, mi ≠ [] ∧ child dl d l false mi) parts →
  (right = true → mlast ≠ [] ∧ child dl d l true mlast) →
  Forall (λ mi, mi ≠ [] ∧ child (<[nid j k := c]> dl) d l false mi) parts ∧
  (right = true → mlast ≠ [] ∧ child (<[nid j k := c]> dl) d l true mlast).
Proof.
  intros Hj Hparts Hlast.
  assert (∀ r mi, mi ≠ [] → child dl d l r mi → child (<[nid j k := c]> dl) d l r mi) as Hch.
  { intros r mi Hn. apply child_frame; [done|]. intros id (i & k' & Hi & -> & _).
    apply lookup_insert_ne. intros [??]%nid_inj. lia. }
  split; [|naive_solver]. rewrite Forall_forall in Hparts |- *. intros mi Hmi.
  destruct (Hparts mi Hmi). auto.
Qed.

Lemma fresh_meta dl d l right parts mlast :
  parts ≠ [] → (length parts <= fanout)%nat →
  Forall (λ mi, mi ≠ [] ∧ child dl d l false mi) parts →
  (right = false → mlast = []) → (right = true → mlast ≠ [] ∧ child dl d l true mlast) →
  dl !! nid (S l) (own right (mjoin parts ++ mlast)) =
    Some (meta_bytes (N.of_nat (S l)) (top <$> parts) (N.of_nat ∘ length <$> parts) (N.of_nat (length mlast))) →
  fresh_child dl d (S l) right (mjoin parts ++ mlast).
Proof. intros ????? E. eexists. split; [exact E|by apply repr_meta]. Qed.

Lemma encode_node l parts mlast :
  fits (mjoin parts ++ mlast) → (length parts <= fanout)%nat → Forall (λ mi, mi ≠ []) parts →
  N.of_nat l < 2 ^ 32 →
  encode_meta (N.of_nat l) (top <$> parts) ((N.of_nat ∘ length <$> parts) ++ [N.of_nat (length mlast)])
    = Done (meta_bytes (N.of_nat l) (top <$> parts) (N.of_nat ∘ length <$> parts) (N.of_nat (length mlast))) ∧
  numElements (meta_bytes (N.of_nat l) (top <$> parts) (N.of_nat ∘ length <$> parts) (N.of_nat (length mlast)))
    = N.of_nat (length (mjoin parts ++ mlast)).
Proof.
  intros Hfit Hf Hn Hl. pose proof (node_meta_ok l parts mlast Hfit Hf Hn Hl) as Hok.
  split; [by apply encode_meta_bytes|].
  rewrite <-(app_nil_r (meta_bytes _ _ _ _)), numElements_meta by done. apply sum_counts.
Qed.

Lemma rebuild_spec dl d l right parts mlast le :
  fits (mjoin parts ++ mlast) → parts ≠ [] → (length parts <= S fanout)%nat →
  Forall (λ mi, mi ≠ [] ∧ child dl d l false mi) parts →
  (right = false → mlast = []) → (right = true → mlast ≠ [] ∧ child dl d l true mlast) →
  (le = 0 ↔ right = false) → N.of_nat (S l) < 2 ^ 32 →
  ∃ r dl', rebuild fanout p (N.of_nat (S l)) (top <$> parts)
      ((N.of_nat ∘ length <$> parts) ++ [N.of_nat (length mlast)]) le dl = Done (r, dl') ∧
    after dl' d (S l) right (mjoin parts ++ mlast) r ∧
    ∀ id, ¬ foot (S (S l)) right (mjoin parts ++ mlast) id → dl' !! id = dl !! id.
Proof.
  intros Hfit Hp Hlen Hparts Hl0 Hl1 Hle Hlv.
  assert (Forall (λ mi, mi ≠ []) parts) as Hn by (eapply Forall_impl; [exact Hparts|naive_solver]).
  destruct (item_top_join parts Hp Hn) as [Hj Hitem].
  set (m := mjoin parts ++ mlast) in *.
  assert (m ≠ []) as Hm by (intros E; by apply app_eq_nil in E as [? _]).
  unfold rebuild. rewrite length_fmap.
  assert ((if le =? 0 then item (top <$> parts) (length parts - 1) else Done INFI) = Done (own right m)) as ->.
  { destruct (N.eqb_spec le 0) as [E|E].
    - rewrite Hitem. unfold m. rewrite Hle in E. subst right. by rewrite Hl0, app_nil_r.
    - destruct right; [done|]. by destruct E; apply Hle. }
  rewrite bind_Done. destruct (Nat.leb_spec (length parts) fanout) as [Hsm|Hbig].
  - destruct (encode_node (S l) parts mlast Hfit Hsm Hn Hlv) as [He Hnum].
    rewrite He, bind_Done, Hnum. eexists _, _. split; [done|]. fold (nid (S l) (own right m)). split.
    + split; [done|]. cbn [isSplit]. split; [done|].
      destruct (children_insert dl d l right (own right m) (meta_bytes (N.of_nat (S l)) (top <$> parts)
        (N.of_nat ∘ length <$> parts) (N.of_nat (length mlast))) parts mlast (S l) ltac:(lia) Hparts Hl1).
      apply fresh_meta; try done. apply lookup_insert_eq.
    + intros id Hid. apply lookup_insert_ne. intros <-. by apply Hid, foot_own.
  - pose proof (split_index (length parts) ltac:(lia)) as Hsi.
    destruct (split_index_fits (length parts) fanout Hlen fanout_pos) as [Hf1 Hf2].
    set (si := ComputeSplitIndex (length parts)) in *. clearbody si.
    rewrite take_app_le, drop_app_le, <-!fmap_take, <-!fmap_drop by (rewrite length_fmap; lia).
    set (parts1 := take si parts). set (parts2 := drop si parts).
    assert (parts = parts1 ++ parts2) as Hcat by (symmetry; apply take_drop).
    assert (length parts1 = si) as Hl1' by (unfold parts1; rewrite length_take; lia).
    assert (length parts2 = length parts - si)%nat as Hl2' by (unfold parts2; by rewrite length_drop).
    assert (parts1 ≠ []) as Hn1 by (intros E; rewrite E in Hl1'; cbn in Hl1'; lia).
    assert (parts2 ≠ []) as Hn2 by (intros E; rewrite E in Hl2'; cbn in Hl2'; lia).
    assert (m = mjoin parts1 ++ (mjoin parts2 ++ mlast)) as Hmcat
      by (unfold m; by rewrite Hcat, join_app, app_assoc).
    rewrite Hcat in Hparts, Hn. apply Forall_app in Hparts as [Hp1 Hp2], Hn as [Hne1 Hne2].
    destruct (item_top_join parts1 Hn1 Hne1) as [Hj1 Hi1].
    destruct (item_top_join parts2 Hn2 Hne2) as [Hj2 _].
    assert (item (top <$> parts) (si - 1) = Done (top (mjoin parts1))) as ->.
    { rewrite <-Hi1, Hl1'. unfold parts1. rewrite fmap_take. symmetry. apply item_take. lia. }
    rewrite bind_Done. rewrite Hmcat in Hfit. destruct (fits_app _ _ Hfit) as [Hfit1 Hfit2].
    pose proof (split_ids (S l) right _ _ Hfit Hj1
      ltac:(intros E; by apply app_eq_nil in E as [? _])) as Hne.
    destruct (encode_node (S l) parts1 [] ltac:(by rewrite app_nil_r) ltac:(lia) Hne1 Hlv) as [He1 Hnum1].
    destruct (encode_node (S l) parts2 mlast Hfit2 ltac:(lia) Hne2 Hlv) as [He2 Hnum2].
    change [0] with [N.of_nat (length (@nil (bytes * bytes)))]. rewrite He1, bind_Done, He2, bind_Done, Hnum1, Hnum2.
    rewrite app_nil_r. eexists _, _. split; [done|].
    fold (nid (S l) (own right m)) (nid (S l) (top (mjoin parts1))).
    assert (own right m = own right (mjoin parts2 ++ mlast)) as ->.
    { destruct right; [done|]. cbn [own]. rewrite Hmcat. apply top_app.
      intros E. by apply app_eq_nil in E as [? _]. }
    split.
    + split; [done|]. cbn [isSplit]. exists (mjoin parts1), (mjoin parts2 ++ mlast).
      split; [done|]. split; [done|]. split; [intros E; by apply app_eq_nil in E as [? _]|].
      split; [done|]. split; [done|]. set (c1 := meta_bytes _ (top <$> parts1) _ _).
      set (c2 := meta_bytes _ (top <$> parts2) _ _).
      destruct (children_insert dl d l right (top (mjoin parts1)) c1 parts2 mlast (S l) ltac:(lia) Hp2 Hl1)
        as [Ha2 Hb2].
      destruct (children_insert _ d l right (own right (mjoin parts2 ++ mlast)) c2 parts2 mlast (S l)
        ltac:(lia) Ha2 Hb2) as [Ha2' Hb2'].
      destruct (children_insert dl d l false (top (mjoin parts1)) c1 parts1 [] (S l) ltac:(lia) Hp1
        ltac:(done)) as [Ha1 _].
      destruct (children_insert _ d l false (own right (mjoin parts2 ++ mlast)) c2 parts1 [] (S l)
        ltac:(lia) Ha1 ltac:(done)) as [Ha1' _].
      split.
      * match goal with |- fresh_child ?X _ _ _ _ =>
          assert (fresh_child X d (S l) false (mjoin parts1 ++ [])) as Hfc end;
          [|by rewrite app_nil_r in Hfc].
        apply fresh_meta; try done; [lia|].
        rewrite app_nil_r, lookup_insert_ne by done. apply lookup_insert_eq.
      * apply fresh_meta; try done; [lia|]. apply lookup_insert_eq.
    + intros id Hid. rewrite Hmcat in Hid. rewrite !lookup_insert_ne; [done|..]; intros <-; apply Hid.
      * exists (S l), (top (mjoin parts1)). split; [lia|]. split; [done|]. left. rewrite fmap_app, elem_of_app.
        left. by apply top_elem.
      * exists (S l), (own right (mjoin parts2 ++ mlast)). split; [lia|]. split; [done|].
        destruct right; [by right|]. left. rewrite fmap_app, elem_of_app. right. apply top_elem.
        intros E. by apply app_eq_nil in E as [? _].
Qed.

(** ** Insertion *)

Lemma join_imap {A} (h : nat → A → list A) l :
  (∀ i k, l !! i = Some k → h i k = [k]) → mjoin (imap h l) = l.
Proof.
  revert h. induction l as [|x l IH]; intros h Hh; [done|]. rewrite imap_cons, mjoin_cons.
  rewrite (Hh 0%nat x eq_refl), IH; [done|]. intros i k Hk. by apply (Hh (S i)).
Qed.

Lemma join_imap_at {A} (f : A → list A) l1 x l2 i : i = length l1 →
  mjoin (imap (λ j k, if decide (j = i) then f k else [k]) (l1 ++ x :: l2)) = l1 ++ f x ++ l2.
Proof.
  intros ->. rewrite imap_app, imap_cons, join_app, mjoin_cons. f_equal; [|f_equal].
  - apply join_imap. intros j k Hj%lookup_lt_Some. rewrite decide_False by lia. done.
  - by rewrite decide_True by lia.
  - apply join_imap. intros j k Hj. cbn. by rewrite decide_False by lia.
Qed.

Lemma join_imap_past {A} (f : A → list A) l i : (length l <= i)%nat →
  mjoin (imap (λ j k, if decide (j = i) then f k else [k]) l) = l.
Proof. intros Hi. apply join_imap. intros j k Hj%lookup_lt_Some. by rewrite decide_False by lia. Qed.

(** A sibling is not touched. *)
Lemma keep_child dl dl1 d l r1 r2 m1 m2 :
  (∀ id, ¬ foot (S l) r2 m2 id → dl1 !! id = dl !! id) → m1 ≠ [] →
  (∀ a b, a ∈ m1 → b ∈ m2 → a.1 ≠ b.1) → Forall small_entry m1 → Forall small_entry m2 →
  ¬ (r1 = true ∧ r2 = true) → child dl d l r1 m1 → child dl1 d l r1 m1.
Proof.
  intros Hf Hn Hd Hs1 Hs2 Hr. apply child_frame; [done|]. intros id (j & k & Hj & -> & Hk). apply Hf.
  intros (j' & k' & _ & [_ <-]%nid_inj & Hk'). rewrite Forall_forall in Hs1. rewrite Forall_forall in Hs2.
  destruct Hk as [(e & -> & He)%list_elem_of_fmap|[Hr1 ->]];
    destruct Hk' as [(e' & Ee & He')%list_elem_of_fmap|[Hr2 Ek]].
  - by apply (Hd e e').
  - by destruct (Hs1 e He) as (_ & _ & ?).
  - by destruct (Hs2 e' He') as (_ & _ & ?).
  - by apply Hr.
Qed.

Lemma sorted_tops (parts : list entries) : sorted (mjoin parts) → Forall (λ mi, mi ≠ []) parts →
  StronglySorted bytes_lt (top <$> parts).
Proof.
  induction parts as [|mi parts IH]; intros Hs Hn; [constructor|].
  inversion Hn as [|?? Hmi Hn']; subst. rewrite mjoin_cons in Hs. apply sorted_app in Hs as (_ & Hs & Hlt).
  constructor; [by apply IH|]. apply Forall_forall. intros k (mj & -> & Hmj)%list_elem_of_fmap.
  rewrite Forall_forall in Hn'. pose proof (Hn' mj Hmj) as Hj.
  apply top_elem, list_elem_of_fmap in Hmi as (a & -> & Ha).
  apply top_elem, list_elem_of_fmap in Hj as (b & -> & Hb). apply Hlt; [done|].
  apply list_elem_of_join. eauto.
Qed.

(** The parts before the child of a key are smaller. *)
Lemma route_below key (P1 P2 : list entries) : sorted (mjoin P1) →
  (length P1 <= scan_keys key (top <$> (P1 ++ P2)))%nat → ∀ e, e ∈ mjoin P1 → bytes_lt e.1 key.
Proof.
  clear fanout_pos leaf_fanout_pos room.
  intros Hs Hscan e (mj & Hmj & He)%list_elem_of_join. pose proof He as [j Hj]%list_elem_of_lookup.
  assert (bytes_lt (top mj) key) as Ht.
  { apply (scan_keys_below key (top <$> (P1 ++ P2)) j); [|apply lookup_lt_Some in Hj; lia].
    rewrite list_lookup_fmap, lookup_app_l by (by eapply lookup_lt_Some). by rewrite Hj. }
  assert (sorted mj) as Hsj.
  { apply list_elem_of_split in He as (Q1 & Q2 & ->).
    rewrite join_app, mjoin_cons in Hs. apply sorted_app in Hs as (_ & Hs & _). by apply sorted_app in Hs as [Hs _]. }
  destruct (sorted_top mj e Hsj Hmj) as [Hlt| ->]; [by transitivity (top mj)|done].
Qed.

(** The parts before the child of a key are smaller, and those after it larger. *)
Lemma route key (parts : list entries) mlast P1 mi P2 :
  sorted (mjoin parts ++ mlast) → Forall (λ mi, mi ≠ []) parts → parts = P1 ++ mi :: P2 →
  scan_keys key (top <$> parts) = length P1 →
  (∀ e, e ∈ mjoin P1 → bytes_lt e.1 key) ∧ ¬ bytes_lt (top mi) key ∧
  ∀ e, e ∈ mjoin P2 ++ mlast → bytes_lt key e.1.
Proof.
  clear fanout_pos leaf_fanout_pos room.
  intros Hs Hn -> Hscan. split; [|].
  - rewrite join_app, <-app_assoc in Hs. apply sorted_app in Hs as (Hs & _).
    apply (route_below key P1 (mi :: P2)); [done|by rewrite Hscan].
  - assert (¬ bytes_lt (top mi) key) as Ht.
    { apply (scan_keys_at key (top <$> (P1 ++ mi :: P2))). rewrite Hscan, list_lookup_fmap, lookup_app_r, Nat.sub_diag by lia.
      done. }
    split; [done|]. intros e He.
    apply Forall_app in Hn as [_ Hn]. inversion Hn as [|?? Hmi _]; subst.
    apply top_elem, list_elem_of_fmap in Hmi as (a & Ea & Ha). rewrite Ea in Ht.
    rewrite join_app, mjoin_cons, <-!app_assoc in Hs. apply sorted_app in Hs as (_ & Hs & _).
    apply sorted_app in Hs as (_ & _ & Hlt). specialize (Hlt a e Ha He).
    destruct (bytes_lt_total key a.1) as [?|[->|?]]; [by transitivity a.1|done|done].
Qed.

Lemma top_ins key value m : sorted m → m ≠ [] → ¬ bytes_lt (top m) key → top (ins key value m) = top m.
Proof.
  intros Hs Hm Ht. destruct m as [|e m _] using rev_ind; [done|].
  rewrite top_app in Ht |- * by done. change (top [e]) with e.1 in *.
  destruct (bytes_lt_total key e.1) as [Hlt|[->|?]]; [| |done].
  - unfold ins. rewrite !filter_app, (filter_cons_True (λ e, bytes_lt key e.1)) by done.
    rewrite app_comm_cons, app_assoc. by apply top_app.
  - unfold ins. rewrite (filter_no (λ x, bytes_lt e.1 x.1)); [by apply top_app|].
    intros x [Hx| ->%list_elem_of_singleton]%elem_of_app; [|apply bytes_lt_irrefl].
    apply sorted_app in Hs as (_ & _ & Hlt). apply bytes_lt_asym, Hlt; [done|by left].
Qed.

(** The node or nodes of an update as children. *)
Lemma after_parts dl d l m' r : after dl d l false m' r → m' ≠ [] →
  ∃ X, m' = mjoin X ∧ X ≠ [] ∧ (length X <= 2)%nat ∧ Forall (λ mi, mi ≠ [] ∧ child dl d l false mi) X ∧
    num_elems r = N.of_nat ∘ length <$> X ∧
    top <$> X = (if isSplit r then [split_key r] else []) ++ [top m'].
Proof.
  intros [_ Ha] Hm. destruct (isSplit r).
  - destruct Ha as (m1 & m2 & -> & Hn1 & Hn2 & -> & -> & Hc1 & Hc2). exists [m1; m2].
    split; [by rewrite !mjoin_cons, app_nil_r|]. split; [done|]. split; [done|]. split; [|split; [done|]].
    + repeat constructor; auto using fresh_child_child.
    + cbn. by rewrite top_app.
  - destruct Ha as [-> Hc]. exists [m']. split; [by rewrite mjoin_cons, app_nil_r|]. split; [done|].
    split; [cbn; lia|]. split; [|done]. repeat constructor; auto using fresh_child_child.
Qed.
Lemma after_last dl d l m' r : after dl d l true m' r → m' ≠ [] →
  ∃ X mlast, m' = mjoin X ++ mlast ∧ (length X <= 1)%nat ∧
    Forall (λ mi, mi ≠ [] ∧ child dl d l false mi) X ∧ mlast ≠ [] ∧ child dl d l true mlast ∧
    num_elems r = (N.of_nat ∘ length <$> X) ++ [N.of_nat (length mlast)] ∧
    top <$> X = (if isSplit r then [split_key r] else []).
Proof.
  intros [_ Ha] Hm. destruct (isSplit r).
  - destruct Ha as (m1 & m2 & -> & Hn1 & Hn2 & -> & -> & Hc1 & Hc2). exists [m1], m2.
    split; [by rewrite mjoin_cons, app_nil_r|]. split; [done|].
    split; [repeat constructor; auto using fresh_child_child|]. auto using fresh_child_child.
  - destruct Ha as [-> Hc]. exists [], m'. repeat split; auto using fresh_child_child.
Qed.

(** [u64(level - 1)] of a meta node. *)
Lemma child_key_nid l (parts : list entries) nes i k :
  N.of_nat (S l) < 2 ^ 32 →
  (if decide (i = length parts) then k = INFI else (top <$> parts) !! i = Some k) →
  child_key p (mkMeta (N.of_nat (S l)) (top <$> parts) nes) i = Done (nid l k).
Proof.
  clear fanout_pos leaf_fanout_pos room.
  intros Hl Hi. unfold child_key, numEntries. cbn [meta_keys meta_level]. rewrite length_fmap.
  assert ((if decide (i = length parts) then Done INFI else item (top <$> parts) i) = Done k) as ->.
  { destruct (decide _); [by subst k|]. unfold item. by rewrite Hi. }
  rewrite bind_Done. unfold nid. do 2 f_equal.
  assert (u64 (N.of_nat (S l) + 2 ^ 64 - 1) = N.of_nat l) as ->; [|done].
  unfold u64. replace (N.of_nat (S l) + 2 ^ 64 - 1) with (N.of_nat l + 1 * 2 ^ 64) by lia.
  rewrite N.Div0.mod_add, N.mod_small; [done|]. assert ((2:N) ^ 32 < 2 ^ 64) by done. lia.
Qed.

Section Insert.
Context (dl : delta) (d : D) (l : nat) (key value : bytes).
Hypothesis Hkey : small_entry (key, value).
Hypothesis Hl : N.of_nat (S l) < 2 ^ 32.

(** The children that an insertion does not reach. *)
Lemma keep_parts dl1 r2 m2 (P : list entries) :
  (∀ id, ¬ foot (S l) r2 m2 id → dl1 !! id = dl !! id) →
  (∀ a b, a ∈ mjoin P → b ∈ m2 → a.1 ≠ b.1) → Forall small_entry (mjoin P) → Forall small_entry m2 →
  Forall (λ mi, mi ≠ [] ∧ child dl d l false mi) P → Forall (λ mi, mi ≠ [] ∧ child dl1 d l false mi) P.
Proof.
  intros Hf Hd Hs1 Hs2 HP. rewrite Forall_forall in HP |- *. intros mi Hmi. destruct (HP mi Hmi) as [Hn Hc].
  split; [done|]. assert (∀ e, e ∈ mi → e ∈ mjoin P) as Hin by (intros e He; apply list_elem_of_join; eauto).
  eapply keep_child; eauto.
  - rewrite Forall_forall in Hs1 |- *. auto.
  - by intros [].
Qed.

Lemma update_inner right (parts : list entries) mlast P1 mi P2 r dl1 :
  parts = P1 ++ mi :: P2 →
  fits (mjoin parts ++ mlast) → fits (ins key value (mjoin parts ++ mlast)) → (length parts <= fanout)%nat →
  Forall (λ mi, mi ≠ [] ∧ child dl d l false mi) parts →
  (right = false → mlast = []) → (right = true → mlast ≠ [] ∧ child dl d l true mlast) →
  scan_keys key (top <$> parts) = length P1 →
  after dl1 d l false (ins key value mi) r →
  (∀ id, ¬ foot (S l) false (ins key value mi) id → dl1 !! id = dl !! id) →
  ∃ r' dl', UpdateChild fanout p
      (mkMeta (N.of_nat (S l)) (top <$> parts) ((N.of_nat ∘ length <$> parts) ++ [N.of_nat (length mlast)]))
      (length P1) r dl1 = Done (r', dl') ∧
    after dl' d (S l) right (ins key value (mjoin parts ++ mlast)) r' ∧
    ∀ id, ¬ foot (S (S l)) right (ins key value (mjoin parts ++ mlast)) id → dl' !! id = dl !! id.
Proof using Type*.
  intros Hcat Hfit Hfit' Hfan Hparts Hl0 Hl1 Hscan Hafter Hframe.
  assert (Forall (λ mi, mi ≠ []) parts) as Hn by (eapply Forall_impl; [exact Hparts|naive_solver]).
  destruct (route key parts mlast P1 mi P2 (ft_sorted _ Hfit) Hn Hcat Hscan) as (Hlo & Htop & Hhi).
  assert (ins key value (mjoin parts ++ mlast) = mjoin P1 ++ ins key value mi ++ (mjoin P2 ++ mlast)) as Hins.
  { rewrite Hcat, join_app, mjoin_cons, <-!app_assoc. by apply ins_middle. }
  rewrite Hins in Hfit' |- *. rewrite Hcat in Hparts, Hn, Hfit.
  apply Forall_app in Hparts as [HP1 HP2]. apply Forall_cons in HP2 as [[Hmi _] HP2].
  rewrite join_app, mjoin_cons, <-!app_assoc in Hfit.
  destruct (fits_app _ _ Hfit) as [_ Hfm]. destruct (fits_app _ _ Hfm) as [[Hsm _ _] _].
  pose proof (ft_sorted _ Hfit') as Hs'. apply sorted_app in Hs' as (_ & Hs' & Hlt1).
  apply sorted_app in Hs' as (_ & _ & Hlt2).
  pose proof (ft_small _ Hfit') as Hsm'. apply Forall_app in Hsm' as [Hsm1 Hsm'].
  apply Forall_app in Hsm' as [Hsmi Hsm2]. apply Forall_app in Hsm2 as [Hsm2 Hsml].
  destruct (after_parts dl1 d l _ r Hafter (ins_nonnil _ _ _)) as (X & HX & HXn & HXl & HXc & HXe & HXt).
  rewrite top_ins in HXt by done.
  assert (∀ a b, bytes_lt a b → a ≠ b) as Hlt_ne by (intros a b Hab ->; by apply bytes_lt_irrefl in Hab).
  assert (Forall (λ mi, mi ≠ [] ∧ child dl1 d l false mi) (P1 ++ X ++ P2)) as Hnew.
  { apply Forall_app. split; [|apply Forall_app; split; [done|]].
    - eapply (keep_parts dl1 false _ P1 Hframe); [|done..]. intros a b Ha Hb. apply Hlt_ne, Hlt1; [done|].
      apply elem_of_app. by left.
    - eapply (keep_parts dl1 false _ P2 Hframe); [|done..]. intros a b Ha Hb E. symmetry in E. revert E.
      apply Hlt_ne, Hlt2; [done|]. apply elem_of_app. by left. }
  assert (right = true → mlast ≠ [] ∧ child dl1 d l true mlast) as Hlast.
  { intros Hr. destruct (Hl1 Hr) as [Hnl Hcl]. split; [done|].
    eapply (keep_child dl dl1 d l true false mlast _ Hframe); try done; [|by intros []].
    intros a b Ha Hb E. symmetry in E. revert E. apply Hlt_ne, Hlt2; [done|]. apply elem_of_app. by right. }
  assert (mjoin P1 ++ ins key value mi ++ mjoin P2 ++ mlast = mjoin (P1 ++ X ++ P2) ++ mlast) as Hjoin
    by (by rewrite !join_app, <-HX, <-!app_assoc).
  rewrite Hjoin in Hfit' |- *. subst parts.
  destruct (rebuild_spec dl1 d l right (P1 ++ X ++ P2) mlast (N.of_nat (length mlast)) Hfit')
    as (r' & dl' & Hr & Ha & Hf).
  { intros E. apply app_eq_nil in E as [_ E]. by apply app_eq_nil in E as [? _]. }
  { rewrite !length_app in *. cbn in Hfan. lia. }
  { done. } { done. } { done. }
  { destruct right; [destruct (Hl1 eq_refl) as [? _]; split; [|done]|rewrite Hl0 by done; done].
    destruct mlast; [done|]. cbn. lia. }
  { done. }
  exists r', dl'. split; [|split; [done|]].
  - unfold UpdateChild, new_elems. unfold numEntries. cbn [meta_elems meta_keys meta_level].
    rewrite (item_here (N.of_nat ∘ length <$> P1 ++ mi :: P2) (N.of_nat (length mlast)) [])
      by (by rewrite !length_fmap).
    rewrite bind_Done, take_app_length' by (by rewrite !length_fmap).
    unfold new_keys, numEntries. cbn [meta_keys].
    assert ((length (top <$> P1 ++ mi :: P2) <=? length P1)%nat = false) as ->
      by (apply Nat.leb_gt; rewrite length_fmap, length_app; cbn; lia).
    rewrite fmap_app, fmap_cons, join_imap_at by (by rewrite length_fmap).
    rewrite app_nil_r, bind_Done, bind_Done.
    rewrite fmap_app, fmap_cons, join_imap_at by (by rewrite length_fmap).
    rewrite HXe, <-HXt, <-!fmap_app. exact Hr.
  - intros id Hid. rewrite (Hf id Hid). apply Hframe. intros Hfi. apply Hid. rewrite <-Hjoin. revert Hfi.
    apply foot_mono; [lia| |done]. intros k. rewrite !fmap_app, !elem_of_app. auto.
Qed.

Lemma update_last (parts : list entries) mlast r dl1 :
  parts ≠ [] →
  fits (mjoin parts ++ mlast) → fits (ins key value (mjoin parts ++ mlast)) → (length parts <= fanout)%nat →
  Forall (λ mi, mi ≠ [] ∧ child dl d l false mi) parts → mlast ≠ [] →
  scan_keys key (top <$> parts) = length parts →
  after dl1 d l true (ins key value mlast) r →
  (∀ id, ¬ foot (S l) true (ins key value mlast) id → dl1 !! id = dl !! id) →
  ∃ r' dl', UpdateChild fanout p
      (mkMeta (N.of_nat (S l)) (top <$> parts) ((N.of_nat ∘ length <$> parts) ++ [N.of_nat (length mlast)]))
      (length parts) r dl1 = Done (r', dl') ∧
    after dl' d (S l) true (ins key value (mjoin parts ++ mlast)) r' ∧
    ∀ id, ¬ foot (S (S l)) true (ins key value (mjoin parts ++ mlast)) id → dl' !! id = dl !! id.
Proof using Type*.
  intros Hp Hfit Hfit' Hfan Hparts Hmlast Hscan Hafter Hframe.
  assert (Forall (λ mi, mi ≠ []) parts) as Hn by (eapply Forall_impl; [exact Hparts|naive_solver]).
  assert (∀ e, e ∈ mjoin parts → bytes_lt e.1 key) as Hlo.
  { apply (route_below key parts []); [|by rewrite app_nil_r, Hscan].
    by apply (proj1 (sorted_app _ _) (ft_sorted _ Hfit)). }
  assert (ins key value (mjoin parts ++ mlast) = mjoin parts ++ ins key value mlast) as Hins.
  { pose proof (ins_middle key value (mjoin parts) mlast [] Hlo ltac:(by intros e ?%elem_of_nil)) as E.
    by rewrite !app_nil_r in E. }
  rewrite Hins in Hfit' |- *.
  pose proof (ft_sorted _ Hfit') as Hs'. apply sorted_app in Hs' as (_ & _ & Hlt).
  pose proof (ft_small _ Hfit') as Hsm'. apply Forall_app in Hsm' as [Hsm1 Hsml].
  destruct (after_last dl1 d l _ r Hafter (ins_nonnil _ _ _)) as (X & ml & HX & HXl & HXc & Hml & Hcl & HXe & HXt).
  assert (Forall (λ mi, mi ≠ [] ∧ child dl1 d l false mi) (parts ++ X)) as Hnew.
  { apply Forall_app. split; [|done].
    eapply (keep_parts dl1 true _ parts Hframe); [|done..].
    intros a b Ha Hb E. specialize (Hlt a b Ha Hb). rewrite E in Hlt. by apply bytes_lt_irrefl in Hlt. }
  rewrite HX, app_assoc, <-join_app in Hfit' |- *.
  destruct (rebuild_spec dl1 d l true (parts ++ X) ml (N.of_nat (length mlast)) Hfit')
    as (r' & dl' & Hr & Ha & Hf).
  { intros E. by apply app_eq_nil in E as [? _]. }
  { rewrite length_app. lia. }
  { done. } { done. } { done. }
  { split; [|done]. destruct mlast; [done|]. cbn. lia. }
  { done. }
  exists r', dl'. split; [|split; [done|]].
  - unfold UpdateChild, new_elems. unfold numEntries. cbn [meta_elems meta_keys meta_level].
    rewrite (item_here (N.of_nat ∘ length <$> parts) (N.of_nat (length mlast)) [])
      by (by rewrite !length_fmap).
    rewrite bind_Done, take_app_length' by (by rewrite !length_fmap).
    unfold new_keys, numEntries. cbn [meta_keys].
    assert ((length (top <$> parts) <=? length parts)%nat = true) as ->
      by (apply Nat.leb_le; by rewrite length_fmap).
    rewrite !join_imap_past by (by rewrite length_fmap).
    rewrite !bind_Done, HXe, <-HXt, <-fmap_app, app_assoc, <-fmap_app. exact Hr.
  - intros id Hid. rewrite (Hf id Hid). apply Hframe. intros Hfi. apply Hid. revert Hfi. rewrite HX, join_app, <-app_assoc.
    apply foot_mono; [lia| |done]. intros k. rewrite !fmap_app, !elem_of_app. auto.
Qed.
End Insert.

(** An insertion into a node finds its way, updates the node or splits it, and writes
    only nodes below it. *)
Lemma bt_Insert_spec fuel dl d l right node m key value :
  repr dl d l right node m → fits m → small_entry (key, value) → N.of_nat (S (length m)) < 2 ^ 64 →
  (right = false → m ≠ [] ∧ ¬ bytes_lt (top m) key) → (l <= fuel)%nat → N.of_nat l < 2 ^ 32 →
  ∃ r dl', Insert fanout leaf_fanout fuel p d node key value dl = Done (r, dl') ∧
    after dl' d l right (ins key value m) r ∧
    ∀ id, ¬ foot (S l) right (ins key value m) id → dl' !! id = dl !! id.
Proof using Type*.
  revert fuel right node m. induction l as [|l IH]; intros fuel right node m Hr Hfit Hk Hc Hkr Hfuel Hl.
  - pose proof (insert_map_spec dl d right node m key value Hr Hfit (fits_ins key value m Hfit Hk Hc)) as Hi.
    destruct Hr as (next & -> & _). rewrite <-(app_nil_r (encode_map _ _ _)) in Hi |- *.
    destruct fuel; cbn [Insert]; rewrite type_encode_map; exact Hi.
  - pose proof (fits_ins key value m Hfit Hk Hc) as Hfit'.
    destruct Hr as (parts & mlast & -> & -> & Hp & Hfan & Hparts & Hl0 & Hl1).
    assert (Forall (λ mi, mi ≠ []) parts) as Hn by (eapply Forall_impl; [exact Hparts|naive_solver]).
    destruct fuel as [|fuel]; [lia|].
    assert (sorted (mjoin parts)) as Hsp by (by apply ft_sorted, sorted_app in Hfit as [? _]).
    cbn [Insert]. rewrite <-(app_nil_r (meta_bytes _ _ _ _)), type_meta_bytes.
    rewrite parse_meta_bytes, bind_Done by (by apply node_meta_ok).
    rewrite search_meta_spec, bind_Done by (by apply sorted_tops). cbn [meta_keys].
    pose proof (scan_keys_le key (top <$> parts)) as Hle. rewrite length_fmap in Hle.
    set (i := scan_keys key (top <$> parts)) in *.
    destruct (decide (i = length parts)) as [Ei|Ei].
    + destruct right.
      2: { destruct (Hkr eq_refl) as [_ Ht]. rewrite Hl0, app_nil_r in Ht by done. exfalso. apply Ht.
           destruct (item_top_join parts Hp Hn) as [_ Hit].
           apply (scan_keys_below key (top <$> parts) (length parts - 1)); [|fold i; destruct parts; [done|cbn in *; lia]].
           by apply item_lookup. }
      destruct (Hl1 eq_refl) as (Hml & c & Hv & Hrc & _).
      rewrite (child_key_nid l parts _ i INFI Hl), bind_Done by (by rewrite decide_True).
      change (own true mlast) with INFI in Hv. rewrite Hv.
      destruct (fits_app _ _ Hfit) as [_ Hfl]. rewrite length_app in Hc.
      destruct (IH fuel true c mlast Hrc Hfl Hk ltac:(lia) ltac:(done) ltac:(lia) ltac:(lia))
        as (r & dl1 & Hi & Ha & Hf).
      rewrite Hi, bind_Done, Ei. by apply (update_last dl d l key value Hk Hl parts mlast).
    + destruct (lookup_lt_is_Some_2 parts i) as [mi Hmi]; [lia|].
      pose proof Hmi as Hsplit. apply list_elem_of_split_length in Hsplit as (P1 & P2 & Hcat & HP1).
      rewrite (child_key_nid l parts _ i (top mi) Hl), bind_Done
        by (rewrite decide_False, list_lookup_fmap, Hmi by done; done).
      pose proof Hparts as Hmi'. rewrite Forall_lookup in Hmi'. destruct (Hmi' i mi Hmi) as (Hnm & c & Hv & Hrc & _).
      change (own false mi) with (top mi) in Hv. rewrite Hv.
      destruct (route key parts mlast P1 mi P2 (ft_sorted _ Hfit) Hn Hcat HP1) as (_ & Ht & _).
      assert (fits mi) as Hfm.
      { rewrite Hcat, join_app, mjoin_cons, <-!app_assoc in Hfit.
        by apply fits_app in Hfit as [_ [? _]%fits_app]. }
      assert (length mi <= length (mjoin parts ++ mlast))%nat as Hlen.
      { rewrite length_app. pose proof (elem_length_join parts mi ltac:(by eapply list_elem_of_lookup_2)). lia. }
      destruct (IH fuel false c mi Hrc Hfm Hk ltac:(lia) ltac:(done) ltac:(lia) ltac:(lia))
        as (r & dl1 & Hi & Ha & Hf).
      rewrite Hi, bind_Done. rewrite HP1. fold i in HP1.
      by eapply (update_inner dl d l key value Hk Hl right parts mlast P1 mi P2).
Qed.

(** ** Commit *)

Lemma foot_disjoint l r1 r2 m1 m2 id :
  (∀ a b, a ∈ m1 → b ∈ m2 → a.1 ≠ b.1) → Forall small_entry m1 → Forall small_entry m2 →
  ¬ (r1 = true ∧ r2 = true) → foot l r1 m1 id → ¬ foot l r2 m2 id.
Proof.
  intros Hd Hs1 Hs2 Hr (j & k & Hj & -> & Hk) (j' & k' & _ & [_ <-]%nid_inj & Hk').
  rewrite Forall_forall in Hs1. rewrite Forall_forall in Hs2.
  destruct Hk as [(e & -> & He)%list_elem_of_fmap|[Hr1 ->]];
    destruct Hk' as [(e' & Ee & He')%list_elem_of_fmap|[Hr2 Ek]].
  - by apply (Hd e e').
  - by destruct (Hs1 e He) as (_ & _ & ?).
  - by destruct (Hs2 e' He') as (_ & _ & ?).
  - by apply Hr.
Qed.

Lemma sorted_apart m1 m2 a b : sorted (m1 ++ m2) → a ∈ m1 → b ∈ m2 → a.1 ≠ b.1.
Proof.
  intros (_ & _ & Hlt)%sorted_app Ha Hb E. specialize (Hlt a b Ha Hb). rewrite E in Hlt.
  by apply bytes_lt_irrefl in Hlt.
Qed.

(** A node in the store is read as it was written. *)
Lemma repr_node dl d l right node m : repr dl d l right node m → fits m → N.of_nat l < 2 ^ 32 →
  contents node = node ∧ node ≠ [].
Proof.
  intros Hr Hfit Hl. destruct l as [|l].
  - destruct Hr as (next & -> & _ & Hlen & Hn). split; [|done].
    rewrite <-(app_nil_r (encode_map 0 m next)) at 1. apply contents_map.
    apply leaf_map_ok; [done|apply Hfit|done].
  - destruct Hr as (parts & mlast & -> & -> & Hp & Hfan & Hparts & _). split; [|done].
    rewrite <-(app_nil_r (meta_bytes _ _ _ _)) at 1. apply contents_meta.
    apply node_meta_ok; try done. eapply Forall_impl; [exact Hparts|naive_solver].
Qed.

Lemma get_put_chunk d k node : contents node = node → node ≠ [] → get_chunk (put_chunk d k node) k = Some node.
Proof. intros Hc Hn. unfold get_chunk, put_chunk. rewrite ss_get_put, Hc. by destruct node. Qed.
Lemma get_chunk_same d d' k : ss_get d' k = ss_get d k → get_chunk d' k = get_chunk d k.
Proof. unfold get_chunk. by intros ->. Qed.

(** A child in the store alone. *)
Definition committed_child d (l : nat) (right : bool) mi : Prop := child ∅ d l right mi.

Lemma committed_frame d d' l right m : m ≠ [] →
  (∀ id, foot (S l) right m id → ss_get d' id = ss_get d id) →
  committed_child d l right m → committed_child d' l right m.
Proof.
  intros Hm Hf (c & Hv & Hr & Hd). exists c. rewrite (view_agree ∅ d).
  - split; [done|]. split; [|done]. eapply repr_agree; [|done]. intros id Hid. split; [done|].
    apply get_chunk_same, Hf. revert Hid. apply foot_mono; [lia|done|done].
  - split; [done|]. by apply get_chunk_same, Hf, foot_own.
Qed.

Section Commit.
Context (dl : delta) (d : D).

(** A commit of one node, with the store that it starts from. *)
Definition commits (l : nat) : Prop := ∀ fuel right node m id (isroot : bool) dc,
  repr dl d l right node m → fits m → N.of_nat l < 2 ^ 32 → (l <= fuel)%nat → dl !! id = Some node →
  (∀ k, foot l right m k → ss_get dc k = ss_get d k) →
  let w := if isroot then root_key p else id in
  ¬ foot l right m w →
  ∃ d', Commit fuel p dl dc id isroot = Done d' ∧ get_chunk d' w = Some node ∧
    repr ∅ d' l right node m ∧
    ∀ k, ¬ foot l right m k → k ≠ w → ss_get d' k = ss_get dc k.

Lemma nid_not_foot l right m k : ¬ foot l right m (nid l k).
Proof. intros (j & k' & Hj & [? _]%nid_inj & _). lia. Qed.

Lemma commit_child l fuel right m dc :
  commits l → child dl d l right m → m ≠ [] → fits m → N.of_nat l < 2 ^ 32 → (l <= fuel)%nat →
  (∀ k, foot (S l) right m k → ss_get dc k = ss_get d k) →
  ∃ d', Commit fuel p dl dc (nid l (own right m)) false = Done d' ∧ committed_child d' l right m ∧
    ∀ k, ¬ foot (S l) right m k → ss_get d' k = ss_get dc k.
Proof.
  intros IH (c & Hv & Hr & Hd) Hm Hfit Hl Hfuel Hdc.
  assert (∀ k, foot l right m k → foot (S l) right m k) as Hmono
    by (intros k; apply foot_mono; [lia|done|done]).
  unfold view in Hv. destruct (dl !! nid l (own right m)) as [c'|] eqn:Ed.
  - injection Hv as ->.
    destruct (IH fuel right c m (nid l (own right m)) false dc Hr Hfit Hl Hfuel Ed) as (d' & HC & Hg & Hr' & Hf).
    { auto. } { apply nid_not_foot. }
    exists d'. split; [done|]. split; [exists c; by unfold view; rewrite lookup_empty, Hg|].
    intros k Hk. apply Hf; [auto|]. intros ->. by apply Hk, foot_own.
  - exists dc. split; [by destruct fuel; cbn [Commit]; rewrite Ed|]. split; [|done].
    apply (committed_frame d); [done|done|]. exists c. unfold view. rewrite lookup_empty. split; [done|].
    split; [|done]. eapply repr_agree; [|done]. intros id Hid. split; [|done]. by rewrite (Hd eq_refl id Hid).
Qed.

Lemma commit_parts l fuel (P : list entries) dc :
  commits l → Forall (λ mi, mi ≠ [] ∧ child dl d l false mi) P → fits (mjoin P) → N.of_nat l < 2 ^ 32 →
  (l <= fuel)%nat → (∀ k, foot (S l) false (mjoin P) k → ss_get dc k = ss_get d k) →
  ∃ d', foldl (λ acc k, d ← acc; Commit fuel p dl d (nid l k) false) (Done dc) (top <$> P) = Done d' ∧
    Forall (λ mi, mi ≠ [] ∧ committed_child d' l false mi) P ∧
    ∀ k, ¬ foot (S l) false (mjoin P) k → ss_get d' k = ss_get dc k.
Proof.
  intros IHl HP. revert dc. induction HP as [|mi P [Hn Hc] HP IH]; intros dc Hfit Hl Hfuel Hdc.
  { by exists dc. }
  rewrite mjoin_cons in Hfit, Hdc |- *. destruct (fits_app _ _ Hfit) as [Hfi HfP].
  assert (∀ (m0 : entries) k, (∀ e, e ∈ m0 → e ∈ mi ++ mjoin P) → foot (S l) false m0 k → foot (S l) false (mi ++ mjoin P) k) as Hsub.
  { intros m0 k Hin. apply foot_mono; [done| |done]. intros k' (e & -> & He)%list_elem_of_fmap.
    apply list_elem_of_fmap_2. auto. }
  assert (∀ k, foot (S l) false mi k → ¬ foot (S l) false (mjoin P) k) as Hdis.
  { intros k. apply foot_disjoint; [|apply Hfi|apply HfP|by intros []].
    intros a b. apply sorted_apart, Hfit. }
  destruct (commit_child l fuel false mi dc IHl Hc Hn Hfi Hl Hfuel) as (d1 & HC & Hcc & Hf1).
  { intros k Hk. apply Hdc. revert Hk. apply Hsub. intros e He. apply elem_of_app. by left. }
  destruct (IH d1 HfP Hl Hfuel) as (d2 & HF & HPc & Hf2).
  { intros k Hk. rewrite Hf1 by (intros Hk'; by apply (Hdis k)).
    apply Hdc. revert Hk. apply Hsub. intros e He. apply elem_of_app. by right. }
  exists d2. split; [|split].
  - cbn [fmap list_fmap foldl]. rewrite bind_Done. change (own false mi) with (top mi) in HC. by rewrite HC.
  - constructor; [|done]. split; [done|]. apply (committed_frame d1); [done| |done].
    intros id Hid. apply Hf2. by apply Hdis.
  - intros k Hk. rewrite Hf2, Hf1; [done|..]; intros Hk'; apply Hk; revert Hk'; apply Hsub;
      intros e He; apply elem_of_app; auto.
Qed.

Lemma child_level l : N.of_nat (S l) < 2 ^ 32 → u64 (N.of_nat (S l) + 2 ^ 64 - 1) = N.of_nat l.
Proof.
  intros Hl. unfold u64. replace (N.of_nat (S l) + 2 ^ 64 - 1) with (N.of_nat l + 1 * 2 ^ 64) by lia.
  rewrite N.Div0.mod_add, N.mod_small; [done|]. assert ((2:N) ^ 32 < 2 ^ 64) by done. lia.
Qed.

(** The children of a meta node that is being committed. *)
Lemma commit_children l fuel right parts mlast dc :
  commits l → fits (mjoin parts ++ mlast) → N.of_nat l < 2 ^ 32 → (l <= fuel)%nat →
  Forall (λ mi, mi ≠ [] ∧ child dl d l false mi) parts →
  (right = false → mlast = []) → (right = true → mlast ≠ [] ∧ child dl d l true mlast) →
  (∀ k, foot (S l) right (mjoin parts ++ mlast) k → ss_get dc k = ss_get d k) →
  ∃ d', (d ← foldl (λ acc k, d ← acc; Commit fuel p dl d (nid l k) false) (Done dc) (top <$> parts);
         if 0 <? N.of_nat (length mlast) then Commit fuel p dl d (nid l INFI) false else Done d) = Done d' ∧
    Forall (λ mi, mi ≠ [] ∧ committed_child d' l false mi) parts ∧
    (right = true → mlast ≠ [] ∧ committed_child d' l true mlast) ∧
    ∀ k, ¬ foot (S l) right (mjoin parts ++ mlast) k → ss_get d' k = ss_get dc k.
Proof.
  intros IHl Hfit Hl Hfuel Hparts Hl0 Hl1 Hdc. destruct (fits_app _ _ Hfit) as [HfP Hfl].
  assert (∀ k, foot (S l) false (mjoin parts) k → foot (S l) right (mjoin parts ++ mlast) k) as Hsub1.
  { intros k. apply foot_mono; [done| |done]. intros k'. rewrite fmap_app, elem_of_app. auto. }
  destruct (commit_parts l fuel parts dc IHl Hparts HfP Hl Hfuel) as (d1 & HF & Hpc & Hf1); [auto|].
  rewrite HF, bind_Done. destruct right.
  - destruct (Hl1 eq_refl) as [Hn Hc].
    assert (∀ k, foot (S l) true mlast k → ¬ foot (S l) false (mjoin parts) k) as Hdis.
    { intros k. apply foot_disjoint; [|apply Hfl|apply HfP|by intros []].
      intros a b Ha Hb E. symmetry in E. revert E. by apply (sorted_apart _ _ _ _ (ft_sorted _ Hfit)). }
    assert (∀ k, foot (S l) true mlast k → foot (S l) true (mjoin parts ++ mlast) k) as Hsub2
      by apply last_foot.
    assert ((0 <? N.of_nat (length mlast)) = true) as -> by (apply N.ltb_lt; destruct mlast; [done|cbn; lia]).
    destruct (commit_child l fuel true mlast d1 IHl Hc Hn Hfl Hl Hfuel) as (d2 & HC & Hcc & Hf2).
    { intros k Hk. rewrite Hf1 by auto. auto. }
    exists d2. split; [done|]. split; [|split; [done|]].
    + rewrite Forall_forall in Hpc |- *. intros mi Hmi. destruct (Hpc mi Hmi) as [Hnm Hcm].
      split; [done|]. apply (committed_frame d1); [done| |done]. intros id Hid. apply Hf2. intros Hid2.
      apply (Hdis id Hid2). rewrite <-(app_nil_r (mjoin parts)). by eapply part_foot.
    + intros k Hk. rewrite Hf2, Hf1; auto.
  - rewrite Hl0 in * by done. exists d1. split; [done|]. split; [done|]. split; [done|]. auto.
Qed.

Lemma bt_Commit_spec l : commits l.
Proof.
  induction l as [|l IH]; intros fuel right node m id isroot dc Hr Hfit Hl Hfuel Hid Hdc w Hw.
  - destruct (repr_node _ _ _ _ _ _ Hr Hfit Hl) as [Hcont Hnn]. pose proof Hr as (next & Hnode & _).
    exists (put_chunk dc w node). split; [|split; [by apply get_put_chunk|split]].
    + assert (type node = Some kMap) as Ht
        by (by rewrite Hnode, <-(app_nil_r (encode_map _ _ _)), type_encode_map).
      destruct fuel; cbn [Commit]; rewrite Hid, Ht; done.
    + by apply (repr_agree dl d); [intros k (? & ? & ? & _); lia|].
    + intros k _ Hk. unfold put_chunk. by rewrite ss_get_put_ne.
  - destruct (repr_node _ _ _ _ _ _ Hr Hfit Hl) as [Hcont Hnn].
    destruct Hr as (parts & mlast & Hnode & -> & Hp & Hfan & Hparts & Hl0 & Hl1).
    assert (Forall (λ mi, mi ≠ []) parts) as Hn by (eapply Forall_impl; [exact Hparts|naive_solver]).
    pose proof (node_meta_ok (S l) parts mlast Hfit Hfan Hn Hl) as Hok.
    destruct fuel as [|fuel]; [lia|].
    destruct (commit_children l fuel right parts mlast (put_chunk dc w node) IH Hfit ltac:(lia) ltac:(lia)
      Hparts Hl0 Hl1) as (d' & HC & HcP & Hcl & Hf).
    { intros k Hk. unfold put_chunk. rewrite ss_get_put_ne; [auto|]. by intros <-. }
    exists d'. split; [|split; [|split]].
    + assert (type node = Some kMeta) as Ht
        by (by rewrite Hnode, <-(app_nil_r (meta_bytes _ _ _ _)), type_meta_bytes).
      assert (parse_meta node = Done (mkMeta (N.of_nat (S l)) (top <$> parts)
        ((N.of_nat ∘ length <$> parts) ++ [N.of_nat (length mlast)]))) as Hpm
        by (rewrite Hnode, <-(app_nil_r (meta_bytes _ _ _ _)); by apply parse_meta_bytes).
      cbn [Commit]. rewrite Hid, Ht, Hpm, bind_Done.
      cbn [meta_level meta_keys meta_elems]. rewrite child_level by done. unfold numEntries. cbn [meta_keys].
      assert (item ((N.of_nat ∘ length <$> parts) ++ [N.of_nat (length mlast)]) (length (top <$> parts))
        = Done (N.of_nat (length mlast))) as -> by (apply item_here; by rewrite !length_fmap).
      exact HC.
    + rewrite (get_chunk_same (put_chunk dc w node)); [by apply get_put_chunk|]. by apply Hf.
    + exists parts, mlast. split; [done|]. done.
    + intros k Hk Hkw. rewrite Hf by done. unfold put_chunk. by rewrite ss_get_put_ne.
Qed.
End Commit.

(** ** [Set] *)

Definition inserts (m : entries) (kvs : entries) : entries := foldl (λ m kv, ins kv.1 kv.2 m) m kvs.

Lemma length_inserts m kvs : (length (inserts m kvs) <= length m + length kvs)%nat.
Proof.
  clear fanout_pos leaf_fanout_pos room. revert m. induction kvs as [|[k v] kvs IH]; intros m; cbn; [lia|].
  pose proof (IH (ins k v m)). pose proof (length_ins k v m). unfold inserts in *. lia.
Qed.

Lemma encode_pair l m1 m2 :
  fits (m1 ++ m2) → m1 ≠ [] → N.of_nat l < 2 ^ 32 →
  encode_meta (N.of_nat l) [top m1] [N.of_nat (length m1); N.of_nat (length m2)]
    = Done (meta_bytes (N.of_nat l) [top m1] [N.of_nat (length m1)] (N.of_nat (length m2))).
Proof.
  intros Hfit Hn Hl. refine (proj1 (encode_node l [m1] m2 _ _ _ Hl)); [|cbn; lia|by repeat constructor].
  by rewrite mjoin_cons, app_nil_r.
Qed.

(** The root after an insertion: the node itself, or one level more. *)
Lemma new_root dl d l m r :
  after dl d l true m r → fits m → m ≠ [] → N.of_nat (S l) < 2 ^ 32 →
  ∃ l' dl' root, (l <= l' <= S l)%nat ∧
    (if isSplit r then
       chunk ← encode_meta (u64 (level r + 1)) [split_key r] (num_elems r);
       let root_id := node_id p (u64 (level r + 1)) INFI in
       Done (root_id, <[root_id := chunk]> dl)
     else Done (node_id p (level r) INFI, dl)) = Done (nid l' INFI, dl') ∧
    dl' !! nid l' INFI = Some root ∧ repr dl' d l' true root m.
Proof.
  intros [Hlv Ha] Hfit Hm Hl. rewrite Hlv. destruct (isSplit r).
  - destruct Ha as (m1 & m2 & -> & Hn1 & Hn2 & Hk & Hnum & Hc1 & Hc2). rewrite Hk, Hnum.
    assert (u64 (N.of_nat l + 1) = N.of_nat (S l)) as ->.
    { unfold u64. assert ((2:N) ^ 32 < 2 ^ 64) by done. rewrite N.mod_small; lia. }
    assert (mjoin [m1] = m1) as Hj by (by rewrite mjoin_cons, app_nil_r).
    rewrite encode_pair, bind_Done by done.
    exists (S l), (<[nid (S l) INFI := meta_bytes (N.of_nat (S l)) [top m1] [N.of_nat (length m1)] (N.of_nat (length m2))]> dl),
      (meta_bytes (N.of_nat (S l)) [top m1] [N.of_nat (length m1)] (N.of_nat (length m2))).
    split; [lia|]. split; [done|]. split; [apply lookup_insert_eq|].
    match goal with |- repr (<[_ := ?c]> _) _ _ _ _ _ =>
      destruct (children_insert dl d l true INFI c [m1] m2 (S l)) as [Hp Hla] end;
      [lia|repeat constructor; auto using fresh_child_child|auto using fresh_child_child|].
    exists [m1], m2. split; [reflexivity|]. split; [by rewrite Hj|]. split; [done|]. split; [cbn; lia|]. done.
  - destruct Ha as [_ (c & Hc & Hr)]. exists l, dl, c. split; [lia|]. done.
Qed.

Lemma set_loop_spec fuel d root_id kvs dl l root m :
  repr dl d l true root m → fits m → Forall small_entry kvs → kvs ≠ [] →
  N.of_nat (length m + length kvs) < 2 ^ 64 → N.of_nat (l + length kvs) < 2 ^ 32 → (l + length kvs <= fuel)%nat →
  ∃ l' dl' root', (l <= l' <= l + length kvs)%nat ∧
    set_loop fanout leaf_fanout fuel p d root root_id kvs dl = Done (nid l' INFI, dl') ∧
    dl' !! nid l' INFI = Some root' ∧ repr dl' d l' true root' (inserts m kvs) ∧ fits (inserts m kvs).
Proof using Type*.
  revert root_id dl l root m. induction kvs as [|[k v] kvs IH]; intros root_id dl l root m Hr Hfit Hs Hne Hc Hl Hfuel;
    [done|]. apply Forall_cons in Hs as [Hkv Hs]. cbn [length] in *.
  pose proof (fits_ins k v m Hfit Hkv ltac:(lia)) as Hfit'.
  destruct (bt_Insert_spec fuel dl d l true root m k v Hr Hfit Hkv ltac:(lia) ltac:(done) ltac:(lia) ltac:(lia))
    as (r & dl1 & Hi & Ha & _).
  destruct (new_root dl1 d l (ins k v m) r Ha Hfit' (ins_nonnil _ _ _) ltac:(lia))
    as (l1 & dl2 & root1 & Hl1 & Hnew & Hroot & Hr1).
  cbn [set_loop]. rewrite Hi, bind_Done. cbn beta iota zeta in Hnew |- *. rewrite Hnew, bind_Done, Hroot.
  destruct kvs as [|kv kvs].
  - exists l1, dl2, root1. split; [cbn; lia|]. done.
  - pose proof (length_ins k v m).
    destruct (IH (nid l1 INFI) dl2 l1 root1 (ins k v m) Hr1 Hfit' Hs ltac:(done) ltac:(lia) ltac:(lia) ltac:(lia))
      as (l' & dl' & root' & Hl' & Hset & Hres). exists l', dl', root'. split; [lia|]. done.
Qed.

(** The tree in memory and in the store stands for a list of entries. *)
Record tree_holds (t : QLBTree) d (l : nat) m : Prop := {
  th_prefix : prefix_ t = p;
  th_fits : fits m;
  th_repr : repr ∅ d l true (root_node t) m;
  th_root : m ≠ [] → get_chunk d (root_key p) = Some (root_node t);
}.

Lemma root_not_foot l right m : ¬ foot l right m (root_key p).
Proof.
  intros (j & k & _ & E & _). unfold root_key, nid, node_id in E. apply (inj (app p)) in E.
  destruct (to_string_cons (N.of_nat j)) as (a & s & Es & Ha). rewrite Es in E. by injection E as <- _.
Qed.

(** A tree that is opened on a store without a root is empty. *)
Lemma open_empty d : get_chunk d (root_key p) = None → tree_holds (open_tree d p) d 0 [].
Proof using Type*.
  intros Hn. unfold open_tree. rewrite Hn. split; [done| |cbn [root_node]|done].
  - split; [constructor|done|done].
  - exists []. split; [done|]. split; [done|]. cbn. lia.
Qed.
(** Opening a store that holds a tree finds that tree. *)
Lemma open_holds t d l m : m ≠ [] → tree_holds t d l m → tree_holds (open_tree d p) d l m.
Proof.
  intros Hm [_ Hfit Hr Hroot]. unfold open_tree. rewrite Hroot by done. by split.
Qed.

Definition prefixed (k : bytes) : Prop := ∃ s, k = p ++ s.
Lemma foot_prefixed l right m k : foot l right m k → prefixed k.
Proof. intros (j & k' & _ & -> & _). by eexists. Qed.

Lemma bt_Set_spec fuel t d l m keys vals :
  tree_holds t d l m → keys ≠ [] → (length keys <= length vals)%nat → Forall small_entry (zip keys vals) →
  N.of_nat (length m + length keys) < 2 ^ 64 → N.of_nat (l + length keys) < 2 ^ 32 → (l + length keys <= fuel)%nat →
  ∃ t' d' l', bt_Set fanout leaf_fanout fuel t d keys vals = Done (t', d', true) ∧ (l <= l' <= l + length keys)%nat ∧
    tree_holds t' d' l' (inserts m (zip keys vals)) ∧ inserts m (zip keys vals) ≠ [] ∧
    ∀ k, ¬ prefixed k → ss_get d' k = ss_get d k.
Proof using Type*.
  intros [Hp Hfit Hr _] Hne Hlen Hs Hc Hl Hfuel.
  assert (length (zip keys vals) = length keys) as Hz by (rewrite length_zip_with; lia).
  assert (zip keys vals ≠ []) as Hzn by (intros E; rewrite E in Hz; by destruct keys).
  destruct (set_loop_spec fuel d [] (zip keys vals) ∅ l (root_node t) m Hr Hfit Hs Hzn ltac:(lia) ltac:(lia) ltac:(lia))
    as (l' & dl & root & Hl' & Hset & Hroot & Hr' & Hfit'). rewrite Hz in Hl'.
  destruct (bt_Commit_spec dl d l' fuel true root _ (nid l' INFI) true d Hr' Hfit' ltac:(lia) ltac:(lia) Hroot
    ltac:(done) (root_not_foot _ _ _)) as (d' & HC & Hg & Hrc & Hf).
  assert (inserts m (zip keys vals) ≠ []) as Hin.
  { destruct (zip keys vals) as [|kv kvs _] using rev_ind; [done|]. unfold inserts. rewrite foldl_app. apply ins_nonnil. }
  exists (mkQLBTree p root true), d', l'. split; [|split; [done|split; [by split|split; [done|]]]].
  - unfold bt_Set. rewrite (proj2 (Nat.ltb_ge _ _)) by done. rewrite Hp, Hset, bind_Done. cbn beta iota.
    rewrite HC, bind_Done, Hg. by destruct keys.
  - intros k Hk. apply Hf; [|intros ->; apply Hk; by eexists]. intros Hfo. by apply Hk, (foot_prefixed _ _ _ _ Hfo).
Qed.
End Repr.
