(* ===== verification/BTreeReads.v ===== *)
(** * Reads of the B+ tree, and the map that it implements

    A read descends to the leaf of a key; a range reads every child between the
    children of its bounds.  A range that ends to the right of a node that is not on
    the right edge also reads the node of the right edge one level below, whose
    entries belong to the tree as well, so it does no harm.  The tree is then
    shown to refine a finite map. *)

From S2P Require Import Prelude Cpp Hash Chunk DB LedgerTypes BTreeNode BTree BTreeSpec.

Open Scope N_scope.

(** ** Sorted entries as a map *)

Definition to_map (m : entries) : gmap bytes bytes := list_to_map m.

Lemma sorted_NoDup m : sorted m → NoDup m.*1.
Proof.
  unfold sorted. induction m as [|e m IH]; intros Hs; [constructor|].
  apply StronglySorted_inv in Hs as [Hs Hall]. rewrite fmap_cons. constructor; [|auto].
  intros Hin. rewrite Forall_forall in Hall. by apply (bytes_lt_irrefl e.1), Hall.
Qed.

Lemma lookup_to_map m k v : sorted m → to_map m !! k = Some v ↔ (k, v) ∈ m.
Proof. intros Hs. symmetry. by apply elem_of_list_to_map, sorted_NoDup. Qed.

Lemma to_map_none m k : (∀ e, e ∈ m → e.1 ≠ k) → to_map m !! k = None.
Proof. intros Hn. apply not_elem_of_list_to_map. intros (e & -> & He)%list_elem_of_fmap. by apply (Hn e). Qed.

Lemma to_map_ins k v m : sorted m → to_map (ins k v m) = <[k := v]> (to_map m).
Proof.
  intros Hs. apply map_eq. intros k'. apply option_eq. intros v'.
  rewrite lookup_to_map by (by apply sorted_ins). unfold ins.
  rewrite elem_of_app, elem_of_cons, !list_elem_of_filter, lookup_insert_Some, lookup_to_map by done. cbn [fst].
  split.
  - intros [[Hlt ?]|[[= -> ->]|[Hlt ?]]]; [right|by left|right]; split; try done;
      intros ->; by apply bytes_lt_irrefl in Hlt.
  - intros [[-> ->]|[Hne Hin]]; [by right; left|].
    destruct (bytes_lt_total k' k) as [?|[?|?]]; naive_solver.
Qed.

Lemma to_map_inserts m kvs : sorted m →
  sorted (inserts m kvs) ∧ to_map (inserts m kvs) = foldl (λ s kv, <[kv.1 := kv.2]> s) (to_map m) kvs.
Proof.
  revert m. induction kvs as [|[k v] kvs IH]; intros m Hs; [done|]. cbn [foldl fst snd].
  rewrite <-to_map_ins by done. apply IH. by apply sorted_ins.
Qed.

(** A key between what is left and right of a list is looked up in that list. *)
Lemma to_map_middle A m C k : (∀ e, e ∈ A → bytes_lt e.1 k) → (∀ e, e ∈ C → bytes_lt k e.1) →
  to_map (A ++ m ++ C) !! k = to_map m !! k.
Proof.
  intros HA HC. unfold to_map. rewrite !list_to_map_app, lookup_union_r.
  - rewrite lookup_union_l; [done|]. apply to_map_none. intros e He <-. by apply (bytes_lt_irrefl e.1), HC.
  - apply to_map_none. intros e He <-. by apply (bytes_lt_irrefl e.1), HA.
Qed.

Lemma find_entry_map key m : sorted m → find_entry key m = to_map m !! key.
Proof.
  unfold sorted. induction m as [|[k v] m IH]; intros Hs; [done|].
  apply StronglySorted_inv in Hs as [Hs Hall]. rewrite Forall_forall in Hall. cbn [find_entry].
  unfold to_map. cbn [list_to_map foldr fst snd]. destruct (decide (key = k)) as [->|Hne].
  { symmetry. apply lookup_insert_eq. }
  rewrite lookup_insert_ne by done. destruct (bytes_ltb key k) eqn:E; [|by apply IH].
  apply bytes_ltb_lt in E. symmetry. apply to_map_none. intros e He <-. apply (bytes_lt_irrefl e.1).
  transitivity k; [done|]. apply Hall. by apply list_elem_of_fmap_2.
Qed.

(** ** Ranges *)

Definition in_range (start fin k : bytes) : Prop := ¬ bytes_lt k start ∧ ¬ bytes_lt fin k.
#[export] Instance in_range_dec start fin k : Decision (in_range start fin k) := _.

(** The entries of a map between two keys. *)
Definition range_of (start fin : bytes) (s : gmap bytes bytes) : gmap bytes bytes :=
  filter (λ kv, in_range start fin kv.1) s.

Lemma lookup_range start fin s k v :
  range_of start fin s !! k = Some v ↔ s !! k = Some v ∧ in_range start fin k.
Proof. unfold range_of. by rewrite map_lookup_filter_Some. Qed.

(** What a step of a range does: the result grows by entries of the map, to hold at
    least those of a list. *)
Definition grown (start fin : bytes) (s : gmap bytes bytes) (m : entries) (r r' : gmap bytes bytes) : Prop :=
  r ⊆ r' ∧ r' ⊆ range_of start fin s ∧ ∀ e, e ∈ m → in_range start fin e.1 → r' !! e.1 = Some e.2.

Lemma find_keys_step n k v rest start fin r : entry_ok (k, v) →
  find_keys (S n) (encode_entry (k, v) ++ rest) start fin r =
  (if decide (in_range start fin k) then
     find_keys n rest start fin (match r !! k with Some _ => r | None => <[k := v]> r end)
   else if bytes_ltb fin k then Done r else find_keys n rest start fin r).
Proof.
  intros Hok. unfold entry_ok in Hok. rewrite length_encode_entry in Hok. cbn [fst snd] in Hok.
  unfold encode_entry. cbn [fst snd]. rewrite <-!app_assoc. cbn [find_keys].
  assert (256 ^ N.of_nat 4 = 2 ^ 32) as E by reflexivity.
  rewrite read_int_encode, bind_Done by lia. cbn beta iota.
  rewrite read_int_encode, bind_Done by lia. cbn beta iota. rewrite read_bytes_app, bind_Done. cbn beta iota.
  assert (u64 (u32 (N.of_nat (8 + length k + length v) + 2 ^ 32 - N.of_nat (length k)) + 2 ^ 64 - 8)
    = N.of_nat (length v)) as ->.
  { unfold u32, u64.
    replace (N.of_nat (8 + length k + length v) + 2 ^ 32 - N.of_nat (length k))
      with (N.of_nat (8 + length v) + 1 * 2 ^ 32) by lia.
    rewrite N.Div0.mod_add, (N.mod_small (N.of_nat (8 + length v))) by lia.
    replace (N.of_nat (8 + length v) + 2 ^ 64 - 8) with (N.of_nat (length v) + 1 * 2 ^ 64) by lia.
    rewrite N.Div0.mod_add, N.mod_small by lia. done. }
  rewrite read_bytes_app, !bind_Done. cbn beta iota.
  unfold in_range. destruct (bytes_ltb k start) eqn:E1, (bytes_ltb fin k) eqn:E2; cbn [negb andb];
    try (rewrite decide_False; [done|]; rewrite <-!bytes_ltb_lt; naive_solver).
  rewrite decide_True; [done|]. rewrite <-!bytes_ltb_lt. by rewrite E1, E2.
Qed.

(** A leaf adds its entries. *)
Lemma find_keys_spec start fin s m rest r :
  sorted m → Forall entry_ok m → (∀ e, e ∈ m → s !! e.1 = Some e.2) → r ⊆ range_of start fin s →
  ∃ r', find_keys (length m) (mjoin (encode_entry <$> m) ++ rest) start fin r = Done r' ∧
    grown start fin s m r r'.
Proof.
  unfold sorted. revert r. induction m as [|[k v] m IH]; intros r Hs Hok Hin Hr.
  { exists r. split; [done|]. split; [done|]. split; [done|]. by intros e ?%elem_of_nil. }
  apply StronglySorted_inv in Hs as [Hs Hall]. rewrite Forall_forall in Hall. inversion Hok as [|?? Hk Hok']; subst.
  rewrite fmap_cons, mjoin_cons, <-app_assoc. cbn [length]. rewrite find_keys_step by done.
  assert (∀ e, e ∈ m → s !! e.1 = Some e.2) as Hin' by (intros e He; apply Hin; by right).
  destruct (decide (in_range start fin k)) as [Hrk|Hrk].
  - set (r1 := match r !! k with Some _ => r | None => <[k := v]> r end).
    assert (range_of start fin s !! k = Some v) as Hkv.
    { apply lookup_range. split; [|done]. apply (Hin (k, v)). by left. }
    assert (r ⊆ r1 ∧ r1 ⊆ range_of start fin s ∧ r1 !! k = Some v) as (Hr1 & Hr1' & Hr1k).
    { unfold r1. destruct (r !! k) as [v'|] eqn:E.
      - split; [done|]. split; [done|]. rewrite E. rewrite <-Hkv. symmetry. by eapply lookup_weaken.
      - split; [by apply insert_subseteq|]. split; [by apply insert_subseteq_l|apply lookup_insert_eq]. }
    destruct (IH r1 Hs Hok' Hin' Hr1') as (r' & Hf & Hg1 & Hg2 & Hg3). exists r'. split; [done|].
    split; [by transitivity r1|]. split; [done|]. intros e [->|He]%elem_of_cons Hre; [|by apply Hg3].
    by eapply lookup_weaken.
  - destruct (bytes_ltb fin k) eqn:E.
    + exists r. split; [done|]. split; [done|]. split; [done|]. apply bytes_ltb_lt in E.
      intros e [->|He]%elem_of_cons [_ Hre]; [done|]. destruct Hre. transitivity k; [done|].
      apply Hall. by apply list_elem_of_fmap_2.
    + destruct (IH r Hs Hok' Hin' Hr) as (r' & Hf & Hg1 & Hg2 & Hg3). exists r'. split; [done|].
      split; [done|]. split; [done|]. intros e [->|He]%elem_of_cons Hre; [done|]. by apply Hg3.
Qed.

Lemma FindKey_spec start fin s m next r :
  map_ok 0 m next → sorted m → (∀ e, e ∈ m → s !! e.1 = Some e.2) → r ⊆ range_of start fin s →
  ∃ r', FindKey (encode_map 0 m next) start fin r = Done r' ∧ grown start fin s m r r'.
Proof.
  intros Hok Hs Hin Hr. pose proof (map_ok_entries _ _ _ Hok) as Hes. pose proof (length_join_entries m) as Hl.
  destruct Hok as [_ Hz]. unfold map_size in Hz.
  destruct (find_keys_spec start fin s m (le_encode 4 (N.of_nat (length next)) ++ next) r Hs Hes Hin Hr)
    as (r' & Hf & Hg). exists r'. split; [|done]. rewrite <-Hf.
  unfold FindKey, encode_map. rewrite <-(app_nil_r (make_chunk _ _)), data_make_chunk, app_nil_r.
  assert (read_bytes 12 (le_encode 8 (N.of_nat (length m)) ++ le_encode 4 0 ++
    le_encode 4 (N.of_nat (length m)) ++ mjoin (encode_entry <$> m) ++
    le_encode 4 (N.of_nat (length next)) ++ next)
    = Done (le_encode 8 (N.of_nat (length m)) ++ le_encode 4 0,
       le_encode 4 (N.of_nat (length m)) ++ mjoin (encode_entry <$> m) ++
       le_encode 4 (N.of_nat (length next)) ++ next)) as Hread.
  { rewrite (app_assoc (le_encode 8 _)). apply (read_bytes_app (le_encode 8 _ ++ le_encode 4 0)). }
  rewrite Hread, bind_Done. cbn beta iota.
  rewrite read_int_encode, bind_Done by (change (256 ^ N.of_nat 4) with (2 ^ 32); lia).
  cbn beta iota. by rewrite Nat2N.id.
Qed.

(** The steps of a range over a list of children. *)
Lemma fold_grown (start fin : bytes) (s : gmap bytes bytes) (step : nat → gmap bytes bytes → outcome (gmap bytes bytes)) (Q : nat → entries → Prop)
  (idx : list nat) (r : gmap bytes bytes) :
  (∀ i (r : gmap bytes bytes), i ∈ idx → r ⊆ range_of start fin s →
    ∃ r', step i r = Done r' ∧ grown start fin s [] r r' ∧ ∀ mi, Q i mi → grown start fin s mi r r') →
  r ⊆ range_of start fin s →
  ∃ r', foldl (λ acc i, r ← acc; step i r) (Done r) idx = Done r' ∧ grown start fin s [] r r' ∧
    ∀ i mi, i ∈ idx → Q i mi → grown start fin s mi r r'.
Proof.
  revert r. induction idx as [|i idx IH]; intros r Hstep Hr.
  { exists r. split; [done|]. split; [|by intros i mi ?%elem_of_nil].
    split; [done|]. split; [done|]. by intros e ?%elem_of_nil. }
  destruct (Hstep i r) as (r1 & Hs1 & (Hg1 & Hg2 & _) & HQ); [by left|done|].
  destruct (IH r1) as (r' & Hf & (Hg3 & Hg4 & _) & HQ'); [intros j r0 Hj; apply Hstep; by right|done|].
  exists r'. cbn [foldl]. rewrite bind_Done, Hs1. split; [done|].
  assert (r ⊆ r') as Hrr by (by transitivity r1). split.
  { split; [done|]. split; [done|]. by intros e ?%elem_of_nil. }
  intros j mi [->|Hj]%elem_of_cons Hmi; (split; [done|]; split; [done|]); intros e He Hin.
  - destruct (HQ mi Hmi) as (_ & _ & Hg). eapply lookup_weaken; [by apply Hg|done].
  - destruct (HQ' j mi Hj Hmi) as (_ & _ & Hg). by apply Hg.
Qed.

Section Reads.
Context (p : bytes) (fanout leaf_fanout : nat) (B : nat).
Context `{StringStoreLaws D}.
Implicit Types (d : D) (m : entries).
Hypothesis fanout_pos : (0 < fanout)%nat.
Hypothesis leaf_fanout_pos : (0 < leaf_fanout)%nat.
Hypothesis room : N.of_nat (40 + (fanout + leaf_fanout) * (12 + 2 * B) + length p + B) < 2 ^ 32.

Abbreviation stored d := (repr p fanout leaf_fanout B ∅ d).

(** A meta node in the store, and its children by their index. *)
Lemma stored_meta d l right node m : stored d (S l) right node m → fits B m → N.of_nat (S l) < 2 ^ 32 →
  ∃ parts mlast nes, m = mjoin parts ++ mlast ∧ parts ≠ [] ∧ Forall (λ mi, mi ≠ []) parts ∧
    (right = false → mlast = []) ∧
    type node = Some kMeta ∧ parse_meta node = Done (mkMeta (N.of_nat (S l)) (top <$> parts) nes) ∧
    (∀ key, search_meta (mkMeta (N.of_nat (S l)) (top <$> parts) nes) key = Done (scan_keys key (top <$> parts))) ∧
    ∀ i mi r, (parts !! i = Some mi ∧ r = false ∨ i = length parts ∧ mi = mlast ∧ r = true ∧ right = true) →
      ∃ c, child_key p (mkMeta (N.of_nat (S l)) (top <$> parts) nes) i = Done (nid p l (own r mi)) ∧
        get_chunk d (nid p l (own r mi)) = Some c ∧ stored d l r c mi ∧ fits B mi ∧ mi ≠ [].
Proof using Type*.
  intros (parts & mlast & -> & -> & Hp & Hfan & Hparts & Hl0 & Hl1) Hfit Hl.
  assert (Forall (λ mi, mi ≠ []) parts) as Hn by (eapply Forall_impl; [exact Hparts|naive_solver]).
  exists parts, mlast, ((N.of_nat ∘ length <$> parts) ++ [N.of_nat (length mlast)]).
  pose proof (node_meta_ok p fanout leaf_fanout B fanout_pos leaf_fanout_pos room (S l) parts mlast Hfit Hfan Hn Hl) as Hok.
  rewrite <-(app_nil_r (meta_bytes _ _ _ _)).
  do 4 (split; [done|]). split; [apply type_meta_bytes|]. split; [by apply parse_meta_bytes|]. split.
  { intros key. apply search_meta_spec. apply (sorted_tops parts); [|done].
    by apply (proj1 (sorted_app _ _) (ft_sorted _ _ Hfit)). }
  intros i mi r [[Hi ->]|(-> & -> & -> & Hr)].
  - rewrite Forall_forall in Hparts. pose proof (list_elem_of_lookup_2 _ _ _ Hi) as Hmi.
    destruct (Hparts mi Hmi) as (Hne & c & Hv & Hc & _). exists c.
    split; [|split; [by unfold view in Hv; rewrite lookup_empty in Hv|split; [done|split; [|done]]]].
    + rewrite (child_key_nid p l parts _ i (top mi) Hl); [done|]. pose proof (lookup_lt_Some _ _ _ Hi).
      rewrite decide_False by lia. by rewrite list_lookup_fmap, Hi.
    + apply list_elem_of_split in Hmi as (Q1 & Q2 & ->). rewrite join_app, mjoin_cons, <-!app_assoc in Hfit.
      by apply fits_app in Hfit as [_ [? _]%fits_app].
  - destruct (Hl1 Hr) as (Hne & c & Hv & Hc & _). exists c.
    split; [|split; [by unfold view in Hv; rewrite lookup_empty in Hv|split; [done|split; [|done]]]].
    + rewrite (child_key_nid p l parts _ (length parts) INFI Hl); [done|]. by rewrite decide_True.
    + by apply fits_app in Hfit as [_ ?].
Qed.

Lemma stored_leaf d right node m : stored d 0 right node m → fits B m →
  type node = Some kMap ∧ ∃ next, map_ok 0 m next ∧ node = encode_map 0 m next.
Proof using Type*.
  intros (next & -> & _ & Hlen & Hn) Hfit. rewrite <-(app_nil_r (encode_map 0 m next)) at 1.
  split; [apply type_encode_map|]. exists next. split; [|done].
  apply (leaf_map_ok p fanout leaf_fanout B); [done..|apply Hfit|done].
Qed.

(** ** [Get] *)

Lemma bt_TryGet_spec fuel d l right node m key :
  stored d l right node m → fits B m → (right = false → m ≠ [] ∧ ¬ bytes_lt (top m) key) →
  (l <= fuel)%nat → N.of_nat l < 2 ^ 32 →
  TryGet fuel p d node key = Done (to_map m !! key).
Proof using Type*.
  revert fuel right node m. induction l as [|l IH]; intros fuel right node m Hr Hfit Hkr Hfuel Hl.
  - destruct (stored_leaf _ _ _ _ Hr Hfit) as (Ht & next & Hok & ->).
    assert (TryGet fuel p d (encode_map 0 m next) key
      = map ← parse_map (encode_map 0 m next); Done (find_entry key (map_entries_ map))) as ->
      by (destruct fuel; cbn [TryGet]; by rewrite Ht).
    rewrite <-(app_nil_r (encode_map 0 m next)), parse_map_bytes, bind_Done by done. cbn [map_entries_].
    by rewrite find_entry_map by apply Hfit.
  - destruct (stored_meta _ _ _ _ _ Hr Hfit Hl)
      as (parts & mlast & nes & -> & Hp & Hn & Hl0 & Ht & Hpm & Hsearch & Hch).
    destruct fuel as [|fuel]; [lia|]. cbn [TryGet]. rewrite Ht, Hpm, bind_Done, Hsearch, bind_Done.
    pose proof (scan_keys_le key (top <$> parts)) as Hle. rewrite length_fmap in Hle.
    remember (scan_keys key (top <$> parts)) as i eqn:Ei.
    destruct (decide (i = length parts)) as [El|El].
    + assert (∀ e, e ∈ mjoin parts → bytes_lt e.1 key) as Hlo.
      { apply (route_below key parts []); [|by rewrite app_nil_r, <-Ei, El].
        by apply (proj1 (sorted_app _ _) (ft_sorted _ _ Hfit)). }
      destruct right.
      2: { destruct (Hkr eq_refl) as [Hm Hk]. rewrite Hl0, app_nil_r in Hm, Hk by done.
           apply top_elem, list_elem_of_fmap in Hm as (e & Et & He). destruct Hk. rewrite Et. by apply Hlo. }
      destruct (Hch i mlast true) as (c & -> & Hg & Hrc & Hfc & _); [by right|].
      rewrite bind_Done, Hg, (IH fuel true c mlast) by (done || lia). f_equal. symmetry.
      rewrite <-(app_nil_r mlast) at 1. apply to_map_middle; [done|]. by intros e ?%elem_of_nil.
    + destruct (lookup_lt_is_Some_2 parts i) as [mi Hmi]; [lia|].
      destruct (Hch i mi false) as (c & -> & Hg & Hrc & Hfc & Hnm); [by left|].
      pose proof Hmi as (P1 & P2 & Hcat & HP1)%list_elem_of_split_length.
      destruct (route key parts mlast P1 mi P2 (ft_sorted _ _ Hfit) Hn Hcat) as (Hlo & Hk & Hhi); [congruence|].
      rewrite bind_Done, Hg, (IH fuel false c mi) by (done || lia). f_equal. symmetry.
      rewrite Hcat, join_app, mjoin_cons, <-!app_assoc. by apply to_map_middle.
Qed.

(** ** [Range] *)

(** The nodes of the right edge below a level. *)
Definition spine d (s : gmap bytes bytes) (l : nat) : Prop :=
  ∀ j, (j < l)%nat → ∃ c mi, get_chunk d (nid p j INFI) = Some c ∧ stored d j true c mi ∧ fits B mi ∧
    ∀ e, e ∈ mi → s !! e.1 = Some e.2.

Lemma stored_spine d s l node m : stored d l true node m → fits B m → N.of_nat l < 2 ^ 32 →
  (∀ e, e ∈ m → s !! e.1 = Some e.2) → spine d s l.
Proof using Type*.
  revert node m. induction l as [|l IH]; intros node m Hr Hfit Hl Hs j Hj; [lia|].
  destruct (stored_meta _ _ _ _ _ Hr Hfit Hl) as (parts & mlast & nes & -> & _ & _ & _ & _ & _ & _ & Hch).
  destruct (Hch (length parts) mlast true) as (c & _ & Hg & Hrc & Hfc & _); [by right|].
  assert (∀ e, e ∈ mlast → s !! e.1 = Some e.2) as Hs' by (intros e He; apply Hs, elem_of_app; by right).
  destruct (decide (j = l)) as [->|]; [by exists c, mlast|]. apply (IH c mlast); [done..|lia|done|lia].
Qed.

(** The indices of the children that hold entries of the range. *)
Lemma range_index start fin (parts : list entries) mlast i mi e :
  sorted (mjoin parts ++ mlast) → Forall (λ mi, mi ≠ []) parts →
  (parts !! i = Some mi ∨ i = length parts ∧ mi = mlast) → e ∈ mi → in_range start fin e.1 →
  (scan_keys start (top <$> parts) <= i <= scan_keys fin (top <$> parts))%nat.
Proof.
  intros Hs Hn Hi He [Hlo Hhi]. pose proof (scan_keys_le start (top <$> parts)) as Hle.
  rewrite length_fmap in Hle. split.
  - destruct Hi as [Hi|[-> _]]; [|done]. apply Nat.nlt_ge. intros Hlt.
    apply (scan_keys_below start (top <$> parts) i (top mi)) in Hlt; [|by rewrite list_lookup_fmap, Hi].
    apply Hlo. apply list_elem_of_lookup_2, list_elem_of_split in Hi as (Q1 & Q2 & ->).
    rewrite join_app, mjoin_cons, <-!app_assoc in Hs.
    apply sorted_app in Hs as (_ & Hs & _). apply sorted_app in Hs as (Hs & _).
    destruct (sorted_top mi e Hs He) as [?| ->]; [by transitivity (top mi)|done].
  - apply Nat.nlt_ge. intros Hlt.
    destruct (lookup_lt_is_Some_2 parts (scan_keys fin (top <$> parts))) as [mj Hmj].
    { destruct Hi as [Hi%lookup_lt_Some|[-> _]]; lia. }
    pose proof (scan_keys_at fin (top <$> parts) (top mj)) as Hat.
    rewrite list_lookup_fmap, Hmj in Hat. apply (Hat eq_refl).
    apply list_elem_of_split_length in Hmj as (Q1 & Q2 & -> & HQ).
    rewrite Forall_forall in Hn. assert (mj ≠ []) as Hnj by (apply Hn; set_solver).
    apply top_elem, list_elem_of_fmap in Hnj as (a & Et & Ha).
    rewrite join_app, mjoin_cons, <-!app_assoc in Hs. apply sorted_app in Hs as (_ & Hs & _).
    apply sorted_app in Hs as (_ & _ & Hab). rewrite Et.
    assert (e ∈ mjoin Q2 ++ mlast) as HeQ.
    { apply elem_of_app. destruct Hi as [Hi|[_ ->]]; [left|by right].
      apply list_elem_of_join. exists mi. split; [done|].
      rewrite lookup_app_r in Hi by lia.
      destruct (i - length Q1)%nat eqn:E; [lia|]. by eapply list_elem_of_lookup_2. }
    specialize (Hab a e Ha HeQ). destruct (bytes_lt_total e.1 fin) as [?|[<-|?]]; [by transitivity e.1|done|done].
Qed.

Lemma TryRange_spec fuel d s l right node m start fin r :
  stored d l right node m → fits B m → (l <= fuel)%nat → N.of_nat l < 2 ^ 32 → spine d s l →
  (∀ e, e ∈ m → s !! e.1 = Some e.2) → r ⊆ range_of start fin s →
  ∃ r', TryRange fuel p d node start fin r = Done r' ∧ grown start fin s m r r'.
Proof using Type*.
  revert fuel right node m r. induction l as [|l IH]; intros fuel right node m r Hr Hfit Hfuel Hl Hsp Hs Hrs.
  - destruct (stored_leaf _ _ _ _ Hr Hfit) as (Ht & next & Hok & ->).
    assert (TryRange fuel p d (encode_map 0 m next) start fin r = FindKey (encode_map 0 m next) start fin r) as ->
      by (destruct fuel; cbn [TryRange]; by rewrite Ht).
    by apply (FindKey_spec start fin s m next r); [done|apply Hfit|..].
  - destruct (stored_meta _ _ _ _ _ Hr Hfit Hl)
      as (parts & mlast & nes & -> & Hp & Hn & Hl0 & Ht & Hpm & Hsearch & Hch).
    destruct fuel as [|fuel]; [lia|]. cbn [TryRange]. rewrite Ht, Hpm, bind_Done, !Hsearch, !bind_Done.
    set (meta := mkMeta _ _ _) in *.
    assert (∀ A : entries, (∀ e, e ∈ A → e ∈ mjoin parts ++ mlast) → ∀ e, e ∈ A → s !! e.1 = Some e.2) as Hsub
      by (intros A HA e He; by apply Hs, HA).
    pose proof (scan_keys_le fin (top <$> parts)) as Hto. rewrite length_fmap in Hto.
    destruct (fold_grown start fin s
      (λ i r, id ← child_key p meta i;
        match get_chunk d id with None => Stop Undefined | Some child => TryRange fuel p d child start fin r end)
      (λ i mi, parts !! i = Some mi ∨ i = length parts ∧ mi = mlast)
      (seq (scan_keys start (top <$> parts)) (S (scan_keys fin (top <$> parts)) - scan_keys start (top <$> parts))) r)
      as (r' & Hf & (Hg1 & Hg2 & _) & HQ); [|done|].
    + intros i r0 [Hfrom Hi]%elem_of_seq Hr0.
      assert (∀ mi r', grown start fin s mi r0 r' → grown start fin s [] r0 r') as Hnil
        by (intros mi r' (? & ? & _); split; [done|]; split; [done|]; by intros e ?%elem_of_nil).
      assert (spine d s l) as Hsp' by (intros j Hj; apply Hsp; lia).
      destruct (decide (i = length parts)) as [->|Hne]; [destruct right|].
      * destruct (Hch (length parts) mlast true) as (c & Hck & Hg & Hrc & Hfc & _); [by right|].
        destruct (IH fuel true c mlast r0 Hrc Hfc) as (r' & HT & Hgr);
          [lia|lia|done|apply Hsub; intros e He; apply elem_of_app; by right|done|].
        exists r'. rewrite Hck, bind_Done, Hg. split; [done|]. split; [by eapply Hnil|].
        intros mi [Hmi%lookup_lt_Some|[_ ->]]; [lia|done].
      * destruct (Hsp l) as (c & mi & Hg & Hrc & Hfc & Hsc); [lia|].
        destruct (IH fuel true c mi r0 Hrc Hfc) as (r' & HT & Hgr); [lia|lia|done..|].
        exists r'. unfold meta. rewrite (child_key_nid p l parts nes (length parts) INFI Hl) by (by rewrite decide_True).
        rewrite bind_Done, Hg. split; [done|]. split; [by eapply Hnil|].
        intros mi' [Hmi%lookup_lt_Some|[_ ->]]; [lia|]. rewrite Hl0 by done. by eapply Hnil.
      * destruct (lookup_lt_is_Some_2 parts i) as [mi Hmi]; [lia|].
        destruct (Hch i mi false) as (c & Hck & Hg & Hrc & Hfc & _); [by left|].
        destruct (IH fuel false c mi r0 Hrc Hfc) as (r' & HT & Hgr); [lia|lia|done| |done|].
        { apply Hsub. intros e He. apply elem_of_app. left. apply list_elem_of_join. exists mi.
          split; [done|]. by eapply list_elem_of_lookup_2. }
        exists r'. rewrite Hck, bind_Done, Hg. split; [done|]. split; [by eapply Hnil|].
        intros mi' [Hmi'|[? _]]; [|done]. by simplify_eq.
    + exists r'. split; [exact Hf|]. split; [done|]. split; [done|]. intros e He Hre.
      assert (∃ i mi, (parts !! i = Some mi ∨ i = length parts ∧ mi = mlast) ∧ e ∈ mi) as (i & mi & Hmi & Hemi).
      { apply elem_of_app in He as [(mi & He & Hmi)%list_elem_of_join|He].
        - apply list_elem_of_lookup in Hmi as [i Hi]. exists i, mi. split; [by left|done].
        - exists (length parts), mlast. split; [by right|done]. }
      destruct (range_index start fin parts mlast i mi e (ft_sorted _ _ Hfit) Hn Hmi Hemi Hre) as [Hi1 Hi2].
      destruct (HQ i mi) as (_ & _ & Hg); [apply elem_of_seq; lia|done|]. by apply Hg.
Qed.

(** ** The tree *)

Lemma bt_Get_spec fuel t d l m key : tree_holds p fanout leaf_fanout B t d l m →
  (l <= fuel)%nat → N.of_nat l < 2 ^ 32 → bt_Get fuel t d key = Done (to_map m !! key).
Proof using Type*.
  intros [Hp Hfit Hr _] Hfuel Hl. unfold bt_Get. rewrite Hp.
  by apply (bt_TryGet_spec fuel d l true (root_node t) m key).
Qed.

Lemma bt_Range_spec fuel t d l m start fin : tree_holds p fanout leaf_fanout B t d l m →
  (l <= fuel)%nat → N.of_nat l < 2 ^ 32 → bt_Range fuel t d start fin = Done (range_of start fin (to_map m)).
Proof using Type*.
  intros [Hp Hfit Hr _] Hfuel Hl. unfold bt_Range. rewrite Hp.
  assert (∀ e, e ∈ m → to_map m !! e.1 = Some e.2) as Hin.
  { intros [k v] He. by apply lookup_to_map; [apply Hfit|]. }
  destruct (TryRange_spec fuel d (to_map m) l true (root_node t) m start fin ∅ Hr Hfit Hfuel Hl)
    as (r' & -> & _ & Hsub & Hall); [by eapply stored_spine|done|apply map_empty_subseteq|].
  f_equal. apply (anti_symm (⊆)); [done|]. apply map_subseteq_spec. intros k v [Hk Hrk]%lookup_range.
  apply lookup_to_map in Hk; [|apply Hfit]. by apply (Hall (k, v)).
Qed.

(** ** Runs of the tree *)

Definition batch : Type := (list bytes * list bytes)%type.
(** A sequence of calls of [Set]. *)
Definition tree_sets (fuel : nat) (t : QLBTree) d (bs : list batch) : outcome (QLBTree * D) :=
  foldl (λ acc b, '(t, d) ← acc; '(t, d, _) ← bt_Set fanout leaf_fanout fuel t d b.1 b.2; Done (t, d))
    (Done (t, d)) bs.
(** The same on a finite map. *)
Definition map_sets (s : gmap bytes bytes) (bs : list batch) : gmap bytes bytes :=
  foldl (λ s b, foldl (λ s kv, <[kv.1 := kv.2]> s) s (zip b.1 b.2)) s bs.
Definition total (bs : list batch) : nat := foldr (λ b n, length b.1 + n)%nat 0%nat bs.
Lemma total_cons (b : batch) bs : total (b :: bs) = (length b.1 + total bs)%nat.
Proof. done. Qed.
Definition batch_ok (b : batch) : Prop :=
  (length b.1 <= length b.2)%nat ∧ Forall (small_entry B) (zip b.1 b.2).

Lemma tree_sets_spec fuel t d l m bs : tree_holds p fanout leaf_fanout B t d l m →
  (m = [] → get_chunk d (root_key p) = None) →
  Forall batch_ok bs → (l + total bs <= fuel)%nat → (length m + total bs <= fuel)%nat → N.of_nat fuel < 2 ^ 32 →
  ∃ t' d' l' m', tree_sets fuel t d bs = Done (t', d') ∧ (l' <= fuel)%nat ∧
    tree_holds p fanout leaf_fanout B t' d' l' m' ∧ (m' = [] → get_chunk d' (root_key p) = None) ∧
    to_map m' = map_sets (to_map m) bs ∧ ∀ k, ¬ prefixed p k → ss_get d' k = ss_get d k.
Proof using Type*.
  revert t d l m. induction bs as [|[keys vals] bs IH]; intros t d l m Ht Hm Hok Hl Hc Hfuel.
  { exists t, d, l, m. split; [done|]. split; [cbn in Hl; lia|]. done. }
  apply Forall_cons in Hok as [[Hlen Hsm] Hok]. cbn [fst snd] in *.
  rewrite total_cons in Hl, Hc. cbn [fst length] in Hl, Hc.
  assert ((2:N) ^ 32 < 2 ^ 64) by done.
  destruct keys as [|k keys].
  { destruct (IH t d l m Ht Hm Hok) as (t' & d' & l' & m' & Hrun & Hres); [cbn in *; lia..|done|].
    by exists t', d', l', m'. }
  destruct (bt_Set_spec p fanout leaf_fanout B fanout_pos leaf_fanout_pos room fuel t d l m (k :: keys) vals Ht)
    as (t1 & d1 & l1 & Hset & Hl1 & Ht1 & Hne & Hf1); [done|done|done|lia|lia|lia|].
  pose proof (length_inserts m (zip (k :: keys) vals)) as Hli.
  assert (length (zip (k :: keys) vals) = length (k :: keys)) as Hz by (rewrite length_zip_with; lia).
  destruct (IH t1 d1 l1 (inserts m (zip (k :: keys) vals)) Ht1 (λ E, False_ind _ (Hne E)) Hok) as (t' & d' & l' & m' & Hrun & Hl' & Ht' & Hm' & Hmap & Hf);
    [lia|lia|done|].
  exists t', d', l', m'. split; [|split; [done|split; [done|split; [done|split]]]].
  - unfold tree_sets. cbn [foldl fst snd]. rewrite bind_Done. cbn beta iota. rewrite Hset, bind_Done. exact Hrun.
  - rewrite Hmap. unfold map_sets. cbn [foldl fst snd]. f_equal.
    by apply to_map_inserts, (ft_sorted _ _ (th_fits _ _ _ _ _ _ _ _ Ht)).
  - intros k' Hk'. by rewrite Hf, Hf1.
Qed.

(** C4. The B+ tree refines a finite map: after any sequence of batches set on an
    empty tree, every call succeeds within the fuel, a [Get] returns what the last
    batch that set the key gave it, a [Range] returns the entries between its
    bounds, a tree that is opened on the store afterwards reads the same, and
    keys of the store outside the prefix of the tree are as before. *)
Theorem btree_refines fuel d bs :
  get_chunk d (root_key p) = None → Forall batch_ok bs → (total bs <= fuel)%nat → N.of_nat fuel < 2 ^ 32 →
  ∃ t' d', tree_sets fuel (open_tree d p) d bs = Done (t', d') ∧
    (∀ key, bt_Get fuel t' d' key = Done (map_sets ∅ bs !! key) ∧
            bt_Get fuel (open_tree d' p) d' key = Done (map_sets ∅ bs !! key)) ∧
    (∀ start fin, bt_Range fuel t' d' start fin = Done (range_of start fin (map_sets ∅ bs)) ∧
       bt_Range fuel (open_tree d' p) d' start fin = Done (range_of start fin (map_sets ∅ bs))) ∧
    ∀ k, ¬ prefixed p k → ss_get d' k = ss_get d k.
Proof using Type*.
  intros Hroot Hok Ht Hfuel.
  destruct (tree_sets_spec fuel (open_tree d p) d 0 [] bs) as (t' & d' & l' & m' & Hrun & Hl' & Ht' & Hm' & Hmap & Hf);
    [by eapply open_empty|done|done|lia|cbn; lia|done|].
  assert (∃ l'', (l'' <= fuel)%nat ∧ tree_holds p fanout leaf_fanout B (open_tree d' p) d' l'' m') as (l2 & Hl2 & Ho).
  { destruct (decide (m' = [])) as [->|Hne].
    - exists 0%nat. split; [lia|]. eapply open_empty; eauto.
    - exists l'. split; [done|]. by apply (open_holds _ _ _ _ t'). }
  change (to_map []) with (∅ : gmap bytes bytes) in Hmap.
  exists t', d'. split; [done|]. rewrite <-Hmap. split; [|split; [|done]].
  - intros key. by rewrite (bt_Get_spec fuel t' d' l' m'), (bt_Get_spec fuel (open_tree d' p) d' l2 m') by (done || lia).
  - intros start fin.
    by rewrite (bt_Range_spec fuel t' d' l' m'), (bt_Range_spec fuel (open_tree d' p) d' l2 m') by (done || lia).
Qed.
End Reads.

(** Leaves of two entries and nodes of two children, under the prefix ["t"]. *)
Lemma btree_refines_witness :
  let d : DB (gmap bytes bytes) (gmap bytes chunk) := mkDB ∅ ∅ ∅ in
  let bs : list batch := [([ #"a"; #"c"; #"b"], [ #"1"; #"2"; #"3"]); ([ #"d"; #"b"], [ #"4"; #"5"])] in
  ∃ t' d', tree_sets 2 2 5 (open_tree d #"t") d bs = Done (t', d') ∧
    bt_Get 5 t' d' #"b" = Done (Some #"5") ∧ bt_Get 5 t' d' #"z" = Done None ∧
    bt_Range 5 t' d' #"b" #"c" = Done (<[ #"b" := #"5"]> {[ #"c" := #"2"]}).
Proof.
  intros d bs.
  destruct (btree_refines #"t" 2 2 1 ltac:(lia) ltac:(lia) ltac:(done) 5 d bs)
    as (t' & d' & Hrun & Hget & Hrange & _).
  - done.
  - repeat constructor; cbn; try lia; done.
  - cbn. lia.
  - done.
  - exists t', d'. split; [done|]. destruct (Hget #"b") as [-> _], (Hget #"z") as [-> _], (Hrange #"b" #"c") as [-> _].
    split; [done|]. split; [done|]. done.
Defined.
