(* ===== verification/BTreeMap.v ===== *)
(** * The B+ tree as a map, for the ledgers that use it

    QLDB and SQL Ledger keep their documents in trees under prefixes of one
    store.  Here is what they need of such a tree: it holds a map, a key is looked
    up in that map, setting keys updates it and leaves the rest of the store alone. *)

From S2P Require Import Prelude Cpp Hash Chunk DB LedgerTypes BTreeNode BTree BTreeSpec BTreeReads.

Open Scope N_scope.

(** A tree only depends on the entries under its prefix. *)
Lemma tree_holds_frame `{StringStoreLaws D} p fanout leaf_fanout B t (d d' : D) l m :
  (0 < fanout)%nat → (0 < leaf_fanout)%nat →
  N.of_nat (40 + (fanout + leaf_fanout) * (12 + 2 * B) + length p + B) < 2 ^ 32 →
  (∀ k, prefixed p k → ss_get d' k = ss_get d k) →
  tree_holds p fanout leaf_fanout B t d l m → tree_holds p fanout leaf_fanout B t d' l m.
Proof.
  intros Hf Hlf Hroom Hfr [Hp Hfit Hr Hroot]. split; [done|done| |].
  - eapply (repr_agree p fanout leaf_fanout B Hf Hlf Hroom ∅ d); [|done].
    intros id Hid. split; [done|]. apply get_chunk_same, Hfr. by eapply foot_prefixed.
  - intros Hm. rewrite <-(Hroot Hm). apply get_chunk_same, Hfr. by eexists.
Qed.

Lemma prefix_before_bar p a x s : ("|"%char) ∉ p → a ++ "|"%char :: x = p ++ s → prefixed p a.
Proof.
  intros Hp E. apply app_eq_inv in E as [(k & -> & E)|(k & -> & E)]; [by exists k|].
  destruct k as [|c k]; [exists []; by rewrite !app_nil_r|]. injection E as <- _. destruct Hp. apply elem_of_app. right. by left.
Qed.


Section TreeMap.
Context `{StringStoreLaws D} (fanout leaf_fanout fuel B : nat).
Implicit Types d : D.

(** Entries of at most [B] bytes under a prefix of at most ten, of which a node fits in
32 bits; a tree is never higher than the number of keys that were set. *)
Record tree_limits : Prop := {
  tl_fanout : (0 < fanout)%nat;
  tl_leaf : (0 < leaf_fanout)%nat;
  tl_room : N.of_nat (40 + (fanout + leaf_fanout) * (12 + 2 * B) + 10 + B) < 2 ^ 32;
  tl_fuel : N.of_nat fuel < 2 ^ 32;
}.
Hypothesis limits : tree_limits.

Record tree_of (p : bytes) (t : QLBTree) d (c : nat) (P : gmap bytes bytes → Prop) : Prop := {
  to_tree : ∃ l m, tree_holds p fanout leaf_fanout B t d l m ∧ (l <= c)%nat ∧ (length m <= c)%nat ∧ P (to_map m);
}.

Lemma room_of (p : bytes) : (length p <= 10)%nat →
  N.of_nat (40 + (fanout + leaf_fanout) * (12 + 2 * B) + length p + B) < 2 ^ 32.
Proof. destruct limits. lia. Qed.

Lemma tree_of_frame (p : bytes) (t : QLBTree) d d' (c : nat) P : (length p <= 10)%nat → (∀ k, prefixed p k → ss_get d' k = ss_get d k) →
  tree_of p t d c P → tree_of p t d' c P.
Proof.
  intros Hp Hf [(l & m & Ht & Hl & Hm & HP)]. split. exists l, m. split; [|done]. destruct limits.
  by eapply tree_holds_frame; [..|exact Hf|exact Ht]; [done|done|apply room_of].
Qed.

Lemma tree_get (p : bytes) (t : QLBTree) d (c : nat) P key : (length p <= 10)%nat → (c <= fuel)%nat → tree_of p t d c P →
  ∃ M, P M ∧ bt_Get fuel t d key = Done (M !! key).
Proof.
  intros Hp Hc [(l & m & Ht & Hl & Hm & HP)]. exists (to_map m). split; [done|]. destruct limits.
  eapply (bt_Get_spec p fanout leaf_fanout B); [done|done|by apply room_of|exact Ht|lia|lia].
Qed.

Lemma tree_range (p : bytes) (t : QLBTree) d (c : nat) P (start fin : bytes) : (length p <= 10)%nat → (c <= fuel)%nat → tree_of p t d c P →
  ∃ M, P M ∧ bt_Range fuel t d start fin = Done (range_of start fin M).
Proof.
  intros Hp Hc [(l & m & Ht & Hl & Hm & HP)]. exists (to_map m). split; [done|]. destruct limits.
  eapply (bt_Range_spec p fanout leaf_fanout B); [done|done|by apply room_of|exact Ht|lia|lia].
Qed.

Lemma tree_set (p : bytes) (t : QLBTree) d (c : nat) (P P' : gmap bytes bytes → Prop) (keys vals : list bytes) : (length p <= 10)%nat → keys ≠ [] →
  length keys = length vals → Forall (small_entry B) (zip keys vals) → (c + length keys <= fuel)%nat →
  tree_of p t d c P → (∀ M, P M → P' (foldl (λ s kv, <[kv.1 := kv.2]> s) M (zip keys vals))) →
  ∃ t' d', bt_Set fanout leaf_fanout fuel t d keys vals = Done (t', d', true) ∧
    tree_of p t' d' (c + length keys) P' ∧ ∀ k, ¬ prefixed p k → ss_get d' k = ss_get d k.
Proof.
  intros Hp Hne Hlen Hs Hc [(l & m & Ht & Hl & Hm & HP)] HP'. destruct limits.
  assert ((2:N) ^ 32 < 2 ^ 64) by done.
  destruct (bt_Set_spec p fanout leaf_fanout B tl_fanout0 tl_leaf0 (room_of p Hp) fuel t d l m keys vals Ht Hne)
    as (t' & d' & l' & Hset & Hl' & Ht' & _ & Hf); [lia|done|lia|lia|lia|].
  exists t', d'. split; [done|]. split; [|done]. split. exists l', (inserts m (zip keys vals)).
  split; [done|]. split; [lia|]. split.
  - pose proof (length_inserts m (zip keys vals)) as Hli. rewrite length_zip_with in Hli. lia.
  - destruct (to_map_inserts m (zip keys vals) (ft_sorted _ _ (th_fits _ _ _ _ _ _ _ _ Ht))) as [_ ->].
    by apply HP'.
Qed.

Lemma tree_of_empty p d : (length p <= 10)%nat → get_chunk d (root_key p) = None → tree_of p (open_tree d p) d 0 (λ M, M = ∅).
Proof.
  intros Hp Hn. split. exists 0%nat, []. split; [|done]. destruct limits. by apply open_empty; [..|apply room_of|].
Qed.
End TreeMap.
