(* ===== verification/QLNode.v ===== *)
(** * [ledger/qldb/qlnode.cc], [qlnode.h]: the documents and blocks of QLDB

    A document is a key and a value with the address of its block and its
    version; a block is a list of documents with two digests.  Both are chunks
    of the layouts the header draws, and both are read back as they were
    written when they fit in 32 bits. *)

From S2P Require Import Prelude Cpp Hash Chunk LedgerTypes BTreeNode.

Open Scope N_scope.

Record BlockAddress := mkAddr { ledger_name : bytes; seq_no : N }.
Record Data := mkData { data_key : bytes; data_val : bytes }.
Record MetaData := mkMetaData { md_doc_seq : N; md_version : N; md_time : N }.
Record Statement := mkStatement { stmt_type : N; stmt_time : N }.

(** ** Documents *)

Record Document := mkDocument { getAddr : BlockAddress; getData : Data; getMetaData : MetaData }.

(** The length of the value, from two 32-bit fields. *)
Definition val_bytes (entry_bytes key_bytes : N) : N :=
  u64 (u32 (entry_bytes + 2 ^ 32 - key_bytes) + 2 ^ 64 - 8).

(** [Document::Encode] *)
Definition encode_document (key val : bytes) (addr : BlockAddress) (meta : MetaData) : bytes :=
  make_chunk kDocument
    (le_encode 4 (N.of_nat (length (ledger_name addr))) ++ ledger_name addr ++ le_encode 8 (seq_no addr)
      ++ le_encode 4 (N.of_nat (length key + length val + 8)) ++ le_encode 4 (N.of_nat (length key))
      ++ key ++ val ++ le_encode 4 (md_doc_seq meta) ++ le_encode 4 (md_version meta)
      ++ le_encode 8 (md_time meta)).

(** [Document::PrecomputeOffset] *)
Definition parse_document (m : bytes) : outcome Document :=
  '(ldg_bytes, rest) ← read_int 4 (data m);
  '(name, rest) ← read_bytes ldg_bytes rest;
  '(seq, rest) ← read_int 8 rest;
  '(entry_bytes, rest) ← read_int 4 rest;
  '(key_bytes, rest) ← read_int 4 rest;
  '(key, rest) ← read_bytes key_bytes rest;
  '(val, rest) ← read_bytes (val_bytes entry_bytes key_bytes) rest;
  '(doc_seq, rest) ← read_int 4 rest;
  '(version, rest) ← read_int 4 rest;
  '(time, _) ← read_int 8 rest;
  Done (mkDocument (mkAddr name seq) (mkData key val) (mkMetaData doc_seq version time)).

(** ** Blocks *)

Record QLBlock := mkQLBlock {
  block_hash_ : bytes;
  previous_hash_ : bytes;
  block_time_ : N;
  block_addr_ : BlockAddress;
  statement_ : Statement;
  documents_ : list bytes;
}.

(** [QLBlock::Encode] *)
Definition encode_block (addr : BlockAddress) (statement : Statement) (block_time : N)
  (block_hash previous_hash : bytes) (documents : list bytes) : bytes :=
  make_chunk kQLBlock
    (take kByteLength block_hash ++ take kByteLength previous_hash ++ le_encode 8 block_time
      ++ le_encode 4 (N.of_nat (length (ledger_name addr))) ++ ledger_name addr
      ++ le_encode 8 (seq_no addr) ++ le_encode 1 (stmt_type statement) ++ le_encode 8 (stmt_time statement)
      ++ le_encode 4 (N.of_nat (length documents)) ++ mjoin (contents <$> documents)).

(** The documents of a block are the memory from where they start. *)
Fixpoint block_documents (n : nat) (rest : bytes) : outcome (list bytes) :=
  match n with
  | O => Done []
  | S n =>
      '(num_bytes, _) ← read_int 4 rest;
      '(_, rest') ← read_bytes num_bytes rest;
      docs ← block_documents n rest';
      Done (rest :: docs)
  end.

(** [QLBlock::PrecomputeOffset] *)
Definition parse_qlblock (m : bytes) : outcome QLBlock :=
  '(block_hash, rest) ← read_bytes 20 (data m);
  '(previous_hash, rest) ← read_bytes 20 rest;
  '(block_time, rest) ← read_int 8 rest;
  '(ledger_nm_bytes, rest) ← read_int 4 rest;
  '(name, rest) ← read_bytes ledger_nm_bytes rest;
  '(seq, rest) ← read_int 8 rest;
  '(type, rest) ← read_int 1 rest;
  '(time, rest) ← read_int 8 rest;
  '(num_entries, rest) ← read_int 4 rest;
  documents ← block_documents (N.to_nat num_entries) rest;
  Done (mkQLBlock block_hash previous_hash block_time (mkAddr name seq) (mkStatement type time) documents).

(** [QLBlock::UpdateHash] *)
Definition UpdateHash (block block_hash : bytes) : bytes :=
  take kMetaLength block ++ take kByteLength block_hash ++ drop kByteLength (data block).

(** [getDocumentSize], [getDocumentBySeq] *)
Definition getDocumentSize (b : QLBlock) : N := N.of_nat (length (documents_ b)).
Definition getDocumentBySeq (b : QLBlock) (seq : N) : outcome bytes := item (documents_ b) (N.to_nat seq).

(** ** Round trips *)

Record document_ok (key val : bytes) (addr : BlockAddress) (meta : MetaData) : Prop := {
  dk_size : N.of_nat (kMetaLength + 36 + length (ledger_name addr) + length key + length val) < 2 ^ 32;
  dk_seq : seq_no addr < 2 ^ 64;
  dk_doc_seq : md_doc_seq meta < 2 ^ 32;
  dk_version : md_version meta < 2 ^ 32;
  dk_time : md_time meta < 2 ^ 64;
}.

Lemma val_bytes_spec k v : N.of_nat (k + v + 8) < 2 ^ 32 →
  val_bytes (N.of_nat (k + v + 8)) (N.of_nat k) = N.of_nat v.
Proof.
  intros Hs. unfold val_bytes, u32, u64. assert ((2:N) ^ 32 < 2 ^ 64) by done.
  replace (N.of_nat (k + v + 8) + 2 ^ 32 - N.of_nat k) with (N.of_nat (v + 8) + 1 * 2 ^ 32) by lia.
  rewrite N.Div0.mod_add, (N.mod_small (N.of_nat (v + 8))) by lia.
  replace (N.of_nat (v + 8) + 2 ^ 64 - 8) with (N.of_nat v + 1 * 2 ^ 64) by lia.
  rewrite N.Div0.mod_add. apply N.mod_small. lia.
Qed.

Lemma parse_encode_document key val addr meta rest : document_ok key val addr meta →
  parse_document (encode_document key val addr meta ++ rest) = Done (mkDocument addr (mkData key val) meta).
Proof.
  intros [Hs Hq Hd Hv Ht]. unfold kMetaLength, kChunkTypeOffset in Hs.
  assert (256 ^ N.of_nat 4 = 2 ^ 32) as E4 by done. assert (256 ^ N.of_nat 8 = 2 ^ 64) as E8 by done.
  unfold parse_document, encode_document. rewrite data_make_chunk, <-!app_assoc.
  rewrite read_int_encode, bind_Done by lia. rewrite read_bytes_app, bind_Done.
  rewrite read_int_encode, bind_Done by lia. rewrite read_int_encode, bind_Done by lia.
  rewrite read_int_encode, bind_Done by lia. rewrite read_bytes_app, bind_Done.
  rewrite val_bytes_spec by lia. rewrite read_bytes_app, bind_Done.
  rewrite read_int_encode, bind_Done by lia. rewrite read_int_encode, bind_Done by lia.
  rewrite read_int_encode, bind_Done by lia. by destruct addr, meta.
Qed.

Lemma length_encode_document key val addr meta :
  length (encode_document key val addr meta)
  = (kMetaLength + 36 + length (ledger_name addr) + length key + length val)%nat.
Proof. unfold encode_document. rewrite length_make_chunk, !length_app, !length_le_encode. lia. Qed.

Lemma contents_encode_document key val addr meta rest : document_ok key val addr meta →
  contents (encode_document key val addr meta ++ rest) = encode_document key val addr meta.
Proof.
  intros [Hs _ _ _ _]. apply contents_make_chunk. rewrite !length_app, !length_le_encode. lia.
Qed.

(** A list of chunks one after the other. *)
Definition chunk_ok (m : bytes) : Prop := contents m = m ∧ numBytes m = N.of_nat (length m) ∧ (4 <= length m)%nat.

Lemma document_chunk_ok key val addr meta : document_ok key val addr meta →
  chunk_ok (encode_document key val addr meta).
Proof.
  intros Hok. split; [|split].
  - rewrite <-(app_nil_r (encode_document _ _ _ _)) at 1. by apply contents_encode_document.
  - destruct Hok as [Hs _ _ _ _]. unfold encode_document. rewrite <-(app_nil_r (make_chunk _ _)) at 1.
    rewrite numBytes_make_chunk; [by rewrite length_make_chunk|]. rewrite !length_app, !length_le_encode. lia.
  - rewrite length_encode_document. lia.
Qed.

Lemma block_documents_spec docs rest : Forall chunk_ok docs →
  ∃ ms, block_documents (length docs) (mjoin docs ++ rest) = Done ms ∧
    Forall2 (λ doc m, ∃ s, m = doc ++ s) docs ms.
Proof.
  induction docs as [|doc docs IH]; intros Hok; [by exists []|].
  inversion Hok as [|?? (Hc & Hn & Hl) Hok']; subst. destruct (IH Hok') as (ms & Hms & HF).
  exists ((doc ++ mjoin docs ++ rest) :: ms). rewrite mjoin_cons, <-app_assoc. cbn [length block_documents].
  assert (read_int 4 (doc ++ mjoin docs ++ rest) = Done (N.of_nat (length doc), drop 4 doc ++ mjoin docs ++ rest)) as ->.
  { unfold read_int. rewrite <-(take_drop 4 doc) at 1. rewrite <-app_assoc.
    assert (length (take 4 doc) = 4%nat) as H4 by (rewrite length_take; lia).
    rewrite <-H4 at 1. rewrite read_bytes_app, bind_Done. do 2 f_equal.
    unfold numBytes, kNumBytesOffset in Hn. by rewrite drop_0 in Hn. }
  rewrite bind_Done, read_bytes_app, bind_Done, Hms, bind_Done. split; [done|].
  constructor; [by eexists|done].
Qed.

Record block_ok (addr : BlockAddress) (st : Statement) (time : N) (docs : list bytes) : Prop := {
  bk_size : N.of_nat (kMetaLength + 73 + length (ledger_name addr) + length (mjoin docs)) < 2 ^ 32;
  bk_seq : seq_no addr < 2 ^ 64;
  bk_time : time < 2 ^ 64;
  bk_type : stmt_type st < 2 ^ 8;
  bk_stime : stmt_time st < 2 ^ 64;
  bk_docs : Forall chunk_ok docs;
}.

Lemma contents_docs docs : Forall chunk_ok docs → contents <$> docs = docs.
Proof.
  intros Hok. rewrite <-(list_fmap_id docs) at 2. apply list_fmap_ext. intros i m Hm.
  rewrite Forall_lookup in Hok. by destruct (Hok i m Hm).
Qed.

Lemma parse_encode_block addr st time bh ph docs : block_ok addr st time docs →
  length bh = kByteLength → length ph = kByteLength →
  ∃ ms, parse_qlblock (encode_block addr st time bh ph docs) = Done (mkQLBlock bh ph time addr st ms) ∧
    Forall2 (λ doc m, ∃ s, m = doc ++ s) docs ms ∧
    contents (encode_block addr st time bh ph docs) = encode_block addr st time bh ph docs.
Proof.
  intros [Hs Hq Ht Hty Hst Hdocs] Hbh Hph. unfold kMetaLength, kChunkTypeOffset in Hs.
  assert (256 ^ N.of_nat 4 = 2 ^ 32) as E4 by done. assert (256 ^ N.of_nat 8 = 2 ^ 64) as E8 by done.
  assert (length docs <= length (mjoin docs))%nat as Hdl.
  { clear Hs. induction Hdocs as [|doc docs (_ & _ & Hl) _ IH]; [done|]. rewrite mjoin_cons, length_app. cbn. lia. }
  destruct (block_documents_spec docs [] Hdocs) as (ms & Hms & HF). rewrite app_nil_r in Hms.
  exists ms. unfold parse_qlblock, encode_block. rewrite contents_docs by done.
  rewrite !take_ge by lia. rewrite <-(app_nil_r (make_chunk _ _)). split; [|split; [done|]].
  - rewrite data_make_chunk, <-!app_assoc. change 20 with (N.of_nat kByteLength).
    rewrite <-Hbh at 1. rewrite read_bytes_app, bind_Done. rewrite <-Hph at 1. rewrite read_bytes_app, bind_Done.
    rewrite read_int_encode, bind_Done by lia. rewrite read_int_encode, bind_Done by lia.
    rewrite read_bytes_app, bind_Done. rewrite read_int_encode, bind_Done by lia.
    rewrite read_int_encode, bind_Done by done. rewrite read_int_encode, bind_Done by lia.
    rewrite read_int_encode, bind_Done by lia. rewrite app_nil_r, Nat2N.id, Hms, bind_Done.
    by destruct addr, st.
  - etrans; [apply contents_make_chunk|by rewrite app_nil_r].
    rewrite !length_app, !length_le_encode. unfold kMetaLength, kChunkTypeOffset, kByteLength in *. lia.
Qed.
