(* ===== verification/QLDB.v ===== *)
(** * [ledger/qldb/qldb.cc], [qldb.h]: the QLDB ledger

    A ledger is a chain of blocks of documents.  The documents are found through two
    B+ trees, the latest under their keys and every one under ["<key>|<version>"].
    Under each block is a tree of digests over its documents, the digest of the
    previous block and two digests of its header; over the blocks is a tree whose
    right edge is rewritten with each block.  The store keeps the preimages of
    the inner nodes of both. *)

From S2P Require Import Prelude Cpp Hash Chunk DB MerkleSpec LedgerTypes BTreeNode BTree QLNode.

Open Scope N_scope.

Record QLDB (D : Type) := mkQLDB { ql_db : D; indexed_ : QLBTree; history_ : QLBTree }.
Arguments mkQLDB {D} _ _ _.
Arguments ql_db {D} _.
Arguments indexed_ {D} _.
Arguments history_ {D} _.

Record QLProofResult := mkQLProof {
  qp_data : Data;
  qp_addr : BlockAddress;
  qp_meta : MetaData;
  qp_proof : list bytes;
  qp_pos : list N;
}.
(** [return {}] *)
Definition no_proof : QLProofResult :=
  mkQLProof (mkData [] []) (mkAddr [] 0) (mkMetaData 0 0 0) [] [].

Record DigestInfo := mkDigestInfo { tip : N; digest : bytes }.

(** ** Keys of the store *)

Definition block_key (name : bytes) (seqno : N) : bytes := name ++ #"|" ++ to_string seqno.
Definition digest_key (name : bytes) : bytes := #"digest_" ++ name.
(** A node under a block, and a node over the blocks. *)
Definition doc_node_key (name : bytes) (seqno level i : N) : bytes :=
  #"proof_" ++ name ++ #"|" ++ to_string seqno ++ #"|" ++ to_string level ++ #"|" ++ to_string i.
Definition chain_node_key (name : bytes) (level i : N) : bytes :=
  #"proof_" ++ name ++ #"|" ++ to_string level ++ #"|" ++ to_string i.

Section QLDB.
Context `{Blake2b, StringStore D} (junk : nat → ascii) (fanout leaf_fanout fuel : nat).
Implicit Types (d : D) (q : QLDB D).

(** The constructor, on a store that was opened. *)
Definition create_qldb d : QLDB D := mkQLDB d (open_tree d #"COMMITTED_") (open_tree d #"HISTORY_").

Definition CreateLedger q (name : bytes) : QLDB D :=
mkQLDB (ss_put (ql_db q) name #"0") (indexed_ q) (history_ q).

(** ** Reads *)

Definition ql_GetCommitted q (key : bytes) : outcome (option bytes) := bt_Get fuel (indexed_ q) (ql_db q) key.

(** A document of a chunk that may be null. *)
Definition document_of (m : option bytes) : outcome Document :=
match m with None => Stop Undefined | Some m => parse_document m end.

Definition ql_GetData q (key : bytes) : outcome bytes :=
m ← ql_GetCommitted q key;
doc ← document_of m;
Done (data_val (getData doc)).

Definition ql_Range q (from to : bytes) : outcome (gmap bytes bytes) :=
bt_Range fuel (indexed_ q) (ql_db q) from to.

Definition version_key (key : bytes) (version : N) : bytes := key ++ #"|" ++ to_string version.

Definition GetVersion q (key : bytes) (version : N) : outcome (option bytes) :=
bt_Get fuel (history_ q) (ql_db q) (version_key key version).

(** The loop of [GetHistory] from [i] down. *)
Fixpoint history_loop q (key : bytes) (version n : N) (i : nat) : outcome (list (option bytes)) :=
match i with
| O => Done []
| S i' =>
    if version - N.of_nat i <? n then
      result ← GetVersion q key (N.of_nat i');
      rest ← history_loop q key version n i';
      Done (result :: rest)
    else Done []
end.
Definition ql_GetHistory q (key : bytes) (n : N) : outcome (list (option bytes)) :=
result ← ql_GetCommitted q key;
doc ← document_of result;
let version := md_version (getMetaData doc) in
rest ← history_loop q key version n (N.to_nat version);
Done (result :: rest).

(** ** The digests *)

(** One level under a block: the parents of [hs], from index [i]. *)
Fixpoint put_nodes d (key : N → bytes) (i : N) (hs : list bytes) : D * list bytes :=
match hs with
| [] => (d, [])
| a :: b :: rest =>
    let node := take kByteLength a ++ take kByteLength b in
    let '(d, ps) := put_nodes (ss_put d (key i) node) key (i + 1) rest in
    (d, ComputeFrom node :: ps)
| [a] =>
    let node := take kByteLength a in
    (ss_put d (key i) node, [ComputeFrom node])
end.
Fixpoint block_hash_loop (n : nat) d (name : bytes) (seqno level : N) (current : list bytes)
  : outcome (D * bytes) :=
match current with
| [] => Stop Undefined
| [h] => Done (d, h)
| _ =>
    match n with
    | O => Stop OutOfFuel
    | S n =>
        let level := level + 1 in
        let '(d, current) := put_nodes d (doc_node_key name seqno level) 0 current in
        block_hash_loop n d name seqno level current
    end
end.
Definition calculateBlockHash d (proof : list bytes) (name : bytes) (seqno : N) : outcome (D * bytes) :=
block_hash_loop (length proof) d name seqno 0 proof.

(** The loop of [calculateDigest]: the nodes above the last block. *)
Fixpoint digest_loop (n : nat) d (name : bytes) (level last_seqno : N) (curr_hash prev_block_hash : bytes)
  : outcome (D * bytes) :=
if last_seqno =? 0 then Done (d, curr_hash)
else
  match n with
  | O => Stop OutOfFuel
  | S n =>
      let level := level + 1 in
      let pr_last := last_seqno / 2 in
      let key := chain_node_key name level pr_last in
      node ← (if last_seqno mod 2 =? 0 then Done (take kByteLength curr_hash)
              else
                prev_hash ← (if level =? 1 then Done prev_block_hash
                             else
                               let prev_node := ss_get d (chain_node_key name (level - 1) (last_seqno - 1)) in
                               if (length prev_node <? kByteLength * 2)%nat then Stop Undefined
                               else Done (ComputeFrom (take (kByteLength * 2) prev_node)));
                Done (take kByteLength prev_hash ++ take kByteLength curr_hash));
      digest_loop n (ss_put d key node) name level pr_last (ComputeFrom node) prev_block_hash
  end.
Definition calculateDigest d (block_hash prev_hash name : bytes) (seqno : N) : outcome D :=
'(d, curr_hash) ← digest_loop 64 d name 0 seqno block_hash prev_hash;
Done (ss_put d (digest_key name) (ToBase32_value curr_hash)).

(** [digest] *)
Definition ql_digest q (name : bytes) : outcome DigestInfo :=
let digest := ss_get (ql_db q) (digest_key name) in
let tip := ss_get (ql_db q) name in
match tip with
| [] => Done (mkDigestInfo 0 digest)
| _ =>
    seqno ← stoul (match find_char "|" tip with Some i => take i tip | None => tip end);
    Done (mkDigestInfo seqno digest)
end.

(** ** Writes *)

(** The number of the next block and the digest of the last one.  A tip without a
bar is its own suffix, since [npos + 1] is 0. *)
Definition next_block (tip : bytes) : outcome (N * bytes) :=
match tip with
| [] => Done (0, ComputeFrom #"0")
| _ =>
    let '(num, rest) :=
      match find_char "|" tip with Some i => (take i tip, drop (S i) tip) | None => (tip, tip) end in
    old_seqno ← stoul num;
    Done (u64 (old_seqno + 1), FromBase32 junk rest)
end.

(** The documents of [Set] and their keys in the history. *)
Fixpoint make_documents q (name : bytes) (seqno now i : N) (kvs : list (bytes * bytes))
  : outcome (list (bytes * bytes)) :=
match kvs with
| [] => Done []
| (key, val) :: kvs =>
    latest ← ql_GetCommitted q key;
    version ← match latest with
              | None => Done 0
              | Some m => doc ← parse_document m; Done (md_version (getMetaData doc) + 1)
              end;
    let document := encode_document key val (mkAddr name seqno) (mkMetaData i version now) in
    rest ← make_documents q name seqno now (i + 1) kvs;
    Done ((document, version_key key version) :: rest)
end.

(** The two arrays that are hashed into a block: the fields are copied to the
start of memory that is otherwise not initialised. *)
Definition stmt_bytes (now : N) (garbage : bytes) : bytes := take 9 (le_encode 8 now ++ garbage).
Definition addr_bytes (name : bytes) (now : N) (garbage : bytes) : bytes :=
take (length name + 16) (le_encode 8 now ++ drop 8 (name ++ garbage)).

(** [Set]; [now] is the clock, [g1] and [g2] are what the arrays held. *)
Definition ql_Set q (now : N) (g1 g2 name : bytes) (keys vals : list bytes) : outcome (QLDB D * bool) :=
if negb (length keys =? length vals)%nat then Done (q, false)
else match keys with
| [] => Done (q, true)
| _ =>
    let tip := ss_get (ql_db q) name in
    '(seqno, prev_hash) ← next_block tip;
    docs ← make_documents q name seqno now 0 (zip keys vals);
    let documents := docs.*1 in
    '(indexed, d, _) ← bt_Set fanout leaf_fanout fuel (indexed_ q) (ql_db q) keys documents;
    '(history, d, _) ← bt_Set fanout leaf_fanout fuel (history_ q) d docs.*2 documents;
    let proof := (chunk_hash <$> documents)
      ++ [prev_hash; ComputeFrom (stmt_bytes now g1); ComputeFrom (addr_bytes name now g2)] in
    '(d, block_hash) ← calculateBlockHash d proof name seqno;
    d ← calculateDigest d block_hash prev_hash name seqno;
    let block := encode_block (mkAddr name seqno) (mkStatement 0 now) now block_hash prev_hash documents in
    let d := put_chunk d (block_key name seqno) block in
    let d := ss_put d name (to_string seqno ++ #"|" ++ ToBase32_value block_hash) in
    Done (mkQLDB d indexed history, true)
end.

(** [Delete] does nothing. *)
Definition ql_Delete q (name : bytes) (keys : list bytes) : bool := true.

(** ** Proofs *)

(** The loop of [getProof] over the levels of one tree. *)
Fixpoint ql_proof_loop (n : nat) d (key : N → N → bytes) (level curr_seq last : N)
  : outcome (list bytes * list N) :=
if last =? 0 then Done ([], [])
else
  match n with
  | O => Stop OutOfFuel
  | S n =>
      let level := level + 1 in
      let pr_seq := curr_seq / 2 in
      let pr_seq_idx := 1 - curr_seq mod 2 in
      hash ← (if (curr_seq =? last) && (last mod 2 =? 0) then Done (ToBase32 None)
              else
                let node := drop (kByteLength * N.to_nat pr_seq_idx) (ss_get d (key level pr_seq)) in
                if (length node <? kByteLength)%nat then Stop Undefined
                else Done (ToBase32 (Some (take kByteLength node))));
      '(hs, ps) ← ql_proof_loop n d key level pr_seq (last / 2);
      Done (hash :: hs, pr_seq_idx :: ps)
  end.

(** [getProof] *)
Definition ql_getProof q (name : bytes) (tip block_addr doc_seq : N) : outcome QLProofResult :=
if tip <? block_addr then Done no_proof
else
  match get_chunk (ql_db q) (block_key name block_addr) with
  | None => Stop Undefined
  | Some block =>
      qb ← parse_qlblock block;
      let doc_size := getDocumentSize qb + 2 in
      if doc_size <? doc_seq then Done no_proof
      else
        chunk ← getDocumentBySeq qb doc_seq;
        doc ← parse_document chunk;
        '(hs1, ps1) ← ql_proof_loop 64 (ql_db q) (doc_node_key name block_addr) 0 doc_seq doc_size;
        '(hs2, ps2) ← ql_proof_loop 64 (ql_db q) (chain_node_key name) 0 block_addr tip;
        Done (mkQLProof (getData doc) (getAddr doc) (getMetaData doc) (hs1 ++ hs2) (ps1 ++ ps2))
  end.

(** The loop of [QLProofResult::Verify]. *)
Fixpoint ql_verify_loop (doc_hash : bytes) (proof : list bytes) (pos : list N) : outcome bytes :=
match proof with
| [] => Done doc_hash
| [] :: proof => ql_verify_loop (hash_single doc_hash) proof (tail pos)
| s :: proof =>
    match pos with
    | [] => Stop Undefined
    | p :: pos =>
        let h := FromBase32 junk s in
        ql_verify_loop (if p =? 0 then hash_pair h doc_hash else hash_pair doc_hash h) proof pos
    end
end.
(** [QLProofResult::Verify] *)
Definition ql_Verify (p : QLProofResult) (digest : hash) : outcome bool :=
let doc := encode_document (data_key (qp_data p)) (data_val (qp_data p)) (qp_addr p) (qp_meta p) in
doc_hash ← ql_verify_loop (chunk_hash doc) (qp_proof p) (qp_pos p);
Done (hash_eqb (Some doc_hash) digest).
End QLDB.
