(* ===== verification/QLMerkle.v ===== *)
(** * The digest trees of QLDB are reference trees

    QLDB stores the preimage of every inner node.  The tree under a block is
    written at once; the tree over the blocks is brought up to date along its
    right edge.  Both end up with the nodes of the reference tree of [MerkleSpec]
    and a proof is the path of siblings. *)

From S2P Require Import Prelude Cpp Hash Chunk DB LedgerTypes BTreeNode BTree QLNode QLDB MerkleSpec MerkleTree SqlMerkle.

Local Open Scope nat_scope.

(** ** Preimages *)

Fixpoint preimages (hs : list bytes) : list bytes :=
  match hs with
  | [] => []
  | a :: b :: rest => (take kByteLength a ++ take kByteLength b) :: preimages rest
  | [a] => [take kByteLength a]
  end.

Section Preimages.
Context `{Blake2b}.

Lemma parents_preimages hs : parents hs = ComputeFrom <$> preimages hs.
Proof. induction hs as [|a|a b r IH] using parents_ind; [done|done|]. cbn. by rewrite IH. Qed.

Lemma lookup_preimages hs i :
  preimages hs !! i =
  match hs !! (2 * i) with
  | None => None
  | Some a => Some match hs !! S (2 * i) with
                   | Some b => take kByteLength a ++ take kByteLength b
                   | None => take kByteLength a
                   end
  end.
Proof.
  revert i. induction hs as [|a|a b r IH] using parents_ind; intros i; [done|..].
  - destruct i as [|i]; [done|]. cbn [preimages]. replace (2 * S i) with (S (S (2 * i))) by lia. done.
  - destruct i as [|i]; [done|]. cbn [preimages]. replace (2 * S i) with (S (S (2 * i))) by lia.
    cbn [lookup list_lookup]. apply IH.
Qed.

Lemma length_preimages hs : length (preimages hs) = length (parents hs).
Proof. by rewrite parents_preimages, length_fmap. Qed.

(** The preimage under a node. *)
Lemma level_preimage L l i h : level L (S l) !! i = Some h →
  ∃ node, preimages (level L l) !! i = Some node ∧ h = ComputeFrom node.
Proof.
  cbn [level]. rewrite parents_preimages. intros (node & -> & Hn)%list_lookup_fmap_Some. eauto.
Qed.
End Preimages.

(** ** A tree in the store *)

Section Nodes.
Context `{Blake2b, StringStoreLaws D} (junk : nat → ascii).
Context (key : N → N → bytes).
Hypothesis key_inj : ∀ l i l' i', key l i = key l' i' → l = l' ∧ i = i'.
Implicit Types (d : D) (L : list bytes).

Definition nkey (l i : nat) : bytes := key (N.of_nat l) (N.of_nat i).

Lemma nkey_inj l i l' i' : nkey l i = nkey l' i' → l = l' ∧ i = i'.
Proof. unfold nkey. intros [??]%key_inj. lia. Qed.

Definition nodes_stored d L : Prop := ∀ l i node,
  l < height (length L) → preimages (level L l) !! i = Some node → ss_get d (nkey (S l) i) = node.

(** What is no node of the tree stays. *)
Definition others_stay d d' : Prop := ∀ k, (∀ l i, k ≠ nkey l i) → ss_get d' k = ss_get d k.

Lemma others_stay_refl d : others_stay d d.
Proof. done. Qed.
Lemma others_stay_trans d1 d2 d3 : others_stay d1 d2 → others_stay d2 d3 → others_stay d1 d3.
Proof. intros H12 H23 k Hk. by rewrite H23, H12. Qed.
Lemma others_stay_put d l i v : others_stay d (ss_put d (nkey l i) v).
Proof. intros k Hk. apply ss_get_put_ne. intros E. by apply (Hk l i). Qed.

(** *** One level *)

Lemma put_nodes_spec d l i hs :
  ∃ d', put_nodes d (key (N.of_nat l)) (N.of_nat i) hs = (d', parents hs) ∧
    (∀ j node, preimages hs !! j = Some node → ss_get d' (nkey l (i + j)) = node) ∧
    ∀ k, (∀ j, i <= j → k ≠ nkey l j) → ss_get d' k = ss_get d k.
Proof.
  revert d i. induction hs as [|a|a b r IH] using parents_ind; intros d i.
  - exists d. split; [done|]. by split.
  - exists (ss_put d (nkey l i) (take kByteLength a)). split; [done|]. split.
    + intros [|j] node; [|done]. intros [= <-]. rewrite Nat.add_0_r. apply ss_get_put.
    + intros k Hk. apply ss_get_put_ne. intros E. by apply (Hk i).
  - cbn [put_nodes parents preimages]. set (node := take kByteLength a ++ take kByteLength b).
    destruct (IH (ss_put d (nkey l i) node) (S i)) as (d' & Hp & Hg & Hf).
    change (key (N.of_nat l) (N.of_nat i)) with (nkey l i).
    replace (N.of_nat i + 1)%N with (N.of_nat (S i)) by lia. rewrite Hp.
    exists d'. split; [done|]. split.
    + intros [|j] nd; cbn [lookup list_lookup].
      * intros [= <-]. rewrite Nat.add_0_r, Hf by (intros j Hj [_ ?]%nkey_inj; lia). apply ss_get_put.
      * intros Hj. rewrite Nat.add_succ_r. by apply Hg.
    + intros k Hk. rewrite Hf by (intros j Hj; apply Hk; lia). apply ss_get_put_ne. intros E. by apply (Hk i).
Qed.

(** The levels end at the height. *)
Lemma level_one L l : L ≠ [] → (length (level L l) = 1 ↔ height (length L) <= l).
Proof.
  intros HL. assert (0 < length L) by (destruct L; [done|simpl; lia]).
  rewrite length_level by done. rewrite height_spec by done. pose proof (pow2_pos l).
  pose proof (Nat.div_small_iff (length L - 1) (2 ^ l)). lia.
Qed.

Lemma level_nonnil L l : L ≠ [] → level L l ≠ [].
Proof. intros HL E. pose proof (length_level L l HL) as Hl. rewrite E in Hl. done. Qed.

(** ** Proofs *)

Lemma lookup_next L l i : L ≠ [] → i < length (level L l) → i / 2 < length (level L (S l)).
Proof.
  intros HL Hi. cbn [level]. rewrite length_parents.
  pose proof (Nat.div_mod_eq i 2). pose proof (Nat.mod_upper_bound i 2 ltac:(lia)).
  apply Nat.div_le_lower_bound; lia.
Qed.

(** What one step of [getProof] reads. *)
Lemma proof_step d L l i : nodes_stored d L → Forall (λ h, length h = kByteLength) L → L ≠ [] →
  l < height (length L) → i < length (level L l) →
  (if (N.of_nat i =? N.of_nat (length (level L l) - 1))%N && (N.of_nat (length (level L l) - 1) mod 2 =? 0)%N
   then Done (ToBase32 None)
   else
     let node := drop (kByteLength * N.to_nat (1 - N.of_nat i mod 2)) (ss_get d (key (N.of_nat (S l)) (N.of_nat (i / 2)))) in
     if length node <? kByteLength then Stop Undefined else Done (ToBase32 (Some (take kByteLength node))))
  = Done (render (if Nat.even i
     then match level L l !! S i with Some h => SiblingRight h | None => NoSibling end
     else match level L l !! (i - 1) with Some h => SiblingLeft h | None => NoSibling end)).1 ∧
  (1 - N.of_nat i mod 2)%N = (render (if Nat.even i
     then match level L l !! S i with Some h => SiblingRight h | None => NoSibling end
     else match level L l !! (i - 1) with Some h => SiblingLeft h | None => NoSibling end)).2.
Proof.
  intros Hst HF HL Hl Hi. pose proof (level_Forall_length L l HF) as HFl. rewrite Forall_lookup in HFl.
  destruct (lookup_lt_is_Some_2 (preimages (level L l)) (i / 2)) as [node Hnode].
  { rewrite length_preimages. by apply (lookup_next L l i). }
  fold (nkey (S l) (i / 2)). rewrite (Hst l (i / 2) node Hl Hnode). rewrite lookup_preimages in Hnode.
  rewrite even_of_nat_mod. pose proof (even_of_nat_mod i) as Hev.
  assert ((N.of_nat i mod 2 < 2)%N) as Hlt by (by apply N.mod_lt).
  destruct (Nat.even i) eqn:He.
  - apply N.eqb_eq in Hev. rewrite Hev. apply Nat.even_spec in He as [m ->].
    replace (2 * m / 2) with m in Hnode by (rewrite Nat.mul_comm, Nat.div_mul; done).
    destruct (level L l !! (2 * m)) as [a|] eqn:Ea; [|apply lookup_ge_None in Ea; lia].
    destruct (level L l !! S (2 * m)) as [b|] eqn:Eb.
    + pose proof (lookup_lt_Some _ _ _ Eb).
      rewrite (proj2 (N.eqb_neq (N.of_nat (2 * m)) (N.of_nat (length (level L l) - 1)))) by lia.
      injection Hnode as <-. cbn [andb]. change (N.to_nat (1 - 0)) with 1.
      assert (length a = kByteLength) as La by eauto. assert (length b = kByteLength) as Lb by eauto.
      rewrite !take_ge by lia. rewrite Nat.mul_1_r, <-La, drop_app_length, La, Lb, Nat.ltb_irrefl.
      cbn [render fst snd ToBase32]. by rewrite take_ge by lia.
    + apply lookup_ge_None in Eb. replace (length (level L l) - 1) with (2 * m) by lia.
      rewrite N.eqb_refl. assert (Nat.even (2 * m) = true) as -> by (apply Nat.even_spec; by exists m). done.
  - assert ((N.of_nat i mod 2)%N = 1%N) as Hmod.
    { apply N.eqb_neq in Hev. revert Hev Hlt. generalize (N.of_nat i mod 2)%N. lia. }
    rewrite Hmod. assert (Nat.odd i = true) as Ho by (by rewrite <-Nat.negb_even, He).
    apply Nat.odd_spec in Ho as [m ->].
    replace ((2 * m + 1) / 2) with m in Hnode by (rewrite Nat.add_comm, Nat.mul_comm, Nat.div_add by done; done).
    replace (2 * m + 1 - 1) with (2 * m) by lia.
    destruct (lookup_lt_is_Some_2 (level L l) (2 * m)) as [a Ha]; [lia|].
    destruct (lookup_lt_is_Some_2 (level L l) (S (2 * m))) as [b Hb]; [lia|].
    rewrite Ha, Hb in Hnode. rewrite Ha. injection Hnode as <-.
    assert (length a = kByteLength) as La by eauto. assert (length b = kByteLength) as Lb by eauto.
    assert ((N.of_nat (2 * m + 1) =? N.of_nat (length (level L l) - 1))%N &&
      Nat.even (length (level L l) - 1) = false) as ->.
    { destruct (N.eqb_spec (N.of_nat (2 * m + 1)) (N.of_nat (length (level L l) - 1))) as [E|]; [|done].
      apply Nat2N.inj in E. rewrite <-E. cbn [andb]. exact He. }
    cbv zeta. change (N.to_nat (1 - 1)) with 0. rewrite Nat.mul_0_r, drop_0, !take_ge by lia.
    rewrite length_app, La, Lb. change (kByteLength + kByteLength <? kByteLength) with false.
    cbn [render fst snd ToBase32]. split; [|done]. do 2 f_equal.
    rewrite <-La. by rewrite take_app_length.
Qed.

Lemma ql_proof_loop_spec d L n l i : nodes_stored d L → Forall (λ h, length h = kByteLength) L → L ≠ [] →
  height (length L) <= l + n → i < length (level L l) →
  ql_proof_loop n d key (N.of_nat l) (N.of_nat i) (N.of_nat (length (level L l) - 1))
  = Done ((render <$> siblings L l i (height (length L) - l)).*1, (render <$> siblings L l i (height (length L) - l)).*2).
Proof.
  intros Hst HF HL. revert l i. induction n as [|n IH]; intros l i Hn Hi.
  - assert (length (level L l) = 1) as E by (apply level_one; [done|lia]). cbn [ql_proof_loop]. rewrite E.
    by replace (height (length L) - l) with 0 by lia.
  - cbn [ql_proof_loop]. destruct (decide (height (length L) <= l)) as [Hle|Hgt].
    { assert (length (level L l) = 1) as E by (by apply level_one). rewrite E.
      by replace (height (length L) - l) with 0 by lia. }
    assert (length (level L l) ≠ 1) as E by (rewrite level_one by done; lia).
    pose proof (level_nonnil L l HL) as Hnn. assert (length (level L l) ≠ 0) by (by destruct (level L l)).
    rewrite (proj2 (N.eqb_neq (N.of_nat (length (level L l) - 1)) 0)) by lia.
    replace (N.of_nat l + 1)%N with (N.of_nat (S l)) by lia. rewrite !of_nat_half.
    destruct (proof_step d L l i Hst HF HL ltac:(lia) Hi) as [Hhash Hpos].
    cbv zeta in Hhash |- *. rewrite Hhash, bind_Done, Hpos.
    assert ((length (level L l) - 1) / 2 = length (level L (S l)) - 1) as ->.
    { cbn [level]. rewrite length_parents. destruct (length (level L l)) as [|len]; [done|].
      replace (S (S len)) with (len + 1 * 2) by lia. rewrite Nat.div_add by done.
      replace (S len - 1) with len by lia. lia. }
    rewrite IH, bind_Done; [|lia|by apply lookup_next].
    replace (height (length L) - l) with (S (height (length L) - S l)) by lia. done.
Qed.
End Nodes.

(** ** Verification *)

Lemma ql_verify_loop_climb `{Blake2b} junk c sides : Forall side_ok sides →
  ql_verify_loop junk c (render <$> sides).*1 (render <$> sides).*2 = Done (climb c sides).
Proof.
  intros HF. revert c. induction HF as [|s sides Hs _ IH]; intros c; [done|].
  assert (∀ h, length h = kByteLength → ToBase32_value h ≠ []) as Hne.
  { intros h Hh E. pose proof (length_ToBase32_value h Hh) as Hl. by rewrite E in Hl. }
  destruct s as [h|h|]; cbn [fmap list_fmap render fst snd].
  - assert (length h = kByteLength) as Hh by (apply Hs; by left).
    cbn [ql_verify_loop]. destruct (ToBase32_value h) eqn:E; [by destruct (Hne h Hh)|].
    rewrite <-E, FromBase32_ToBase32 by done. apply IH.
  - assert (length h = kByteLength) as Hh by (apply Hs; by right).
    cbn [ql_verify_loop]. destruct (ToBase32_value h) eqn:E; [by destruct (Hne h Hh)|].
    rewrite <-E, FromBase32_ToBase32 by done. apply IH.
  - apply IH.
Qed.

(** ** The tree under a block *)

Section BlockTree.
Context `{Blake2b, StringStoreLaws D} (name : bytes) (seqno : N).
Implicit Types (d : D) (L : list bytes).

Lemma doc_node_key_inj l i l' i' :
  doc_node_key name seqno l i = doc_node_key name seqno l' i' → l = l' ∧ i = i'.
Proof.
  unfold doc_node_key. intros E. do 5 apply (inj (app _)) in E.
  apply app_sep_inj in E as [El Ei]; [|by apply to_string_no..].
  split; by apply to_string_inj.
Qed.

Abbreviation bkey := (nkey (doc_node_key name seqno)).

Lemma block_hash_loop_spec d L n l : L ≠ [] → height (length L) <= l + n → l <= height (length L) →
  (∀ l' i node, l' < l → preimages (level L l') !! i = Some node → ss_get d (bkey (S l') i) = node) →
  ∃ d' root, block_hash_loop n d name seqno (N.of_nat l) (level L l) = Done (d', root) ∧
    level L (height (length L)) = [root] ∧ nodes_stored (doc_node_key name seqno) d' L ∧
    others_stay (doc_node_key name seqno) d d'.
Proof.
  intros HL. revert d l. induction n as [|n IH]; intros d l Hn Hl Hst.
  - assert (l = height (length L)) as -> by lia. destruct (level_root L HL) as [root Hroot]. rewrite Hroot.
    exists d, root. split; [done|]. split; [done|]. split; [|apply others_stay_refl]. intros l i node. apply Hst.
  - destruct (decide (l = height (length L))) as [->|Hne].
    { destruct (level_root L HL) as [root Hroot]. rewrite Hroot. exists d, root. split; [done|]. split; [done|].
      split; [|apply others_stay_refl]. intros l i node. apply Hst. }
    assert (length (level L l) ≠ 1) as Hlen by (rewrite level_one by done; lia).
    pose proof (level_nonnil L l HL) as Hnn.
    destruct (put_nodes_spec (doc_node_key name seqno) doc_node_key_inj d (S l) 0 (level L l)) as (d1 & Hp & Hg & Hf).
    change (parents (level L l)) with (level L (S l)) in Hp.
    destruct (IH d1 (S l)) as (d' & root & Hr & Hroot & Hst' & Ho); [lia|lia| |].
    { intros l' i node Hl' Hnode. destruct (decide (l' = l)) as [->|]; [by apply (Hg i)|].
      rewrite Hf; [by apply Hst; [lia|]|]. intros j _ [? _]%(nkey_inj _ doc_node_key_inj). lia. }
    exists d', root. split; [|split; [done|split; [done|]]].
    + rewrite <-Hr. cbn [block_hash_loop]. replace (N.of_nat l + 1)%N with (N.of_nat (S l)) by lia.
      change (N.of_nat 0) with 0%N in Hp. destruct (level L l) as [|a [|b r]]; [done|done|]. by rewrite Hp.
    + eapply others_stay_trans; [|exact Ho]. intros k Hk. apply Hf. auto.
Qed.

Lemma calculateBlockHash_spec d L : L ≠ [] →
  ∃ d' root, calculateBlockHash d L name seqno = Done (d', root) ∧
    level L (height (length L)) = [root] ∧ nodes_stored (doc_node_key name seqno) d' L ∧
    others_stay (doc_node_key name seqno) d d'.
Proof.
  intros HL. unfold calculateBlockHash. apply (block_hash_loop_spec d L (length L) 0); [done| |lia|].
  - cbn. unfold height. apply Nat.log2_up_le_lin. lia.
  - intros l' i node Hl'. lia.
Qed.
End BlockTree.

(** ** The tree over the blocks *)

Section ChainTree.
Context `{Blake2b, StringStoreLaws D} (name : bytes).
Implicit Types (d : D) (L : list bytes).

Lemma chain_node_key_inj l i l' i' : chain_node_key name l i = chain_node_key name l' i' → l = l' ∧ i = i'.
Proof.
  unfold chain_node_key. intros E. do 3 apply (inj (app _)) in E.
  apply app_sep_inj in E as [El Ei]; [|by apply to_string_no..].
  split; by apply to_string_inj.
Qed.

Abbreviation ckey := (nkey (chain_node_key name)).
Abbreviation chain_stored := (nodes_stored (chain_node_key name)).

Definition last_of L (l : nat) : nat := length (level L l) - 1.

Lemma last_of_div L l : L ≠ [] → last_of L l = (length L - 1) / 2 ^ l.
Proof. intros HL. unfold last_of. rewrite length_level by done. lia. Qed.

Lemma last_of_next L l : L ≠ [] → last_of L l / 2 = last_of L (S l).
Proof.
  intros HL. rewrite !last_of_div by done. rewrite Nat.Div0.div_div, (Nat.mul_comm (2 ^ l)). by rewrite <-Nat.pow_succ_r'.
Qed.

(** What is stored before the nodes of level [l] are written. *)
Definition stored_upto d L (l : nat) : Prop := ∀ l' i node,
  l' < height (length L) → preimages (level L l') !! i = Some node → l' < l ∨ i < last_of L (S l') →
  ss_get d (ckey (S l') i) = node.

(** Nodes over the old blocks do not change. *)
Lemma old_nodes d L0 h : L0 ≠ [] → chain_stored d L0 → stored_upto d (L0 ++ [h]) 0.
Proof.
  intros HL Hst l i node Hl Hnode [|Hi]; [lia|].
  assert (L0 ++ [h] ≠ []) as HL' by (by destruct L0).
  rewrite last_of_div, length_app in Hi by done. cbn [length] in Hi.
  replace (length L0 + 1 - 1) with (length L0) in Hi by lia. pose proof (pow2_pos (S l)).
  assert (S i * 2 ^ S l <= length L0) as Hfull.
  { pose proof (Nat.div_mod_eq (length L0) (2 ^ S l)). nia. }
  apply Hst.
  - apply Nat.nle_gt. rewrite height_spec by (destruct L0; [done|cbn; lia]).
    rewrite Nat.pow_succ_r' in Hfull. pose proof (pow2_pos l). nia.
  - rewrite lookup_preimages in Hnode |- *. rewrite Nat.pow_succ_r' in Hfull.
    rewrite !level_app in Hnode by nia. done.
Qed.

(** The left neighbour of the last node, as [calculateDigest] finds it. *)
Lemma left_neighbour d L0 h l p : L0 ≠ [] → last L0 = Some p → stored_upto d (L0 ++ [h]) l →
  Forall (λ x, length x = kByteLength) (L0 ++ [h]) → l < height (length (L0 ++ [h])) →
  Nat.even (last_of (L0 ++ [h]) l) = false →
  ∃ a, level (L0 ++ [h]) l !! (last_of (L0 ++ [h]) l - 1) = Some a ∧
    (if (N.of_nat (S l) =? 1)%N then Done p
     else
       let prev_node := ss_get d (chain_node_key name (N.of_nat (S l) - 1) (N.of_nat (last_of (L0 ++ [h]) l) - 1)) in
       if length prev_node <? kByteLength * 2 then Stop Undefined
       else Done (ComputeFrom (take (kByteLength * 2) prev_node))) = Done a.
Proof.
  intros HL Hp Hst HF Hl Hodd. set (L := L0 ++ [h]) in *. assert (L ≠ []) as HLn by (by destruct L0).
  assert (last_of L l ≠ 0) as Hpos by (by intros E; rewrite E in Hodd).
  destruct l as [|l].
  - cbn [level] in *. unfold last_of in *. cbn [level] in *. unfold L in *. rewrite length_app in *. cbn [length] in *.
    exists p. split; [|done]. rewrite lookup_app_l by lia. rewrite last_lookup in Hp.
    by replace (length L0 + 1 - 1 - 1) with (pred (length L0)) by lia.
  - rewrite (proj2 (N.eqb_neq (N.of_nat (S (S l))) 1)) by lia. set (j := last_of L (S l)) in *.
    destruct (lookup_lt_is_Some_2 (level L (S l)) (j - 1)) as [a Ha]; [unfold j, last_of in *; lia|].
    exists a. split; [done|]. destruct (level_preimage L l (j - 1) a Ha) as (node & Hnode & ->).
    replace (N.of_nat (S (S l)) - 1)%N with (N.of_nat (S l)) by lia.
    replace (N.of_nat j - 1)%N with (N.of_nat (j - 1)) by lia.
    fold (nkey (chain_node_key name) (S l) (j - 1)). rewrite (Hst l (j - 1) node) by (done || lia). cbv zeta.
    assert (length node = kByteLength * 2) as Hlen.
    { rewrite lookup_preimages in Hnode.
      pose proof (level_Forall_length L l HF) as HFl. rewrite Forall_lookup in HFl.
      assert (S (2 * (j - 1)) < length (level L l)) as Hin.
      { assert (j = last_of L l / 2) as Ej by (unfold j; by rewrite last_of_next). unfold last_of in Ej.
        pose proof (Nat.div_mod_eq (length (level L l) - 1) 2). lia. }
      destruct (lookup_lt_is_Some_2 (level L l) (S (2 * (j - 1))) Hin) as [y Hy].
      destruct (lookup_lt_is_Some_2 (level L l) (2 * (j - 1))) as [x Hx]; [lia|].
      rewrite Hx, Hy in Hnode. injection Hnode as <-.
      rewrite length_app, !length_take, (HFl _ _ Hx), (HFl _ _ Hy). done. }
    rewrite Hlen, Nat.ltb_irrefl, take_ge by lia. done.
Qed.

Lemma digest_loop_spec d L0 h p n l curr : L0 ≠ [] → last L0 = Some p →
  Forall (λ x, length x = kByteLength) (L0 ++ [h]) →
  let L := L0 ++ [h] in
  height (length L) <= l + n → l <= height (length L) → stored_upto d L l →
  level L l !! last_of L l = Some curr →
  ∃ d' root, digest_loop n d name (N.of_nat l) (N.of_nat (last_of L l)) curr p = Done (d', root) ∧
    level L (height (length L)) = [root] ∧ chain_stored d' L ∧ others_stay (chain_node_key name) d d'.
Proof.
  intros HL Hp HF L. assert (L ≠ []) as HLn by (by destruct L0).
  revert d l curr. induction n as [|n IH]; intros d l curr Hn Hl Hst Hcurr;
    (destruct (decide (l = height (length L))) as [->|Hne];
      [destruct (level_root L HLn) as [root Hroot];
       assert (last_of L (height (length L)) = 0) as E by (unfold last_of; by rewrite Hroot);
       rewrite E, Hroot in Hcurr; injection Hcurr as ->; exists d, curr; rewrite E;
       split; [done|]; split; [done|]; split; [|apply others_stay_refl];
       intros l i node Hli Hnode; apply Hst; [done|done|by left]|]).
  { lia. }
  assert (last_of L l ≠ 0) as Hpos.
  { unfold last_of. pose proof (level_nonnil L l HLn). pose proof (level_one L l HLn).
    destruct (level L l) as [|? [|]]; [done| |cbn; lia]. cbn in *. lia. }
  cbn [digest_loop]. rewrite (proj2 (N.eqb_neq (N.of_nat (last_of L l)) 0)) by lia.
  replace (N.of_nat l + 1)%N with (N.of_nat (S l)) by lia. rewrite of_nat_half, even_of_nat_mod, last_of_next by done.
  assert (∃ node, preimages (level L l) !! last_of L (S l) = Some node ∧
    (if Nat.even (last_of L l) then Done (take kByteLength curr)
     else prev_hash ← (if (N.of_nat (S l) =? 1)%N then Done p
       else
         let prev_node := ss_get d (chain_node_key name (N.of_nat (S l) - 1) (N.of_nat (last_of L l) - 1)) in
         if length prev_node <? kByteLength * 2 then Stop Undefined
         else Done (ComputeFrom (take (kByteLength * 2) prev_node)));
       Done (take kByteLength prev_hash ++ take kByteLength curr)) = Done node) as (node & Hnode & Hrun).
  { rewrite lookup_preimages, <-last_of_next by done. destruct (Nat.even (last_of L l)) eqn:Hev.
    - apply Nat.even_spec in Hev as [m Em]. rewrite Em.
      replace (2 * m / 2) with m by (rewrite Nat.mul_comm, Nat.div_mul; done). rewrite <-Em, Hcurr.
      rewrite lookup_ge_None_2 by (unfold last_of; lia). by eexists.
    - destruct (left_neighbour d L0 h l p HL Hp Hst HF ltac:(unfold L in *; lia) Hev) as (a & Ha & Hprev).
      fold L in Ha, Hprev. rewrite Hprev, bind_Done.
      assert (Nat.odd (last_of L l) = true) as Ho by (by rewrite <-Nat.negb_even, Hev).
      apply Nat.odd_spec in Ho as [m Em]. rewrite Em in Ha |- *.
      replace ((2 * m + 1) / 2) with m by (rewrite Nat.add_comm, Nat.mul_comm, Nat.div_add by done; done).
      replace (2 * m + 1 - 1) with (2 * m) in Ha by lia. rewrite Ha.
      replace (S (2 * m)) with (last_of L l) by lia. rewrite Hcurr. by eexists. }
  cbv zeta in Hrun |- *. rewrite Hrun, bind_Done.
  destruct (IH (ss_put d (ckey (S l) (last_of L (S l))) node) (S l) (ComputeFrom node))
    as (d' & root & Hd & Hroot & Hst' & Ho); [lia|lia| | |].
  - intros l' i nd Hl' Hnd Hor. destruct (decide (l' = l ∧ i = last_of L (S l))) as [[-> ->]|Hne'].
    { rewrite ss_get_put. congruence. }
    rewrite ss_get_put_ne by (intros [? ?]%(nkey_inj _ chain_node_key_inj); apply Hne'; lia).
    apply Hst; [done|done|]. destruct Hor as [Hlt|]; [|by right]. destruct (decide (l' = l)) as [->|]; [right|left; lia].
    apply lookup_lt_Some in Hnd. rewrite length_preimages in Hnd.
    change (length (parents (level L l))) with (length (level L (S l))) in Hnd. unfold last_of in *. lia.
  - cbn [level]. rewrite parents_preimages, list_lookup_fmap, Hnode. done.
  - exists d', root. split; [exact Hd|]. split; [done|]. split; [done|].
    eapply others_stay_trans; [apply others_stay_put|exact Ho].
Qed.

(** The root of a tree. *)
Definition root_of L : bytes := default [] (level L (height (length L)) !! 0).

Lemma root_of_level L root : level L (height (length L)) = [root] → root_of L = root.
Proof. unfold root_of. by intros ->. Qed.

Lemma length_root_of L : L ≠ [] → Forall (λ x, length x = kByteLength) L → length (root_of L) = kByteLength.
Proof.
  intros HL HF. destruct (level_root L HL) as [root Hroot]. rewrite (root_of_level L root Hroot).
  by apply (level_root_length L).
Qed.

Lemma digest_key_not_node l i : digest_key name ≠ ckey l i.
Proof. done. Qed.

Lemma calculateDigest_spec d L0 h p : (∀ x, last L0 = Some x → p = x) →
  Forall (λ x, length x = kByteLength) (L0 ++ [h]) → (N.of_nat (S (length L0)) < 2 ^ 64)%N →
  chain_stored d L0 →
  ∃ d', calculateDigest d h p name (N.of_nat (length L0)) = Done d' ∧
    ss_get d' (digest_key name) = ToBase32_value (root_of (L0 ++ [h])) ∧ chain_stored d' (L0 ++ [h]) ∧
    ∀ k, (∀ l i, k ≠ ckey l i) → k ≠ digest_key name → ss_get d' k = ss_get d k.
Proof.
  intros Hp HF Hlen Hst. set (L := L0 ++ [h]).
  assert (∃ d1 root, digest_loop 64 d name 0 (N.of_nat (length L0)) h p = Done (d1, root) ∧
    level L (height (length L)) = [root] ∧ chain_stored d1 L ∧ others_stay (chain_node_key name) d d1)
    as (d1 & root & Hd & Hroot & Hst1 & Ho).
  { destruct (last L0) as [x|] eqn:El.
    - assert (L0 ≠ []) as HL by (by destruct L0). rewrite (Hp x eq_refl).
      assert (length L = S (length L0)) as HlL by (unfold L; rewrite length_app; cbn; lia).
      destruct (digest_loop_spec d L0 h x 64 0 h HL El HF) as (d1 & root & Hd & Hres).
      + rewrite Nat.add_0_l. apply height_64; fold L; [lia|]. by rewrite HlL.
      + lia.
      + by apply old_nodes.
      + unfold last_of. cbn [level]. fold L. rewrite HlL. unfold L. rewrite lookup_app_r by lia.
        by replace (S (length L0) - 1 - length L0) with 0 by lia.
      + exists d1, root. split; [|exact Hres]. unfold last_of in Hd. cbn [level] in Hd. fold L in Hd.
        replace (length L - 1) with (length L0) in Hd by lia. exact Hd.
    - apply last_None in El. unfold L. rewrite El. exists d, h. split; [done|]. split; [done|].
      split; [|apply others_stay_refl]. intros l i node Hl. cbn in Hl. lia. }
  exists (ss_put d1 (digest_key name) (ToBase32_value root)). split; [|split; [|split]].
  - unfold calculateDigest. by rewrite Hd, bind_Done.
  - rewrite ss_get_put. by rewrite (root_of_level L root).
  - intros l i node Hl Hnode. rewrite ss_get_put_ne by apply digest_key_not_node. by apply Hst1.
  - intros k Hk Hkd. rewrite ss_get_put_ne by done. by apply Ho.
Qed.
End ChainTree.
