(* ===== verification/QLDBSpec.v ===== *)
(** * The QLDB ledger keeps every version and proves it

    The ledger is a list of blocks and, for each key, the list of its versions.
    A batch adds a block whose documents become the new versions.  The history
    of a key is that list from its end, and each document of a history has a proof
    that the digest of the ledger accepts. *)

From S2P Require Import Prelude Cpp Hash Chunk DB LedgerTypes BTreeNode BTree BTreeSpec BTreeReads BTreeMap QLNode QLDB.
From S2P Require Import MerkleSpec MerkleTree SqlMerkle QLMerkle.

Open Scope N_scope.

(** ** Documents and their versions *)

Definition doc_text (doc : Document) : bytes :=
  encode_document (data_key (getData doc)) (data_val (getData doc)) (getAddr doc) (getMetaData doc).
Definition doc_ok (doc : Document) : Prop :=
  document_ok (data_key (getData doc)) (data_val (getData doc)) (getAddr doc) (getMetaData doc).
Definition doc_key (doc : Document) : bytes := data_key (getData doc).
Definition doc_version (doc : Document) : N := md_version (getMetaData doc).

Lemma parse_doc_text doc rest : doc_ok doc → parse_document (doc_text doc ++ rest) = Done doc.
Proof. intros Hok. unfold doc_text. rewrite parse_encode_document by done. by destruct doc as [? [] ?]. Qed.
Lemma parse_doc doc : doc_ok doc → parse_document (doc_text doc) = Done doc.
Proof. intros Hok. rewrite <-(app_nil_r (doc_text doc)). by apply parse_doc_text. Qed.

(** The versions of each key, the oldest first. *)
Abbreviation versions := (gmap bytes (list Document)).
Definition versions_of (S : versions) (k : bytes) : list Document := default [] (S !! k).

Definition record_doc (S : versions) (doc : Document) : versions :=
  <[doc_key doc := take (N.to_nat (doc_version doc)) (versions_of S (doc_key doc)) ++ [doc]]> S.
Definition record_docs (S : versions) (docs : list Document) : versions := foldl record_doc S docs.

(** The documents that a batch makes. *)
Definition new_doc (S : versions) (name : bytes) (seqno now : N) (i : nat) (kv : bytes * bytes) : Document :=
  mkDocument (mkAddr name seqno) (mkData kv.1 kv.2)
    (mkMetaData (N.of_nat i) (N.of_nat (length (versions_of S kv.1))) now).
Definition new_docs S name seqno now kvs : list Document := imap (new_doc S name seqno now) kvs.

Lemma elem_of_new_docs S name seqno now kvs doc : doc ∈ new_docs S name seqno now kvs →
  ∃ i kv, kvs !! i = Some kv ∧ doc = new_doc S name seqno now i kv.
Proof. unfold new_docs. rewrite elem_of_lookup_imap. naive_solver. Qed.

Record versions_ok (S : versions) : Prop := {
  vk_nonnil : ∀ k l, S !! k = Some l → l ≠ [];
  vk_doc : ∀ k l v doc, S !! k = Some l → l !! v = Some doc →
    doc_ok doc ∧ doc_version doc = N.of_nat v ∧ doc_key doc = k;
}.

(** What the two trees hold. *)
Definition latest_of (S : versions) : gmap bytes bytes := doc_text <$> omap last S.
Definition history_of (M : gmap bytes bytes) (S : versions) : Prop :=
  ∀ k l v doc, S !! k = Some l → l !! v = Some doc → M !! version_key k (N.of_nat v) = Some (doc_text doc).

Lemma version_key_inj k v k' v' : version_key k v = version_key k' v' → k = k' ∧ v = v'.
Proof.
  unfold version_key. intros E. apply (f_equal reverse) in E.
  rewrite !reverse_app in E. change (reverse #"|") with #"|" in E. rewrite <-!app_assoc in E.
  assert (∀ n, ("|"%char) ∉ reverse (to_string n)) as Hn.
  { intros n. rewrite elem_of_reverse. by apply to_string_no. }
  apply (app_sep_inj "|"%char) in E as [Ev Ek]; [|done..].
  apply (inj reverse) in Ev, Ek. by apply to_string_inj in Ev.
Qed.

Lemma versions_of_record S doc k :
  versions_of (record_doc S doc) k
  = if decide (k = doc_key doc) then take (N.to_nat (doc_version doc)) (versions_of S k) ++ [doc] else versions_of S k.
Proof.
  unfold versions_of at 1. unfold record_doc. destruct (decide (k = doc_key doc)) as [->|Hne].
  - by rewrite lookup_insert_eq.
  - by rewrite lookup_insert_ne.
Qed.

Lemma latest_record S doc : latest_of (record_doc S doc) = <[doc_key doc := doc_text doc]> (latest_of S).
Proof.
  unfold latest_of, record_doc. erewrite omap_insert_Some; [by rewrite fmap_insert|]. by rewrite last_snoc.
Qed.

Lemma latest_records S docs :
  foldl (λ s doc, <[doc_key doc := doc_text doc]> s) (latest_of S) docs = latest_of (record_docs S docs).
Proof. revert S. induction docs as [|doc docs IH]; intros S; [done|]. cbn [foldl]. by rewrite <-latest_record, IH. Qed.

(** A document that is not past the end of its versions. *)
Definition fits_version (S : versions) (doc : Document) : Prop :=
  (N.to_nat (doc_version doc) <= length (versions_of S (doc_key doc)))%nat.

Lemma lookup_record S doc k l v d : fits_version S doc → record_doc S doc !! k = Some l → l !! v = Some d →
  d = doc ∧ k = doc_key doc ∧ v = N.to_nat (doc_version doc) ∨
  (k, v) ≠ (doc_key doc, N.to_nat (doc_version doc)) ∧ ∃ l0, S !! k = Some l0 ∧ l0 !! v = Some d.
Proof.
  unfold fits_version, record_doc. intros Hf [[<- <-]|[Hne Hk]]%lookup_insert_Some Hv; [|right; naive_solver].
  assert (length (take (N.to_nat (doc_version doc)) (versions_of S (doc_key doc))) = N.to_nat (doc_version doc)) as Hlen
    by (rewrite length_take; lia).
  apply lookup_app_Some in Hv as [Hv|[Hge Hv]].
  - right. apply lookup_take_Some in Hv as [Hv Hlt]. split; [intros [=]; lia|].
    unfold versions_of in Hv. destruct (S !! doc_key doc) as [l0|] eqn:E; [|done]. by exists l0.
  - left. rewrite Hlen in *. destruct (v - N.to_nat (doc_version doc))%nat eqn:E; [|done].
    injection Hv as <-. split; [done|]. split; [done|lia].
Qed.

Lemma record_ok S doc : versions_ok S → doc_ok doc → fits_version S doc → versions_ok (record_doc S doc).
Proof.
  intros [Hn Hd] Hok Hf. split.
  - unfold record_doc. intros k l [[_ <-]|[_ Hk]]%lookup_insert_Some; [|by apply (Hn k)].
    intros E. by apply app_eq_nil in E as [_ ?].
  - intros k l v d Hk Hv. destruct (lookup_record S doc k l v d Hf Hk Hv) as [(-> & -> & ->)|(_ & l0 & Hk0 & Hv0)].
    + split; [done|]. split; [lia|done].
    + by apply (Hd k l0).
Qed.

Lemma history_record M S doc : versions_ok S → fits_version S doc → history_of M S →
  history_of (<[version_key (doc_key doc) (doc_version doc) := doc_text doc]> M) (record_doc S doc).
Proof.
  intros Hok Hf HM k l v d Hk Hv.
  destruct (lookup_record S doc k l v d Hf Hk Hv) as [(-> & -> & ->)|(Hne & l0 & Hk0 & Hv0)].
  - rewrite N2Nat.id. apply lookup_insert_eq.
  - rewrite lookup_insert_ne; [by apply (HM k l0)|]. intros [<- E]%version_key_inj. apply Hne. f_equal. lia.
Qed.

(** The documents of one batch, recorded one after the other. *)
Lemma records_ok M S0 S docs : versions_ok S → history_of M S → Forall doc_ok docs →
  (∀ doc, doc ∈ docs → N.to_nat (doc_version doc) = length (versions_of S0 (doc_key doc))) →
  (∀ k, (length (versions_of S0 k) <= length (versions_of S k))%nat) →
  versions_ok (record_docs S docs) ∧
  history_of (foldl (λ s doc, <[version_key (doc_key doc) (doc_version doc) := doc_text doc]> s) M docs)
    (record_docs S docs) ∧
  ∀ k l v d, record_docs S docs !! k = Some l → l !! v = Some d →
    d ∈ docs ∨ ∃ l0, S !! k = Some l0 ∧ l0 !! v = Some d.
Proof.
  revert M S. induction docs as [|doc docs IH]; intros M S Hok HM Hdocs Hv Hle.
  { split; [done|]. split; [done|]. intros k l v d Hk Hd. right. by exists l. }
  apply Forall_cons in Hdocs as [Hd Hdocs].
  assert (fits_version S doc) as Hf by (unfold fits_version; rewrite Hv by (by left); apply Hle).
  destruct (IH (<[version_key (doc_key doc) (doc_version doc) := doc_text doc]> M) (record_doc S doc))
    as (Hok' & HM' & Hin); [by apply record_ok|by apply history_record|done|by intros d' Hd'; apply Hv; right| |].
  - intros k. rewrite versions_of_record. destruct (decide _) as [->|]; [|apply Hle].
    rewrite length_app, length_take, Hv by (by left). specialize (Hle (doc_key doc)). cbn. lia.
  - split; [done|]. split; [done|]. intros k l v d Hk Hl. destruct (Hin k l v d Hk Hl) as [?|(l0 & Hk0 & Hv0)].
    + left. by right.
    + destruct (lookup_record S doc k l0 v d Hf Hk0 Hv0) as [(-> & _)|(_ & ?)]; [left; by left|by right].
Qed.

Lemma count_records S docs c : (∀ k, (length (versions_of S k) <= Datatypes.S c)%nat) →
  (∀ doc, doc ∈ docs → (N.to_nat (doc_version doc) <= c)%nat) →
  ∀ k, (length (versions_of (record_docs S docs) k) <= Datatypes.S c)%nat.
Proof.
  revert S. induction docs as [|doc docs IH]; intros S Hc Hv; [done|]. apply IH; [|intros d Hd; apply Hv; by right].
  intros k. rewrite versions_of_record. destruct (decide _); [|apply Hc].
  rewrite length_app, length_take. specialize (Hv doc ltac:(by left)). cbn. lia.
Qed.

Lemma INFI_no_bar : ("|"%char) ∉ INFI.
Proof. by apply (bool_decide_unpack (("|"%char) ∉ INFI)). Qed.

(** ** The two trees *)

Section Ledger.
Context `{Blake2b, StringStoreLaws D} (junk : nat → ascii) (fanout leaf_fanout fuel B : nat) (name : bytes).
Implicit Types (d : D) (q : QLDB D) (S : versions).

Record ledger_limits : Prop := {
  lim_trees : tree_limits fanout leaf_fanout fuel B;
  lim_bar : "|"%char ∉ name;
  lim_committed : ¬ prefixed #"COMMITTED_" name;
  lim_history : ¬ prefixed #"HISTORY_" name;
}.
Hypothesis limits : ledger_limits.

(** A key and a value of a size that fits in the nodes of the trees. *)
Record kv_ok (kv : bytes * bytes) : Prop := {
  kv_key : (length kv.1 + 33 <= B)%nat;
  kv_size : (41 + length name + length kv.1 + length kv.2 <= B)%nat;
  kv_infi : kv.1 ≠ INFI;
}.

Definition indexed_prefix : bytes := #"COMMITTED_".
Definition history_prefix : bytes := #"HISTORY_".
Lemma indexed_short : (length indexed_prefix <= 10)%nat.
Proof. cbv. lia. Qed.
Lemma history_short : (length history_prefix <= 10)%nat.
Proof. cbv. lia. Qed.

#[local] Abbreviation tree_of := (BTreeMap.tree_of fanout leaf_fanout B).
#[local] Abbreviation tree_get := (BTreeMap.tree_get fanout leaf_fanout fuel B (lim_trees limits)).
#[local] Abbreviation tree_set := (BTreeMap.tree_set fanout leaf_fanout fuel B (lim_trees limits)).
#[local] Abbreviation tree_of_frame := (BTreeMap.tree_of_frame fanout leaf_fanout fuel B (lim_trees limits)).
#[local] Abbreviation tree_of_empty := (BTreeMap.tree_of_empty fanout leaf_fanout fuel B (lim_trees limits)).

(** *** Reads *)

Abbreviation indexed_tree := (λ t d c S, tree_of indexed_prefix t d c (λ M, M = latest_of S)).
Abbreviation history_tree := (λ t d c S, tree_of history_prefix t d c (λ M, history_of M S)).

Lemma lookup_latest S k : latest_of S !! k = doc_text <$> last (versions_of S k).
Proof. unfold latest_of, versions_of. rewrite lookup_fmap, lookup_omap. by destruct (S !! k). Qed.

Lemma GetCommitted_spec q c S key : indexed_tree (indexed_ q) (ql_db q) c S → (c <= fuel)%nat →
  ql_GetCommitted fuel q key = Done (doc_text <$> last (versions_of S key)).
Proof.
  intros Ht Hc. destruct (tree_get _ _ _ _ _ key indexed_short Hc Ht) as (M & -> & HM).
  unfold ql_GetCommitted. by rewrite HM, lookup_latest.
Qed.

Lemma GetVersion_spec q c S key l v doc : history_tree (history_ q) (ql_db q) c S → (c <= fuel)%nat →
  S !! key = Some l → l !! v = Some doc → GetVersion fuel q key (N.of_nat v) = Done (Some (doc_text doc)).
Proof.
  intros Ht Hc Hk Hv.
  destruct (tree_get _ _ _ _ _ (version_key key (N.of_nat v)) history_short Hc Ht) as (M & HM & Hget).
  unfold GetVersion. rewrite Hget. by rewrite (HM key l v doc).
Qed.

Lemma last_version S k doc : versions_ok S → last (versions_of S k) = Some doc →
  doc_ok doc ∧ doc_version doc = N.of_nat (length (versions_of S k) - 1) ∧ doc_key doc = k.
Proof.
  intros [_ Hd] Hl. unfold versions_of in *. destruct (S !! k) as [l|] eqn:E; [|done]. cbn in *.
  rewrite last_lookup in Hl. replace (length l - 1)%nat with (pred (length l)) by lia. by apply (Hd k l).
Qed.

(** The history of a key, the newest first. *)
Lemma history_loop_spec q c S key l n i : history_tree (history_ q) (ql_db q) c S → (c <= fuel)%nat →
  S !! key = Some l → (i < length l)%nat →
  history_loop fuel q key (N.of_nat (length l - 1)) (N.of_nat n) i
  = Done ((Some ∘ doc_text) <$> take (n - (length l - 1 - i)) (reverse (take i l))).
Proof.
  intros Ht Hc Hk. induction i as [|i IH]; intros Hi; [by rewrite firstn_nil|].
  cbn [history_loop]. destruct (N.ltb_spec (N.of_nat (length l - 1) - N.of_nat (Datatypes.S i)) (N.of_nat n)) as [Hlt|Hge].
  - destruct (lookup_lt_is_Some_2 l i) as [doc Hdoc]; [lia|].
    rewrite (GetVersion_spec q c S key l i doc Ht Hc Hk Hdoc), bind_Done, IH, bind_Done by lia.
    rewrite (take_S_r l i doc Hdoc), reverse_snoc.
    replace (n - (length l - 1 - Datatypes.S i))%nat with (Datatypes.S (n - (length l - 1 - i))) by lia. done.
  - by replace (n - (length l - 1 - Datatypes.S i))%nat with 0%nat by lia.
Qed.

Lemma GetHistory_spec q c S key n : indexed_tree (indexed_ q) (ql_db q) c S →
  history_tree (history_ q) (ql_db q) c S → (c <= fuel)%nat → versions_ok S → versions_of S key ≠ [] →
  ql_GetHistory fuel q key (N.of_nat n)
  = Done ((Some ∘ doc_text) <$> take (Datatypes.S n) (reverse (versions_of S key))).
Proof.
  intros Hi Hh Hc Hok Hne. unfold ql_GetHistory. rewrite (GetCommitted_spec q c S) by done. rewrite bind_Done.
  destruct (last (versions_of S key)) as [doc|] eqn:El; [|by apply last_None in El].
  destruct (last_version S key doc Hok El) as (Hd & Hv & _). cbn [fmap option_fmap option_map document_of].
  rewrite parse_doc, bind_Done by done. unfold doc_version in Hv. rewrite Hv.
  assert (S !! key = Some (versions_of S key)) as E by (unfold versions_of in *; by destruct (S !! key)).
  clear Hv. set (l := versions_of S key) in *. clearbody l.
  rewrite Nat2N.id, (history_loop_spec q c S key l n (length l - 1) Hh Hc E), bind_Done
    by (destruct l; [done|cbn; lia]).
  apply last_Some in El as [l' ->]. rewrite reverse_snoc, length_app. cbn [length].
  replace (length l' + 1 - 1)%nat with (length l') by lia.
  rewrite take_app_length, Nat.sub_diag, Nat.sub_0_r. done.
Qed.

(** *** Writes *)

Record data_holds (t1 t2 : QLBTree) d S (c : nat) : Prop := {
  da_ok : versions_ok S;
  da_count : ∀ k, (length (versions_of S k) <= c)%nat;
  da_indexed : indexed_tree t1 d c S;
  da_history : history_tree t2 d c S;
}.

Lemma data_holds_frame t1 t2 d d' S c :
  (∀ k, prefixed indexed_prefix k ∨ prefixed history_prefix k → ss_get d' k = ss_get d k) →
  data_holds t1 t2 d S c → data_holds t1 t2 d' S c.
Proof.
  intros Hf [Hok Hc Hi Hh]. split; [done|done|..].
  - apply (tree_of_frame _ _ d); [apply indexed_short|auto|done].
  - apply (tree_of_frame _ _ d); [apply history_short|auto|done].
Qed.

Lemma length_doc_text doc : length (ledger_name (getAddr doc)) = length name →
  length (doc_text doc) = (41 + length name + length (doc_key doc) + length (data_val (getData doc)))%nat.
Proof. intros Hn. unfold doc_text. rewrite length_encode_document, Hn. unfold kMetaLength, kChunkTypeOffset, kNumBytesOffset, doc_key. lia. Qed.

Section Batch.
Context (t1 t2 : QLBTree) (d : D) (S : versions) (c : nat) (seqno now : N) (kvs : list (bytes * bytes)).
Hypothesis holds : data_holds t1 t2 d S c.
Hypothesis room_left : (c + length kvs <= fuel)%nat.
Hypothesis seq_small : seqno < 2 ^ 64.
Hypothesis now_small : now < 2 ^ 64.
Hypothesis kvs_ok : Forall kv_ok kvs.

Abbreviation docs := (new_docs S name seqno now kvs).

Lemma fuel_32 : N.of_nat fuel < 2 ^ 32.
Proof. apply limits. Qed.

Lemma new_doc_ok i kv : kvs !! i = Some kv → doc_ok (new_doc S name seqno now i kv).
Proof.
  intros Hi. pose proof fuel_32. pose proof (da_count _ _ _ _ _ holds kv.1) as Hc.
  rewrite Forall_lookup in kvs_ok. destruct (kvs_ok i kv Hi) as [_ Hs _]. apply lookup_lt_Some in Hi.
  assert (N.of_nat B < 2 ^ 32) by (pose proof (tl_room _ _ _ _ (lim_trees limits)); lia).
  split; cbn; unfold kMetaLength, kChunkTypeOffset, kNumBytesOffset in *; lia.
Qed.

Lemma new_docs_ok : Forall doc_ok docs.
Proof. apply Forall_forall. intros doc (i & kv & Hi & ->)%elem_of_new_docs. by apply new_doc_ok. Qed.

Lemma new_docs_keys : doc_key <$> docs = kvs.*1.
Proof.
  unfold new_docs. rewrite fmap_imap. exact (imap_const fst kvs).
Qed.

Lemma make_documents_spec i kvs' h : kvs' = drop i kvs →
  make_documents fuel (mkQLDB d t1 h) name seqno now (N.of_nat i) kvs'
  = Done ((λ doc, (doc_text doc, version_key (doc_key doc) (doc_version doc))) <$> drop i docs).
Proof.
  revert i. induction kvs' as [|[k v] kvs' IH]; intros i Hd.
  - cbn [make_documents]. rewrite drop_ge; [done|]. unfold new_docs. rewrite length_imap.
    assert (length (drop i kvs) = 0%nat) as E by (by rewrite <-Hd). rewrite length_drop in E. lia.
  - assert (kvs !! i = Some (k, v)) as Hi by (rewrite <-(Nat.add_0_r i), <-lookup_drop; by rewrite <-Hd).
    assert (docs !! i = Some (new_doc S name seqno now i (k, v))) as Hdoc
      by (unfold new_docs; by rewrite list_lookup_imap, Hi).
    rewrite (drop_S _ _ _ Hdoc). cbn [make_documents].
    rewrite (GetCommitted_spec (mkQLDB d t1 h) c S k) by (apply holds || lia). rewrite bind_Done.
    assert (match doc_text <$> last (versions_of S k) with
      | None => Done 0
      | Some m => doc ← parse_document m; Done (md_version (getMetaData doc) + 1)
      end = Done (N.of_nat (length (versions_of S k)))) as ->.
    { destruct (last (versions_of S k)) as [doc|] eqn:El; cbn [fmap option_fmap option_map].
      - destruct (last_version S k doc (da_ok _ _ _ _ _ holds) El) as (Hok & Hv & _).
        rewrite parse_doc, bind_Done by done. unfold doc_version in Hv. rewrite Hv. f_equal.
        apply last_Some in El as [l' El]. rewrite El, length_app. cbn. lia.
      - by apply last_None in El as ->. }
    rewrite bind_Done. replace (N.of_nat i + 1) with (N.of_nat (Datatypes.S i)) by lia.
    rewrite IH, bind_Done; [done|]. by rewrite (drop_S _ _ _ Hi) in Hd; injection Hd.
Qed.

Lemma new_doc_short doc : doc ∈ docs → (length (doc_text doc) <= B)%nat.
Proof.
  intros (i & kv & Hi & ->)%elem_of_new_docs. rewrite Forall_lookup in kvs_ok.
  destruct (kvs_ok i kv Hi) as [_ Hs _]. rewrite length_doc_text by done. exact Hs.
Qed.

Lemma small_indexed : Forall (small_entry B) (zip kvs.*1 (doc_text <$> docs)).
Proof.
  rewrite <-new_docs_keys, zip_fmaps. apply Forall_fmap, Forall_forall.
  intros doc (i & kv & Hi & ->)%elem_of_new_docs. rewrite Forall_lookup in kvs_ok.
  destruct (kvs_ok i kv Hi) as [Hk Hs Hn]. split; [cbn; lia|split; [|done]]. cbn [snd].
  rewrite length_doc_text by done. cbn. lia.
Qed.

Lemma small_history :
  Forall (small_entry B) (zip ((λ doc, version_key (doc_key doc) (doc_version doc)) <$> docs) (doc_text <$> docs)).
Proof.
  rewrite zip_fmaps. apply Forall_fmap, Forall_forall.
  intros doc (i & kv & Hi & ->)%elem_of_new_docs. pose proof fuel_32 as Hf.
  pose proof (da_count _ _ _ _ _ holds kv.1) as Hc.
  rewrite Forall_lookup in kvs_ok. destruct (kvs_ok i kv Hi) as [Hk Hs Hn]. split; [|split].
  - cbn [fst]. unfold version_key. rewrite !length_app. cbn.
    pose proof (length_to_string_32 (N.of_nat (length (versions_of S kv.1))) ltac:(lia)). lia.
  - cbn [snd]. rewrite length_doc_text by done. cbn. lia.
  - cbn [fst]. unfold version_key. intros E. apply INFI_no_bar. rewrite <-E. apply elem_of_app. right. by left.
Qed.

(** The trees after the documents of a batch were set. *)
Lemma set_trees : kvs ≠ [] → ∃ t1' t2' d1 d2,
  bt_Set fanout leaf_fanout fuel t1 d kvs.*1 (doc_text <$> docs) = Done (t1', d1, true) ∧
  bt_Set fanout leaf_fanout fuel t2 d1 ((λ doc, version_key (doc_key doc) (doc_version doc)) <$> docs)
    (doc_text <$> docs) = Done (t2', d2, true) ∧
  data_holds t1' t2' d2 (record_docs S docs) (c + length kvs) ∧
  (∀ k l v dc, record_docs S docs !! k = Some l → l !! v = Some dc →
     dc ∈ docs ∨ ∃ l0, S !! k = Some l0 ∧ l0 !! v = Some dc) ∧
  ∀ k, ¬ prefixed indexed_prefix k → ¬ prefixed history_prefix k → ss_get d2 k = ss_get d k.
Proof.
  intros Hne. destruct holds as [Hok Hc Hi Hh].
  assert (length docs = length kvs) as Hld by (unfold new_docs; apply length_imap).
  assert (∀ k, ¬ (prefixed indexed_prefix k ∧ prefixed history_prefix k)) as Hdis
    by (intros k [[s ->] [s' E]]; discriminate E).
  destruct (tree_set indexed_prefix t1 d c (λ M, M = latest_of S) (λ M, M = latest_of (record_docs S docs))
    kvs.*1 (doc_text <$> docs)) as (t1' & d1 & Hs1 & Ht1 & Hf1).
  { apply indexed_short. } { by destruct kvs. } { by rewrite !length_fmap. } { apply small_indexed. }
  { by rewrite length_fmap. } { exact Hi. }
  { intros M ->. rewrite <-new_docs_keys, zip_fmaps, foldl_list_fmap. apply latest_records. }
  destruct (tree_set history_prefix t2 d1 c (λ M, history_of M S) (λ M, history_of M (record_docs S docs))
    ((λ doc, version_key (doc_key doc) (doc_version doc)) <$> docs) (doc_text <$> docs)) as (t2' & d2 & Hs2 & Ht2 & Hf2).
  { apply history_short. } { intros E%fmap_nil_inv. rewrite E in Hld. by destruct kvs. } { by rewrite !length_fmap. }
  { apply small_history. } { by rewrite length_fmap, Hld. }
  { apply (tree_of_frame _ _ d); [apply history_short| |exact Hh]. intros k Hk. apply Hf1. intros Hk'. by apply (Hdis k). }
  { intros M HM. rewrite zip_fmaps, foldl_list_fmap. apply (records_ok M S S docs Hok HM new_docs_ok); [|done].
    intros doc (i & kv & _ & ->)%elem_of_new_docs. cbn. lia. }
  rewrite length_fmap in Ht1. rewrite length_fmap, Hld in Ht2.
  assert (∀ doc, doc ∈ docs → N.to_nat (doc_version doc) = length (versions_of S (doc_key doc))) as Hv
    by (intros doc (i & kv & _ & ->)%elem_of_new_docs; cbn; lia).
  assert (∃ M, history_of M S) as [M HM] by (destruct Hh as [(l & m & _ & _ & _ & HM)]; by eexists).
  destruct (records_ok M S S docs Hok HM new_docs_ok Hv ltac:(done)) as (Hok' & _ & Hin).
  exists t1', t2', d1, d2. split; [done|]. split; [done|]. split; [split|split; [done|]].
  - done.
  - intros k. pose proof (count_records S docs c) as Hcr.
    assert (length kvs ≠ 0%nat) by (by destruct kvs).
    specialize (Hcr ltac:(intros k'; specialize (Hc k'); lia) ltac:(intros doc Hd; rewrite Hv by done; apply Hc) k). lia.
  - apply (tree_of_frame _ _ d1); [apply indexed_short| |done]. intros k Hk. apply Hf2. intros Hk'. by apply (Hdis k).
  - done.
  - intros k Hk1 Hk2. by rewrite Hf2, Hf1.
Qed.
End Batch.

(** ** The chain of blocks *)

Record qblock := mkQBlock { qk_docs : list Document; qk_stmt : bytes; qk_addr : bytes }.

(** What is hashed into a block. *)
Definition block_leaves (prev : bytes) (b : qblock) : list bytes :=
  (chunk_hash <$> (doc_text <$> qk_docs b)) ++ [prev; qk_stmt b; qk_addr b].

Definition genesis : bytes := ComputeFrom #"0".
Fixpoint hashes_from (prev : bytes) (bs : list qblock) : list bytes :=
  match bs with
  | [] => []
  | b :: bs => let h := root_of (block_leaves prev b) in h :: hashes_from h bs
  end.
Definition hashes (bs : list qblock) : list bytes := hashes_from genesis bs.
Definition last_hash (bs : list qblock) : bytes := default genesis (last (hashes bs)).

Lemma hashes_snoc_from prev bs b :
  hashes_from prev (bs ++ [b]) = hashes_from prev bs ++ [root_of (block_leaves (default prev (last (hashes_from prev bs))) b)].
Proof.
  revert prev. induction bs as [|b0 bs IH]; intros prev; [done|]. cbn [hashes_from app]. rewrite IH.
  do 2 f_equal. rewrite last_cons. by destruct (last (hashes_from _ bs)).
Qed.
Lemma hashes_snoc bs b : hashes (bs ++ [b]) = hashes bs ++ [root_of (block_leaves (last_hash bs) b)].
Proof. apply hashes_snoc_from. Qed.
Lemma length_hashes bs : length (hashes bs) = length bs.
Proof. unfold hashes. generalize genesis. induction bs as [|b bs IH]; intros prev; [done|]. cbn. by rewrite IH. Qed.

Lemma hashes_lookup bs i b : bs !! i = Some b →
  hashes bs !! i = Some (root_of (block_leaves (last_hash (take i bs)) b)).
Proof.
  intros Hi. rewrite <-(take_drop i bs), (drop_S _ _ _ Hi) at 1.
  replace (take i bs ++ b :: drop (Datatypes.S i) bs) with ((take i bs ++ [b]) ++ drop (Datatypes.S i) bs)
    by (by rewrite <-app_assoc).
  assert (length (take i bs) = i) as Hl by (rewrite length_take; apply lookup_lt_Some in Hi; lia).
  clear Hi. set (P := take i bs) in *. clearbody P. set (R := drop (Datatypes.S i) bs). clearbody R.
  induction R as [|r R IH] using rev_ind.
  - rewrite app_nil_r, hashes_snoc, lookup_app_r by (rewrite length_hashes; lia).
    by rewrite length_hashes, Hl, Nat.sub_diag.
  - rewrite app_assoc, hashes_snoc, lookup_app_l; [done|]. rewrite length_hashes, !length_app. cbn. lia.
Qed.

Definition block_good (b : qblock) : Prop :=
  Forall doc_ok (qk_docs b) ∧ length (qk_stmt b) = kByteLength ∧ length (qk_addr b) = kByteLength ∧
  N.of_nat (length (qk_docs b)) < 2 ^ 32.

Abbreviation sized := (λ h : bytes, length h = kByteLength).

Lemma leaves_sized prev b : block_good b → sized prev → Forall sized (block_leaves prev b).
Proof.
  intros (_ & Hs & Ha & _) Hp. unfold block_leaves. apply Forall_app. split; [|by repeat constructor].
  apply Forall_fmap, Forall_true. intros m. apply length_ComputeFrom.
Qed.
Lemma leaves_nonnil prev b : block_leaves prev b ≠ [].
Proof. unfold block_leaves. intros E. by apply app_eq_nil in E as [_ ?]. Qed.

Lemma hashes_sized bs : Forall block_good bs → Forall sized (hashes bs).
Proof.
  intros Hb. unfold hashes. assert (sized genesis) as Hg by apply length_ComputeFrom. revert Hg.
  generalize genesis. induction Hb as [|b bs Hb _ IH]; intros prev Hp; [constructor|]. cbn [hashes_from].
  assert (sized (root_of (block_leaves prev b))) by (apply length_root_of; [apply leaves_nonnil|by apply leaves_sized]).
  constructor; [done|by apply IH].
Qed.
Lemma last_hash_sized bs : Forall block_good bs → sized (last_hash bs).
Proof.
  intros Hb%hashes_sized. unfold last_hash. destruct (last (hashes bs)) as [h|] eqn:E; [|apply length_ComputeFrom].
  rewrite Forall_forall in Hb. by apply Hb, last_Some_elem_of.
Qed.

(** *** Keys *)

Definition proof_name : bytes := #"proof_" ++ name.

Lemma bar_proof_name : ("|"%char) ∉ proof_name.
Proof.
  destruct limits. unfold proof_name. rewrite elem_of_app. intros [Hin|]; [|done].
  revert Hin. by apply (bool_decide_unpack (("|"%char) ∉ #"proof_")).
Qed.

(** The text of a key before and after its first bar. *)
Lemma doc_node_key_split b l i : doc_node_key name b l i
  = proof_name ++ "|"%char :: (to_string b ++ "|"%char :: (to_string l ++ "|"%char :: to_string i)).
Proof. unfold doc_node_key, proof_name. by rewrite <-!app_assoc. Qed.
Lemma chain_node_key_split l i : chain_node_key name l i = proof_name ++ "|"%char :: (to_string l ++ "|"%char :: to_string i).
Proof. unfold chain_node_key, proof_name. by rewrite <-!app_assoc. Qed.
Lemma block_key_split b : block_key name b = name ++ "|"%char :: to_string b.
Proof. done. Qed.

Lemma name_not_proof : name ≠ proof_name.
Proof. unfold proof_name. intros E%(f_equal length). rewrite length_app in E. cbn in E. lia. Qed.

Lemma doc_key_not_chain b l i l' i' : doc_node_key name b l i ≠ chain_node_key name l' i'.
Proof.
  rewrite doc_node_key_split, chain_node_key_split. intros [_ E]%(app_sep_inj _ _ _ _ _ bar_proof_name bar_proof_name).
  apply app_sep_inj in E as [_ E]; [|by apply to_string_no..].
  apply (to_string_no "|"%char i' eq_refl). rewrite <-E. apply elem_of_app. right. by left.
Qed.
Lemma doc_key_block b l i b' l' i' : doc_node_key name b l i = doc_node_key name b' l' i' → b = b'.
Proof.
  rewrite !doc_node_key_split. intros [_ E]%(app_sep_inj _ _ _ _ _ bar_proof_name bar_proof_name).
  apply app_sep_inj in E as [E _]; [|by apply to_string_no..]. by apply to_string_inj.
Qed.
Lemma block_key_not_proof b x : block_key name b ≠ proof_name ++ "|"%char :: x.
Proof.
  destruct limits. rewrite block_key_split. intros [E _]%(app_sep_inj _ _ _ _ _ lim_bar0 bar_proof_name).
  by apply name_not_proof.
Qed.
Lemma name_no_bar_ne a x : name ≠ a ++ "|"%char :: x.
Proof. destruct limits. intros E. apply lim_bar0. rewrite E. apply elem_of_app. right. by left. Qed.
Lemma digest_no_bar_ne a x : digest_key name ≠ a ++ "|"%char :: x.
Proof.
  destruct limits. intros E. assert (("|"%char) ∉ digest_key name) as Hn; [|apply Hn; rewrite E; apply elem_of_app; right; by left].
  unfold digest_key. rewrite elem_of_app. intros [Hin|]; [|done].
  revert Hin. by apply (bool_decide_unpack (("|"%char) ∉ #"digest_")).
Qed.
Lemma digest_not_name : digest_key name ≠ name.
Proof. unfold digest_key. intros E%(f_equal length). rewrite length_app in E. cbn in E. lia. Qed.

Lemma digest_not_block b : digest_key name ≠ block_key name b.
Proof. rewrite block_key_split. apply digest_no_bar_ne. Qed.
Lemma name_not_block b : name ≠ block_key name b.
Proof. rewrite block_key_split. apply name_no_bar_ne. Qed.

(** The keys of the ledger itself. *)
Inductive ledger_key : bytes → Prop :=
  | LK_name : ledger_key name
  | LK_digest : ledger_key (digest_key name)
  | LK_block b : ledger_key (block_key name b)
  | LK_doc b l i : ledger_key (doc_node_key name b l i)
  | LK_chain l i : ledger_key (chain_node_key name l i).

Lemma ledger_key_outside k : ledger_key k → ¬ prefixed indexed_prefix k ∧ ¬ prefixed history_prefix k.
Proof.
  destruct limits. assert (("|"%char) ∉ indexed_prefix) as Hi by (by apply (bool_decide_unpack (("|"%char) ∉ indexed_prefix))).
  assert (("|"%char) ∉ history_prefix) as Hh by (by apply (bool_decide_unpack (("|"%char) ∉ history_prefix))).
  intros [| |b|b l i|l i].
  - done.
  - split; intros [s E]; discriminate E.
  - split; intros [s E]; [destruct lim_committed0|destruct lim_history0]; eapply prefix_before_bar; [exact Hi|exact E|exact Hh|exact E].
  - split; intros [s E]; discriminate E.
  - split; intros [s E]; discriminate E.
Qed.

(** *** The chain in the store *)

Definition block_stored d (b : N) (prev : bytes) (blk : qblock) : Prop :=
  nodes_stored (doc_node_key name b) d (block_leaves prev blk) ∧
  ∃ m qb, get_chunk d (block_key name b) = Some m ∧ parse_qlblock m = Done qb ∧
    Forall2 (λ doc mem, ∃ s, mem = doc_text doc ++ s) (qk_docs blk) (documents_ qb).

Record chain_holds d (bs : list qblock) : Prop := {
  ch_good : Forall block_good bs;
  ch_tip : ss_get d name = match last (hashes bs) with
    | None => []
    | Some h => to_string (N.of_nat (length bs - 1)) ++ #"|" ++ ToBase32_value h
    end;
  ch_digest : bs ≠ [] → ss_get d (digest_key name) = ToBase32_value (root_of (hashes bs));
  ch_nodes : nodes_stored (chain_node_key name) d (hashes bs);
  ch_blocks : ∀ i b, bs !! i = Some b → block_stored d (N.of_nat i) (last_hash (take i bs)) b;
}.

Lemma block_stored_frame d d' b prev blk :
  (∀ l i, ss_get d' (doc_node_key name b l i) = ss_get d (doc_node_key name b l i)) →
  ss_get d' (block_key name b) = ss_get d (block_key name b) →
  block_stored d b prev blk → block_stored d' b prev blk.
Proof.
  intros Hn Hb [Hst (m & qb & Hm & Hres)]. split.
  - intros l i node Hl Hnode. unfold nkey. rewrite Hn. by apply (Hst l i).
  - exists m, qb. split; [|done]. rewrite <-Hm. by apply get_chunk_same.
Qed.

Lemma chain_holds_frame d d' bs : (∀ k, ledger_key k → ss_get d' k = ss_get d k) →
  chain_holds d bs → chain_holds d' bs.
Proof.
  intros Hf [Hg Ht Hd Hn Hb]. split.
  - done.
  - rewrite Hf; [done|constructor].
  - intros Hne. rewrite Hf; [by apply Hd|constructor].
  - intros l i node Hl Hnode. unfold nkey. rewrite Hf by constructor. by apply (Hn l i).
  - intros i b Hi. eapply block_stored_frame; [..|by apply Hb]; [intros l j|]; apply Hf; constructor.
Qed.

Lemma chain_empty d : ss_get d name = [] → chain_holds d [].
Proof. intros Hn. split; [constructor|done|done| |done]. intros l i node Hl. cbn in Hl. lia. Qed.

Lemma next_block_spec d bs : chain_holds d bs → N.of_nat (length bs) < 2 ^ 64 →
  next_block junk (ss_get d name) = Done (N.of_nat (length bs), last_hash bs).
Proof.
  intros [Hg Ht _ _ _] Hlen. rewrite Ht. unfold last_hash. destruct (last (hashes bs)) as [h|] eqn:El.
  - assert (sized h) as Hh by (pose proof (last_hash_sized bs Hg) as Hs; unfold last_hash in Hs; by rewrite El in Hs).
    assert (length bs ≠ 0%nat) as Hne by (rewrite <-length_hashes; apply last_Some_elem_of in El; by destruct (hashes bs); [apply elem_of_nil in El|]).
    unfold next_block. destruct (to_string (N.of_nat (length bs - 1)) ++ #"|" ++ ToBase32_value h) as [|a t] eqn:E.
    { by apply app_eq_nil in E as [? _]; destruct (to_string_nonnil (N.of_nat (length bs - 1))). }
    rewrite <-E. change (#"|" ++ ToBase32_value h) with ("|"%char :: ToBase32_value h).
    rewrite find_char_app by (by apply to_string_no). rewrite take_app_length, drop_app_ge by lia.
    replace (Datatypes.S (length (to_string (N.of_nat (length bs - 1)))) - length (to_string (N.of_nat (length bs - 1))))%nat with 1%nat by lia.
    rewrite skipn_cons, drop_0, stoul_to_string, bind_Done, FromBase32_ToBase32 by (done || lia).
    cbn [default]. do 2 f_equal. rewrite u64_small by lia. lia.
  - apply last_None in El. assert (length bs = 0%nat) as -> by (by rewrite <-length_hashes, El). done.
Qed.

Lemma block_small docs now seqno : Forall doc_ok docs → seqno < 2 ^ 64 → now < 2 ^ 64 →
  N.of_nat (78 + length name + length (mjoin (doc_text <$> docs))) < 2 ^ 32 →
  block_ok (mkAddr name seqno) (mkStatement 0 now) now (doc_text <$> docs).
Proof.
  intros Hd Hs Hn Hz. split; try done.
  apply Forall_fmap. eapply Forall_impl; [exact Hd|]. intros doc. apply document_chunk_ok.
Qed.

Lemma nodes_not_ledger d d' b L : (∀ k, (∀ l i, k ≠ nkey (chain_node_key name) l i) → k ≠ digest_key name → ss_get d' k = ss_get d k) →
  nodes_stored (doc_node_key name b) d L → nodes_stored (doc_node_key name b) d' L.
Proof.
  intros Hf Hst l i node Hl Hnode. rewrite Hf; [by apply (Hst l i)| |].
  - intros l' i'. apply doc_key_not_chain.
  - intros E. symmetry in E. unfold nkey in E. rewrite doc_node_key_split in E. by apply digest_no_bar_ne in E.
Qed.

(** A block is appended. *)
Lemma chain_step d bs docs now stmt addr : chain_holds d bs → N.of_nat (Datatypes.S (length bs)) < 2 ^ 64 →
  now < 2 ^ 64 → N.of_nat (78 + length name + length (mjoin (doc_text <$> docs))) < 2 ^ 32 →
  let blk := mkQBlock docs stmt addr in block_good blk →
  let seqno := N.of_nat (length bs) in
  let prev := last_hash bs in
  ∃ d1 h d2, calculateBlockHash d (block_leaves prev blk) name seqno = Done (d1, h) ∧
    calculateDigest d1 h prev name seqno = Done d2 ∧
    let d3 := put_chunk d2 (block_key name seqno)
      (encode_block (mkAddr name seqno) (mkStatement 0 now) now h prev (doc_text <$> docs)) in
    let d4 := ss_put d3 name (to_string seqno ++ #"|" ++ ToBase32_value h) in
    chain_holds d4 (bs ++ [blk]) ∧ ∀ k, ¬ ledger_key k → ss_get d4 k = ss_get d k.
Proof.
  intros Hch Hlen Hnow Hsz blk Hblk seqno prev. pose proof Hch as [Hg Ht Hd Hn Hb].
  assert (sized prev) as Hprev by (by apply last_hash_sized).
  pose proof (leaves_sized prev blk Hblk Hprev) as HF.
  destruct (calculateBlockHash_spec name seqno d (block_leaves prev blk) (leaves_nonnil prev blk))
    as (d1 & h & Hbh & Hroot & Hst1 & Ho1). apply root_of_level in Hroot.
  assert (sized h) as Hh by (rewrite <-Hroot; by apply length_root_of; [apply leaves_nonnil|]).
  assert (hashes bs ++ [h] = hashes (bs ++ [blk])) as Hhs by (by rewrite hashes_snoc, <-Hroot).
  destruct (calculateDigest_spec name d1 (hashes bs) h prev) as (d2 & Hcd & Hdig & Hst2 & Ho2).
  { intros x Hx. unfold prev, last_hash. by rewrite Hx. }
  { apply Forall_app. split; [by apply hashes_sized|by repeat constructor]. }
  { by rewrite length_hashes. }
  { intros l i node Hl Hnode. rewrite Ho1 by (intros l' i' E; symmetry in E; by apply doc_key_not_chain in E). by apply (Hn l i). }
  rewrite length_hashes in Hcd. exists d1, h, d2. split; [done|]. split; [done|].
  set (block := encode_block _ _ _ _ _ _). cbv zeta.
  set (d3 := put_chunk d2 (block_key name seqno) block).
  set (d4 := ss_put d3 name (to_string seqno ++ #"|" ++ ToBase32_value h)).
  assert (∀ k, k ≠ name → k ≠ block_key name seqno → ss_get d4 k = ss_get d2 k) as Hf34
    by (intros k Hk1 Hk2; unfold d4, d3, put_chunk; by rewrite !ss_get_put_ne).
  assert (∀ k, (∀ l i, k ≠ doc_node_key name seqno l i) → (∀ l i, k ≠ chain_node_key name l i) → k ≠ digest_key name →
    ss_get d2 k = ss_get d k) as Hf12 by (intros k Hk1 Hk2 Hk3; rewrite Ho2, Ho1; [done|intros l i; apply Hk1|intros l i; apply Hk2|done]).
  assert (∀ x, proof_name ++ "|"%char :: x ≠ name ∧ proof_name ++ "|"%char :: x ≠ block_key name seqno) as Hpn.
  { intros x. split; intros E; symmetry in E; [by apply name_no_bar_ne in E|by apply block_key_not_proof in E]. }
  split.
  2: { intros k Hk. rewrite Hf34, Hf12; [done|..]; intros; intros ->; apply Hk; constructor. }
  destruct (parse_encode_block (mkAddr name seqno) (mkStatement 0 now) now h prev (doc_text <$> docs))
    as (ms & Hparse & Hms & Hcont).
  { apply block_small; [apply Hblk|unfold seqno; lia|done|done]. }
  { exact Hh. }
  { exact Hprev. }
  fold block in Hparse, Hcont.
  split.
  - apply Forall_app. split; [done|]. by apply Forall_singleton.
  - rewrite <-Hhs, last_snoc, length_app. cbn [length]. unfold d4. rewrite ss_get_put.
    by replace (length bs + 1 - 1)%nat with (length bs) by lia.
  - intros _. rewrite <-Hhs, <-Hdig. apply Hf34; [apply digest_not_name|apply digest_not_block].
  - rewrite <-Hhs. intros l i node Hl Hnode. unfold nkey. rewrite chain_node_key_split.
    destruct (Hpn (to_string (N.of_nat (Datatypes.S l)) ++ "|"%char :: to_string (N.of_nat i))).
    rewrite Hf34 by done. rewrite <-chain_node_key_split. by apply (Hst2 l i).
  - intros i b Hi. apply lookup_app_Some in Hi as [Hi|[Hge Hi]].
    + pose proof (lookup_lt_Some _ _ _ Hi). rewrite take_app_le by lia. eapply block_stored_frame; [..|by apply Hb].
      * intros l j. rewrite doc_node_key_split.
        destruct (Hpn (to_string (N.of_nat i) ++ "|"%char :: (to_string l ++ "|"%char :: to_string j))).
        rewrite Hf34 by done. rewrite <-doc_node_key_split. apply Hf12.
        -- intros l' i' E. apply doc_key_block in E. unfold seqno in E. lia.
        -- intros l' i'. apply doc_key_not_chain.
        -- intros E. rewrite doc_node_key_split in E. symmetry in E. by apply digest_no_bar_ne in E.
      * rewrite Hf34; [apply Hf12| |].
        -- intros l' i'. rewrite doc_node_key_split. apply block_key_not_proof.
        -- intros l' i'. rewrite chain_node_key_split. apply block_key_not_proof.
        -- intros E. by destruct (digest_not_block (N.of_nat i)).
        -- intros E. by destruct (name_not_block (N.of_nat i)).
        -- rewrite !block_key_split. intros E. apply (inj (app _)) in E. injection E as E. apply to_string_inj in E. unfold seqno in E. lia.
    + destruct (i - length bs)%nat eqn:Ei; [|done]. injection Hi as <-. assert (i = length bs) as -> by lia.
      rewrite take_app_length. fold prev seqno. split.
      * intros l i node Hl Hnode. unfold nkey. rewrite doc_node_key_split.
        destruct (Hpn (to_string seqno ++ "|"%char :: (to_string (N.of_nat (Datatypes.S l)) ++ "|"%char :: to_string (N.of_nat i)))).
        rewrite Hf34 by done. rewrite <-doc_node_key_split.
        by apply (nodes_not_ledger d1 d2 seqno _ Ho2 Hst1 l i).
      * exists block, (mkQLBlock h prev now (mkAddr name seqno) (mkStatement 0 now) ms). split; [|split; [done|]].
        -- unfold get_chunk, d4, d3, put_chunk. rewrite ss_get_put_ne by apply name_not_block. rewrite ss_get_put, Hcont.
           by destruct block eqn:E.
        -- cbn [documents_]. by apply Forall2_fmap_l in Hms.
Qed.

(** ** [Set] *)

Record qbatch := mkBatch { ba_now : N; ba_g1 : bytes; ba_g2 : bytes; ba_keys : list bytes; ba_vals : list bytes }.

Record batch_good (ba : qbatch) : Prop := {
  bg_length : length (ba_keys ba) = length (ba_vals ba);
  bg_now : ba_now ba < 2 ^ 64;
  bg_kvs : Forall kv_ok (zip (ba_keys ba) (ba_vals ba));
  bg_size : N.of_nat (78 + length name + length (ba_keys ba) * B) < 2 ^ 32;
}.

(** What a batch makes of the blocks and the versions. *)
Definition batch_docs (bs : list qblock) S (ba : qbatch) : list Document :=
  new_docs S name (N.of_nat (length bs)) (ba_now ba) (zip (ba_keys ba) (ba_vals ba)).
Definition batch_block (bs : list qblock) S (ba : qbatch) : qblock :=
  mkQBlock (batch_docs bs S ba) (ComputeFrom (stmt_bytes (ba_now ba) (ba_g1 ba)))
    (ComputeFrom (addr_bytes name (ba_now ba) (ba_g2 ba))).
Definition apply_batch (st : list qblock * versions) (ba : qbatch) : list qblock * versions :=
  match ba_keys ba with
  | [] => st
  | _ => (st.1 ++ [batch_block st.1 st.2 ba], record_docs st.2 (batch_docs st.1 st.2 ba))
  end.

Record ledger_holds q (bs : list qblock) S (c : nat) : Prop := {
  lh_chain : chain_holds (ql_db q) bs;
  lh_data : data_holds (indexed_ q) (history_ q) (ql_db q) S c;
  lh_place : ∀ k l v doc, S !! k = Some l → l !! v = Some doc →
    ledger_name (getAddr doc) = name ∧
    ∃ i b, seq_no (getAddr doc) = N.of_nat i ∧ bs !! i = Some b ∧
      qk_docs b !! N.to_nat (md_doc_seq (getMetaData doc)) = Some doc;
  lh_blocks : (length bs <= c)%nat;
}.

Lemma zip_fst {A C} (l : list A) (k : list C) : length l = length k → (zip l k).*1 = l.
Proof. revert k. induction l as [|x l IH]; intros [|y k] Hl; try done. cbn. f_equal. by apply IH; injection Hl. Qed.

Lemma length_join_docs (docs : list Document) : Forall (λ doc, (length (doc_text doc) <= B)%nat) docs →
  (length (mjoin (doc_text <$> docs)) <= length docs * B)%nat.
Proof.
  clear limits. induction 1 as [|doc docs Hd _ IH]; [done|]. rewrite fmap_cons, mjoin_cons, length_app. cbn [length]. lia.
Qed.

Lemma ql_Set_spec q bs S c ba : ledger_holds q bs S c → batch_good ba → (c + length (ba_keys ba) <= fuel)%nat →
  ∃ q', ql_Set junk fanout leaf_fanout fuel q (ba_now ba) (ba_g1 ba) (ba_g2 ba) name (ba_keys ba) (ba_vals ba) = Done (q', true) ∧
    ledger_holds q' (apply_batch (bs, S) ba).1 (apply_batch (bs, S) ba).2 (c + length (ba_keys ba)).
Proof.
  intros [Hch Hda Hpl Hbs] [Hlen Hnow Hkvs Hsz] Hfuel. pose proof fuel_32 as Hf32.
  assert ((2:N) ^ 32 < 2 ^ 64) as H3264 by done.
  unfold ql_Set, apply_batch. rewrite (proj2 (Nat.eqb_eq _ _) Hlen). cbn [negb].
  destruct (ba_keys ba) as [|k0 ks0] eqn:Ekeys.
  { exists q. split; [done|]. cbn. by rewrite Nat.add_0_r. }
  rewrite <-Ekeys in *. assert (ba_keys ba ≠ []) as Hne by (by rewrite Ekeys). clear Ekeys.
  set (kvs := zip (ba_keys ba) (ba_vals ba)) in *.
  assert (length kvs = length (ba_keys ba)) as Hlk by (unfold kvs; rewrite length_zip_with; lia).
  assert (kvs.*1 = ba_keys ba) as Hk1 by (by apply zip_fst).
  assert (kvs ≠ []) as Hkne by (intros E; rewrite E in Hlk; by destruct (ba_keys ba)).
  assert (1 <= length (ba_keys ba))%nat as H1k by (destruct (ba_keys ba); [done|cbn; lia]).
  rewrite (next_block_spec (ql_db q) bs Hch), bind_Done by lia. cbn beta iota.
  set (seqno := N.of_nat (length bs)). set (prev := last_hash bs).
  assert (c + length kvs <= fuel)%nat as Hc by lia. assert (seqno < 2 ^ 64) as Hsq by (unfold seqno; lia).
  destruct q as [d t1 t2]. cbn [ql_db indexed_ history_] in *.
  pose proof (make_documents_spec t1 t2 d S c seqno (ba_now ba) kvs Hda Hc Hsq Hnow 0 kvs t2 eq_refl) as Hmk.
  change (N.of_nat 0) with 0 in Hmk. rewrite Hmk, bind_Done.
  rewrite drop_0, <-!list_fmap_compose. fold (batch_docs bs S ba). set (docs := batch_docs bs S ba).
  destruct (set_trees t1 t2 d S c seqno (ba_now ba) kvs Hda Hc Hsq Hnow Hkvs Hkne)
    as (t1' & t2' & d1 & d2 & Hs1 & Hs2 & Hda' & Hin & Hf).
  rewrite Hk1 in Hs1. change (new_docs S name seqno (ba_now ba) kvs) with docs in *.
  change (fst ∘ (λ doc, (doc_text doc, version_key (doc_key doc) (doc_version doc)))) with doc_text.
  change (snd ∘ (λ doc, (doc_text doc, version_key (doc_key doc) (doc_version doc))))
    with (λ doc, version_key (doc_key doc) (doc_version doc)).
  rewrite Hs1, bind_Done. cbn beta iota. rewrite Hs2, bind_Done. cbn beta iota.
  pose proof (new_docs_ok t1 t2 d S c seqno (ba_now ba) kvs Hda Hc Hsq Hnow Hkvs) as Hdok.
  change (new_docs S name seqno (ba_now ba) kvs) with docs in Hdok.
  assert (length docs = length (ba_keys ba)) as Hld by (unfold docs, batch_docs, new_docs; by rewrite length_imap).
  destruct (chain_step d2 bs docs (ba_now ba) (ComputeFrom (stmt_bytes (ba_now ba) (ba_g1 ba)))
    (ComputeFrom (addr_bytes name (ba_now ba) (ba_g2 ba)))) as (d3 & h & d4 & Hbh & Hcd & Hch' & Hf').
  { eapply chain_holds_frame; [|exact Hch]. intros k Hk. apply ledger_key_outside in Hk as [? ?]. by apply Hf. }
  { lia. } { done. }
  { pose proof (length_join_docs docs) as Hj. rewrite Hld in Hj.
    specialize (Hj ltac:(apply Forall_forall; intros doc Hdoc; by apply (new_doc_short S seqno (ba_now ba) kvs Hkvs))). lia. }
  { split; [done|]. split; [apply length_ComputeFrom|]. split; [apply length_ComputeFrom|]. cbn [qk_docs]. lia. }
  fold seqno prev in Hbh, Hcd, Hch', Hf'. unfold block_leaves in Hbh. cbn [qk_docs qk_stmt qk_addr] in Hbh.
  rewrite <-list_fmap_compose in Hbh.
  rewrite Hbh, bind_Done. cbn beta iota. rewrite Hcd, bind_Done.
  eexists. split; [reflexivity|]. rewrite <-Hlk. split; cbn [ql_db indexed_ history_ fst snd].
  - exact Hch'.
  - eapply data_holds_frame; [|exact Hda']. intros k Hk. apply Hf'. intros Hlk'. apply ledger_key_outside in Hlk'. tauto.
  - intros k l v doc Hk Hl. destruct (Hin k l v doc Hk Hl) as [Hdoc|(l0 & Hk0 & Hv0)].
    + apply elem_of_new_docs in Hdoc as (i & kv & Hi & ->). split; [done|]. exists (length bs), (batch_block bs S ba).
      split; [done|]. split; [rewrite lookup_app_r, Nat.sub_diag by lia; done|]. cbn [qk_docs batch_block getMetaData new_doc md_doc_seq].
      rewrite Nat2N.id. unfold batch_docs, new_docs. by rewrite list_lookup_imap, Hi.
    + destruct (Hpl k l0 v doc Hk0 Hv0) as (Hnm & i & b & Hi & Hb & Hdoc). split; [done|]. exists i, b. split; [done|]. split; [|done].
      by apply lookup_app_l_Some.
  - rewrite length_app. cbn. lia.
Qed.

(** ** Digests and proofs *)

Lemma digest_spec q bs : chain_holds (ql_db q) bs → bs ≠ [] → N.of_nat (length bs) < 2 ^ 64 →
  ql_digest q name = Done (mkDigestInfo (N.of_nat (length bs - 1)) (ToBase32_value (root_of (hashes bs)))).
Proof.
  intros [Hg Ht Hd _ _] Hne Hlen. unfold ql_digest. rewrite (Hd Hne), Ht.
  destruct (last (hashes bs)) as [h|] eqn:El.
  2: { apply last_None in El. pose proof (length_hashes bs) as Hl. rewrite El in Hl. by destruct bs. }
  destruct (to_string (N.of_nat (length bs - 1)) ++ #"|" ++ ToBase32_value h) as [|a t] eqn:E.
  { by apply app_eq_nil in E as [? _]; destruct (to_string_nonnil (N.of_nat (length bs - 1))). }
  rewrite <-E. change (#"|" ++ ToBase32_value h) with ("|"%char :: ToBase32_value h).
  rewrite find_char_app by (by apply to_string_no). rewrite take_app_length.
  by rewrite stoul_to_string, bind_Done by lia.
Qed.

Definition proof_sides (bs : list qblock) (i : nat) (b : qblock) (j : nat) : list side :=
  let L1 := block_leaves (last_hash (take i bs)) b in
  siblings L1 0 j (height (length L1)) ++ siblings (hashes bs) 0 i (height (length (hashes bs))).

Lemma ql_getProof_spec q bs i b j doc : chain_holds (ql_db q) bs → N.of_nat (length bs) < 2 ^ 64 →
  bs !! i = Some b → qk_docs b !! j = Some doc →
  ql_getProof q name (N.of_nat (length bs - 1)) (N.of_nat i) (N.of_nat j)
  = Done (mkQLProof (getData doc) (getAddr doc) (getMetaData doc)
      (render <$> proof_sides bs i b j).*1 (render <$> proof_sides bs i b j).*2).
Proof.
  intros Hch Hlen Hi Hj. pose proof Hch as [Hg _ _ Hn Hb].
  destruct (Hb i b Hi) as (Hst & m & qb & Hm & Hparse & HF).
  pose proof (lookup_lt_Some _ _ _ Hi) as Hilt. pose proof (lookup_lt_Some _ _ _ Hj) as Hjlt.
  assert (block_good b) as Hgb by (rewrite Forall_forall in Hg; apply Hg; by eapply list_elem_of_lookup_2).
  assert (N.of_nat (length (qk_docs b)) < 2 ^ 32) as Hdocs by apply Hgb.
  assert ((2:N) ^ 32 < 2 ^ 63 ∧ (2:N) ^ 63 < 2 ^ 64) as [H32 H63] by done.
  assert (doc_ok doc) as Hdok by (destruct Hgb as [HFd _]; rewrite Forall_forall in HFd; apply HFd; by eapply list_elem_of_lookup_2).
  set (L1 := block_leaves (last_hash (take i bs)) b) in *.
  assert (length L1 = (length (qk_docs b) + 3)%nat) as HL1 by (unfold L1, block_leaves; rewrite length_app, !length_fmap; done).
  assert (L1 ≠ []) as HL1n by (intros E; rewrite E in HL1; cbn in HL1; lia).
  assert (hashes bs ≠ []) as HL2n by (intros E; pose proof (length_hashes bs) as E'; rewrite E in E'; cbn in E'; lia).
  unfold ql_getProof. rewrite (proj2 (N.ltb_ge _ _)) by lia. rewrite Hm, Hparse, bind_Done.
  unfold getDocumentSize. rewrite <-(Forall2_length _ _ _ HF).
  rewrite (proj2 (N.ltb_ge (N.of_nat (length (qk_docs b)) + 2) (N.of_nat j))) by lia.
  destruct (Forall2_lookup_l _ _ _ _ _ HF Hj) as (mem & Hmem & s & ->).
  unfold getDocumentBySeq, item. rewrite Nat2N.id, Hmem, bind_Done, parse_doc_text, bind_Done by done.
  replace (N.of_nat (length (qk_docs b)) + 2) with (N.of_nat (length (level L1 0) - 1)) by (cbn [level]; lia).
  assert (Forall sized (last_hash (take i bs) :: hashes bs)) as Hsz.
  { constructor; [|by apply hashes_sized]. apply last_hash_sized. by apply Forall_take. }
  inversion Hsz as [|?? Hs1 Hs2]; subst.
  pose proof (ql_proof_loop_spec (doc_node_key name (N.of_nat i)) (ql_db q) L1 64 0 j Hst) as Hp1.
  change (N.of_nat 0) with 0 in Hp1. rewrite Hp1, bind_Done;
    [|by apply leaves_sized|done|rewrite Nat.add_0_l; apply height_64; lia|cbn [level]; lia].
  replace (N.of_nat (length bs - 1)) with (N.of_nat (length (level (hashes bs) 0) - 1)) by (cbn [level]; by rewrite length_hashes).
  pose proof (ql_proof_loop_spec (chain_node_key name) (ql_db q) (hashes bs) 64 0 i Hn Hs2 HL2n) as Hp2.
  change (N.of_nat 0) with 0 in Hp2. rewrite Hp2, bind_Done;
    [|rewrite Nat.add_0_l; apply height_64; rewrite length_hashes; [lia|done]|cbn [level]; by rewrite length_hashes].
  unfold proof_sides. fold L1. rewrite !Nat.sub_0_r, !fmap_app. done.
Qed.

Lemma proof_verifies bs i b j doc p : Forall block_good bs → bs !! i = Some b → qk_docs b !! j = Some doc →
  qp_data p = getData doc → qp_addr p = getAddr doc → qp_meta p = getMetaData doc →
  qp_proof p = (render <$> proof_sides bs i b j).*1 → qp_pos p = (render <$> proof_sides bs i b j).*2 →
  ql_Verify junk p (Some (FromBase32 junk (ToBase32_value (root_of (hashes bs))))) = Done true.
Proof.
  intros Hg Hi Hj Hd Ha Hm Hpr Hps.
  assert (block_good b) as Hgb by (rewrite Forall_forall in Hg; apply Hg; by eapply list_elem_of_lookup_2).
  set (L1 := block_leaves (last_hash (take i bs)) b).
  assert (Forall sized L1) as HF1 by (apply leaves_sized; [done|by apply last_hash_sized, Forall_take]).
  pose proof (hashes_sized bs Hg) as HF2.
  assert (L1 ≠ []) as HL1 by apply leaves_nonnil.
  pose proof (hashes_lookup bs i b Hi) as Hh. fold L1 in Hh.
  assert (hashes bs ≠ []) as HL2 by (intros E; by rewrite E in Hh).
  assert (L1 !! j = Some (chunk_hash (doc_text doc))) as Hleaf.
  { unfold L1, block_leaves. apply lookup_app_l_Some. by rewrite !list_lookup_fmap, Hj. }
  unfold ql_Verify. rewrite Hd, Ha, Hm, Hpr, Hps. fold (doc_text doc).
  rewrite ql_verify_loop_climb, bind_Done.
  2: { unfold proof_sides. apply Forall_app. split; by apply siblings_ok. }
  unfold proof_sides, climb. fold L1. rewrite foldl_app. fold (climb (chunk_hash (doc_text doc)) (siblings L1 0 j (height (length L1)))).
  destruct (level_root L1 HL1) as [r1 Hr1]. destruct (level_root (hashes bs) HL2) as [r2 Hr2].
  rewrite (climb_to_root L1 j _ r1 Hleaf Hr1). rewrite (root_of_level L1 r1 Hr1) in Hh.
  fold (climb r1 (siblings (hashes bs) 0 i (height (length (hashes bs))))).
  rewrite (climb_to_root (hashes bs) i r1 r2 Hh Hr2), (root_of_level _ r2 Hr2).
  rewrite FromBase32_ToBase32 by (by eapply level_root_length).
  unfold hash_eqb. by rewrite bool_decide_true.
Qed.

(** A document of a key, its proof for the digest of the ledger, and the positions in it. *)
Lemma provable_doc q bs S c key l v doc : ledger_holds q bs S c → N.of_nat c < 2 ^ 64 →
  S !! key = Some l → l !! v = Some doc →
  let dg := mkDigestInfo (N.of_nat (length bs - 1)) (ToBase32_value (root_of (hashes bs))) in
  ∃ r, doc_ok doc ∧ ledger_name (getAddr doc) = name ∧ ql_digest q name = Done dg ∧
    ql_getProof q name (QLDB.tip dg) (seq_no (getAddr doc)) (md_doc_seq (getMetaData doc)) = Done r ∧
    qp_data r = getData doc ∧ qp_addr r = getAddr doc ∧ qp_meta r = getMetaData doc ∧
    Forall (λ p, p < 2) (qp_pos r) ∧
    ql_Verify junk r (Some (FromBase32 junk (QLDB.digest dg))) = Done true.
Proof.
  intros [Hch Hda Hpl Hbs] Hc Hk Hv dg. destruct (vk_doc S (da_ok _ _ _ _ _ Hda) key l v doc Hk Hv) as (Hdok & _).
  destruct (Hpl key l v doc Hk Hv) as (Hnm & b & blk & Hseq & Hblk & Hat).
  assert (bs ≠ []) as Hbsn by (intros Eb; by rewrite Eb in Hblk).
  eexists. split; [done|]. split; [done|]. split; [apply digest_spec; [done|done|lia]|].
  cbn [QLDB.tip QLDB.digest dg]. rewrite Hseq. rewrite <-(N2Nat.id (md_doc_seq (getMetaData doc))).
  split; [apply ql_getProof_spec; [done|lia|done|done]|]. do 3 (split; [done|]). split.
  - cbn [qp_pos]. apply Forall_forall. intros p Hp. apply list_elem_of_fmap in Hp as (x & -> & Hp).
    apply list_elem_of_fmap in Hp as (sd & -> & _). by destruct sd.
  - apply (proof_verifies bs b blk (N.to_nat (md_doc_seq (getMetaData doc))) doc); try done. apply Hch.
Qed.

(** ** Runs *)

Definition run_batches q (bas : list qbatch) : outcome (QLDB D) :=
  foldl (λ acc ba, q ← acc;
    '(q, _) ← ql_Set junk fanout leaf_fanout fuel q (ba_now ba) (ba_g1 ba) (ba_g2 ba) name (ba_keys ba) (ba_vals ba);
    Done q) (Done q) bas.
Definition apply_batches (bas : list qbatch) : list qblock * versions := foldl apply_batch ([], ∅) bas.
Definition total_keys (bas : list qbatch) : nat := foldr (λ ba n, length (ba_keys ba) + n)%nat 0%nat bas.

Lemma run_from q bs S c bas : ledger_holds q bs S c → Forall batch_good bas → (c + total_keys bas <= fuel)%nat →
  ∃ q', run_batches q bas = Done q' ∧
    ledger_holds q' (foldl apply_batch (bs, S) bas).1 (foldl apply_batch (bs, S) bas).2 (c + total_keys bas).
Proof.
  revert q bs S c. induction bas as [|ba bas IH]; intros q bs S c Hl Hb Hc.
  { exists q. split; [done|]. cbn. by rewrite Nat.add_0_r. }
  apply Forall_cons in Hb as [Hba Hb]. cbn [total_keys foldr] in Hc. fold (total_keys bas) in Hc.
  destruct (ql_Set_spec q bs S c ba Hl Hba ltac:(lia)) as (q1 & Hset & Hl1).
  destruct (IH q1 _ _ _ Hl1 Hb ltac:(lia)) as (q' & Hrun & Hl'). exists q'. split.
  - unfold run_batches. cbn [foldl]. rewrite bind_Done, Hset, bind_Done. exact Hrun.
  - cbn [foldl]. rewrite <-surjective_pairing in Hl'. cbn [total_keys foldr]. fold (total_keys bas).
    by rewrite Nat.add_assoc.
Qed.

Lemma ledger_created d : (∀ k, ss_get d k = []) → ledger_holds (create_qldb d) [] ∅ 0.
Proof.
  intros Hd. assert (∀ k, get_chunk d k = None) as Hn by (intros k; unfold get_chunk; by rewrite Hd).
  split; cbn [ql_db create_qldb indexed_ history_].
  - by apply chain_empty.
  - split; cbn [ql_db create_qldb indexed_ history_].
    + split; [by intros k l ?%lookup_empty_Some|by intros k l v doc ?%lookup_empty_Some].
    + intros k. unfold versions_of. by rewrite lookup_empty.
    + destruct (tree_of_empty indexed_prefix d indexed_short (Hn _)) as [(l & m & Ht & Hl & Hm & HP)].
      split. exists l, m. split; [exact Ht|]. split; [done|]. split; [done|]. rewrite HP. unfold latest_of. by rewrite omap_empty, fmap_empty.
    + destruct (tree_of_empty history_prefix d history_short (Hn _)) as [(l & m & Ht & Hl & Hm & HP)].
      split. exists l, m. split; [exact Ht|]. split; [done|]. split; [done|]. by intros k l' v doc ?%lookup_empty_Some.
  - by intros k l v doc ?%lookup_empty_Some.
  - done.
Qed.

(** ** What the runs mean *)

(** The value that a batch gives a key: its last one. *)
Definition batch_value (key : bytes) (ba : qbatch) : option bytes :=
  last (filter (λ kv, kv.1 = key) (zip (ba_keys ba) (ba_vals ba))).*2.

Lemma record_docs_versions S docs key :
  (∀ doc, doc ∈ docs → N.to_nat (doc_version doc) = length (versions_of S (doc_key doc))) →
  versions_of (record_docs S docs) key
  = versions_of S key ++ option_list (last (filter (λ doc, doc_key doc = key) docs)).
Proof.
  clear limits. induction docs as [|doc docs IH] using rev_ind; intros Hv; [by rewrite app_nil_r|].
  unfold record_docs. rewrite foldl_app. cbn [foldl]. fold (record_docs S docs).
  rewrite versions_of_record, filter_app. destruct (decide (key = doc_key doc)) as [->|Hne].
  - rewrite filter_cons_True, last_app by done. cbn [filter last option_list].
    rewrite Hv by (apply elem_of_app; right; by left).
    rewrite IH by (intros d Hd; apply Hv, elem_of_app; by left). by rewrite take_app_length.
  - rewrite filter_cons_False by done. cbn [filter]. rewrite app_nil_r.
    apply IH. intros d Hd. apply Hv, elem_of_app. by left.
Qed.

Lemma filter_imap_docs (f : nat → bytes * bytes → Document) kvs key :
  (∀ i kv, doc_key (f i kv) = kv.1 ∧ data_val (getData (f i kv)) = kv.2) →
  (data_val ∘ getData) <$> filter (λ doc, doc_key doc = key) (imap f kvs) = (filter (λ kv, kv.1 = key) kvs).*2.
Proof.
  clear limits. revert f. induction kvs as [|kv kvs IH]; intros f Hf; [done|]. rewrite imap_cons.
  destruct (Hf 0%nat kv) as [Hk Hv]. specialize (IH (f ∘ Datatypes.S) ltac:(intros i kv'; apply Hf)).
  destruct (decide (kv.1 = key)) as [E|E].
  - rewrite filter_cons_True by (by rewrite Hk). rewrite (filter_cons_True (λ kv, kv.1 = key)) by done.
    cbn [fmap list_fmap]. f_equal; [exact Hv|exact IH].
  - rewrite filter_cons_False by (by rewrite Hk). by rewrite (filter_cons_False (λ kv, kv.1 = key)) by done.
Qed.

Lemma apply_batch_values bs S ba key :
  (data_val ∘ getData) <$> versions_of (apply_batch (bs, S) ba).2 key
  = ((data_val ∘ getData) <$> versions_of S key) ++ option_list (batch_value key ba).
Proof.
  clear limits. unfold apply_batch, batch_value. cbn [fst snd]. destruct (ba_keys ba) as [|k ks] eqn:E; [by rewrite app_nil_r|].
  cbn [snd]. rewrite record_docs_versions.
  2: { intros doc (i & kv & _ & ->)%elem_of_new_docs. cbn. lia. }
  rewrite fmap_app. f_equal. rewrite <-E, <-(filter_imap_docs (new_doc S name (N.of_nat (length bs)) (ba_now ba))) by done.
  rewrite fmap_last. unfold batch_docs, new_docs. by destruct (last _).
Qed.

(** The values of the versions of a key are those that the batches gave it, in order. *)
Lemma batches_values bas key :
  (data_val ∘ getData) <$> versions_of (apply_batches bas).2 key = omap (batch_value key) bas.
Proof.
  clear limits. unfold apply_batches. induction bas as [|ba bas IH] using rev_ind; [done|].
  rewrite foldl_app, omap_app. cbn [foldl omap list_omap]. rewrite <-IH.
  destruct (foldl apply_batch ([], ∅) bas) as [bs S]. rewrite apply_batch_values. by destruct (batch_value key ba).
Qed.

(** C6. The ledger keeps every version: after any batches on a fresh store, the
    history of a key holds the values that the batches gave the key, the newest first
    and at most one more than asked for, each as a document that reads back and is
    numbered with its version; [GetData] returns the newest value, and a key that
    no batch set is not found. *)
Theorem qldb_history d bas : (∀ k, ss_get d k = []) → Forall batch_good bas → (total_keys bas <= fuel)%nat →
  ∃ q, run_batches (create_qldb d) bas = Done q ∧ ∀ key,
    let values := omap (batch_value key) bas in
    (values = [] → ql_GetCommitted fuel q key = Done None) ∧
    ∀ value, last values = Some value → ql_GetData fuel q key = Done value ∧
      ∀ n, ∃ docs, ql_GetHistory fuel q key (N.of_nat n) = Done ((Some ∘ doc_text) <$> docs) ∧
        (data_val ∘ getData) <$> docs = take (Datatypes.S n) (reverse values) ∧
        ∀ i doc, docs !! i = Some doc → parse_document (doc_text doc) = Done doc ∧
          doc_version doc = N.of_nat (length values - 1 - i).
Proof.
  intros Hd Hb Hf.
  destruct (run_from (create_qldb d) [] ∅ 0 bas (ledger_created d Hd) Hb Hf) as (q & Hrun & [_ [Hok Hc Hi Hh] _ _]).
  exists q. split; [done|]. intros key values. fold (apply_batches bas) in *. set (S := (apply_batches bas).2) in *.
  assert ((data_val ∘ getData) <$> versions_of S key = values) as Hv by apply batches_values.
  assert (length (versions_of S key) = length values) as Hlen by (by rewrite <-Hv, length_fmap).
  split.
  - intros E. rewrite (GetCommitted_spec q (0 + total_keys bas) S) by done. do 2 f_equal.
    rewrite E in Hlen. by destruct (versions_of S key).
  - intros value Hval. rewrite <-Hv, fmap_last in Hval.
    destruct (last (versions_of S key)) as [doc|] eqn:El; [|done]. injection Hval as <-.
    assert (versions_of S key ≠ []) as Hne by (intros E; by rewrite E in El).
    split.
    + unfold ql_GetData. rewrite (GetCommitted_spec q (0 + total_keys bas) S), bind_Done, El by done.
      cbn [fmap option_fmap option_map document_of]. destruct (last_version S key doc Hok El) as (Hdok & _).
      by rewrite parse_doc, bind_Done.
    + intros n. exists (take (Datatypes.S n) (reverse (versions_of S key))).
      split; [by eapply GetHistory_spec|]. split.
      * by rewrite fmap_take, fmap_reverse, Hv.
      * intros i dc Hdc. apply lookup_take_Some in Hdc as [Hdc Hlt].
        pose proof (lookup_lt_Some _ _ _ Hdc) as Hil. rewrite length_reverse in Hil.
        rewrite reverse_lookup in Hdc by done. rewrite <-Hlen.
        unfold versions_of in *. destruct (S !! key) as [l|] eqn:E; [|done]. cbn [default] in *.
        destruct (vk_doc S Hok key l _ dc E Hdc) as (Hdok & Hver & _). split; [by apply parse_doc|].
        rewrite Hver. f_equal. lia.
Qed.

(** C5. Every document that a history returns is provable: the proof that
    [getProof] builds at the address in the document, for the tip that [digest]
    reports, carries that document and is accepted by [Verify] under the digest. *)
Theorem qldb_provable d bas : (∀ k, ss_get d k = []) → Forall batch_good bas → (total_keys bas <= fuel)%nat →
  ∃ q, run_batches (create_qldb d) bas = Done q ∧ ∀ key n texts text,
    ql_GetHistory fuel q key (N.of_nat n) = Done texts → text ∈ texts →
    ∃ m doc dg r, text = Some m ∧ parse_document m = Done doc ∧ ql_digest q name = Done dg ∧
      ql_getProof q name (QLDB.tip dg) (seq_no (getAddr doc)) (md_doc_seq (getMetaData doc)) = Done r ∧
      qp_data r = getData doc ∧ qp_addr r = getAddr doc ∧ qp_meta r = getMetaData doc ∧
      ql_Verify junk r (Some (FromBase32 junk (QLDB.digest dg))) = Done true.
Proof.
  intros Hd Hb Hf. pose proof fuel_32 as Hf32. assert ((2:N) ^ 32 < 2 ^ 64) by done.
  destruct (run_from (create_qldb d) [] ∅ 0 bas (ledger_created d Hd) Hb Hf) as (q & Hrun & Hlh).
  exists q. split; [done|]. intros key n texts text Hhist Htext. fold (apply_batches bas) in *.
  pose proof (lh_data _ _ _ _ Hlh) as [Hok Hc Hi Hh].
  set (S := (apply_batches bas).2) in *. set (bs := (apply_batches bas).1) in *.
  destruct (decide (versions_of S key = [])) as [E|Hne].
  { unfold ql_GetHistory in Hhist. rewrite (GetCommitted_spec q (0 + total_keys bas) S), bind_Done, E in Hhist by done. done. }
  rewrite (GetHistory_spec q (0 + total_keys bas) S) in Hhist by done. injection Hhist as <-.
  apply list_elem_of_fmap in Htext as (doc & -> & Hdoc).
  apply list_elem_of_lookup in Hdoc as [i Hdoc]. apply lookup_take_Some in Hdoc as [Hdoc _].
  apply list_elem_of_lookup_2 in Hdoc. rewrite elem_of_reverse in Hdoc. apply list_elem_of_lookup in Hdoc as [v Hdoc].
  unfold versions_of in Hdoc. destruct (S !! key) as [l|] eqn:E; [|done]. cbn [default] in Hdoc.
  destruct (provable_doc q bs S (0 + total_keys bas) key l v doc Hlh ltac:(lia) E Hdoc) as (r & Hdok & _ & Hdg & Hr & Hd1 & Hd2 & Hd3 & _ & HV).
  exists (doc_text doc), doc, (mkDigestInfo (N.of_nat (length bs - 1)) (ToBase32_value (root_of (hashes bs)))), r.
  split; [done|]. by rewrite parse_doc.
Qed.
End Ledger.

(** ** A small ledger: three batches, leaves of two entries *)

Definition example_batches : list qbatch :=
  [mkBatch 1 #"x" #"0123456789abcdef" [ #"a"; #"b"] [ #"1"; #"2"];
   mkBatch 2 #"y" #"0123456789abcdef" [ #"a"] [ #"3"];
   mkBatch 3 #"z" #"0123456789abcdef" [ #"c"; #"a"] [ #"4"; #"5"]].

Lemma example_limits : ledger_limits 2 2 5 80 #"t".
Proof.
  split; [split; [lia|lia|done|done]| | |].
  - by apply (bool_decide_unpack (("|"%char) ∉ #"t")).
  - intros [s E]. discriminate E.
  - intros [s E]. discriminate E.
Qed.

Lemma example_good : Forall (batch_good 80 #"t") example_batches.
Proof. repeat (constructor; [split; [done|done|repeat constructor; cbn; try lia; done|done]|]). constructor. Qed.

Lemma qldb_history_witness :
  let _ := toy_blake2b in
  let d : DB (gmap bytes bytes) (gmap bytes chunk) := mkDB ∅ ∅ ∅ in
  ∃ q docs, run_batches (λ _, "x"%char) 2 2 5 #"t" (create_qldb d) example_batches = Done q ∧
    ql_GetData 5 q #"a" = Done #"5" ∧ ql_GetCommitted 5 q #"z" = Done None ∧
    ql_GetHistory 5 q #"a" 1 = Done ((Some ∘ doc_text) <$> docs) ∧
    (data_val ∘ getData) <$> docs = [ #"5"; #"3"].
Proof.
  intros Hb d.
  destruct (qldb_history (λ _, "x"%char) 2 2 5 80 #"t" example_limits d example_batches) as (q & Hrun & Hq);
    [done|exact example_good|cbn; lia|].
  destruct (Hq #"a") as [_ Ha]. destruct (Ha #"5" eq_refl) as [Hget Hhist]. destruct (Hhist 1%nat) as (docs & HH & Hv & _).
  exists q, docs. split; [exact Hrun|]. split; [exact Hget|]. split; [by apply (Hq #"z")|]. split; [exact HH|exact Hv].
Defined.

Lemma qldb_provable_witness :
  let _ := toy_blake2b in
  let d : DB (gmap bytes bytes) (gmap bytes chunk) := mkDB ∅ ∅ ∅ in
  ∃ q texts, run_batches (λ _, "x"%char) 2 2 5 #"t" (create_qldb d) example_batches = Done q ∧
    ql_GetHistory 5 q #"a" 1 = Done texts ∧ texts ≠ [] ∧
    ∀ text, text ∈ texts → ∃ m doc dg r, text = Some m ∧ parse_document m = Done doc ∧ ql_digest q #"t" = Done dg ∧
      ql_getProof q #"t" (QLDB.tip dg) (seq_no (getAddr doc)) (md_doc_seq (getMetaData doc)) = Done r ∧
      qp_data r = getData doc ∧ ql_Verify (λ _, "x"%char) r (Some (FromBase32 (λ _, "x"%char) (QLDB.digest dg))) = Done true.
Proof.
  intros Hb d.
  destruct (qldb_provable (λ _, "x"%char) 2 2 5 80 #"t" example_limits d example_batches) as (q & Hrun & Hq);
    [done|exact example_good|cbn; lia|].
  destruct (run_from (λ _, "x"%char) 2 2 5 80 #"t" example_limits (create_qldb d) [] ∅ 0 example_batches
    ltac:(by eapply ledger_created; [exact example_limits|]) example_good ltac:(cbn; lia)) as (q' & Hrun' & [_ [Hok _ Hi Hh] _ _]).
  rewrite Hrun' in Hrun. injection Hrun as ->.
  pose proof (batches_values #"t" example_batches #"a") as Hv. unfold apply_batches in Hv.
  eexists q, _. split; [exact Hrun'|].
  assert (versions_of (foldl (apply_batch #"t") ([], ∅) example_batches).2 #"a" ≠ []) as Hne by (intros E; by rewrite E in Hv).
  split; [exact (GetHistory_spec 2 2 5 80 #"t" example_limits q (0 + total_keys example_batches) _ #"a" 1 Hi Hh ltac:(cbn; lia) Hok Hne)|].
  split.
  - intros E%fmap_nil_inv. destruct (versions_of _ _) as [|x l] using rev_ind; [done|]. by rewrite reverse_snoc in E.
  - intros text Ht.
    destruct (Hq #"a" 1%nat _ text (GetHistory_spec 2 2 5 80 #"t" example_limits q (0 + total_keys example_batches) _ #"a" 1 Hi Hh ltac:(cbn; lia) Hok Hne) Ht)
      as (m & doc & dg & r & Hm & Hp & Hdg & Hr & Hd & _ & _ & HV).
    exists m, doc, dg, r. split; [done|]. split; [done|]. split; [done|]. split; [done|]. split; [done|exact HV].
Defined.
