(* ===== verification/TxnLog.v ===== *)
(** * [ledger/common/logger.cc], [logger.h]: the transaction log of SQL Ledger

    A transaction is logged as a chunk with its keys, values, a signature, its
    time and its number.  The logger appends to two files: the log itself, and an
    index with the block and the bounds in the log of everything that was
    logged between two calls of [index].  What is read back from an index entry
    is the list of the transactions logged in between. *)

From S2P Require Import Prelude Cpp Hash Chunk.

Open Scope N_scope.

(** ** Entries *)

Record TxnEntry := mkTxnEntry {
  te_keys : list bytes;
  te_vals : list bytes;
  te_signature : bytes;
  te_time : N;
  te_txnid : N;
}.

(** The loop of [Encode] over the keys; [vals[i]] past the end is undefined. *)
Fixpoint encode_pairs (ks vs : list bytes) : outcome bytes :=
  match ks, vs with
  | [], _ => Done []
  | _ :: _, [] => Stop Undefined
  | k :: ks, v :: vs =>
      rest ← encode_pairs ks vs;
      Done (le_encode 4 (N.of_nat (length k)) ++ k ++ le_encode 4 (N.of_nat (length v)) ++ v ++ rest)
  end.

(** [TxnEntry::Encode]; when the 32-bit sum of the sizes wraps around, the chunk is
too small for what is copied into it. *)
Definition encode_txn (time : N) (keys vals : list bytes) (signature : bytes) (txnid : N) : outcome bytes :=
  pairs ← encode_pairs keys vals;
  let body := le_encode 4 (N.of_nat (length keys)) ++ pairs ++ signature ++ le_encode 8 time ++ le_encode 8 txnid in
  if N.of_nat (kMetaLength + length body) <? 2 ^ 32 then Done (make_chunk kTxnLog body) else Stop Undefined.

(** The loop of [Parse]. *)
Fixpoint parse_pairs (n : nat) (rest : bytes) : outcome (list bytes * list bytes * bytes) :=
  match n with
  | O => Done ([], [], rest)
  | S n =>
      '(keySize, rest) ← read_int 4 rest;
      '(key, rest) ← read_bytes keySize rest;
      '(valSize, rest) ← read_int 4 rest;
      '(val, rest) ← read_bytes valSize rest;
      '(ks, vs, rest) ← parse_pairs n rest;
      Done (key :: ks, val :: vs, rest)
  end.

(** [TxnEntry::Parse] *)
Definition parse_txn (m : bytes) : outcome TxnEntry :=
  '(numEntries, rest) ← read_int 4 (data m);
  '(ks, vs, rest) ← parse_pairs (N.to_nat numEntries) rest;
  '(sig, rest) ← read_bytes (N.of_nat kByteLength) rest;
  '(time, rest) ← read_int 8 rest;
  '(txnid, _) ← read_int 8 rest;
  Done (mkTxnEntry ks vs sig time txnid).

(** [TxnEntry::ParseTxnEntries] from [slice.data() + offset] on. *)
Fixpoint parse_entries_loop (fuel : nat) (rest : bytes) : outcome (list TxnEntry) :=
  match rest with
  | [] => Done []
  | _ =>
      match fuel with
      | O => Stop OutOfFuel
      | S fuel =>
          e ← parse_txn rest;
          '(n, _) ← read_int 4 rest;
          es ← parse_entries_loop fuel (drop (N.to_nat n) rest);
          Done (e :: es)
      end
  end.
Definition ParseTxnEntries (entries : bytes) : outcome (list TxnEntry) :=
  parse_entries_loop (length entries) entries.

(** ** Files *)

(** An open file: its bytes and the position of the next [write]. *)
Record file := mkFile { f_bytes : bytes; f_pos : nat }.
Definition open_file (content : bytes) : file := mkFile content 0.
Definition write (f : file) (b : bytes) : file :=
  mkFile (take (f_pos f) (f_bytes f) ++ b ++ drop (f_pos f + length b) (f_bytes f)) (f_pos f + length b).
(** [pread] into a buffer of [n] bytes that is not initialised. *)
Definition pread (f : file) (n off : N) : outcome bytes :=
  '(b, _) ← read_bytes n (drop (N.to_nat off) (f_bytes f)); Done b.

(** ** The logger *)

Record Logger := mkLogger { wal_ : file; idx_ : file; seq_ : N; start_ : N; end_ : N }.

(** [Logger::Logger]: files that exist are not truncated. *)
Definition new_logger (wal idx : bytes) : Logger := mkLogger (open_file wal) (open_file idx) 0 0 0.

(** [Logger::log], [advance], [index] and [read]. *)
Definition log (l : Logger) (data : bytes) : Logger :=
  mkLogger (write (wal_ l) data) (idx_ l) (seq_ l) (start_ l) (end_ l).
Definition advance (l : Logger) (size : N) : Logger :=
  mkLogger (wal_ l) (idx_ l) (seq_ l) (start_ l) (u64 (end_ l + size)).
Definition index_entry (seq block start fin : N) : bytes :=
  le_encode 8 seq ++ le_encode 8 block ++ le_encode 8 start ++ le_encode 8 fin.
Definition index (l : Logger) (block : N) : Logger :=
  mkLogger (wal_ l) (write (idx_ l) (index_entry (seq_ l) block (start_ l) (end_ l)))
    (u64 (seq_ l + 1)) (end_ l) (end_ l).
Definition read (l : Logger) (seq : N) : outcome (bytes * N) :=
  buffer ← pread (idx_ l) 32 (u64 (seq * 32));
  let block := le_decode (take 8 (drop 8 buffer)) in
  let walOffset := le_decode (take 8 (drop 16 buffer)) in
  let fin := le_decode (take 8 (drop 24 buffer)) in
  txns ← pread (wal_ l) (u64 (fin + 2 ^ 64 - walOffset)) walOffset;
  Done (txns, block).

(** ** Round trip of an entry *)

Record entry_ok (e : TxnEntry) : Prop := {
  eo_vals : length (te_vals e) = length (te_keys e);
  eo_signature : length (te_signature e) = kByteLength;
  eo_time : te_time e < 2 ^ 64;
  eo_txnid : te_txnid e < 2 ^ 64;
}.

Definition encode_entry (e : TxnEntry) : outcome bytes :=
  encode_txn (te_time e) (te_keys e) (te_vals e) (te_signature e) (te_txnid e).

Lemma pairs_roundtrip ks vs pairs rest : length vs = length ks → encode_pairs ks vs = Done pairs →
  N.of_nat (length pairs) < 2 ^ 32 → (length ks <= length pairs)%nat ∧ parse_pairs (length ks) (pairs ++ rest) = Done (ks, vs, rest).
Proof.
  revert vs pairs. induction ks as [|k ks IH]; intros [|v vs] pairs Hl He Hs; [|done|done|].
  { apply Done_inj in He as <-. split; [cbn; lia|done]. }
  cbn [encode_pairs] in He. apply bind_Done_inv in He as (p & Hp & <-%Done_inj).
  rewrite !length_app, !length_le_encode in *. cbn [length] in Hl.
  destruct (IH vs p ltac:(lia) Hp ltac:(lia)) as [Hn Hr]. split; [cbn [length]; lia|].
  cbn [length parse_pairs]. rewrite <-!app_assoc. rewrite read_sized, bind_Done, read_bytes_app, bind_Done by lia.
  rewrite read_sized, bind_Done, read_bytes_app, bind_Done by lia. by rewrite Hr, bind_Done.
Qed.

Lemma entry_roundtrip e m rest : entry_ok e → encode_entry e = Done m →
  parse_txn (m ++ rest) = Done e ∧ read_int 4 (m ++ rest) = Done (N.of_nat (length m), drop 4 m ++ rest) ∧
  (0 < length m)%nat ∧ N.of_nat (length m) < 2 ^ 32.
Proof.
  intros [Hv Hsig Ht Hid] He. unfold encode_entry, encode_txn in He.
  apply bind_Done_inv in He as (pairs & Hp & He). cbv zeta in He.
  set (body := le_encode 4 _ ++ _) in He. destruct (N.ltb_spec (N.of_nat (kMetaLength + length body)) (2 ^ 32)) as [Hs|]; [|done].
  apply Done_inj in He as <-. assert (length body = 40 + length pairs)%nat as Hb.
  { unfold body. rewrite !length_app, !length_le_encode, Hsig. unfold kByteLength. lia. }
  unfold kMetaLength, kChunkTypeOffset in Hs.
  assert (256 ^ N.of_nat 4 = 2 ^ 32) as E4 by done. assert (256 ^ N.of_nat 8 = 2 ^ 64) as E8 by done.
  split; [|split; [|split; rewrite length_make_chunk; unfold kMetaLength, kChunkTypeOffset; lia]].
  - destruct (pairs_roundtrip _ _ _ (te_signature e ++ le_encode 8 (te_time e) ++ le_encode 8 (te_txnid e) ++ rest)
      Hv Hp ltac:(lia)) as [Hn Hr].
    unfold parse_txn. rewrite data_make_chunk. unfold body. rewrite <-!app_assoc.
    rewrite read_int_encode, bind_Done, Nat2N.id by lia. rewrite Hr, bind_Done. rewrite <-Hsig.
    rewrite read_bytes_app, bind_Done. rewrite read_int_encode, bind_Done by lia.
    rewrite read_int_encode, bind_Done by lia. by destruct e.
  - unfold make_chunk. rewrite <-!app_assoc. rewrite read_int_encode by (unfold kMetaLength, kChunkTypeOffset; lia).
    rewrite drop_app_length' by (by rewrite length_le_encode). rewrite <-app_assoc. done.
Qed.

Lemma parse_entries_step fuel rest : rest ≠ [] →
  parse_entries_loop (S fuel) rest
  = (e ← parse_txn rest; '(n, _) ← read_int 4 rest;
     es ← parse_entries_loop fuel (drop (N.to_nat n) rest); Done (e :: es)).
Proof. by destruct rest. Qed.

Lemma entries_roundtrip es ms fuel : Forall entry_ok es → Forall2 (λ e m, encode_entry e = Done m) es ms →
  (length (mjoin ms) <= fuel)%nat → parse_entries_loop fuel (mjoin ms) = Done es.
Proof.
  intros Hok Hms. revert fuel. induction Hms as [|e m es ms He Hms IH]; intros fuel Hf; [by destruct fuel|].
  apply Forall_cons in Hok as [Hok1 Hok]. rewrite mjoin_cons in *.
  destruct (entry_roundtrip e m (mjoin ms) Hok1 He) as (Hp & Hn & Hpos & Hs). rewrite length_app in Hf.
  destruct fuel as [|fuel]; [lia|].
  rewrite parse_entries_step by (intros [-> _]%app_eq_nil; cbn in Hpos; lia).
  rewrite Hp, bind_Done, Hn, bind_Done, Nat2N.id, drop_app_length, IH by (done || lia). done.
Qed.

(** ** What was logged is read back *)

(** What was written to a file since it was opened. *)
Definition written (f : file) : bytes := take (f_pos f) (f_bytes f).
Definition file_ok (f : file) : Prop := (f_pos f <= length (f_bytes f))%nat.

Lemma write_written f b : file_ok f → written (write f b) = written f ++ b ∧ file_ok (write f b).
Proof.
  unfold file_ok, written, write. cbn. intros Hf.
  assert (length (take (f_pos f) (f_bytes f)) = f_pos f) as Hl by (rewrite length_take; lia). split.
  - rewrite app_assoc. apply take_app_length'. by rewrite length_app, Hl.
  - rewrite !length_app, Hl. lia.
Qed.

Lemma pread_written f (a b c : bytes) : file_ok f → written f = a ++ b ++ c →
  pread f (N.of_nat (length b)) (N.of_nat (length a)) = Done b.
Proof.
  intros Hf Hw. unfold pread. rewrite Nat2N.id. unfold written in Hw.
  rewrite <-(take_drop (f_pos f) (f_bytes f)), Hw, <-!app_assoc, drop_app_length. by rewrite read_bytes_app, bind_Done.
Qed.

(** Chunks that are logged one after the other, and batches of them that are
indexed under their blocks. *)
Definition log_all (l : Logger) (ms : list bytes) : Logger :=
  foldl (λ l m, advance (log l m) (N.of_nat (length m))) l ms.
Definition log_batches (l : Logger) (gs : list (N * list bytes)) : Logger :=
  foldl (λ l g, index (log_all l g.2) g.1) l gs.

Definition batch_bytes (gs : list (N * list bytes)) : bytes := gs ≫= λ g, mjoin g.2.
Definition index_bytes (gs : list (N * list bytes)) : bytes :=
  mjoin (imap (λ i g, index_entry (N.of_nat i) g.1 (N.of_nat (length (batch_bytes (take i gs))))
                        (N.of_nat (length (batch_bytes (take (S i) gs))))) gs).

(** The logger after the batches [gs] and the chunks [ms] of the next one. *)
Record logged (l : Logger) (gs : list (N * list bytes)) (ms : list bytes) : Prop := {
  lg_wal : file_ok (wal_ l) ∧ written (wal_ l) = batch_bytes gs ++ mjoin ms;
  lg_idx : file_ok (idx_ l) ∧ written (idx_ l) = index_bytes gs;
  lg_seq : seq_ l = N.of_nat (length gs);
  lg_start : start_ l = N.of_nat (length (batch_bytes gs));
  lg_end : end_ l = N.of_nat (length (batch_bytes gs ++ mjoin ms));
}.

Lemma new_logged wal idx : logged (new_logger wal idx) [] [].
Proof. split; cbn; [split; [unfold file_ok; cbn; lia|done]..|done|done|done]. Qed.

Lemma log_logged l gs ms m : logged l gs ms → N.of_nat (length (batch_bytes gs ++ mjoin (ms ++ [m]))) < 2 ^ 64 →
  logged (advance (log l m) (N.of_nat (length m))) gs (ms ++ [m]).
Proof.
  intros [[Hw1 Hw2] Hi Hs Hst He] Hb. destruct (write_written (wal_ l) m Hw1) as [Hww Hwo].
  rewrite join_snoc, app_assoc in Hb. split; cbn [advance log wal_ idx_ seq_ start_ end_]; try done.
  - split; [done|]. by rewrite Hww, Hw2, join_snoc, app_assoc.
  - rewrite He, u64_small, join_snoc, app_assoc, (length_app _ m) by (rewrite length_app in Hb; lia). lia.
Qed.

Lemma log_all_logged l gs ms ms' : logged l gs ms → N.of_nat (length (batch_bytes gs ++ mjoin (ms ++ ms'))) < 2 ^ 64 →
  logged (log_all l ms') gs (ms ++ ms').
Proof.
  revert l ms. induction ms' as [|m ms' IH]; intros l ms Hl Hb; [by rewrite app_nil_r|].
  cbn [log_all foldl]. rewrite cons_middle, app_assoc in Hb. rewrite cons_middle, app_assoc. apply IH; [|done].
  apply log_logged; [done|]. rewrite join_app in Hb. rewrite !length_app in *. lia.
Qed.

Lemma batch_bytes_app gs gs' : batch_bytes (gs ++ gs') = batch_bytes gs ++ batch_bytes gs'.
Proof. apply bind_app. Qed.

Lemma index_logged l gs ms b : logged l gs ms → N.of_nat (S (length gs)) < 2 ^ 64 →
  logged (index l b) (gs ++ [(b, ms)]) [].
Proof.
  intros [[Hw1 Hw2] [Hi1 Hi2] Hs Hst He] Hb.
  assert (batch_bytes (gs ++ [(b, ms)]) = batch_bytes gs ++ mjoin ms) as Hbb.
  { rewrite batch_bytes_app. f_equal. unfold batch_bytes. cbn. apply app_nil_r. }
  destruct (write_written (idx_ l) (index_entry (seq_ l) b (start_ l) (end_ l)) Hi1) as [Hww Hwo].
  split; cbn [index wal_ idx_ seq_ start_ end_].
  - split; [done|]. by rewrite Hw2, Hbb, app_nil_r.
  - split; [done|]. rewrite Hww, Hi2. unfold index_bytes. rewrite imap_app, join_app.
    cbn [imap]. rewrite Nat.add_0_r, take_app_length, (firstn_all2 (n := S (length gs))) by (rewrite length_app; cbn; lia).
    f_equal; [f_equal|].
    + apply imap_ext. intros i g Hg%lookup_lt_Some. cbn. by rewrite !take_app_le by lia.
    + by rewrite Hs, Hst, He, Hbb, mjoin_cons, app_nil_r.
  - rewrite Hs, u64_small, length_app by lia. cbn [length]. lia.
  - by rewrite He, Hbb.
  - by rewrite He, Hbb, app_nil_r.
Qed.

Lemma log_batches_logged l gs gs' : logged l gs [] → N.of_nat (length (batch_bytes (gs ++ gs'))) < 2 ^ 64 →
  N.of_nat (length (gs ++ gs')) < 2 ^ 64 → logged (log_batches l gs') (gs ++ gs') [].
Proof.
  revert l gs. induction gs' as [|[b ms] gs' IH]; intros l gs Hl Hb Hn; [by rewrite app_nil_r|].
  cbn [log_batches foldl fst snd]. rewrite cons_middle, app_assoc in *. apply IH; [|done|done].
  apply index_logged.
  - apply (log_all_logged l gs [] ms Hl). cbn [app]. rewrite batch_bytes_app, length_app in Hb.
    rewrite batch_bytes_app in Hb. unfold batch_bytes at 2 in Hb. cbn in Hb. rewrite app_nil_r in Hb. lia.
  - rewrite !length_app in Hn. cbn in Hn. lia.
Qed.

Lemma length_index_entry seq b s e : length (index_entry seq b s e) = 32%nat.
Proof. unfold index_entry. by rewrite !length_app, !length_le_encode. Qed.

(** An index entry sits at 32 times its number. *)
Lemma index_bytes_at gs i g : gs !! i = Some g → ∃ c,
  let entry := index_entry (N.of_nat i) g.1 (N.of_nat (length (batch_bytes (take i gs))))
                 (N.of_nat (length (batch_bytes (take (S i) gs)))) in
  ∃ a, index_bytes gs = a ++ entry ++ c ∧ length a = (32 * i)%nat.
Proof.
  intros Hg. cbv zeta. set (f := λ i (g : N * list bytes), index_entry (N.of_nat i) g.1 (N.of_nat (length (batch_bytes (take i gs))))
    (N.of_nat (length (batch_bytes (take (S i) gs))))).
  assert (imap f gs !! i = Some (f i g)) as Hf by (by rewrite list_lookup_imap, Hg).
  apply take_drop_middle in Hf. exists (mjoin (drop (S i) (imap f gs))), (mjoin (take i (imap f gs))). split.
  - change (index_bytes gs) with (mjoin (imap f gs)). by rewrite <-Hf at 1; rewrite join_app, mjoin_cons.
  - assert (∀ L : list bytes, Forall (λ e, length e = 32%nat) L → length (mjoin L) = (32 * length L)%nat) as HL.
    { induction 1 as [|e L He _ IH]; [done|]. rewrite mjoin_cons, length_app, IH, He. cbn [length]. lia. }
    rewrite HL; [rewrite length_take, length_imap; apply lookup_lt_Some in Hg; lia|].
    apply Forall_take, Forall_forall. intros e (j & x & -> & _)%elem_of_lookup_imap. apply length_index_entry.
Qed.

Lemma read_logged l gs i b ms ms' : logged l gs ms' → gs !! i = Some (b, ms) → b < 2 ^ 64 →
  N.of_nat (length (batch_bytes gs)) < 2 ^ 64 → N.of_nat (32 * length gs) < 2 ^ 64 →
  read l (N.of_nat i) = Done (mjoin ms, b).
Proof.
  intros [[Hw1 Hw2] [Hi1 Hi2] _ _ _] Hg Hb Hl Hn. pose proof (lookup_lt_Some _ _ _ Hg) as Hlt.
  destruct (index_bytes_at gs i _ Hg) as (c & a & Hix & Ha). cbv zeta in Hix. rewrite Hix in Hi2.
  set (s := N.of_nat (length (batch_bytes (take i gs)))) in *. set (e := N.of_nat (length (batch_bytes (take (S i) gs)))) in *.
  assert (batch_bytes (take (S i) gs) = batch_bytes (take i gs) ++ mjoin ms) as Hbs.
  { rewrite (take_S_r _ _ (b, ms)) by done. rewrite batch_bytes_app. f_equal. unfold batch_bytes. cbn. apply app_nil_r. }
  assert (batch_bytes gs = batch_bytes (take i gs) ++ mjoin ms ++ batch_bytes (drop (S i) gs)) as Hsplit.
  { rewrite <-(take_drop (S i) gs) at 1. by rewrite batch_bytes_app, Hbs, <-app_assoc. }
  assert (e = s + N.of_nat (length (mjoin ms))) as He by (unfold e, s; rewrite Hbs, length_app; lia).
  assert (e < 2 ^ 64) as Hes by (unfold e; rewrite Hbs, length_app; rewrite Hsplit, !length_app in Hl; lia).
  unfold read. rewrite u64_small by lia. replace (N.of_nat i * 32) with (N.of_nat (length a)) by lia.
  pose proof (pread_written (idx_ l) a _ c Hi1 Hi2) as Hp. rewrite length_index_entry in Hp.
  change (N.of_nat 32) with 32 in Hp. rewrite Hp, bind_Done. cbv zeta. unfold index_entry. cbn [fst].
  rewrite (drop_app_length' (le_encode 8 (N.of_nat i)) _ 8) by done. rewrite take_app_length' by done.
  rewrite le_decode_encode_small by done.
  rewrite (app_assoc (le_encode 8 (N.of_nat i))), (drop_app_length' _ _ 16) by done. rewrite take_app_length' by done.
  rewrite le_decode_encode_small by (change (256 ^ N.of_nat 8) with (2 ^ 64); lia).
  rewrite (app_assoc (_ ++ _)), (drop_app_length' _ _ 24) by done. rewrite take_ge by done.
  rewrite le_decode_encode_small by (change (256 ^ N.of_nat 8) with (2 ^ 64); lia).
  replace (u64 (e + 2 ^ 64 - s)) with (N.of_nat (length (mjoin ms))).
  - unfold s. rewrite Hsplit, <-!app_assoc in Hw2.
    by rewrite (pread_written (wal_ l) _ _ _ Hw1 Hw2), bind_Done.
  - unfold u64. replace (e + 2 ^ 64 - s) with (N.of_nat (length (mjoin ms)) + 1 * 2 ^ 64) by lia.
    rewrite N.Div0.mod_add, N.mod_small by lia. done.
Qed.

(** C32.  The transaction log is read back as it was written: whatever the two
    files held before, [read] of an index entry gives the block and the bytes
    that were logged between that call of [index] and the one before, and
    [ParseTxnEntries] gives the transactions in them, in order. *)
Theorem log_roundtrip wal idx (batches : list (N * list TxnEntry)) (gs : list (N * list bytes)) i b es :
  Forall (λ g, g.1 < 2 ^ 64 ∧ Forall entry_ok g.2) batches →
  Forall2 (λ g h, g.1 = h.1 ∧ Forall2 (λ e m, encode_entry e = Done m) g.2 h.2) batches gs →
  N.of_nat (length (batch_bytes gs)) < 2 ^ 64 → N.of_nat (32 * length gs) < 2 ^ 64 →
  batches !! i = Some (b, es) →
  ∃ txns, read (log_batches (new_logger wal idx) gs) (N.of_nat i) = Done (txns, b) ∧
    ParseTxnEntries txns = Done es.
Proof.
  intros Hok Hgs Hl Hn Hi. destruct (Forall2_lookup_l _ _ _ _ _ Hgs Hi) as ([b' ms] & Hg & [Hb Hms]). cbn in Hb. subst b'.
  destruct (proj1 (Forall_lookup _ _) Hok i _ Hi) as [Hb Hes]. cbn [fst snd] in *. exists (mjoin ms). split.
  - apply (read_logged _ gs _ _ _ []); [|done..]. apply (log_batches_logged _ [] gs); [apply new_logged|done|cbn [app]; lia].
  - by apply entries_roundtrip.
Qed.

Lemma log_roundtrip_witness :
  let sig := #"sixty-eight-bits-xxx" in
  let e n k := mkTxnEntry [k] [ #"v" ] sig 5 n in
  let m n k := match encode_entry (e n k) with Done m => m | Stop _ => [] end in
  let l := log_batches (new_logger #"old" []) [(0, [m 1 #"a"; m 2 #"b"]); (1, [m 3 #"c"])] in
  ∃ txns, read l 0 = Done (txns, 0) ∧ ParseTxnEntries txns = Done [e 1 #"a"; e 2 #"b"].
Proof.
  intros sig e m l.
  apply (log_roundtrip #"old" [] [(0, [e 1 #"a"; e 2 #"b"]); (1, [e 3 #"c"])]
    [(0, [m 1 #"a"; m 2 #"b"]); (1, [m 3 #"c"])] 0 0 [e 1 #"a"; e 2 #"b"]).
  - repeat (apply Forall_cons; split); try (split; [reflexivity|repeat (apply Forall_cons; split)]); try constructor; reflexivity.
  - repeat (apply Forall2_cons; split); try (split; [reflexivity|repeat (apply Forall2_cons; split)]); try constructor; reflexivity.
  - vm_compute. reflexivity.
  - vm_compute. reflexivity.
  - reflexivity.
Defined.
