(* ===== verification/SQLLedger.v ===== *)
(** * [ledger/sqlledger/sqlledger.cc], [sqlledger.h]: SQL Ledger

    A transaction is a list of documents; the transactions that [Set] collects
    between two turns of a thread become a block.  Each transaction has a Merkle
    tree over its documents, each block one over its transactions, and the blocks are
    chained by their digests.  The latest document of a key is in a B+ tree, its
    document of a block under ["<key>|<block>"], and what was set is also written
    to a log for audits. *)

From S2P Require Import Prelude Cpp Hash Chunk DB Config MerkleTree SqlMerkle LedgerTypes BTree TxnLog.

Open Scope N_scope.

(** [rocksdb::Iterator] from [Seek(start)] on: the entries from [start] in the order
of their keys. *)
Class ScanStore (D : Type) := ss_scan : D → bytes → list (bytes * bytes).

(** ** Texts *)

Definition txn_id (tid : N) : bytes := #"txn" ++ to_string tid.
Definition blk_key (seq : N) : bytes := #"blk" ++ to_string seq.
Definition hist_key (key : bytes) (seq : N) : bytes := key ++ #"|" ++ to_string seq.
Definition document (blk : N) (txnid : bytes) (i : N) (key val : bytes) (now : N) : bytes :=
  to_string blk ++ #"|" ++ txnid ++ #"|" ++ to_string i ++ #"|" ++ key ++ #"|" ++ val ++ #"|" ++ to_string now.
Definition txn_entry (txnid : bytes) (blk txn_seq : N) (txnroot level : bytes) : bytes :=
  txnid ++ #"|" ++ to_string blk ++ #"|" ++ to_string txn_seq ++ #"|" ++ txnroot ++ #"|" ++ level.
Definition block_text (prev_hash root_hash level : bytes) : bytes :=
  prev_hash ++ #"|" ++ root_hash ++ #"|" ++ level.

(** The documents of a transaction from index [i] on; [vals[i]] past the end is
undefined. *)
Fixpoint make_docs (blk : N) (txnid : bytes) (i : N) (keys vals : list bytes) (now : N) : outcome (list bytes) :=
  match keys, vals with
  | [], _ => Done []
  | _ :: _, [] => Stop Undefined
  | k :: keys, v :: vals =>
      docs ← make_docs blk txnid (i + 1) keys vals now;
      Done (document blk txnid i k v now :: docs)
  end.

(** ** Proofs and audits *)

Record DetailProof := mkDetailProof { txn_proof : SqlProof; data_proof : SqlProof }.
Record Auditor := mkAuditor { au_blks : list bytes; au_txns : bytes; au_digest : bytes; au_block_seq : N }.

Record SQLLedger (D : Type) := mkSQLLedger {
  logger_ : Logger;
  sq_db : D;
  buffer_ : gmap N (list bytes);
  block_seq_ : N;
  tid_ : N;
  indexed_ : QLBTree;
}.
Arguments mkSQLLedger {D} _ _ _ _ _ _.
Arguments logger_ {D} _.
Arguments sq_db {D} _.
Arguments buffer_ {D} _.
Arguments block_seq_ {D} _.
Arguments tid_ {D} _.
Arguments indexed_ {D} _.

Section SQLLedger.
Context `{Blake2b, StringStore D, ScanStore D} (junk : nat → ascii) (fanout leaf_fanout fuel : nat).
Implicit Types (d : D) (q : SQLLedger D).

(** [dummy_] *)
Definition dummy : bytes := ComputeFrom #"0".

(** The constructor, on a store and log files that were opened; [history_] is not used. *)
Definition new_sqlledger d (wal idx : bytes) : SQLLedger D :=
mkSQLLedger (new_logger wal idx) d ∅ 0 0 (open_tree d #"COMMITTED_").

(** *** [Set] *)

(** Under [lock_]: the number of the block, the documents, and their place in the
buffer ([emplace] keeps what is there). *)
Definition set_assign q (keys vals : list bytes) (now : N) : outcome (SQLLedger D * N * list bytes) :=
let txnid := txn_id (tid_ q) in
let next_blk_seq := block_seq_ q in
docs ← make_docs next_blk_seq txnid 0 keys vals now;
let buffer := match buffer_ q !! tid_ q with Some _ => buffer_ q | None => <[tid_ q := docs]> (buffer_ q) end in
Done (mkSQLLedger (logger_ q) (sq_db q) buffer (block_seq_ q) (tid_ q) (indexed_ q), next_blk_seq, docs).

(** Outside of it: the history, the index and the log. *)
Definition set_store q (keys vals docs : list bytes) (next_blk_seq now : N) : outcome (SQLLedger D * bytes) :=
let d := ss_puts (sq_db q) ((λ kd, (hist_key kd.1 next_blk_seq, kd.2)) <$> zip keys docs) in
'(indexed, d, _) ← bt_Set fanout leaf_fanout fuel (indexed_ q) d keys docs;
txn_chunk ← encode_txn now keys vals dummy (u64 (tid_ q + 2 ^ 64 - 1));
Done (mkSQLLedger (log (logger_ q) (take (N.to_nat (numBytes txn_chunk)) txn_chunk)) d (buffer_ q)
        (block_seq_ q) (tid_ q) indexed, txn_chunk).

(** Under [lock_] again, and the next number. *)
Definition set_advance q (txn_chunk : bytes) : SQLLedger D :=
mkSQLLedger (advance (logger_ q) (numBytes txn_chunk)) (sq_db q) (buffer_ q) (block_seq_ q) (u64 (tid_ q + 1)) (indexed_ q).

Definition sq_Set q (keys vals : list bytes) (now : N) : outcome (SQLLedger D * N) :=
'(q, next_blk_seq, docs) ← set_assign q keys vals now;
'(q, txn_chunk) ← set_store q keys vals docs next_blk_seq now;
Done (set_advance q txn_chunk, next_blk_seq).

(** *** [updateLedger] *)

(** The outputs of [Build], which stay empty when there is no leaf. *)
Definition build d (mtid : bytes) (leaves : list bytes) : outcome (D * bytes * bytes) :=
'(d, res) ← Build d mtid leaves;
match res with
| Some (level, root) => Done (d, level, root)
| None => Done (d, [], [])
end.

(** The loop over the transactions, from [txn_seq] on. *)
Fixpoint build_txns d (blk txn_seq : N) (txns : list (N * list bytes)) : outcome (D * list bytes) :=
match txns with
| [] => Done (d, [])
| (tid, docs) :: txns =>
    let txnid := txn_id tid in
    '(d, level, txnroot) ← build d txnid docs;
    let entry := txn_entry txnid blk txn_seq txnroot level in
    '(d, leaves) ← build_txns (ss_put d txnid entry) blk (txn_seq + 1) txns;
    Done (d, entry :: leaves)
end.

(** One iteration of [updateLedger]. *)
Definition update_iteration q : outcome (SQLLedger D) :=
if decide (buffer_ q = ∅) then Done q
else
  let new_blk_seq := block_seq_ q in
  let logger := index (logger_ q) new_blk_seq in
  '(d, leaves) ← build_txns (sq_db q) new_blk_seq 0 (nmap_entries (buffer_ q));
  let block_key := blk_key new_blk_seq in
  '(d, level, root_hash) ← build d block_key leaves;
  prev_hash ← item (splitBy (ss_get d #"digest") "|") 0;
  let newblock := block_text prev_hash root_hash level in
  let newhash := ToBase32 (Some (ComputeFrom newblock)) in
  let d := ss_put d block_key newblock in
  let d := ss_put d #"digest" (newhash ++ #"|" ++ to_string new_blk_seq) in
  Done (mkSQLLedger logger d ∅ (u64 (new_blk_seq + 1)) (tid_ q) (indexed_ q)).

(** *** Reads *)

Definition sq_GetDigest q : outcome (N * bytes) :=
let res := splitBy (ss_get (sq_db q) #"digest") "|" in
hash ← item res 0;
s ← item res 1;
tip ← stoul s;
Done (tip, hash).

(** A null [Slice] is the empty string. *)
Definition sq_GetCommitted q (key : bytes) : outcome bytes :=
result ← bt_Get fuel (indexed_ q) (sq_db q) key;
Done (default [] result).

Definition sq_GetDataAtBlock q (key : bytes) (block_seq : N) : bytes := ss_get (sq_db q) (hist_key key block_seq).

Definition sq_Range q (from to : bytes) : outcome (gmap bytes bytes) := bt_Range fuel (indexed_ q) (sq_db q) from to.

(** The loop of [GetHistory], with [cnt] values found; [n] is not 0. *)
Fixpoint history_values (prefix : bytes) (cnt n : N) (entries : list (bytes * bytes)) : list bytes :=
match entries with
| [] => []
| (k, v) :: entries =>
    if decide (take (length prefix) k = prefix) then
      let cnt := cnt + 1 in
      v :: if n <=? cnt then [] else history_values prefix cnt n entries
    else []
end.
Definition sq_GetHistory q (key : bytes) (n : N) : list bytes :=
if n =? 0 then []
else history_values (key ++ #"|") 0 n (ss_scan (sq_db q) (key ++ #"|")).

(** *** Proofs *)

(** The loops over the blocks, [n] more from block [i]. *)
Fixpoint get_blocks d (n : nat) (i : N) : list bytes :=
match n with
| O => []
| S n => ss_get d (blk_key i) :: get_blocks d n (i + 1)
end.

(** The level in the text of a block, as an [int]. *)
Definition block_level (block : bytes) : outcome Z :=
s ← item (splitBy block "|") 2;
l ← stoul s;
Done (int_of_ulong l).

(** [getBlockProof]; [level] is not written when there is no block. *)
Definition getBlockProof q (block_addr tip : N) : outcome (list bytes * option Z) :=
let blks := get_blocks (sq_db q) (N.to_nat (tip + 1 - block_addr)) block_addr in
match blks with
| [] => Done ([], None)
| block :: _ => level ← block_level block; Done (blks, Some level)
end.

(** [getDetailProof]: [txnid] already starts with ["txn"]. *)
Definition getDetailProof q (key : bytes) (block_addr : N) (level : Z) : outcome DetailProof :=
let doc := sq_GetDataAtBlock q key block_addr in
let docitems := splitBy doc "|" in
txnid ← item docitems 1;
s ← item docitems 2; docseq ← stoul s;
let txn := ss_get (sq_db q) txnid in
let txnitems := splitBy txn "|" in
s ← item txnitems 2; txnseq ← stoul s;
txnroot ← item txnitems 3;
s ← item txnitems 4; txnrootlevel ← stoul s;
let tp := GetProof (sq_db q) (blk_key block_addr) level txnseq in
let dp := GetProof (sq_db q) (#"txn" ++ txnid) (int_of_ulong txnrootlevel) docseq in
Done (mkDetailProof (mkSqlProof (sp_digest tp) txn (sp_proof tp) (sp_pos tp))
        (mkSqlProof (sp_digest dp) doc (sp_proof dp) (sp_pos dp))).

(** The loop of [BlockProof::Verify] over the blocks from the last one on. *)
Fixpoint verify_blocks (rblks : list bytes) (target root : bytes) : outcome (bool * bytes) :=
match rblks with
| [] => Done (true, root)
| blk :: rblks =>
    if decide (ToBase32 (Some (ComputeFrom blk)) = target) then
      let block_info := splitBy blk "|" in
      target ← item block_info 0;
      root ← item block_info 1;
      verify_blocks rblks target root
    else Done (false, root)
end.
(** [BlockProof::Verify], and what it leaves in [*blk_mt_root]. *)
Definition BlockProof_Verify (blks : list bytes) (hash root : bytes) : outcome (bool * bytes) :=
verify_blocks (reverse blks) hash root.

(** [DetailProof::Verify] *)
Definition DetailProof_Verify (p : DetailProof) (hash : bytes) : outcome bool :=
if decide (hash = sp_digest (txn_proof p)) then
  ok ← sql_Verify junk (txn_proof p);
  if (ok : bool) then
    txn_mt_root ← item (splitBy (sp_value (txn_proof p)) "|") 3;
    if decide (txn_mt_root = sp_digest (txn_proof p)) then sql_Verify junk (data_proof p)
    else Done false
  else Done false
else Done false.

(** *** Audits *)

(** [getAudit]: the tip is an [int] that is compared with a [size_t]. *)
Definition getAudit q (seq : N) : outcome Auditor :=
'(txns, block_addr) ← read (logger_ q) seq;
let digest := splitBy (ss_get (sq_db q) #"digest") "|" in
hash ← item digest 0;
s ← item digest 1; t ← stoul s;
let tip := Z.to_N (int_of_ulong t mod 2 ^ 64) in
let blks := get_blocks (sq_db q) (N.to_nat (tip + 1 - block_addr)) block_addr in
_ ← match blks with
    | [] => Done tt
    | block :: _ =>
        _ ← block_level block;
        _ ← item (splitBy block "|") 1;
        Done tt
    end;
Done (mkAuditor blks txns hash block_addr).

(** The inner loop of [Audit], from index [i] on. *)
Fixpoint audit_docs (blk : N) (txnid : bytes) (i : N) (keys vals : list bytes) (time : N) : list bytes :=
match keys, vals with
| k :: keys, v :: vals => document blk txnid i k v time :: audit_docs blk txnid (i + 1) keys vals time
| _, _ => []
end.
(** The loop over the entries, from [j] on. *)
Fixpoint audit_txns d (blk j : N) (entries : list TxnEntry) : outcome (D * list bytes) :=
match entries with
| [] => Done (d, [])
| e :: entries =>
    let txnid := txn_id (te_txnid e) in
    '(d, level, txnroot) ← build d txnid (audit_docs blk txnid 0 (te_keys e) (te_vals e) (te_time e));
    '(d, buffer) ← audit_txns d blk (j + 1) entries;
    Done (d, txn_entry txnid blk j txnroot level :: buffer)
end.
(** [Auditor::Audit]: the result, the store its trees are built in, and [*ntxn]. *)
Definition sq_Audit (a : Auditor) d : outcome (bool * D * option N) :=
'(ok, blk_mt_root) ← verify_blocks (reverse (au_blks a)) (au_digest a) [];
if negb (ok : bool) then Done (false, d, None)
else
  entries ← ParseTxnEntries (au_txns a);
  '(d, buffer) ← audit_txns d (au_block_seq a) 0 entries;
  '(d, _, root_hash) ← build d (blk_key (au_block_seq a)) buffer;
  Done (bool_decide (root_hash = blk_mt_root), d, Some (N.of_nat (length entries))).
End SQLLedger.
