(* ===== verification/SQLSpec.v ===== *)
(** * What SQL Ledger proves and returns

    The ledger is a list of blocks of transactions, with the transactions that
    wait for the next block.  The store holds the text and the tree of every block
    and every transaction; a block proof is a chain of texts, a transaction's proof a
    path in the tree of its block.  Reads return the last documents. *)

From S2P Require Import Prelude Cpp Hash Chunk DB Config LedgerTypes BTreeNode BTree BTreeSpec BTreeReads BTreeMap.
From S2P Require Import MerkleSpec MerkleTree SqlMerkle TxnLog SQLLedger.

Open Scope N_scope.

(** ** Keys *)

Abbreviation txn := (N * list bytes)%type.

Lemma no_bar_blk b : no_bar (blk_key b).
Proof. unfold no_bar, blk_key. rewrite elem_of_app. intros [E|E]; [by apply (bool_decide_unpack (("|"%char) ∉ #"blk")) in E|by apply (to_string_no "|" b)]. Qed.
Lemma no_bar_txn t : no_bar (txn_id t).
Proof. unfold no_bar, txn_id. rewrite elem_of_app. intros [E|E]; [by apply (bool_decide_unpack (("|"%char) ∉ #"txn")) in E|by apply (to_string_no "|" t)]. Qed.
Lemma no_bar_digest : no_bar #"digest".
Proof. by apply (bool_decide_unpack (("|"%char) ∉ #"digest")). Qed.
#[local] Hint Resolve no_bar_blk no_bar_txn no_bar_digest : core.

Lemma blk_key_inj b b' : blk_key b = blk_key b' → b = b'.
Proof. intros E. apply (app_inv_head #"blk"), to_string_inj in E. done. Qed.
Lemma txn_id_inj t t' : txn_id t = txn_id t' → t = t'.
Proof. intros E. apply (app_inv_head #"txn"), to_string_inj in E. done. Qed.

Lemma with_bar (a x : bytes) : ("|"%char) ∈ a ++ "|"%char :: x.
Proof. apply elem_of_app. right. by left. Qed.
Lemma node_with_bar mtid l i : ("|"%char) ∈ sql_node mtid l i.
Proof. apply with_bar. Qed.
Lemma node_name mtid mtid' l i l' i' : no_bar mtid → no_bar mtid' → sql_node mtid l i = sql_node mtid' l' i' → mtid = mtid'.
Proof. unfold sql_node, sql_key. intros H1 H2 E. by apply app_sep_inj in E as [? _]. Qed.

(** A key of a user: one whose entries are not taken for other entries. *)
Definition plain_key (k : bytes) : Prop := no_bar k ∧ ¬ prefixed #"COMMITTED_" k.

Lemma hist_with_bar k b : ("|"%char) ∈ hist_key k b.
Proof. apply with_bar. Qed.
Lemma hist_key_inj k b k' b' : no_bar k → no_bar k' → hist_key k b = hist_key k' b' → k = k' ∧ b = b'.
Proof. unfold hist_key. intros H1 H2 E. apply app_sep_inj in E as [? E]; [|done..]. by apply to_string_inj in E. Qed.
Lemma hist_not_node k b mtid l i : no_bar k → no_bar mtid → hist_key k b ≠ sql_node mtid l i.
Proof.
  unfold hist_key, sql_node, sql_key. intros Hk Hm E. apply app_sep_inj in E as [_ E]; [|done..].
  apply (to_string_no "|" b); [done|]. rewrite E. apply with_bar.
Qed.

(** The keys of the chain of blocks. *)
Inductive chain_key : bytes → Prop :=
  | ck_digest : chain_key #"digest"
  | ck_blk b : chain_key (blk_key b)
  | ck_txn t : chain_key (txn_id t)
  | ck_blk_node b l i : chain_key (sql_node (blk_key b) l i)
  | ck_txn_node t l i : chain_key (sql_node (txn_id t) l i).

Lemma hist_not_chain k b : plain_key k → ¬ chain_key (hist_key k b).
Proof.
  intros [Hk _] Hc. pose proof (hist_with_bar k b) as Hb.
  remember (hist_key k b) as h eqn:E. destruct Hc as [|b'|t|b' l i|t l i].
  - exact (no_bar_digest Hb).
  - exact (no_bar_blk b' Hb).
  - exact (no_bar_txn t Hb).
  - symmetry in E. by apply hist_not_node in E.
  - symmetry in E. by apply hist_not_node in E.
Qed.
Lemma chain_not_tree k : chain_key k → ¬ prefixed #"COMMITTED_" k.
Proof. intros Hc [s E]. destruct Hc; unfold sql_node, sql_key, blk_key, txn_id in E; discriminate E. Qed.
Lemma hist_not_tree k b : plain_key k → ¬ prefixed #"COMMITTED_" (hist_key k b).
Proof.
  intros [_ Hk] [s E]. apply Hk. eapply prefix_before_bar; [|exact E].
  by apply (bool_decide_unpack (("|"%char) ∉ #"COMMITTED_")).
Qed.

(** ** The chain *)

Section Chain.
Context `{Blake2b}.
Local Open Scope nat_scope.

Definition root_hash (leaves : list bytes) : bytes :=
  default [] (head (level (leaf_hashes leaves) (height (length (leaf_hashes leaves))))).
Definition root_of (leaves : list bytes) : bytes := ToBase32_value (root_hash leaves).
Definition level_of (leaves : list bytes) : nat := height (length (leaf_hashes leaves)).
Definition level_text (leaves : list bytes) : bytes := to_string (N.of_nat (level_of leaves)).

Definition entry_of (b s : nat) (x : txn) : bytes :=
  txn_entry (txn_id x.1) (N.of_nat b) (N.of_nat s) (root_of x.2) (level_text x.2).
Definition entries_from (b s : nat) (txs : list txn) : list bytes := imap (λ i, entry_of b (s + i)) txs.
Definition entries_of (b : nat) (txs : list txn) : list bytes := entries_from b 0 txs.

Definition text_of (prev : bytes) (b : nat) (txs : list txn) : bytes :=
  block_text prev (root_of (entries_of b txs)) (level_text (entries_of b txs)).
Definition text_hash (text : bytes) : bytes := ToBase32_value (ComputeFrom text).
Definition chain_step (s : bytes * nat) (txs : list txn) : bytes * nat :=
  (text_hash (text_of s.1 s.2 txs), S s.2).
Definition chain_hash (blocks : list (list txn)) : bytes := (foldl chain_step ([], 0) blocks).1.
Definition block_at (blocks : list (list txn)) (b : nat) (txs : list txn) : bytes :=
  text_of (chain_hash (take b blocks)) b txs.

Lemma chain_length blocks s : (foldl chain_step s blocks).2 = s.2 + length blocks.
Proof. revert s. induction blocks as [|x bs IH]; intros s; [cbn; lia|]. cbn [foldl length]. rewrite IH. cbn. lia. Qed.

Lemma chain_hash_snoc blocks txs :
  chain_hash (blocks ++ [txs]) = text_hash (text_of (chain_hash blocks) (length blocks) txs).
Proof. unfold chain_hash. rewrite foldl_snoc. cbn. by rewrite chain_length. Qed.

Lemma block_at_hash blocks b txs : blocks !! b = Some txs →
  text_hash (block_at blocks b txs) = chain_hash (take (S b) blocks).
Proof.
  intros Hb. rewrite (take_S_r _ _ txs), chain_hash_snoc by done. unfold block_at.
  rewrite length_take. do 2 f_equal. apply lookup_lt_Some in Hb. lia.
Qed.

Lemma block_at_app blocks more b txs : b < length blocks → block_at (blocks ++ more) b txs = block_at blocks b txs.
Proof. intros Hb. unfold block_at. by rewrite take_app_le by lia. Qed.

Lemma root_hash_level leaves : leaves ≠ [] →
  level (leaf_hashes leaves) (level_of leaves) = [root_hash leaves].
Proof.
  intros Hne. destruct (level_root (leaf_hashes leaves)) as [r Hr]; [by destruct leaves|].
  unfold root_hash, level_of. by rewrite Hr.
Qed.

Lemma root_of_no_bar leaves : leaves ≠ [] → no_bar (root_of leaves).
Proof. intros Hne. apply ToBase32_no_bar. eapply level_root_length; [apply leaf_hashes_ok|by apply root_hash_level]. Qed.
Lemma text_hash_no_bar text : no_bar (text_hash text).
Proof. apply ToBase32_no_bar, length_ComputeFrom. Qed.
Lemma chain_hash_no_bar blocks : no_bar (chain_hash blocks).
Proof.
  destruct blocks as [|blocks txs _] using rev_ind; [by intros ?%elem_of_nil|].
  rewrite chain_hash_snoc. apply text_hash_no_bar.
Qed.
End Chain.

Section Store.
Context `{Blake2b, StringStoreLaws D}.
Implicit Types d : D.
Local Open Scope nat_scope.

Definition unused d (mtid : bytes) : Prop := ∀ l i, ss_get d (sql_node mtid l i) = [].

Lemma build_any d mtid leaves : leaves ≠ [] → ∃ d', build d mtid leaves = Done (d', level_text leaves, root_of leaves).
Proof.
  intros Hne. destruct (Build_writes d mtid leaves Hne) as (root & Hroot & HB). eexists. unfold build. rewrite HB, bind_Done.
  unfold root_of, root_hash. by rewrite Hroot.
Qed.

Lemma build_unused d mtid leaves : leaves ≠ [] → unused d mtid →
  ∃ d', build d mtid leaves = Done (d', level_text leaves, root_of leaves) ∧
    sql_built d' mtid (leaf_hashes leaves) ∧ ∀ k, (∀ l i, k ≠ sql_node mtid l i) → ss_get d' k = ss_get d k.
Proof.
  intros Hne Hf. destruct (Build_built d mtid leaves Hne Hf) as (d' & root & HB & Hroot & Hb & Hfr).
  exists d'. split; [|done]. unfold build. rewrite HB, bind_Done. unfold root_of, root_hash. by rewrite Hroot.
Qed.

Lemma sql_built_same d d' mtid L : (∀ l i, ss_get d' (sql_node mtid l i) = ss_get d (sql_node mtid l i)) →
  sql_built d mtid L → sql_built d' mtid L.
Proof. intros E Hb l i Hl. rewrite E. by apply Hb. Qed.

(** The key [k] does not belong to the transaction [t]. *)
Definition apart (k : bytes) (t : N) : Prop := k ≠ txn_id t ∧ ∀ l i, k ≠ sql_node (txn_id t) l i.

Lemma apart_txn t t' : t ≠ t' → apart (txn_id t) t' ∧ ∀ l i, apart (sql_node (txn_id t) l i) t'.
Proof.
  intros Hne. split; [split|intros l i; split].
  - intros E%txn_id_inj. done.
  - intros l i E. apply (no_bar_txn t). rewrite E. apply node_with_bar.
  - intros E. apply (no_bar_txn t'). rewrite <-E. apply node_with_bar.
  - intros l' i' E. apply node_name in E; [|auto..]. by apply txn_id_inj in E.
Qed.

Lemma build_txns_spec d b s (txs : list txn) :
  NoDup txs.*1 → Forall (λ x, x.2 ≠ []) txs → (∀ t, t ∈ txs.*1 → unused d (txn_id t)) →
  ∃ d', build_txns d (N.of_nat b) (N.of_nat s) txs = Done (d', entries_from b s txs) ∧
    (∀ i t docs, txs !! i = Some (t, docs) →
       ss_get d' (txn_id t) = entry_of b (s + i) (t, docs) ∧ sql_built d' (txn_id t) (leaf_hashes docs)) ∧
    (∀ k, (∀ t, t ∈ txs.*1 → apart k t) → ss_get d' k = ss_get d k).
Proof.
  revert d s. induction txs as [|[t docs] txs IH]; intros d s Hnd Hdocs Hun.
  { exists d. split; [done|]. split; [by intros [|]|done]. }
  cbn [fmap list_fmap fst] in *. apply NoDup_cons in Hnd as [Hni Hnd]. apply Forall_cons in Hdocs as [Hd Hdocs]. cbn in Hd.
  destruct (build_unused d (txn_id t) docs Hd (Hun t ltac:(by left))) as (d1 & Hb1 & Hbt & Hf1).
  set (d2 := ss_put d1 (txn_id t) (entry_of b s (t, docs))).
  assert (∀ k, apart k t → ss_get d2 k = ss_get d k) as Hf2.
  { intros k [Hk1 Hk2]. unfold d2. rewrite ss_get_put_ne by congruence. by apply Hf1. }
  assert (∀ l i, ss_get d2 (sql_node (txn_id t) l i) = ss_get d1 (sql_node (txn_id t) l i)) as Hn2.
  { intros l i. unfold d2. apply ss_get_put_ne. intros E. apply (no_bar_txn t). rewrite E. apply node_with_bar. }
  destruct (IH d2 (S s) Hnd Hdocs) as (d' & Hb & Hin & Hf).
  { intros t' Ht' l i. rewrite Hf2; [apply Hun; by right|]. apply apart_txn. by intros ->. }
  assert (∀ t', t' ∈ txs.*1 → t ≠ t') as Hne by (intros t' Ht' ->; done).
  exists d'. split; [|split].
  - cbn [build_txns]. rewrite Hb1, bind_Done. cbv zeta. replace (N.of_nat s + 1)%N with (N.of_nat (S s)) by lia.
    change (txn_entry (txn_id t) (N.of_nat b) (N.of_nat s) (root_of docs) (level_text docs)) with (entry_of b s (t, docs)).
    fold d2. rewrite Hb, bind_Done. do 2 f_equal. unfold entries_from. cbn [imap]. rewrite Nat.add_0_r. f_equal.
    apply imap_ext. intros i x _. unfold compose. by rewrite Nat.add_succ_r.
  - intros [|i] t' docs' Hi.
    + cbn in Hi. injection Hi as <- <-. rewrite Nat.add_0_r, Hf by (intros t' Ht'; apply apart_txn; by apply Hne). split.
      * unfold d2. apply ss_get_put.
      * apply (sql_built_same d1); [|done]. intros l j. rewrite Hf; [apply Hn2|].
        intros t' Ht'. apply apart_txn. by apply Hne.
    + rewrite Nat.add_succ_r. cbn in Hi. by apply Hin.
  - intros k Hk. rewrite Hf, Hf2; [done| |]; intros; apply Hk; [by left|by right].
Qed.

(** ** The chain in the store *)

Definition digest_text (blocks : list (list txn)) : bytes :=
  match length blocks with
  | O => []
  | S n => chain_hash blocks ++ #"|" ++ to_string (N.of_nat n)
  end.

Record chain_holds d (blocks : list (list txn)) : Prop := {
  ch_digest : ss_get d #"digest" = digest_text blocks;
  ch_block : ∀ b txs, blocks !! b = Some txs →
    txs ≠ [] ∧ ss_get d (blk_key (N.of_nat b)) = block_at blocks b txs ∧
    sql_built d (blk_key (N.of_nat b)) (leaf_hashes (entries_of b txs));
  ch_txn : ∀ b txs s t docs, blocks !! b = Some txs → txs !! s = Some (t, docs) →
    docs ≠ [] ∧ ss_get d (txn_id t) = entry_of b s (t, docs) ∧ sql_built d (txn_id t) (leaf_hashes docs);
  ch_unused_blk : ∀ b, length blocks ≤ b → unused d (blk_key (N.of_nat b));
  ch_unused_txn : ∀ t, t ∉ (mjoin blocks).*1 → unused d (txn_id t);
}.

Lemma chain_holds_same d d' blocks : (∀ k, chain_key k → ss_get d' k = ss_get d k) → chain_holds d blocks → chain_holds d' blocks.
Proof.
  intros E [Hd Hb Ht Hub Hut]. split.
  - rewrite E by constructor. done.
  - intros b txs Hbl. destruct (Hb b txs Hbl) as (? & ? & ?). rewrite E by constructor. split; [done|]. split; [done|].
    eapply sql_built_same; [|done]. intros l i. apply E. constructor.
  - intros b txs s t docs Hbl Hs. destruct (Ht b txs s t docs Hbl Hs) as (? & ? & ?). rewrite E by constructor.
    split; [done|]. split; [done|]. eapply sql_built_same; [|done]. intros l i. apply E. constructor.
  - intros b Hbl l i. rewrite E by constructor. by apply Hub.
  - intros t Hbl l i. rewrite E by constructor. by apply Hut.
Qed.

Lemma entries_nonnil b txs : txs ≠ [] → entries_of b txs ≠ [].
Proof. by destruct txs. Qed.

Lemma digest_prev d blocks : chain_holds d blocks → item (splitBy (ss_get d #"digest") "|") 0 = Done (chain_hash blocks).
Proof.
  intros Hc. rewrite (ch_digest _ _ Hc). unfold digest_text. destruct (length blocks) eqn:El.
  - by destruct blocks.
  - change (#"|" ++ to_string (N.of_nat n)) with ("|"%char :: to_string (N.of_nat n)).
    rewrite splitBy_app by apply chain_hash_no_bar. done.
Qed.

Lemma entries_lookup b s txs i x : txs !! i = Some x → entries_from b s txs !! i = Some (entry_of b (s + i) x).
Proof. intros Hx. unfold entries_from. by rewrite list_lookup_imap, Hx. Qed.

(** The writes of the next block leave the blocks before it alone. *)
Record extends d blocks (txs : list txn) d3 : Prop := {
  ex_digest : ss_get d3 #"digest" = digest_text (blocks ++ [txs]);
  ex_block : ss_get d3 (blk_key (N.of_nat (length blocks))) = block_at (blocks ++ [txs]) (length blocks) txs;
  ex_built : sql_built d3 (blk_key (N.of_nat (length blocks))) (leaf_hashes (entries_of (length blocks) txs));
  ex_txn : ∀ s t docs, txs !! s = Some (t, docs) →
    ss_get d3 (txn_id t) = entry_of (length blocks) s (t, docs) ∧ sql_built d3 (txn_id t) (leaf_hashes docs);
  ex_rest : ∀ k, k ≠ #"digest" → k ≠ blk_key (N.of_nat (length blocks)) →
    (∀ l i, k ≠ sql_node (blk_key (N.of_nat (length blocks))) l i) → (∀ t, t ∈ txs.*1 → apart k t) →
    ss_get d3 k = ss_get d k;
}.

Lemma extends_chain d blocks (txs : list txn) d3 : chain_holds d blocks → txs ≠ [] → Forall (λ x, x.2 ≠ []) txs →
  (∀ t, t ∈ txs.*1 → t ∉ (mjoin blocks).*1) → extends d blocks txs d3 →
  chain_holds d3 (blocks ++ [txs]) ∧ ∀ k, ¬ chain_key k → ss_get d3 k = ss_get d k.
Proof.
  intros Hc Hne Hdocs Hnew [Hd Hbl Hbt Htx Hrest].
  assert (∀ b, b ≠ length blocks → ss_get d3 (blk_key (N.of_nat b)) = ss_get d (blk_key (N.of_nat b)) ∧
    ∀ l i, ss_get d3 (sql_node (blk_key (N.of_nat b)) l i) = ss_get d (sql_node (blk_key (N.of_nat b)) l i)) as Hob.
  { intros b Hb. split; [|intros l i]; apply Hrest; try (by intros E; discriminate E).
    - intros E%blk_key_inj. lia.
    - intros l i E. apply (no_bar_blk (N.of_nat b)). rewrite E. apply node_with_bar.
    - intros t _. split; [intros E; discriminate E|intros l i E; discriminate E].
    - intros E. apply (no_bar_blk (N.of_nat (length blocks))). rewrite <-E. apply node_with_bar.
    - intros l' i' E. apply node_name in E; [|auto..]. apply blk_key_inj in E. lia.
    - intros t _. split; [intros E; discriminate E|intros l' i' E; discriminate E]. }
  assert (∀ t, t ∉ txs.*1 → ss_get d3 (txn_id t) = ss_get d (txn_id t) ∧
    ∀ l i, ss_get d3 (sql_node (txn_id t) l i) = ss_get d (sql_node (txn_id t) l i)) as Hot.
  { intros t Ht. assert (∀ t', t' ∈ txs.*1 → t ≠ t') as Hne' by (by intros t' Ht' ->).
    split; [|intros l i]; apply Hrest; try (by intros E; discriminate E); try (by intros l' i' E; discriminate E);
      intros t' Ht'; by apply apart_txn, Hne'. }
  split; [split|].
  - exact Hd.
  - intros b txs' [Hb|[Hb Hx]]%lookup_app_Some.
    + destruct (ch_block _ _ Hc b txs' Hb) as (? & Hg & Hs). apply lookup_lt_Some in Hb.
      destruct (Hob b ltac:(lia)) as [E1 E2]. split; [done|]. rewrite E1, block_at_app by done.
      split; [done|]. by apply (sql_built_same d).
    + apply list_lookup_singleton_Some in Hx as [Hx <-]. replace b with (length blocks) by lia. done.
  - intros b txs' s t docs [Hb|[Hb Hx]]%lookup_app_Some Hs.
    + destruct (ch_txn _ _ Hc b txs' s t docs Hb Hs) as (? & ? & ?). destruct (Hot t) as [E1 E2].
      { intros Ht. apply (Hnew t Ht). apply list_elem_of_fmap. exists (t, docs). split; [done|].
        apply list_elem_of_join. exists txs'. split; [by eapply list_elem_of_lookup_2|by eapply list_elem_of_lookup_2]. }
      rewrite E1. split; [done|]. split; [done|]. by apply (sql_built_same d).
    + apply list_lookup_singleton_Some in Hx as [Hx <-]. replace b with (length blocks) by lia.
      destruct (Htx s t docs Hs) as [? ?]. split; [|done]. by apply (proj1 (Forall_lookup _ _) Hdocs s (t, docs)).
  - intros b Hb l i. rewrite length_app in Hb. cbn in Hb. destruct (Hob b ltac:(lia)) as [_ E]. rewrite E.
    apply (ch_unused_blk _ _ Hc). lia.
  - intros t Ht l i. rewrite join_snoc, fmap_app, not_elem_of_app in Ht. destruct Ht as [Ht1 Ht2].
    destruct (Hot t Ht2) as [_ E]. rewrite E. by apply (ch_unused_txn _ _ Hc).
  - intros k Hk. apply Hrest.
    + intros ->. by apply Hk, ck_digest.
    + intros ->. by apply Hk, ck_blk.
    + intros l i ->. by apply Hk, ck_blk_node.
    + intros t _. split; [intros ->; by apply Hk, ck_txn|intros l i ->; by apply Hk, ck_txn_node].
Qed.

Lemma build_block d blocks (txs : list txn) : chain_holds d blocks → txs ≠ [] → NoDup txs.*1 →
  Forall (λ x, x.2 ≠ []) txs → (∀ t, t ∈ txs.*1 → t ∉ (mjoin blocks).*1) →
  let b := length blocks in
  ∃ d1 d2, build_txns d (N.of_nat b) 0 txs = Done (d1, entries_of b txs) ∧
    build d1 (blk_key (N.of_nat b)) (entries_of b txs) = Done (d2, level_text (entries_of b txs), root_of (entries_of b txs)) ∧
    ss_get d2 #"digest" = ss_get d #"digest" ∧
    let text := text_of (chain_hash blocks) b txs in
    extends d blocks txs (ss_put (ss_put d2 (blk_key (N.of_nat b)) text) #"digest" (text_hash text ++ #"|" ++ to_string (N.of_nat b))).
Proof.
  intros Hc Hne Hnd Hdocs Hnew b.
  destruct (build_txns_spec d b 0 txs Hnd Hdocs) as (d1 & Hb1 & Hin1 & Hf1).
  { intros t Ht. by apply (ch_unused_txn _ _ Hc), Hnew. }
  assert (∀ k, (∀ t, k ≠ txn_id t) → (∀ t l i, k ≠ sql_node (txn_id t) l i) → ss_get d1 k = ss_get d k) as Hf1'.
  { intros k Hk1 Hk2. apply Hf1. intros t _. split; [apply Hk1|apply Hk2]. }
  destruct (build_unused d1 (blk_key (N.of_nat b)) (entries_of b txs)) as (d2 & Hb2 & Hbt & Hf2).
  { by apply entries_nonnil. }
  { intros l i. rewrite Hf1'; [by apply (ch_unused_blk _ _ Hc)|intros; intros E; discriminate E..]. }
  exists d1, d2. split; [done|]. split; [done|]. split.
  { rewrite Hf2, Hf1'; try done; intros; intros E; discriminate E. }
  cbv zeta. set (text := text_of _ _ _). set (dt := text_hash text ++ _). set (d3 := ss_put _ _ dt).
  assert (∀ k, k ≠ #"digest" → k ≠ blk_key (N.of_nat b) → ss_get d3 k = ss_get d2 k) as Hf3.
  { intros k Hk1 Hk2. unfold d3. by rewrite !ss_get_put_ne by congruence. }
  assert (∀ mtid l i, ss_get d3 (sql_node mtid l i) = ss_get d2 (sql_node mtid l i)) as Hn3.
  { intros mtid l i. apply Hf3; intros E; pose proof (node_with_bar mtid l i) as Hb; rewrite E in Hb;
      [by apply no_bar_digest in Hb|by apply no_bar_blk in Hb]. }
  split.
  - unfold d3. rewrite ss_get_put. unfold digest_text. rewrite length_app, Nat.add_comm. cbn [length Nat.add].
    rewrite chain_hash_snoc. done.
  - unfold d3. rewrite ss_get_put_ne by (intros E; discriminate E). rewrite ss_get_put. unfold block_at.
    by rewrite take_app_length.
  - apply (sql_built_same d2); [|done]. intros l i. apply Hn3.
  - intros s t docs Hs. destruct (Hin1 s t docs Hs) as [Hg Hb].
    assert (∀ k, k = txn_id t ∨ (∃ l i, k = sql_node (txn_id t) l i) → ss_get d3 k = ss_get d1 k) as Hf.
    { intros k [->|(l & i & ->)]; [rewrite Hf3 by (intros E; discriminate E)|rewrite Hn3];
        apply Hf2; intros l' i' E; discriminate E. }
    rewrite Hf by (by left). split; [exact Hg|]. apply (sql_built_same d1); [|done].
    intros l i. apply Hf. right. by eexists _, _.
  - intros k Hk1 Hk2 Hk3 Hk4. rewrite Hf3, Hf2 by done. by apply Hf1.
Qed.
End Store.

(** ** Runs *)

Inductive sql_op :=
  | OpSet (keys vals : list bytes) (now : N)
  | OpUpdate.

(** The blocks, the transactions that wait, the last document of each key, and its last
document of each block. *)
Record sql_state := mkSqlState {
  st_blocks : list (list txn);
  st_pending : list txn;
  st_latest : gmap bytes bytes;
  st_data : gmap (bytes * N) bytes;
}.
Definition st_init : sql_state := mkSqlState [] [] ∅ ∅.

Definition st_txns (st : sql_state) : list txn := mjoin (st_blocks st) ++ st_pending st.
Definition st_tid (st : sql_state) : N := N.of_nat (length (st_txns st)).
Definition st_block (st : sql_state) : N := N.of_nat (length (st_blocks st)).

Definition docs_from (b : N) (txnid : bytes) (i : nat) (kvs : list (bytes * bytes)) (now : N) : list bytes :=
  imap (λ j kv, document b txnid (N.of_nat (i + j)) kv.1 kv.2 now) kvs.
Definition new_docs (st : sql_state) (keys vals : list bytes) (now : N) : list bytes :=
  docs_from (st_block st) (txn_id (st_tid st)) 0 (zip keys vals) now.

Definition spec_op (st : sql_state) (op : sql_op) : sql_state :=
  match op with
  | OpSet keys vals now =>
      let docs := new_docs st keys vals now in
      mkSqlState (st_blocks st) (st_pending st ++ [(st_tid st, docs)])
        (foldl (λ m kd, <[kd.1 := kd.2]> m) (st_latest st) (zip keys docs))
        (foldl (λ m kd, <[(kd.1, st_block st) := kd.2]> m) (st_data st) (zip keys docs))
  | OpUpdate =>
      match st_pending st with
      | [] => st
      | txs => mkSqlState (st_blocks st ++ [txs]) [] (st_latest st) (st_data st)
      end
  end.

Definition op_keys (op : sql_op) : nat := match op with OpSet keys _ _ => length keys | OpUpdate => 0 end.

Lemma make_docs_spec b txnid i keys vals now : length keys = length vals →
  make_docs b txnid (N.of_nat i) keys vals now = Done (docs_from b txnid i (zip keys vals) now).
Proof.
  revert i vals. induction keys as [|k keys IH]; intros i [|v vals] Hl; try done. cbn [make_docs zip zip_with].
  replace (N.of_nat i + 1) with (N.of_nat (S i)) by lia. rewrite IH by (cbn in Hl; lia). rewrite bind_Done.
  unfold docs_from. cbn [imap]. rewrite Nat.add_0_r. do 2 f_equal.
  apply imap_ext. intros j x _. unfold compose. by rewrite Nat.add_succ_r.
Qed.

Lemma length_docs_from b txnid i kvs now : length (docs_from b txnid i kvs now) = length kvs.
Proof. apply length_imap. Qed.

Lemma encode_pairs_done ks vs : length ks = length vs → ∃ pairs, encode_pairs ks vs = Done pairs.
Proof.
  revert vs. induction ks as [|k ks IH]; intros [|v vs] Hl; try done; [by eexists|].
  destruct (IH vs ltac:(cbn in Hl; lia)) as [p Hp]. cbn [encode_pairs]. rewrite Hp, bind_Done. by eexists.
Qed.

(** Documents fit in the nodes of the tree. *)
Lemma length_to_string_64 n : n < 2 ^ 64 → (length (to_string n) <= 64)%nat.
Proof.
  intros Hn. destruct (decide (n = 0)) as [->|Hne]; [cbv; lia|].
  pose proof (length_to_string n ltac:(lia)). assert (N.size n <= 64); [|lia]. rewrite N.size_log2 by done.
  pose proof (proj1 (N.log2_lt_pow2 n 64 ltac:(lia)) Hn). lia.
Qed.

Lemma length_document b t i k v now : b < 2 ^ 32 → t < 2 ^ 32 → i < 2 ^ 32 → now < 2 ^ 64 →
  (length (document b (txn_id t) i k v now) <= 168 + length k + length v)%nat.
Proof.
  intros Hb Ht Hi Hn. unfold document, txn_id. rewrite !length_app.
  change (length #"|") with 1%nat. change (length #"txn") with 3%nat.
  pose proof (length_to_string_32 b Hb). pose proof (length_to_string_32 t Ht). pose proof (length_to_string_32 i Hi).
  pose proof (length_to_string_64 now Hn). lia.
Qed.

Section Runs.
Context `{Blake2b, StringStoreLaws D} (fanout leaf_fanout fuel B : nat).
Hypothesis limits : tree_limits fanout leaf_fanout fuel B.
Implicit Types q : SQLLedger D.

Definition committed_prefix : bytes := #"COMMITTED_".
Lemma committed_short : (length committed_prefix <= 10)%nat.
Proof. cbv. lia. Qed.

Record op_ok (keys vals : list bytes) (now : N) : Prop := {
  ok_keys : keys ≠ [];
  ok_vals : length keys = length vals;
  ok_now : now < 2 ^ 64;
  ok_plain : Forall plain_key keys;
  ok_size : Forall (λ kv, kv.1 ≠ INFI ∧ (168 + length kv.1 + length kv.2 <= B)%nat) (zip keys vals);
  ok_log : ∀ pairs, encode_pairs keys vals = Done pairs → N.of_nat (64 + length pairs) < 2 ^ 32;
}.
Definition good_op (op : sql_op) : Prop := match op with OpSet keys vals now => op_ok keys vals now | OpUpdate => True end.

Definition sq_step q (op : sql_op) : outcome (SQLLedger D) :=
  match op with
  | OpSet keys vals now => '(q, _) ← sq_Set fanout leaf_fanout fuel q keys vals now; Done q
  | OpUpdate => update_iteration q
  end.

Record sql_holds q (st : sql_state) (c : nat) : Prop := {
  sh_block_seq : block_seq_ q = st_block st;
  sh_tid : tid_ q = st_tid st;
  sh_tids : (st_txns st).*1 = N.of_nat <$> seq 0 (length (st_txns st));
  sh_count : (length (st_blocks st) + length (st_pending st) <= length (st_txns st) <= c)%nat;
  sh_buffer : nmap_entries (buffer_ q) = st_pending st;
  sh_docs : Forall (λ x, x.2 ≠ []) (st_pending st);
  sh_tree : tree_of fanout leaf_fanout B committed_prefix (indexed_ q) (sq_db q) c (λ M, M = st_latest st);
  sh_data : ∀ k b, plain_key k → ss_get (sq_db q) (hist_key k b) = default [] (st_data st !! (k, b));
  sh_chain : chain_holds (sq_db q) (st_blocks st);
  sh_sizes : Forall (λ x, (length x.2 <= c)%nat) (st_txns st);
}.

Lemma tid_bound st i x : (st_txns st).*1 = N.of_nat <$> seq 0 (length (st_txns st)) → st_txns st !! i = Some x → x.1 = N.of_nat i.
Proof.
  intros E Hi. assert ((st_txns st).*1 !! i = Some x.1) as Hx by (rewrite list_lookup_fmap; exact (f_equal (fmap fst) Hi)).
  rewrite E, list_lookup_fmap, lookup_seq_lt in Hx by (by eapply lookup_lt_Some). by injection Hx.
Qed.

Lemma docs_small st keys vals now : op_ok keys vals now → st_block st < 2 ^ 32 → st_tid st < 2 ^ 32 →
  N.of_nat (length keys) < 2 ^ 32 → Forall (small_entry B) (zip keys (new_docs st keys vals now)).
Proof.
  intros [Hne Hl Hn Hp Hs _] Hb Ht Hk. apply Forall_lookup. intros i [k doc] Hi.
  apply lookup_zip_with_Some in Hi as (k' & doc' & [= <- <-] & Hki & Hdi).
  unfold new_docs, docs_from in Hdi. rewrite list_lookup_imap in Hdi. apply fmap_Some in Hdi as ([k2 v] & Hz & ->).
  pose proof (proj1 (Forall_lookup _ _) Hs i _ Hz) as [Hinf Hsz]. pose proof (lookup_lt_Some _ _ _ Hki) as Hlt.
  apply lookup_zip_with_Some in Hz as (k3 & v3 & E & Hk3 & _). injection E as -> ->.
  assert (k3 = k) as -> by congruence. cbn [fst snd] in *.
  pose proof (length_document (st_block st) (st_tid st) (N.of_nat (0 + i)) k v3 now Hb Ht ltac:(lia) Hn).
  split; cbn [fst snd]; [lia|]. split; [lia|done].
Qed.

Definition hist_puts (b : N) (kds : list (bytes * bytes)) : list (bytes * bytes) := (λ kd, (hist_key kd.1 b, kd.2)) <$> kds.
Definition data_holds (d : D) (data : gmap (bytes * N) bytes) : Prop :=
  ∀ k b, plain_key k → ss_get d (hist_key k b) = default [] (data !! (k, b)).

Lemma puts_data (d : D) data kds b : Forall (λ kd, plain_key kd.1) kds → data_holds d data →
  data_holds (ss_puts d (hist_puts b kds)) (foldl (λ m kd, <[(kd.1, b) := kd.2]> m) data kds).
Proof.
  intros Hp. revert d data. induction Hp as [|[k doc] kds Hk Hp IH]; intros d data Hd; [done|].
  change (hist_puts b ((k, doc) :: kds)) with ((hist_key k b, doc) :: hist_puts b kds).
  rewrite ss_puts_cons. cbn [foldl fst snd]. apply IH. intros k' b' Hk'.
  destruct (decide ((k', b') = (k, b))) as [[= -> ->]|Hne].
  - by rewrite ss_get_put, lookup_insert_eq.
  - rewrite lookup_insert_ne, ss_get_put_ne by (congruence || (intros [-> ->]%hist_key_inj; [done|apply Hk|apply Hk'])).
    by apply Hd.
Qed.

Lemma puts_frame (d : D) kds b k : Forall (λ kd, plain_key kd.1) kds → (∀ k', plain_key k' → k ≠ hist_key k' b) →
  ss_get (ss_puts d (hist_puts b kds)) k = ss_get d k.
Proof.
  intros Hp Hk. apply ss_get_puts_notin. unfold hist_puts. rewrite <-list_fmap_compose.
  intros ([k' doc] & -> & Hin)%list_elem_of_fmap. rewrite Forall_forall in Hp. exact (Hk k' (Hp _ Hin) eq_refl).
Qed.

(** [Set] from a state of the specification. *)
Lemma assign_spec q st c keys vals now : sql_holds q st c → length keys = length vals →
  ∃ q', set_assign q keys vals now = Done (q', st_block st, new_docs st keys vals now) ∧
    logger_ q' = logger_ q ∧ sq_db q' = sq_db q ∧ block_seq_ q' = block_seq_ q ∧ tid_ q' = tid_ q ∧ indexed_ q' = indexed_ q ∧
    nmap_entries (buffer_ q') = st_pending st ++ [(st_tid st, new_docs st keys vals now)].
Proof.
  intros [Hb Ht Htids _ Hbuf _ _ _ _ _] Hl. unfold set_assign. rewrite Hb, Ht, (make_docs_spec _ _ 0), bind_Done by done.
  fold (new_docs st keys vals now).
  assert (∀ k, is_Some (buffer_ q !! k) → k < st_tid st) as Hlt.
  { intros k [x Hx]. apply elem_of_nmap_entries in Hx. rewrite Hbuf in Hx. apply list_elem_of_lookup_1 in Hx as [i Hi].
    assert (st_txns st !! (length (mjoin (st_blocks st)) + i)%nat = Some (k, x)) as Hi'
      by (unfold st_txns; rewrite lookup_app_r, Nat.add_comm, Nat.add_sub by apply Nat.le_add_r; done).
    pose proof (tid_bound st _ _ Htids Hi') as E. cbn in E. apply lookup_lt_Some in Hi'. unfold st_tid. lia. }
  destruct (buffer_ q !! st_tid st) eqn:E; [specialize (Hlt (st_tid st) ltac:(by eexists)); lia|].
  eexists. split; [done|]. do 5 (split; [done|]). cbn [buffer_]. by rewrite nmap_entries_snoc, Hbuf.
Qed.

Lemma store_spec q st c keys vals now : tree_of fanout leaf_fanout B committed_prefix (indexed_ q) (sq_db q) c (λ M, M = st_latest st) →
  chain_holds (sq_db q) (st_blocks st) → data_holds (sq_db q) (st_data st) →
  op_ok keys vals now → (c + length keys <= fuel)%nat -> st_block st < 2 ^ 32 → st_tid st < 2 ^ 32 →
  let st' := spec_op st (OpSet keys vals now) in
  ∃ q' chunk, set_store fanout leaf_fanout fuel q keys vals (new_docs st keys vals now) (st_block st) now = Done (q', chunk) ∧
    buffer_ q' = buffer_ q ∧ block_seq_ q' = block_seq_ q ∧ tid_ q' = tid_ q ∧
    tree_of fanout leaf_fanout B committed_prefix (indexed_ q') (sq_db q') (c + length keys) (λ M, M = st_latest st') ∧
    chain_holds (sq_db q') (st_blocks st) ∧ data_holds (sq_db q') (st_data st').
Proof.
  intros Htree Hchain Hdata Hok Hc Hb Ht st'. pose proof Hok as [Hne Hl Hn Hp Hs Hlog].
  set (docs := new_docs st keys vals now). set (kds := zip keys docs). set (b := st_block st).
  assert (length keys = length docs) as Hld by (unfold docs, new_docs; rewrite length_docs_from, length_zip_with; lia).
  assert (Forall (λ kd, plain_key kd.1) kds) as Hkds.
  { apply Forall_forall. intros [k doc] Hin%elem_of_zip_l. rewrite Forall_forall in Hp. by apply Hp. }
  set (d1 := ss_puts (sq_db q) (hist_puts b kds)).
  assert (N.of_nat fuel < 2 ^ 32) as Hfuel by apply limits.
  destruct (tree_set fanout leaf_fanout fuel B limits committed_prefix (indexed_ q) d1 c (λ M, M = st_latest st)
    (λ M, M = st_latest st') keys docs committed_short Hne Hld) as (t' & d2 & Hset & Htree' & Hf2).
  { apply docs_small; [done..|lia]. }
  { done. }
  { apply (tree_of_frame fanout leaf_fanout fuel B limits _ _ (sq_db q)); [apply committed_short| |done].
    intros k Hk. apply puts_frame; [done|]. intros k' Hk' ->. by apply (hist_not_tree k' b). }
  { by intros M ->. }
  destruct (encode_pairs_done keys vals Hl) as [pairs Hpairs].
  assert (∃ chunk, encode_txn now keys vals dummy (u64 (tid_ q + 2 ^ 64 - 1)) = Done chunk) as [chunk Hchunk].
  { unfold encode_txn. rewrite Hpairs, bind_Done. cbv zeta. rewrite (proj2 (N.ltb_lt _ _)); [by eexists|].
    specialize (Hlog pairs Hpairs). rewrite !length_app, !length_le_encode. unfold dummy. rewrite length_ComputeFrom.
    unfold kMetaLength, kChunkTypeOffset, kNumBytesOffset, kByteLength. lia. }
  assert (∀ k, ¬ prefixed #"COMMITTED_" k → (∀ k', plain_key k' → k ≠ hist_key k' b) → ss_get d2 k = ss_get (sq_db q) k) as Hf.
  { intros k Hk1 Hk2. rewrite Hf2 by done. by apply puts_frame. }
  eexists _, chunk. split; [|split; [|split; [|split; [|split; [|split]]]]].
  - unfold set_store. cbv zeta. change (ss_puts (sq_db q) _) with d1. rewrite Hset, bind_Done, Hchunk, bind_Done. done.
  - done.
  - done.
  - done.
  - exact Htree'.
  - apply (chain_holds_same (sq_db q)); [|done]. cbn [sq_db]. intros k Hk. apply Hf; [by apply chain_not_tree|].
    intros k' Hk' ->. by apply (hist_not_chain k' b).
  - cbn [sq_db]. intros k b' Hk. rewrite Hf2 by (by apply hist_not_tree). by apply puts_data.
Qed.

Lemma txns_set st keys vals now :
  st_txns (spec_op st (OpSet keys vals now)) = st_txns st ++ [(st_tid st, new_docs st keys vals now)].
Proof. unfold st_txns. cbn [spec_op st_blocks st_pending]. by rewrite app_assoc. Qed.
Lemma txns_update st : st_txns (spec_op st OpUpdate) = st_txns st.
Proof.
  unfold st_txns. cbn [spec_op]. destruct (st_pending st) eqn:E; [by rewrite E|]. cbn [st_blocks st_pending].
  by rewrite join_snoc, app_nil_r.
Qed.

Lemma set_holds q st c keys vals now : sql_holds q st c → op_ok keys vals now → (c + length keys <= fuel)%nat →
  ∃ q', sq_step q (OpSet keys vals now) = Done q' ∧ sql_holds q' (spec_op st (OpSet keys vals now)) (c + length keys).
Proof.
  intros Hh Hok Hc. pose proof Hh as [Hb Ht Htids Hcount Hbuf Hdocs Htree Hdata Hchain Hsizes].
  assert (N.of_nat fuel < 2 ^ 32) as Hfuel by apply limits.
  assert (st_block st < 2 ^ 32 ∧ st_tid st < 2 ^ 32) as [Hb32 Ht32] by (unfold st_block, st_tid; lia).
  assert (0 < length keys)%nat as Hk by (pose proof (ok_keys _ _ _ Hok); destruct keys; [done|cbn; lia]).
  destruct (assign_spec q st c keys vals now Hh (ok_vals _ _ _ Hok)) as (q1 & Ha & Hl1 & Hd1 & Hb1 & Ht1 & Hi1 & Hbuf1).
  destruct (store_spec q1 st c keys vals now) as (q2 & chunk & Hs & Hbuf2 & Hb2 & Ht2 & Htree2 & Hchain2 & Hdata2);
    [by rewrite Hi1, Hd1|by rewrite Hd1|unfold data_holds; by rewrite Hd1|done|done|done|done|].
  exists (set_advance q2 chunk). split.
  { cbn [sq_step]. unfold sq_Set. rewrite Ha, bind_Done, Hs, bind_Done, bind_Done. done. }
  split; cbn [set_advance block_seq_ tid_ buffer_ sq_db indexed_]; rewrite ?txns_set.
  - by rewrite Hb2, Hb1.
  - rewrite Ht2, Ht1, Ht. unfold st_tid. rewrite txns_set, length_app. cbn [length].
    rewrite u64_small by (unfold st_tid in *; assert ((2:N) ^ 32 < 2 ^ 64) by done; lia). lia.
  - rewrite fmap_app, Htids, length_app. cbn [length fmap list_fmap fst]. rewrite Nat.add_1_r, seq_S, fmap_app. done.
  - cbn [spec_op st_blocks st_pending]. rewrite !length_app. cbn [length]. lia.
  - rewrite Hbuf2, Hbuf1. done.
  - cbn [spec_op st_pending]. apply Forall_app. split; [done|]. apply Forall_singleton. cbn [snd]. intros E.
    apply (f_equal length) in E. unfold new_docs in E. rewrite length_docs_from, length_zip_with in E.
    pose proof (ok_vals _ _ _ Hok). cbn in E. lia.
  - exact Htree2.
  - exact Hdata2.
  - exact Hchain2.
  - apply Forall_app. split; [eapply Forall_impl; [exact Hsizes|cbn; lia]|]. apply Forall_singleton. cbn [snd].
    unfold new_docs. rewrite length_docs_from, length_zip_with. lia.
Qed.

Lemma update_holds q st c : sql_holds q st c → (c <= fuel)%nat →
  ∃ q', update_iteration q = Done q' ∧ sql_holds q' (spec_op st OpUpdate) c.
Proof.
  intros Hh Hc. pose proof Hh as [Hb Ht Htids Hcount Hbuf Hdocs Htree Hdata Hchain Hsizes].
  assert (N.of_nat fuel < 2 ^ 32) as Hfuel by apply limits. unfold update_iteration.
  destruct (decide (buffer_ q = ∅)) as [E|Hne].
  { exists q. split; [done|]. rewrite E in Hbuf. cbn [spec_op]. by rewrite <-Hbuf. }
  assert (st_pending st ≠ []) as Hp.
  { rewrite <-Hbuf. intros E. apply Hne, map_empty. intros k. apply eq_None_not_Some. intros [x Hx].
    apply elem_of_nmap_entries in Hx. rewrite E in Hx. by apply elem_of_nil in Hx. }
  assert (NoDup (st_txns st).*1) as Hnd by (rewrite Htids; apply NoDup_fmap_2; [apply _|apply NoDup_seq]).
  unfold st_txns in Hnd. rewrite fmap_app in Hnd. apply NoDup_app in Hnd as (_ & Hdis & Hnd).
  destruct (build_block (sq_db q) (st_blocks st) (st_pending st) Hchain Hp Hnd Hdocs) as (d1 & d2 & Hb1 & Hb2 & Hd2 & Hex).
  { intros t Ht1 Ht2. by apply (Hdis t). }
  rewrite Hb, Hbuf. unfold st_block. cbv zeta. rewrite Hb1, bind_Done, Hb2, bind_Done.
  rewrite Hd2, (digest_prev _ _ Hchain), bind_Done. eexists. split; [done|].
  destruct (extends_chain _ _ _ _ Hchain Hp Hdocs ltac:(by intros t Ht1 Ht2; apply (Hdis t)) Hex) as [Hchain' Hf].
  assert (spec_op st OpUpdate = mkSqlState (st_blocks st ++ [st_pending st]) [] (st_latest st) (st_data st)) as Hst
    by (cbn [spec_op]; by destruct (st_pending st)).
  rewrite Hst. split; cbn [block_seq_ tid_ buffer_ sq_db indexed_ st_blocks st_pending st_latest st_data].
  - unfold st_block. cbn [st_blocks]. rewrite length_app. cbn [length].
    rewrite u64_small by (assert ((2:N) ^ 32 < 2 ^ 64) by done; lia). lia.
  - rewrite Ht, <-Hst. unfold st_tid. by rewrite txns_update.
  - rewrite <-Hst, txns_update. done.
  - rewrite <-Hst, txns_update, length_app. cbn [length].
    destruct (st_pending st); [done|]. cbn [length] in Hcount. lia.
  - done.
  - constructor.
  - apply (tree_of_frame fanout leaf_fanout fuel B limits _ _ (sq_db q)); [apply committed_short| |exact Htree].
    intros k Hk. apply Hf. intros Hck. by apply (chain_not_tree k).
  - intros k b Hk. cbn [st_data]. rewrite Hf by (by apply hist_not_chain). by apply Hdata.
  - exact Hchain'.
  - by rewrite <-Hst, txns_update.
Qed.

(** Runs of operations. *)
Fixpoint sq_run q (ops : list sql_op) : outcome (SQLLedger D) :=
  match ops with
  | [] => Done q
  | op :: ops => q ← sq_step q op; sq_run q ops
  end.
Definition spec_run (st : sql_state) (ops : list sql_op) : sql_state := foldl spec_op st ops.
Definition keys_set (ops : list sql_op) : nat := sum_list_with op_keys ops.

Lemma run_holds q st c ops : sql_holds q st c → Forall good_op ops → (c + keys_set ops <= fuel)%nat →
  ∃ q', sq_run q ops = Done q' ∧ sql_holds q' (spec_run st ops) (c + keys_set ops).
Proof.
  intros Hh Hops. revert q st c Hh. induction Hops as [|op ops Hop Hops IH]; intros q st c Hh Hc.
  { exists q. split; [done|]. by rewrite Nat.add_0_r. }
  cbn [keys_set sum_list_with] in Hc. fold (keys_set ops) in Hc.
  assert (∃ q', sq_step q op = Done q' ∧ sql_holds q' (spec_op st op) (c + op_keys op)) as (q1 & Hs & Hh1).
  { destruct op as [keys vals now|].
    - apply (set_holds q st c); [done|done|cbn [op_keys] in Hc; lia].
    - cbn [op_keys]. rewrite Nat.add_0_r. apply (update_holds q st c); [done|lia]. }
  destruct (IH q1 (spec_op st op) (c + op_keys op)%nat Hh1 ltac:(lia)) as (q2 & Hr & Hh2).
  exists q2. cbn [sq_run]. rewrite Hs, bind_Done. split; [done|].
  cbn [keys_set sum_list_with]. fold (keys_set ops). by rewrite Nat.add_assoc.
Qed.

Lemma new_holds (d : D) wal idx : (∀ k, ss_get d k = []) → sql_holds (new_sqlledger d wal idx) st_init 0.
Proof.
  intros Hd. split; cbn; try done.
  - apply (tree_of_empty fanout leaf_fanout fuel B limits); [apply committed_short|]. unfold get_chunk. by rewrite Hd.
  - split; [apply Hd| | | |].
    + intros b txs Hb. by rewrite lookup_nil in Hb.
    + intros b txs s t docs Hb. by rewrite lookup_nil in Hb.
    + intros b _ l i. apply Hd.
    + intros t _ l i. apply Hd.
Qed.

(** ** Reads *)

Lemma reads_spec q st c : sql_holds q st c → (c <= fuel)%nat →
  (∀ k, sq_GetCommitted fuel q k = Done (default [] (st_latest st !! k))) ∧
  (∀ start fin, sq_Range fuel q start fin = Done (range_of start fin (st_latest st))) ∧
  (∀ k b, plain_key k → sq_GetDataAtBlock q k b = default [] (st_data st !! (k, b))).
Proof.
  intros [_ _ _ _ _ _ Htree Hdata _ _] Hc. split; [|split; [|exact Hdata]].
  - intros k. destruct (tree_get fanout leaf_fanout fuel B limits _ _ _ _ _ k committed_short Hc Htree) as (M & -> & HM).
    unfold sq_GetCommitted. by rewrite HM, bind_Done.
  - intros start fin.
    by destruct (tree_range fanout leaf_fanout fuel B limits _ _ _ _ _ start fin committed_short Hc Htree) as (M & -> & HM).
Qed.
End Runs.

(** ** Block proofs *)

Section Proofs.
Context `{Blake2b, StringStoreLaws D} (junk : nat → ascii).
Local Open Scope nat_scope.

(** The texts of the blocks from [b] on. *)
Definition texts (blocks : list (list txn)) (b : nat) : list bytes :=
  imap (λ j txs, block_at blocks (b + j) txs) (drop b blocks).

Lemma get_blocks_spec (d : D) blocks b : chain_holds d blocks → b ≤ length blocks →
  get_blocks d (length blocks - b) (N.of_nat b) = texts blocks b.
Proof.
  intros Hc Hb. remember (length blocks - b) as n eqn:Hn. revert b Hb Hn. induction n as [|n IH]; intros b Hb Hn.
  - unfold texts. by rewrite drop_ge by lia.
  - destruct (lookup_lt_is_Some_2 blocks b ltac:(lia)) as [txs Hx]. unfold texts. rewrite (drop_S _ txs) by done.
    cbn [get_blocks imap]. rewrite Nat.add_0_r. replace (N.of_nat b + 1)%N with (N.of_nat (S b)) by lia.
    rewrite IH by lia. destruct (ch_block _ _ Hc b txs Hx) as (_ & -> & _). f_equal.
    apply imap_ext. intros i x _. unfold compose. by rewrite Nat.add_succ_r.
Qed.

Lemma split_text prev b txs : txs ≠ [] → no_bar prev →
  splitBy (text_of prev b txs) "|" = [prev; root_of (entries_of b txs); level_text (entries_of b txs)].
Proof.
  intros Hne Hp. unfold text_of, block_text. rewrite splitBy_bar by done.
  rewrite splitBy_bar by (by apply root_of_no_bar, entries_nonnil). by rewrite splitBy_end by (by apply to_string_no).
Qed.

(** The chain from its last block down to block [b] is accepted against its hash. *)
Lemma chain_verifies blocks b root : Forall (λ txs, txs ≠ []) blocks → b ≤ length blocks →
  verify_blocks (reverse (texts blocks b)) (chain_hash blocks) root
  = Done (true, match blocks !! b with Some txs => root_of (entries_of b txs) | None => root end).
Proof.
  revert root. induction blocks as [|txs blocks IH] using rev_ind; intros root Hne Hb.
  { unfold texts. by rewrite drop_nil. }
  apply Forall_app in Hne as [Hne Ht]. apply (proj1 (Forall_singleton _ _)) in Ht. rewrite length_app in Hb. cbn [length] in Hb.
  destruct (decide (b = length blocks + 1)) as [->|Hlt].
  { unfold texts. rewrite drop_ge, lookup_ge_None_2 by (rewrite length_app; cbn; lia). done. }
  assert (texts (blocks ++ [txs]) b = texts blocks b ++ [text_of (chain_hash blocks) (length blocks) txs]) as ->.
  { unfold texts. rewrite drop_app_le by lia. rewrite imap_app. f_equal.
    - apply imap_ext. intros i x Hi%lookup_lt_Some. rewrite length_drop in Hi. apply block_at_app. lia.
    - cbn [imap]. rewrite length_drop. replace (b + (length blocks - b + 0)) with (length blocks) by lia.
      unfold block_at. by rewrite take_app_length. }
  rewrite reverse_snoc. cbn [verify_blocks]. rewrite chain_hash_snoc, decide_True by done. cbv zeta.
  rewrite (split_text (chain_hash blocks)) by (done || apply chain_hash_no_bar). cbn [item lookup list_lookup]. rewrite !bind_Done.
  rewrite IH by (done || lia). f_equal. f_equal. destruct (decide (b = length blocks)) as [->|Hb'].
  - by rewrite lookup_app_r, Nat.sub_diag, (lookup_ge_None_2 blocks) by lia.
  - rewrite lookup_app_l by lia. destruct (lookup_lt_is_Some_2 blocks b ltac:(lia)) as [x ->]. done.
Qed.

Lemma level_32 leaves : (N.of_nat (length leaves) < 2 ^ 32)%N → (N.of_nat (level_of leaves) < 2 ^ 31)%N.
Proof.
  intros Hl. assert (level_of leaves ≤ 32); [|assert (32 < 2 ^ 31)%N by done; lia].
  unfold level_of, leaf_hashes. rewrite length_fmap. destruct leaves as [|x leaves]; [cbn; lia|].
  apply height_spec; [cbn [length]; lia|].
  assert (N.of_nat (length (x :: leaves)) ≤ N.of_nat (2 ^ 32))%N; [|lia]. rewrite Nat2N.inj_pow. lia.
Qed.

Lemma block_level_text prev b txs : txs ≠ [] → no_bar prev → (N.of_nat (length txs) < 2 ^ 32)%N →
  block_level (text_of prev b txs) = Done (Z.of_nat (level_of (entries_of b txs))).
Proof.
  intros Hne Hp Hl. unfold block_level. rewrite split_text by done. cbn [item lookup list_lookup]. rewrite bind_Done.
  pose proof (level_32 (entries_of b txs)) as H32. unfold entries_of at 1, entries_from in H32. rewrite length_imap in H32.
  specialize (H32 Hl). unfold level_text. rewrite stoul_to_string, bind_Done by (assert (2 ^ 31 < 2 ^ 64)%N by done; lia).
  f_equal. unfold int_of_ulong. rewrite u32_small by lia. rewrite (proj2 (Z.ltb_lt _ _)) by lia. lia.
Qed.
End Proofs.

(** ** Properties *)

Section Claims.
Context `{Blake2b, StringStoreLaws D} (junk : nat → ascii) (fanout leaf_fanout fuel B : nat).
Implicit Types q : SQLLedger D.

Lemma good_run (d : D) wal idx ops : tree_limits fanout leaf_fanout fuel B → (∀ k, ss_get d k = []) →
  Forall (good_op B) ops → (keys_set ops <= fuel)%nat →
  ∃ q, sq_run fanout leaf_fanout fuel (new_sqlledger d wal idx) ops = Done q ∧
    sql_holds fanout leaf_fanout B q (spec_run st_init ops) (keys_set ops).
Proof.
  intros Hl Hd Hops Hk. by apply (run_holds fanout leaf_fanout fuel B Hl _ st_init 0); [apply (new_holds _ _ _ _ Hl)| |].
Qed.

Lemma entry_items b s t docs rest : docs ≠ [] →
  splitBy (entry_of b s (t, docs)) "|" = rest →
  rest = [txn_id t; to_string (N.of_nat b); to_string (N.of_nat s); root_of docs; level_text docs].
Proof.
  intros Hd <-. unfold entry_of, txn_entry. cbn [fst snd]. rewrite splitBy_bar by apply no_bar_txn.
  rewrite !splitBy_bar by (by apply to_string_no). rewrite splitBy_bar by (by apply root_of_no_bar).
  by rewrite splitBy_end by (by apply to_string_no).
Qed.

Lemma block_txns st b txs : st_blocks st !! b = Some txs → (length txs <= length (st_txns st))%nat.
Proof. intros Hb. unfold st_txns. rewrite <-(take_drop_middle _ _ _ Hb), join_app, mjoin_cons, !length_app. lia. Qed.

(** The block of a position, its proof and the proofs of its transactions. *)
Lemma block_provable q st c b txs : sql_holds fanout leaf_fanout B q st c → N.of_nat c < 2 ^ 32 →
  st_blocks st !! b = Some txs →
  ∃ hash blks level,
    sq_GetDigest q = Done (N.of_nat (length (st_blocks st) - 1), hash) ∧
    getBlockProof q (N.of_nat b) (N.of_nat (length (st_blocks st) - 1)) = Done (blks, Some level) ∧
    level = Z.of_nat (level_of (entries_of b txs)) ∧
    (∀ root, BlockProof_Verify blks hash root = Done (true, root_of (entries_of b txs))) ∧
    ∀ s x, txs !! s = Some x →
      let p := GetProof (sq_db q) (blk_key (N.of_nat b)) level (N.of_nat s) in
      sp_digest p = root_of (entries_of b txs) ∧
      sql_Verify junk (mkSqlProof (sp_digest p) (entry_of b s x) (sp_proof p) (sp_pos p)) = Done true.
Proof.
  intros [_ _ _ Hcount _ _ _ _ Hc _] H32 Hb. pose proof (lookup_lt_Some _ _ _ Hb) as Hlt.
  destruct (ch_block _ _ Hc b txs Hb) as (Hne & Htext & Hbuilt).
  pose proof (block_txns st b txs Hb) as Htx.
  assert ((2:N) ^ 32 < 2 ^ 64) as H64 by done.
  exists (chain_hash (st_blocks st)), (texts (st_blocks st) b), (Z.of_nat (level_of (entries_of b txs))).
  split; [|split; [|split; [done|split]]].
  - unfold sq_GetDigest. rewrite (ch_digest _ _ Hc). unfold digest_text. destruct (length (st_blocks st)) as [|n] eqn:El; [lia|].
    rewrite splitBy_bar by apply chain_hash_no_bar. rewrite splitBy_end by (by apply to_string_no).
    cbn [item lookup list_lookup]. rewrite !bind_Done, stoul_to_string, bind_Done by lia. do 3 f_equal. lia.
  - unfold getBlockProof. replace (N.to_nat (_ + 1 - N.of_nat b)) with (length (st_blocks st) - b)%nat by lia.
    rewrite (get_blocks_spec _ (st_blocks st)) by (done || lia). unfold texts at 1. rewrite (drop_S _ txs) by done. cbn [imap].
    rewrite Nat.add_0_r. unfold block_at at 1. rewrite block_level_text by (done || apply chain_hash_no_bar || lia). done.
  - intros root. unfold BlockProof_Verify. rewrite chain_verifies; [by rewrite Hb| |lia].
    apply Forall_lookup. intros i x Hi. by destruct (ch_block _ _ Hc i x Hi).
  - intros s x Hs. change (root_of (entries_of b txs)) with (ToBase32_value (root_hash (entries_of b txs))).
    apply built_verifies; [|by apply (entries_lookup b 0)|done|by apply root_hash_level, entries_nonnil].
    unfold entries_of, entries_from. rewrite length_imap. lia.
Qed.

(** The proof of a document of a committed block, which is refused. *)
Lemma detail_refused q st c k i v now t docs s b txs : sql_holds fanout leaf_fanout B q st c → N.of_nat c < 2 ^ 32 →
  plain_key k → i < 2 ^ 64 → st_data st !! (k, N.of_nat b) = Some (document (N.of_nat b) (txn_id t) i k v now) →
  st_blocks st !! b = Some txs → txs !! s = Some (t, docs) → root_of docs ≠ root_of (entries_of b txs) →
  ∃ p, getDetailProof q k (N.of_nat b) (Z.of_nat (level_of (entries_of b txs))) = Done p ∧
    sp_digest (txn_proof p) = root_of (entries_of b txs) ∧ sql_Verify junk (txn_proof p) = Done true ∧
    DetailProof_Verify junk p (root_of (entries_of b txs)) = Done false.
Proof.
  intros Hh Hc Hplain Hi Hdoc Hb Hs Hne. assert ((2:N) ^ 32 < 2 ^ 64) as H64 by done.
  destruct (block_provable q st _ b txs Hh Hc Hb) as (hash & blks & level & _ & Hbp & -> & _ & Htx).
  destruct (Htx s (t, docs) Hs) as [Hdig HV]. destruct Hh as [_ _ _ Hcount _ _ _ Hdata Hch Hsizes].
  destruct (ch_txn _ _ Hch b txs s t docs Hb Hs) as (Hdne & Hentry & _).
  assert (txs ∈ st_blocks st) as Htxs by (by eapply list_elem_of_lookup_2).
  assert ((t, docs) ∈ txs) as Htd by (by eapply list_elem_of_lookup_2). pose proof (lookup_lt_Some _ _ _ Hs) as Hlt.
  pose proof (block_txns st b txs Hb) as Hlen.
  assert (length docs <= c)%nat as Hdl.
  { rewrite Forall_forall in Hsizes. apply (Hsizes (t, docs)). unfold st_txns. apply elem_of_app. left.
    apply list_elem_of_join. by exists txs. }
  pose proof (level_32 docs ltac:(lia)) as Hlv. assert ((2:N) ^ 31 < 2 ^ 64) as H31 by done.
  eexists. split.
  - unfold getDetailProof. cbv zeta. unfold sq_GetDataAtBlock. rewrite Hdata, Hdoc by done. cbn [default]. unfold id, document.
    rewrite (splitBy_bar (to_string (N.of_nat b))) by (by apply to_string_no).
    rewrite (splitBy_bar (txn_id t)) by apply no_bar_txn. rewrite (splitBy_bar (to_string i)) by (by apply to_string_no).
    cbn [item lookup list_lookup]. rewrite !bind_Done, stoul_to_string, bind_Done by done.
    rewrite Hentry, (entry_items b s t docs _ Hdne eq_refl). cbn [item lookup list_lookup]. rewrite !bind_Done.
    rewrite stoul_to_string, bind_Done by lia. unfold level_text. rewrite bind_Done, bind_Done, stoul_to_string, bind_Done by lia. done.
  - cbn [txn_proof sp_digest]. split; [done|]. rewrite Hdig in HV. rewrite Hdig. split; [exact HV|].
    unfold DetailProof_Verify. cbn [txn_proof sp_digest sp_value]. rewrite decide_True by done.
    rewrite HV, bind_Done, (entry_items b s t docs _ Hdne eq_refl). cbn [item lookup list_lookup].
    by rewrite bind_Done, decide_False.
Qed.

(** C7.  Every block of SQL Ledger can be proved: after any transactions and
    turns of the thread, the digest is the hash of the chain, the block proof of any
    block up to its tip is accepted and gives the root of that block's tree over its
    transactions, and for each transaction the tree has a proof of its entry
    that is accepted under that root.  All calls succeed. *)
Theorem sql_blocks_provable (d : D) wal idx ops :
  tree_limits fanout leaf_fanout fuel B → (∀ k, ss_get d k = []) →
  Forall (good_op B) ops → (keys_set ops <= fuel)%nat →
  ∃ q, sq_run fanout leaf_fanout fuel (new_sqlledger d wal idx) ops = Done q ∧
    let blocks := st_blocks (spec_run st_init ops) in
    ∀ b txs, blocks !! b = Some txs →
      ∃ hash blks level,
        sq_GetDigest q = Done (N.of_nat (length blocks - 1), hash) ∧
        getBlockProof q (N.of_nat b) (N.of_nat (length blocks - 1)) = Done (blks, Some level) ∧
        (∀ root, BlockProof_Verify blks hash root = Done (true, root_of (entries_of b txs))) ∧
        ∀ s x, txs !! s = Some x →
          let p := GetProof (sq_db q) (blk_key (N.of_nat b)) level (N.of_nat s) in
          sp_digest p = root_of (entries_of b txs) ∧
          sql_Verify junk (mkSqlProof (sp_digest p) (entry_of b s x) (sp_proof p) (sp_pos p)) = Done true.
Proof.
  intros Hl Hd Hops Hk. destruct (good_run d wal idx ops Hl Hd Hops Hk) as (q & Hr & Hh).
  exists q. split; [done|]. intros blocks b txs Hb. pose proof (tl_fuel _ _ _ _ Hl).
  destruct (block_provable q _ _ b txs Hh ltac:(lia) Hb) as (hash & blks & level & ? & ? & _ & ?).
  by exists hash, blks, level.
Qed.

(** C8.  SQL Ledger refines a map of documents: after any transactions and turns of the
    thread, which all succeed, [GetCommitted] gives the last document of a
    key, [Range] the last documents between its bounds, and [GetDataAtBlock]
    the last document that a block has for a key. *)
Theorem sql_refines (d : D) wal idx ops :
  tree_limits fanout leaf_fanout fuel B → (∀ k, ss_get d k = []) →
  Forall (good_op B) ops → (keys_set ops <= fuel)%nat →
  ∃ q, sq_run fanout leaf_fanout fuel (new_sqlledger d wal idx) ops = Done q ∧
    let st := spec_run st_init ops in
    (∀ k, sq_GetCommitted fuel q k = Done (default [] (st_latest st !! k))) ∧
    (∀ start fin, sq_Range fuel q start fin = Done (range_of start fin (st_latest st))) ∧
    (∀ k b, plain_key k → sq_GetDataAtBlock q k b = default [] (st_data st !! (k, b))).
Proof.
  intros Hl Hd Hops Hk. destruct (good_run d wal idx ops Hl Hd Hops Hk) as (q & Hr & Hh).
  exists q. split; [done|]. by apply (reads_spec fanout leaf_fanout fuel B Hl q _ (keys_set ops)).
Qed.

(** [DetailProof::Verify] refuses what [getDetailProof] returns: for a
    document of a committed block the path of its transaction is accepted under
    the root of the block, but the root of the transaction's tree is then
    compared with that of the block, so the proof is refused unless the two
    are the same. *)
Theorem detail_proof_refused (d : D) wal idx ops k i v now t docs s b txs :
  tree_limits fanout leaf_fanout fuel B → (∀ k, ss_get d k = []) →
  Forall (good_op B) ops → (keys_set ops <= fuel)%nat →
  let st := spec_run st_init ops in
  plain_key k → i < 2 ^ 64 →
  st_data st !! (k, N.of_nat b) = Some (document (N.of_nat b) (txn_id t) i k v now) →
  st_blocks st !! b = Some txs → txs !! s = Some (t, docs) → root_of docs ≠ root_of (entries_of b txs) →
  ∃ q level p, sq_run fanout leaf_fanout fuel (new_sqlledger d wal idx) ops = Done q ∧
    (∃ blks, getBlockProof q (N.of_nat b) (N.of_nat (length (st_blocks st) - 1)) = Done (blks, Some level)) ∧
    getDetailProof q k (N.of_nat b) level = Done p ∧
    sp_digest (txn_proof p) = root_of (entries_of b txs) ∧ sql_Verify junk (txn_proof p) = Done true ∧
    DetailProof_Verify junk p (root_of (entries_of b txs)) = Done false.
Proof.
  intros Hl Hd Hops Hk st Hplain Hi Hdoc Hb Hs Hne. destruct (good_run d wal idx ops Hl Hd Hops Hk) as (q & Hr & Hh).
  fold st in Hh. pose proof (tl_fuel _ _ _ _ Hl) as Hfuel.
  destruct (block_provable q st _ b txs Hh ltac:(lia) Hb) as (hash & blks & level & _ & Hbp & -> & _ & _).
  destruct (detail_refused q st _ k i v now t docs s b txs Hh ltac:(lia) Hplain Hi Hdoc Hb Hs Hne) as (p & Hp & H1' & H2' & H3').
  eexists q, _, p. split; [done|]. split; [by exists blks|]. done.
Qed.
End Claims.

(** ** A small ledger: two transactions in the first block and one in the second *)

Definition example_ops : list sql_op :=
  [OpSet [ #"a"; #"b"] [ #"1"; #"2"] 5; OpSet [ #"a"] [ #"3"] 6; OpUpdate; OpSet [ #"c"] [ #"4"] 7; OpUpdate].

Lemma example_tree_limits : tree_limits 2 2 5 180.
Proof. split; [lia|lia|done|done]. Qed.

Lemma plain_letter c : c ≠ "|"%char → plain_key [c].
Proof.
  intros Hc. split; [intros E%list_elem_of_singleton; congruence|intros [s E]; discriminate E].
Qed.

Lemma example_ops_good : Forall (good_op 180) example_ops.
Proof.
  assert (∀ (k v : ascii) now, k ≠ "|"%char → now < 2 ^ 64 → op_ok 180 [[k]] [[v]] now) as Hone.
  { intros k v now Hk Hn. split; [done|done|done| | |].
    - apply Forall_singleton. by apply plain_letter.
    - apply Forall_singleton. cbn. split; [done|lia].
    - intros pairs Hp. cbn [encode_pairs] in Hp. rewrite !bind_Done in Hp. apply Done_inj in Hp as <-. done. }
  apply Forall_cons. split.
  { split; [done|done|done| | |].
    - apply Forall_cons. split; [by apply plain_letter|]. apply Forall_singleton. by apply plain_letter.
    - apply Forall_cons. split; [cbn; split; [done|lia]|]. apply Forall_singleton. cbn. split; [done|lia].
    - intros pairs Hp. cbn [encode_pairs] in Hp. rewrite !bind_Done in Hp. apply Done_inj in Hp as <-. done. }
  apply Forall_cons. split; [by apply Hone|]. apply Forall_cons. split; [done|].
  apply Forall_cons. split; [by apply Hone|]. apply Forall_singleton. done.
Qed.

Definition example_run `{Blake2b} : outcome (SQLLedger MapDB) :=
  sq_run 2 2 5 (new_sqlledger empty_db [] []) example_ops.

Lemma sql_blocks_provable_witness :
  let _ := toy_blake2b in
  ∃ q hash blks level root, example_run = Done q ∧ sq_GetDigest q = Done (1, hash) ∧
    getBlockProof q 0 1 = Done (blks, Some level) ∧ BlockProof_Verify blks hash [] = Done (true, root) ∧
    sp_digest (GetProof (sq_db q) (blk_key 0) level 1) = root.
Proof.
  intros H. destruct (@sql_blocks_provable H MapDB _ _ (λ _, "x"%char) 2 2 5 180 empty_db [] [] example_ops)
    as (q & Hr & Hq); [exact example_tree_limits|reflexivity|exact example_ops_good|cbn; lia|].
  destruct (st_blocks (spec_run st_init example_ops) !! 0%nat) as [txs|] eqn:Eb; [|cbn in Eb; discriminate Eb].
  destruct (Hq 0%nat txs Eb) as (hash & blks & level & Hd & Hp & HV & Ht).
  destruct (txs !! 1%nat) as [x|] eqn:Ex; [|cbn in Eb; injection Eb as <-; discriminate Ex].
  exists q, hash, blks, level, (root_of (entries_of 0 txs)).
  split; [exact Hr|]. split; [exact Hd|]. split; [exact Hp|]. split; [apply HV|]. exact (proj1 (Ht 1%nat x Ex)).
Defined.

Lemma sql_refines_witness :
  let _ := toy_blake2b in
  ∃ q, example_run = Done q ∧ sq_GetCommitted 5 q #"a" = Done #"0|txn1|0|a|3|6" ∧
    sq_GetDataAtBlock q #"c" 1 = #"1|txn2|0|c|4|7".
Proof.
  intros H. destruct (@sql_refines H MapDB _ _ 2 2 5 180 empty_db [] [] example_ops)
    as (q & Hr & Hget & _ & Hdata); [exact example_tree_limits|reflexivity|exact example_ops_good|cbn; lia|].
  exists q. split; [exact Hr|]. split.
  - rewrite Hget. vm_compute. reflexivity.
  - rewrite Hdata by (by apply plain_letter). vm_compute. reflexivity.
Defined.

Lemma detail_proof_refused_witness :
  let _ := toy_blake2b in
  ∃ q level p root, example_run = Done q ∧ getDetailProof q #"c" 1 level = Done p ∧
    sp_digest (txn_proof p) = root ∧ sql_Verify (λ _, "x"%char) (txn_proof p) = Done true ∧
    DetailProof_Verify (λ _, "x"%char) p root = Done false.
Proof.
  intros H.
  destruct (@detail_proof_refused H MapDB _ _ (λ _, "x"%char) 2 2 5 180 empty_db [] [] example_ops
    #"c" 0 #"4" 7 2 [ #"1|txn2|0|c|4|7"] 0 1 [(2, [ #"1|txn2|0|c|4|7"])])
    as (q & level & p & Hr & _ & Hp & Hd & HV & Hf);
    [exact example_tree_limits|reflexivity|exact example_ops_good|cbn; lia|by apply plain_letter|reflexivity|
     vm_compute; reflexivity|vm_compute; reflexivity|reflexivity|vm_compute; discriminate|].
  exists q, level, p, (root_of (entries_of 1 [(2, [ #"1|txn2|0|c|4|7"])])).
  split; [exact Hr|]. split; [exact Hp|]. split; [exact Hd|]. split; [exact HV|exact Hf].
Defined.
