(* ===== verification/SQLStore.v ===== *)
(** * [versionstore.cc] and [shardclient.cc] in the build with SQL Ledger

    The branches under [SQLLEDGER]: the versioned store takes the documents of the
    ledger apart into the fields of the reply, and proves keys and audits on
    request; the callbacks of the shard client check those proofs. *)

From S2P Require Import Prelude Cpp Hash Chunk DB LedgerTypes BTreeNode BTree SqlMerkle TxnLog SQLLedger.
From S2P Require Import Txn Reply StoreCommon OCCStore Server ShardClient.

Open Scope N_scope.

(** ** The store *)

(** The ledger, and how many times its [Set] read the clock. *)
Record SQLStore (D : Type) := mkSQLStore { sqlledger_ : SQLLedger D; puts : nat }.
Arguments mkSQLStore {D} _ _.
Arguments sqlledger_ {D} _.
Arguments puts {D} _.

(** [BPlusConfig::Init(45, 45)] in the constructor. *)
Definition sql_fanouts : nat * nat := (45, 45)%nat.

(** The key, the value, the block and the time in the text of a document. *)
Definition document_fields (res : bytes) : outcome (KV * Z) :=
  let docs := splitBy res "|" in
  key ← item docs 3;
  val ← item docs 4;
  b ← item docs 0; blk ← stoul b;
  s ← item docs 5; t ← stoul s;
  Done (mkKV key val (int64 blk), int64 t).
Definition add_fields (r : Reply) (f : KV * Z) : Reply := add_timestamps (add_values r [f.1]) [f.2].

Fixpoint add_results (results : list bytes) (r : Reply) : outcome Reply :=
  match results with
  | [] => Done r
  | res :: results => f ← document_fields res; add_results results (add_fields r f)
  end.

(** A proof of a tree as a message. *)
Definition mt_message (p : SqlProof) : outcome MTProof :=
  pos ← mapM (λ i, n ← item (sp_pos p) i; Done (int32 n)) (seq 0 (length (sp_proof p)));
  Done (mkMTProof (sp_digest p) (sp_value p) (sp_proof p) pos).

Section Store.
Context `{Blake2b, StringStore D, ScanStore D} (fanout leaf_fanout fuel : nat) (clock : nat → N).
Implicit Types s : SQLStore D.

(** The constructor, on a store and log files that were opened. *)
Definition create_sql_store (d : D) (wal idx : bytes) : SQLStore D := mkSQLStore (new_sqlledger d wal idx) 0.

(** An iteration of the thread of the ledger. *)
Definition ss_update s : outcome (SQLStore D) :=
q ← update_iteration (sqlledger_ s); Done (mkSQLStore q (puts s)).

Definition ss_GetDigest s (r : Reply) : outcome (SQLStore D * Reply) :=
'(tip, hash) ← sq_GetDigest (sqlledger_ s);
Done (s, set_digest r (int64 tip) hash).

(** [GetNVersions] *)
Fixpoint add_key_versions s (ver_keys : list (bytes * N)) (r : Reply) : outcome Reply :=
match ver_keys with
| [] => Done r
| key :: ver_keys =>
    r ← add_results (sq_GetHistory (sqlledger_ s) key.1 key.2) r;
    add_key_versions s ver_keys r
end.
Definition ss_GetNVersions s (ver_keys : list (bytes * N)) (r : Reply) : outcome (SQLStore D * Reply) :=
r ← add_key_versions s ver_keys r; Done (s, r).

(** [BatchGet] *)
Fixpoint add_keys s (keys : list bytes) (r : Reply) : outcome Reply :=
match keys with
| [] => Done r
| key :: keys =>
    result ← sq_GetCommitted fuel (sqlledger_ s) key;
    match result with
    | [] => add_keys s keys r
    | _ => f ← document_fields result; add_keys s keys (add_fields r f)
    end
end.
Definition ss_BatchGet s (keys : list bytes) (r : Reply) : outcome (SQLStore D * Reply) :=
r ← add_keys s keys r; Done (s, r).

Definition ss_GetRange s (start fin : bytes) (r : Reply) : outcome (SQLStore D * Reply) :=
results ← sq_Range fuel (sqlledger_ s) start fin;
r ← add_results (map_entries results).*2 r;
Done (s, r).

(** [GetProof] of keys grouped by block: [level] is not initialised when the block
is past the tip. *)
Fixpoint key_proofs s (keys : list bytes) (block : N) (level : option Z) : outcome (list MTProof * list MTProof) :=
match keys with
| [] => Done ([], [])
| key :: keys =>
    level' ← match level with Some l => Done l | None => Stop Undefined end;
    res ← getDetailProof (sqlledger_ s) key block level';
    tp ← mt_message (txn_proof res);
    dp ← mt_message (data_proof res);
    '(tps, dps) ← key_proofs s keys block level;
    Done (tp :: tps, dp :: dps)
end.
Fixpoint block_proofs s (tip : N) (keys : list (N * list bytes)) (r : Reply) : outcome Reply :=
match keys with
| [] => Done r
| (block, ks) :: keys =>
    '(blks, level) ← getBlockProof (sqlledger_ s) block tip;
    '(tps, dps) ← key_proofs s ks block level;
    block_proofs s tip keys (add_sproof r (mkSQLLedgerProof blks tps dps))
end.
Definition ss_GetProof s (keys : gmap N (list bytes)) (r : Reply) : outcome (SQLStore D * Reply) :=
'(s, r) ← ss_GetDigest s r;
r ← block_proofs s (block_of r) (nmap_entries keys) r;
Done (s, r).

(** [GetProof] of a block of the log, for an audit. *)
Definition ss_GetAudit s (seq : N) (r : Reply) : outcome (SQLStore D * Reply) :=
a ← getAudit (sqlledger_ s) seq;
Done (s, set_saudit r (mkSQLLedgerAudit (int64 (au_block_seq a)) (au_digest a) (au_txns a) (au_blks a))).

(** [put] *)
Definition ss_put s (keys values : list bytes) (t : Timestamp.t) (reply : option Reply)
  : outcome (SQLStore D * option Reply) :=
'(q, blk) ← sq_Set fanout leaf_fanout fuel (sqlledger_ s) keys values (clock (puts s));
Done (mkSQLStore q (S (puts s)),
      (λ r, add_values r (zip_with (λ k v, mkKV k v (int64 blk)) keys values)) <$> reply).
End Store.

#[export] Instance sql_VersionedKVStore `{Blake2b, StringStore D, ScanStore D} (fanout leaf_fanout fuel : nat)
  (clock : nat → N) : VersionedKVStore (SQLStore D) := {|
  vs_GetDigest := ss_GetDigest;
  vs_BatchGet := ss_BatchGet fuel;
  vs_GetNVersions := ss_GetNVersions;
  vs_GetRange := ss_GetRange fuel;
  vs_GetProof := ss_GetProof;
  vs_GetAudit := ss_GetAudit;
  vs_put := ss_put fanout leaf_fanout fuel clock;
|}.

(** ** The client *)

Section Client.
Context `{Blake2b, StringStore D} (junk : nat → ascii) (junk_status : VerifyStatus).
Implicit Types s : ShardClient D.

(** A message as a proof of a tree; [pos(k)] is read for every [proof(k)]. *)
Definition proof_of (m : MTProof) : outcome SqlProof :=
pos ← mapM (λ k, p ← item (mtp_pos m) k; Done (uint64 p)) (seq 0 (length (mtp_proof m)));
Done (mkSqlProof (mtp_digest m) (mtp_value m) (mtp_proof m) pos).

(** The loop over the proofs of the keys of a block, which a refusal ends. *)
Fixpoint check_details (root : bytes) (tps dps : list MTProof) : outcome bool :=
match tps, dps with
| [], _ => Done true
| _ :: _, [] => Stop Undefined
| tp :: tps, dp :: dps =>
    txn_proof ← proof_of tp;
    data_proof ← proof_of dp;
    ok ← DetailProof_Verify junk (mkDetailProof txn_proof data_proof) root;
    if ok : bool then check_details root tps dps else Done false
end.
(** The loop over the blocks, which the refusal of a block ends. *)
Fixpoint check_blocks (hash : bytes) (ps : list SQLLedgerProof) (res : VerifyStatus) : outcome VerifyStatus :=
match ps with
| [] => Done res
| p :: ps =>
    '(ok, txn_hash) ← BlockProof_Verify (sp_blocks p) hash [];
    if negb (ok : bool) then Done FAILED
    else
      ok ← check_details txn_hash (sp_txn_proof p) (sp_data_proof p);
      check_blocks hash ps (if ok : bool then res else FAILED)
end.

(** The status that [GetProofCallback] finds. *)
Definition check_sproofs (r : Reply) : outcome VerifyStatus :=
check_blocks (default [] (dg_hash (digest_of_reply r))) (r_sproof r) PASS.
Definition sq_GetProofCallback s (u : N) (r : Reply) : outcome (ShardClient D) :=
answer_verify s u (λ s,
    let s := set_tip s (block_of r) in
    res ← check_sproofs r;
    Done (s, res)) (status_of r).

(** The auditor of a reply. *)
Definition sql_auditor_of (a : SQLLedgerAudit) : Auditor :=
mkAuditor (sa_blocks a) (sa_txns a) (sa_digest a) (uint64 (sa_block_no a)).
Definition set_audit_block s (b : Z) : ShardClient D :=
mkShardClient (sc_replica s) (waiting s) (blockingBegin s) (verifyPromise s) (tip_block s) b (uid s)
  (sc_db s) (heap s).
Definition sq_AuditCallback s (seq u : N) (r : Reply) : outcome (ShardClient D) :=
answer_verify s u (λ s,
    let s := set_tip s (block_of r) in
    if seq <=? tip_block s then
      let a := default (mkSQLLedgerAudit 0 [] [] []) (r_saudit r) in
      let s := set_audit_block s (sa_block_no a) in
      '(ok, d, _) ← sq_Audit (sql_auditor_of a) (sc_db s);
      Done (set_db s d, if ok : bool then PASS else FAILED)
    else Done (s, junk_status)) (status_of r).

(** The other callbacks are those of the build with LedgerDB. *)
Definition sq_run_callback `{ChunkStore D} s (cb : callback) (r : Reply) : outcome (ShardClient D) :=
match cb with
| GetProofCb u _ => sq_GetProofCallback s u r
| AuditCb seq u => sq_AuditCallback s seq u r
| BatchGetCb => BatchGetCallback s r
| GetRangeCb => GetRangeCallback s r
| PrepareCb => PrepareCallback s r
| CommitCb => CommitCallback s r
| AbortCb => AbortCallback s r
end.
End Client.
