(* ===== verification/SQLStoreSpec.v ===== *)
(** * What a client of a SQL Ledger shard reads and can check

    The store of a shard after any writes and turns of the ledger's thread.  Reads return
    the last values with their blocks and times; the proofs of keys are
    refused by the client; an audit of a block rebuilds its trees from the log under
    the names of other transactions. *)

From S2P Require Import Prelude Cpp Hash Chunk DB Config LedgerTypes BTreeNode BTree BTreeSpec BTreeReads BTreeMap.
From S2P Require Import MerkleSpec MerkleTree SqlMerkle TxnLog SQLLedger SQLSpec.
From S2P Require Import Txn Reply StoreCommon OCCStore Server ShardClient SQLStore.

Open Scope N_scope.

(** ** Runs of the store *)

Inductive store_op :=
  | Put (keys vals : list bytes)
  | Turn.

(** The operations of the ledger; a [put] reads the clock for the [n]-th time. *)
Fixpoint ledger_ops (clock : nat → N) (n : nat) (ops : list store_op) : list sql_op :=
  match ops with
  | [] => []
  | Put keys vals :: ops => OpSet keys vals (clock n) :: ledger_ops clock (S n) ops
  | Turn :: ops => OpUpdate :: ledger_ops clock n ops
  end.

(** What a shard means: how many blocks it has, whether transactions wait for the
next one, and for each key its value, its block and its time. *)
Record shard_view := mkView { vw_blocks : N; vw_waiting : bool; vw_map : gmap bytes (bytes * N * N) }.
Definition view_init : shard_view := mkView 0 false ∅.
Definition view_op (w : shard_view) (op : sql_op) : shard_view :=
  match op with
  | OpSet keys vals now =>
      mkView (vw_blocks w) true (foldl (λ m kv, <[kv.1 := (kv.2, vw_blocks w, now)]> m) (vw_map w) (zip keys vals))
  | OpUpdate => if vw_waiting w then mkView (vw_blocks w + 1) false (vw_map w) else w
  end.
Definition view_run (ops : list sql_op) : shard_view := foldl view_op view_init ops.

(** The documents of a state say what the view says. *)
Definition shows (doc k : bytes) (x : bytes * N * N) : Prop :=
  ∃ t i, doc = document x.1.2 (txn_id t) i k x.1.1 x.2.
Definition agrees (docs : gmap bytes bytes) (m : gmap bytes (bytes * N * N)) : Prop :=
  ∀ k, match docs !! k, m !! k with Some doc, Some x => shows doc k x | None, None => True | _, _ => False end.
Record views (st : sql_state) (w : shard_view) : Prop := {
  vw_st_blocks : st_block st = vw_blocks w;
  vw_st_waiting : vw_waiting w = bool_decide (st_pending st ≠ []);
  vw_st_map : agrees (st_latest st) (vw_map w);
  vw_st_old : ∀ k x, vw_map w !! k = Some x → x.1.2 <= vw_blocks w;
}.

(** A value that is read back whole, and a time that fits. *)
Definition plain_op (op : sql_op) : Prop :=
  match op with OpSet _ vals now => Forall no_bar vals | OpUpdate => True end.

Lemma shows_insert b t now (kvs : list (bytes * bytes)) i m1 m2 :
  agrees m1 m2 →
  agrees
    (foldl (λ m kd, <[kd.1 := kd.2]> m) m1 (zip kvs.*1 (docs_from b (txn_id t) i kvs now)))
    (foldl (λ m kv, <[kv.1 := (kv.2, b, now)]> m) m2 kvs).
Proof.
  revert i m1 m2. induction kvs as [|[k v] kvs IH]; intros i m1 m2 Hr; [done|].
  unfold docs_from. cbn [fmap list_fmap imap zip zip_with foldl fst snd]. rewrite Nat.add_0_r.
  assert (imap ((λ j kv, document b (txn_id t) (N.of_nat (i + j)) kv.1 kv.2 now) ∘ S) kvs = docs_from b (txn_id t) (S i) kvs now) as ->.
  { unfold docs_from. apply imap_ext. intros j x _. unfold compose. by rewrite Nat.add_succ_r. }
  apply IH. intros k'. specialize (Hr k'). destruct (decide (k' = k)) as [->|Hne].
  - rewrite !lookup_insert_eq. by eexists _, _.
  - by rewrite !lookup_insert_ne.
Qed.

Lemma zip_fst_snd {A C} (l : list A) (k : list C) : length l = length k → l = (zip l k).*1.
Proof. intros Hl. by rewrite fst_zip by lia. Qed.

Lemma views_step st w op B : good_op B op → views st w → views (spec_op st op) (view_op w op).
Proof.
  intros Hop [Hb Hw Hm Ho]. destruct op as [keys vals now|]; cbn [spec_op view_op].
  - destruct Hop as [Hne Hl _ _ _ _]. split; cbn [st_pending st_latest vw_blocks vw_waiting vw_map].
    + exact Hb.
    + rewrite bool_decide_true; [done|]. by intros [_ ?]%app_eq_nil.
    + rewrite (zip_fst_snd keys vals Hl) at 1. rewrite <-Hb. by apply shows_insert.
    + clear Hm Hw. remember (vw_map w) as m eqn:E. assert (∀ k x, m !! k = Some x → x.1.2 <= vw_blocks w) as Ho' by (by subst).
      clear E Ho Hl. revert m Ho'. induction (zip keys vals) as [|[k v] kvs IH]; intros m Ho k' x Hk; [by apply (Ho k')|].
      cbn [foldl fst snd] in Hk. apply (IH _) in Hk; [done|]. intros k2 x2 [[_ <-]|[_ Hk2]]%lookup_insert_Some; [cbn; lia|by apply (Ho k2)].
  - rewrite Hw. destruct (st_pending st) as [|x txs] eqn:E.
    + rewrite bool_decide_false by (intros Hn; by apply Hn). split; [done|by rewrite E|done|done].
    + rewrite bool_decide_true by done. split; cbn [st_blocks st_pending st_latest vw_blocks vw_waiting vw_map].
      * unfold st_block in *. cbn [st_blocks]. rewrite length_app. cbn [length]. lia.
      * by rewrite bool_decide_false by (intros Hn; by apply Hn).
      * done.
      * intros k y Hy. specialize (Ho k y Hy). lia.
Qed.

Lemma views_run B ops : Forall (good_op B) ops → views (spec_run st_init ops) (view_run ops).
Proof.
  induction ops as [|op ops IH] using rev_ind; intros Hg.
  { split; [done|done| |by intros k x Hx; cbn in Hx; rewrite lookup_empty in Hx]. intros k. cbn. by rewrite !lookup_empty. }
  apply Forall_app in Hg as [Hg Hop]. apply (proj1 (Forall_singleton _ _)) in Hop.
  unfold spec_run, view_run in *. rewrite !foldl_snoc. by eapply views_step; [|apply IH].
Qed.

(** What the view holds has no bars and fits in 64 bits. *)
Definition plain_entry (k : bytes) (x : bytes * N * N) : Prop := no_bar k ∧ no_bar x.1.1 ∧ x.2 < 2 ^ 64.

Lemma view_plain B ops k x : Forall (good_op B) ops → Forall plain_op ops → vw_map (view_run ops) !! k = Some x → plain_entry k x.
Proof.
  intros Hg Hp. revert k x. induction ops as [|op ops IH] using rev_ind; intros k x; [intros Hx; cbn in Hx; by rewrite lookup_empty in Hx|].
  apply Forall_app in Hg as [Hg Hop], Hp as [Hp Hpop]. apply (proj1 (Forall_singleton _ _)) in Hop, Hpop.
  specialize (IH Hg Hp). unfold view_run in *. rewrite foldl_snoc. set (w := foldl view_op view_init ops) in *.
  destruct op as [keys vals now|]; cbn [view_op]; [|by destruct (vw_waiting w); apply IH]. destruct Hop as [_ _ Hn Hpk _ _].
  cbn [vw_map]. cbn [plain_op] in Hpop. assert (Forall (λ kv, no_bar kv.1 ∧ no_bar kv.2) (zip keys vals)) as Hkv.
  { apply Forall_forall. intros [k' v'] Hin. rewrite Forall_forall in Hpk, Hpop. split.
    - apply Hpk. by eapply elem_of_zip_l.
    - apply Hpop. by eapply elem_of_zip_r. }
  clear Hg Hp Hpk Hpop. generalize dependent (vw_map w). induction Hkv as [|[k' v'] kvs [Hk' Hv'] _ IHk]; intros m Hm Hx; [by apply Hm|].
  apply (IHk _) in Hx; [done|]. cbn [fst snd] in *. intros k2 x2 [[<- <-]|[_ Hk2]]%lookup_insert_Some; [done|by apply Hm].
Qed.

(** ** Fields of a reply *)

Definition fields_of (k : bytes) (x : bytes * N * N) : KV * Z := (mkKV k x.1.1 (int64 x.1.2), int64 x.2).

Lemma document_fields_spec doc k x : shows doc k x → plain_entry k x → x.1.2 < 2 ^ 64 → document_fields doc = Done (fields_of k x).
Proof.
  intros (t & i & ->) (Hk & Hv & Hn) Hb. unfold document_fields, document, fields_of.
  rewrite (splitBy_bar (to_string x.1.2)) by (by apply to_string_no). rewrite (splitBy_bar (txn_id t)) by apply no_bar_txn.
  rewrite (splitBy_bar (to_string i)) by (by apply to_string_no). rewrite (splitBy_bar k), (splitBy_bar x.1.1) by done.
  rewrite splitBy_end by (by apply to_string_no). cbn [item lookup list_lookup]. rewrite !bind_Done.
  rewrite stoul_to_string, bind_Done by done. rewrite bind_Done, stoul_to_string, bind_Done by done. done.
Qed.

(** A value with a bar is cut there, and what follows is taken for the time. *)
Lemma document_fields_bar b t i k v v' now : no_bar k → no_bar v → no_bar v' → b < 2 ^ 64 →
  document_fields (document b (txn_id t) i k (v ++ #"|" ++ v') now)
  = (time ← stoul v'; Done (mkKV k v (int64 b), int64 time)).
Proof.
  intros Hk Hv Hv' Hb. unfold document_fields, document.
  rewrite (splitBy_bar (to_string b)) by (by apply to_string_no). rewrite (splitBy_bar (txn_id t)) by apply no_bar_txn.
  rewrite (splitBy_bar (to_string i)) by (by apply to_string_no). rewrite (splitBy_bar k) by done. rewrite <-!app_assoc.
  rewrite (splitBy_bar v), (splitBy_bar v') by done. rewrite splitBy_end by (by apply to_string_no).
  cbn [item lookup list_lookup]. by rewrite !bind_Done, stoul_to_string, !bind_Done by done.
Qed.

Lemma shows_nonnil doc k x : shows doc k x → doc ≠ [].
Proof. intros (t & i & ->) [E _]%app_eq_nil. by destruct (to_string_nonnil x.1.2). Qed.

Lemma add_all_fields r fs : r_values (foldl add_fields r fs) = r_values r ++ fs.*1 ∧
  r_timestamps (foldl add_fields r fs) = r_timestamps r ++ fs.*2 ∧ r_digest (foldl add_fields r fs) = r_digest r.
Proof.
  revert r. induction fs as [|f fs IH]; intros r; [by rewrite !app_nil_r|]. cbn [foldl fmap list_fmap].
  destruct (IH (add_fields r f)) as (-> & -> & ->). cbn. by rewrite <-!app_assoc.
Qed.

(** The fields of the keys that have a value. *)
Definition found (w : shard_view) (keys : list bytes) : list (KV * Z) := omap (λ k, fields_of k <$> vw_map w !! k) keys.

Lemma found_values w keys r k : r_values r = (found w keys).*1 →
  values_of r !! k = if decide (k ∈ keys) then (λ x, x.1.1) <$> vw_map w !! k else None.
Proof.
  intros Hr. unfold values_of. rewrite Hr, (emplace_lookup kv_key kv_val (λ k, (λ x, x.1.1) <$> vw_map w !! k)), lookup_empty.
  - assert (k ∈ kv_key <$> (found w keys).*1 ↔ k ∈ keys ∧ is_Some (vw_map w !! k)) as E.
    { unfold found. rewrite list_elem_of_fmap. setoid_rewrite list_elem_of_fmap. setoid_rewrite list_elem_of_omap. split.
      - intros (kv & -> & f & -> & k' & Hk & E). destruct (vw_map w !! k') as [x|] eqn:Ex; [|done]. injection E as <-. cbn.
        by rewrite Ex.
      - intros [Hk [x Hx]]. exists (fields_of k x).1. split; [done|]. exists (fields_of k x). split; [done|]. exists k. by rewrite Hx. }
    destruct (decide (k ∈ kv_key <$> (found w keys).*1)) as [Hk|Hk]; [apply E in Hk as [? _]; by rewrite decide_True|].
    case_decide; [|done]. destruct (vw_map w !! k); [|done]. exfalso. apply Hk, E. by eauto.
  - intros kv Hin. apply list_elem_of_fmap in Hin as (f & -> & Hin). unfold found in Hin. apply list_elem_of_omap in Hin as (k' & _ & E).
    destruct (vw_map w !! k') as [x|] eqn:Ex; [|done]. injection E as <-. cbn. by rewrite Ex.
Qed.

(** ** The store *)

Section Store.
Context `{Blake2b, StringStoreLaws D} (fanout leaf_fanout fuel B : nat).
Hypothesis limits : tree_limits fanout leaf_fanout fuel B.
Implicit Types s : SQLStore D.

#[local] Abbreviation sql_holds := (SQLSpec.sql_holds fanout leaf_fanout B).

Lemma entry_read w st c q k x : sql_holds q st c → (c <= fuel)%nat → views st w → vw_map w !! k = Some x → plain_entry k x →
  ∃ doc, st_latest st !! k = Some doc ∧ doc ≠ [] ∧ document_fields doc = Done (fields_of k x).
Proof.
  intros Hh Hc [Hb _ Hm Ho] Hx Hp. specialize (Hm k). rewrite Hx in Hm. destruct (st_latest st !! k) as [doc|]; [|done].
  exists doc. split; [done|]. split; [by eapply shows_nonnil|]. apply document_fields_spec; [done|done|].
  specialize (Ho k x Hx). pose proof (sh_count _ _ _ _ _ _ Hh) as Hcount. pose proof (tl_fuel _ _ _ _ limits).
  assert ((2:N) ^ 32 < 2 ^ 64) by done. unfold st_block in Hb. lia.
Qed.

Lemma no_entry w st k : views st w → vw_map w !! k = None → st_latest st !! k = None.
Proof. intros [_ _ Hm _] Hx. specialize (Hm k). rewrite Hx in Hm. by destruct (st_latest st !! k). Qed.

Section Reads.
Context (s : SQLStore D) (st : sql_state) (c : nat) (w : shard_view).
Hypothesis holds : sql_holds (sqlledger_ s) st c.
Hypothesis count : (c <= fuel)%nat.
Hypothesis shown : views st w.
Hypothesis plain : ∀ k x, vw_map w !! k = Some x → plain_entry k x.

Lemma add_keys_spec keys r : add_keys fuel s keys r = Done (foldl add_fields r (found w keys)).
Proof.
  revert r. induction keys as [|k keys IH]; intros r; [done|]. cbn [add_keys]. unfold found. cbn [omap list_omap].
  destruct (reads_spec fanout leaf_fanout fuel B limits (sqlledger_ s) st c holds count) as (Hget & _ & _).
  rewrite Hget, bind_Done. destruct (vw_map w !! k) as [x|] eqn:Ex; cbn [fmap option_fmap option_map].
  - destruct (entry_read w st c _ k x holds count shown Ex (plain k x Ex)) as (doc & -> & Hne & Hf).
    change (default [] (Some doc)) with doc. destruct doc as [|a doc]; [done|]. rewrite Hf, bind_Done. apply IH.
  - rewrite (no_entry w st k shown Ex). apply IH.
Qed.

Lemma add_results_spec (es : list (bytes * bytes)) r : Forall (λ e, st_latest st !! e.1 = Some e.2) es →
  add_results es.*2 r = Done (foldl add_fields r (found w es.*1)).
Proof.
  intros Hes. revert r. induction Hes as [|[k doc] es Hk _ IH]; intros r; [done|]. cbn [fst snd] in Hk.
  unfold found. cbn [fmap list_fmap omap list_omap fst snd add_results]. pose proof (vw_st_map _ _ shown k) as Hm. rewrite Hk in Hm.
  destruct (vw_map w !! k) as [x|] eqn:Ex; [|done]. cbn [fmap option_fmap option_map].
  destruct (entry_read w st c _ k x holds count shown Ex (plain k x Ex)) as (doc' & E & _ & Hf).
  rewrite Hk in E. injection E as <-. rewrite Hf, bind_Done. apply IH.
Qed.

Lemma ss_BatchGet_spec keys r : ss_BatchGet fuel s keys r = Done (s, foldl add_fields r (found w keys)).
Proof. unfold ss_BatchGet. by rewrite add_keys_spec, bind_Done. Qed.

Lemma ss_GetRange_spec start fin r :
  ∃ keys, ss_GetRange fuel s start fin r = Done (s, foldl add_fields r (found w keys)) ∧
    ∀ k, k ∈ keys ↔ in_range start fin k ∧ is_Some (vw_map w !! k).
Proof.
  destruct (reads_spec fanout leaf_fanout fuel B limits (sqlledger_ s) st c holds count) as (_ & Hrange & _).
  unfold ss_GetRange. rewrite Hrange, bind_Done. set (es := map_entries _).
  assert (Forall (λ e, st_latest st !! e.1 = Some e.2) es) as Hes.
  { apply Forall_forall. intros [k doc] Hin%elem_of_map_entries. by apply lookup_range in Hin as [? _]. }
  exists es.*1. rewrite (add_results_spec es r Hes), bind_Done. split; [done|]. intros k.
  rewrite list_elem_of_fmap. unfold es. split.
  - intros ([k' doc] & -> & Hin%elem_of_map_entries). apply lookup_range in Hin as [Hl Hr]. split; [done|]. cbn.
    pose proof (vw_st_map _ _ shown k') as Hm. rewrite Hl in Hm. destruct (vw_map w !! k'); [by eexists|done].
  - intros [Hr [x Hx]]. pose proof (vw_st_map _ _ shown k) as Hm. rewrite Hx in Hm. destruct (st_latest st !! k) as [doc|] eqn:E; [|done].
    exists (k, doc). split; [done|]. by apply elem_of_map_entries, lookup_range.
Qed.
End Reads.

(** *** Runs *)

Context (clock : nat → N).

Definition ss_step s (op : store_op) (t : Timestamp.t) : outcome (SQLStore D) :=
  match op with
  | Put keys vals => '(s, _) ← ss_put fanout leaf_fanout fuel clock s keys vals t None; Done s
  | Turn => ss_update s
  end.
Fixpoint ss_run s (ops : list store_op) (t : Timestamp.t) : outcome (SQLStore D) :=
  match ops with
  | [] => Done s
  | op :: ops => s ← ss_step s op t; ss_run s ops t
  end.

Definition put_count (ops : list store_op) : nat :=
  sum_list_with (λ op, match op with Put _ _ => 1%nat | Turn => 0%nat end) ops.

Lemma ss_run_ledger s ops t q : sq_run fanout leaf_fanout fuel (sqlledger_ s) (ledger_ops clock (puts s) ops) = Done q →
  ss_run s ops t = Done (mkSQLStore q (puts s + put_count ops)).
Proof.
  revert s q. induction ops as [|op ops IH]; intros [q0 n] q Hr; cbn [puts sqlledger_] in *.
  { apply Done_inj in Hr as <-. cbn. by rewrite Nat.add_0_r. }
  cbn [ss_run]. destruct op as [keys vals|]; cbn [ledger_ops sq_run sq_step] in Hr.
  - apply bind_Done_inv in Hr as (q1 & Hq1 & Hr). apply bind_Done_inv in Hq1 as ([q1' blk] & Hq1 & E). apply Done_inj in E as <-.
    cbn [ss_step]. unfold ss_put. cbn [sqlledger_ puts]. rewrite Hq1, bind_Done, bind_Done, bind_Done.
    rewrite (IH (mkSQLStore q1' (S n)) q Hr). cbn [put_count sum_list_with puts]. do 2 f_equal. unfold put_count. lia.
  - apply bind_Done_inv in Hr as (q1 & Hq1 & Hr). cbn [ss_step]. unfold ss_update. cbn [sqlledger_ puts]. rewrite Hq1, bind_Done, bind_Done.
    exact (IH (mkSQLStore q1 n) q Hr).
Qed.
End Store.

(** ** The messages of proofs *)

Lemma mapM_items {A C} (l : list A) (f : A → C) : mapM (λ i, x ← item l i; Done (f x)) (seq 0 (length l)) = Done (f <$> l).
Proof.
  assert (∀ pre, mapM (λ i, x ← item (pre ++ l) i; Done (f x)) (seq (length pre) (length l)) = Done (f <$> l)) as Hp; [|apply (Hp [])].
  induction l as [|a l IH]; intros pre; [done|]. cbn [length seq mapM fmap list_fmap].
  assert (item (pre ++ a :: l) (length pre) = Done a) as -> by (unfold item; by rewrite list_lookup_middle).
  rewrite !bind_Done. specialize (IH (pre ++ [a])). rewrite length_app, <-app_assoc in IH.
  cbn [length app] in IH. rewrite Nat.add_1_r in IH. by rewrite IH, bind_Done.
Qed.

(** A proof that [GetProof] makes survives the message: its positions are 0 or 1. *)
Definition position_ok (p : N) : Prop := p < 2.
Record proof_fits (p : SqlProof) : Prop := {
  pf_length : length (sp_pos p) = length (sp_proof p);
  pf_small : Forall position_ok (sp_pos p);
}.

Lemma int32_position p : position_ok p → uint64 (int32 p) = p.
Proof. unfold position_ok. intros Hp. assert (p = 0 ∨ p = 1) as [-> | ->] by lia; done. Qed.

Lemma mt_message_roundtrip p : proof_fits p → ∃ m, mt_message p = Done m ∧ proof_of m = Done p.
Proof.
  intros [Hl Hp]. unfold mt_message. rewrite <-Hl, (mapM_items (sp_pos p) int32), bind_Done. eexists. split; [done|].
  unfold proof_of. cbn [mtp_proof mtp_pos mtp_digest mtp_value]. rewrite <-Hl, <-(length_fmap int32).
  rewrite (mapM_items (int32 <$> sp_pos p) uint64), bind_Done. destruct p as [dg v pr ps]. cbn in *. do 2 f_equal.
  clear Hl. induction Hp as [|x ps Hx _ IH]; [done|]. cbn. by rewrite int32_position, IH.
Qed.

Section Fits.
Context `{Blake2b, StringStore D}.

Lemma proof_loop_fits (d : D) mtid n i ptr : let p := sql_proof_loop d mtid n i ptr in
  length p.2 = length p.1 ∧ Forall position_ok p.2.
Proof.
  revert i ptr. induction n as [|n IH]; intros i ptr; [by split; [|constructor]|]. cbn [sql_proof_loop].
  specialize (IH (i + 1)%Z (ptr / 2)). destruct (sql_proof_loop d mtid n (i + 1) (ptr / 2)) as [rs ps]. cbn [fst snd] in IH.
  destruct IH as [IH1 IH2]. destruct (ptr mod 2 =? 0); cbn [fst snd length]; (split; [by f_equal|constructor; [unfold position_ok; lia|done]]).
Qed.

Lemma GetProof_fits (d : D) mtid level seq v :
  let p := SqlMerkle.GetProof d mtid level seq in proof_fits (mkSqlProof (sp_digest p) v (sp_proof p) (sp_pos p)).
Proof.
  unfold SqlMerkle.GetProof. pose proof (proof_loop_fits d mtid (Z.to_nat level) 0 seq) as Hf.
  destruct (sql_proof_loop d mtid (Z.to_nat level) 0 seq) as [rs ps]. by destruct Hf.
Qed.

Lemma getDetailProof_fits q key b level p : getDetailProof q key b level = Done p → proof_fits (txn_proof p) ∧ proof_fits (data_proof p).
Proof.
  unfold getDetailProof. cbv zeta. intros E.
  repeat (apply bind_Done_inv in E as (? & _ & E)). apply Done_inj in E as <-. split; apply GetProof_fits.
Qed.
End Fits.

(** ** Proofs of keys *)

(** A key of a committed block: its last document there, the transaction that has it, and
the roots of the two trees, which differ. *)
Definition committed_in `{Blake2b} (st : sql_state) (b : nat) (txs : list txn) (k : bytes) : Prop :=
  plain_key k ∧ ∃ i v now t docs s, i < 2 ^ 64 ∧
    st_data st !! (k, N.of_nat b) = Some (document (N.of_nat b) (txn_id t) i k v now) ∧
    txs !! s = Some (t, docs) ∧ root_of docs ≠ root_of (entries_of b txs).

Section Proofs.
Context `{Blake2b, StringStoreLaws D} (junk : nat → ascii) (fanout leaf_fanout B : nat).
Implicit Types s : SQLStore D.

Lemma key_proofs_spec s st c b txs keys : sql_holds fanout leaf_fanout B (sqlledger_ s) st c → N.of_nat c < 2 ^ 32 →
  st_blocks st !! b = Some txs → Forall (committed_in st b txs) keys →
  ∃ tps dps, key_proofs s keys (N.of_nat b) (Some (Z.of_nat (level_of (entries_of b txs)))) = Done (tps, dps) ∧
    (keys ≠ [] → check_details junk (root_of (entries_of b txs)) tps dps = Done false).
Proof.
  intros Hh Hc Hb. induction 1 as [|k keys (Hpk & i & v & now & t & docs & j & Hi & Hdoc & Hj & Hne) _ (tps & dps & IH & _)].
  { by exists [], []. }
  destruct (detail_refused junk fanout leaf_fanout B _ _ _ _ _ _ _ _ _ _ _ _ Hh Hc Hpk Hi Hdoc Hb Hj Hne) as (p & Hp & _ & _ & HV).
  destruct (getDetailProof_fits _ _ _ _ _ Hp) as [Hf1 Hf2].
  destruct (mt_message_roundtrip _ Hf1) as (tp & Htp & Htp'). destruct (mt_message_roundtrip _ Hf2) as (dp & Hdp & Hdp').
  exists (tp :: tps), (dp :: dps). split.
  - cbn [key_proofs]. by rewrite bind_Done, Hp, bind_Done, Htp, bind_Done, Hdp, bind_Done, IH, bind_Done.
  - intros _. cbn [check_details]. rewrite Htp', bind_Done, Hdp', bind_Done. replace (mkDetailProof _ _) with p by (by destruct p).
    by rewrite HV, bind_Done.
Qed.

Lemma GetProof_refused s st c b txs keys : sql_holds fanout leaf_fanout B (sqlledger_ s) st c → N.of_nat c < 2 ^ 32 →
  st_blocks st !! b = Some txs → Forall (committed_in st b txs) keys → keys ≠ [] →
  ∃ r p, ss_GetProof s {[N.of_nat b := keys]} empty_reply = Done (s, r) ∧ r_sproof r = [p] ∧
    BlockProof_Verify (sp_blocks p) (default [] (dg_hash (digest_of_reply r))) [] = Done (true, root_of (entries_of b txs)) ∧
    check_sproofs junk r = Done FAILED.
Proof.
  intros Hh Hc Hb Hk Hne. assert ((2:N) ^ 32 < 2 ^ 64) as H64 by done. pose proof (sh_count _ _ _ _ _ _ Hh) as Hcount.
  destruct (block_provable junk fanout leaf_fanout B (sqlledger_ s) st c b txs Hh Hc Hb)
    as (hash & blks & level & Hd & Hbp & -> & HV & _).
  destruct (key_proofs_spec s st c b txs keys Hh Hc Hb Hk) as (tps & dps & Hkp & Hcheck).
  unfold ss_GetProof, ss_GetDigest. rewrite Hd, bind_Done, bind_Done, nmap_entries_singleton. cbn [block_proofs].
  change (block_of _) with (uint64 (int64 (N.of_nat (length (st_blocks st) - 1)))). rewrite uint64_int64 by lia.
  rewrite Hbp, bind_Done, Hkp, bind_Done, bind_Done. eexists _, (mkSQLLedgerProof blks tps dps). split; [done|]. split; [done|].
  change (default [] _) with hash. cbn [sp_blocks]. split; [apply HV|]. unfold check_sproofs.
  change (default [] _) with hash. change (r_sproof _) with [mkSQLLedgerProof blks tps dps]. cbn [check_blocks sp_blocks].
  rewrite HV, bind_Done. cbn [negb sp_txn_proof sp_data_proof]. by rewrite Hcheck, bind_Done.
Qed.
End Proofs.

(** ** Properties *)

Section Claims.
Context `{Blake2b, StringStoreLaws D} (junk : nat → ascii) (fanout leaf_fanout fuel B : nat) (clock : nat → N).

Lemma store_run (d : D) wal idx ops t : tree_limits fanout leaf_fanout fuel B → (∀ k, ss_get d k = []) →
  let lops := ledger_ops clock 0 ops in Forall (good_op B) lops → (keys_set lops <= fuel)%nat →
  ∃ s, ss_run fanout leaf_fanout fuel clock (create_sql_store d wal idx) ops t = Done s ∧
    sql_holds fanout leaf_fanout B (sqlledger_ s) (spec_run st_init lops) (keys_set lops).
Proof.
  intros Hl Hd lops Hg Hk. destruct (good_run fanout leaf_fanout fuel B d wal idx lops Hl Hd Hg Hk) as (q & Hq & Hh).
  exists (mkSQLStore q (0 + put_count ops)). split; [|exact Hh]. exact (ss_run_ledger fanout leaf_fanout fuel clock (create_sql_store d wal idx) ops t q Hq).
Qed.

(** C10.  A client of a SQL Ledger shard reads the last values: after any writes of values
    without bars and any turns of the thread, the reply to a [BatchGet] has the
    value, the block and the time of every key that was written, in the order
    asked for, and the maps of values that the callbacks make of it and of the
    reply to a [GetRange] are those values.  All calls succeed. *)
Theorem sql_store_reads (d : D) wal idx ops t :
  tree_limits fanout leaf_fanout fuel B → (∀ k, ss_get d k = []) →
  let lops := ledger_ops clock 0 ops in
  Forall (good_op B) lops → Forall plain_op lops → (keys_set lops <= fuel)%nat →
  ∃ s, ss_run fanout leaf_fanout fuel clock (create_sql_store d wal idx) ops t = Done s ∧
    let w := view_run lops in
    (∀ keys, ∃ r, ss_BatchGet fuel s keys empty_reply = Done (s, r) ∧
       r_values r = (found w keys).*1 ∧ r_timestamps r = (found w keys).*2 ∧
       ∀ k, values_of r !! k = if decide (k ∈ keys) then (λ x, x.1.1) <$> vw_map w !! k else None) ∧
    (∀ start fin, ∃ r, ss_GetRange fuel s start fin empty_reply = Done (s, r) ∧
       ∀ k, values_of r !! k = if decide (in_range start fin k) then (λ x, x.1.1) <$> vw_map w !! k else None).
Proof.
  intros Hl Hd lops Hg Hp Hk. destruct (store_run d wal idx ops t Hl Hd Hg Hk) as (s & Hs & Hh). fold lops in Hh.
  exists s. split; [done|]. intros w. pose proof (views_run B lops Hg) as Hv.
  assert (∀ k x, vw_map w !! k = Some x → plain_entry k x) as Hplain by (intros k x; by apply (view_plain B)).
  split.
  - intros keys. eexists. split; [exact (ss_BatchGet_spec fanout leaf_fanout fuel B Hl s _ _ w Hh Hk Hv Hplain keys empty_reply)|].
    destruct (add_all_fields empty_reply (found w keys)) as (Hr1 & Hr2 & _). split; [exact Hr1|]. split; [exact Hr2|].
    intros k. by apply found_values.
  - intros start fin.
    destruct (ss_GetRange_spec fanout leaf_fanout fuel B Hl s _ _ w Hh Hk Hv Hplain start fin empty_reply) as (keys & Hr & Hkeys).
    eexists. split; [exact Hr|]. intros k. destruct (add_all_fields empty_reply (found w keys)) as (Hr1 & _).
    rewrite (found_values w keys _ k Hr1). specialize (Hkeys k).
    destruct (decide (k ∈ keys)) as [Hin|Hin]; [apply Hkeys in Hin as [? _]; by rewrite decide_True|].
    case_decide; [|done]. destruct (vw_map w !! k); [|done]. exfalso. apply Hin, Hkeys. by eauto.
Qed.

(** A client of a SQL Ledger shard refuses every proof of a key: the reply to a
    [GetProof] of keys of a committed block has a chain of blocks that is accepted and
    leads to the root of the block, and still the status of the callback is
    [FAILED], as the roots of the transactions' trees are compared with that of the
    block. *)
Theorem sql_proofs_refused (d : D) wal idx ops t b txs keys :
  tree_limits fanout leaf_fanout fuel B → (∀ k, ss_get d k = []) →
  let lops := ledger_ops clock 0 ops in
  Forall (good_op B) lops → (keys_set lops <= fuel)%nat →
  let st := spec_run st_init lops in
  st_blocks st !! b = Some txs → keys ≠ [] → Forall (committed_in st b txs) keys →
  ∃ s r p, ss_run fanout leaf_fanout fuel clock (create_sql_store d wal idx) ops t = Done s ∧
    ss_GetProof s {[N.of_nat b := keys]} empty_reply = Done (s, r) ∧ r_sproof r = [p] ∧
    BlockProof_Verify (sp_blocks p) (default [] (dg_hash (digest_of_reply r))) [] = Done (true, root_of (entries_of b txs)) ∧
    check_sproofs junk r = Done FAILED.
Proof.
  intros Hl Hd lops Hg Hk st Hb Hne Hkeys. destruct (store_run d wal idx ops t Hl Hd Hg Hk) as (s & Hs & Hh).
  pose proof (tl_fuel _ _ _ _ Hl).
  destruct (GetProof_refused junk fanout leaf_fanout B s st (keys_set lops) b txs keys Hh ltac:(lia) Hb Hkeys Hne) as (r & p & ? & ? & ? & ?).
  by exists s, r, p.
Qed.
End Claims.

(** ** A small shard *)

Definition example_store_ops : list store_op :=
  [Put [ #"a"; #"b"] [ #"1"; #"2"]; Put [ #"a"] [ #"3"]; Turn; Put [ #"c"] [ #"4"]; Turn].
Definition example_store_clock (n : nat) : N := N.of_nat n + 5.

Definition example_store_run `{Blake2b} : outcome (SQLStore MapDB) :=
  ss_run 2 2 5 example_store_clock (create_sql_store empty_db [] []) example_store_ops Timestamp.default.

Lemma example_plain : Forall plain_op (ledger_ops example_store_clock 0 example_store_ops).
Proof.
  assert (∀ c, c ≠ "|"%char → no_bar [c]) as Hc by (intros c Hc E%list_elem_of_singleton; congruence).
  repeat (apply Forall_cons; split); try constructor; repeat (apply Forall_cons; split); try constructor; by apply Hc.
Qed.

Lemma sql_store_reads_witness :
  let _ := toy_blake2b in
  ∃ s r, example_store_run = Done s ∧ ss_BatchGet 5 s [ #"a"; #"z"; #"c"] empty_reply = Done (s, r) ∧
    r_values r = [mkKV #"a" #"3" 0; mkKV #"c" #"4" 1] ∧ r_timestamps r = [6%Z; 7%Z] ∧ values_of r !! #"a" = Some #"3".
Proof.
  intros H. destruct (@sql_store_reads H MapDB _ _ 2 2 5 180 example_store_clock empty_db [] [] example_store_ops Timestamp.default)
    as (s & Hs & Hb & _); [exact example_tree_limits|reflexivity|exact example_ops_good|exact example_plain|cbn; lia|].
  destruct (Hb [ #"a"; #"z"; #"c"]) as (r & Hr & Hv & Ht & Hm). exists s, r. split; [exact Hs|]. split; [exact Hr|].
  split; [rewrite Hv; reflexivity|]. split; [rewrite Ht; reflexivity|]. rewrite Hm. reflexivity.
Defined.

Lemma sql_proofs_refused_witness :
  let _ := toy_blake2b in
  ∃ s r p, example_store_run = Done s ∧ ss_GetProof s {[1 := [ #"c"]]} empty_reply = Done (s, r) ∧ r_sproof r = [p] ∧
    check_sproofs (λ _, "x"%char) r = Done FAILED.
Proof.
  intros H.
  destruct (@sql_proofs_refused H MapDB _ _ (λ _, "x"%char) 2 2 5 180 example_store_clock empty_db [] [] example_store_ops
    Timestamp.default 1 [(2, [ #"1|txn2|0|c|4|7"])] [ #"c"]) as (s & r & p & Hs & Hr & Hp & _ & Hc);
    [exact example_tree_limits|reflexivity|exact example_ops_good|cbn; lia|vm_compute; reflexivity|done| |].
  - apply Forall_singleton. split; [by apply plain_letter|].
    exists 0, #"4", 7, 2, [ #"1|txn2|0|c|4|7"], 0%nat. split; [reflexivity|]. split; [vm_compute; reflexivity|].
    split; [reflexivity|]. vm_compute. discriminate.
  - exists s, r, p. split; [exact Hs|]. split; [exact Hr|]. split; [exact Hp|exact Hc].
Defined.
