(* ===== verification/SQLAudit.v ===== *)
(** * What an audit of SQL Ledger compares

    The log of a run holds the transactions of every block, each under the number
    before its own.  An audit reads them back, rebuilds their trees and the tree of
    the block, and compares the root it gets with the root in the block. *)

From S2P Require Import Prelude Cpp Hash Chunk DB Config LedgerTypes BTreeNode BTree BTreeSpec BTreeReads BTreeMap.
From S2P Require Import MerkleSpec MerkleTree SqlMerkle TxnLog SQLLedger SQLSpec.
From S2P Require Import Txn Reply StoreCommon OCCStore Server ShardClient SQLStore SQLStoreSpec.

Open Scope N_scope.

(** ** The log of a run *)

(** The number that [Set] logs for a transaction. *)
Definition logged_tid (t : N) : N := u64 (t + 2 ^ 64 - 1).

(** What is logged: the entries of every block and those of the next one. *)
Record log_state := mkLogState { lg_done : list (list TxnEntry); lg_next : list TxnEntry }.

Section Log.
Context `{Blake2b}.

Definition log_op (st : sql_state) (g : log_state) (op : sql_op) : log_state :=
match op with
| OpSet keys vals now => mkLogState (lg_done g) (lg_next g ++ [mkTxnEntry keys vals dummy now (logged_tid (st_tid st))])
| OpUpdate => match st_pending st with [] => g | _ => mkLogState (lg_done g ++ [lg_next g]) [] end
end.
End Log.

(** A transaction with the documents of an entry in block [b] under the number [t]. *)
Definition txn_under (t b : N) (e : TxnEntry) : txn :=
  (t, docs_from b (txn_id t) 0 (zip (te_keys e) (te_vals e)) (te_time e)).
(** The transaction of the block, and the one that the audit rebuilds. *)
Definition real_txn (b : N) (e : TxnEntry) : txn := txn_under (u64 (te_txnid e + 1)) b e.
Definition audited_txn (b : N) (e : TxnEntry) : txn := txn_under (te_txnid e) b e.

Lemma logged_tid_succ t : t < 2 ^ 64 → u64 (logged_tid t + 1) = t.
Proof.
  intros Ht. unfold logged_tid, u64. rewrite N.Div0.add_mod_idemp_l. replace (t + 2 ^ 64 - 1 + 1) with (t + 1 * 2 ^ 64) by lia.
  rewrite N.Div0.mod_add. by apply N.mod_small.
Qed.
Lemma logged_tid_small t : logged_tid t < 2 ^ 64.
Proof. apply N.mod_lt. done. Qed.

Lemma real_txn_logged `{Blake2b} st keys vals now : st_tid st < 2 ^ 64 →
  real_txn (st_block st) (mkTxnEntry keys vals dummy now (logged_tid (st_tid st))) = (st_tid st, new_docs st keys vals now).
Proof. intros Ht. unfold real_txn, txn_under. cbn [te_txnid te_keys te_vals te_time]. by rewrite logged_tid_succ. Qed.

Definition encoded (e : TxnEntry) (m : bytes) : Prop := encode_entry e = Done m.
Definition good_entry (e : TxnEntry) : Prop := entry_ok e ∧ te_keys e ≠ [].

Lemma encoded_length e m : entry_ok e → encoded e m → N.of_nat (length m) < 2 ^ 32 ∧ numBytes m = N.of_nat (length m).
Proof.
  intros Hok He. destruct (entry_roundtrip e m [] Hok He) as (_ & Hn & _ & Hs). split; [done|].
  unfold encoded, encode_entry, encode_txn in He. apply bind_Done_inv in He as (pairs & _ & He). cbv zeta in He.
  set (body := le_encode 4 _ ++ _) in He. destruct (N.ltb_spec (N.of_nat (kMetaLength + length body)) (2 ^ 32)); [|done].
  apply Done_inj in He as <-. rewrite <-(app_nil_r (make_chunk kTxnLog body)) at 1. rewrite numBytes_make_chunk by done.
  by rewrite length_make_chunk.
Qed.

(** The bytes of a log grow by less than 2^32 per entry. *)
Definition entries_in (g : log_state) : nat := (length (mjoin (lg_done g)) + length (lg_next g))%nat.

Record log_holds (l : Logger) (st : sql_state) (g : log_state) : Prop := {
  lh_files : ∃ gs ms, TxnLog.logged l gs ms ∧ gs.*1 = N.of_nat <$> seq 0 (length (lg_done g)) ∧
    Forall2 (λ es h, Forall2 encoded es h.2) (lg_done g) gs ∧ Forall2 encoded (lg_next g) ms ∧
    N.of_nat (length (batch_bytes gs ++ mjoin ms)) <= N.of_nat (entries_in g) * 2 ^ 32;
  lh_good : Forall (Forall good_entry) (lg_done g) ∧ Forall good_entry (lg_next g);
  lh_blocks : st_blocks st = imap (λ b es, real_txn (N.of_nat b) <$> es) (lg_done g);
  lh_pending : st_pending st = real_txn (st_block st) <$> lg_next g;
}.

Lemma log_entries l st g : log_holds l st g → length (st_txns st) = entries_in g.
Proof.
  intros [_ _ Hb Hp]. unfold st_txns, entries_in. rewrite Hp, Hb, length_app, length_fmap. f_equal. clear.
  generalize 0%nat as n. assert (∀ n, length (mjoin (imap (λ b es, real_txn (N.of_nat (n + b)) <$> es) (lg_done g)))
    = length (mjoin (lg_done g))) as Hn; [|intros _; apply (Hn 0%nat)].
  induction (lg_done g) as [|es L IH]; intros n; [done|]. cbn [imap]. rewrite !mjoin_cons, !length_app, length_fmap. f_equal.
  rewrite <-(IH (S n)). do 2 f_equal. apply imap_ext. intros i x _. unfold compose. by rewrite Nat.add_succ_r.
Qed.

Section Runs.
Context `{Blake2b, StringStoreLaws D} (fanout leaf_fanout fuel B : nat).
Hypothesis limits : tree_limits fanout leaf_fanout fuel B.
Implicit Types q : SQLLedger D.

#[local] Abbreviation sql_holds := (SQLSpec.sql_holds fanout leaf_fanout B).
#[local] Abbreviation step := (sq_step fanout leaf_fanout fuel).

Lemma set_logger q keys vals now q' : step q (OpSet keys vals now) = Done q' →
  ∃ m, encode_txn now keys vals dummy (logged_tid (tid_ q)) = Done m ∧
    logger_ q' = advance (TxnLog.log (logger_ q) (take (N.to_nat (numBytes m)) m)) (numBytes m).
Proof.
  cbn [sq_step]. intros ([q3 blk] & Hs & E)%bind_Done_inv. apply Done_inj in E as <-. unfold sq_Set in Hs.
  apply bind_Done_inv in Hs as ([[q1 b1] docs] & Ha & Hs). unfold set_assign in Ha. cbv zeta in Ha.
  apply bind_Done_inv in Ha as (docs' & _ & Ha). apply Done_inj in Ha. injection Ha as <- _ _.
  apply bind_Done_inv in Hs as ([q2 m] & Hst & Hs). apply Done_inj in Hs. injection Hs as <- _.
  unfold set_store in Hst. cbv zeta in Hst. apply bind_Done_inv in Hst as ([[t d] ok] & _ & Hst).
  apply bind_Done_inv in Hst as (m' & Hm & Hst). apply Done_inj in Hst. injection Hst as <- <-. by exists m'.
Qed.

Lemma update_logger q q' : update_iteration q = Done q' →
  logger_ q' = if decide (buffer_ q = ∅) then logger_ q else index (logger_ q) (block_seq_ q).
Proof.
  unfold update_iteration. destruct (decide (buffer_ q = ∅)) as [E|E]; [by intros ->%Done_inj|]. cbv zeta.
  intros ([d ls] & _ & Hu)%bind_Done_inv. apply bind_Done_inv in Hu as ([[d' lv] root] & _ & Hu).
  apply bind_Done_inv in Hu as (prev & _ & Hu). by apply Done_inj in Hu as <-.
Qed.

Lemma log_set q st c g keys vals now q' : sql_holds q st c → log_holds (logger_ q) st g → op_ok B keys vals now →
  (c + length keys <= fuel)%nat → step q (OpSet keys vals now) = Done q' →
  log_holds (logger_ q') (spec_op st (OpSet keys vals now)) (log_op st g (OpSet keys vals now)).
Proof.
  intros Hh Hlog Hok Hc Hs. pose proof (log_entries _ _ _ Hlog) as Hn. pose proof (sh_count _ _ _ _ _ _ Hh) as Hcount.
  pose proof (tl_fuel _ _ _ _ limits) as Hf. assert ((2:N) ^ 64 = 2 ^ 32 * 2 ^ 32) as H64 by done.
  destruct (set_logger q keys vals now q' Hs) as (m & Hm & Hl'). rewrite (sh_tid _ _ _ _ _ _ Hh) in Hm.
  set (e := mkTxnEntry keys vals dummy now (logged_tid (st_tid st))). destruct Hok as [Hne Hlen Hnow _ _ _].
  assert (entry_ok e) as He.
  { split; cbn; [done|apply length_ComputeFrom|done|apply logged_tid_small]. }
  destruct (encoded_length e m He Hm) as [Hms Hmn]. rewrite Hmn, Nat2N.id, take_ge in Hl' by lia.
  assert (1 <= length keys)%nat as Hk1 by (destruct keys; [done|cbn; lia]).
  destruct Hlog as [(gs & ms & Hlg & Hseq & Hgs & Hms' & Hsz) [Hg1 Hg2] Hb Hp]. split; cbn [log_op lg_done lg_next].
  - exists gs, (ms ++ [m]).
    assert (N.of_nat (length (batch_bytes gs ++ mjoin (ms ++ [m])))
      <= N.of_nat (entries_in (mkLogState (lg_done g) (lg_next g ++ [e]))) * 2 ^ 32) as Hsz'.
    { rewrite join_snoc, app_assoc, (length_app _ m). unfold entries_in in *. cbn [lg_done lg_next]. rewrite (length_app (lg_next g)). cbn [length]. lia. }
    assert (entries_in (mkLogState (lg_done g) (lg_next g ++ [e])) = S (entries_in g)) as Hen
      by (unfold entries_in; cbn [lg_done lg_next]; rewrite length_app; cbn [length]; lia).
    split; [rewrite Hl'; apply log_logged; [done|rewrite Hen in Hsz'; nia]|]. split; [done|]. split; [done|]. split; [|done].
    apply Forall2_app; [done|]. by repeat constructor.
  - split; [done|]. apply Forall_app. split; [done|]. by apply Forall_singleton.
  - exact Hb.
  - change (st_block (spec_op st (OpSet keys vals now))) with (st_block st). cbn [spec_op st_pending].
    rewrite fmap_app, <-Hp. f_equal.
    exact (f_equal (λ x, [x]) (eq_sym (real_txn_logged st keys vals now ltac:(unfold st_tid; lia)))).
Qed.

Lemma log_update q st c g q' : sql_holds q st c → log_holds (logger_ q) st g → (c <= fuel)%nat →
  update_iteration q = Done q' → log_holds (logger_ q') (spec_op st OpUpdate) (log_op st g OpUpdate).
Proof.
  intros Hh Hlog Hc Hs. pose proof (tl_fuel _ _ _ _ limits) as Hf. pose proof (sh_count _ _ _ _ _ _ Hh) as Hcount.
  assert ((2:N) ^ 32 < 2 ^ 64) as H64 by done.
  rewrite (update_logger q q' Hs). pose proof (sh_buffer _ _ _ _ _ _ Hh) as Hbuf. cbn [spec_op log_op].
  destruct (decide (buffer_ q = ∅)) as [E|E].
  { rewrite E in Hbuf. change (nmap_entries (∅ : gmap N (list bytes))) with ([] : list txn) in Hbuf. by rewrite <-Hbuf. }
  destruct (st_pending st) as [|x txs] eqn:Ep.
  { destruct E. apply map_empty. intros k. apply eq_None_not_Some. intros [y Hy].
    apply elem_of_nmap_entries in Hy. rewrite Hbuf in Hy. by apply elem_of_nil in Hy. }
  rewrite <-Ep in *. rewrite (sh_block_seq _ _ _ _ _ _ Hh).
  assert (length (lg_done g) = length (st_blocks st)) as Hlb by (rewrite (lh_blocks _ _ _ Hlog); by rewrite length_imap).
  destruct Hlog as [(gs & ms & Hlg & Hseq & Hgs & Hms' & Hsz) [Hg1 Hg2] Hb Hp].
  pose proof (Forall2_length _ _ _ Hgs) as Hlgs. split; cbn [lg_done lg_next].
  - exists (gs ++ [(st_block st, ms)]), []. split; [apply index_logged; [done|lia]|]. split.
    { rewrite fmap_app, length_app. cbn [length fmap list_fmap fst]. rewrite Nat.add_1_r, seq_S, fmap_app, Hseq. cbn. unfold st_block. by rewrite Hlb. }
    split; [apply Forall2_app; [done|by repeat constructor]|]. split; [constructor|].
    rewrite batch_bytes_app. cbn [mjoin list_join]. rewrite app_nil_r. unfold batch_bytes at 2. cbn [mbind list_bind snd]. rewrite app_nil_r.
    unfold entries_in in *. cbn [lg_done lg_next length]. rewrite join_snoc, (length_app (mjoin (lg_done g))). lia.
  - split; [|constructor]. apply Forall_app. split; [done|]. by apply Forall_singleton.
  - cbn [st_blocks]. rewrite imap_app. cbn [imap]. rewrite <-Hb, Nat.add_0_r, Hlb. by rewrite Hp.
  - done.
Qed.

(** Both invariants of a run. *)
Fixpoint log_run (st : sql_state) (g : log_state) (ops : list sql_op) : log_state :=
  match ops with [] => g | op :: ops => log_run (spec_op st op) (log_op st g op) ops end.

Lemma run_logs q st c g ops : sql_holds q st c → log_holds (logger_ q) st g → Forall (good_op B) ops → (c + keys_set ops <= fuel)%nat →
  ∃ q', sq_run fanout leaf_fanout fuel q ops = Done q' ∧ sql_holds q' (spec_run st ops) (c + keys_set ops) ∧
    log_holds (logger_ q') (spec_run st ops) (log_run st g ops).
Proof.
  intros Hh Hlog Hops. revert q st c g Hh Hlog. induction Hops as [|op ops Hop Hops IH]; intros q st c g Hh Hlog Hc.
  { exists q. cbn [keys_set sum_list_with]. by rewrite Nat.add_0_r. }
  cbn [keys_set sum_list_with] in Hc. fold (keys_set ops) in Hc.
  assert (∃ q', step q op = Done q' ∧ sql_holds q' (spec_op st op) (c + op_keys op) ∧
    log_holds (logger_ q') (spec_op st op) (log_op st g op)) as (q1 & Hs & Hh1 & Hl1).
  { destruct op as [keys vals now|].
    - destruct (set_holds fanout leaf_fanout fuel B limits q st c keys vals now Hh Hop ltac:(cbn [op_keys] in Hc; lia)) as (q1 & Hs & Hh1).
      exists q1. split; [done|]. split; [done|]. eapply log_set; try done. cbn [op_keys] in Hc; lia.
    - destruct (update_holds fanout leaf_fanout fuel B limits q st c Hh ltac:(lia)) as (q1 & Hs & Hh1).
      exists q1. split; [done|]. cbn [op_keys]. rewrite Nat.add_0_r. split; [done|]. eapply log_update; try done. lia. }
  destruct (IH q1 _ _ _ Hh1 Hl1 ltac:(lia)) as (q2 & Hr & Hh2 & Hl2). exists q2. cbn [sq_run log_run spec_run foldl]. rewrite Hs, bind_Done.
  split; [done|]. cbn [keys_set sum_list_with]. fold (keys_set ops). rewrite Nat.add_assoc. by split.
Qed.

Lemma new_logs (d : D) wal idx : log_holds (logger_ (new_sqlledger d wal idx)) st_init (mkLogState [] []).
Proof.
  split; [|by split|done|done]. exists [], []. split; [apply new_logged|]. split; [done|]. split; [constructor|]. split; [constructor|]. cbn. lia.
Qed.
End Runs.

(** ** Audits *)

Section Audit.
Context `{Blake2b, StringStoreLaws D} (fanout leaf_fanout fuel B : nat).
Hypothesis limits : tree_limits fanout leaf_fanout fuel B.

Lemma audit_docs_spec b txnid i keys vals now : length vals = length keys →
  audit_docs b txnid (N.of_nat i) keys vals now = docs_from b txnid i (zip keys vals) now.
Proof.
  revert i vals. induction keys as [|k keys IH]; intros i [|v vals] Hl; try done. cbn [audit_docs zip zip_with].
  replace (N.of_nat i + 1) with (N.of_nat (S i)) by lia. rewrite IH by (cbn in Hl; lia). unfold docs_from. cbn [imap].
  rewrite Nat.add_0_r. f_equal. apply imap_ext. intros j x _. unfold compose. by rewrite Nat.add_succ_r.
Qed.

Lemma audited_nonnil b e : good_entry e → (audited_txn b e).2 ≠ [].
Proof.
  intros [[Hv _ _ _] Hk]. cbn. unfold docs_from. destruct (te_keys e) as [|k ks], (te_vals e) as [|v vs]; done.
Qed.

(** The trees of the transactions, whatever the store of the auditor held. *)
Lemma audit_txns_spec (d : D) b j es : Forall good_entry es →
  ∃ d', audit_txns d (N.of_nat b) (N.of_nat j) es = Done (d', entries_from b j (audited_txn (N.of_nat b) <$> es)).
Proof.
  intros Hes. revert d j. induction Hes as [|e es He Hes IH]; intros d j; [by exists d|]. cbn [audit_txns]. cbv zeta.
  rewrite (audit_docs_spec _ _ 0) by apply He. destruct (build_any d (txn_id (te_txnid e)) (audited_txn (N.of_nat b) e).2) as [d1 Hb].
  { by apply audited_nonnil. }
  cbn [audited_txn txn_under snd] in Hb. rewrite Hb, bind_Done. replace (N.of_nat j + 1) with (N.of_nat (S j)) by lia.
  destruct (IH d1 (S j)) as [d' ->]. rewrite bind_Done. exists d'. do 2 f_equal. unfold entries_from. cbn [fmap list_fmap imap].
  rewrite Nat.add_0_r. f_equal. apply imap_ext. intros i x _. unfold compose. by rewrite Nat.add_succ_r.
Qed.

Lemma getAudit_spec q st c g b es : sql_holds fanout leaf_fanout B q st c → (c <= fuel)%nat → N.of_nat fuel < 2 ^ 31 →
  log_holds (logger_ q) st g → lg_done g !! b = Some es →
  ∃ txns, getAudit q (N.of_nat b) = Done (mkAuditor (texts (st_blocks st) b) txns (chain_hash (st_blocks st)) (N.of_nat b)) ∧
    ParseTxnEntries txns = Done es.
Proof.
  intros Hh Hc Hf Hlog Hb. pose proof (log_entries _ _ _ Hlog) as Hn. pose proof (sh_count _ _ _ _ _ _ Hh) as Hcount.
  destruct Hlog as [(gs & ms & Hlg & Hseq & Hgs & _ & Hsz) [Hg1 _] Hbl _].
  destruct (Forall2_lookup_l _ _ _ _ _ Hgs Hb) as ([blk ms0] & Hgb & Hms). cbn [snd] in Hms.
  pose proof (lookup_lt_Some _ _ _ Hb) as Hlt. pose proof (Forall2_length _ _ _ Hgs) as Hlgs.
  assert (length (st_blocks st) = length (lg_done g)) as Hlb by (by rewrite Hbl, length_imap).
  assert (blk = N.of_nat b) as ->.
  { assert (gs.*1 !! b = Some blk) as E by (by rewrite list_lookup_fmap, Hgb). rewrite Hseq, list_lookup_fmap, lookup_seq_lt in E by done.
    by injection E. }
  assert (Forall good_entry es) as Hes by (by apply (proj1 (Forall_lookup _ _) Hg1 b)).
  assert ((2:N) ^ 64 = 2 ^ 32 * 2 ^ 32 ∧ (2:N) ^ 32 = 2 * 2 ^ 31) as [H64 H32] by done.
  exists (mjoin ms0). split.
  - unfold getAudit. rewrite (read_logged (logger_ q) gs b (N.of_nat b) ms0 ms Hlg Hgb), bind_Done;
      [|lia|rewrite length_app in Hsz; nia|lia].
    cbv zeta. rewrite (ch_digest _ _ (sh_chain _ _ _ _ _ _ Hh)). unfold digest_text. destruct (length (st_blocks st)) as [|n] eqn:El; [lia|].
    rewrite splitBy_bar by apply chain_hash_no_bar. rewrite splitBy_end by (by apply to_string_no).
    cbn [item lookup list_lookup]. rewrite !bind_Done, stoul_to_string, bind_Done by lia.
    assert (Z.to_N (int_of_ulong (N.of_nat n) mod 2 ^ 64) = N.of_nat n) as ->.
    { unfold int_of_ulong. rewrite u32_small by lia. rewrite (proj2 (Z.ltb_lt _ _)) by lia. rewrite Z.mod_small by lia. lia. }
    replace (N.to_nat (N.of_nat n + 1 - N.of_nat b)) with (length (st_blocks st) - b)%nat by lia.
    rewrite (get_blocks_spec _ (st_blocks st)) by (apply Hh || lia).
    destruct (lookup_lt_is_Some_2 (st_blocks st) b ltac:(lia)) as [txs Htxs].
    assert (txs ≠ []) as Hne by apply (ch_block _ _ (sh_chain _ _ _ _ _ _ Hh) b txs Htxs).
    assert (texts (st_blocks st) b = text_of (chain_hash (take b (st_blocks st))) b txs :: tail (texts (st_blocks st) b)) as Et.
    { unfold texts. rewrite (drop_S _ txs) by done. cbn [imap tail]. by rewrite Nat.add_0_r. }
    rewrite Et at 1. pose proof (block_txns st b txs Htxs).
    rewrite block_level_text, bind_Done by (done || apply chain_hash_no_bar || lia).
    rewrite split_text by (done || apply chain_hash_no_bar). cbn [item lookup list_lookup]. by rewrite !bind_Done.
  - unfold ParseTxnEntries. apply entries_roundtrip; [|exact Hms|done]. eapply Forall_impl; [exact Hes|]. by intros e [? _].
Qed.

(** The verdict: whether the trees over the two names of the transactions have the
same root. *)
Lemma Audit_spec q st c g b es txns (d : D) : sql_holds fanout leaf_fanout B q st c → log_holds (logger_ q) st g →
  lg_done g !! b = Some es → ParseTxnEntries txns = Done es →
  ∃ d', sq_Audit (mkAuditor (texts (st_blocks st) b) txns (chain_hash (st_blocks st)) (N.of_nat b)) d
    = Done (bool_decide (root_of (entries_of b (audited_txn (N.of_nat b) <$> es)) = root_of (entries_of b (real_txn (N.of_nat b) <$> es))),
            d', Some (N.of_nat (length es))).
Proof.
  intros Hh Hlog Hb Hp. destruct Hlog as [_ [Hg1 _] Hbl _].
  assert (st_blocks st !! b = Some (real_txn (N.of_nat b) <$> es)) as Htxs by (by rewrite Hbl, list_lookup_imap, Hb).
  pose proof (lookup_lt_Some _ _ _ Htxs) as Hlt.
  assert (Forall good_entry es) as Hes by (by apply (proj1 (Forall_lookup _ _) Hg1 b)).
  destruct (ch_block _ _ (sh_chain _ _ _ _ _ _ Hh) b _ Htxs) as (Hne & _).
  unfold sq_Audit. cbn [au_blks au_digest au_txns au_block_seq].
  rewrite (chain_verifies (st_blocks st) b []), bind_Done, Htxs by
    (lia || (apply Forall_lookup; intros i x Hi; apply (ch_block _ _ (sh_chain _ _ _ _ _ _ Hh) i x Hi))).
  cbn [negb]. rewrite Hp, bind_Done. destruct (audit_txns_spec d b 0 es Hes) as [d1 Ha]. change (N.of_nat 0) with 0 in Ha.
  rewrite Ha, bind_Done. destruct (build_any d1 (blk_key (N.of_nat b)) (entries_of b (audited_txn (N.of_nat b) <$> es))) as [d2 Hb2].
  { apply entries_nonnil. by destruct es. }
  unfold entries_of in Hb2 at 1. rewrite Hb2, bind_Done. by exists d2.
Qed.
End Audit.

(** ** Properties *)

Section Claims.
Context `{Blake2b, StringStoreLaws D} (fanout leaf_fanout fuel B : nat) (clock : nat → N).

(** C11.  What an audit of SQL Ledger decides: the reply to an audit request for a block
    is parsed into the transactions of that block in order, and the client's
    verdict, whatever its own store holds, is whether the tree over them under the
    numbers in the log has the root that the block has.  The numbers in the log
    are one less than those in the block.  All calls succeed. *)
Theorem sql_audit_verdict (d : D) wal idx ops t b txs :
  tree_limits fanout leaf_fanout fuel B → N.of_nat fuel < 2 ^ 31 → (∀ k, ss_get d k = []) →
  let lops := ledger_ops clock 0 ops in
  Forall (good_op B) lops → (keys_set lops <= fuel)%nat → st_blocks (spec_run st_init lops) !! b = Some txs →
  ∃ s r a es, ss_run fanout leaf_fanout fuel clock (create_sql_store d wal idx) ops t = Done s ∧
    ss_GetAudit s (N.of_nat b) empty_reply = Done (s, r) ∧ r_saudit r = Some a ∧
    lg_done (log_run st_init (mkLogState [] []) lops) !! b = Some es ∧ txs = real_txn (N.of_nat b) <$> es ∧
    ∀ auditor : D, ∃ auditor', sq_Audit (sql_auditor_of a) auditor
      = Done (bool_decide (root_of (entries_of b (audited_txn (N.of_nat b) <$> es)) = root_of (entries_of b txs)),
              auditor', Some (N.of_nat (length txs))).
Proof.
  intros Hl Hf Hd lops Hg Hk Hb.
  destruct (run_logs fanout leaf_fanout fuel B Hl (new_sqlledger d wal idx) st_init 0 (mkLogState [] []) lops) as (q & Hq & Hh & Hlog);
    [by apply (new_holds _ _ _ _ Hl)|apply new_logs|done|done|].
  rewrite (lh_blocks _ _ _ Hlog), list_lookup_imap in Hb. destruct (lg_done _ !! b) as [es|] eqn:Ees; [|done]. injection Hb as <-.
  destruct (getAudit_spec fanout leaf_fanout fuel B q _ _ _ b es Hh Hk Hf Hlog Ees) as (txns & Ha & Hp).
  set (st := spec_run st_init lops) in *. set (g := log_run _ _ _) in *.
  exists (mkSQLStore q (0 + put_count ops)).
  eexists _, (mkSQLLedgerAudit (int64 (N.of_nat b)) (chain_hash (st_blocks st)) txns (texts (st_blocks st) b)), es.
  split; [exact (ss_run_ledger fanout leaf_fanout fuel clock (create_sql_store d wal idx) ops t q Hq)|].
  split; [unfold ss_GetAudit; cbn [sqlledger_]; rewrite Ha, bind_Done; reflexivity|]. split; [done|]. split; [done|]. split; [done|].
  intros auditor. unfold sql_auditor_of. cbn [sa_blocks sa_txns sa_digest sa_block_no].
  pose proof (lookup_lt_Some _ _ _ Ees) as Hlt. pose proof (sh_count _ _ _ _ _ _ Hh) as Hcount.
  assert (length (lg_done g) = length (st_blocks st)) as Hlb by (by rewrite (lh_blocks _ _ _ Hlog), length_imap).
  assert ((2:N) ^ 31 < 2 ^ 64) as H64 by done.
  rewrite uint64_int64 by lia. rewrite length_fmap.
  exact (Audit_spec fanout leaf_fanout B q st _ g b es txns auditor Hh Hlog Ees Hp).
Qed.
End Claims.

Lemma sql_audit_verdict_witness :
  let _ := toy_blake2b in
  ∃ s r a, example_store_run = Done s ∧ ss_GetAudit s 1 empty_reply = Done (s, r) ∧ r_saudit r = Some a ∧
    ∀ auditor : MapDB, ∃ auditor', sq_Audit (sql_auditor_of a) auditor = Done (false, auditor', Some 1).
Proof.
  intros H.
  destruct (@sql_audit_verdict H MapDB _ _ 2 2 5 180 example_store_clock empty_db [] [] example_store_ops Timestamp.default
    1 [(2, [ #"1|txn2|0|c|4|7"])]) as (s & r & a & es & Hs & Hr & Ha & Hes & _ & Hv);
    [exact example_tree_limits|reflexivity|reflexivity|exact example_ops_good|cbn; lia|vm_compute; reflexivity|].
  exists s, r, a. split; [exact Hs|]. split; [exact Hr|]. split; [exact Ha|].
  intros auditor. destruct (Hv auditor) as (auditor' & HA). exists auditor'. rewrite HA.
  assert (es = [mkTxnEntry [ #"c"] [ #"4"] dummy 7 1]) as -> by (apply (inj Some); rewrite <-Hes; reflexivity).
  rewrite bool_decide_false; [reflexivity|]. vm_compute. discriminate.
Defined.
