(* ===== verification/QLStore.v ===== *)
(** * [versionstore.cc] and [shardclient.cc] in the build with QLDB

    The branches under [AMZQLDB]: the versioned store of a shard turns every read
    into a proof of the document it found, for the tip of the ledger at that
    moment, and the callbacks of the shard client check these proofs against the
    digest of the reply. *)

From S2P Require Import Prelude Cpp Hash Chunk DB LedgerTypes BTreeNode BTree QLNode QLDB.
From S2P Require Import Txn Reply StoreCommon OCCStore Server ShardClient.

Open Scope N_scope.

(** ** The store *)

(** The ledger, and how many times its [Set] was called: each call reads the clock and
hashes memory that is not initialised. *)
Record QLDBStore (D : Type) := mkQLDBStore { qldb_ : QLDB D; sets : nat }.
Arguments mkQLDBStore {D} _ _.
Arguments qldb_ {D} _.
Arguments sets {D} _.

(** The only ledger. *)
Definition the_ledger : bytes := #"test".

(** [BPlusConfig::Init(45, 15)] in the constructor. *)
Definition qldb_fanouts : nat * nat := (45, 15)%nat.

(** [p->set_key(...)] and the other fields of a proof. *)
Definition qproof_message (key : bytes) (p : QLProofResult) : QLDBProof :=
  mkQLDBProof key (data_val (qp_data p)) (seq_no (qp_addr p)) (md_doc_seq (qp_meta p))
    (md_version (qp_meta p)) (md_time (qp_meta p)) (qp_proof p) (int32 <$> QLDB.qp_pos p).

Section Store.
Context `{Blake2b, StringStore D} (junk : nat → ascii) (fanout leaf_fanout fuel : nat).
Context (clock : nat → N) (garbage : nat → bytes * bytes) (junk_tip : N).
Implicit Types s : QLDBStore D.

(** The constructor: the ledger is not created, its tip is empty. *)
Definition create_qldb_store (d : D) : QLDBStore D := mkQLDBStore (create_qldb d) 0.

(** [GetDigest] has no branch for this ledger: the tip is not initialised, the hash is empty. *)
Definition qs_GetDigest s (r : Reply) : outcome (QLDBStore D * Reply) :=
Done (s, set_digest r (int64 junk_tip) []).

(** The proof of a document at the tip of [dg], added to the reply. *)
Definition add_document s (dg : DigestInfo) (key : bytes) (m : option bytes) (r : Reply) : outcome Reply :=
doc ← document_of m;
proofres ← ql_getProof (qldb_ s) the_ledger (tip dg) (seq_no (getAddr doc)) (md_doc_seq (getMetaData doc));
Done (add_qproof r (qproof_message key proofres)).

Fixpoint add_documents s (dg : DigestInfo) (key : bytes) (ms : list (option bytes)) (r : Reply) : outcome Reply :=
match ms with
| [] => Done r
| m :: ms => r ← add_document s dg key m r; add_documents s dg key ms r
end.

(** [GetNVersions] *)
Fixpoint add_histories s (dg : DigestInfo) (ver_keys : list (bytes * N)) (r : Reply) : outcome Reply :=
match ver_keys with
| [] => Done r
| key :: ver_keys =>
    result ← ql_GetHistory fuel (qldb_ s) key.1 key.2;
    r ← add_documents s dg key.1 result r;
    add_histories s dg ver_keys r
end.
Definition qs_GetNVersions s (ver_keys : list (bytes * N)) (r : Reply) : outcome (QLDBStore D * Reply) :=
dg ← ql_digest (qldb_ s) the_ledger;
r ← add_histories s dg ver_keys r;
Done (s, r).

(** [BatchGet]: a key without a document is left out. *)
Fixpoint add_committed s (dg : DigestInfo) (keys : list bytes) (r : Reply) : outcome Reply :=
match keys with
| [] => Done r
| key :: keys =>
    result ← ql_GetCommitted fuel (qldb_ s) key;
    r ← (match result with None => Done r | Some _ => add_document s dg key result r end);
    add_committed s dg keys r
end.
Definition qs_BatchGet s (keys : list bytes) (r : Reply) : outcome (QLDBStore D * Reply) :=
dg ← ql_digest (qldb_ s) the_ledger;
r ← add_committed s dg keys (set_digest r (int64 (tip dg)) (digest dg));
Done (s, r).

(** [GetRange] *)
Fixpoint add_range s (dg : DigestInfo) (results : list (bytes * bytes)) (r : Reply) : outcome Reply :=
match results with
| [] => Done r
| e :: results => r ← add_document s dg e.1 (Some e.2) r; add_range s dg results r
end.
Definition qs_GetRange s (start fin : bytes) (r : Reply) : outcome (QLDBStore D * Reply) :=
dg ← ql_digest (qldb_ s) the_ledger;
results ← ql_Range fuel (qldb_ s) start fin;
r ← add_range s dg (map_entries results) (set_digest r (int64 (tip dg)) (digest dg));
Done (s, r).

(** The two overloads of [GetProof] have no branch either. *)
Definition qs_GetProof s (keys : gmap N (list bytes)) (r : Reply) : outcome (QLDBStore D * Reply) := Done (s, r).
Definition qs_GetAudit s (seq : N) (r : Reply) : outcome (QLDBStore D * Reply) := Done (s, r).

(** [put]; the result of [Set] is not used. *)
Definition qs_put s (keys values : list bytes) (t : Timestamp.t) (reply : option Reply)
  : outcome (QLDBStore D * option Reply) :=
let n := sets s in
'(q, _) ← ql_Set junk fanout leaf_fanout fuel (qldb_ s) (clock n) (garbage n).1 (garbage n).2 the_ledger keys values;
let s := mkQLDBStore q (S n) in
match reply with
| None => Done (s, None)
| Some r => '(s, r) ← qs_BatchGet s keys r; Done (s, Some r)
end.

(** [get] *)
Definition qs_get s (key : bytes) : outcome (Timestamp.t * bytes) :=
result ← ql_GetCommitted fuel (qldb_ s) key;
doc ← document_of result;
Done (Timestamp.of_time (md_time (getMetaData doc)), data_val (getData doc)).
End Store.

#[export] Instance qldb_VersionedKVStore `{Blake2b, StringStore D} (junk : nat → ascii)
  (fanout leaf_fanout fuel : nat) (clock : nat → N) (garbage : nat → bytes * bytes) (junk_tip : N)
  : VersionedKVStore (QLDBStore D) := {|
  vs_GetDigest := qs_GetDigest junk_tip;
  vs_BatchGet := qs_BatchGet fuel;
  vs_GetNVersions := qs_GetNVersions fuel;
  vs_GetRange := qs_GetRange fuel;
  vs_GetProof := qs_GetProof;
  vs_GetAudit := qs_GetAudit;
  vs_put := qs_put junk fanout leaf_fanout fuel clock garbage;
|}.

(** ** The client *)

(** The proof in a message, for the document the message describes. *)
Definition prover_of (p : QLDBProof) : QLProofResult :=
  mkQLProof (mkData (qp_key p) (qp_value p)) (mkAddr the_ledger (qp_blockno p))
    (mkMetaData (qp_doc_seq p) (qp_version p) (qp_time p)) (qp_hashes p) (uint64 <$> Reply.qp_pos p).

Section Client.
Context `{Blake2b} (junk : nat → ascii) (junk_status : VerifyStatus).
Context {D : Type}.
Implicit Types s : ShardClient D.

(** The loop over [qproof], from the status [vs] on. *)
Fixpoint check_qproofs (digest : bytes) (ps : list QLDBProof) (vs : VerifyStatus) : outcome VerifyStatus :=
match ps with
| [] => Done vs
| p :: ps =>
    ok ← ql_Verify junk (prover_of p) (Some digest);
    check_qproofs digest ps (if ok : bool then vs else FAILED)
end.
Definition hash_of (r : Reply) : bytes := default [] (dg_hash (digest_of_reply r)).
Definition check_reply (r : Reply) : outcome VerifyStatus :=
check_qproofs (FromBase32 junk (hash_of r)) (r_qproof r) PASS.

(** [values.emplace] and [timestamps.emplace_back] of the proofs. *)
Definition qvalues_of (r : Reply) : gmap bytes bytes :=
foldl (λ m p, match m !! qp_key p with Some _ => m | None => <[qp_key p := qp_value p]> m end) ∅ (r_qproof r).
Definition qtimes_of (r : Reply) : list Timestamp.t := (λ p, Timestamp.of_time (qp_time p)) <$> r_qproof r.

(** [GetRangeCallback] and [BatchGetCallback]: the status of the checks is computed and
not passed on. *)
Definition qc_GetRangeCallback s (r : Reply) : outcome (ShardClient D) :=
match waiting s with
| None => Done s
| Some _ =>
    vs ← check_reply r;
    answer_waiting s (λ x, Promise.Reply_values x (status_of r) (qtimes_of r) (qvalues_of r) [] [])
end.
Definition qc_BatchGetCallback s (r : Reply) : outcome (ShardClient D) :=
match waiting s with
| None => Done s
| Some _ =>
    vs ← check_reply r;
    answer_waiting s (λ x, Promise.Reply_values x (status_of r) (qtimes_of r) (qvalues_of r) [] [])
end.

Definition qc_CommitCallback s (r : Reply) : outcome (ShardClient D) :=
s ← finish_blocking s r;
match waiting s with
| None => Done s
| Some _ =>
    vs ← check_reply r;
    answer_waiting s (λ x, Promise.Reply_verify_keys x (status_of r) vs [] [])
end.

(** [GetProofCallback] and [AuditCallback] check nothing in this build. *)
Definition qc_GetProofCallback s (u : N) (r : Reply) : outcome (ShardClient D) :=
answer_verify s u (λ s, Done (set_tip s (block_of r), PASS)) (status_of r).
Definition qc_AuditCallback s (u : N) (r : Reply) : outcome (ShardClient D) :=
answer_verify s u (λ s, Done (set_tip s (block_of r), junk_status)) (status_of r).

Definition qc_run_callback s (cb : callback) (r : Reply) : outcome (ShardClient D) :=
match cb with
| BatchGetCb => qc_BatchGetCallback s r
| GetRangeCb => qc_GetRangeCallback s r
| GetProofCb u keys => qc_GetProofCallback s u r
| AuditCb seq u => qc_AuditCallback s u r
| PrepareCb => PrepareCallback s r
| CommitCb => qc_CommitCallback s r
| AbortCb => AbortCallback s r
end.
End Client.
