(* ===== verification/QLStoreSpec.v ===== *)
(** * What a client of a QLDB shard can check

    The store of a shard after any writes, and the replies to its reads.  Every reply
    carries the proofs of the documents it reports under the digest it reports, so
    the checks of the client pass; the reply to a commit reports the digest after its
    writes, against which the proofs of its reads do not hold.  The map that the
    refinement of a shard speaks of is what its reads answer. *)

From S2P Require Import Prelude Cpp Hash Chunk DB LedgerTypes BTreeNode BTree BTreeSpec BTreeReads BTreeMap QLNode.
From S2P Require Import MerkleSpec MerkleTree SqlMerkle QLDB QLMerkle QLDBSpec.
From S2P Require Import Txn Reply StoreCommon OCCStore OCCSpec Server ShardClient QLStore.

Open Scope N_scope.

(** ** Replies with proofs *)

Definition add_qproofs (r : Reply) (ps : list QLDBProof) : Reply := foldl add_qproof r ps.

Lemma add_qproofs_app r ps ps' : add_qproofs r (ps ++ ps') = add_qproofs (add_qproofs r ps) ps'.
Proof. apply foldl_app. Qed.

Lemma add_qproofs_fields r ps :
  r_qproof (add_qproofs r ps) = r_qproof r ++ ps ∧ r_digest (add_qproofs r ps) = r_digest r.
Proof.
  revert r. induction ps as [|p ps IH]; intros r; [by rewrite app_nil_r|].
  destruct (IH (add_qproof r p)) as [E1 E2]. cbn [add_qproofs foldl] in *. unfold add_qproofs in *.
  rewrite E1, E2. cbn [add_qproof r_qproof r_digest]. by rewrite <-app_assoc.
Qed.

(** A proof carries a document of the key and is accepted under a digest. *)
Record proved `{Blake2b} (junk : nat → ascii) (digest key : bytes) (doc : Document) (p : QLDBProof) : Prop := {
  pv_key : qp_key p = key;
  pv_value : qp_value p = data_val (getData doc);
  pv_version : qp_version p = md_version (getMetaData doc);
  pv_time : qp_time p = md_time (getMetaData doc);
  pv_verify : ql_Verify junk (prover_of p) (Some (FromBase32 junk digest)) = Done true;
}.

Section Check.
Context `{Blake2b} (junk : nat → ascii).

Lemma ql_Verify_other p a b : ql_Verify junk p (Some a) = Done true → ql_Verify junk p (Some b) = Done (hash_eqb (Some a) (Some b)).
Proof.
  unfold ql_Verify. cbv zeta. intros (h & -> & E)%bind_Done_inv. rewrite bind_Done.
  apply Done_inj in E. unfold hash_eqb in *. apply bool_decide_eq_true in E. by rewrite E.
Qed.

(** Proofs under one digest against another. *)
Lemma check_proved digest digest' ps vs : Forall (λ p, ∃ key doc, proved junk digest key doc p) ps →
  check_qproofs junk (FromBase32 junk digest') ps vs
  = Done (if hash_eqb (Some (FromBase32 junk digest)) (Some (FromBase32 junk digest')) then vs
          else match ps with [] => vs | _ => FAILED end).
Proof.
  intros Hps. revert vs. induction Hps as [|p ps (key & doc & Hp) _ IH]; intros vs; cbn [check_qproofs]; [by case_match|].
  rewrite (ql_Verify_other _ _ _ (pv_verify _ _ _ _ _ Hp)), bind_Done. rewrite IH. destruct (hash_eqb _ _); [done|by destruct ps].
Qed.

Lemma check_app digest ps ps' vs :
  check_qproofs junk digest (ps ++ ps') vs = (vs ← check_qproofs junk digest ps vs; check_qproofs junk digest ps' vs).
Proof.
  revert vs. induction ps as [|p ps IH]; intros vs; [done|]. cbn [app check_qproofs].
  destruct (ql_Verify junk (prover_of p) (Some digest)); [|done]. rewrite !bind_Done. apply IH.
Qed.
(** Lists of documents. *)
Definition stored_doc (S : versions) (kd : bytes * Document) : Prop :=
  ∃ l v, S !! kd.1 = Some l ∧ l !! v = Some kd.2.
Definition all_proved (dg : DigestInfo) (kds : list (bytes * Document)) (ps : list QLDBProof) : Prop :=
  Forall2 (λ kd p, proved junk (digest dg) kd.1 kd.2 p) kds ps.

Lemma last_stored S key doc : last (versions_of S key) = Some doc → stored_doc S (key, doc).
Proof.
  unfold versions_of, stored_doc. cbn. destruct (S !! key) as [l|]; [|done]. cbn. rewrite last_lookup. intros Hl. by eexists _, _.
Qed.

(** The documents of keys, as [BatchGet] finds them. *)
Definition latest_docs (S : versions) (keys : list bytes) : list (bytes * Document) :=
  omap (λ k, pair k <$> last (versions_of S k)) keys.

(** *** Replies *)

Lemma check_answer dg kds ps r : all_proved dg kds ps → r_qproof r = [] → hash_of r = digest dg →
  check_reply junk (add_qproofs r ps) = Done PASS.
Proof.
  intros Hps Hr Hh. destruct (add_qproofs_fields r ps) as [E1 E2]. unfold check_reply, hash_of, digest_of_reply in *.
  rewrite E1, E2, Hr, Hh. cbn [app]. rewrite (check_proved (digest dg)).
  - unfold hash_eqb. by rewrite bool_decide_true.
  - apply Forall_forall. intros p Hp. apply list_elem_of_lookup_1 in Hp as [i Hp].
    destruct (Forall2_lookup_r _ _ _ _ _ Hps Hp) as (kd & _ & ?). by eexists _, _.
Qed.

Lemma answer_keys dg kds ps : all_proved dg kds ps → qp_key <$> ps = kds.*1.
Proof. induction 1 as [|kd p kds ps Hp _ IH]; [done|]. cbn [fmap list_fmap]. f_equal; [apply Hp|exact IH]. Qed.
Lemma answer_texts dg kds ps : all_proved dg kds ps → qp_value <$> ps = (λ kd, data_val (getData kd.2)) <$> kds.
Proof. induction 1 as [|kd p kds ps Hp _ IH]; [done|]. cbn [fmap list_fmap]. f_equal; [apply Hp|exact IH]. Qed.

(** The values in a reply, when each key has one value. *)
Lemma answer_values dg kds ps r f k : all_proved dg kds ps → r_qproof r = [] →
  Forall (λ kd, f kd.1 = Some (data_val (getData kd.2))) kds →
  qvalues_of (add_qproofs r ps) !! k = if decide (k ∈ kds.*1) then f k else None.
Proof.
  intros Hps Hr Hf. unfold qvalues_of. rewrite (proj1 (add_qproofs_fields r ps)), Hr. cbn [app].
  rewrite (emplace_lookup qp_key qp_value f), lookup_empty; [by rewrite (answer_keys dg kds)|].
  intros p Hp. apply list_elem_of_lookup_1 in Hp as [i Hp].
  destruct (Forall2_lookup_r _ _ _ _ _ Hps Hp) as (kd & Hkd & [-> -> _ _ _]). by apply (proj1 (Forall_lookup _ _) Hf i).
Qed.

(** The last value of a key. *)
Definition value_in (S : versions) (k : bytes) : option bytes := (data_val ∘ getData) <$> last (versions_of S k).

Lemma latest_docs_values S keys : Forall (λ kd, value_in S kd.1 = Some (data_val (getData kd.2))) (latest_docs S keys).
Proof.
  apply Forall_forall. intros [k doc] Hin. apply list_elem_of_omap in Hin as (k' & _ & Hk).
  destruct (last (versions_of S k')) as [doc'|] eqn:El; [|done]. injection Hk as -> ->. unfold value_in. cbn. by rewrite El.
Qed.
Lemma latest_docs_keys S keys k :
  (if decide (k ∈ (latest_docs S keys).*1) then value_in S k else None) = if decide (k ∈ keys) then value_in S k else None.
Proof.
  assert (k ∈ (latest_docs S keys).*1 ↔ k ∈ keys ∧ is_Some (value_in S k)) as E.
  { rewrite list_elem_of_fmap. setoid_rewrite list_elem_of_omap. unfold value_in. split.
    - intros ([k1 doc] & -> & k2 & Hk & E). destruct (last (versions_of S k2)) as [doc'|] eqn:El; [|done].
      injection E as -> ->. cbn. rewrite El. by eauto.
    - intros [Hk [x Hx]]. destruct (last (versions_of S k)) as [doc|] eqn:El; [|done]. exists (k, doc). split; [done|].
      exists k. by rewrite El. }
  repeat case_decide; try done; [tauto|]. destruct (value_in S k) eqn:Ev; [|done]. naive_solver.
Qed.


(** The last versions of keys. *)
Definition history_docs (S : versions) (vk : bytes * N) : list (bytes * Document) :=
  pair vk.1 <$> take (Datatypes.S (N.to_nat vk.2)) (reverse (versions_of S vk.1)).

Lemma history_texts S (values : bytes → list bytes) vks : (∀ k, (data_val ∘ getData) <$> versions_of S k = values k) →
  (λ kd, data_val (getData kd.2)) <$> (vks ≫= history_docs S)
  = vks ≫= λ vk, take (Datatypes.S (N.to_nat vk.2)) (reverse (values vk.1)).
Proof.
  intros Hv. induction vks as [|vk vks IH]; [done|]. cbn [mbind list_bind]. rewrite fmap_app, IH. f_equal.
  unfold history_docs. rewrite <-list_fmap_compose, <-Hv, <-fmap_reverse, <-fmap_take. done.
Qed.
Lemma latest_docs_nil S keys : latest_docs S keys = [] ↔ Forall (λ k, value_in S k = None) keys.
Proof.
  unfold latest_docs, value_in. induction keys as [|k keys IH]; [done|]. rewrite Forall_cons, <-IH. cbn [omap list_omap].
  destruct (last (versions_of S k)); cbn [fmap option_fmap option_map]; naive_solver.
Qed.

End Check.

(** ** The store *)

Section Store.
Context `{Blake2b, StringStoreLaws D} (junk : nat → ascii) (fanout leaf_fanout fuel B : nat).
Hypothesis limits : ledger_limits fanout leaf_fanout fuel B the_ledger.
Implicit Types s : QLDBStore D.

#[local] Abbreviation apply_batch := (QLDBSpec.apply_batch the_ledger).
#[local] Abbreviation ledger_holds := (QLDBSpec.ledger_holds fanout leaf_fanout B the_ledger).
(** The store holds the ledger of [bs] and [S], and reports the digest [dg]. *)
Definition dg_of (bs : list qblock) : DigestInfo :=
  mkDigestInfo (N.of_nat (length bs - 1)) (ToBase32_value (root_of (hashes bs))).
Record store_holds s (bs : list qblock) (S : versions) (c : nat) (dg : DigestInfo) : Prop := {
  st_ledger : ledger_holds (qldb_ s) bs S c;
  st_fuel : (c <= fuel)%nat;
  st_digest : ql_digest (qldb_ s) the_ledger = Done dg;
  st_dg : bs ≠ [] → dg = dg_of bs;
}.

Lemma fuel_64 : N.of_nat fuel < 2 ^ 64.
Proof. pose proof (tl_fuel _ _ _ _ (lim_trees _ _ _ _ _ limits)). assert ((2:N) ^ 32 < 2 ^ 64) by done. lia. Qed.

Lemma digest_holds s bs S c : ledger_holds (qldb_ s) bs S c → (c <= fuel)%nat → ∃ dg, store_holds s bs S c dg.
Proof.
  intros Hl Hc. pose proof fuel_64. pose proof (lh_blocks _ _ _ _ _ _ _ _ Hl) as Hb.
  destruct (decide (bs = [])) as [->|Hne].
  - exists (mkDigestInfo 0 (ss_get (ql_db (qldb_ s)) (digest_key the_ledger))). split; [done|done| |done].
    unfold ql_digest. pose proof (ch_tip _ _ _ (lh_chain _ _ _ _ _ _ _ _ Hl)) as Ht. cbn [hashes hashes_from last] in Ht. by rewrite Ht.
  - exists (dg_of bs). split; [done|done| |done]. apply (digest_spec the_ledger); [apply Hl|done|lia].
Qed.

(** *** Documents *)

Lemma positions_roundtrip ps : Forall (λ p, p < 2) ps → uint64 <$> (int32 <$> ps) = ps.
Proof.
  induction 1 as [|p ps Hp _ IH]; [done|]. rewrite !fmap_cons. f_equal; [|exact IH].
  assert (p = 0 ∨ p = 1) as [-> | ->] by lia; done.
Qed.

(** A version of a key is reported with a proof. *)
Lemma add_document_spec s bs S c dg key l v doc r : store_holds s bs S c dg → S !! key = Some l → l !! v = Some doc →
  ∃ p, add_document s dg key (Some (doc_text doc)) r = Done (add_qproof r p) ∧ proved junk (digest dg) key doc p.
Proof.
  intros [Hl Hc Hdg Hdgb] Hk Hv. pose proof fuel_64.
  destruct (provable_doc junk fanout leaf_fanout B the_ledger (qldb_ s) bs S c key l v doc Hl ltac:(lia) Hk Hv)
    as (pr & Hok & Hnm & Hd & Hp & E1 & E2 & E3 & Hpos & HV).
  destruct (vk_doc S (da_ok _ _ _ _ _ _ _ _ (lh_data _ _ _ _ _ _ _ _ Hl)) key l v doc Hk Hv) as (_ & _ & Hkey).
  rewrite Hdg in Hd. injection Hd as ->. cbn [tip digest] in *.
  assert (prover_of (qproof_message key pr) = pr) as Epr.
  { unfold prover_of, qproof_message. cbn [qp_key qp_value qp_blockno qp_doc_seq qp_version qp_time qp_hashes Reply.qp_pos].
    rewrite positions_roundtrip by done. rewrite <-Hkey. unfold doc_key. rewrite <-E1.
    destruct pr as [[dk dv] [an aq] [m1 m2 m3] hs ps]. cbn in *. subst. rewrite <-E2 in Hnm. cbn in Hnm. by rewrite Hnm. }
  exists (qproof_message key pr). split.
  - unfold add_document. cbn [document_of]. rewrite parse_doc, bind_Done by done. cbn [tip]. by rewrite Hp, bind_Done.
  - split; [done|by cbn; rewrite E1|by cbn; rewrite E3|by cbn; rewrite E3|]. cbn [digest]. by rewrite Epr.
Qed.

Lemma add_committed_spec s bs S c dg keys r : store_holds s bs S c dg →
  ∃ ps, add_committed fuel s dg keys r = Done (add_qproofs r ps) ∧ all_proved junk dg (latest_docs S keys) ps.
Proof.
  intros Hs. pose proof Hs as [Hl Hc _ _]. revert r. induction keys as [|k keys IH]; intros r.
  { exists []. split; [done|constructor]. }
  cbn [add_committed]. rewrite (GetCommitted_spec fanout leaf_fanout fuel B the_ledger limits (qldb_ s) c S) by (done || apply Hl).
  rewrite bind_Done. unfold latest_docs. cbn [omap list_omap]. destruct (last (versions_of S k)) as [doc|] eqn:El; cbn [fmap option_fmap option_map].
  - destruct (last_stored S k doc El) as (l & v & Hk & Hv). cbn [fst snd] in *.
    destruct (add_document_spec s bs S c dg k l v doc r Hs Hk Hv) as (p & -> & Hp). rewrite bind_Done.
    destruct (IH (add_qproof r p)) as (ps & -> & Hps). exists (p :: ps). split; [done|]. by constructor.
  - rewrite bind_Done. apply IH.
Qed.

Lemma add_documents_spec s bs S c dg key docs r : store_holds s bs S c dg → Forall (λ doc, stored_doc S (key, doc)) docs →
  ∃ ps, add_documents s dg key ((Some ∘ doc_text) <$> docs) r = Done (add_qproofs r ps) ∧ all_proved junk dg (pair key <$> docs) ps.
Proof.
  intros Hs Hdocs. revert r. induction Hdocs as [|doc docs (l & v & Hk & Hv) _ IH]; intros r.
  { exists []. split; [done|constructor]. }
  destruct (add_document_spec s bs S c dg key l v doc r Hs Hk Hv) as (p & Hp & Hpv).
  destruct (IH (add_qproof r p)) as (ps & Hps & Hpsv). exists (p :: ps). cbn [fmap list_fmap add_documents].
  change ((Some ∘ doc_text) doc) with (Some (doc_text doc)). rewrite Hp, bind_Done, Hps. split; [done|]. by constructor.
Qed.

Lemma add_range_spec s bs S c dg (kds : list (bytes * Document)) r : store_holds s bs S c dg → Forall (stored_doc S) kds →
  ∃ ps, add_range s dg ((λ kd, (kd.1, doc_text kd.2)) <$> kds) r = Done (add_qproofs r ps) ∧ all_proved junk dg kds ps.
Proof.
  intros Hs Hdocs. revert r. induction Hdocs as [|[key doc] kds (l & v & Hk & Hv) _ IH]; intros r.
  { exists []. split; [done|constructor]. }
  destruct (add_document_spec s bs S c dg key l v doc r Hs Hk Hv) as (p & Hp & Hpv).
  destruct (IH (add_qproof r p)) as (ps & Hps & Hpsv). exists (p :: ps). cbn [fmap list_fmap add_range fst snd].
  rewrite Hp, bind_Done, Hps. split; [done|]. by constructor.
Qed.

Lemma BatchGet_spec s bs S c dg keys r : store_holds s bs S c dg →
  ∃ ps, qs_BatchGet fuel s keys r = Done (s, add_qproofs (set_digest r (int64 (tip dg)) (digest dg)) ps) ∧
    all_proved junk dg (latest_docs S keys) ps.
Proof.
  intros Hs. unfold qs_BatchGet. rewrite (st_digest _ _ _ _ _ Hs), bind_Done.
  destruct (add_committed_spec s bs S c dg keys (set_digest r (int64 (tip dg)) (digest dg)) Hs) as (ps & -> & Hps).
  exists ps. by rewrite bind_Done.
Qed.

Lemma entries_docs S (es : list (bytes * bytes)) : Forall (λ e, latest_of S !! e.1 = Some e.2) es →
  ∃ kds, es = (λ kd, (kd.1, doc_text kd.2)) <$> kds ∧ Forall (λ kd, last (versions_of S kd.1) = Some kd.2) kds.
Proof.
  induction 1 as [|[k x] es Hk _ (kds & -> & Hkds)]; [by exists []|]. cbn [fst snd] in Hk. rewrite lookup_latest in Hk.
  destruct (last (versions_of S k)) as [doc|] eqn:El; [|done]. injection Hk as <-. exists ((k, doc) :: kds). by split; [|constructor].
Qed.

Lemma GetRange_spec s bs S c dg start fin r : store_holds s bs S c dg →
  ∃ kds ps, qs_GetRange fuel s start fin r = Done (s, add_qproofs (set_digest r (int64 (tip dg)) (digest dg)) ps) ∧
    all_proved junk dg kds ps ∧ Forall (λ kd, value_in S kd.1 = Some (data_val (getData kd.2))) kds ∧
    ∀ k, k ∈ kds.*1 ↔ in_range start fin k ∧ is_Some (value_in S k).
Proof.
  intros Hs. pose proof Hs as [Hl Hc Hdg _]. unfold qs_GetRange. rewrite Hdg, bind_Done.
  destruct (tree_range fanout leaf_fanout fuel B (lim_trees _ _ _ _ _ limits) _ _ _ _ _ start fin indexed_short Hc
    (da_indexed _ _ _ _ _ _ _ _ (lh_data _ _ _ _ _ _ _ _ Hl))) as (M & -> & HM).
  unfold ql_Range. rewrite HM, bind_Done.
  destruct (entries_docs S (map_entries (range_of start fin (latest_of S)))) as (kds & Ekds & Hkds).
  { apply Forall_forall. intros [k x] Hin%elem_of_map_entries. by apply lookup_range in Hin as [? _]. }
  rewrite Ekds.
  destruct (add_range_spec s bs S c dg kds (set_digest r (int64 (tip dg)) (digest dg)) Hs) as (ps & -> & Hps).
  { eapply Forall_impl; [exact Hkds|]. intros [k doc] Hk. by apply last_stored. }
  exists kds, ps. rewrite bind_Done. split; [done|]. split; [done|]. split.
  { eapply Forall_impl; [exact Hkds|]. intros [k doc] Hk. unfold value_in. cbn in *. by rewrite Hk. }
  intros k. assert (k ∈ kds.*1 ↔ ∃ x, (k, x) ∈ map_entries (range_of start fin (latest_of S))) as ->.
  { rewrite Ekds, list_elem_of_fmap. setoid_rewrite list_elem_of_fmap. split.
    - intros ([k' doc] & -> & Hin). exists (doc_text doc). by exists (k', doc).
    - intros (x & [k' doc] & [= -> ->] & Hin). by exists (k', doc). }
  setoid_rewrite elem_of_map_entries. setoid_rewrite lookup_range. setoid_rewrite lookup_latest. unfold value_in.
  destruct (last (versions_of S k)) as [doc|]; cbn; naive_solver.
Qed.

Lemma add_histories_spec s bs S c dg vks r : store_holds s bs S c dg → Forall (λ vk, versions_of S vk.1 ≠ []) vks →
  ∃ ps, add_histories fuel s dg vks r = Done (add_qproofs r ps) ∧ all_proved junk dg (vks ≫= history_docs S) ps.
Proof.
  intros Hs Hne. pose proof Hs as [Hl Hc _ _]. pose proof (lh_data _ _ _ _ _ _ _ _ Hl) as [Hok _ Hi Hh]. revert r.
  induction Hne as [|[k n] vks Hk _ IH]; intros r; [exists []; by split; [|constructor]|]. cbn [fst] in Hk.
  cbn [add_histories fst snd].
  pose proof (GetHistory_spec fanout leaf_fanout fuel B the_ledger limits (qldb_ s) c S k (N.to_nat n) Hi Hh Hc Hok Hk) as HH.
  rewrite N2Nat.id in HH. rewrite HH, bind_Done.
  destruct (add_documents_spec s bs S c dg k (take (Datatypes.S (N.to_nat n)) (reverse (versions_of S k))) r Hs) as (ps & Hps & Hpv).
  { apply Forall_take, Forall_forall. intros doc Hdoc. rewrite elem_of_reverse in Hdoc. unfold versions_of in Hdoc.
    destruct (S !! k) as [l|] eqn:E; [|by apply elem_of_nil in Hdoc]. apply list_elem_of_lookup_1 in Hdoc as [v Hv]. by exists l, v. }
  destruct (IH (add_qproofs r ps)) as (ps' & Hps' & Hpv'). exists (ps ++ ps'). rewrite Hps, bind_Done, Hps', <-add_qproofs_app.
  split; [done|]. cbn [mbind list_bind]. by apply Forall2_app.
Qed.

Lemma GetNVersions_spec s bs S c dg vks r : store_holds s bs S c dg → Forall (λ vk, versions_of S vk.1 ≠ []) vks →
  ∃ ps, qs_GetNVersions fuel s vks r = Done (s, add_qproofs r ps) ∧ all_proved junk dg (vks ≫= history_docs S) ps.
Proof.
  intros Hs Hne. unfold qs_GetNVersions. rewrite (st_digest _ _ _ _ _ Hs), bind_Done.
  destruct (add_histories_spec s bs S c dg vks r Hs Hne) as (ps & -> & Hps). exists ps. by rewrite bind_Done.
Qed.

(** *** Writes *)

Context (clock : nat → N) (garbage : nat → bytes * bytes).
#[local] Abbreviation put := (qs_put junk fanout leaf_fanout fuel clock garbage).

(** The keys and values of a [put], as the batch of the ledger. *)
Definition put_batch (n : nat) (kvs : list bytes * list bytes) : qbatch :=
  mkBatch (clock n) (garbage n).1 (garbage n).2 kvs.1 kvs.2.
Definition put_batches (n : nat) (puts : list (list bytes * list bytes)) : list qbatch :=
  imap (λ i, put_batch (n + i)) puts.

Fixpoint qs_run s (puts : list (list bytes * list bytes)) (t : Timestamp.t) : outcome (QLDBStore D) :=
  match puts with
  | [] => Done s
  | p :: puts => '(s, _) ← put s p.1 p.2 t None; qs_run s puts t
  end.

Lemma put_spec s bs S c n keys vals t : ledger_holds (qldb_ s) bs S c → sets s = n →
  batch_good B the_ledger (put_batch n (keys, vals)) → (c + length keys <= fuel)%nat →
  let st := apply_batch (bs, S) (put_batch n (keys, vals)) in
  ∃ q, ledger_holds q st.1 st.2 (c + length keys) ∧
    ∀ reply, put s keys vals t reply
    = match reply with
      | None => Done (mkQLDBStore q (Datatypes.S n), None)
      | Some r => '(s, r) ← qs_BatchGet fuel (mkQLDBStore q (Datatypes.S n)) keys r; Done (s, Some r)
      end.
Proof.
  intros Hl Hn Hg Hc st. destruct (ql_Set_spec junk _ _ _ _ _ limits _ _ _ _ (put_batch n (keys, vals)) Hl Hg Hc) as (q & Hset & Hq).
  exists q. split; [done|]. intros reply. unfold qs_put. cbv zeta. rewrite Hn.
  cbn [put_batch ba_now ba_g1 ba_g2 ba_keys ba_vals fst snd] in Hset. rewrite Hset, bind_Done. by destruct reply.
Qed.

Lemma run_spec s bs S c puts t : ledger_holds (qldb_ s) bs S c → Forall (batch_good B the_ledger) (put_batches (sets s) puts) →
  (c + total_keys (put_batches (sets s) puts) <= fuel)%nat →
  let st := foldl apply_batch (bs, S) (put_batches (sets s) puts) in
  ∃ s', qs_run s puts t = Done s' ∧ sets s' = (sets s + length puts)%nat ∧
    ledger_holds (qldb_ s') st.1 st.2 (c + total_keys (put_batches (sets s) puts)).
Proof.
  revert s bs S c. induction puts as [|[keys vals] puts IH]; intros s bs S c Hl Hg Hc.
  { exists s. split; [done|]. cbn. by rewrite !Nat.add_0_r. }
  assert (put_batches (sets s) ((keys, vals) :: puts)
    = put_batch (sets s) (keys, vals) :: put_batches (Datatypes.S (sets s)) puts) as E.
  { unfold put_batches. cbn [imap]. rewrite Nat.add_0_r. f_equal. apply imap_ext. intros i x _. unfold compose.
    by rewrite Nat.add_succ_r. }
  rewrite E in *. apply Forall_cons in Hg as [Hg1 Hg]. cbn [total_keys foldr foldl] in *.
  fold (total_keys (put_batches (Datatypes.S (sets s)) puts)) in *. cbn [put_batch ba_keys fst] in Hc |- *.
  destruct (put_spec s bs S c (sets s) keys vals t Hl eq_refl Hg1 ltac:(lia)) as (q & Hq & Hput).
  destruct (IH (mkQLDBStore q (Datatypes.S (sets s))) _ _ _ Hq Hg ltac:(cbn [sets]; lia)) as (s' & Hr & Hn & Hl').
  exists s'. cbn [qs_run fst snd]. rewrite (Hput None), bind_Done. split; [done|]. cbn [sets length] in *. split; [lia|].
  rewrite <-surjective_pairing in Hl'. rewrite Nat.add_assoc. exact Hl'.
Qed.

(** Two digests of the ledger are the same when their hashes are. *)
Lemma dg_hash_eq s bs S c dg s' bs' S' c' dg' : store_holds s bs S c dg → store_holds s' bs' S' c' dg' → bs ≠ [] → bs' ≠ [] →
  hash_eqb (Some (FromBase32 junk (digest dg))) (Some (FromBase32 junk (digest dg'))) = bool_decide (digest dg = digest dg').
Proof.
  intros [Hl _ _ Hdg] [Hl' _ _ Hdg'] Hn Hn'. rewrite (Hdg Hn), (Hdg' Hn'). unfold hash_eqb. apply bool_decide_ext. split; [|by intros ->].
  assert (∀ q c S bs, ledger_holds q bs S c → bs ≠ [] → length (root_of (hashes bs)) = kByteLength) as Hlen.
  { intros q c0 S0 bs0 Hq Hne. apply length_root_of.
    - intros E. pose proof (length_hashes bs0) as Hb. rewrite E in Hb. by destruct bs0.
    - apply hashes_sized. apply (ch_good _ _ _ (lh_chain _ _ _ _ _ _ _ _ Hq)). }
  cbn [digest dg_of]. pose proof (Hlen _ _ _ _ Hl Hn) as L1. pose proof (Hlen _ _ _ _ Hl' Hn') as L2.
  rewrite !FromBase32_ToBase32, !take_ge by lia. by intros ->.
Qed.

(** A [put] with a reply after reads: the checks of the reads are against the new digest. *)
Lemma put_answer s bs S c dg keys vals t r ps rk : store_holds s bs S c dg → keys ≠ [] →
  batch_good B the_ledger (put_batch (sets s) (keys, vals)) → (c + length keys <= fuel)%nat →
  all_proved junk dg (latest_docs S rk) ps → r_qproof r = [] →
  ∃ s' r' dg', put s keys vals t (Some (add_qproofs r ps)) = Done (s', Some r') ∧
    ql_digest (qldb_ s') the_ledger = Done dg' ∧
    check_reply junk r'
    = Done (if bool_decide (digest dg = digest dg') || bool_decide (Forall (λ k, value_in S k = None) rk) then PASS else FAILED).
Proof.
  intros Hs Hk Hg Hc Hps Hr. destruct (put_spec s bs S c (sets s) keys vals t (st_ledger _ _ _ _ _ Hs) eq_refl Hg Hc) as (q & Hq & Hput).
  set (s' := mkQLDBStore q (Datatypes.S (sets s))). destruct (digest_holds s' _ _ _ Hq Hc) as [dg' Hs'].
  destruct (BatchGet_spec s' _ _ _ dg' keys (add_qproofs r ps) Hs') as (ps' & HB & Hps').
  eexists s', _, dg'. split; [rewrite Hput; fold s'; rewrite HB, bind_Done; done|]. split; [apply Hs'|].
  set (r1 := set_digest _ _ _). assert (r_qproof r1 = ps) as Hr1.
  { change (r_qproof r1) with (r_qproof (add_qproofs r ps)). by rewrite (proj1 (add_qproofs_fields r ps)), Hr. }
  destruct (add_qproofs_fields r1 ps') as [E1 E2]. unfold check_reply, hash_of, digest_of_reply. rewrite E1, E2, Hr1, check_app.
  change (default [] _) with (digest dg').
  assert (∀ dg kds ps, all_proved junk dg kds ps → Forall (λ p, ∃ key doc, proved junk (digest dg) key doc p) ps) as Hall.
  { intros dg0 kds0 ps0 H0'. apply Forall_forall. intros p Hp. apply list_elem_of_lookup_1 in Hp as [i Hp].
    destruct (Forall2_lookup_r _ _ _ _ _ H0' Hp) as (kd & _ & ?). by eexists _, _. }
  rewrite (check_proved junk (digest dg)), bind_Done by (by eapply Hall).
  rewrite (check_proved junk (digest dg')) by (by eapply Hall). unfold hash_eqb at 1. rewrite (bool_decide_true (_ = _)) by done.
  f_equal. destruct (decide (latest_docs S rk = [])) as [E|E].
  - rewrite (bool_decide_true (Forall _ _)) by (by apply latest_docs_nil). rewrite orb_true_r.
    rewrite E in Hps. apply Forall2_nil_inv_l in Hps as ->. by case_match.
  - rewrite (bool_decide_false (Forall _ _)) by (by rewrite <-latest_docs_nil). rewrite orb_false_r.
    assert (ps ≠ []) as Hpn by (intros ->; by apply Forall2_nil_inv_r in Hps).
    rewrite (dg_hash_eq s bs S c dg s' _ _ _ dg' Hs Hs'); [by destruct (bool_decide _), ps| |].
    + intros ->. apply E. apply latest_docs_nil, Forall_forall. intros k _. unfold value_in, versions_of.
      destruct (S !! k) as [l|] eqn:El; [|done]. cbn. rewrite last_lookup. destruct (l !! pred (length l)) as [doc|] eqn:Ed; [|done].
      destruct (lh_place _ _ _ _ _ _ _ _ (st_ledger _ _ _ _ _ Hs) k l _ doc El Ed) as (_ & i & b & _ & Hb & _). by rewrite lookup_nil in Hb.
    + unfold apply_batch. cbn [put_batch ba_keys fst snd]. destruct keys as [|k0 ks0]; [done|]. cbn [fst]. by intros [_ ?]%app_eq_nil.
Qed.

(** *** Runs from an empty store *)

Section Claims.
Context (d : D) (puts : list (list bytes * list bytes)) (t : Timestamp.t).
Hypothesis empty : ∀ k, ss_get d k = [].
Hypothesis good : Forall (batch_good B the_ledger) (put_batches 0 puts).
Hypothesis room : (total_keys (put_batches 0 puts) <= fuel)%nat.

(** The values that the writes gave a key, in order. *)
Definition values_put (k : bytes) : list bytes := omap (batch_value k) (put_batches 0 puts).

Lemma run_store : ∃ s bs S dg, qs_run (create_qldb_store d) puts t = Done s ∧ sets s = length puts ∧
  store_holds s bs S (total_keys (put_batches 0 puts)) dg ∧ (∀ k, (data_val ∘ getData) <$> versions_of S k = values_put k).
Proof.
  pose proof (ledger_created fanout leaf_fanout fuel B the_ledger limits d empty) as Hl.
  destruct (run_spec (create_qldb_store d) [] ∅ 0 puts t Hl good room) as (s & Hr & Hn & Hs). cbn [sets create_qldb_store] in *.
  destruct (digest_holds s _ _ _ Hs room) as [dg Hdg]. eexists s, _, _, dg. split; [done|]. split; [done|]. split; [exact Hdg|].
  intros k. apply batches_values.
Qed.

Lemma value_in_put S k : (data_val ∘ getData) <$> versions_of S k = values_put k → value_in S k = last (values_put k).
Proof. intros <-. unfold value_in. by rewrite fmap_last. Qed.
End Claims.
End Store.

Section Theorems.
Context `{Blake2b, StringStoreLaws D} (junk : nat → ascii) (fanout leaf_fanout fuel B : nat).
Context (clock : nat → N) (garbage : nat → bytes * bytes).

(** C9.  A client of a QLDB shard gets the values of the shard with proofs that pass its
    checks: after any writes on an empty store, the reply to a [BatchGet] has the
    last values of the keys asked for, the reply to a [GetRange] those of the keys
    in the range, and the last versions that [GetNVersions] adds to a reply have the
    values that were written, the newest first; in each case the status of the
    callback is [PASS].  All calls succeed. *)
Theorem qldb_reads_verified (d : D) puts t :
  ledger_limits fanout leaf_fanout fuel B the_ledger → (∀ k, ss_get d k = []) →
  Forall (batch_good B the_ledger) (put_batches clock garbage 0 puts) →
  (total_keys (put_batches clock garbage 0 puts) <= fuel)%nat →
  ∃ s, qs_run junk fanout leaf_fanout fuel clock garbage (create_qldb_store d) puts t = Done s ∧
    let values := values_put clock garbage puts in
    (∀ keys, ∃ r, qs_BatchGet fuel s keys empty_reply = Done (s, r) ∧ check_reply junk r = Done PASS ∧
       ∀ k, qvalues_of r !! k = if decide (k ∈ keys) then last (values k) else None) ∧
    (∀ start fin, ∃ r, qs_GetRange fuel s start fin empty_reply = Done (s, r) ∧ check_reply junk r = Done PASS ∧
       ∀ k, qvalues_of r !! k = if decide (in_range start fin k) then last (values k) else None) ∧
    (∀ keys vks, Forall (λ vk, values vk.1 ≠ []) vks →
       ∃ r r', qs_BatchGet fuel s keys empty_reply = Done (s, r) ∧ qs_GetNVersions fuel s vks r = Done (s, r') ∧
       check_reply junk r' = Done PASS ∧
       ∃ ps, r_qproof r' = r_qproof r ++ ps ∧
         qp_value <$> ps = vks ≫= λ vk, take (S (N.to_nat vk.2)) (reverse (values vk.1))).
Proof.
  intros Hl He Hg Hr. destruct (run_store junk fanout leaf_fanout fuel B Hl clock garbage d puts t He Hg Hr)
    as (s & bs & S & dg & Hrun & _ & Hs & Hv).
  exists s. split; [done|]. intros values. fold values in Hv.
  assert (∀ k, value_in S k = last (values k)) as Hval by (intros k; by apply (value_in_put clock garbage)).
  split; [|split].
  - intros keys. destruct (BatchGet_spec junk fanout leaf_fanout fuel B Hl s bs S _ dg keys empty_reply Hs) as (ps & HB & Hps).
    eexists. split; [exact HB|]. split; [by eapply check_answer|]. intros k.
    rewrite (answer_values junk dg _ _ (set_digest empty_reply (int64 (tip dg)) (digest dg)) (value_in S) k Hps eq_refl (latest_docs_values S keys)), latest_docs_keys.
    case_decide; [apply Hval|done].
  - intros start fin. destruct (GetRange_spec junk fanout leaf_fanout fuel B Hl s bs S _ dg start fin empty_reply Hs)
      as (kds & ps & HB & Hps & Hvals & Hin).
    eexists. split; [exact HB|]. split; [by eapply check_answer|]. intros k.
    rewrite (answer_values junk dg _ _ (set_digest empty_reply (int64 (tip dg)) (digest dg)) (value_in S) k Hps eq_refl Hvals), <-Hval. specialize (Hin k).
    destruct (decide (k ∈ kds.*1)) as [Hk|Hk]; [apply Hin in Hk as [? _]; by rewrite decide_True|].
    case_decide; [|done]. destruct (value_in S k); [|done]. exfalso. apply Hk, Hin. by eauto.
  - intros keys vks Hne. destruct (BatchGet_spec junk fanout leaf_fanout fuel B Hl s bs S _ dg keys empty_reply Hs) as (ps & HB & Hps).
    set (r := set_digest _ _ _) in HB.
    destruct (GetNVersions_spec junk fanout leaf_fanout fuel B Hl s bs S _ dg vks (add_qproofs r ps) Hs) as (ps' & HG & Hps').
    { eapply Forall_impl; [exact Hne|]. intros vk Hk E. apply Hk. by rewrite <-(Hv vk.1), E. }
    eexists _, _. split; [exact HB|]. split; [exact HG|]. split.
    + rewrite <-add_qproofs_app. eapply check_answer; [by apply Forall2_app|done|done].
    + exists ps'. split; [apply add_qproofs_fields|]. rewrite (answer_texts junk dg _ _ Hps'). by apply history_texts.
Qed.

(** C40.  The callback of a commit checks the proofs of the transaction's reads, which
    were made before its writes, against the digest after them: when a prepared
    transaction that writes something is committed, the status is [FAILED] unless
    none of the keys it read has a value or the writes did not change the digest. *)
Theorem qldb_commit_checked `{IterOrder} (d : D) puts t junk_tip prepared id ts txn :
  ledger_limits fanout leaf_fanout fuel B the_ledger → (∀ k, ss_get d k = []) →
  Forall (batch_good B the_ledger) (put_batches clock garbage 0 puts) →
  let reads := (iter_order (Transaction.readSet txn)).*1 in
  let writes := iter_order (Transaction.writeSet txn) in
  prepared !! id = Some txn → writes ≠ [] →
  batch_good B the_ledger (put_batch clock garbage (length puts) (writes.*1, writes.*2)) →
  (total_keys (put_batches clock garbage 0 puts) + length writes <= fuel)%nat →
  let occ := qldb_VersionedKVStore junk fanout leaf_fanout fuel clock garbage junk_tip in
  ∃ s o r dg dg', qs_run junk fanout leaf_fanout fuel clock garbage (create_qldb_store d) puts t = Done s ∧
    Commit_versions (mkOCCStore s prepared) id ts [] empty_reply = Done (o, r) ∧
    ql_digest (qldb_ s) the_ledger = Done dg ∧ ql_digest (qldb_ (store o)) the_ledger = Done dg' ∧
    check_reply junk r
    = Done (if bool_decide (digest dg = digest dg') ||
              bool_decide (Forall (λ k, values_put clock garbage puts k = []) reads) then PASS else FAILED).
Proof.
  intros Hl He Hg reads writes Hp Hw Hgw Hr occ.
  destruct (run_store junk fanout leaf_fanout fuel B Hl clock garbage d puts t He Hg ltac:(lia))
    as (s & bs & S & dg & Hrun & Hn & Hs & Hv).
  assert (∃ r1 ps, r_qproof r1 = [] ∧ all_proved junk dg (latest_docs S reads) ps ∧
    (if (0 <? length reads)%nat then vs_BatchGet s reads (set_digest empty_reply (int64 junk_tip) []) 
     else Done (s, set_digest empty_reply (int64 junk_tip) [])) = Done (s, add_qproofs r1 ps)) as (r1 & ps & Hr1 & Hps & HB).
  { destruct (Nat.ltb_spec 0 (length reads)) as [Hpos|Hz].
    - destruct (BatchGet_spec junk fanout leaf_fanout fuel B Hl s bs S _ dg reads (set_digest empty_reply (int64 junk_tip) []) Hs)
        as (ps & HB & Hps). exists (set_digest (set_digest empty_reply (int64 junk_tip) []) (int64 (tip dg)) (digest dg)), ps.
      split; [done|]. split; [exact Hps|exact HB].
    - assert (reads = []) as E by (by apply length_zero_iff_nil, Nat.le_0_r). rewrite E.
      exists (set_digest empty_reply (int64 junk_tip) []), []. split; [done|]. split; [constructor|done]. }
  rewrite <-Hn in Hgw. assert (writes.*1 ≠ []) as Hw1 by (by destruct writes).
  destruct (put_answer junk fanout leaf_fanout fuel B Hl clock garbage s bs S _ dg writes.*1 writes.*2 (Timestamp.of_time ts) r1 ps reads
    Hs Hw1 Hgw ltac:(by rewrite length_fmap) Hps Hr1) as (s' & r' & dg' & Hput & Hdg' & Hcheck).
  exists s, (mkOCCStore s' (delete id prepared)), r', dg, dg'. split; [done|]. split; [|split; [apply Hs|split; [done|]]].
  - subst occ. unfold Commit_versions. rewrite bool_decide_true by (by eexists). cbn [OCCStore.prepared store].
    rewrite ASSERT_bind by done. rewrite Hp. change (default Transaction.empty (Some txn)) with txn. fold reads writes. cbv zeta.
    change (vs_GetDigest s empty_reply) with (Done (s, set_digest empty_reply (int64 junk_tip) [])). rewrite bind_Done.
    rewrite HB, bind_Done. change (0 <? length [])%nat with false. cbv iota. rewrite bind_Done, (proj2 (Nat.ltb_lt _ _)).
    + cbn [vs_put qldb_VersionedKVStore]. by rewrite Hput, bind_Done.
    + destruct writes.*1; [done|cbn; lia].
  - rewrite Hcheck. rewrite (bool_decide_ext (Forall (λ k, value_in S k = None) reads)
      (Forall (λ k, values_put clock garbage puts k = []) reads)); [done|]. apply Forall_iff. intros k.
    rewrite (value_in_put clock garbage puts S k (Hv k)). apply last_None.
Qed.
End Theorems.

(** ** The map of a shard and its reads

    The refinement of a shard speaks of the map of what was put ([kv_map]).  On a
    QLDB shard that map is what the reads answer. *)

Lemma last_of_pairs (l : list (bytes * bytes)) k : NoDup l.*1 →
  last (filter (λ kv, kv.1 = k) l).*2 = list_to_map (M := gmap bytes bytes) l !! k.
Proof.
  induction l as [|[k' v] l IH]; intros Hnd; [done|]. apply NoDup_cons in Hnd as [Hk Hnd]. cbn [list_to_map foldr].
  rewrite filter_cons. cbn [fst snd]. destruct (decide (k' = k)) as [->|Hne].
  - rewrite lookup_insert_eq. apply (not_elem_of_list_to_map (M := gmap bytes) l k) in Hk.
    rewrite <-IH in Hk by done. apply last_None in Hk. cbn. by rewrite Hk.
  - by rewrite lookup_insert_ne, IH.
Qed.

Definition put_ok (p : list bytes * list bytes) : Prop := length p.1 = length p.2 ∧ NoDup p.1.
Definition put_map (m : gmap bytes bytes) (p : list bytes * list bytes) : gmap bytes bytes :=
  list_to_map (zip p.1 p.2) ∪ m.

Lemma put_batch_value clock garbage n p k : put_ok p →
  batch_value k (put_batch clock garbage n p) = list_to_map (M := gmap bytes bytes) (zip p.1 p.2) !! k.
Proof. intros [Hl Hnd]. unfold batch_value. cbn. apply last_of_pairs. rewrite fst_zip; [done|lia]. Qed.

Lemma puts_map clock garbage puts k : Forall put_ok puts →
  foldl put_map ∅ puts !! k = last (values_put clock garbage puts k).
Proof.
  unfold values_put, put_batches. induction puts as [|p puts IH] using rev_ind; intros HF; [done|].
  apply Forall_app in HF as [HF [Hp _]%Forall_cons].
  rewrite foldl_app, imap_app, omap_app, last_app. cbn [foldl imap omap list_omap]. unfold put_map at 1.
  rewrite lookup_union, IH, (put_batch_value clock garbage _ p) by done.
  by destruct (list_to_map (zip p.1 p.2) !! k), (last _).
Qed.

Definition loads (puts : list (list bytes * list bytes)) (t : Timestamp.t) : list occ_op :=
  (λ p, OpLoad p.1 p.2 t) <$> puts.

Section Map.
Context `{Blake2b, IterOrderLaws, StringStoreLaws D} (junk : nat → ascii) (fanout leaf_fanout fuel B : nat).
Context (clock : nat → N) (garbage : nat → bytes * bytes) (junk_tip : N).
#[local] Instance shard : VersionedKVStore (QLDBStore D) :=
  qldb_VersionedKVStore junk fanout leaf_fanout fuel clock garbage junk_tip.

Lemma run_loads s puts t s' : qs_run junk fanout leaf_fanout fuel clock garbage s puts t = Done s' →
  run_ops (mkOCCStore s ∅) (loads puts t) = Done (mkOCCStore s' ∅).
Proof.
  revert s. induction puts as [|p puts IH]; intros s Hr; [cbn in *; by simplify_eq|].
  cbn [qs_run loads fmap list_fmap run_ops run_op] in *. unfold Load. cbn [vs_put shard qldb_VersionedKVStore store] in *.
  destruct (qs_put _ _ _ _ _ _ _ _ _ _ _) as [[s1 r1]|]; cbn in *; [by apply IH|done].
Qed.

Lemma spec_loads puts t m : spec_ops (mkSpec m ∅) (loads puts t) = mkSpec (foldl put_map m puts) ∅.
Proof. revert m. induction puts as [|p puts IH]; intros m; [done|]. apply IH. Qed.

(** A shard that loads pairs and keeps their map succeeds, and a [BatchGet] of its
    QLDB store answers with the map's values, under proofs that pass the checks. *)
Theorem qldb_map_read (d : D) puts t :
  ledger_limits fanout leaf_fanout fuel B the_ledger → (∀ k, ss_get d k = []) →
  Forall (batch_good B the_ledger) (put_batches clock garbage 0 puts) → Forall put_ok puts →
  (total_keys (put_batches clock garbage 0 puts) <= fuel)%nat →
  ∃ o, run_ops (mkOCCStore (mkRecorded (create_qldb_store d) ∅) ∅) (loads puts t) = Done o ∧
    ∀ keys, ∃ r, qs_BatchGet fuel (rec_store (store o)) keys empty_reply = Done (rec_store (store o), r) ∧
      check_reply junk r = Done PASS ∧ ∀ k, k ∈ keys → qvalues_of r !! k = kv_map (store o) !! k.
Proof.
  intros Hl He Hg Hok Hr. destruct (run_store junk fanout leaf_fanout fuel B Hl clock garbage d puts t He Hg Hr)
    as (s & bs & S & dg & Hrun & _ & Hs & Hv).
  apply run_loads in Hrun. set (o0 := mkOCCStore (mkRecorded (create_qldb_store d) ∅) ∅).
  pose proof (run_ops_erase o0 (loads puts t)) as E. unfold erase in E. cbn in E. rewrite Hrun in E.
  destruct (run_ops o0 (loads puts t)) as [o|] eqn:Ho; [|discriminate E]. cbn in E.
  assert (abs o = spec_ops (abs o0) (loads puts t)) as Ha.
  { apply run_ops_abs; [|exact Ho]. apply Forall_fmap. exact Hok. }
  unfold abs, o0 in Ha. cbn [store prepared kv_map recorded_KVSpec rec_map] in Ha. rewrite spec_loads in Ha.
  injection Ha as Hm _. injection E as Es _. exists o. split; [done|]. rewrite Es. intros keys.
  destruct (BatchGet_spec junk fanout leaf_fanout fuel B Hl s bs S _ dg keys empty_reply Hs) as (ps & HB & Hps).
  eexists. split; [exact HB|]. split; [by eapply check_answer|]. intros k Hk.
  rewrite (answer_values junk dg _ _ (set_digest empty_reply (int64 (tip dg)) (digest dg)) (value_in S) k Hps eq_refl (latest_docs_values S keys)), latest_docs_keys.
  rewrite decide_True by done. cbn [kv_map recorded_KVSpec]. rewrite Hm, (puts_map clock garbage) by done.
  by apply (value_in_put clock garbage).
Qed.
End Map.

(** ** A small shard: two writes, leaves of two entries *)

Definition example_clock (n : nat) : N := N.of_nat n + 1.
Definition example_garbage (n : nat) : bytes * bytes := (#"x", #"0123456789abcdef").
Definition example_puts : list (list bytes * list bytes) := [([ #"a"; #"b"], [ #"1"; #"2"]); ([ #"a"], [ #"3"])].

Lemma example_store_limits : ledger_limits 2 2 5 80 the_ledger.
Proof.
  split; [split; [lia|lia|done|done]| | |].
  - by apply (bool_decide_unpack (("|"%char) ∉ the_ledger)).
  - intros [s E]. discriminate E.
  - intros [s E]. discriminate E.
Qed.
Lemma example_put_good n p : p ∈ example_puts ++ [([ #"b"], [ #"7"])] → N.of_nat n + 1 < 2 ^ 64 →
  batch_good 80 the_ledger (put_batch example_clock example_garbage n p).
Proof.
  intros Hp Hn. repeat (apply elem_of_cons in Hp as [->|Hp]); [..|by apply elem_of_nil in Hp].
  all: split; [done|exact Hn|repeat constructor; cbn; try lia; done|done].
Qed.
Lemma example_puts_good : Forall (batch_good 80 the_ledger) (put_batches example_clock example_garbage 0 example_puts).
Proof. apply Forall_cons. split; [by apply example_put_good; [left|]|]. apply Forall_singleton. by apply example_put_good; [right; left|]. Qed.

Lemma qldb_reads_verified_witness :
  let _ := toy_blake2b in
  let junk := λ _, "x"%char in
  ∃ s r, qs_run junk 2 2 5 example_clock example_garbage (create_qldb_store empty_db) example_puts Timestamp.default = Done s ∧
    qs_BatchGet 5 s [ #"a"; #"z"] empty_reply = Done (s, r) ∧ check_reply junk r = Done PASS ∧
    qvalues_of r !! #"a" = Some #"3" ∧ qvalues_of r !! #"z" = None ∧ qvalues_of r !! #"b" = None.
Proof.
  intros H junk.
  destruct (@qldb_reads_verified H MapDB _ _ junk 2 2 5 80 example_clock example_garbage empty_db example_puts Timestamp.default)
    as (s & Hs & Hb & _); [exact example_store_limits|reflexivity|exact example_puts_good|cbn; lia|].
  destruct (Hb [ #"a"; #"z"]) as (r & Hr & Hc & Hv). exists s, r. split; [exact Hs|]. split; [exact Hr|]. split; [exact Hc|].
  rewrite !Hv. repeat split; reflexivity.
Defined.

Lemma qldb_commit_checked_witness :
  let _ := toy_blake2b in
  let junk := λ _, "x"%char in
  let _ := qldb_VersionedKVStore junk 2 2 5 example_clock example_garbage 0 in
  let txn := Transaction.mk {[ #"a" := Timestamp.default]} {[ #"b" := #"7"]} in
  ∃ s o r dg dg', qs_run junk 2 2 5 example_clock example_garbage (create_qldb_store empty_db) example_puts Timestamp.default = Done s ∧
    Commit_versions (mkOCCStore s {[1 := txn]}) 1 0 [] empty_reply = Done (o, r) ∧
    ql_digest (qldb_ s) the_ledger = Done dg ∧ ql_digest (qldb_ (store o)) the_ledger = Done dg' ∧
    check_reply junk r = Done (if bool_decide (digest dg = digest dg') then PASS else FAILED).
Proof.
  intros H junk occ txn.
  destruct (@qldb_commit_checked H MapDB _ _ junk 2 2 5 80 example_clock example_garbage _ empty_db example_puts Timestamp.default
    0 {[1 := txn]} 1 0 txn) as (s & o & r & dg & dg' & Hs & Hr & Hd & Hd' & Hc);
    [exact example_store_limits|reflexivity|exact example_puts_good|reflexivity|discriminate| |by apply Nat.leb_le|].
  - by apply example_put_good; [right; right; left|].
  - exists s, o, r, dg, dg'. split; [exact Hs|]. split; [exact Hr|]. split; [exact Hd|]. split; [exact Hd'|].
    rewrite Hc. by destruct (bool_decide (digest dg = digest dg')).
Defined.
